(* ===== verification/_CoqProject ===== *)
-Q . S2P
Prelude.v
GoStrings.v
GoNumbers.v
Utf8.v
Json.v
Effects.v
Conn.v
Discovery.v
Auth.v
WebRTC.v
Negotiation.v
NetUtil.v
ProxyProtocol.v
LuksConfig.v
LuksAgent.v
Net.v
ServerConn.v
Client.v
Mobile.v
Copy.v
Logging.v
Splice.v
Forwarding.v
WebRTCConn.v
RelayRace.v
Server.v
Services.v
Shell.v
ShellSession.v
OpenPGP.v
Crc.v
Proxy.v
Keystore.v
Identity.v
Stdio.v
Cli.v
Flags.v
Startup.v
Process.v
Session.v
Unlock.v
