(* ===== verification/Prelude.v ===== *)
(** * syncthing-socket: a verification development

    syncthing-socket connects two machines through syncthing's relays and discovery servers,
    or directly, and runs a service over the connection: a pipe between standard streams, a
    forwarded port, a SOCKS proxy, a shell, a command, a reverse-forwarded port.  Its main use
    is to unlock an encrypted disk remotely: the booting machine runs the LUKS agent, a phone
    or a laptop sends the passphrase.  This library models the program's own Go code under
    [src/] and proves what makes it correct.  Vendored libraries, the network, the file
    system, clocks and other processes are the environment.

    ** How the code is modelled

    - Strings and byte slices are lists of bytes, integers are [Z] with their width written out
      where it matters ([u16], [u32], [i64]); a Go error is an [error], a fallible result a
      [result]; maps are [gmap].
    - A function that talks to the outside is a program ([Effects.prog]): a tree of requests
      from a signature of its own ([netE], [osE], [cliE], ...), answered by the environment.
      [run] executes it against a handler with a state; [exec] and [prefix_exec] describe all
      finished and unfinished executions against any environment that respects the documented
      contract of each request.  [safe] is a small program logic for what a program may ask
      at which point of its history, [asks] for what it can ask at all.
    - Goroutines that share state are step relations ([Inductive step]), with invariants by
      rule induction over [rtc step]; two programs on the ends of one connection run under
      every schedule ([Conn.Duplex]).
    - A loop without a bound takes the number of its rounds ([fuel], [reads], [polls], [looks],
      [rounds]) and has the result [None] while it still runs.  Theorems about results are
      about [Some], and where the code is meant to end it is proved that it does: with n+1
      reads for a source of n pieces ([copy_complete]), within 501 looks, however long they take
      ([flush_bounded]), in 2n+1 steps for n relays ([race_settles]), under every schedule
      ([handshake_every_schedule], [direct_session], [upgrade_with_candidates]), in every fair
      run ([forward_relay_stop_returns]); [Json.doc_fuel] is
      shown to be enough by the round trips, and a duration by one part per byte of its text
      ([duration_parts_fuel]).
    - The parts are put together again where the program does: a process is the programs and
      loops it consists of, running beside each other one request at a time ([Process]), a
      session the two ends of a connection ([Session]).

    ** The files

    Foundations: Prelude (bytes, big-endian numbers, errors, tactics, the hint database [go]),
    GoStrings (the strings, strconv and bufio.Scanner functions that are used), GoNumbers
    (numbers and durations as strconv and time read them), Utf8, Json
    (encoding/json: printing, parsing, filling structs), Effects (programs, executions, the
    guarantee logic), Conn (a connection, two programs on its ends).

    The connection: Auth (auth.go: framed messages, both ends of the TOTP exchange); WebRTC
    (webrtc.go: signalling, both negotiations); Negotiation (webrtc.go: the negotiations, the
    candidate callbacks and the candidate loops of both ends on one connection); WebRTCConn (webrtc.go: the configuration, and
    a data channel as a connection); Discovery (lookup, announceAddresses and announce of main.go,
    discovery/discovery.go); RelayRace (dialFastestRelay and drainLateSessions of main.go);
    Net (TLS, dialling and upgrades as requests); ServerConn (handleServerConn and
    handleForwardConn of main.go); Client (RunClient and handleClientConn of main.go);
    ProxyProtocol (the PROXY header of handleForwardConn and its rendering by go-proxyproto);
    NetUtil (net_util.go); Proxy (proxy.go, RateLimitTransport of main.go).

    Moving data: Copy (CopyWithTrace of logging.go, the sending half of pipeBiDirectional);
    Splice (the interleaved copies of handleForwardConn, pipeConns and reverse_forward.go, and
    those of pipeBiDirectional); Forwarding (the former with the copy loop itself, request by
    request); Services (socks.go, reverse_forward.go); Shell (shell.go,
    shell_pty_unix.go, shell_pty_windows.go, shell_resize_unix.go); ShellSession (the
    [ShellSession] interface of shell.go and its two implementations); Stdio (stdio_unix.go,
    stdio_windows.go); Logging (logging.go).

    The server and the command line: Identity (identity/cert.go, cert.go); Cli (the commands
    of main.go, service.go); Flags (the flags of the commands, the pflag parser, the choice of
    the command and the help screen, Execute of main.go); Startup (runServer up to its accept
    loops, systemdNotify); Server (the accept loops of runServer); Process (the server command,
    runServer, its loops and its handlers together); Session (RunClient and handleServerConn
    on one connection).  Mobile (mobile/mobile.go) is the phone's library.

    The LUKS agent: LuksConfig (the parsers of luks_agent.go and the search for the
    configuration), LuksAgent (the agent's loop, luks_agent.go and luks_agent_linux.go), Unlock
    (an unlock from end to end: the agent's subprocess, and the two pipes).

    Release tooling: OpenPGP (scripts/openpgp_key.go), Crc (its checksum as a polynomial
    remainder), Keystore (scripts/generate_keystore.go).

    ** What is proved

    - Nobody is served without having been admitted, by the whole server process, from its
      flags on and in every interleaving ([process_gate]): the passcode is validated
      ([server_auth_sound]), no service, upgrade or dial happens before handshake, allowlist
      and passcode ([server_gate], [forward_gate], [unauthorized_refused]), the allowlist
      in force is the one of the flag ([server_starts_as_asked], [allowlist_enforced]); the
      client speaks only to the device it looks for ([client_verifies_server],
      [client_auth_sound]).
    - The two ends fit together: under every schedule the passcode exchange comes to one
      verdict ([handshake_every_schedule]), and the client and the server on one connection
      both run what they were asked for, or neither runs anything ([direct_session]); the upgrade
      of a relayed connection succeeds and passes on the candidates, whatever the callbacks and
      loops do in between, if no candidate is found before the description is sent
      ([upgrade_with_candidates]; without candidates also as a whole session,
      [relayed_session]).
    - The disk's passphrase goes where it should: the agent answers only unexpired requests
      of cryptsetup, with a passphrase that opens the device ([agent_reply_sound]), each once
      ([answered_once], [serve_retryable]); the subprocess it runs for the transfer lets
      nobody but the key holder through, whichever end dials ([unlock_from_holder]); what was typed at the other end
      comes out whole, and mixed with nothing else, at a machine that sends nothing itself
      ([whole_passphrase], [payload_unmixed]).
    - Data arrives: copies are exact and complete ([copy_exact], [copy_complete]), two
      of them forwarding a connection do what Splice.v says of copies ([forwarding_refines_splice]),
      the pipe ends with the peer and not with its own input ([pipe_complete]), a command's
      output is complete ([command_output_complete]), a proxy tunnel loses nothing
      ([tunnel_exact]).
    - Resources are given back: sessions and listeners ([services_balanced]), peer
      connections ([negotiation_releases]), late relay sessions ([race_settles]),
      connections ([served_once], [client_outcome]).
    - Start-up and accept loops: the server is ready only once it can be reached
      ([startup_ordered]), serves one connection in simple mode ([process_serves_one],
      [netcat_serves_one]), and ends with its relay client in forwarding mode
      ([forward_relay_stop_returns]); status zero says that a connection was handled to its end
      ([process_exit_zero]).
    - Formats: round trips of command lines ([installed_service]), messages, signals, terminal sizes, OpenPGP keys and armor,
      well-formed PROXY headers, the checksum of the standard ([crc24_is_remainder]).
    - Signing keys are published only if they are the pinned ones ([keystore_pinned]).
    - Where the code does not do what it means to, this is stated and proved as well:
      [refused_unlock_succeeds], [relay_only_mismatch], [half_close_cuts_reply],
      [stranger_ends_server], [broken_transfer_returns], [answer_cuts_transfer],
      [early_candidate_breaks_upgrade],
      [stray_fallback], [interrupted_race_leaks], [netcat_relay_stop_hangs],
      [interleaved_signals_lost], [windows_exit_hangs], [idle_shell_left] and others.

    Each file ends with the theorems applied at concrete inputs, which shows that their
    hypotheses can hold.

    ** Parameters

    Cryptography (TOTP validation, hashes, key derivation, signatures, X.509 encoding), device
    IDs, Unicode case mapping beyond ASCII and the parsing of times and URLs are parameters of
    the definitions that use them, with what is relied on as hypotheses.

    ** Not modelled

    What the cobra library answers by itself (no command, an unknown one, the completion of
    shells); the contents of log messages except where they carry payload; the attributes of
    child processes (setChildProcAttrs); the pion, yamux, socks5, syncthing and
    service libraries, whose calls are requests; pseudo-terminals, processes and TLS, likewise;
    the memory model of Go below the level of channels and connections. *)

From stdpp Require Export base tactics list.
From stdpp Require Export strings gmap.
From Stdlib Require Export Strings.Byte.
From Stdlib Require Export ZArith Lia.


Open Scope Z_scope.

(** ** Bytes

    A Go [string] and a Go [[]byte] are both sequences of bytes; both are
    [list byte] here.  A literal is written as a Rocq string and coerced. *)

Abbreviation bytes := (list byte).

Definition str (s : string) : bytes := String.list_byte_of_string s.
Coercion str : string >-> list.

Definition byteZ (b : byte) : Z := Z.of_N (Byte.to_N b).

(** [byte(z)]: the conversion keeps the low eight bits. *)
Definition Zbyte (z : Z) : byte :=
  match Byte.of_N (Z.to_N (z mod 256)) with Some b => b | None => x00 end.

#[global] Instance byte_eq_decision : EqDecision byte := Byte.byte_eq_dec.

#[global] Program Instance byte_countable : Countable byte :=
  {| encode b := encode (Byte.to_N b); decode p := n ← decode p; Byte.of_N n |}.
Next Obligation. intros b. cbn. rewrite decode_encode. apply Byte.of_to_N. Qed.

Definition beq (a b : byte) : bool := bool_decide (a = b).

(** The value a table of bytes gives [c]. *)
Fixpoint assoc {A} (c : byte) (table : list (byte * A)) : option A :=
  match table with
  | [] => None
  | (k, v) :: table => if beq k c then Some v else assoc c table
  end.

(** Equality of Go strings. *)
Definition seq_eqb (a b : bytes) : bool := bool_decide (a = b).
Notation "a =s b" := (seq_eqb a b) (at level 70, no associativity).

Lemma byteZ_range b : 0 ≤ byteZ b < 256.
Proof.
  unfold byteZ. pose proof (Byte.to_N_bounded b). lia.
Qed.

Lemma byteZ_Zbyte z : byteZ (Zbyte z) = z mod 256.
Proof.
  unfold byteZ, Zbyte.
  assert (Hb : 0 ≤ z mod 256 < 256) by (apply Z.mod_pos_bound; lia).
  destruct (Byte.of_N _) as [b|] eqn:E.
  - apply Byte.to_of_N in E. rewrite E. lia.
  - apply Byte.of_N_None_iff in E. lia.
Qed.

Lemma byteZ_inj a b : byteZ a = byteZ b → a = b.
Proof.
  unfold byteZ. intros H%N2Z.inj.
  pose proof (Byte.of_to_N a) as Ha. pose proof (Byte.of_to_N b) as Hb.
  congruence.
Qed.

Lemma Zbyte_byteZ b : Zbyte (byteZ b) = b.
Proof.
  apply byteZ_inj. rewrite byteZ_Zbyte. apply Z.mod_small, byteZ_range.
Qed.

Lemma beq_true a b : beq a b = true ↔ a = b.
Proof. unfold beq. apply bool_decide_eq_true. Qed.

Lemma beq_false a b : beq a b = false ↔ a ≠ b.
Proof. unfold beq. apply bool_decide_eq_false. Qed.

Lemma beq_refl a : beq a a = true.
Proof. by apply beq_true. Qed.

Lemma seq_eqb_true a b : (a =s b) = true ↔ a = b.
Proof. unfold seq_eqb. apply bool_decide_eq_true. Qed.

Lemma seq_eqb_false a b : (a =s b) = false ↔ a ≠ b.
Proof. unfold seq_eqb. apply bool_decide_eq_false. Qed.

Lemma seq_eqb_refl a : (a =s a) = true.
Proof. by apply seq_eqb_true. Qed.

Lemma str_inj s t : str s = str t → s = t.
Proof.
  unfold str. intros H.
  rewrite <- (String.string_of_list_byte_of_string s),
    <- (String.string_of_list_byte_of_string t). by rewrite H.
Qed.

(** Membership in a literal is computed. *)
Lemma literal_free c (s : string) : bool_decide (c ∉ str s) = true → c ∉ str s.
Proof. apply bool_decide_eq_true. Qed.

Ltac literal := apply literal_free; vm_compute; reflexivity.

(** A test that tells [x] from all elements of [l]. *)
Lemma forallb_absent {A} (f : A → bool) x l :
  f x = true → forallb (λ y, negb (f y)) l = true → x ∉ l.
Proof. intros Hx Hl Hin. rewrite forallb_forall in Hl. apply list_elem_of_In, Hl in Hin. by rewrite Hx in Hin. Qed.

(** Induction on the length of a list. *)
Lemma length_ind {A} (P : list A → Prop) :
  (∀ l, (∀ l', (length l' < length l)%nat → P l') → P l) → ∀ l, P l.
Proof.
  intros H l. remember (length l) as n eqn:Hn. revert l Hn.
  induction n as [n IH] using lt_wf_ind. intros l ->. apply H. eauto.
Qed.

(** Invariants and injectivity of a loop over a list. *)
Lemma fold_left_inv {A B} (P : A → Prop) (f : A → B → A) l a :
  P a → (∀ a b, P a → P (f a b)) → P (fold_left f l a).
Proof. intros Ha Hf. revert a Ha. induction l as [|b l IH]; intros a Ha; cbn; auto. Qed.

Lemma fold_left_inj {A B} (P : A → Prop) (f : A → B → A) l a a' :
  (∀ a b, P a → P (f a b)) → (∀ a a' b, P a → P a' → f a b = f a' b → a = a') →
  P a → P a' → fold_left f l a = fold_left f l a' → a = a'.
Proof.
  intros Hf Hi. revert a a'. induction l as [|b l IH]; intros a a' Ha Ha' H; [exact H|].
  cbn in H. eapply Hi; [done..|]. eapply IH; [..|exact H]; auto.
Qed.

(** ** Big-endian encodings: [binary.BigEndian.PutUint16/32], [Uint32] *)

Fixpoint be_val (acc : Z) (l : bytes) : Z :=
  match l with
  | [] => acc
  | b :: l => be_val (acc * 256 + byteZ b) l
  end.

Fixpoint be_bytes (n : nat) (z : Z) : bytes :=
  match n with
  | O => []
  | S n => be_bytes n (z / 256) ++ [Zbyte z]
  end.

Lemma be_bytes_length n z : length (be_bytes n z) = n.
Proof.
  revert z; induction n as [|n IH]; intros z; simpl; [done|].
  rewrite length_app, IH. simpl. lia.
Qed.

Lemma be_val_app acc l1 l2 : be_val acc (l1 ++ l2) = be_val (be_val acc l1) l2.
Proof. revert acc; induction l1; intros acc; simpl; auto. Qed.

Lemma be_val_acc acc l : be_val acc l = acc * 256 ^ Z.of_nat (length l) + be_val 0 l.
Proof.
  revert acc; induction l as [|b l IH]; intros acc; cbn [be_val length].
  - change (256 ^ Z.of_nat 0) with 1. lia.
  - rewrite (IH (acc * 256 + byteZ b)), (IH (0 * 256 + byteZ b)).
    rewrite Nat2Z.inj_succ, Z.pow_succ_r by lia. lia.
Qed.

Lemma be_val_bytes n z : be_val 0 (be_bytes n z) = z mod 256 ^ Z.of_nat n.
Proof.
  revert z; induction n as [|n IH]; intros z; cbn [be_bytes].
  - change (256 ^ Z.of_nat 0) with 1. by rewrite Z.mod_1_r.
  - rewrite be_val_app, IH. cbn [be_val]. rewrite byteZ_Zbyte.
    rewrite Nat2Z.inj_succ, Z.pow_succ_r by lia.
    rewrite (Z.rem_mul_r z 256); lia.
Qed.

Lemma be_val_bound l : 0 ≤ be_val 0 l < 256 ^ Z.of_nat (length l).
Proof.
  induction l as [|b l IH] using rev_ind; [done|].
  rewrite be_val_app, length_app. cbn [be_val length].
  pose proof (byteZ_range b).
  rewrite Nat2Z.inj_add, Z.pow_add_r by lia. change (256 ^ Z.of_nat 1) with 256. lia.
Qed.

Lemma be_bytes_val l : be_bytes (length l) (be_val 0 l) = l.
Proof.
  induction l as [|b l IH] using rev_ind; [done|].
  rewrite length_app, Nat.add_comm. cbn [length Nat.add be_bytes].
  rewrite be_val_app. cbn [be_val]. pose proof (byteZ_range b).
  f_equal.
  - rewrite Z.div_add_l, Z.div_small, Z.add_0_r by lia. done.
  - f_equal. apply byteZ_inj. rewrite byteZ_Zbyte.
    rewrite Z.add_comm, Z_mod_plus_full. by apply Z.mod_small.
Qed.

Lemma be_val_two z : 0 ≤ z < 2 ^ 16 → be_val 0 (be_bytes 2 z) = z.
Proof. intros Hz. rewrite be_val_bytes. apply Z.mod_small. by change (256 ^ Z.of_nat 2) with (2 ^ 16). Qed.

(** ** Errors and fallible results

    The sentinel errors the code compares against are constructors; an error a
    library call returned keeps its text; [Errorf] is [fmt.Errorf] without a
    wrapped error and [Wrapf p e] is [fmt.Errorf("p: %w", e)]. *)

Inductive error : Type :=
| EOF
| ErrUnexpectedEOF
| ErrShortWrite
| ErrTooLong
| Canceled
| DeadlineExceeded
| JSONError (input : bytes)
| LibErr (text : bytes)
| Errorf (text : bytes)
| Wrapf (prefix : bytes) (inner : error).

#[global] Instance error_eq_dec : EqDecision error.
Proof. solve_decision. Defined.

(** [err.Error()]; [json_text] is the text of a decoding error. *)
Fixpoint error_text (json_text : bytes → bytes) (e : error) : bytes :=
  match e with
  | EOF => "EOF"
  | ErrUnexpectedEOF => "unexpected EOF"
  | ErrShortWrite => "short write"
  | ErrTooLong => "bufio.Scanner: token too long"
  | Canceled => "context canceled"
  | DeadlineExceeded => "context deadline exceeded"
  | JSONError b => json_text b
  | LibErr t | Errorf t => t
  | Wrapf p e => p ++ str ": " ++ error_text json_text e
  end.

Inductive result (A : Type) : Type :=
| Ok (a : A)
| Err (e : error).
Arguments Ok {A} a.
Arguments Err {A} e.

#[global] Instance result_ret : MRet result := @Ok.
#[global] Instance result_bind : MBind result := λ A B f r,
  match r with Ok a => f a | Err e => Err e end.

#[global] Instance result_eq_dec {A} `{EqDecision A} : EqDecision (result A).
Proof. solve_decision. Defined.

Lemma result_bind_Ok {A B} (f : A → result B) (r : result A) b :
  (r ≫= f) = Ok b ↔ ∃ a, r = Ok a ∧ f a = Ok b.
Proof. destruct r; cbn; naive_solver. Qed.

(** ** Machine-width integers *)

Definition u8 (z : Z) : Z := z mod 2 ^ 8.
Definition u16 (z : Z) : Z := z mod 2 ^ 16.
Definition u32 (z : Z) : Z := z mod 2 ^ 32.
Definition u64 (z : Z) : Z := z mod 2 ^ 64.

Definition max_uint64 : Z := 2 ^ 64 - 1.
Definition max_int64 : Z := 2 ^ 63 - 1.
Definition min_int64 : Z := - 2 ^ 63.

(** ** Automation *)

Create HintDb go.
Create Rewrite HintDb go.

(** Case analysis on the scrutinee of a [match] or [if] of the goal or of a
    hypothesis, recording the equation. *)
Ltac step_match :=
  match goal with
  | |- context [match ?x with _ => _ end] => destruct x eqn:?
  | H : context [match ?x with _ => _ end] |- _ => destruct x eqn:?
  end.

Ltac simp := repeat first [progress simplify_eq/= | step_match | done].

(** Turns the boolean tests of the code into propositions. *)
Ltac bools :=
  repeat match goal with
  | H : beq _ _ = true |- _ => apply beq_true in H
  | H : beq _ _ = false |- _ => apply beq_false in H
  | H : (_ =s _) = true |- _ => apply seq_eqb_true in H
  | H : (_ =s _) = false |- _ => apply seq_eqb_false in H
  | H : negb _ = true |- _ => apply negb_true_iff in H
  | H : negb _ = false |- _ => apply negb_false_iff in H
  | H : _ && _ = true |- _ => apply andb_true_iff in H; destruct H
  | H : _ || _ = false |- _ => apply orb_false_iff in H; destruct H
  | H : (_ <=? _) = true |- _ => apply Z.leb_le in H
  | H : (_ <=? _) = false |- _ => apply Z.leb_gt in H
  | H : (_ <? _) = true |- _ => apply Z.ltb_lt in H
  | H : (_ <? _) = false |- _ => apply Z.ltb_ge in H
  | H : (_ =? _) = true |- _ => apply Z.eqb_eq in H
  | H : (_ =? _) = false |- _ => apply Z.eqb_neq in H
  end.

#[export] Hint Rewrite beq_refl seq_eqb_refl be_bytes_length : go.
