(* ===== verification/GoStrings.v ===== *)
(** * The parts of Go's [strings], [strconv] and [bufio] packages the program uses

    Executable models of the standard-library functions called by the sources,
    with the lemmas the components share.  Go strings are byte sequences, so all
    of them work on [bytes]. *)

From S2P Require Import Prelude.

(** ** Prefixes, suffixes, substrings *)

Fixpoint HasPrefix (s prefix : bytes) {struct prefix} : bool :=
  match prefix, s with
  | [], _ => true
  | a :: p, b :: s => beq a b && HasPrefix s p
  | _ :: _, [] => false
  end.

Definition HasSuffix (s suffix : bytes) : bool := HasPrefix (reverse s) (reverse suffix).

Definition TrimPrefix (s prefix : bytes) : bytes :=
  if HasPrefix s prefix then drop (length prefix) s else s.

Definition CutPrefix (s prefix : bytes) : option bytes :=
  if HasPrefix s prefix then Some (drop (length prefix) s) else None.

Fixpoint Contains (s sub : bytes) : bool :=
  HasPrefix s sub || match s with [] => false | _ :: s' => Contains s' sub end.

(** [strings.Cut]: the text around the first occurrence of [sep]. *)
Fixpoint Cut (s sep : bytes) : option (bytes * bytes) :=
  if HasPrefix s sep then Some ([], drop (length sep) s)
  else match s with
       | [] => None
       | c :: s' => match Cut s' sep with
                    | Some (a, b) => Some (c :: a, b)
                    | None => None
                    end
       end.

(** [strings.Split] with a one-byte separator. *)
Fixpoint Split (s : bytes) (sep : byte) : list bytes :=
  match s with
  | [] => [[]]
  | c :: s' =>
      if beq c sep then [] :: Split s' sep
      else match Split s' sep with
           | p :: ps => (c :: p) :: ps
           | [] => [[c]]
           end
  end.

Fixpoint Join (l : list bytes) (sep : bytes) : bytes :=
  match l with
  | [] => []
  | [x] => x
  | x :: l => x ++ sep ++ Join l sep
  end.

Definition ContainsAny (s chars : bytes) : bool :=
  existsb (λ c, existsb (beq c) chars) s.

(** ** White space

    [unicode.IsSpace] on the UTF-8 encodings of the runes with the White_Space
    property.  The lead bytes of the multi-byte encodings are not continuation
    bytes, so matching the encodings as byte sequences agrees with decoding rune
    by rune, from the front and from the back, on malformed UTF-8 too. *)

Definition space_runes : list bytes :=
  [ [x09]; [x0a]; [x0b]; [x0c]; [x0d]; [x20];
    [xc2; x85]; [xc2; xa0]; [xe1; x9a; x80];
    [xe2; x80; x80]; [xe2; x80; x81]; [xe2; x80; x82]; [xe2; x80; x83];
    [xe2; x80; x84]; [xe2; x80; x85]; [xe2; x80; x86]; [xe2; x80; x87];
    [xe2; x80; x88]; [xe2; x80; x89]; [xe2; x80; x8a];
    [xe2; x80; xa8]; [xe2; x80; xa9]; [xe2; x80; xaf];
    [xe2; x81; x9f]; [xe3; x80; x80] ].

(** The length of the first of [runes] that [s] starts with. *)
Fixpoint rune_at (runes : list bytes) (s : bytes) : option nat :=
  match runes with
  | [] => None
  | r :: rs => if HasPrefix s r then Some (length r) else rune_at rs s
  end.

(** Drops leading [runes]; [skip] counts the bytes left of the rune being dropped. *)
Fixpoint strip (runes : list bytes) (skip : nat) (s : bytes) : bytes :=
  match s with
  | [] => []
  | _ :: s' =>
      match skip with
      | S k => strip runes k s'
      | O => match rune_at runes s with
             | Some (S k) => strip runes k s'
             | _ => s
             end
      end
  end.

Definition TrimLeftSpace (s : bytes) : bytes := strip space_runes 0 s.
Definition TrimRightSpace (s : bytes) : bytes :=
  reverse (strip (map reverse space_runes) 0 (reverse s)).
Definition TrimSpace (s : bytes) : bytes := TrimRightSpace (TrimLeftSpace s).

(** [strings.Trim(s, cutset)] for a cutset of ASCII characters. *)
Definition Trim (s cutset : bytes) : bytes :=
  let runes := map (λ c, [c]) cutset in
  reverse (strip runes 0 (reverse (strip runes 0 s))).

Definition flush (cur : bytes) : list bytes :=
  match cur with [] => [] | _ => [reverse cur] end.

(** [cur] holds the current field, reversed. *)
Fixpoint fields_go (skip : nat) (cur s : bytes) : list bytes :=
  match s with
  | [] => flush cur
  | c :: s' =>
      match skip with
      | S k => fields_go k cur s'
      | O => match rune_at space_runes s with
             | Some (S k) => flush cur ++ fields_go k [] s'
             | _ => fields_go 0 (c :: cur) s'
             end
      end
  end.

Definition Fields (s : bytes) : list bytes := fields_go 0 [] s.

(** ** Case *)

Definition upper (c : byte) : bool := (65 <=? byteZ c) && (byteZ c <=? 90).
Definition lower_byte (c : byte) : byte := if upper c then Zbyte (byteZ c + 32) else c.
Definition is_ascii (s : bytes) : bool := forallb (λ c, byteZ c <? 128) s.

(** [strings.ToLower]: the ASCII path is written out; on other input the function
    maps runes through Go's Unicode tables, which [unicode_lower] stands for. *)
Definition ToLower (unicode_lower : bytes → bytes) (s : bytes) : bytes :=
  if is_ascii s then map lower_byte s else unicode_lower s.

Definition lower (c : byte) : bool := (97 <=? byteZ c) && (byteZ c <=? 122).
Definition upper_byte (c : byte) : byte := if lower c then Zbyte (byteZ c - 32) else c.

(** [strings.ToUpper], likewise. *)
Definition ToUpper (unicode_upper : bytes → bytes) (s : bytes) : bytes :=
  if is_ascii s then map upper_byte s else unicode_upper s.

(** ** Numbers *)

(** [%x] and [%X]. *)
Definition hex_digits (digits : bytes) (b : bytes) : bytes :=
  concat (map (λ c, [nth (Z.to_nat (byteZ c / 16)) digits x00; nth (Z.to_nat (byteZ c mod 16)) digits x00]) b).
Definition hex_lower : bytes → bytes := hex_digits "0123456789abcdef".
Definition hex_upper : bytes → bytes := hex_digits "0123456789ABCDEF".


Definition digit (c : byte) : option Z :=
  let z := byteZ c - 48 in
  if (0 <=? z) && (z <=? 9) then Some z else None.

Fixpoint digits (acc : Z) (s : bytes) : option Z :=
  match s with
  | [] => Some acc
  | c :: s => d ← digit c; digits (acc * 10 + d) s
  end.

(** [strconv.ParseUint(s, 10, 64)]: [None] stands for the error, a syntax error
    or a value out of range. *)
Definition ParseUint (s : bytes) : option Z :=
  match s with
  | [] => None
  | _ => z ← digits 0 s; if z <=? max_uint64 then Some z else None
  end.

(** The magnitude of a signed decimal, range-checked for 64 bits. *)
Definition parse_int (neg : bool) (ds : bytes) : option Z :=
  match ds with
  | [] => None
  | _ => z ← digits 0 ds;
         let z := if neg then - z else z in
         if (min_int64 <=? z) && (z <=? max_int64) then Some z else None
  end.

(** [strconv.Atoi] on a 64-bit platform. *)
Definition Atoi (s : bytes) : option Z :=
  match s with
  | [] => None
  | c :: t => if beq c x2b then parse_int false t
              else if beq c x2d then parse_int true t else parse_int false s
  end.

Definition dec_digit (d : Z) : byte := Zbyte (48 + d).

Fixpoint udec (fuel : nat) (z : Z) : bytes :=
  match fuel with
  | O => []
  | S f => if z <? 10 then [dec_digit z] else udec f (z / 10) ++ [dec_digit (z mod 10)]
  end.

(** [strconv.Itoa], also the [%d] verb. *)
Definition Itoa (z : Z) : bytes :=
  let n := Z.abs z in
  (if z <? 0 then "-" else []) ++ udec (S (Z.to_nat (Z.log2 n))) n.

(** ** Line scanning

    A reader is the bytes it delivers and the error that ends it ([None] for a
    clean end of file).  [bufio.Scanner] with its default split function and
    buffer: a line loses its newline and one carriage return before it, an
    unterminated last line is a token, and a line of 64 KiB or more stops the
    scan with [ErrTooLong]. *)

Record reader := Reader { r_data : bytes; r_err : option error }.

Definition max_token : Z := 65536.

Definition drop_cr (line : bytes) : bytes :=
  match reverse line with
  | c :: l => if beq c x0d then reverse l else line
  | [] => line
  end.

(** The raw lines: the pieces between newlines, less an empty last piece. *)
Definition raw_lines (data : bytes) : list bytes :=
  match reverse (Split data x0a) with
  | [] :: ps => reverse ps
  | _ => Split data x0a
  end.

Fixpoint scan_raw (ls : list bytes) (end_err : option error) : list bytes * option error :=
  match ls with
  | [] => ([], end_err)
  | l :: ls =>
      if max_token <=? Z.of_nat (length l) then ([], Some ErrTooLong)
      else let '(ts, e) := scan_raw ls end_err in (drop_cr l :: ts, e)
  end.

Definition scan_lines (r : reader) : list bytes * option error :=
  scan_raw (raw_lines (r_data r)) (r_err r).

Example trim_ex : TrimSpace (str "  a b	" ++ [xe2; x80; xa8]) = "a b". Proof. reflexivity. Qed.
Example fields_ex : Fields " 8  0 1 sda " = map str ["8"; "0"; "1"; "sda"]%string. Proof. reflexivity. Qed.
Example itoa_ex : Itoa (-1024) = "-1024". Proof. reflexivity. Qed.
Example atoi_ex : Atoi "+31" = Some 31 ∧ Atoi "" = None ∧ Atoi "1_0" = None. Proof. done. Qed.
Example scan_ex : scan_lines (Reader ("a" ++ [x0d; x0a; x0a] ++ "b") None)
  = ([str "a"; []; str "b"], None). Proof. reflexivity. Qed.

(** ** Lemmas: prefixes and substrings *)

Lemma HasPrefix_spec s p : HasPrefix s p = true ↔ ∃ t, s = p ++ t.
Proof.
  revert s; induction p as [|a p IH]; intros s; [destruct s; split; eauto|].
  destruct s as [|b s]; [naive_solver|]. cbn [HasPrefix].
  rewrite andb_true_iff, beq_true, IH. naive_solver.
Qed.

Lemma HasPrefix_app p t : HasPrefix (p ++ t) p = true.
Proof. apply HasPrefix_spec. eauto. Qed.

Lemma HasPrefix_drop s p : HasPrefix s p = true → s = p ++ drop (length p) s.
Proof. intros [t H]%HasPrefix_spec. by rewrite H, drop_app_length. Qed.

Lemma HasPrefix_weaken s p q : HasPrefix s (p ++ q) = true → HasPrefix s p = true.
Proof. rewrite !HasPrefix_spec. intros [t ->]. exists (q ++ t). by rewrite app_assoc. Qed.

Lemma HasSuffix_spec s p : HasSuffix s p = true ↔ ∃ t, s = t ++ p.
Proof.
  unfold HasSuffix. rewrite HasPrefix_spec. split; intros [t Ht].
  - exists (reverse t). by rewrite <- (reverse_involutive s), Ht, reverse_app, reverse_involutive.
  - exists (reverse t). by rewrite Ht, reverse_app.
Qed.

Lemma TrimPrefix_app p t : TrimPrefix (p ++ t) p = t.
Proof. unfold TrimPrefix. by rewrite HasPrefix_app, drop_app_length. Qed.

Lemma CutPrefix_spec s p t : CutPrefix s p = Some t ↔ s = p ++ t.
Proof.
  unfold CutPrefix. split.
  - case_match eqn:H; [|done]. intros [= <-]. by apply HasPrefix_drop.
  - intros ->. by rewrite HasPrefix_app, drop_app_length.
Qed.

Lemma Contains_spec s sub : Contains s sub = true ↔ ∃ a b, s = a ++ sub ++ b.
Proof.
  induction s as [|c s IH]; cbn [Contains].
  - rewrite orb_false_r, HasPrefix_spec. split.
    + intros [t Ht]. by exists [], t.
    + intros (a & b & H). symmetry in H. apply app_nil in H as [-> H]. eauto.
  - rewrite orb_true_iff, HasPrefix_spec, IH. split.
    + intros [[t Ht]|(a & b & ->)]; [by exists [], t|by exists (c :: a), b].
    + intros ([|c' a] & b & H); simplify_eq/=; eauto.
Qed.

Lemma Contains_false_byte s c : Contains s [c] = false ↔ c ∉ s.
Proof.
  split.
  - intros H Hin. apply list_elem_of_split in Hin as (a & b & ->).
    assert (Contains (a ++ c :: b) [c] = true); [|congruence].
    apply Contains_spec. by exists a, b.
  - intros H. apply not_true_iff_false. intros (a & b & ->)%Contains_spec.
    apply H. set_solver.
Qed.

Lemma Cut_Some s sep a b : Cut s sep = Some (a, b) → s = a ++ sep ++ b.
Proof.
  revert a b; induction s as [|c s IH]; intros a b; cbn [Cut]; case_match eqn:H.
  - intros [= <- <-]. by apply HasPrefix_drop.
  - done.
  - intros [= <- <-]. by apply HasPrefix_drop.
  - destruct (Cut s sep) as [[x y]|]; [|done]. intros [= <- <-].
    rewrite (IH x y) by done. done.
Qed.

Lemma Cut_byte a c b : c ∉ a → Cut (a ++ c :: b) [c] = Some (a, b).
Proof.
  intros Ha. induction a as [|x a IH]; cbn [app Cut HasPrefix].
  - by rewrite beq_refl.
  - assert (beq c x = false) as -> by (apply beq_false; set_solver).
    cbn [andb]. rewrite IH by set_solver. done.
Qed.

Lemma Cut_None s c : Cut s [c] = None ↔ c ∉ s.
Proof.
  split.
  - intros H Hin. apply list_elem_of_split_l in Hin as (a & b & -> & Ha).
    rewrite Cut_byte in H by done. done.
  - intros H. destruct (Cut s [c]) as [[a b]|] eqn:E; [|done].
    apply Cut_Some in E. subst. set_solver.
Qed.

(** The text before the cut holds no separator. *)
Lemma Cut_byte_first s c a b : Cut s [c] = Some (a, b) → c ∉ a.
Proof.
  intros H Hin. apply list_elem_of_split_l in Hin as (x & y & -> & Hx).
  pose proof (Cut_Some _ _ _ _ H) as ->.
  rewrite <- app_assoc in H. cbn [app] in H. rewrite Cut_byte in H by done.
  injection H as H _. apply (f_equal length) in H. rewrite length_app in H. simpl in H. lia.
Qed.

(** ** Lemmas: splitting and joining *)

Lemma Split_ne s c : Split s c ≠ [].
Proof. induction s; simpl; repeat case_match; done. Qed.

Lemma Join_Split s c : Join (Split s c) [c] = s.
Proof.
  induction s as [|x s IH]; [done|]. cbn [Split].
  pose proof (Split_ne s c).
  destruct (beq x c) eqn:E; bools; subst.
  - destruct (Split s c) as [|p ps] eqn:Hs; [done|]. cbn [Join app] in *. by rewrite IH.
  - destruct (Split s c) as [|p ps] eqn:Hs; [done|].
    destruct ps; cbn [Join app] in *; by rewrite IH.
Qed.

Lemma Split_free s c : c ∉ s → Split s c = [s].
Proof.
  induction s as [|x s IH]; [done|]. intros H. cbn [Split].
  assert (beq x c = false) as -> by (apply beq_false; set_solver).
  by rewrite IH by set_solver.
Qed.

Lemma Split_app a c b : c ∉ a → Split (a ++ c :: b) c = a :: Split b c.
Proof.
  induction a as [|x a IH]; intros H; cbn [app Split].
  - by rewrite beq_refl.
  - assert (beq x c = false) as -> by (apply beq_false; set_solver).
    by rewrite IH by set_solver.
Qed.


Lemma Split_Join x l c :
  Forall (λ p, c ∉ p) (x :: l) → Split (Join (x :: l) [c]) c = x :: l.
Proof.
  revert x; induction l as [|y l IH]; intros x Hl.
  - apply Split_free. by inversion Hl.
  - change (Join (x :: y :: l) [c]) with (x ++ c :: Join (y :: l) [c]).
    apply Forall_cons in Hl as [Hx Hl].
    rewrite Split_app by done. by rewrite IH.
Qed.

Lemma Split_elem s c p : p ∈ Split s c → c ∉ p.
Proof.
  revert p; induction s as [|x s IH]; intros p; cbn [Split].
  - intros ->%list_elem_of_singleton. set_solver.
  - destruct (beq x c) eqn:E; bools.
    + intros [->|?]%elem_of_cons; [set_solver|auto].
    + destruct (Split s c) as [|q qs] eqn:Hs.
      * intros ->%list_elem_of_singleton. set_solver.
      * intros [->|?]%elem_of_cons.
        -- specialize (IH q). set_solver.
        -- apply IH. set_solver.
Qed.

(** ** Lemmas: trimming *)

Definition rev_space_runes : list bytes := map reverse space_runes.

(** Neither end of [s] is white space. *)
Definition trimmed (s : bytes) : Prop :=
  rune_at space_runes s = None ∧ rune_at rev_space_runes (reverse s) = None.

(** A byte that occurs in no encoding of a space. *)
Definition plain (c : byte) : bool := negb (existsb (beq c) (concat space_runes)).

#[global] Instance trimmed_dec s : Decision (trimmed s).
Proof. unfold trimmed. apply _. Defined.

Lemma rune_at_None rs s : rune_at rs s = None ↔ Forall (λ r, HasPrefix s r = false) rs.
Proof.
  induction rs as [|r rs IH]; [done|]. cbn [rune_at]. rewrite Forall_cons.
  destruct (HasPrefix s r); naive_solver.
Qed.

Lemma strip_id rs s : rune_at rs s = None → strip rs 0 s = s.
Proof. destruct s; cbn [strip]; [done|]. by intros ->. Qed.

Lemma strip_suffix rs k s : ∃ p, s = p ++ strip rs k s.
Proof.
  revert k; induction s as [|c s IH]; intros k; cbn [strip]; [by exists []|].
  destruct k as [|k].
  - destruct (rune_at rs (c :: s)) as [[|k]|]; [by exists []| |by exists []].
    destruct (IH k) as [p Hp]. exists (c :: p). by rewrite Hp at 1.
  - destruct (IH k) as [p Hp]. exists (c :: p). by rewrite Hp at 1.
Qed.

Lemma strip_None rs k s : Forall (λ r, r ≠ []) rs → rune_at rs (strip rs k s) = None.
Proof.
  intros Hne. revert k; induction s as [|c s IH]; intros k; cbn [strip].
  - apply rune_at_None. eapply Forall_impl; [done|]. intros [|b r]; done.
  - destruct k as [|k]; [|done]. destruct (rune_at rs (c :: s)) as [[|k]|] eqn:E; [|done..].
    exfalso. clear IH. induction Hne as [|r rs Hr Hrs IH]; cbn [rune_at] in E; [done|].
    destruct (HasPrefix (c :: s) r); [|auto]. destruct r; done.
Qed.

Lemma space_runes_ne : Forall (λ r, r ≠ []) space_runes ∧ Forall (λ r, r ≠ []) rev_space_runes.
Proof. split; repeat constructor; done. Qed.

Lemma TrimSpace_trimmed s : trimmed s → TrimSpace s = s.
Proof.
  intros [H1 H2]. unfold TrimSpace, TrimRightSpace, TrimLeftSpace.
  rewrite (strip_id _ s) by done.
  by rewrite strip_id, reverse_involutive.
Qed.

Lemma rune_at_prefix rs s t : rune_at rs (s ++ t) = None → rune_at rs s = None.
Proof.
  rewrite !rune_at_None. intros H. eapply Forall_impl; [exact H|]. intros r Hr.
  apply not_true_iff_false. intros [u ->]%HasPrefix_spec.
  rewrite <- app_assoc, HasPrefix_app in Hr. done.
Qed.

Lemma trimmed_TrimSpace s : trimmed (TrimSpace s).
Proof.
  unfold trimmed, TrimSpace, TrimRightSpace, TrimLeftSpace. rewrite reverse_involutive.
  destruct space_runes_ne as [Hne Hne'].
  split; [|by apply strip_None].
  destruct (strip_suffix (map reverse space_runes) 0 (reverse (strip space_runes 0 s)))
    as [p Hp].
  apply (rune_at_prefix _ _ (reverse p)).
  rewrite <- reverse_app, <- Hp, reverse_involutive. by apply strip_None.
Qed.

Lemma TrimSpace_idem s : TrimSpace (TrimSpace s) = TrimSpace s.
Proof. apply TrimSpace_trimmed, trimmed_TrimSpace. Qed.

(** What follows a text that a rune cannot reach into does not matter. *)
Lemma HasPrefix_stop s c t r : c ∉ r → HasPrefix (s ++ c :: t) r = HasPrefix s r.
Proof.
  intros Hc. revert s; induction r as [|x r IH]; intros s; [done|].
  apply not_elem_of_cons in Hc as [Hx Hr]. destruct s as [|y s]; cbn [app HasPrefix].
  - by assert (beq x c = false) as -> by (apply beq_false; congruence).
  - by rewrite IH.
Qed.

Lemma rune_at_stop rs s c t :
  Forall (λ r, c ∉ r) rs → rune_at rs (s ++ c :: t) = rune_at rs s.
Proof.
  induction 1 as [|r rs Hr _ IH]; [done|]. cbn [rune_at].
  by rewrite HasPrefix_stop, IH.
Qed.

(** A space after a text that is not empty: only one-byte runes contain a space. *)
Lemma rune_at_space s t :
  s ≠ [] → rune_at rev_space_runes (s ++ x20 :: t) = rune_at rev_space_runes s.
Proof.
  intros Hs. assert (H : Forall (λ r, (x20 ∉ r) ∨ ∃ c, r = [c]) rev_space_runes).
  { unfold rev_space_runes, space_runes. repeat (apply Forall_cons; split); [..|by apply Forall_nil];
      first [right; eexists; reflexivity | left; apply (bool_decide_unpack _); vm_compute; exact I]. }
  induction H as [|r rs Hr _ IH]; [done|]. cbn [rune_at].
  assert (HasPrefix (s ++ x20 :: t) r = HasPrefix s r) as ->; [|by rewrite IH].
  destruct Hr as [Hr|[c ->]]; [by apply HasPrefix_stop|]. by destruct s.
Qed.

Lemma plain_spec c :
  plain c = true → Forall (λ r, c ∉ r) space_runes ∧ Forall (λ r, c ∉ r) rev_space_runes.
Proof.
  unfold plain. intros H%negb_true_iff.
  assert (Hs : Forall (λ r, c ∉ r) space_runes).
  { apply Forall_forall. intros r Hr Hc.
    assert (existsb (beq c) (concat space_runes) = true); [|congruence].
    apply existsb_exists. exists c. split; [|apply beq_refl].
    apply in_concat. exists r. by rewrite <- !list_elem_of_In. }
  split; [done|]. unfold rev_space_runes. apply Forall_forall.
  intros r Hr. apply list_elem_of_fmap in Hr as (r' & -> & Hr').
  rewrite elem_of_reverse. rewrite Forall_forall in Hs. auto.
Qed.

Lemma plain_head c s : plain c = true → rune_at space_runes (c :: s) = None.
Proof. intros [H _]%plain_spec. by rewrite (rune_at_stop _ [] c s). Qed.

Lemma plain_last c s : plain c = true → rune_at rev_space_runes (c :: s) = None.
Proof. intros [_ H]%plain_spec. by rewrite (rune_at_stop _ [] c s). Qed.

(** [k ++ v] is trimmed when [k] starts and ends with plain bytes and [v] is trimmed. *)
Lemma trimmed_app a k b v :
  plain a = true → plain b = true → trimmed v → trimmed ((a :: k) ++ b :: v).
Proof.
  intros Ha Hb [_ Hv]. split; cbn [app].
  - exact (plain_head _ _ Ha).
  - rewrite app_comm_cons, reverse_app, reverse_cons, <- app_assoc. cbn [app].
    rewrite rune_at_stop; [exact Hv|]. exact (proj2 (plain_spec _ Hb)).
Qed.

Lemma trimmed_plain a k b : plain a = true → plain b = true → trimmed (a :: k ++ [b]).
Proof. intros Ha Hb. apply (trimmed_app a k b []); [exact Ha|exact Hb|done]. Qed.

(** ** Lemmas: decimal numbers *)

Lemma digit_dec d : 0 ≤ d < 10 → digit (dec_digit d) = Some d.
Proof.
  intros H. unfold digit, dec_digit. rewrite byteZ_Zbyte, Z.mod_small by lia.
  replace (48 + d - 48) with d by lia.
  assert ((0 <=? d) = true) as -> by (apply Z.leb_le; lia).
  by assert ((d <=? 9) = true) as -> by (apply Z.leb_le; lia).
Qed.

Lemma digits_app acc a b :
  digits acc (a ++ b) = (z ← digits acc a; digits z b).
Proof.
  revert acc; induction a as [|c a IH]; intros acc; [done|]. cbn.
  destruct (digit c); cbn; [apply IH|done].
Qed.

Lemma udec_digits fuel z acc :
  0 ≤ z < 10 ^ Z.of_nat fuel →
  digits acc (udec fuel z) = Some (acc * 10 ^ Z.of_nat (length (udec fuel z)) + z).
Proof.
  revert z acc; induction fuel as [|f IH]; intros z acc Hz.
  { change (10 ^ Z.of_nat 0) with 1 in *. cbn. f_equal. lia. }
  rewrite Nat2Z.inj_succ, Z.pow_succ_r in Hz by lia. cbn [udec].
  destruct (z <? 10) eqn:E; bools.
  - cbn [digits]. by rewrite digit_dec by lia.
  - rewrite digits_app, IH by (Z.to_euclidean_division_equations; lia). cbn.
    rewrite digit_dec by (Z.to_euclidean_division_equations; lia). cbn. f_equal.
    rewrite length_app, Nat2Z.inj_add, Z.pow_add_r by lia.
    change (10 ^ Z.of_nat (length [_])) with 10.
    pose proof (Z_div_mod_eq_full z 10). lia.
Qed.

Lemma udec_fuel n : 0 ≤ n → 0 ≤ n < 10 ^ Z.of_nat (S (Z.to_nat (Z.log2 n))).
Proof.
  intros Hn. split; [done|]. rewrite Nat2Z.inj_succ, Z2Nat.id by apply Z.log2_nonneg.
  destruct (decide (n = 0)) as [->|]; [done|].
  pose proof (Z.log2_spec n ltac:(lia)).
  eapply Z.lt_le_trans; [apply H|]. apply Z.pow_le_mono_l. lia.
Qed.

Lemma udec_shape fuel z :
  0 ≤ z → (0 < fuel)%nat → ∃ c t, udec fuel z = c :: t ∧ is_Some (digit c).
Proof.
  revert z; induction fuel as [|f IH]; intros z Hz Hf; [lia|]. cbn [udec].
  destruct (z <? 10) eqn:E; bools.
  - eexists _, _. split; [done|]. rewrite digit_dec by lia. eauto.
  - destruct f as [|f].
    + eexists _, _. split; [done|]. rewrite digit_dec by (Z.to_euclidean_division_equations; lia). eauto.
    + destruct (IH (z / 10)) as (c & t & -> & ?); [Z.to_euclidean_division_equations; lia|lia|].
      eauto.
Qed.

Lemma udec_length fuel z : (length (udec fuel z) ≤ fuel)%nat.
Proof.
  revert z; induction fuel as [|f IH]; intros z; cbn [udec]; [done|].
  case_match; cbn [length]; [lia|]. rewrite length_app. cbn [length]. specialize (IH (z / 10)). lia.
Qed.

Lemma digits_Itoa z : 0 ≤ z → digits 0 (Itoa z) = Some z.
Proof.
  intros Hz. unfold Itoa. rewrite (proj2 (Z.ltb_ge z 0)) by lia. rewrite Z.abs_eq by lia.
  cbn [app]. by rewrite udec_digits by (by apply udec_fuel).
Qed.

Lemma Itoa_nonneg_shape z : 0 ≤ z → ∃ c t, Itoa z = c :: t ∧ is_Some (digit c).
Proof.
  intros Hz. unfold Itoa. rewrite (proj2 (Z.ltb_ge z 0)) by lia. cbn [app].
  apply udec_shape; lia.
Qed.

Lemma ParseUint_Itoa z : 0 ≤ z ≤ max_uint64 → ParseUint (Itoa z) = Some z.
Proof.
  intros Hz. unfold ParseUint. destruct (Itoa_nonneg_shape z) as (c & t & Hi & _); [lia|].
  rewrite Hi, <- Hi, digits_Itoa by lia. cbn. by rewrite (proj2 (Z.leb_le z _)) by lia.
Qed.

Lemma parse_int_Itoa (neg : bool) z :
  0 ≤ z → min_int64 ≤ (if neg then - z else z) ≤ max_int64 →
  parse_int neg (Itoa z) = Some (if neg then - z else z).
Proof.
  intros Hz Hr. destruct (Itoa_nonneg_shape z Hz) as (c & t & Hi & _).
  unfold parse_int. rewrite Hi, <- Hi, digits_Itoa by done. cbn -[min_int64 max_int64].
  by rewrite !(proj2 (Z.leb_le _ _)) by lia.
Qed.

(** [Atoi] reads back what [Itoa] wrote. *)
Lemma Atoi_Itoa z : min_int64 ≤ z ≤ max_int64 → Atoi (Itoa z) = Some z.
Proof.
  intros Hz. destruct (decide (0 ≤ z)) as [Hp|Hp].
  - destruct (Itoa_nonneg_shape z Hp) as (c & t & Hi & Hd). unfold Atoi. rewrite Hi.
    assert (beq c x2b = false) as -> by (apply beq_false; intros ->; vm_compute in Hd; by destruct Hd).
    assert (beq c x2d = false) as -> by (apply beq_false; intros ->; vm_compute in Hd; by destruct Hd).
    rewrite <- Hi. by apply (parse_int_Itoa false).
  - assert (Hi : Itoa z = x2d :: Itoa (- z)).
    { unfold Itoa. rewrite Z.abs_opp, (proj2 (Z.ltb_lt z 0)), (proj2 (Z.ltb_ge (- z) 0)) by lia.
      done. }
    rewrite Hi. change (Atoi (x2d :: Itoa (- z))) with (parse_int true (Itoa (- z))).
    rewrite parse_int_Itoa by lia. by rewrite Z.opp_involutive.
Qed.

(** ** Lemmas: scanning text *)

(** A text file with these lines. *)
Definition text (lines : list bytes) : bytes := concat (map (λ l, l ++ [x0a]) lines).

(** A line the scanner returns as it is. *)
Definition line_ok (l : bytes) : Prop :=
  (x0a ∉ l) ∧ drop_cr l = l ∧ Z.of_nat (length l) < max_token.

Lemma Split_text lines : Forall (λ l, x0a ∉ l) lines → Split (text lines) x0a = lines ++ [[]].
Proof.
  unfold text. induction 1 as [|l lines Hl Hls IH]; [done|]. cbn [map concat].
  rewrite <- app_assoc. cbn [app]. by rewrite Split_app, IH.
Qed.

Lemma scan_lines_text lines :
  Forall line_ok lines → scan_lines (Reader (text lines) None) = (lines, None).
Proof.
  intros H. unfold scan_lines, raw_lines. cbn [r_data r_err].
  rewrite Split_text by (eapply Forall_impl; [exact H|]; by intros ? []).
  rewrite reverse_snoc, reverse_involutive.
  induction H as [|l lines (_ & Hcr & Hlen) _ IH]; [done|]. cbn [scan_raw].
  rewrite (proj2 (Z.leb_gt _ _)) by done. by rewrite IH, Hcr.
Qed.

Lemma drop_cr_trimmed l : rune_at rev_space_runes (reverse l) = None → drop_cr l = l.
Proof.
  unfold drop_cr. destruct (reverse l) as [|c t] eqn:E; [done|]. intros H.
  destruct (beq c x0d) eqn:Hc; [|done]. bools. subst. done.
Qed.

Lemma line_ok_trimmed l :
  trimmed l → x0a ∉ l → Z.of_nat (length l) < max_token → line_ok l.
Proof. intros [_ Ht] Hn Hl. split_and!; [done|by apply drop_cr_trimmed|done]. Qed.
