(* ===== verification/GoNumbers.v ===== *)
(** * Numbers as Go reads and computes them

    float64, and the values of flags: [strconv.ParseBool], [strconv.ParseInt] with the base
    taken from the prefix, and [time.ParseDuration]. *)

From Stdlib Require Import Floats.SpecFloat.
From S2P Require Import Prelude GoStrings.

(** ** float64, and [int(f)] of one *)

Definition float64 (z : Z) : spec_float := binary_normalize 53 1024 z 0 false.

Definition float_int (f : spec_float) : Z :=
  match f with
  | S754_finite s m e =>
      let v := if 0 <=? e then Zpos m * 2 ^ e else Zpos m / 2 ^ (- e) in
      if s then - v else v
  | _ => 0
  end.

(** ** [strconv.ParseBool] *)

Definition ParseBool (s : bytes) : option bool :=
  if existsb (λ t, s =s str t) ["1"; "t"; "T"; "true"; "TRUE"; "True"]%string then Some true
  else if existsb (λ t, s =s str t) ["0"; "f"; "F"; "false"; "FALSE"; "False"]%string then Some false
  else None.

(** ** [strconv.ParseInt(s, 0, 64)] *)

(** [c | ('x' - 'X')] *)
Definition lower_bit (c : byte) : Z := Z.lor (byteZ c) 32.

(** The value of a digit in bases up to 36. *)
Definition digit36 (c : byte) : option Z :=
  match digit c with
  | Some d => Some d
  | None => let l := lower_bit c in if (97 <=? l) && (l <=? 122) then Some (l - 97 + 10) else None
  end.

(** The base a prefix announces, and what follows it. *)
Definition base_prefix (s : bytes) : Z * bytes :=
  match s with
  | "0"%byte :: c :: _ :: _ =>
      if lower_bit c =? 98 then (2, drop 2 s)
      else if lower_bit c =? 111 then (8, drop 2 s)
      else if lower_bit c =? 120 then (16, drop 2 s)
      else (8, drop 1 s)
  | "0"%byte :: _ => (8, drop 1 s)
  | _ => (10, s)
  end.

(** The digits of a number in [base]; [None] for a bad digit or a value over [max_uint64]. *)
Fixpoint uint_digits (base n : Z) (s : bytes) : option Z :=
  match s with
  | [] => Some n
  | c :: s =>
      if beq c "_" then uint_digits base n s
      else
        d ← digit36 c;
        if base <=? d then None
        else if max_uint64 / base + 1 <=? n then None
        else if max_uint64 <? n * base + d then None
        else uint_digits base (n * base + d) s
  end.

(** [underscoreOK]: underscores only between digits, the prefix counting as one.  [saw] is
    what came before: a digit, an underscore, or something else. *)
Inductive seen_kind : Type := SawDigit | SawUnderscore | SawOther.

Fixpoint underscores_ok (hex : bool) (saw : seen_kind) (s : bytes) : bool :=
  match s with
  | [] => match saw with SawUnderscore => false | _ => true end
  | c :: s =>
      let l := lower_bit c in
      if match digit c with Some _ => true | None => hex && (97 <=? l) && (l <=? 102) end
      then underscores_ok hex SawDigit s
      else if beq c "_" then
        match saw with SawDigit => underscores_ok hex SawUnderscore s | _ => false end
      else match saw with SawUnderscore => false | _ => underscores_ok hex SawOther s end
  end.

Definition underscoreOK (s : bytes) : bool :=
  let s := match s with c :: r => if beq c "-" || beq c "+" then r else s | [] => s end in
  match s with
  | "0"%byte :: c :: r =>
      let l := lower_bit c in
      if (l =? 98) || (l =? 111) || (l =? 120)
      then underscores_ok (l =? 120) SawDigit r else underscores_ok false SawOther s
  | _ => underscores_ok false SawOther s
  end.

Definition ParseUint0 (s : bytes) : option Z :=
  if s =s "" then None
  else
    let '(base, r) := base_prefix s in
    n ← uint_digits base 0 r;
    if existsb (beq "_") r && negb (underscoreOK s) then None else Some n.

Definition ParseInt0 (s : bytes) : option Z :=
  match s with
  | [] => None
  | c :: r =>
      let neg := beq c "-" in
      n ← ParseUint0 (if neg || beq c "+" then r else s);
      if neg then (if n <=? 2 ^ 63 then Some (- n) else None)
      else (if n <? 2 ^ 63 then Some n else None)
  end.

Example parse_int0_ex :
  map ParseInt0 [str "22000"; str "0x55F0"; str "0b11"; str "010"; str "1_000"; str "-5"; str "+7"; str "0"]
  = map Some [22000; 22000; 3; 8; 1000; -5; 7; 0] ∧
  map ParseInt0 [[]; str "x"; str "08"; str "1__0"; str "_1"; str "9223372036854775808"; str "0x"; str "-"]
  = replicate 8 None.
Proof. vm_compute. split; reflexivity. Qed.

(** ** [time.ParseDuration] *)

(** [leadingInt]: [None] when the number is over 2^63. *)
Fixpoint leadingInt (x : Z) (s : bytes) : option (Z * bytes) :=
  match s with
  | [] => Some (x, [])
  | c :: r =>
      match digit c with
      | None => Some (x, s)
      | Some d =>
          if 2 ^ 63 / 10 <? x then None
          else if 2 ^ 63 <? x * 10 + d then None
          else leadingInt (x * 10 + d) r
      end
  end.

(** [leadingFraction]: digits beyond the precision are skipped. *)
Fixpoint leadingFraction (x : Z) (scale : spec_float) (overflow : bool) (s : bytes)
    : Z * spec_float * bytes :=
  match s with
  | [] => (x, scale, [])
  | c :: r =>
      match digit c with
      | None => (x, scale, s)
      | Some d =>
          if overflow || (max_int64 / 10 <? x) || (2 ^ 63 <? x * 10 + d)
          then leadingFraction x scale true r
          else leadingFraction (x * 10 + d) (SFmul 53 1024 scale (float64 10)) false r
      end
  end.

Definition unitMap (u : bytes) : option Z :=
  if u =s "ns" then Some 1
  else if (u =s "us") || (u =s [xc2; xb5; x73]) || (u =s [xce; xbc; x73]) then Some 1000
  else if u =s "ms" then Some 1000000
  else if u =s "s" then Some 1000000000
  else if u =s "m" then Some (60 * 1000000000)
  else if u =s "h" then Some (60 * 60 * 1000000000)
  else None.

Definition numeric (c : byte) : bool :=
  beq c "." || match digit c with Some _ => true | None => false end.

(** The text of a unit ends where the next number begins. *)
Fixpoint unit_text (s : bytes) : bytes * bytes :=
  match s with
  | [] => ([], [])
  | c :: r => if numeric c then ([], s) else let '(u, t) := unit_text r in (c :: u, t)
  end.

(** One number with its unit: its nanoseconds, and what is left. *)
Definition duration_part (s : bytes) : option (Z * bytes) :=
  if negb (match s with c :: _ => numeric c | [] => false end) then None
  else
    '(v, s1) ← leadingInt 0 s;
    let pre := negb (length s1 =? length s)%nat in
    let '(f, scale, s2, post) :=
      match s1 with
      | "."%byte :: r =>
          let '(f, scale, t) := leadingFraction 0 (float64 1) false r in
          (f, scale, t, negb (length t =? length r)%nat)
      | _ => (0, float64 1, s1, false)
      end in
    if negb pre && negb post then None
    else
      let '(u, s3) := unit_text s2 in
      if u =s "" then None
      else
        unit ← unitMap u;
        if 2 ^ 63 / unit <? v then None
        else
          let v := v * unit in
          if 0 <? f then
            let v := v + float_int (SFmul 53 1024 (float64 f) (SFdiv 53 1024 (float64 unit) scale)) in
            if 2 ^ 63 <? v then None else Some (v, s3)
          else Some (v, s3).

(** The loop over the parts; each takes at least one byte. *)
Fixpoint duration_parts (fuel : nat) (d : Z) (s : bytes) : option Z :=
  match s with
  | [] => Some d
  | _ =>
      match fuel with
      | O => None
      | S fuel =>
          '(v, r) ← duration_part s;
          if 2 ^ 63 <? d + v then None else duration_parts fuel (d + v) r
      end
  end.

Definition ParseDuration (s : bytes) : option Z :=
  let neg := match s with c :: _ => beq c "-" | [] => false end in
  let s := match s with c :: r => if beq c "-" || beq c "+" then r else s | [] => s end in
  if s =s "0" then Some 0
  else if s =s "" then None
  else
    d ← duration_parts (length s) 0 s;
    if neg then Some (- d) else if max_int64 <? d then None else Some d.

Example parse_duration_ex :
  map ParseDuration [str "1m0s"; str "1.5h"; str "-2ms"; str ".5s"; str "0"; str "1h2m3s"; str "100ns"]
  = map Some [60000000000; 5400000000000; -2000000; 500000000; 0; 3723000000000; 100] ∧
  map ParseDuration [[]; str "5"; str "s"; str ".s"; str "1d"; str "9223372036854775808ns"] = replicate 6 None.
Proof. vm_compute. split; reflexivity. Qed.

(** *** The fuel is enough *)

Lemma leadingInt_shorter x s y r : leadingInt x s = Some (y, r) → (length r ≤ length s)%nat.
Proof.
  revert x; induction s as [|c s IH]; intros x; cbn [leadingInt]; [by intros [= _ <-]|].
  destruct (digit c); [|by intros [= _ <-]]. do 2 (case_match; [done|]). intros ?%IH. cbn; lia.
Qed.

Lemma leadingFraction_shorter x sc o s : (length (snd (leadingFraction x sc o s)) ≤ length s)%nat.
Proof.
  revert x sc o; induction s as [|c s IH]; intros x sc o; cbn [leadingFraction]; [done|].
  destruct (digit c); [|done]. case_match; etrans; [apply IH|cbn; lia|apply IH|cbn; lia].
Qed.

Lemma unit_text_split s u r : unit_text s = (u, r) → s = u ++ r.
Proof.
  revert u r; induction s as [|c s IH]; intros u r; cbn [unit_text]; [by intros [= <- <-]|].
  case_match; [by intros [= <- <-]|]. destruct (unit_text s) as [u' t]. intros [= <- <-]. cbn. f_equal. by apply IH.
Qed.

Lemma duration_part_shorter s v r : duration_part s = Some (v, r) → (length r < length s)%nat.
Proof.
  unfold duration_part. case_match; [done|].
  intros ([v1 s1] & H1%leadingInt_shorter & Hr)%bind_Some.
  set (q := match s1 with "."%byte :: r => _ | _ => _ end) in Hr.
  assert (Hq : (length (snd (fst q)) ≤ length s1)%nat).
  { unfold q. destruct s1 as [|c s1']; [done|]. destruct c; try done.
    pose proof (leadingFraction_shorter 0 (float64 1) false s1') as Hl.
    destruct (leadingFraction _ _ _ s1') as [[f sc] t]. cbn in *. lia. }
  destruct q as [[[f sc] s2] post]. cbn in Hq. case_match; [done|].
  destruct (unit_text s2) as [u s3] eqn:Eu. apply unit_text_split in Eu. subst s2.
  destruct (u =s "") eqn:Hu; [done|]. bools. rewrite length_app in Hq.
  assert (length u ≠ 0)%nat by (by destruct u).
  apply bind_Some in Hr as (unit & _ & Hr). repeat (case_match; try done); simplify_eq; cbn [length] in *; lia.
Qed.

Lemma duration_parts_fuel n m d s :
  (length s ≤ n)%nat → (length s ≤ m)%nat → duration_parts n d s = duration_parts m d s.
Proof.
  revert m d s; induction n as [|n IH]; intros m d s Hn Hm.
  { destruct s; [by destruct m|cbn in Hn; lia]. }
  destruct s as [|c s]; [by destruct m|]. destruct m as [|m]; [cbn in Hm; lia|]. cbn [duration_parts].
  destruct (duration_part (c :: s)) as [[v r]|] eqn:E; [|done]. apply duration_part_shorter in E.
  cbn [mbind option_bind]. case_match; [done|]. apply IH; lia.
Qed.
