(* ===== verification/Utf8.v ===== *)
(** * UTF-8 decoding and encoding, as Go's [unicode/utf8] does it

    [encoding/json] walks strings rune by rune, replacing malformed input; the
    JSON model needs the same decoder.  The main fact is that decoding and then
    encoding a well-formed rune gives back the bytes it was read from. *)

From S2P Require Import Prelude.

Definition RuneError : Z := 0xFFFD.

(** A continuation byte between [lo] and [hi]. *)
Definition in_range (lo hi : Z) (b : byte) : bool := (lo <=? byteZ b) && (byteZ b <=? hi).
Definition cont (b : byte) : bool := in_range 0x80 0xBF b.
Definition low6 (b : byte) : Z := byteZ b mod 64.

(** The range of the second byte after a lead byte of a three- or four-byte rune. *)
Definition second_range (b0 : Z) : Z * Z :=
  if b0 =? 0xE0 then (0xA0, 0xBF) else if b0 =? 0xED then (0x80, 0x9F)
  else if b0 =? 0xF0 then (0x90, 0xBF) else if b0 =? 0xF4 then (0x80, 0x8F)
  else (0x80, 0xBF).

(** [utf8.DecodeRune]: the rune and its width; malformed input gives
    [(RuneError, 1)], the empty string [(RuneError, 0)]. *)
Definition DecodeRune (s : bytes) : Z * nat :=
  match s with
  | [] => (RuneError, 0%nat)
  | b0 :: t =>
      let z0 := byteZ b0 in
      let '(lo, hi) := second_range z0 in
      if z0 <? 0x80 then (z0, 1%nat)
      else if (0xC2 <=? z0) && (z0 <=? 0xDF) then
        match t with
        | b1 :: _ => if cont b1 then (z0 mod 32 * 64 + low6 b1, 2%nat) else (RuneError, 1%nat)
        | [] => (RuneError, 1%nat)
        end
      else if (0xE0 <=? z0) && (z0 <=? 0xEF) then
        match t with
        | b1 :: b2 :: _ =>
            if in_range lo hi b1 && cont b2
            then (z0 mod 16 * 4096 + low6 b1 * 64 + low6 b2, 3%nat) else (RuneError, 1%nat)
        | _ => (RuneError, 1%nat)
        end
      else if (0xF0 <=? z0) && (z0 <=? 0xF4) then
        match t with
        | b1 :: b2 :: b3 :: _ =>
            if in_range lo hi b1 && cont b2 && cont b3
            then (z0 mod 8 * 262144 + low6 b1 * 4096 + low6 b2 * 64 + low6 b3, 4%nat)
            else (RuneError, 1%nat)
        | _ => (RuneError, 1%nat)
        end
      else (RuneError, 1%nat)
  end.

Definition surrogate (r : Z) : bool := (0xD800 <=? r) && (r <=? 0xDFFF).

(** [utf8.EncodeRune]; an invalid rune encodes as [RuneError]. *)
Definition EncodeRune (r : Z) : bytes :=
  let r := if (r <? 0) || surrogate r || (0x10FFFF <? r) then RuneError else r in
  if r <? 0x80 then [Zbyte r]
  else if r <? 0x800 then [Zbyte (0xC0 + r / 64); Zbyte (0x80 + r mod 64)]
  else if r <? 0x10000 then
    [Zbyte (0xE0 + r / 4096); Zbyte (0x80 + r / 64 mod 64); Zbyte (0x80 + r mod 64)]
  else
    [Zbyte (0xF0 + r / 262144); Zbyte (0x80 + r / 4096 mod 64);
     Zbyte (0x80 + r / 64 mod 64); Zbyte (0x80 + r mod 64)].

(** The rune at the head of [s] is malformed. *)
Definition bad_rune (s : bytes) : bool :=
  let '(r, n) := DecodeRune s in (r =? RuneError) && (n =? 1)%nat.

(** [utf8.Valid], with [skip] the bytes left of the rune being read. *)
Fixpoint valid_go (skip : nat) (s : bytes) : bool :=
  match s with
  | [] => true
  | _ :: s' =>
      match skip with
      | S k => valid_go k s'
      | O => negb (bad_rune s) && valid_go (pred (snd (DecodeRune s))) s'
      end
  end.

Definition ValidUtf8 (s : bytes) : bool := valid_go 0 s.

(** ** Decoding then encoding *)

(** Linear arithmetic with division and remainder by constants. *)
Ltac dlia := Z.to_euclidean_division_equations; lia.

Lemma rune2 z0 z1 :
  0xC2 ≤ z0 ≤ 0xDF → 0x80 ≤ z1 ≤ 0xBF →
  let r := z0 mod 32 * 64 + z1 mod 64 in
  0x80 ≤ r < 0x800 ∧ 0xC0 + r / 64 = z0 ∧ 0x80 + r mod 64 = z1.
Proof. cbv zeta. dlia. Qed.

Lemma rune3 z0 z1 z2 :
  0xE0 ≤ z0 ≤ 0xEF → (second_range z0).1 ≤ z1 ≤ (second_range z0).2 → 0x80 ≤ z2 ≤ 0xBF →
  let r := z0 mod 16 * 4096 + z1 mod 64 * 64 + z2 mod 64 in
  0x800 ≤ r < 0x10000 ∧ surrogate r = false ∧
  0xE0 + r / 4096 = z0 ∧ 0x80 + r / 64 mod 64 = z1 ∧ 0x80 + r mod 64 = z2.
Proof.
  intros H0 H1 H2. cbv zeta. unfold second_range in H1.
  assert (Hs : ∀ r, ¬ (0xD800 ≤ r ≤ 0xDFFF) → surrogate r = false).
  { intros r Hr. unfold surrogate.
    destruct (0xD800 <=? r) eqn:?, (r <=? 0xDFFF) eqn:?; bools; simpl; lia. }
  repeat case_match; bools; cbn [fst snd] in H1;
    (split; [|split; [apply Hs|]]); dlia.
Qed.

Lemma rune4 z0 z1 z2 z3 :
  0xF0 ≤ z0 ≤ 0xF4 → (second_range z0).1 ≤ z1 ≤ (second_range z0).2 →
  0x80 ≤ z2 ≤ 0xBF → 0x80 ≤ z3 ≤ 0xBF →
  let r := z0 mod 8 * 262144 + z1 mod 64 * 4096 + z2 mod 64 * 64 + z3 mod 64 in
  0x10000 ≤ r ≤ 0x10FFFF ∧
  0xF0 + r / 262144 = z0 ∧ 0x80 + r / 4096 mod 64 = z1 ∧
  0x80 + r / 64 mod 64 = z2 ∧ 0x80 + r mod 64 = z3.
Proof.
  intros H0 H1 H2 H3. cbv zeta. unfold second_range in H1.
  repeat case_match; bools; cbn [fst snd] in H1; dlia.
Qed.

Lemma not_surrogate r : r < 0xD800 ∨ 0xDFFF < r → surrogate r = false.
Proof.
  intros Hr. unfold surrogate.
  destruct (0xD800 <=? r) eqn:?, (r <=? 0xDFFF) eqn:?; bools; simpl; lia.
Qed.

(** The encoder on a valid rune, by width. *)
Lemma EncodeRune_valid r :
  0 ≤ r → surrogate r = false → r ≤ 0x10FFFF →
  EncodeRune r =
    if r <? 0x80 then [Zbyte r]
    else if r <? 0x800 then [Zbyte (0xC0 + r / 64); Zbyte (0x80 + r mod 64)]
    else if r <? 0x10000 then
      [Zbyte (0xE0 + r / 4096); Zbyte (0x80 + r / 64 mod 64); Zbyte (0x80 + r mod 64)]
    else
      [Zbyte (0xF0 + r / 262144); Zbyte (0x80 + r / 4096 mod 64);
       Zbyte (0x80 + r / 64 mod 64); Zbyte (0x80 + r mod 64)].
Proof.
  intros H0 Hs H1. unfold EncodeRune. rewrite Hs.
  replace (r <? 0) with false by (symmetry; apply Z.ltb_ge; lia).
  replace (0x10FFFF <? r) with false by (symmetry; apply Z.ltb_ge; lia).
  done.
Qed.

Lemma ltb_true a b : a < b → (a <? b) = true.
Proof. apply Z.ltb_lt. Qed.
Lemma ltb_false a b : b ≤ a → (a <? b) = false.
Proof. apply Z.ltb_ge. Qed.

Lemma DecodeRune_width s : s ≠ [] → (1 ≤ snd (DecodeRune s) ≤ length s)%nat.
Proof.
  destruct s as [|b0 s]; [done|]. intros _. unfold DecodeRune.
  destruct (second_range (byteZ b0)) as [lo hi].
  repeat case_match; simplify_eq/=; lia.
Qed.

Lemma in_range_true lo hi b : in_range lo hi b = true ↔ lo ≤ byteZ b ≤ hi.
Proof. unfold in_range. rewrite andb_true_iff, !Z.leb_le. done. Qed.

Lemma DecodeRune_ascii b s : byteZ b < 0x80 → DecodeRune (b :: s) = (byteZ b, 1%nat).
Proof.
  intros H. unfold DecodeRune. destruct (second_range _). by rewrite ltb_true.
Qed.

(** Decoding a well-formed rune and encoding it gives back its bytes. *)
Lemma Encode_Decode s :
  s ≠ [] → bad_rune s = false →
  EncodeRune (fst (DecodeRune s)) = take (snd (DecodeRune s)) s.
Proof.
  destruct s as [|b0 s]; [done|]. intros _ Hbad.
  unfold bad_rune, DecodeRune in *. pose proof (byteZ_range b0) as Hb0.
  destruct (second_range (byteZ b0)) as [lo hi] eqn:Hr.
  destruct (byteZ b0 <? 0x80) eqn:E0; [|destruct (_ && (byteZ b0 <=? 0xDF)) eqn:E1;
    [|destruct (_ && (byteZ b0 <=? 0xEF)) eqn:E2; [|destruct (_ && (byteZ b0 <=? 0xF4)) eqn:E3;
      [|done]]]].
  - bools. cbn [fst snd]. rewrite EncodeRune_valid by (try apply not_surrogate; lia).
    rewrite ltb_true by lia. by rewrite Zbyte_byteZ.
  - destruct s as [|b1 s]; [done|]. destruct (cont b1) eqn:C1; [|done].
    apply in_range_true in C1. bools. cbn [fst snd].
    destruct (rune2 (byteZ b0) (byteZ b1)) as (? & Ha & Hb); [lia..|]. unfold low6.
    rewrite EncodeRune_valid by (try apply not_surrogate; lia).
    by rewrite ltb_false, ltb_true, Ha, Hb, !Zbyte_byteZ by lia.
  - destruct s as [|b1 [|b2 s]]; [done..|]. destruct (in_range lo hi b1 && cont b2) eqn:C1; [|done].
    apply andb_true_iff in C1 as [C1%in_range_true C2%in_range_true]. bools. cbn [fst snd].
    destruct (rune3 (byteZ b0) (byteZ b1) (byteZ b2)) as (? & ? & Ha & Hb & Hc);
      [lia|rewrite Hr; simpl; lia|lia|]. unfold low6.
    rewrite EncodeRune_valid by (done || lia).
    by rewrite !ltb_false, ltb_true, Ha, Hb, Hc, !Zbyte_byteZ by lia.
  - destruct s as [|b1 [|b2 [|b3 s]]]; [done..|].
    destruct (in_range lo hi b1 && cont b2 && cont b3) eqn:C1; [|done].
    apply andb_true_iff in C1 as [[C1%in_range_true C2%in_range_true]%andb_true_iff C3%in_range_true].
    bools. cbn [fst snd].
    destruct (rune4 (byteZ b0) (byteZ b1) (byteZ b2) (byteZ b3)) as (? & Ha & Hb & Hc & Hd);
      [lia|rewrite Hr; simpl; lia|lia|lia|]. unfold low6.
    rewrite EncodeRune_valid by (try apply not_surrogate; lia).
    by rewrite !ltb_false, Ha, Hb, Hc, Hd, !Zbyte_byteZ by lia.
Qed.

(** The decoder looks at no byte past the rune it returns. *)
Lemma DecodeRune_take s t :
  s ≠ [] → bad_rune s = false →
  DecodeRune (take (snd (DecodeRune s)) s ++ t) = DecodeRune s.
Proof.
  destruct s as [|b0 s]; [done|]. intros _ Hbad.
  unfold bad_rune, DecodeRune in *.
  destruct (second_range (byteZ b0)) as [lo hi] eqn:?.
  destruct s as [|b1 [|b2 [|b3 s]]]; repeat (case_match; simplify_eq/=); try done.
Qed.

Lemma valid_go_skip k s : valid_go k s = valid_go 0 (drop k s).
Proof. revert k; induction s as [|c s IH]; intros [|k]; simpl; auto. Qed.

(** A valid string starts with a well-formed rune and is valid after it. *)
Lemma ValidUtf8_step c s :
  ValidUtf8 (c :: s) = true →
  bad_rune (c :: s) = false ∧ ValidUtf8 (drop (snd (DecodeRune (c :: s))) (c :: s)) = true.
Proof.
  unfold ValidUtf8. cbn [valid_go]. intros [Hb%negb_true_iff Hv]%andb_true_iff.
  split; [done|]. pose proof (DecodeRune_width (c :: s) ltac:(done)).
  destruct (snd (DecodeRune (c :: s))) as [|n]; [lia|].
  by rewrite valid_go_skip in Hv.
Qed.

Lemma valid_go_ascii s : forallb (λ c, byteZ c <? 0x80) s = true → ValidUtf8 s = true.
Proof.
  unfold ValidUtf8. induction s as [|c s IH]; [done|]. cbn [forallb valid_go].
  intros [Hc%Z.ltb_lt Hs]%andb_true_iff. pose proof (byteZ_range c).
  unfold bad_rune. rewrite (DecodeRune_ascii c s) by done. cbn [fst snd pred].
  rewrite IH by done. replace (byteZ c =? RuneError) with false; [done|].
  symmetry. apply Z.eqb_neq. unfold RuneError. lia.
Qed.
