(* ===== verification/Json.v ===== *)
(** * The part of [encoding/json] the program relies on

    Documents as [json] values; [print] is the compact text [json.Marshal]
    produces (with HTML escaping on, the default), [parse] the validation and
    decoding [json.Unmarshal] does before it fills a struct, [parse_first] what
    [Decoder.Decode] reads.  Object members are matched to struct fields by
    [field_match], exactly or case-folded, and the last match wins.

    A parse needs at most two calls per byte of input, the fuel given. *)

From S2P Require Import Prelude GoStrings Utf8.

#[warnings="-register-all"]
Inductive json : Type :=
| JNull
| JBool (b : bool)
| JNum (lit : bytes)
| JStr (s : bytes)
| JArr (l : list json)
| JObj (l : list (bytes * json)).

(** ** Strings *)

Definition hexd (z : Z) : byte := if z <? 10 then Zbyte (48 + z) else Zbyte (87 + z).

Definition html_safe (c : byte) : bool :=
  (32 <=? byteZ c) && negb (existsb (beq c) [x22; x5c; x3c; x3e; x26]).

(** The two-character escapes the encoder writes. *)
Definition short_escapes : list (byte * byte) :=
  [(x5c, x5c); (x22, x22); (x08, x62); (x0c, x66); (x0a, x6e); (x0d, x72); (x09, x74)].

(** One ASCII byte, as [appendString] writes it. *)
Definition esc_ascii (c : byte) : bytes :=
  if html_safe c then [c]
  else match assoc c short_escapes with
       | Some e => [x5c; e]
       | None => str "\u00" ++ [hexd (byteZ c / 16); hexd (byteZ c mod 16)]
       end.

(** [skip] counts the bytes left of a multi-byte rune; [emit] says whether they
    are copied or were replaced by an escape. *)
Fixpoint quote_go (emit : bool) (skip : nat) (s : bytes) : bytes :=
  match s with
  | [] => []
  | c :: s' =>
      match skip with
      | S k => if emit then c :: quote_go emit k s' else quote_go emit k s'
      | O =>
          if byteZ c <? 0x80 then esc_ascii c ++ quote_go true 0 s'
          else
            let '(r, n) := DecodeRune s in
            if (r =? RuneError) && (n =? 1)%nat then str "\ufffd" ++ quote_go true 0 s'
            else if (r =? 0x2028) || (r =? 0x2029)
            then str "\u202" ++ hexd (r mod 16) :: quote_go false (pred n) s'
            else c :: quote_go true (pred n) s'
      end
  end.

Definition quote (s : bytes) : bytes := x22 :: quote_go true 0 s ++ [x22].

Definition hexval (c : byte) : option Z :=
  let z := byteZ c in
  if (48 <=? z) && (z <=? 57) then Some (z - 48)
  else if (97 <=? z) && (z <=? 102) then Some (z - 87)
  else if (65 <=? z) && (z <=? 70) then Some (z - 55) else None.

(** Four hexadecimal digits. *)
Definition u4 (s : bytes) : option (Z * bytes) :=
  match s with
  | a :: b :: c :: d :: t =>
      a ← hexval a; b ← hexval b; c ← hexval c; d ← hexval d;
      Some (a * 4096 + b * 256 + c * 16 + d, t)
  | _ => None
  end.

(** [utf16.DecodeRune] *)
Definition utf16_pair (r1 r2 : Z) : option Z :=
  if (0xD800 <=? r1) && (r1 <=? 0xDBFF) && (0xDC00 <=? r2) && (r2 <=? 0xDFFF)
  then Some ((r1 - 0xD800) * 1024 + (r2 - 0xDC00) + 0x10000) else None.

(** The escapes the decoder accepts, [\u] apart. *)
Definition simple_escape (c : byte) : option byte :=
  assoc c [(x22, x22); (x5c, x5c); (x2f, x2f); (x62, x08); (x66, x0c); (x6e, x0a);
           (x72, x0d); (x74, x09)].

(** The text after the byte [c], if [s] starts with it. *)
Definition expect (c : byte) (s : bytes) : option bytes :=
  match s with b :: t => if beq b c then Some t else None | [] => None end.

(** The rune a [\u] escape denotes, given the text after the [\u]: a surrogate
    takes the escape after it when the two form a pair. *)
Definition unicode_escape (s : bytes) : option (Z * bytes) :=
  '(r, t) ← u4 s;
  if surrogate r then
    match '(r2, v) ← (CutPrefix t "\u" ≫= u4); r' ← utf16_pair r r2; Some (r', v) with
    | Some res => Some res
    | None => Some (RuneError, t)
    end
  else Some (r, t).

(** The string literal after its opening quote: its value and the rest. *)
Fixpoint unquote (fuel : nat) (s : bytes) : option (bytes * bytes) :=
  match fuel with
  | O => None
  | S f =>
      match s with
      | [] => None
      | c :: t =>
          if beq c x22 then Some ([], t)
          else if beq c x5c then
            match t with
            | [] => None
            | e :: u =>
                if beq e x75 then
                  '(r, u') ← unicode_escape u;
                  '(v, rest) ← unquote f u'; Some (EncodeRune r ++ v, rest)
                else
                  b ← simple_escape e; '(v, rest) ← unquote f u; Some (b :: v, rest)
            end
          else if byteZ c <? 0x20 then None
          else if byteZ c <? 0x80 then '(v, rest) ← unquote f t; Some (c :: v, rest)
          else
            let '(r, n) := DecodeRune s in
            '(v, rest) ← unquote f (drop n s); Some (EncodeRune r ++ v, rest)
      end
  end.

(** ** Numbers *)

Definition is_digit (c : byte) : bool := (48 <=? byteZ c) && (byteZ c <=? 57).

Fixpoint span_digits (s : bytes) : bytes * bytes :=
  match s with
  | c :: t => if is_digit c then let '(a, b) := span_digits t in (c :: a, b) else ([], s)
  | [] => ([], [])
  end.

Definition frac_part (s : bytes) : option (bytes * bytes) :=
  match expect x2e s with
  | Some t => match span_digits t with
              | ([], _) => None
              | (d, u) => Some (x2e :: d, u)
              end
  | None => Some ([], s)
  end.

Definition sign_of (s : bytes) (signs : bytes) : bytes * bytes :=
  match s with
  | g :: t => if existsb (beq g) signs then ([g], t) else ([], s)
  | [] => ([], s)
  end.

Definition exp_part (s : bytes) : option (bytes * bytes) :=
  match s with
  | c :: t =>
      if beq c x65 || beq c x45 then
        let '(sign, t) := sign_of t [x2b; x2d] in
        match span_digits t with
        | ([], _) => None
        | (d, u) => Some (c :: sign ++ d, u)
        end
      else Some ([], s)
  | [] => Some ([], [])
  end.

Definition int_part (s : bytes) : option (bytes * bytes) :=
  match expect x30 s with
  | Some t => Some ([x30], t)
  | None => match span_digits s with ([], _) => None | (d, u) => Some (d, u) end
  end.

Definition number (s : bytes) : option (bytes * bytes) :=
  let '(sign, s) := sign_of s [x2d] in
  '(i, s) ← int_part s; '(f, s) ← frac_part s; '(e, s) ← exp_part s;
  Some (sign ++ i ++ f ++ e, s).

(** ** Documents *)

Definition is_ws (c : byte) : bool := existsb (beq c) [x20; x09; x0a; x0d].

Fixpoint skip_ws (s : bytes) : bytes :=
  match s with
  | c :: t => if is_ws c then skip_ws t else s
  | [] => []
  end.

Definition maxNestingDepth : Z := 10000.

(** The keywords. *)
Definition literal (s : bytes) : option (json * bytes) :=
  match CutPrefix s "null", CutPrefix s "true", CutPrefix s "false" with
  | Some t, _, _ => Some (JNull, t)
  | _, Some t, _ => Some (JBool true, t)
  | _, _, Some t => Some (JBool false, t)
  | _, _, _ => None
  end.

Fixpoint value (fuel : nat) (depth : Z) (s : bytes) {struct fuel} : option (json * bytes) :=
  match fuel, skip_ws s with
  | O, _ => None
  | S _, [] => None
  | S f, c :: t =>
      if beq c x22 then '(v, u) ← unquote (S (length t)) t; Some (JStr v, u)
      else if beq c x5b then
        if maxNestingDepth <=? depth then None
        else match expect x5d (skip_ws t) with
             | Some u => Some (JArr [], u)
             | None => '(l, u) ← elements f (depth + 1) t; Some (JArr l, u)
             end
      else if beq c x7b then
        if maxNestingDepth <=? depth then None
        else match expect x7d (skip_ws t) with
             | Some u => Some (JObj [], u)
             | None => '(l, u) ← members f (depth + 1) t; Some (JObj l, u)
             end
      else match literal (c :: t) with
           | Some r => Some r
           | None => '(n, u) ← number (c :: t); Some (JNum n, u)
           end
  end
with elements (fuel : nat) (depth : Z) (s : bytes) {struct fuel} : option (list json * bytes) :=
  match fuel with
  | O => None
  | S f =>
      '(v, t) ← value f depth s;
      match expect x2c (skip_ws t) with
      | Some u => '(l, w) ← elements f depth u; Some (v :: l, w)
      | None => u ← expect x5d (skip_ws t); Some ([v], u)
      end
  end
with members (fuel : nat) (depth : Z) (s : bytes) {struct fuel}
  : option (list (bytes * json) * bytes) :=
  match fuel with
  | O => None
  | S f =>
      t ← expect x22 (skip_ws s);
      '(k, t) ← unquote (S (length t)) t;
      t ← expect x3a (skip_ws t);
      '(v, t) ← value f depth t;
      match expect x2c (skip_ws t) with
      | Some u => '(l, w) ← members f depth u; Some ((k, v) :: l, w)
      | None => u ← expect x7d (skip_ws t); Some ([(k, v)], u)
      end
  end.

Definition doc_fuel (s : bytes) : nat := 2 * length s + 2.

(** [Decoder.Decode]: the first value; what follows it is left unread. *)
Definition parse_first (s : bytes) : option json :=
  '(v, _) ← value (doc_fuel s) 0 s; Some v.

(** [json.Unmarshal]: one value and nothing but white space around it. *)
Definition parse (s : bytes) : option json :=
  '(v, t) ← value (doc_fuel s) 0 s;
  match skip_ws t with [] => Some v | _ => None end.

(** [json.Marshal] *)
Fixpoint print (j : json) : bytes :=
  match j with
  | JNull => str "null"
  | JBool b => if b then str "true" else str "false"
  | JNum lit => lit
  | JStr s => quote s
  | JArr l => x5b :: Join (map print l) "," ++ [x5d]
  | JObj l => x7b :: Join (map (λ kv, quote (fst kv) ++ x3a :: print (snd kv)) l) "," ++ [x7d]
  end.

(** ** Filling a struct *)

(** The case folding of object keys; the long s and the Kelvin sign are the two
    runes outside ASCII that fold into it. *)
Fixpoint fold_go (skip : nat) (s : bytes) : bytes :=
  match s with
  | [] => []
  | c :: t =>
      match skip with
      | S k => fold_go k t
      | O =>
          if HasPrefix s [xc5; xbf] then x53 :: fold_go 1 t
          else if HasPrefix s [xe2; x84; xaa] then x4b :: fold_go 2 t
          else (if (97 <=? byteZ c) && (byteZ c <=? 122) then Zbyte (byteZ c - 32) else c)
               :: fold_go 0 t
      end
  end.

Definition fold_key (s : bytes) : bytes := fold_go 0 s.

Definition field_match (name key : bytes) : bool :=
  (key =s name) || (fold_key key =s fold_key name).

(** A string field: [null] leaves it alone, anything but a string is an error. *)
Fixpoint string_field (name : bytes) (acc : bytes) (o : list (bytes * json)) : option bytes :=
  match o with
  | [] => Some acc
  | (k, v) :: o =>
      if field_match name k then
        match v with
        | JStr s => string_field name s o
        | JNull => string_field name acc o
        | _ => None
        end
      else string_field name acc o
  end.

(** An [int] field: only an integer literal in range fits. *)
Fixpoint int_field (name : bytes) (acc : Z) (o : list (bytes * json)) : option Z :=
  match o with
  | [] => Some acc
  | (k, v) :: o =>
      if field_match name k then
        match v with
        | JNum lit => z ← Atoi lit; int_field name z o
        | JNull => int_field name acc o
        | _ => None
        end
      else int_field name acc o
  end.

Definition string_elem (j : json) : option bytes :=
  match j with JStr s => Some s | JNull => Some [] | _ => None end.

(** A [[]string] field; a [null] element reads as the empty string. *)
Fixpoint strings_field (name : bytes) (acc : list bytes) (o : list (bytes * json))
  : option (list bytes) :=
  match o with
  | [] => Some acc
  | (k, v) :: o =>
      if field_match name k then
        match v with
        | JArr l => l ← mapM string_elem l; strings_field name l o
        | JNull => strings_field name [] o
        | _ => None
        end
      else strings_field name acc o
  end.

(** A [*string] field: [null] makes it nil. *)
Fixpoint string_ptr_field (name : bytes) (acc : option bytes) (o : list (bytes * json))
  : option (option bytes) :=
  match o with
  | [] => Some acc
  | (k, v) :: o =>
      if field_match name k then
        match v with
        | JStr s => string_ptr_field name (Some s) o
        | JNull => string_ptr_field name None o
        | _ => None
        end
      else string_ptr_field name acc o
  end.

(** A [*uint16] field. *)
Fixpoint uint16_ptr_field (name : bytes) (acc : option Z) (o : list (bytes * json))
  : option (option Z) :=
  match o with
  | [] => Some acc
  | (k, v) :: o =>
      if field_match name k then
        match v with
        | JNum lit => z ← ParseUint lit;
                      if z <? 2 ^ 16 then uint16_ptr_field name (Some z) o else None
        | JNull => uint16_ptr_field name None o
        | _ => None
        end
      else uint16_ptr_field name acc o
  end.

(** A [uint16] field. *)
Fixpoint uint16_field (name : bytes) (acc : Z) (o : list (bytes * json)) : option Z :=
  match o with
  | [] => Some acc
  | (k, v) :: o =>
      if field_match name k then
        match v with
        | JNum lit => z ← ParseUint lit; if z <? 2 ^ 16 then uint16_field name z o else None
        | JNull => uint16_field name acc o
        | _ => None
        end
      else uint16_field name acc o
  end.

(** A pointer to a struct that [fill] decodes into; a repeated key fills the struct
    that is already there. *)
Fixpoint struct_ptr_field {A} (zero : A) (fill : A → list (bytes * json) → option A)
    (name : bytes) (acc : option A) (o : list (bytes * json)) : option (option A) :=
  match o with
  | [] => Some acc
  | (k, v) :: o =>
      if field_match name k then
        match v with
        | JObj fields => a ← fill (default zero acc) fields;
                         struct_ptr_field zero fill name (Some a) o
        | JNull => struct_ptr_field zero fill name None o
        | _ => None
        end
      else struct_ptr_field zero fill name acc o
  end.

(** The members to fill a struct from; a top-level [null] fills nothing. *)
Definition as_object (j : json) : option (list (bytes * json)) :=
  match j with JObj o => Some o | JNull => Some [] | _ => None end.

(** Example documents are written with apostrophes for quotes. *)
Definition jtext (s : string) : bytes := map (λ c, if beq c x27 then x22 else c) (str s).

Example parse_ex : parse (jtext " { 'a' : [1, -2.5e3, null], 'b' : 'x\n\u00e9' } ")
  = Some (JObj [(str "a", JArr [JNum "1"; JNum "-2.5e3"; JNull]);
                (str "b", JStr ("x" ++ [x0a; xc3; xa9]))]).
Proof. vm_compute. reflexivity. Qed.

Example print_ex : print (JObj [(str "type", JStr "a<b"); (str "m", JArr [JStr "totp"])])
  = jtext "{'type':'a\u003cb','m':['totp']}".
Proof. vm_compute. reflexivity. Qed.

(** ** Round trips *)

Lemma quote_go_emit e s : quote_go e 0 s = quote_go true 0 s.
Proof. by destruct s. Qed.

Lemma quote_go_copy k s : quote_go true k s = take k s ++ quote_go true 0 (drop k s).
Proof.
  revert k; induction s as [|c s IH]; intros [|k]; [done..|].
  cbn [quote_go]. by rewrite IH.
Qed.

Lemma quote_go_drop k s : quote_go false k s = quote_go true 0 (drop k s).
Proof.
  revert k; induction s as [|c s IH]; intros [|k]; [done..|].
  cbn [quote_go]. by rewrite IH.
Qed.

Lemma quote_go_cons c s :
  byteZ c < 0x80 → quote_go true 0 (c :: s) = esc_ascii c ++ quote_go true 0 s.
Proof. intros H. cbn [quote_go]. by rewrite ltb_true. Qed.

(** Reading back one escaped ASCII byte. *)
Lemma unquote_esc f c t :
  byteZ c < 0x80 →
  unquote (S f) (esc_ascii c ++ t) = ('(v, rest) ← unquote f t; Some (c :: v, rest)).
Proof. intros H. destruct c; first [exfalso; vm_compute in H; done | reflexivity]. Qed.

Lemma esc_ascii_length c : (1 ≤ length (esc_ascii c))%nat.
Proof. unfold esc_ascii. repeat case_match; simpl; lia. Qed.

Lemma quote_go_high c s r n :
  0x80 ≤ byteZ c → DecodeRune (c :: s) = (r, n) → bad_rune (c :: s) = false →
  quote_go true 0 (c :: s) =
    (if (r =? 0x2028) || (r =? 0x2029) then str "\u202" ++ [hexd (r mod 16)]
     else take n (c :: s)) ++ quote_go true 0 (drop n (c :: s)).
Proof.
  intros Hc Hd Hb. pose proof (DecodeRune_width (c :: s) ltac:(done)) as Hw.
  unfold bad_rune in Hb. rewrite Hd in *. cbn [snd] in Hw.
  cbn [quote_go]. rewrite ltb_false, Hd, Hb by lia.
  destruct n as [|n]; [lia|]. cbn [pred take drop].
  destruct (_ || _); [by rewrite quote_go_drop|by rewrite quote_go_copy].
Qed.

Lemma unquote_high f c s r n t :
  0x80 ≤ byteZ c → DecodeRune (c :: s) = (r, n) → bad_rune (c :: s) = false →
  unquote (S f) ((if (r =? 0x2028) || (r =? 0x2029) then str "\u202" ++ [hexd (r mod 16)]
                  else take n (c :: s)) ++ t)
  = ('(v, rest) ← unquote f t; Some (take n (c :: s) ++ v, rest)).
Proof.
  intros Hc Hd Hb. pose proof (Encode_Decode (c :: s) ltac:(done) Hb) as He.
  pose proof (DecodeRune_take (c :: s) t ltac:(done) Hb) as Ht.
  pose proof (DecodeRune_width (c :: s) ltac:(done)) as Hw.
  rewrite Hd in *. cbn [fst snd] in *. rewrite <- He.
  destruct (_ || _) eqn:Hr.
  - by apply orb_true_iff in Hr as [->%Z.eqb_eq| ->%Z.eqb_eq].
  - destruct n as [|n]; [lia|]. rewrite He. cbn [take app unquote] in *.
    assert (beq c x22 = false) as -> by (apply beq_false; intros ->; done).
    assert (beq c x5c = false) as -> by (apply beq_false; intros ->; done).
    rewrite !ltb_false by lia. rewrite Ht, He.
    change (drop (S n) (c :: take n s ++ t)) with (drop n (take n s ++ t)).
    rewrite drop_app_length' by (rewrite length_take; simpl in Hw; lia). done.
Qed.

(** Reading back a quoted string. *)
Lemma unquote_quote s fuel rest :
  ValidUtf8 s = true → (length (quote_go true 0 s) < fuel)%nat →
  unquote fuel (quote_go true 0 s ++ x22 :: rest) = Some (s, rest).
Proof.
  revert fuel. induction s as [[|c s] IH] using length_ind; intros [|f] Hv Hf; try (simpl in Hf; lia).
  { done. }
  destruct (ValidUtf8_step c s Hv) as [Hb Hv'].
  destruct (decide (byteZ c < 0x80)) as [Hc|Hc].
  - rewrite quote_go_cons, <- app_assoc, unquote_esc by done.
    rewrite DecodeRune_ascii in Hv' by done.
    rewrite quote_go_cons, length_app in Hf by done. pose proof (esc_ascii_length c).
    rewrite IH; [done|simpl; lia|done|lia].
  - destruct (DecodeRune (c :: s)) as [r n] eqn:Hd.
    pose proof (DecodeRune_width (c :: s) ltac:(done)) as Hw. rewrite Hd in Hw.
    rewrite (quote_go_high _ _ r n) in * by (done || lia).
    rewrite <- app_assoc, (unquote_high _ _ _ r n) by (done || lia).
    rewrite length_app in Hf.
    rewrite IH.
    + cbn. by rewrite take_drop.
    + rewrite length_drop. simpl in *. lia.
    + done.
    + revert Hf. case_match; [rewrite length_app|rewrite length_take]; simpl in *; lia.
Qed.

(** *** Numbers *)

(** What may follow a number. *)
Definition num_end (s : bytes) : bool :=
  match s with
  | [] => true
  | c :: _ => negb (is_digit c || existsb (beq c) [x2e; x65; x45])
  end.

Lemma digit_is_digit c : is_Some (digit c) → is_digit c = true.
Proof.
  unfold digit, is_digit. intros [d H]. case_match eqn:E; [|done]. bools.
  apply andb_true_iff. rewrite !Z.leb_le. lia.
Qed.

Lemma digits_is_digit acc s z : digits acc s = Some z → forallb is_digit s = true.
Proof.
  revert acc; induction s as [|c s IH]; intros acc; [done|]. cbn.
  destruct (digit c) eqn:E; [|done]. cbn. intros H.
  rewrite (digit_is_digit c) by eauto. eauto.
Qed.

Lemma Itoa_plain z c : 0 ≤ z → c ∈ Itoa z → is_digit c = true.
Proof.
  intros Hz Hc. pose proof (digits_is_digit 0 (Itoa z) z (digits_Itoa z Hz)) as Hd.
  rewrite forallb_forall in Hd. apply Hd. by apply list_elem_of_In.
Qed.

Lemma span_digits_app d rest :
  forallb is_digit d = true → num_end rest = true → span_digits (d ++ rest) = (d, rest).
Proof.
  intros Hd Hr. induction d as [|c d IH]; cbn [app span_digits forallb] in *.
  - destruct rest as [|c rest]; [done|]. cbn in *. by destruct (is_digit c).
  - apply andb_true_iff in Hd as [-> Hd]. by rewrite IH.
Qed.

Lemma udec_head fuel z c t :
  0 < z < 10 ^ Z.of_nat fuel → udec fuel z = c :: t → c ≠ x30.
Proof.
  revert z c t; induction fuel as [|f IH]; intros z c t Hz; [done|].
  rewrite Nat2Z.inj_succ, Z.pow_succ_r in Hz by lia. cbn [udec].
  destruct (z <? 10) eqn:E; bools.
  - intros [= <- _] H. apply (f_equal byteZ) in H. unfold dec_digit in H.
    rewrite byteZ_Zbyte, Z.mod_small in H by lia. change (byteZ x30) with 48 in H. lia.
  - destruct (udec f (z / 10)) as [|c' t'] eqn:Hu.
    + intros _ _. pose proof (udec_digits f (z / 10) 0) as Hd. rewrite Hu in Hd.
      cbn in Hd. specialize (Hd ltac:(Z.to_euclidean_division_equations; lia)).
      injection Hd as Hd. Z.to_euclidean_division_equations; lia.
    + intros [= <- _]. eapply IH; [|done]. Z.to_euclidean_division_equations; lia.
Qed.

Lemma frac_exp_end s : num_end s = true → frac_part s = Some ([], s) ∧ exp_part s = Some ([], s).
Proof.
  destruct s as [|c s]; [done|]. intros H. apply negb_true_iff, orb_false_iff in H as [_ H].
  cbn in H. rewrite !orb_false_iff in H. destruct H as (H1 & H2 & H3 & _).
  unfold frac_part, exp_part, expect. by rewrite H1, H2, H3.
Qed.

Lemma int_part_Itoa z rest :
  0 ≤ z → num_end rest = true → int_part (Itoa z ++ rest) = Some (Itoa z, rest).
Proof.
  intros Hz Hr. destruct (decide (z = 0)) as [->|Hnz]; [done|].
  destruct (Itoa_nonneg_shape z Hz) as (c & t & Hi & Hd). unfold int_part.
  assert (Hc : c ≠ x30).
  { unfold Itoa in Hi. rewrite (proj2 (Z.ltb_ge z 0)), Z.abs_eq in Hi by lia.
    eapply (udec_head _ z); [|exact Hi]. pose proof (udec_fuel z). lia. }
  rewrite span_digits_app; [|by eapply (digits_is_digit 0), digits_Itoa|done].
  rewrite Hi. cbn [app expect]. by apply beq_false in Hc as ->.
Qed.

Lemma number_Itoa z rest :
  num_end rest = true → number (Itoa z ++ rest) = Some (Itoa z, rest).
Proof.
  intros Hr. unfold number. destruct (frac_exp_end rest Hr) as [Hf He].
  destruct (decide (0 ≤ z)) as [Hp|Hp].
  - assert (sign_of (Itoa z ++ rest) [x2d] = ([], Itoa z ++ rest)) as ->.
    { destruct (Itoa_nonneg_shape z Hp) as (c & t & -> & Hd%digit_is_digit).
      cbn. assert (beq c x2d = false) as ->; [|done].
      apply beq_false. intros ->. done. }
    rewrite int_part_Itoa by done. cbn. rewrite Hf. cbn. rewrite He. cbn. by rewrite app_nil_r.
  - assert (Hi : Itoa z = x2d :: Itoa (- z)).
    { unfold Itoa. rewrite Z.abs_opp, (proj2 (Z.ltb_lt z 0)), (proj2 (Z.ltb_ge (- z) 0)) by lia.
      done. }
    rewrite Hi. change (sign_of _ _) with ([x2d], Itoa (- z) ++ rest).
    cbn [fst snd]. rewrite int_part_Itoa by (done || lia).
    cbn. rewrite Hf. cbn. rewrite He. cbn. by rewrite app_nil_r.
Qed.

(** *** Documents *)

(** A document [print] writes and [parse] reads back: strings are valid UTF-8,
    numbers are integers, and containers nest at most [d] deep. *)
Fixpoint json_ok (d : nat) (j : json) {struct d} : Prop :=
  match j with
  | JNull | JBool _ => True
  | JNum lit => ∃ z, lit = Itoa z
  | JStr s => ValidUtf8 s = true
  | JArr l => match d with O => False | S d => Forall (json_ok d) l end
  | JObj l => match d with
              | O => False
              | S d => Forall (λ kv, ValidUtf8 (fst kv) = true ∧ json_ok d (snd kv)) l
              end
  end.

(** What may follow a value: nothing that continues a number. *)
Definition sep_ok (s : bytes) : Prop := num_end s = true.

Lemma skip_ws_cons c s : is_ws c = false → skip_ws (c :: s) = c :: s.
Proof. cbn. by intros ->. Qed.

Lemma unquote_string s rest :
  ValidUtf8 s = true →
  unquote (S (length (quote_go true 0 s ++ x22 :: rest))) (quote_go true 0 s ++ x22 :: rest)
  = Some (s, rest).
Proof. intros H. apply unquote_quote; [done|]. rewrite length_app. simpl. lia. Qed.

Lemma value_string f depth s rest :
  ValidUtf8 s = true → value (S f) depth (quote s ++ rest) = Some (JStr s, rest).
Proof.
  intros H. unfold quote. cbn [value]. rewrite <- app_comm_cons, skip_ws_cons by done.
  rewrite beq_refl. rewrite <- app_assoc. cbn [app]. by rewrite unquote_string.
Qed.

Lemma value_number f depth z rest :
  sep_ok rest → value (S f) depth (Itoa z ++ rest) = Some (JNum (Itoa z), rest).
Proof.
  intros Hr. pose proof (number_Itoa z rest Hr) as Hn. cbn [value].
  assert (∃ c t, Itoa z = c :: t ∧ (c = x2d ∨ is_digit c = true)) as (c & t & Hi & Hc).
  { destruct (decide (0 ≤ z)) as [Hp|Hp].
    - destruct (Itoa_nonneg_shape z Hp) as (c & t & -> & Hd%digit_is_digit). eauto 6.
    - unfold Itoa. rewrite (proj2 (Z.ltb_lt z 0)) by lia. cbn [app]. eauto 6. }
  rewrite Hi in *. cbn [app] in *.
  destruct Hc as [->|Hc].
  - by rewrite skip_ws_cons, Hn by done.
  - destruct c; vm_compute in Hc; try done; by rewrite skip_ws_cons, Hn by done.
Qed.

Lemma print_head d j :
  json_ok d j → ∃ c t, print j = c :: t ∧ is_ws c = false ∧ c ≠ x5d.
Proof.
  destruct j as [|[]|lit|s|l|l]; intros Hj; try (eexists _, _; done).
  replace (print (JNum lit)) with lit by done.
  assert (∃ z, lit = Itoa z) as [z ->] by (by destruct d).
  destruct (decide (0 ≤ z)) as [Hp|Hp].
  - destruct (Itoa_nonneg_shape z Hp) as (c & t & -> & Hd%digit_is_digit).
    exists c, t. by destruct c; vm_compute in Hd.
  - unfold Itoa. rewrite (proj2 (Z.ltb_lt z 0)) by lia. by eexists _, _.
Qed.

Lemma Join_cons x l sep :
  Join (x :: l) sep = x ++ match l with [] => [] | _ => sep ++ Join l sep end.
Proof. destruct l; cbn [Join]; by rewrite ?app_nil_r. Qed.

Lemma expect_ne c b s : b ≠ c → expect c (b :: s) = None.
Proof. intros H. cbn. by apply beq_false in H as ->. Qed.

Lemma expect_eq c s : expect c (c :: s) = Some s.
Proof. cbn. by rewrite beq_refl. Qed.

(** The statement of the round trip at nesting [d], given to the container lemmas. *)
Definition reads_back (d : nat) : Prop :=
  ∀ j, json_ok d j → ∀ f depth rest,
    depth + Z.of_nat d ≤ maxNestingDepth → (2 * length (print j) < f)%nat → sep_ok rest →
    value f depth (print j ++ rest) = Some (j, rest).

Lemma elements_print d l x f depth rest :
  reads_back d → Forall (json_ok d) (x :: l) → depth + Z.of_nat d ≤ maxNestingDepth →
  (2 * length (Join (map print (x :: l)) ",") + 2 ≤ f)%nat →
  elements f depth (Join (map print (x :: l)) "," ++ x5d :: rest) = Some (x :: l, rest).
Proof.
  intros Hd. revert x f; induction l as [|y l IH]; intros x f [Hx Hl]%Forall_cons Hdep Hf;
    (destruct f as [|f]; [lia|]); cbn [map] in *; rewrite Join_cons in *;
    rewrite length_app in Hf; rewrite <- app_assoc; cbn [elements].
  - rewrite Hd by (done || lia). cbn [mbind option_bind app].
    rewrite skip_ws_cons, expect_ne, expect_eq by done. done.
  - cbn [app length] in Hf. change (length (str ",")) with 1%nat in Hf.
    rewrite <- app_assoc. rewrite Hd by (done || lia). cbn [mbind option_bind].
    change (str "," ++ ?s) with (x2c :: s).
    rewrite skip_ws_cons, expect_eq by done.
    rewrite length_app in Hf. change (length (str ",")) with 1%nat in Hf.
    rewrite IH; [done|done|done|]. cbn [map]. lia.
Qed.

Lemma members_print d l x f depth rest :
  reads_back d →
  Forall (λ kv, ValidUtf8 (fst kv) = true ∧ json_ok d (snd kv)) (x :: l) →
  depth + Z.of_nat d ≤ maxNestingDepth →
  let m := map (λ kv, quote (fst kv) ++ x3a :: print (snd kv)) (x :: l) in
  (2 * length (Join m ",") + 2 ≤ f)%nat →
  members f depth (Join m "," ++ x7d :: rest) = Some (x :: l, rest).
Proof.
  intros Hd Hl Hdep. cbv zeta. revert x f Hl.
  induction l as [|y l IH]; intros [k v] f [[Hk Hv] Hl]%Forall_cons Hf; cbn [fst snd] in *;
    (destruct f as [|f]; [lia|]); cbn [map fst snd] in *; rewrite Join_cons in *;
    rewrite !length_app in Hf; cbn [length] in Hf; cbn [members].
  - rewrite app_nil_r. unfold quote.
    rewrite <- !app_assoc, <- app_comm_cons, skip_ws_cons, expect_eq by done.
    cbn [mbind option_bind app]. rewrite <- app_assoc. cbn [app].
    rewrite unquote_string by done. cbn [mbind option_bind].
    rewrite skip_ws_cons, expect_eq by done. cbn [mbind option_bind].
    rewrite Hd by (done || lia). cbn [mbind option_bind].
    rewrite skip_ws_cons, expect_ne, expect_eq by done. done.
  - unfold quote at 1.
    rewrite <- !app_assoc, <- app_comm_cons, skip_ws_cons, expect_eq by done.
    cbn [mbind option_bind app]. rewrite <- !app_assoc. cbn [app].
    rewrite unquote_string by done. cbn [mbind option_bind].
    rewrite skip_ws_cons, expect_eq by done. cbn [mbind option_bind].
    change (str "," ++ ?s) with (x2c :: s).
    rewrite Hd by (done || lia). cbn [mbind option_bind].
    rewrite skip_ws_cons, expect_eq by done.
    change (length (str ",")) with 1%nat in Hf.
    rewrite IH; [done|done|]. cbn [map]. lia.
Qed.

Lemma value_print d : reads_back d.
Proof.
  induction d as [d IH] using lt_wf_ind. intros j Hj [|f] depth rest Hdep Hf Hr; [lia|].
  destruct j as [|[]|lit|s|l|l].
  - done.
  - done.
  - done.
  - assert (∃ z, lit = Itoa z) as [z ->] by (by destruct d). by apply value_number.
  - apply value_string. by destruct d.
  - destruct d as [|d]; [done|]. cbn [json_ok] in Hj.
    change (print (JArr l)) with (x5b :: Join (map print l) "," ++ [x5d]) in *.
    cbn [length] in Hf. rewrite length_app in Hf. cbn [length] in Hf.
    rewrite <- app_comm_cons, <- app_assoc. cbn [app value].
    rewrite skip_ws_cons by done. change (beq x5b x22) with false. change (beq x5b x5b) with true. cbv match.
    rewrite (proj2 (Z.leb_gt _ _)) by lia.
    destruct l as [|x l]; [done|].
    assert (expect x5d (skip_ws (Join (map print (x :: l)) "," ++ x5d :: rest)) = None) as ->.
    { apply Forall_cons in Hj as [Hx _]. destruct (print_head _ _ Hx) as (c & t & Hc & Hw & Hne).
      cbn [map]. rewrite Join_cons, Hc. cbn [app]. by rewrite skip_ws_cons, expect_ne. }
    rewrite (elements_print d); [done|apply IH; lia|done|lia|lia].
  - destruct d as [|d]; [done|]. cbn [json_ok] in Hj.
    set (m := map (λ kv, quote (fst kv) ++ x3a :: print (snd kv)) l).
    change (print (JObj l)) with (x7b :: Join m "," ++ [x7d]) in *.
    cbn [length] in Hf. rewrite length_app in Hf. cbn [length] in Hf.
    rewrite <- app_comm_cons, <- app_assoc. cbn [app value].
    rewrite skip_ws_cons by done. 
    change (beq x7b x22) with false. change (beq x7b x5b) with false.
    change (beq x7b x7b) with true. cbv match.
    rewrite (proj2 (Z.leb_gt _ _)) by lia.
    destruct l as [|x l]; [done|].
    assert (expect x7d (skip_ws (Join m "," ++ x7d :: rest)) = None) as ->.
    { unfold m. cbn [map]. rewrite Join_cons. unfold quote.
      cbn [app]. by rewrite skip_ws_cons, expect_ne. }
    unfold m in *. rewrite (members_print d); [done|apply IH; lia|done|lia|lia].
Qed.

(** Whatever [print] writes, [parse] and [parse_first] read back. *)
Lemma parse_print d j :
  json_ok d j → Z.of_nat d ≤ maxNestingDepth → parse (print j) = Some j.
Proof.
  intros Hj Hd. unfold parse.
  pose proof (value_print d j Hj (doc_fuel (print j)) 0 []) as H.
  rewrite app_nil_r in H. rewrite H; [done|lia|unfold doc_fuel; lia|done].
Qed.
