(* ===== verification/Effects.v ===== *)
(** * Programs with effects

    The handlers of the program talk to the world: connections, subprocesses,
    files, clocks.  A handler is a [prog E R], a tree of the requests it makes
    ([E X] is a request answered with an [X]) ending in a result.  Two readings
    are used:

    - [run]: execution against a handler that answers requests from a state,
      for functional theorems and witnesses;
    - [exec]: every execution against an arbitrary environment, as the list of
      what was asked and answered, for safety theorems.  An environment only has
      to respect [resp_ok], the documented contract of each request. *)

From Stdlib Require Import FunctionalExtensionality.
From S2P Require Import Prelude.


Inductive prog (E : Type → Type) (R : Type) : Type :=
| Ret (r : R)
| Vis {X : Type} (e : E X) (k : X → prog E R).
Arguments Ret {E R} r.
Arguments Vis {E R X} e k.

Fixpoint pbind {E R S} (p : prog E R) (f : R → prog E S) : prog E S :=
  match p with
  | Ret r => f r
  | Vis e k => Vis e (λ x, pbind (k x) f)
  end.

Definition trigger {E X} (e : E X) : prog E X := Vis e Ret.

Declare Scope prog_scope.
Delimit Scope prog_scope with prog.
Bind Scope prog_scope with prog.

Notation "x <- p ;; q" := (pbind p (λ x, q))
  (at level 100, p at next level, right associativity) : prog_scope.
Notation "p ;;; q" := (pbind p (λ _, q))
  (at level 100, right associativity) : prog_scope.
Open Scope prog_scope.

(** Requests of [E] seen as requests of a larger signature. *)
Fixpoint translate {E F R} (i : ∀ X, E X → F X) (p : prog E R) : prog F R :=
  match p with
  | Ret r => Ret r
  | Vis e k => Vis (i _ e) (λ x, translate i (k x))
  end.

(** ** Execution against a stateful handler *)

Definition handler (E : Type → Type) (S : Type) := ∀ X, E X → S → X * S.

Fixpoint run {E S R} (h : handler E S) (p : prog E R) (s : S) : R * S :=
  match p with
  | Ret r => (r, s)
  | Vis e k => let '(x, s') := h _ e s in run h (k x) s'
  end.

Lemma run_bind {E S R Q} (h : handler E S) (p : prog E R) (f : R → prog E Q) s :
  run h (pbind p f) s = let '(r, s') := run h p s in run h (f r) s'.
Proof.
  revert s; induction p as [r|X e k IH]; intros s; [done|]. cbn.
  destruct (h X e s) as [x s']. apply IH.
Qed.

(** ** Execution against any environment *)

Class Effect (E : Type → Type) := {
  entry : Type;
  log : ∀ X, E X → X → entry;
  resp_ok : ∀ X, E X → X → Prop;
}.
Arguments log {E _ X} e x.
Arguments resp_ok {E _ X} e x.

(** Entries that just record the request and its answer, for a signature of requests
    that needs no other view of them. *)
Inductive event (E : Type → Type) : Type :=
| Did {X : Type} (e : E X) (x : X).
Arguments Did {E X} e x.

Definition recording (E : Type → Type) (ok : ∀ X, E X → X → Prop) : Effect E :=
  {| entry := event E; log X e x := Did e x; resp_ok := ok |}.

Section Exec.
Context {E : Type → Type} `{Effect E}.

(** [exec p t r]: against some environment, [p] does [t] and returns [r]. *)
Fixpoint exec {R} (p : prog E R) (t : list entry) (r : R) : Prop :=
  match p with
  | Ret r' => t = [] ∧ r = r'
  | Vis e k => ∃ x t', resp_ok e x ∧ t = log e x :: t' ∧ exec (k x) t' r
  end.

(** [prefix_exec p t]: [p] has done [t] and may still be running. *)
Fixpoint prefix_exec {R} (p : prog E R) (t : list entry) : Prop :=
  t = [] ∨
  match p with
  | Ret _ => False
  | Vis e k => ∃ x t', resp_ok e x ∧ t = log e x :: t' ∧ prefix_exec (k x) t'
  end.

Lemma exec_bind {R S} (p : prog E R) (f : R → prog E S) t s :
  exec (pbind p f) t s ↔
  ∃ t1 t2 r, t = t1 ++ t2 ∧ exec p t1 r ∧ exec (f r) t2 s.
Proof.
  revert t; induction p as [r|X e k IH]; intros t; cbn.
  - split; [by intros; exists [], t, r|]. by intros (? & ? & ? & -> & [-> ->] & ?).
  - split.
    + intros (x & t' & Hok & -> & (t1 & t2 & r & -> & H1 & H2)%IH).
      exists (log e x :: t1), t2, r. eauto 10.
    + intros (? & t2 & r & -> & (x & t1 & Hok & -> & H1) & H2).
      exists x, (t1 ++ t2). split_and!; [done..|]. apply IH. eauto 10.
Qed.

Lemma exec_ask {X R} (e : E X) (k : X → prog E R) t r :
  exec (pbind (trigger e) k) t r →
  ∃ x t', resp_ok e x ∧ t = log e x :: t' ∧ exec (k x) t' r.
Proof. done. Qed.

Lemma exec_prefix {R} (p : prog E R) t r : exec p t r → prefix_exec p t.
Proof.
  revert t; induction p as [r'|X e k IH]; intros t; cbn; [naive_solver|].
  intros (x & t' & ? & -> & ?). right. eauto 10.
Qed.

Lemma prefix_exec_bind {R S} (p : prog E R) (f : R → prog E S) t :
  prefix_exec (pbind p f) t →
  prefix_exec p t ∨ ∃ t1 t2 r, t = t1 ++ t2 ∧ exec p t1 r ∧ prefix_exec (f r) t2.
Proof.
  revert t; induction p as [r|X e k IH]; intros t; cbn.
  - intros H1. right. by exists [], t, r.
  - intros [->|(x & t' & Hok & -> & H')]; [auto|].
    destruct (IH _ _ H') as [?|(t1 & t2 & r & -> & H1 & H2)]; [left; eauto 10|].
    right. exists (log e x :: t1), t2, r. eauto 10.
Qed.

(** A property of traces that every execution has, finished or not. *)
Definition always {R} (P : list entry → Prop) (p : prog E R) : Prop :=
  ∀ t, prefix_exec p t → P t.

(** A handler whose answers meet the contract yields an execution. *)
Fixpoint trace_of {R S} (h : handler E S) (p : prog E R) (s : S) : list entry :=
  match p with
  | Ret _ => []
  | Vis e k => let '(x, s') := h _ e s in log e x :: trace_of h (k x) s'
  end.

Lemma run_exec {R S} (h : handler E S) (p : prog E R) s :
  (∀ X (e : E X) s, resp_ok e (fst (h X e s))) →
  exec p (trace_of h p s) (fst (run h p s)).
Proof.
  intros Hok. revert s; induction p as [r|X e k IH]; intros s; [done|]. cbn.
  specialize (Hok X e s). destruct (h X e s) as [x s'].
  exists x, (trace_of h (k x) s'). eauto.
Qed.
End Exec.

#[global] Arguments exec : simpl never.
#[global] Arguments prefix_exec : simpl never.

(** Opens an [exec] hypothesis one request at a time. *)
Ltac exec_step :=
  match goal with
  | H : exec (pbind _ _) _ _ |- _ =>
      apply exec_bind in H; destruct H as (? & ? & ? & -> & ? & ?)
  | H : exec (Ret _) _ _ |- _ => destruct H as [-> ->] || destruct H as [? ?]; subst
  | H : exec (Vis _ _) _ _ |- _ => destruct H as (? & ? & ? & -> & H)
  | H : exec (trigger _) _ _ |- _ => unfold trigger in H
  | H : exec (match ?x with _ => _ end) _ _ |- _ => destruct x eqn:?
  | H : prefix_exec (pbind _ _) _ |- _ =>
      apply prefix_exec_bind in H; destruct H as [H|(? & ? & ? & -> & ? & H)]
  | H : prefix_exec (Ret _) _ |- _ => destruct H as [->|[]]
  | H : prefix_exec (Vis _ _) _ |- _ => destruct H as [->|(? & ? & ? & -> & H)]
  | H : prefix_exec (trigger _) _ |- _ => unfold trigger in H
  | H : prefix_exec (match ?x with _ => _ end) _ |- _ => destruct x eqn:?
  end.

(** ** Guarantees

    [safe G h p Q]: run after the history [h], the program [p] makes only requests
    allowed by [G], which sees the history and the request with its answer, and
    ends in a history and a result satisfying [Q].  It is established rule by rule
    along the program text and read off for every execution by [safe_always] and
    [safe_exec]. *)

Section Guarantee.
Context {E : Type → Type} `{Effect E}.
Context (G : list entry → entry → Prop).

Fixpoint safe {R} (h : list entry) (p : prog E R) (Q : list entry → R → Prop) : Prop :=
  match p with
  | Ret r => Q h r
  | Vis e k => ∀ x, resp_ok e x → G h (log e x) ∧ safe (h ++ [log e x]) (k x) Q
  end.

Lemma safe_mono {R} (p : prog E R) h (Q Q' : list entry → R → Prop) :
  safe h p Q → (∀ h' r, h `prefix_of` h' → Q h' r → Q' h' r) → safe h p Q'.
Proof.
  revert h; induction p as [r|X e k IH]; intros h; cbn; [intros HQ HQQ; by apply HQQ|].
  intros Hp HQ x Hx. destruct (Hp x Hx) as [HG Hk]. split; [done|].
  eapply IH; [done|]. intros h' r Hh'. apply HQ.
  etrans; [|exact Hh']. by apply prefix_app_r.
Qed.

Lemma safe_bind {R S} (p : prog E R) (f : R → prog E S) h Q :
  safe h p (λ h' r, safe h' (f r) Q) → safe h (pbind p f) Q.
Proof.
  revert h; induction p as [r|X e k IH]; intros h; cbn; [done|].
  intros Hp x Hx. destruct (Hp x Hx). eauto.
Qed.

(** The postcondition also gets that the history grew. *)
Lemma safe_grows {R} (p : prog E R) h Q :
  safe h p Q → safe h p (λ h' r, h `prefix_of` h' ∧ Q h' r).
Proof. intros Hp. eapply safe_mono; [exact Hp|]. done. Qed.

Lemma safe_always_from {R} (p : prog E R) h Q t pre e post :
  safe h p Q → prefix_exec p t → t = pre ++ e :: post → G (h ++ pre) e.
Proof.
  revert h t pre; induction p as [r|X e' k IH]; intros h t pre Hs Ht ->.
  - destruct Ht as [Ht|[]]. by destruct pre.
  - destruct Ht as [Ht|(x & t' & Hok & Ht & Hk)]; [by destruct pre|].
    destruct (Hs x Hok) as [HG Hs']. destruct pre as [|e0 pre]; simplify_eq/=.
    + by rewrite app_nil_r.
    + change (h ++ log e' x :: pre) with (h ++ [log e' x] ++ pre). rewrite app_assoc. by eapply IH.
Qed.

(** In every execution, each request was allowed when it was made. *)
Lemma safe_always {R} (p : prog E R) Q pre e post :
  safe [] p Q → prefix_exec p (pre ++ e :: post) → G pre e.
Proof. intros Hs Ht. by apply (safe_always_from p [] Q _ pre e post Hs Ht). Qed.

Lemma safe_exec {R} (p : prog E R) h Q t r : safe h p Q → exec p t r → Q (h ++ t) r.
Proof.
  revert h t; induction p as [r'|X e k IH]; intros h t Hs Ht.
  - destruct Ht as [-> ->]. by rewrite app_nil_r.
  - destruct Ht as (x & t' & Hok & -> & Ht). destruct (Hs x Hok) as [_ Hs'].
    change (h ++ log e x :: t') with (h ++ [log e x] ++ t'). rewrite app_assoc. by eapply IH.
Qed.
End Guarantee.

#[global] Arguments safe : simpl never.

(** ** Equivalence of programs

    Two programs are equivalent when they make the same requests and, on the same
    answers, go on equivalently; [pbind] respects it and satisfies the monad laws. *)

Fixpoint peq {E R} (p q : prog E R) : Prop :=
  match p, q with
  | Ret r, Ret r' => r = r'
  | Vis e k, q => ∃ k', q = Vis e k' ∧ ∀ x, peq (k x) (k' x)
  | _, _ => False
  end.

Infix "≋" := peq (at level 70, no associativity) : prog_scope.

Section Laws.
Context {E : Type → Type}.

Lemma peq_refl {R} (p : prog E R) : p ≋ p.
Proof. induction p; cbn; eauto. Qed.

Lemma pbind_Ret_r {R} (p : prog E R) : pbind p Ret ≋ p.
Proof. induction p; cbn; eauto. Qed.

Lemma pbind_assoc {R S T} (p : prog E R) (f : R → prog E S) (g : S → prog E T) :
  pbind (pbind p f) g ≋ pbind p (λ x, pbind (f x) g).
Proof. induction p as [r|X e k IH]; cbn; [apply peq_refl|eauto]. Qed.

(** Equivalent programs run alike and have the same executions. *)
Lemma peq_run {R S} (h : handler E S) (p q : prog E R) s :
  p ≋ q → run h p s = run h q s.
Proof.
  revert q s; induction p as [r|X e k IH]; intros q s.
  - destruct q; cbn; [by intros ->|done].
  - intros (k' & -> & Hk). cbn. destruct (h X e s) as [x s']. by apply IH.
Qed.

Lemma peq_exec `{Effect E} {R} (p q : prog E R) t r : p ≋ q → exec p t r ↔ exec q t r.
Proof.
  revert q t; induction p as [r'|X e k IH]; intros q t.
  - destruct q; cbn; [by intros ->|done].
  - intros (k' & -> & Hk). cbn.
    split; intros (x & t' & ? & -> & ?); exists x, t'; (split_and!; [done..|]);
      by apply (IH x _ _ (Hk x)).
Qed.
End Laws.

(** With extensionality, equivalent programs are equal. *)
Lemma peq_eq {E R} (p q : prog E R) : p ≋ q → p = q.
Proof.
  revert q; induction p as [r|X e k IH]; intros q; [destruct q; cbn; [by intros ->|done]|].
  intros (k' & -> & Hk). f_equal. apply functional_extensionality. intros x. by apply IH.
Qed.

Lemma pbind_assoc_eq {E R S T} (p : prog E R) (f : R → prog E S) (g : S → prog E T) :
  pbind (pbind p f) g = pbind p (λ x, pbind (f x) g).
Proof. apply peq_eq, pbind_assoc. Qed.

Lemma pbind_ext {E R S} (p : prog E R) (f g : R → prog E S) : (∀ r, f r = g r) → pbind p f = pbind p g.
Proof.
  intros Hfg. apply peq_eq. induction p as [r|X e k IH]; cbn; [rewrite Hfg; apply peq_refl|eauto].
Qed.

#[global] Instance exec_proper `{Effect E} {R} :
  Proper (peq ==> (=) ==> (=) ==> iff) (exec (E := E) (R := R)).
Proof. intros p q Hpq t _ <- r _ <-. by apply peq_exec. Qed.

(** ** Rules of the guarantee logic *)

Section SafeRules.
Context {E : Type → Type} `{Effect E}.
Context (G : list entry → entry → Prop).

Lemma safe_Ret {R} h (r : R) (Q : list entry → R → Prop) : Q h r → safe G h (Ret r) Q.
Proof. done. Qed.

Lemma safe_trigger {X} h (e : E X) (Q : list entry → X → Prop) :
  (∀ x, resp_ok e x → G h (log e x) ∧ Q (h ++ [log e x]) x) → safe G h (trigger e) Q.
Proof. done. Qed.

(** A call: its own guarantee, then the rest from any history it may leave. *)
Lemma safe_call {R S} (p : prog E R) (f : R → prog E S) h (P : list entry → R → Prop) Q :
  safe G h p P →
  (∀ h' r, h `prefix_of` h' → P h' r → safe G h' (f r) Q) →
  safe G h (pbind p f) Q.
Proof. intros Hp Hf. apply safe_bind. eapply safe_mono; [exact Hp|eauto]. Qed.

Lemma safe_ask {X S} h (e : E X) (f : X → prog E S) (Q : list entry → S → Prop) :
  (∀ x, resp_ok e x → G h (log e x) ∧ safe G (h ++ [log e x]) (f x) Q) →
  safe G h (pbind (trigger e) f) Q.
Proof. intros Hf. apply safe_bind, safe_trigger. done. Qed.
End SafeRules.

(** ** The requests a program can make at all *)

Fixpoint asks {E R} (P : ∀ X, E X → Prop) (p : prog E R) : Prop :=
  match p with
  | Ret _ => True
  | Vis e k => P _ e ∧ ∀ x, asks P (k x)
  end.

Lemma asks_bind {E R S} (P : ∀ X, E X → Prop) (p : prog E R) (f : R → prog E S) :
  asks P p → (∀ r, asks P (f r)) → asks P (pbind p f).
Proof. induction p as [r|X e k IH]; cbn; [auto|]. intros [He Hk] Hf. auto. Qed.

Lemma asks_exec {E R} (ok : ∀ X, E X → X → Prop) (P : ∀ X, E X → Prop) (p : prog E R) t r :
  asks P p → exec (H := recording E ok) p t r → Forall (λ ev, match ev with Did e _ => P _ e end) t.
Proof.
  revert t; induction p as [r'|X e k IH]; intros t.
  - by intros _ [-> _].
  - intros [He Hk] (x & t' & _ & -> & H). constructor; [done|]. by apply (IH x).
Qed.

(** A view of the history that a program's requests do not show in. *)
Lemma asks_omap {E R A} (ok : ∀ X, E X → X → Prop) (g : event E → option A) (p : prog E R) t r :
  exec (H := recording E ok) p t r → asks (λ X e, ∀ x, g (Did e x) = None) p → omap g t = [].
Proof.
  intros Hx Ha. pose proof (asks_exec ok _ p t r Ha Hx) as H. clear Hx.
  induction H as [|ev t He _ IH]; [done|]. destruct ev as [X e x]. cbn. by rewrite He.
Qed.

(** Walks through a program, request by request and branch by branch. *)
Ltac walk :=
  repeat first
    [ done
    | match goal with
      | |- asks _ (pbind _ _) => apply asks_bind
      | |- asks _ (trigger _) => split; [done|by intros]
      | |- asks _ (match ?x with _ => _ end) => destruct x
      end
    | progress intros ].

(** ** Executions of a translated program *)

Section Translate.
Context {E F : Type → Type} `{Effect E} `{Effect F}.
Context (i : ∀ X, E X → F X) (j : @entry E _ → @entry F _).
Hypothesis log_i : ∀ X (e : E X) x, log (i X e) x = j (log e x).
Hypothesis ok_i : ∀ X (e : E X) x, resp_ok (i X e) x ↔ resp_ok e x.

Lemma exec_translate {R} (p : prog E R) t r :
  exec (translate i p) t r ↔ ∃ t0, t = map j t0 ∧ exec p t0 r.
Proof.
  revert t; induction p as [r'|X e k IH]; intros t; cbn [translate].
  - split; [intros [-> ->]; by exists []|]. by intros (t0 & -> & [-> ->]).
  - split.
    + intros (x & t' & Hok & -> & (t0 & -> & Ht)%IH). exists (log e x :: t0).
      split; [cbn; by rewrite log_i|]. exists x, t0. by rewrite <- ok_i.
    + intros (t0 & -> & (x & t' & Hok & -> & Ht)). exists x, (map j t').
      split_and!; [by apply ok_i|cbn; by rewrite log_i|]. apply IH. eauto.
Qed.

Lemma prefix_exec_translate {R} (p : prog E R) t :
  prefix_exec (translate i p) t ↔ ∃ t0, t = map j t0 ∧ prefix_exec p t0.
Proof.
  revert t; induction p as [r'|X e k IH]; intros t; cbn [translate].
  - split; [intros [->|[]]; exists []; split; [done|by left]|]. by intros (t0 & -> & [->|[]]); left.
  - split.
    + intros [->|(x & t' & Hok & -> & (t0 & -> & Ht)%IH)]; [exists []; split; [done|by left]|].
      exists (log e x :: t0). split; [cbn; by rewrite log_i|]. right. exists x, t0.
      by rewrite <- ok_i.
    + intros (t0 & -> & [->|(x & t' & Hok & -> & Ht)]); [by left|]. right. exists x, (map j t').
      split_and!; [by apply ok_i|cbn; by rewrite log_i|]. apply IH. eauto.
Qed.

Lemma safe_translate {R} G h (p : prog E R) (Q : list (@entry F _) → R → Prop) :
  (∀ t0 r, exec p t0 r → Q (h ++ map j t0) r) →
  (∀ t0 e, prefix_exec p (t0 ++ [e]) → G (h ++ map j t0) (j e)) →
  safe G h (translate i p) Q.
Proof.
  revert h; induction p as [r'|X e k IH]; intros h HQ HG; cbn [translate].
  - specialize (HQ [] r'). cbn in HQ. rewrite app_nil_r in HQ. by apply safe_Ret, HQ.
  - intros x Hx. rewrite log_i. apply ok_i in Hx. split.
    + specialize (HG [] (log e x)). cbn in HG. rewrite app_nil_r in HG. apply HG.
      right. exists x, []. split_and!; [done|done|]. destruct (k x); by left.
    + apply IH.
      * intros t0 r Ht. specialize (HQ (log e x :: t0) r). cbn [map] in HQ.
        rewrite <- app_assoc. apply HQ. exists x, t0. done.
      * intros t0 e0 Ht. specialize (HG (log e x :: t0) e0). cbn [map] in HG.
        rewrite <- app_assoc. apply HG. right. exists x, (t0 ++ [e0]). done.
Qed.
End Translate.

(** ** One request at a time

    [reaches p h q]: [p] has done [h] and what is left of it is [q].  This is the reading
    for programs that run beside others, where the steps of the others come in between. *)

Section Reaches.
Context {E : Type → Type} `{Effect E} {R : Type}.

Inductive reaches (p : prog E R) : list entry → prog E R → Prop :=
| reaches_start : reaches p [] p
| reaches_next {X} h (e : E X) k x :
    reaches p h (Vis e k) → resp_ok e x → reaches p (h ++ [log e x]) (k x).

(** What the rest goes on to do, the program has done after [h]. *)
Lemma reaches_prefix_more p h q t : reaches p h q → prefix_exec q t → prefix_exec p (h ++ t).
Proof.
  intros Hr. revert t; induction Hr as [|X h e k x _ IH Hx]; intros t Ht; [done|].
  rewrite <- app_assoc. apply IH. right. exists x, t. done.
Qed.

Lemma prefix_exec_nil (p : prog E R) : prefix_exec p [].
Proof. by destruct p; left. Qed.

Lemma reaches_prefix p h q : reaches p h q → prefix_exec p h.
Proof.
  intros Hr. rewrite <- (app_nil_r h). eapply reaches_prefix_more; [exact Hr|]. apply prefix_exec_nil.
Qed.

Lemma reaches_exec_more p h q t r : reaches p h q → exec q t r → exec p (h ++ t) r.
Proof.
  intros Hr. revert t; induction Hr as [|X h e k x _ IH Hx]; intros t Ht; [done|].
  rewrite <- app_assoc. apply IH. exists x, t. done.
Qed.

(** A program that has come to its end has an execution. *)
Lemma reaches_exec p h r : reaches p h (Ret r) → exec p h r.
Proof. intros Hr. rewrite <- (app_nil_r h). by eapply reaches_exec_more. Qed.

(** About to make a request, with any answer that is allowed. *)
Lemma reaches_ask {X} p h (e : E X) k x :
  reaches p h (Vis e k) → resp_ok e x → prefix_exec p (h ++ log e x :: []).
Proof. intros Hr Hx. by eapply reaches_prefix, reaches_next. Qed.

(** When every request has an answer, whatever was begun can be brought to an end. *)
Lemma prefix_extends {S} (h : handler E S) (s : S) (p : prog E R) t :
  (∀ X (e : E X) s, resp_ok e (fst (h X e s))) → prefix_exec p t → ∃ t' r, exec p (t ++ t') r.
Proof.
  intros Hok. revert t; induction p as [r|X e k IH]; intros t.
  - intros [->|[]]. by exists [], r.
  - intros [->|(x & t1 & Hx & -> & Ht)].
    + eexists _, _. exact (run_exec h (Vis e k) s Hok).
    + destruct (IH x t1 Ht) as (t' & r & Ht'). exists t', r. exists x, (t1 ++ t'). done.
Qed.
End Reaches.

(** Facts about a history that later histories keep. *)
Lemma elem_of_later {A} (x : A) h h' : h `prefix_of` h' → x ∈ h → x ∈ h'.
Proof. intros [k ->] Hx. apply elem_of_app. by left. Qed.

Lemma elem_of_last {A} (x : A) h : x ∈ h ++ [x].
Proof. apply elem_of_app. right. by left. Qed.

#[export] Hint Resolve elem_of_later elem_of_last prefix_app_r : go.
