(* ===== verification/Conn.v ===== *)
(** * Connections, and two parties talking over one

    [connE] is what the protocols do with a [net.Conn]: write a buffer, read
    exactly [n] bytes with [io.ReadFull].  [Message] is the interface between
    the framing code and the structs it carries, the [interface{}] argument of
    [sendAuthMessage] and [readAuthMessage].

    [Duplex] runs two programs against each other over a pair of byte queues.
    Its main result is that the schedule does not matter: reads block and queues
    are FIFO, so once one schedule runs to completion every schedule does, in the
    same number of steps and with the same results. *)

From S2P Require Import Prelude Effects.

Inductive connE : Type → Type :=
| Write (bs : bytes) : connE (option error)
| ReadFull (n : Z) : connE (result bytes).

Inductive conn_entry : Type :=
| Wrote (bs : bytes) (err : option error)
| ReadN (n : Z) (got : result bytes).

Definition conn_log {X} (e : connE X) : X → conn_entry :=
  match e with
  | Write bs => λ err, Wrote bs err
  | ReadFull n => λ got, ReadN n got
  end.

(** [io.ReadFull] fills the buffer or fails, and a read of nothing does not fail. *)
Definition conn_ok {X} (e : connE X) : X → Prop :=
  match e with
  | Write _ => λ _, True
  | ReadFull n => λ got,
      match got with Ok bs => Z.of_nat (length bs) = n | Err _ => n ≠ 0 end
  end.

#[global] Instance conn_effect : Effect connE :=
  {| entry := conn_entry; log := @conn_log; resp_ok := @conn_ok |}.

(** A peer that has sent [inp], reads everything and then closes: the state is what
    is left to read, and what has been written to it. *)
Definition wire (X : Type) (e : connE X) : bytes * bytes → X * (bytes * bytes) :=
  match e with
  | Write bs => λ '(inp, out), (None, (inp, out ++ bs))
  | ReadFull n => λ '(inp, out),
      if (0 <=? n) && (n <=? Z.of_nat (length inp))
      then (Ok (take (Z.to_nat n) inp), (drop (Z.to_nat n) inp, out))
      else (Err (match inp with [] => EOF | _ => ErrUnexpectedEOF end), ([], out))
  end.

Lemma wire_ok X (e : connE X) s : resp_ok e (fst (wire X e s)).
Proof.
  destruct e as [bs|n], s as [inp out]; cbn; [done|].
  destruct (0 <=? n) eqn:E0, (n <=? _) eqn:E1; bools; cbn; try lia.
  rewrite length_take. lia.
Qed.

(** The execution of a program against such a peer. *)
Lemma wire_exec {R} (p : prog connE R) inp :
  exec p (trace_of wire p (inp, [])) (fst (run wire p (inp, []))).
Proof. apply run_exec, wire_ok. Qed.

(** A value that travels as JSON. *)
Class Message (A : Type) := {
  marshal : A → bytes;
  unmarshal : bytes → option A;
}.

(** The values of [A] that survive the trip. *)
Class MessageLaws (A : Type) `{Message A} := {
  msg_ok : A → Prop;
  unmarshal_marshal : ∀ v, msg_ok v → unmarshal (marshal v) = Some v;
}.

(** ** Two programs over a pair of queues *)

Module Duplex.

(** One request of [p], with [inp] the bytes that have arrived: the rest of the
    program, of the input, and the bytes sent.  [None] when [p] has finished or
    waits for more input. *)
Definition step1 {R} (p : prog connE R) (inp : bytes) : option (prog connE R * bytes * bytes) :=
  match p with
  | Ret _ => None
  | Vis e k =>
      match e in connE X return (X → prog connE R) → _ with
      | Write bs => λ k, Some (k None, inp, bs)
      | ReadFull n => λ k,
          if n <=? Z.of_nat (length inp)
          then Some (k (Ok (take (Z.to_nat n) inp)), drop (Z.to_nat n) inp, [])
          else None
      end k
  end.

Record config (A B : Type) := Config {
  left : prog connE A;
  right : prog connE B;
  to_left : bytes;
  to_right : bytes;
}.
Arguments Config {A B}.
Arguments left {A B}.
Arguments right {A B}.
Arguments to_left {A B}.
Arguments to_right {A B}.

Section Schedules.
Context {A B : Type}.
Implicit Types c d f : config A B.

Definition step_l c : option (config A B) :=
  '(p, i, o) ← step1 (left c) (to_left c); Some (Config p (right c) i (to_right c ++ o)).
Definition step_r c : option (config A B) :=
  '(p, i, o) ← step1 (right c) (to_right c); Some (Config (left c) p (to_left c ++ o) i).

Definition step c d : Prop := step_l c = Some d ∨ step_r c = Some d.

(** Follows a schedule, [true] moving the left party. *)
Fixpoint follow (sched : list bool) c : option (config A B) :=
  match sched with
  | [] => Some c
  | b :: sched => c' ← (if b then step_l c else step_r c); follow sched c'
  end.

Lemma follow_nsteps sched c d : follow sched c = Some d → nsteps step (length sched) c d.
Proof.
  revert c; induction sched as [|b sched IH]; intros c; cbn [follow length].
  - intros [= ->]. constructor.
  - destruct b; [destruct (step_l c) as [c'|] eqn:E|destruct (step_r c) as [c'|] eqn:E];
      cbn; try done; intros H; (econstructor; [|by apply IH]).
    + by left.
    + by right.
Qed.

(** More input does not change a step that was possible. *)
Lemma step1_more {R} (p p' : prog connE R) inp i o x :
  step1 p inp = Some (p', i, o) → step1 p (inp ++ x) = Some (p', i ++ x, o).
Proof.
  destruct p as [r|X e k]; [done|]. destruct e; cbn.
  - by intros [= <- <- <-].
  - destruct (n <=? Z.of_nat (length inp)) eqn:E; [|done]. bools.
    intros [= <- <- <-]. rewrite (proj2 (Z.leb_le _ _)) by (rewrite length_app; lia).
    by rewrite take_app_le, drop_app_le by lia.
Qed.

Lemma diamond c d1 d2 :
  step_l c = Some d1 → step_r c = Some d2 →
  ∃ e, step_r d1 = Some e ∧ step_l d2 = Some e.
Proof.
  unfold step_l, step_r. intros H1 H2.
  destruct (step1 (left c) _) as [[[p i] o]|] eqn:El; [|done]. injection H1 as <-.
  destruct (step1 (right c) _) as [[[q j] u]|] eqn:Er; [|done]. injection H2 as <-.
  cbn [left right to_left to_right].
  rewrite (step1_more _ _ _ _ _ o Er), (step1_more _ _ _ _ _ u El). cbn. eauto.
Qed.

Lemma step_any c d n f :
  step c d → nsteps step (S n) c f → (∀ e, ¬ step f e) → nsteps step n d f.
Proof.
  intros Hcd Hn Hf. revert c d Hcd Hn. induction n as [|n IH]; intros c d Hcd Hn;
    inversion Hn as [|? ? d' ? Hcd' Hn']; subst.
  - assert (d = d' ∨ ∃ e, step d' e) as [->|[e He]]; [|done|].
    { destruct Hcd as [H1|H1], Hcd' as [H2|H2]; [left; congruence| | |left; congruence];
        (edestruct (diamond c) as (e & ? & ?); [eassumption..|]); right; exists e;
        unfold step; auto. }
    inversion Hn'; subst. by apply Hf in He.
  - assert (d = d' ∨ ∃ e, step d e ∧ step d' e) as [->|(e & He & He')]; [|done|].
    { destruct Hcd as [H1|H1], Hcd' as [H2|H2]; [left; congruence| | |left; congruence];
        (edestruct (diamond c) as (e & ? & ?); [eassumption..|]); right; exists e;
        unfold step; auto. }
    econstructor; [exact He|]. by apply (IH d').
Qed.

(** Every schedule: if some run from [c] ends in [f] after [n] steps, then a run
    of [m] steps from [c] has at most [n], and goes on to [f]. *)
Lemma every_schedule c f n :
  nsteps step n c f → (∀ e, ¬ step f e) →
  ∀ m d, nsteps step m c d → (m ≤ n)%nat ∧ nsteps step (n - m) d f.
Proof.
  intros Hn Hf m. revert n c Hn. induction m as [|m IH]; intros n c Hn d Hm;
    inversion Hm as [|? ? c' ? Hc Hm']; subst.
  - rewrite Nat.sub_0_r. split; [lia|done].
  - destruct n as [|n]; [inversion Hn; subst; by apply Hf in Hc|].
    destruct (IH n c' (step_any _ _ _ _ Hc Hn Hf) d Hm'). split; [lia|done].
Qed.

Lemma finished_stuck a b i j e : ¬ step (Config (Ret a) (Ret b) i j) e.
Proof. by intros [|]. Qed.

(** [c] runs to the results [a] and [b] under every schedule, in [n] steps. *)
Definition completes c (n : nat) (a : A) (b : B) : Prop :=
  ∀ m d, nsteps step m c d →
    (m ≤ n)%nat ∧ ∃ i j, nsteps step (n - m) d (Config (Ret a) (Ret b) i j).

Lemma completes_by_schedule c sched a b i j :
  follow sched c = Some (Config (Ret a) (Ret b) i j) → completes c (length sched) a b.
Proof.
  intros H%follow_nsteps m d Hm.
  destruct (every_schedule _ _ _ H (finished_stuck a b i j) m d Hm). eauto.
Qed.

(** [c] ends in [f] under every schedule, in [n] steps. *)
Definition ends_in c (n : nat) f : Prop :=
  ∀ m d, nsteps step m c d → (m ≤ n)%nat ∧ nsteps step (n - m) d f.

Lemma ends_in_by_schedule c sched a b i j :
  follow sched c = Some (Config (Ret a) (Ret b) i j) →
  ends_in c (length sched) (Config (Ret a) (Ret b) i j).
Proof.
  intros H%follow_nsteps. exact (every_schedule _ _ _ H (finished_stuck a b i j)).
Qed.

(** *** One party hangs up

    When nothing can move any more, one party is done, and whoever is done has closed the
    connection: the other one reads what is left for it, and then the end of the stream. *)

Definition hang_up c : A * B :=
  (fst (run wire (left c) (to_left c, [])), fst (run wire (right c) (to_right c, []))).

(** [c] comes to rest under every schedule, in [n] steps, with one party done; and with the
    connection closed the results are [a] and [b]. *)
Definition settles c (n : nat) (a : A) (b : B) : Prop :=
  ∃ f, ends_in c n f ∧ (∀ e, ¬ step f e) ∧
    ((∃ a', left f = Ret a') ∨ ∃ b', right f = Ret b') ∧ hang_up f = (a, b).

Lemma settles_by_schedule c sched f a b :
  follow sched c = Some f → (∀ e, ¬ step f e) →
  ((∃ a', left f = Ret a') ∨ ∃ b', right f = Ret b') → hang_up f = (a, b) →
  settles c (length sched) a b.
Proof.
  intros H%follow_nsteps Hs Hd Hh. exists f. split_and!; [|done..]. exact (every_schedule _ _ _ H Hs).
Qed.

(** Both are done. *)
Lemma settles_done c sched a b i j :
  follow sched c = Some (Config (Ret a) (Ret b) i j) → settles c (length sched) a b.
Proof.
  intros H. eapply settles_by_schedule; [exact H|apply finished_stuck|left; by exists a|done].
Qed.

(** A party that waits for more than it has been sent cannot move. *)
Definition waits {R} (p : prog connE R) : Prop := step1 p [] = None.

Lemma waiting_stuck p q e : waits p → waits q → ¬ step (Config p q [] []) e.
Proof. unfold waits, step, step_l, step_r. cbn. by intros -> -> [|]. Qed.
End Schedules.
End Duplex.
