(* ===== verification/Discovery.v ===== *)
(** * Global discovery (discovery/discovery.go, and lookup and announce of main.go)

    A server announces where it can be reached; a client, or a phone that wants to
    know whether a machine is waiting, looks the record up. *)

From S2P Require Import Prelude GoStrings Utf8 Json Effects.

(** ** Looking a device up *)

(** [Get verify url]: one GET, the status and the body, or why there is no response;
    [verify] tells whether the server's certificate is checked. *)
Inductive httpE : Type → Type :=
| Get (verify : bool) (url : bytes) : httpE (result (Z * bytes)).

Inductive http_entry : Type :=
| Got (verify : bool) (url : bytes) (r : result (Z * bytes)).

Definition http_log {X} (e : httpE X) : X → http_entry :=
  match e in httpE X return X → http_entry with Get v u => Got v u end.

#[global] Instance http_effect : Effect httpE :=
  {| entry := http_entry; log X e := http_log e; resp_ok _ _ _ := True |}.

Definition StatusOK : Z := 200.
Definition StatusNoContent : Z := 204.
Definition StatusNotFound : Z := 404.

(** The query is added to one that is there. *)
Definition lookup_url (discoveryServer serverID : bytes) : bytes :=
  if negb (Contains discoveryServer "?")
  then discoveryServer ++ str "?device=" ++ serverID
  else discoveryServer ++ str "&device=" ++ serverID.

Definition http_status_error (status : Z) : error :=
  Errorf (str "discovery lookup returned HTTP " ++ Itoa status).

Definition lookup (serverID discoveryServer : bytes) : prog httpE (result (list bytes)) :=
  resp <- trigger (Get false (lookup_url discoveryServer serverID)) ;;
  match resp with
  | Err e => Ret (Err e)
  | Ok (status, body) =>
      if status =? StatusNotFound
      then Ret (Err (Errorf (str "device " ++ serverID ++ str " not found in discovery")))
      else if negb (status =? StatusOK) then Ret (Err (http_status_error status))
      else Ret (match (j ← parse_first body; o ← as_object j; strings_field "addresses" [] o) with
                | Some addresses => Ok addresses
                | None => Err (JSONError body)
                end)
  end.

(** A [time.Time]: nanoseconds since the first year; the zero time is 0. *)
Abbreviation Time := Z.
Definition IsZero (t : Time) : bool := t =? 0.

Record Record_ := mkRecord { Seen : Time; Addresses : list bytes }.

Section Lookup.
(** [time.Parse(time.RFC3339, _)] *)
Context (parseTime : bytes → option Time).

Definition record_of (o : list (bytes * json)) : option Record_ :=
  seen ← string_field "seen" [] o;
  addresses ← strings_field "addresses" [] o;
  Some (mkRecord (if seen =s "" then 0 else default 0 (parseTime seen)) addresses).

(** [Ok None] for a device discovery knows nothing about. *)
Definition LookupRecord (serverID discoveryServer : bytes) : prog httpE (result (option Record_)) :=
  resp <- trigger (Get true (lookup_url discoveryServer serverID)) ;;
  match resp with
  | Err e => Ret (Err e)
  | Ok (status, body) =>
      if status =? StatusNotFound then Ret (Ok None)
      else if negb (status =? StatusOK) then Ret (Err (http_status_error status))
      else Ret (match (j ← parse_first body; o ← as_object j; record_of o) with
                | Some r => Ok (Some r)
                | None => Err (JSONError body)
                end)
  end.
End Lookup.

(** ** Announcing *)

(** The relay the client is connected to right now, if there is a relay client and it
    is connected, and the direct port if one is open. *)
Definition announceAddresses (uri : option bytes) (directPort actualPort : Z) : list bytes :=
  (match uri with Some u => [u] | None => [] end) ++
  (if 0 <? directPort then [str "tcp://:" ++ Itoa actualPort] else []).

Definition announcement (addresses : list bytes) : bytes :=
  print (JObj [(str "addresses", JArr (map JStr addresses))]).

Inductive wake : Type := CtxDone | Ticker | Recheck.

(** [Current]: the addresses right now; [Post]: one announcement, the status or why
    there is none; [Wait]: which of the three channels fires. *)
Inductive annE : Type → Type :=
| Current : annE (list bytes)
| Post (url body : bytes) : annE (result Z)
| Wait : annE wake.

Inductive ann_entry : Type :=
| ReadCurrent (addresses : list bytes)
| Posted (url body : bytes) (r : result Z)
| Woke (w : wake).

Definition ann_log {X} (e : annE X) : X → ann_entry :=
  match e in annE X return X → ann_entry with
  | Current => ReadCurrent
  | Post u b => Posted u b
  | Wait => Woke
  end.

#[global] Instance ann_effect : Effect annE :=
  {| entry := ann_entry; log X e := ann_log e; resp_ok _ _ _ := True |}.

(** The loop for one discovery server, for at most [turns] turns; it ends by itself
    only with the context. *)
Fixpoint announce (turns : nat) (ds lastAnnounced : bytes) : prog annE unit :=
  match turns with
  | O => Ret tt
  | S turns =>
      let rest last := w <- trigger Wait ;;
        match w with
        | CtxDone => Ret tt
        | Ticker => announce turns ds []
        | Recheck => announce turns ds last
        end in
      current <- trigger Current ;;
      let key := Join current "," in
      if bool_decide (current = []) || (key =s lastAnnounced) then rest lastAnnounced
      else
        r <- trigger (Post ds (announcement current)) ;;
        rest (match r with
              | Ok status => if status =? StatusNoContent then key else lastAnnounced
              | Err _ => lastAnnounced
              end)
  end.

(** ** What is announced *)

(** Neither an accepted announcement nor the refresh interval. *)
Definition keeps (e : ann_entry) : Prop :=
  match e with
  | Posted _ _ (Ok s) => s ≠ StatusNoContent
  | Woke Ticker => False
  | _ => True
  end.

(** [key] was accepted by the server, and neither another announcement has been
    accepted nor the refresh interval has passed since. *)
Definition still_announced (ds : bytes) (h : list ann_entry) (key : bytes) : Prop :=
  ∃ h1 h2 addresses,
    h = h1 ++ [ReadCurrent addresses; Posted ds (announcement addresses) (Ok StatusNoContent)] ++ h2 ∧
    Join addresses "," = key ∧
    Forall keeps h2.

(** An announcement carries the addresses just read, at least one, and is not one the
    server still has. *)
Definition announce_allowed (ds : bytes) (h : list ann_entry) (e : ann_entry) : Prop :=
  match e with
  | Posted url body _ =>
      ∃ h0 addresses, h = h0 ++ [ReadCurrent addresses] ∧ addresses ≠ [] ∧ url = ds ∧
        body = announcement addresses ∧ ¬ still_announced ds h0 (Join addresses ",")
  | _ => True
  end.

Lemma still_announced_snoc ds h e key :
  still_announced ds (h ++ [e]) key →
  (still_announced ds h key ∧ keeps e) ∨
  (∃ h0 addresses, h = h0 ++ [ReadCurrent addresses] ∧ Join addresses "," = key ∧
     e = Posted ds (announcement addresses) (Ok StatusNoContent)).
Proof.
  intros (h1 & h2 & addrs & Hh & Hk & Hf). destruct h2 as [|e' h2 _] using rev_ind.
  - rewrite app_nil_r in Hh. right. exists h1, addrs.
    change [ReadCurrent addrs; Posted ds (announcement addrs) (Ok StatusNoContent)]
      with ([ReadCurrent addrs] ++ [Posted ds (announcement addrs) (Ok StatusNoContent)]) in Hh.
    rewrite app_assoc in Hh. by apply app_inj_tail in Hh as [-> ->].
  - rewrite !app_assoc in Hh. apply app_inj_tail in Hh as [-> ->]. left.
    apply Forall_app in Hf as [Hf He]. split; [|by rewrite Forall_singleton in He].
    exists h1, h2, addrs. by rewrite <- !app_assoc.
Qed.

(** The loop's variable knows what the server still has. *)
Definition knows (ds last : bytes) (h : list ann_entry) : Prop :=
  ∀ key, still_announced ds h key → key = last.

Lemma knows_read ds last h addresses : knows ds last h → knows ds last (h ++ [ReadCurrent addresses]).
Proof. intros Hl key [[? _]|(? & ? & _ & _ & ?)]%still_announced_snoc; [by apply Hl|done]. Qed.

Lemma knows_woke ds last h w :
  knows ds last h → knows ds (match w with Ticker => [] | _ => last end) (h ++ [Woke w]).
Proof.
  intros Hl key [[? Hk]|(? & ? & _ & _ & ?)]%still_announced_snoc; [|done].
  destruct w; [by apply Hl|done|by apply Hl].
Qed.

Lemma knows_posted ds last h current r :
  knows ds last h →
  knows ds (match r with
            | Ok status => if status =? StatusNoContent then Join current "," else last
            | Err _ => last
            end)
    ((h ++ [ReadCurrent current]) ++ [Posted ds (announcement current) r]).
Proof.
  intros Hl key [[Hs Hk]|(h0 & a & Hh & Hk & He)]%still_announced_snoc.
  - apply (knows_read _ _ _ _ Hl) in Hs. destruct r as [s|]; [|done].
    destruct (s =? StatusNoContent) eqn:E; [|done]. bools. done.
  - injection He as _ Hr. subst r. apply app_inj_tail in Hh as [_ [= ->]]. done.
Qed.

Lemma announce_safe turns ds last h :
  knows ds last h →
  safe (E := annE) (announce_allowed ds) h (announce turns ds last) (λ _ _, True).
Proof.
  revert h last; induction turns as [|turns IH]; intros h last Hl; [done|]. cbn [announce].
  apply safe_ask. intros current _. split; [done|].
  assert (Hrest : ∀ h' last', knows ds last' h' →
    safe (E := annE) (announce_allowed ds) h' (w <- trigger Wait ;;
        match w with
        | CtxDone => Ret tt
        | Ticker => announce turns ds []
        | Recheck => announce turns ds last'
        end) (λ _ _, True)).
  { intros h' last' H'. apply safe_ask. intros w _. split; [done|].
    pose proof (knows_woke _ _ _ w H'). by destruct w; [|apply IH..]. }
  destruct (bool_decide (current = []) || (Join current "," =s last)) eqn:E.
  { by apply Hrest, knows_read. }
  apply orb_false_iff in E as [Ec%bool_decide_eq_false Ek]. bools.
  apply safe_ask. intros r _. split.
  - exists h, current. split_and!; try done. by intros Hs%Hl.
  - by apply Hrest, knows_posted.
Qed.

(** C35. Every announcement carries the addresses read immediately before it, never
    an earlier snapshot and never an empty list, and is sent only when the server
    does not already hold it from an announcement within the refresh interval. *)
Theorem announce_current turns ds pre url body r post :
  prefix_exec (announce turns ds []) (pre ++ Posted url body r :: post) →
  announce_allowed ds pre (Posted url body r).
Proof.
  refine (safe_always (E := annE) (announce_allowed ds) _ (λ _ _, True) pre _ post _).
  apply announce_safe. intros key (h1 & h2 & a & Hh & _). by destruct h1.
Qed.

(** A change is published at once: when the addresses are not the ones last
    accepted, the very next request of the loop is their announcement. *)
Theorem announce_change turns ds last current t :
  exec (announce (S turns) ds last) (ReadCurrent current :: t) tt →
  current ≠ [] → Join current "," ≠ last →
  ∃ r t', t = Posted ds (announcement current) r :: t'.
Proof.
  intros Ht Hc Hk. cbn [announce] in Ht. unfold trigger at 1 in Ht. cbn [pbind] in Ht.
  destruct Ht as (x & t' & _ & [= <- <-] & Ht).
  rewrite bool_decide_eq_false_2 in Ht by done. cbn [orb] in Ht.
  rewrite (proj2 (seq_eqb_false _ _)) in Ht by done.
  unfold trigger at 1 in Ht. cbn [pbind] in Ht. destruct Ht as (r & t' & _ & -> & _). eauto.
Qed.

(** ** Records survive the trip *)

Lemma parse_parse_first s j : parse s = Some j → parse_first s = Some j.
Proof.
  unfold parse, parse_first. destruct (value _ _ _) as [[v t]|]; cbn; [|done]. by case_match.
Qed.

Lemma mapM_string_elem l : mapM string_elem (map JStr l) = Some l.
Proof. induction l as [|x l IH]; [done|]. cbn in *. by rewrite IH. Qed.

Definition server_says (status : Z) (body : bytes) : handler httpE unit := λ X e s,
  (match e in httpE X return X with Get _ _ => Ok (status, body) end, s).

(** What a server announces is what a lookup returns: the addresses read back
    from an announcement are the ones announced, in order. *)
Theorem lookup_announced addresses serverID ds :
  Forall (λ a, ValidUtf8 a = true) addresses →
  fst (run (server_says StatusOK (announcement addresses)) (lookup serverID ds) tt) = Ok addresses.
Proof.
  intros Ha. cbn -[announcement parse_first].
  rewrite (parse_parse_first _ (JObj [(str "addresses", JArr (map JStr addresses))])).
  - cbn -[mapM]. by rewrite mapM_string_elem.
  - apply (parse_print 2); [|done]. apply Forall_singleton. split; [done|].
    change (Forall (json_ok 0) (map JStr addresses)). apply Forall_fmap.
    eapply Forall_impl; [exact Ha|]. done.
Qed.

Lemma record_absent_exec parseTime serverID ds t r :
  exec (LookupRecord parseTime serverID ds) t r →
  ∃ resp, t = [Got true (lookup_url ds serverID) resp] ∧
    match resp with
    | Err e => r = Err e
    | Ok (status, body) =>
        (status = StatusNotFound ∧ r = Ok None) ∨
        (status = StatusOK ∧
         (∃ rec, r = Ok (Some rec)) ∨ status = StatusOK ∧ r = Err (JSONError body)) ∨
        (status ≠ StatusOK ∧ status ≠ StatusNotFound ∧ r = Err (http_status_error status))
    end.
Proof.
  unfold LookupRecord. intros (resp & t' & _ & -> & Ht)%exec_ask. exists resp. destruct resp as [[status body]|e]; cbv beta iota in Ht.
  - destruct (status =? StatusNotFound) eqn:E1; bools; [destruct Ht as [-> ->]; by eauto|].
    destruct (status =? StatusOK) eqn:E2; bools; cbv beta iota delta [negb] in Ht; destruct Ht as [-> ->];
      (split; [done|]); [|by eauto 10].
    right. left. case_match; eauto.
  - by destruct Ht as [-> ->].
Qed.

(** "Not there" is told apart from "cannot tell": a lookup reports that discovery
    has no record exactly when the server answered 404 to one verified request for
    that device; any other failure is an error. *)
Theorem LookupRecord_absent parseTime serverID ds t r :
  exec (LookupRecord parseTime serverID ds) t r →
  (r = Ok None ↔ ∃ body, t = [Got true (lookup_url ds serverID) (Ok (StatusNotFound, body))]).
Proof.
  intros (resp & -> & H)%record_absent_exec. destruct resp as [[status body]|e].
  - split; [|intros (b & [= -> _])]; [intros ->|]; naive_solver.
  - split; [by intros ->|]. by intros (b & [= ]).
Qed.

(** ** The theorems at concrete inputs *)

Definition relay_wit : list bytes := [str "relay://192.0.2.1:22067/?id=X"].

(** A server that accepts everything, seen for one turn. *)
Definition ann_wit : handler annE unit := λ X e s,
  (match e in annE X return X with
   | Current => relay_wit
   | Post _ _ => Ok StatusNoContent
   | Wait => Recheck
   end, s).

Lemma announce_current_witness :
  announce_allowed "https://d/" [ReadCurrent relay_wit]
    (Posted "https://d/" (announcement relay_wit) (Ok StatusNoContent)).
Proof.
  apply (announce_current 1 "https://d/" [ReadCurrent relay_wit] "https://d/" (announcement relay_wit)
    (Ok StatusNoContent) [Woke Recheck]).
  apply (exec_prefix _ _ tt). exact (run_exec ann_wit (announce 1 "https://d/" []) tt (λ _ _ _, I)).
Defined.

Lemma announce_change_witness :
  ∃ r t', [Posted "https://d/" (announcement relay_wit) (Ok StatusNoContent); Woke Recheck]
          = Posted "https://d/" (announcement relay_wit) r :: t'.
Proof.
  apply (announce_change 0 "https://d/" [] relay_wit); [|done|done].
  exact (run_exec ann_wit (announce 1 "https://d/" []) tt (λ _ _ _, I)).
Defined.

Lemma lookup_announced_witness :
  fst (run (server_says 200 (announcement relay_wit)) (lookup "X" "https://d/") tt) = Ok relay_wit.
Proof. apply (lookup_announced relay_wit "X" "https://d/"). by repeat constructor. Defined.

Lemma LookupRecord_absent_witness :
  fst (run (server_says 404 []) (LookupRecord (λ _, None) "X" "https://d/") tt) = Ok None ↔
  ∃ body, [Got true "https://d/?device=X" (Ok (404, []))]
          = [Got true (lookup_url "https://d/" "X") (Ok (StatusNotFound, body))].
Proof.
  apply (LookupRecord_absent (λ _, None) "X" "https://d/").
  exact (run_exec (server_says 404 []) (LookupRecord (λ _, None) "X" "https://d/") tt (λ _ _ _, I)).
Defined.
