(* ===== verification/Auth.v ===== *)
(** * The TOTP handshake (auth.go)

    The two ends of the exchange that follows the TLS handshake: the server
    sends a challenge, the client answers with a passcode when one is required,
    the server sends its verdict.  Messages are JSON behind a four-byte
    big-endian length. *)

From S2P Require Import Prelude GoStrings Utf8 Json Effects Conn.

(** ** The messages *)

Record AuthChallenge := mkChallenge { ac_Type : bytes; ac_Methods : list bytes }.
Record AuthResponse := mkResponse { ar_Type : bytes; ar_TOTP : bytes }.
Record AuthResult := mkResult { as_Status : bytes; as_Message : bytes }.

(** [omitempty] on a string field. *)
Definition omit_empty (name s : bytes) : list (bytes * json) :=
  match s with [] => [] | _ => [(name, JStr s)] end.

Definition struct_of (b : bytes) : option (list (bytes * json)) := parse b ≫= as_object.

#[global] Instance challenge_message : Message AuthChallenge := {|
  marshal v := print (JObj ((str "type", JStr (ac_Type v)) ::
    match ac_Methods v with [] => [] | ms => [(str "methods", JArr (map JStr ms))] end));
  unmarshal b :=
    o ← struct_of b;
    t ← string_field "type" [] o; ms ← strings_field "methods" [] o; Some (mkChallenge t ms);
|}.

#[global] Instance response_message : Message AuthResponse := {|
  marshal v := print (JObj ((str "type", JStr (ar_Type v)) :: omit_empty "totp" (ar_TOTP v)));
  unmarshal b :=
    o ← struct_of b;
    t ← string_field "type" [] o; c ← string_field "totp" [] o; Some (mkResponse t c);
|}.

#[global] Instance result_message : Message AuthResult := {|
  marshal v :=
    print (JObj ((str "status", JStr (as_Status v)) :: omit_empty "message" (as_Message v)));
  unmarshal b :=
    o ← struct_of b;
    s ← string_field "status" [] o; m ← string_field "message" [] o; Some (mkResult s m);
|}.

(** ** Framing *)

Definition max_message : Z := 10 * 1024 * 1024.

Definition frame (b : bytes) : bytes := be_bytes 4 (u32 (Z.of_nat (length b))) ++ b.

Definition sendAuthMessage {A} `{Message A} (v : A) : prog connE (option error) :=
  let b := marshal v in
  err <- trigger (Write (be_bytes 4 (u32 (Z.of_nat (length b)))));;
  match err with
  | Some e => Ret (Some e)
  | None => trigger (Write b)
  end.

(** The receiving side; [too_large] is the error for a length over the limit. *)
Definition readMessage (too_large : Z → error) (A : Type) `{Message A} : prog connE (result A) :=
  lenBuf <- trigger (ReadFull 4);;
  match lenBuf with
  | Err e => Ret (Err e)
  | Ok lenBuf =>
      let l := be_val 0 lenBuf in
      if max_message <? l then Ret (Err (too_large l))
      else
        b <- trigger (ReadFull l);;
        match b with
        | Err e => Ret (Err e)
        | Ok b => Ret (match unmarshal b with Some v => Ok v | None => Err (JSONError b) end)
        end
  end.

Definition readAuthMessage (A : Type) `{Message A} : prog connE (result A) :=
  readMessage (λ l, Errorf (str "auth message too large: " ++ Itoa l ++ str " bytes")) A.

(** ** The server's side

    [validate] is [totp.Validate] at the moment of the call. *)

Section Server.
Context (validate : bytes → bytes → bool).

Definition performServerAuth (totpSecret : bytes) : prog connE (option error) :=
  if totpSecret =s "" then sendAuthMessage (mkChallenge "auth_ok" [])
  else
    err <- sendAuthMessage (mkChallenge "auth_required" [str "totp"]);;
    match err with
    | Some e => Ret (Some e)
    | None =>
        resp <- readAuthMessage AuthResponse;;
        match resp with
        | Err e => Ret (Some e)
        | Ok resp =>
            if negb (ar_Type resp =s "auth") then
              let text := str "expected auth message, got " ++ ar_Type resp in
              sendAuthMessage (mkResult "error" text);;;
              Ret (Some (Errorf text))
            else if negb (validate (ar_TOTP resp) totpSecret) then
              sendAuthMessage (mkResult "error" "invalid TOTP passcode");;;
              Ret (Some (Errorf "invalid TOTP passcode received"))
            else sendAuthMessage (mkResult "ok" "")
        end
    end.
End Server.

(** ** The client's side

    [Stdin] is what the process finds on its standard input when it has to ask:
    whether it is a terminal, and the line read from it. *)

Record Stdin := mkStdin { is_terminal : bool; first_line : result bytes }.

(** The passcode to send: the one given, or one typed at the terminal. *)
Definition chooseCode (stdin : Stdin) (totpPasscode : bytes) : result bytes :=
  let code := TrimSpace totpPasscode in
  if code =s "" then
    if negb (is_terminal stdin) then
      Err (Errorf "server requires TOTP authentication, but --totp was not provided and stdin is not interactive")
    else match first_line stdin with
         | Err e => Err (Wrapf "failed to read TOTP passcode from stdin" e)
         | Ok line => Ok (TrimSpace line)
         end
  else Ok code.

Definition needsTOTP (methods : list bytes) : bool := existsb (λ m, m =s "totp") methods.

Definition performClientAuth (stdin : Stdin) (totpPasscode : bytes) : prog connE (option error) :=
  challenge <- readAuthMessage AuthChallenge;;
  match challenge with
  | Err e => Ret (Some (Wrapf "failed to read auth challenge from server" e))
  | Ok challenge =>
      if ac_Type challenge =s "auth_ok" then Ret None
      else if negb (ac_Type challenge =s "auth_required") then
        Ret (Some (Errorf (str "unexpected challenge type from server: " ++ ac_Type challenge)))
      else if negb (needsTOTP (ac_Methods challenge)) then
        Ret (Some (Errorf (str "server required unknown authentication methods: ["
                           ++ Join (ac_Methods challenge) " " ++ str "]")))
      else match chooseCode stdin totpPasscode with
           | Err e => Ret (Some e)
           | Ok code =>
               err <- sendAuthMessage (mkResponse "auth" code);;
               match err with
               | Some e => Ret (Some (Wrapf "failed to send auth response" e))
               | None =>
                   res <- readAuthMessage AuthResult;;
                   match res with
                   | Err e => Ret (Some (Wrapf "failed to read auth result from server" e))
                   | Ok res =>
                       if negb (as_Status res =s "ok")
                       then Ret (Some (Errorf (str "authentication failed: " ++ as_Message res)))
                       else Ret None
                   end
               end
           end
  end.

(** ** Messages survive the trip *)

Lemma omit_empty_ok d name s :
  ValidUtf8 name = true → ValidUtf8 s = true →
  Forall (λ kv, ValidUtf8 (fst kv) = true ∧ json_ok d (snd kv)) (omit_empty name s).
Proof. intros Hn Hs. destruct s; repeat constructor; destruct d; done. Qed.

Lemma struct_of_print o :
  Forall (λ kv, ValidUtf8 (fst kv) = true ∧ json_ok 1 (snd kv)) o →
  struct_of (print (JObj o)) = Some o.
Proof. intros H. unfold struct_of. by rewrite (parse_print 2). Qed.

#[global] Program Instance challenge_laws : MessageLaws AuthChallenge := {|
  msg_ok v := ValidUtf8 (ac_Type v) = true ∧ Forall (λ m, ValidUtf8 m = true) (ac_Methods v)
|}.
Next Obligation.
  intros [t ms] [Ht Hms]. cbn -[print struct_of] in *. rewrite struct_of_print.
  - destruct ms as [|m ms]; [done|]. cbn -[mapM].
    replace (mapM string_elem (JStr m :: map JStr ms)) with (Some (m :: ms)); [done|].
    clear. symmetry. change (JStr m :: map JStr ms) with (map JStr (m :: ms)).
    induction (m :: ms) as [|x l IH]; [done|]. cbn in *. by rewrite IH.
  - constructor; [done|]. destruct ms as [|m ms]; [constructor|].
    constructor; [|constructor]. split; [done|]. cbn [snd json_ok].
    change (Forall (json_ok 0) (map JStr (m :: ms))).
    apply Forall_fmap. eapply Forall_impl; [exact Hms|]. done.
Qed.

#[global] Program Instance response_laws : MessageLaws AuthResponse := {|
  msg_ok v := ValidUtf8 (ar_Type v) = true ∧ ValidUtf8 (ar_TOTP v) = true
|}.
Next Obligation.
  intros [t c] [Ht Hc]. cbn -[print struct_of] in *. rewrite struct_of_print.
  - by destruct c.
  - constructor; [done|]. by apply omit_empty_ok.
Qed.

#[global] Program Instance result_laws : MessageLaws AuthResult := {|
  msg_ok v := ValidUtf8 (as_Status v) = true ∧ ValidUtf8 (as_Message v) = true
|}.
Next Obligation.
  intros [s m] [Hs Hm]. cbn -[print struct_of] in *. rewrite struct_of_print.
  - by destruct m.
  - constructor; [done|]. by apply omit_empty_ok.
Qed.

(** ** Frames between two parties *)

Lemma frame_header (b : bytes) :
  Z.of_nat (length b) ≤ max_message →
  be_val 0 (be_bytes 4 (u32 (Z.of_nat (length b)))) = Z.of_nat (length b).
Proof.
  intros H. rewrite be_val_bytes. unfold u32, max_message in *.
  change (256 ^ Z.of_nat 4) with (2 ^ 32). rewrite Z.mod_mod by lia. apply Z.mod_small. lia.
Qed.

Section Framing.
Context {A : Type} `{MessageLaws A} {tl : Z → error}.
Import Duplex.

(** A message the receiver accepts. *)
Definition fits (v : A) : Prop := msg_ok v ∧ Z.of_nat (length (marshal v)) ≤ max_message.

Lemma step1_read_header {R} (k : result A → prog connE R) v inp :
  fits v →
  step1 (pbind (readMessage tl A) k) (frame (marshal v) ++ inp)
  = Some (pbind (b <- trigger (ReadFull (Z.of_nat (length (marshal v))));;
                 match b with
                 | Err e => Ret (Err e)
                 | Ok b => Ret (match unmarshal b with Some v => Ok v | None => Err (JSONError b) end)
                 end) k, marshal v ++ inp, []).
Proof.
  intros [_ Hl]. cbn -[take drop be_bytes be_val max_message Z.leb].
  unfold frame. rewrite <- app_assoc.
  rewrite (proj2 (Z.leb_le _ _)) by (rewrite length_app, be_bytes_length; lia).
  rewrite take_app_length', drop_app_length' by by rewrite be_bytes_length.
  rewrite frame_header by done. by rewrite (proj2 (Z.ltb_ge _ _)) by lia.
Qed.

Lemma step1_read_body {R} (k : result A → prog connE R) v inp :
  fits v →
  step1 (pbind (b <- trigger (ReadFull (Z.of_nat (length (marshal v))));;
                 match b with
                 | Err e => Ret (Err e)
                 | Ok b => Ret (match unmarshal b with Some v => Ok v | None => Err (JSONError b) end)
                 end) k) (marshal v ++ inp)
  = Some (k (Ok v), inp, []).
Proof.
  intros [Hok _]. cbn -[take drop Z.leb].
  rewrite (proj2 (Z.leb_le _ _)) by (rewrite length_app; lia).
  rewrite Nat2Z.id, take_app_length, drop_app_length. cbn.
  by rewrite unmarshal_marshal.
Qed.

(** A frame at the head of what a peer has sent. *)
Lemma run_readMessage_body (body : bytes) inp out :
  Z.of_nat (length body) ≤ max_message →
  run wire (readMessage tl A) (frame body ++ inp, out)
  = (match unmarshal body with Some v => Ok v | None => Err (JSONError body) end, (inp, out)).
Proof.
  intros Hl. unfold readMessage. cbn -[take drop be_bytes be_val max_message Z.leb].
  unfold frame. rewrite <- app_assoc.
  rewrite (proj2 (Z.leb_le 4 _)) by (rewrite length_app, be_bytes_length; lia).
  change (0 <=? 4) with true. cbn [andb].
  rewrite take_app_length', drop_app_length' by by rewrite be_bytes_length.
  rewrite frame_header by done. rewrite (proj2 (Z.ltb_ge _ _)) by lia.
  cbn -[take drop Z.leb]. rewrite !(proj2 (Z.leb_le _ _)) by (rewrite ?length_app; lia).
  cbn [andb]. by rewrite Nat2Z.id, take_app_length, drop_app_length.
Qed.

Lemma run_readMessage v inp out :
  fits v → run wire (readMessage tl A) (frame (marshal v) ++ inp, out) = (Ok v, (inp, out)).
Proof. intros [Hok Hl]. by rewrite run_readMessage_body, unmarshal_marshal. Qed.

Context {R S : Type}.

Lemma send_l v (k : option error → prog connE R) (q : prog connE S) i o sched :
  follow (true :: true :: sched) (Config (pbind (sendAuthMessage v) k) q i o)
  = follow sched (Config (k None) q i (o ++ frame (marshal v))).
Proof. cbn -[be_bytes]. unfold frame. by rewrite app_assoc. Qed.

Lemma send_r v (k : option error → prog connE S) (p : prog connE R) i o sched :
  follow (false :: false :: sched) (Config p (pbind (sendAuthMessage v) k) i o)
  = follow sched (Config p (k None) (i ++ frame (marshal v)) o).
Proof. cbn -[be_bytes]. unfold frame. by rewrite app_assoc. Qed.

Lemma read_l v (k : result A → prog connE R) (q : prog connE S) i o sched :
  fits v →
  follow (true :: true :: sched)
    (Config (pbind (readMessage tl A) k) q (frame (marshal v) ++ i) o)
  = follow sched (Config (k (Ok v)) q i o).
Proof.
  intros Hv. cbn [follow]. unfold step_l. cbn [left right to_left to_right].
  rewrite step1_read_header by done. cbn [mbind option_bind].
  unfold step_l. cbn [left right to_left to_right].
  rewrite step1_read_body by done. cbn [mbind option_bind]. by rewrite !app_nil_r.
Qed.

Lemma read_r v (k : result A → prog connE S) (p : prog connE R) i o sched :
  fits v →
  follow (false :: false :: sched)
    (Config p (pbind (readMessage tl A) k) i (frame (marshal v) ++ o))
  = follow sched (Config p (k (Ok v)) i o).
Proof.
  intros Hv. cbn [follow]. unfold step_r. cbn [left right to_left to_right].
  rewrite step1_read_header by done. cbn [mbind option_bind].
  unfold step_r. cbn [left right to_left to_right].
  rewrite step1_read_body by done. cbn [mbind option_bind]. by rewrite !app_nil_r.
Qed.

(** The same with nothing else queued. *)
Lemma read_l0 v (k : result A → prog connE R) (q : prog connE S) o sched :
  fits v →
  follow (true :: true :: sched) (Config (pbind (readMessage tl A) k) q (frame (marshal v)) o)
  = follow sched (Config (k (Ok v)) q [] o).
Proof. rewrite <- (app_nil_r (frame _)). apply read_l. Qed.

Lemma read_r0 v (k : result A → prog connE S) (p : prog connE R) i sched :
  fits v →
  follow (false :: false :: sched) (Config p (pbind (readMessage tl A) k) i (frame (marshal v)))
  = follow sched (Config p (k (Ok v)) i []).
Proof. rewrite <- (app_nil_r (frame _)). apply read_r. Qed.

Lemma send_l_last v (q : prog connE S) i o sched :
  follow (true :: true :: sched) (Config (sendAuthMessage v) q i o)
  = follow sched (Config (Ret None) q i (o ++ frame (marshal v))).
Proof. cbn -[be_bytes]. unfold frame. by rewrite app_assoc. Qed.
End Framing.

(** ** What an exchange did *)

Section Traces.
Context {A : Type} `{Message A} {tl : Z → error}.

Lemma exec_send (v : A) t r :
  exec (sendAuthMessage v) t r →
  (∃ hdr err, t = [Wrote hdr (Some err)] ∧ r = Some err) ∨
  (∃ hdr, t = [Wrote hdr None; Wrote (marshal v) r]).
Proof.
  unfold sendAuthMessage. intros H1. repeat exec_step; simplify_eq/=; eauto 10.
Qed.

Lemma exec_read t (v : A) :
  exec (readMessage tl A) t (Ok v) →
  ∃ hdr payload,
    t = [ReadN 4 (Ok hdr); ReadN (Z.of_nat (length payload)) (Ok payload)] ∧
    unmarshal payload = Some v.
Proof.
  unfold readMessage. intros H1. repeat exec_step; simplify_eq/=; try done.
  match goal with H : Ok v = match unmarshal ?b with _ => _ end |- _ =>
    destruct (unmarshal b) eqn:Hu; simplify_eq/= end.
  do 2 eexists. split; [|exact Hu]. by do 3 f_equal.
Qed.

Lemma prefix_read_entry t x :
  prefix_exec (readMessage tl A) t → x ∈ t → ∃ n got, x = ReadN n got ∧ 0 ≤ n ≤ max_message.
Proof.
  unfold readMessage. intros H1 Hx.
  assert (Hmax : 4 ≤ max_message) by done.
  repeat exec_step; simplify_eq/=; bools;
    repeat match goal with
    | H : _ ∈ _ :: _ |- _ => apply elem_of_cons in H as [->|H]
    | H : _ ∈ [] |- _ => by apply not_elem_of_nil in H
    end; eexists _, _; (split; [done|]); try lia;
    match goal with |- context [be_val 0 ?h] => pose proof (be_val_bound h); lia end.
Qed.
End Traces.

(** The peer proved knowledge of the secret in [t]: it sent a message of type
    [auth] whose passcode is accepted. *)
Definition authenticated (validate : bytes → bytes → bool) (secret : bytes)
    (t : list conn_entry) : Prop :=
  ∃ payload resp,
    ReadN (Z.of_nat (length payload)) (Ok payload) ∈ t ∧
    unmarshal payload = Some resp ∧ ar_Type resp = "auth" ∧
    validate (ar_TOTP resp) secret = true.

(** ** Properties *)

Lemma performServerAuth_authenticated validate secret t :
  secret ≠ [] → exec (performServerAuth validate secret) t None →
  authenticated validate secret t.
Proof.
  intros Hs. unfold performServerAuth, readAuthMessage.
  destruct (secret =s "") eqn:E; bools; [done|].
  intros H. repeat (exec_step; simplify_eq; bools); try done.
  match goal with H : exec (readMessage _ _) _ _ |- _ =>
    apply exec_read in H as (hdr & payload & -> & Hu) end.
  exists payload, a. split_and!; [|done..]. set_solver.
Qed.

(** C2. Whatever the peer sends, a server with a TOTP secret reports success only
    after it has read a message of type [auth] whose passcode [totp.Validate]
    accepts for that secret. *)
Theorem server_auth_sound validate secret t :
  secret ≠ [] → exec (performServerAuth validate secret) t None →
  authenticated validate secret t.
Proof.
  apply performServerAuth_authenticated.
Qed.

(** A client reports success only after the server said that no
    authentication is needed, or asked for a TOTP code and then confirmed it. *)
Theorem client_auth_sound stdin pass t :
  exec (performClientAuth stdin pass) t None →
  ∃ payload ch,
    ReadN (Z.of_nat (length payload)) (Ok payload) ∈ t ∧ unmarshal payload = Some ch ∧
    (ac_Type ch = "auth_ok" ∨
     ac_Type ch = "auth_required" ∧ needsTOTP (ac_Methods ch) = true ∧
     ∃ payload' res,
       ReadN (Z.of_nat (length payload')) (Ok payload') ∈ t ∧
       unmarshal payload' = Some res ∧ as_Status res = "ok").
Proof.
  intros H. unfold performClientAuth, readAuthMessage in H.
  repeat (exec_step; simplify_eq; bools); try done;
    match goal with H : exec (readMessage _ AuthChallenge) _ _ |- _ =>
      apply exec_read in H as (hdr & payload & -> & Hu) end;
    exists payload, a; (split_and!; [set_solver|done|]); [by left|right].
  match goal with H : exec (readMessage _ AuthResult) _ _ |- _ =>
    apply exec_read in H as (hdr' & payload' & -> & Hu') end.
  split_and!; [done..|]. exists payload', a1. split_and!; [set_solver|done..].
Qed.

(** The client writes nothing, so reveals no passcode, before it has read a
    challenge that requires authentication and lists the [totp] method. *)
Theorem client_sends_only_when_asked stdin pass t b err :
  prefix_exec (performClientAuth stdin pass) t → Wrote b err ∈ t →
  ∃ payload ch,
    ReadN (Z.of_nat (length payload)) (Ok payload) ∈ t ∧ unmarshal payload = Some ch ∧
    ac_Type ch = "auth_required" ∧ str "totp" ∈ ac_Methods ch.
Proof.
  intros H Hw. unfold performClientAuth, readAuthMessage in H.
  apply prefix_exec_bind in H as [H|(t1 & t2 & r & -> & H1 & H)].
  { destruct (prefix_read_entry _ _ H Hw) as (? & ? & ? & _). done. }
  destruct r as [ch|e].
  - apply exec_read in H1 as (hdr & payload & -> & Hu). exists payload, ch.
    split_and!; [set_solver|done| |].
    all: repeat (match goal with H : prefix_exec (if ?c then _ else _) _ |- _ =>
           destruct c eqn:? end; bools); try done;
      try (exec_step; set_solver).
    unfold needsTOTP in *. apply existsb_exists in Heqb2 as (m & Hm & ->%seq_eqb_true).
    by apply list_elem_of_In.
  - exec_step. rewrite app_nil_r in Hw.
    destruct (prefix_read_entry _ _ (exec_prefix _ _ _ H1) Hw) as (? & ? & ? & _). done.
Qed.

(** The two ends of one connection, the server on the left. *)
Definition handshake validate secret stdin pass : Duplex.config (option error) (option error) :=
  Duplex.Config (performServerAuth validate secret) (performClientAuth stdin pass) [] [].

(** What the server does after it has asked for a passcode. *)
Definition awaiting_code (validate : bytes → bytes → bool) (secret : bytes) : prog connE (option error) :=
  resp <- readAuthMessage AuthResponse;;
  match resp with
  | Err e => Ret (Some e)
  | Ok resp =>
      if negb (ar_Type resp =s "auth") then
        let text := str "expected auth message, got " ++ ar_Type resp in
        sendAuthMessage (mkResult "error" text);;; Ret (Some (Errorf text))
      else if negb (validate (ar_TOTP resp) secret) then
        sendAuthMessage (mkResult "error" "invalid TOTP passcode");;;
        Ret (Some (Errorf "invalid TOTP passcode received"))
      else sendAuthMessage (mkResult "ok" "")
  end.

(** What the two ends return: [choice] is the passcode the client has, if it has one. *)
Definition verdicts (validate : bytes → bytes → bool) (secret : bytes) (choice : result bytes)
    : option error * option error :=
  if secret =s "" then (None, None)
  else match choice with
       | Err e => (Some EOF, Some e)
       | Ok code =>
           if validate code secret then (None, None)
           else (Some (Errorf "invalid TOTP passcode received"),
                 Some (Errorf "authentication failed: invalid TOTP passcode"))
       end.

(** A schedule that brings the exchange to its end, leaving nothing in either direction. *)
Definition handshake_schedule (secret : bytes) (choice : result bytes) : list bool :=
  match choice with
  | Ok _ =>
      if secret =s "" then [true; true; false; false]
      else [true; true; false; false; false; false; true; true; true; true; false; false]
  | Err _ => [true; true; false; false]
  end.

(** Where the server is then. *)
Definition handshake_server validate (secret : bytes) (choice : result bytes) : prog connE (option error) :=
  match choice with
  | Err _ => if secret =s "" then Ret None else awaiting_code validate secret
  | Ok _ => Ret (fst (verdicts validate secret choice))
  end.

Lemma handshake_follows validate secret stdin pass :
  (∀ code, chooseCode stdin pass = Ok code → fits (mkResponse "auth" code)) →
  Duplex.follow (handshake_schedule secret (chooseCode stdin pass)) (handshake validate secret stdin pass)
  = Some (Duplex.Config (handshake_server validate secret (chooseCode stdin pass))
            (Ret (snd (verdicts validate secret (chooseCode stdin pass)))) [] []).
Proof.
  intros Hfits.
  unfold handshake, handshake_schedule, handshake_server, performServerAuth, verdicts, performClientAuth, readAuthMessage.
  assert (Hch : fits (mkChallenge "auth_required" [str "totp"])) by (by repeat constructor).
  assert (Hok : fits (mkChallenge "auth_ok" [])) by (by repeat constructor).
  assert (Hv : fits (mkResult "ok" [])) by (by repeat constructor).
  assert (He : fits (mkResult "error" "invalid TOTP passcode")) by (by repeat constructor).
  destruct (secret =s "") eqn:Es.
  { destruct (chooseCode stdin pass); by rewrite send_l_last, app_nil_l, read_r0. }
  destruct (chooseCode stdin pass) as [code|e] eqn:Hcode;
    rewrite send_l, app_nil_l, read_r0 by done; cbn [ac_Type ac_Methods];
    change (needsTOTP [str "totp"]) with true;
    change (str "auth_required" =s "auth_ok") with false;
    change (str "auth_required" =s "auth_required") with true; cbv match; cbn [negb]; [|done].
  rewrite send_r, app_nil_l, read_l0 by by apply Hfits. cbn [ar_Type ar_TOTP].
  rewrite seq_eqb_refl. cbn [negb].
  destruct (validate code secret); cbn [negb].
  - rewrite send_l_last, app_nil_l, read_r0 by done. reflexivity.
  - rewrite send_l, app_nil_l, read_r0 by done. reflexivity.
Qed.

Lemma handshake_server_waits validate secret choice : Duplex.waits (handshake_server validate secret choice).
Proof. unfold handshake_server. destruct choice; [done|]. by destruct (secret =s ""). Qed.

(** When the client has hung up. *)
Lemma handshake_server_end validate secret choice :
  run wire (handshake_server validate secret choice) ([], []) = (fst (verdicts validate secret choice), ([], [])).
Proof. unfold handshake_server, verdicts. destruct choice; [done|]. by destruct (secret =s ""). Qed.

(** C13. Under every interleaving of the two ends the passcode exchange comes to an end, after
    four or twelve steps, and they agree.  Without a secret both succeed, whatever the client
    has.  With one, both succeed when the client has a valid passcode and both fail when it has
    an invalid one; a client that has none, and nobody to ask, fails without sending anything,
    and the server, left waiting, fails when the client closes the connection.  A passcode, if
    there is one, is text that fits into a message. *)
Theorem handshake_every_schedule validate secret stdin pass :
  (∀ code, chooseCode stdin pass = Ok code → fits (mkResponse "auth" code)) →
  Duplex.settles (handshake validate secret stdin pass)
    (if secret =s "" then 4 else match chooseCode stdin pass with Ok _ => 12 | Err _ => 4 end)
    (fst (verdicts validate secret (chooseCode stdin pass)))
    (snd (verdicts validate secret (chooseCode stdin pass))).
Proof.
  intros Hfits. pose proof (handshake_follows validate secret stdin pass Hfits) as Hf.
  replace (if secret =s "" then 4 else _)%nat with (length (handshake_schedule secret (chooseCode stdin pass)))
    by (unfold handshake_schedule; by destruct (secret =s ""), (chooseCode stdin pass)).
  eapply Duplex.settles_by_schedule; [exact Hf| |right; by eexists|].
  - intros e. apply Duplex.waiting_stuck; [apply handshake_server_waits|done].
  - unfold Duplex.hang_up. cbn [Duplex.left Duplex.right Duplex.to_left Duplex.to_right].
    by rewrite handshake_server_end.
Qed.

(** A message that fits is received as it was sent, whatever the interleaving
    of the sender and the receiver. *)
Theorem message_roundtrip {A} `{MessageLaws A} (v : A) :
  fits v →
  Duplex.completes
    (Duplex.Config (sendAuthMessage v) (r <- readAuthMessage A;; Ret r) [] []) 4 None (Ok v).
Proof.
  intros Hv. unfold readAuthMessage. eapply (Duplex.completes_by_schedule _ [true; true; false; false]).
  rewrite send_l_last, app_nil_l, read_r0 by done. reflexivity.
Qed.

(** The receiver never asks for more than ten mebibytes, and when the header
    announces more it fails right after the header, reading no body. *)
Theorem read_message_bounds {A} `{Message A} t (r : result A) :
  exec (readAuthMessage A) t r →
  (∀ n got, ReadN n got ∈ t → 0 ≤ n ≤ max_message) ∧
  (∀ hdr, head t = Some (ReadN 4 (Ok hdr)) → max_message < be_val 0 hdr →
     t = [ReadN 4 (Ok hdr)] ∧ ∃ e, r = Err e).
Proof.
  intros Hx. split.
  - intros n got Hin.
    destruct (prefix_read_entry _ _ (exec_prefix _ _ _ Hx) Hin) as (? & ? & ? & ?).
    by simplify_eq.
  - intros hdr Hh Hl. unfold readAuthMessage, readMessage in Hx.
    repeat (exec_step; simplify_eq/=; bools); try lia; eauto.
Qed.

(** ** Witnesses *)

Definition demo_validate (code secret : bytes) : bool := (code =s "123456") && (secret =s "JBSWY3DP").
Definition demo_answer (code : string) : bytes := frame (marshal (mkResponse "auth" code)).
Definition no_stdin : Stdin := mkStdin false (Err EOF).

Lemma server_auth_sound_witness :
  authenticated demo_validate "JBSWY3DP"
    (trace_of wire (performServerAuth demo_validate "JBSWY3DP") (demo_answer "123456", [])).
Proof.
  apply (server_auth_sound demo_validate "JBSWY3DP"); [done|].
  exact (wire_exec (performServerAuth demo_validate "JBSWY3DP") (demo_answer "123456")).
Defined.

Lemma client_auth_sound_witness :
  ∃ payload ch,
    ReadN (Z.of_nat (length payload)) (Ok payload) ∈
      trace_of wire (performClientAuth no_stdin "123456")
        (frame (marshal (mkChallenge "auth_ok" [])), []) ∧
    unmarshal payload = Some ch ∧
    (ac_Type ch = "auth_ok" ∨
     ac_Type ch = "auth_required" ∧ needsTOTP (ac_Methods ch) = true ∧
     ∃ payload' res,
       ReadN (Z.of_nat (length payload')) (Ok payload') ∈
         trace_of wire (performClientAuth no_stdin "123456")
           (frame (marshal (mkChallenge "auth_ok" [])), []) ∧
       unmarshal payload' = Some res ∧ as_Status res = "ok").
Proof.
  apply (client_auth_sound no_stdin "123456").
  exact (wire_exec (performClientAuth no_stdin "123456") (frame (marshal (mkChallenge "auth_ok" [])))).
Defined.

Definition demo_challenge : bytes := frame (marshal (mkChallenge "auth_required" [str "totp"])).

Lemma client_sends_only_when_asked_witness :
  ∃ payload ch,
    ReadN (Z.of_nat (length payload)) (Ok payload) ∈
      trace_of wire (performClientAuth no_stdin "123456") (demo_challenge, []) ∧
    unmarshal payload = Some ch ∧ ac_Type ch = "auth_required" ∧ str "totp" ∈ ac_Methods ch.
Proof.
  apply (client_sends_only_when_asked no_stdin "123456" _
           (marshal (mkResponse "auth" "123456")) None).
  - eapply exec_prefix. exact (wire_exec (performClientAuth no_stdin "123456") demo_challenge).
  - vm_compute. right. right. right. left.
Defined.

(** The right passcode; none, where none is asked for; and none where one is. *)
Lemma handshake_every_schedule_witness :
  Duplex.settles (handshake demo_validate "JBSWY3DP" no_stdin " 123456 ") 12 None None ∧
  Duplex.settles (handshake demo_validate "" no_stdin "") 4 None None ∧
  ∃ e, Duplex.settles (handshake demo_validate "JBSWY3DP" no_stdin "") 4 (Some EOF) (Some e).
Proof.
  split_and!; [| |eexists].
  - apply (handshake_every_schedule demo_validate "JBSWY3DP" no_stdin " 123456 ").
    intros code [= <-]. by repeat constructor.
  - by apply (handshake_every_schedule demo_validate "" no_stdin "").
  - by apply (handshake_every_schedule demo_validate "JBSWY3DP" no_stdin "").
Defined.

Lemma message_roundtrip_witness :
  Duplex.completes
    (Duplex.Config (sendAuthMessage (mkResult "error" "no")) (r <- readAuthMessage AuthResult;; Ret r)
       [] []) 4 None (Ok (mkResult "error" "no")).
Proof. apply (message_roundtrip (mkResult "error" "no")). by repeat constructor. Defined.

Lemma read_message_bounds_witness :
  (∀ n got, ReadN n got ∈
     trace_of wire (readAuthMessage AuthResult) ([xff; xff; xff; xff; x00], []) →
     0 ≤ n ≤ max_message) ∧
  (∀ hdr, head (trace_of wire (readAuthMessage AuthResult) ([xff; xff; xff; xff; x00], []))
          = Some (ReadN 4 (Ok hdr)) → max_message < be_val 0 hdr →
     trace_of wire (readAuthMessage AuthResult) ([xff; xff; xff; xff; x00], [])
       = [ReadN 4 (Ok hdr)] ∧
     ∃ e, fst (run wire (readAuthMessage AuthResult) ([xff; xff; xff; xff; x00], [])) = Err e).
Proof.
  apply (read_message_bounds (A := AuthResult)).
  exact (wire_exec (readMessage _ AuthResult) [xff; xff; xff; xff; x00]).
Defined.
