(* ===== verification/WebRTC.v ===== *)
(** * Signalling and the upgrade to a direct connection (webrtc.go)

    After the handshake over the relay, client and server exchange signals to open a
    WebRTC data channel.  The signals are modelled down to their bytes; pion's peer
    connection is the environment, asked through [rtcE].  Here are the two negotiation functions,
    the callback and the candidate loop one by one; Negotiation.v runs them together. *)

From S2P Require Import Prelude GoStrings Utf8 Json Effects Conn Auth.

(** ** Signals *)

Record ICECandidateInit := mkCandidate {
  Candidate : bytes;
  SDPMid : option bytes;
  SDPMLineIndex : option Z;  (* a uint16 *)
  UsernameFragment : option bytes;
}.

Record SignalMessage := mkSignal {
  sg_Type : bytes;
  sg_SDP : bytes;
  sg_Candidate : option ICECandidateInit;
}.

Definition json_ptr {A} (f : A → json) (o : option A) : json :=
  match o with Some a => f a | None => JNull end.

Definition candidate_json (c : ICECandidateInit) : json :=
  JObj [(str "candidate", JStr (Candidate c)); (str "sdpMid", json_ptr JStr (SDPMid c));
        (str "sdpMLineIndex", json_ptr (λ z, JNum (Itoa z)) (SDPMLineIndex c));
        (str "usernameFragment", json_ptr JStr (UsernameFragment c))].

Definition no_candidate : ICECandidateInit := mkCandidate [] None None None.

Definition candidate_fill (c : ICECandidateInit) (o : list (bytes * json)) : option ICECandidateInit :=
  s ← string_field "candidate" (Candidate c) o;
  m ← string_ptr_field "sdpMid" (SDPMid c) o;
  i ← uint16_ptr_field "sdpMLineIndex" (SDPMLineIndex c) o;
  u ← string_ptr_field "usernameFragment" (UsernameFragment c) o;
  Some (mkCandidate s m i u).

#[global] Instance signal_message : Message SignalMessage := {|
  marshal v := print (JObj ((str "type", JStr (sg_Type v)) :: omit_empty "sdp" (sg_SDP v) ++
    match sg_Candidate v with None => [] | Some c => [(str "candidate", candidate_json c)] end));
  unmarshal b :=
    o ← struct_of b;
    t ← string_field "type" [] o; s ← string_field "sdp" [] o;
    c ← struct_ptr_field no_candidate candidate_fill "candidate" None o;
    Some (mkSignal t s c);
|}.

Definition sendSignal (msg : SignalMessage) : prog connE (option error) :=
  let b := marshal msg in
  err <- trigger (Write (be_bytes 4 (u32 (Z.of_nat (length b)))));;
  match err with
  | Some e => Ret (Some e)
  | None => trigger (Write b)
  end.

Definition readSignal : prog connE (result SignalMessage) :=
  readMessage (λ _, Errorf "message too large") SignalMessage.

Definition signal (type : bytes) : SignalMessage := mkSignal type [] None.

(** ** What the negotiation asks of the peer connection *)

Inductive sdp_kind : Type := SDPTypeOffer | SDPTypeAnswer.

Inductive await_result : Type :=
| Open                    (* the data channel opened and was detached *)
| Done (e : error)        (* the context ended *)
| TimedOut.               (* fifteen seconds *)

Inductive rtcE : Type → Type :=
| Sig {X} (e : connE X) : rtcE X
| NewPeerConnection : rtcE (option error)
| CreateDataChannel (label : bytes) : rtcE (option error)
| CreateOffer : rtcE (result bytes)
| CreateAnswer : rtcE (result bytes)
| SetLocalDescription (kind : sdp_kind) (sdp : bytes) : rtcE (option error)
| SetRemoteDescription (kind : sdp_kind) (sdp : bytes) : rtcE (option error)
| SpawnReader : rtcE unit
| Await : rtcE await_result
| ClosePC : rtcE unit.

Inductive rtc_entry : Type :=
| Signalled (e : conn_entry)
| NewedPC (r : option error)
| CreatedChannel (label : bytes) (r : option error)
| Offered (r : result bytes)
| Answered (r : result bytes)
| SetLocal (kind : sdp_kind) (sdp : bytes) (r : option error)
| SetRemote (kind : sdp_kind) (sdp : bytes) (r : option error)
| SpawnedReader
| Awaited (r : await_result)
| ClosedPC.

Definition rtc_log {X} (e : rtcE X) : X → rtc_entry :=
  match e in rtcE X return X → rtc_entry with
  | Sig e => λ x, Signalled (conn_log e x)
  | NewPeerConnection => NewedPC
  | CreateDataChannel l => CreatedChannel l
  | CreateOffer => Offered
  | CreateAnswer => Answered
  | SetLocalDescription k s => SetLocal k s
  | SetRemoteDescription k s => SetRemote k s
  | SpawnReader => λ _, SpawnedReader
  | Await => Awaited
  | ClosePC => λ _, ClosedPC
  end.

Definition rtc_ok {X} (e : rtcE X) : X → Prop :=
  match e in rtcE X return X → Prop with
  | Sig e => conn_ok e
  | _ => λ _, True
  end.

#[global] Instance rtc_effect : Effect rtcE :=
  {| entry := rtc_entry; log X e := rtc_log e; resp_ok X e := rtc_ok e |}.

Definition over_relay {R} (p : prog connE R) : prog rtcE R := translate (@Sig) p.

(** ** The client *)

Definition closing {R} (r : R) : prog rtcE R := trigger ClosePC ;;; Ret r.

(** The connection to use, or why there is none.  This is the function itself; the callback it
    registers and the goroutine it starts ([SpawnReader]) are [onICECandidate] and
    [candidate_reader] below, and run beside it in Negotiation.v. *)
Definition negotiateWebRTCClient : prog rtcE (option error) :=
  pc <- trigger NewPeerConnection ;;
  match pc with
  | Some e => Ret (Some e)
  | None =>
  dc <- trigger (CreateDataChannel "data") ;;
  match dc with
  | Some e => closing (Some e)
  | None =>
  offer <- trigger CreateOffer ;;
  match offer with
  | Err e => closing (Some e)
  | Ok offer =>
  l <- trigger (SetLocalDescription SDPTypeOffer offer) ;;
  match l with
  | Some e => closing (Some e)
  | None =>
  s <- over_relay (sendSignal (mkSignal "offer" offer None)) ;;
  match s with
  | Some e => closing (Some e)
  | None =>
  resp <- over_relay readSignal ;;
  match resp with
  | Err e => closing (Some e)
  | Ok resp =>
  if sg_Type resp =s "fallback" then closing (Some (Errorf "server requested fallback"))
  else if negb (sg_Type resp =s "answer")
  then closing (Some (Errorf (str "expected answer, got " ++ sg_Type resp)))
  else
  r <- trigger (SetRemoteDescription SDPTypeAnswer (sg_SDP resp)) ;;
  match r with
  | Some e => closing (Some e)
  | None =>
  trigger SpawnReader ;;;
  w <- trigger Await ;;
  match w with
  | Open => Ret None
  | Done e => closing (Some e)
  | TimedOut => closing (Some (Errorf "timeout waiting for WebRTC connection"))
  end end end end end end end end.

(** ** The server *)

(** The three results [(conn, false, nil)], [(nil, true, err)], [(nil, false, err)]. *)
Inductive negotiated : Type :=
| Direct
| Fallback (e : option error)
| Broken (e : error).

(** Gives up on the upgrade and tells the client so. *)
Definition abandon (e : error) : prog rtcE negotiated :=
  over_relay (sendSignal (signal "fallback")) ;;; Ret (Fallback (Some e)).

(** The function itself, like the client's. *)
Definition negotiateWebRTCServer : prog rtcE negotiated :=
  msg <- over_relay readSignal ;;
  match msg with
  | Err e => Ret (Broken e)
  | Ok msg =>
  if sg_Type msg =s "fallback" then Ret (Fallback None)
  else if negb (sg_Type msg =s "offer")
  then Ret (Broken (Errorf (str "expected offer, got " ++ sg_Type msg)))
  else
  pc <- trigger NewPeerConnection ;;
  match pc with
  | Some e => abandon e
  | None =>
  r <- trigger (SetRemoteDescription SDPTypeOffer (sg_SDP msg)) ;;
  match r with
  | Some e => trigger ClosePC ;;; abandon e
  | None =>
  answer <- trigger CreateAnswer ;;
  match answer with
  | Err e => trigger ClosePC ;;; abandon e
  | Ok answer =>
  l <- trigger (SetLocalDescription SDPTypeAnswer answer) ;;
  match l with
  | Some e => trigger ClosePC ;;; abandon e
  | None =>
  s <- over_relay (sendSignal (mkSignal "answer" answer None)) ;;
  match s with
  | Some e => closing (Broken e)
  | None =>
  trigger SpawnReader ;;;
  w <- trigger Await ;;
  match w with
  | Open => Ret Direct
  | Done e => closing (Broken e)
  | TimedOut => closing (Broken (Errorf "timeout waiting for WebRTC connection"))
  end end end end end end end.

(** ** Candidates, from the callbacks and goroutines *)

(** The [OnICECandidate] callback; it gets nil when gathering ends. *)
Definition onICECandidate (c : option ICECandidateInit) : prog connE unit :=
  match c with
  | None => Ret tt
  | Some init => sendSignal (mkSignal "candidate" [] (Some init)) ;;; Ret tt
  end.

(** The background loop after the descriptions are set: it ends at the first read
    error.  The result is what was handed to [AddICECandidate]; [fuel] bounds the
    number of signals. *)
Fixpoint candidate_reader (fuel : nat) : prog connE (list ICECandidateInit) :=
  match fuel with
  | O => Ret []
  | S fuel =>
      msg <- readSignal ;;
      match msg with
      | Err _ => Ret []
      | Ok msg =>
          rest <- candidate_reader fuel ;;
          Ret (match sg_Candidate msg with
               | Some c => if sg_Type msg =s "candidate" then c :: rest else rest
               | None => rest
               end)
      end
  end.

(** What [RunClient] does with the outcome: whether the direct connection is used. *)
Definition client_upgrade : prog rtcE bool :=
  err <- negotiateWebRTCClient ;;
  match err with
  | Some _ => over_relay (sendSignal (signal "fallback")) ;;; Ret false
  | None => Ret true
  end.

(** ** Signals survive the trip *)

Definition candidate_ok (c : ICECandidateInit) : Prop :=
  ValidUtf8 (Candidate c) = true ∧
  (∀ s, SDPMid c = Some s → ValidUtf8 s = true) ∧
  (∀ z, SDPMLineIndex c = Some z → 0 ≤ z < 2 ^ 16) ∧
  (∀ s, UsernameFragment c = Some s → ValidUtf8 s = true).

Lemma json_ptr_ok {A} d (f : A → json) o :
  (∀ a, o = Some a → json_ok d (f a)) → json_ok d (json_ptr f o).
Proof. destruct o; cbn; [auto|by destruct d]. Qed.

Lemma candidate_json_ok d c : candidate_ok c → json_ok (S d) (candidate_json c).
Proof.
  intros (H1 & H2 & H3 & H4). unfold candidate_json. cbn [json_ok].
  repeat (apply Forall_cons; split); [split; [done|]; cbn [snd]..|by apply Forall_nil].
  - by destruct d.
  - apply json_ptr_ok. intros s Hs. destruct d; by apply H2.
  - apply json_ptr_ok. intros z Hz. destruct d; by exists z.
  - apply json_ptr_ok. intros s Hs. destruct d; by apply H4.
Qed.

Lemma candidate_fill_json c :
  candidate_ok c →
  ∃ o, candidate_json c = JObj o ∧ candidate_fill no_candidate o = Some c.
Proof.
  intros (_ & _ & H3 & _). eexists. split; [reflexivity|]. destruct c as [s m i u].
  cbn [Candidate SDPMid SDPMLineIndex UsernameFragment] in *.
  unfold candidate_fill, no_candidate. cbn [SDPMid SDPMLineIndex UsernameFragment Candidate].
  destruct m, u, i as [z|]; try reflexivity.
  all: specialize (H3 z eq_refl).
  all: cbn -[ParseUint Itoa Z.ltb Z.pow]; rewrite ParseUint_Itoa by (unfold max_uint64; lia);
    cbn -[Z.ltb Z.pow]; by rewrite (proj2 (Z.ltb_lt _ _)) by lia.
Qed.

#[global] Program Instance signal_laws : MessageLaws SignalMessage := {|
  msg_ok v := ValidUtf8 (sg_Type v) = true ∧ ValidUtf8 (sg_SDP v) = true ∧
              (∀ c, sg_Candidate v = Some c → candidate_ok c)
|}.
Next Obligation.
  intros [t s c] (Ht & Hs & Hc). cbn -[print struct_of candidate_json] in *.
  assert (Hp : Forall (λ kv, ValidUtf8 (fst kv) = true ∧ json_ok 2 (snd kv))
    ((str "type", JStr t) :: omit_empty "sdp" s ++
     match c with None => [] | Some c => [(str "candidate", candidate_json c)] end)).
  { constructor; [done|]. apply Forall_app. split; [by apply omit_empty_ok|].
    destruct c as [c|]; [|by apply Forall_nil]. apply Forall_singleton.
    split; [done|]. by apply candidate_json_ok, Hc. }
  unfold struct_of. rewrite (parse_print 3) by done. cbn -[candidate_json struct_ptr_field].
  destruct c as [c|].
  - destruct (candidate_fill_json c (Hc c eq_refl)) as (o & -> & Hf).
    destruct s; cbn -[candidate_fill]; by rewrite Hf.
  - by destruct s.
Qed.

(** A signal is framed the way an authentication message is. *)
Lemma sendSignal_frame msg : sendSignal msg = sendAuthMessage msg.
Proof. reflexivity. Qed.

(** A signal that fits is received as it was sent, whatever the interleaving of
    the two ends. *)
Theorem signal_roundtrip msg :
  fits msg →
  Duplex.completes
    (Duplex.Config (sendSignal msg) (r <- readSignal;; Ret r) [] []) 4 None (Ok msg).
Proof.
  intros Hm. rewrite sendSignal_frame.
  eapply (Duplex.completes_by_schedule _ [true; true; false; false]).
  rewrite send_l_last, app_nil_l. unfold readSignal. rewrite read_r0 by done. reflexivity.
Qed.

(** *** A stream of candidates *)

Definition candidate_signal (c : ICECandidateInit) : SignalMessage :=
  mkSignal "candidate" [] (Some c).

Lemma run_readSignal msg inp out :
  fits msg → run wire readSignal (frame (marshal msg) ++ inp, out) = (Ok msg, (inp, out)).
Proof.
  apply run_readMessage.
Qed.

(** The candidates the callbacks send, one after the other, are the ones the
    background loop of the other side hands to its peer connection, in order; the
    loop ends when the peer closes the stream. *)
Theorem candidates_delivered cs fuel :
  Forall (λ c, fits (candidate_signal c)) cs → (length cs < fuel)%nat →
  fst (run wire (candidate_reader fuel)
         (concat (map (λ c, frame (marshal (candidate_signal c))) cs), [])) = cs.
Proof.
  intros Hcs. revert fuel. induction Hcs as [|c cs Hc _ IH]; intros [|fuel] Hf; cbn in Hf; try lia.
  - reflexivity.
  - cbn [candidate_reader map concat]. rewrite run_bind, run_readSignal by done.
    cbv beta iota zeta. cbn [sg_Candidate sg_Type candidate_signal]. rewrite run_bind.
    specialize (IH fuel ltac:(lia)). destruct (run wire _ _) as [r s]. cbn in IH. by subst r.
Qed.

(** ** The upgrade leaves nothing behind *)

Lemma exec_over_relay {R} (p : prog connE R) t r :
  exec (over_relay p) t r ↔ ∃ t0, t = map Signalled t0 ∧ exec p t0 r.
Proof. by apply (exec_translate (H := conn_effect) (H0 := rtc_effect) (@Sig) Signalled). Qed.

Lemma over_relay_no_pc {R} (p : prog connE R) t r e :
  exec (over_relay p) t r → e ∈ t → ∃ e0, e = Signalled e0.
Proof. intros (t0 & -> & _)%exec_over_relay (x & -> & _)%list_elem_of_fmap. eauto. Qed.


(** A peer connection that was opened was also closed, unless the direct connection
    built on it is the result. *)
Definition pc_released (t : list rtc_entry) (direct : Prop) : Prop :=
  (NewedPC None ∈ t → direct ∨ ClosedPC ∈ t) ∧ (direct → (ClosedPC ∉ t) ∧ Awaited Open ∈ t).

Lemma map_Signalled_not t0 e : (∀ e0, e ≠ Signalled e0) → e ∉ map Signalled t0.
Proof. intros He (x & -> & _)%list_elem_of_fmap. by eapply He. Qed.

Ltac negotiation Ht :=
  unfold negotiateWebRTCClient, negotiateWebRTCServer, closing, abandon in Ht;
  repeat first
    [ match goal with H : exec (over_relay _) _ _ |- _ =>
        apply exec_over_relay in H; destruct H as (? & -> & ?) end
    | match goal with H : exec (sendSignal _) _ _ |- _ => clear H
                    | H : exec readSignal _ _ |- _ => clear H end
    | exec_step; simplify_eq ].

Lemma client_released t r : exec negotiateWebRTCClient t r → pc_released t (r = None).
Proof.
  intros Ht. negotiation Ht; cbn [app]; (split; [|intros ?; simplify_eq; split]); set_solver.
Qed.

Lemma server_released t r : exec negotiateWebRTCServer t r → pc_released t (r = Direct).
Proof.
  intros Ht. negotiation Ht; cbn [app]; (split; [|intros ?; simplify_eq; split]); set_solver.
Qed.

(** C33. Every way out of the negotiation releases what it took: a peer connection
    that was opened is closed again, on the client and on the server, on every
    error, timeout and fallback; the only exception is success, where the data
    channel has opened and the connection that is returned uses it. *)
Theorem negotiation_releases t :
  (∀ r, exec negotiateWebRTCClient t r → pc_released t (r = None)) ∧
  (∀ r, exec negotiateWebRTCServer t r → pc_released t (r = Direct)).
Proof. split; intros r; [apply client_released|apply server_released]. Qed.

(** ** Both ends together

    [pion] fixes what the peer connection library answers; what is left of a
    negotiation is then a program over the relay connection. *)

Record pion := mkPion {
  p_new : option error;
  p_channel : option error;
  p_offer : result bytes;
  p_answer : result bytes;
  p_local : option error;
  p_remote : option error;
  p_await : await_result;
}.

(** The answer of the library; the relay connection is answered elsewhere. *)
Definition pion_answer (o : pion) {X} (e : rtcE X) : X :=
  match e in rtcE X return X with
  | Sig e => match e in connE X return X with Write _ => None | ReadFull _ => Err EOF end
  | NewPeerConnection => p_new o
  | CreateDataChannel _ => p_channel o
  | CreateOffer => p_offer o
  | CreateAnswer => p_answer o
  | SetLocalDescription _ _ => p_local o
  | SetRemoteDescription _ _ => p_remote o
  | SpawnReader | ClosePC => tt
  | Await => p_await o
  end.

Fixpoint with_pion {R} (o : pion) (p : prog rtcE R) : prog connE R :=
  match p with
  | Ret r => Ret r
  | @Vis _ _ X e k =>
      match e in rtcE X return (X → prog connE R) → prog connE R with
      | Sig e => λ k, Vis e k
      | NewPeerConnection => λ k, k (p_new o)
      | CreateDataChannel _ => λ k, k (p_channel o)
      | CreateOffer => λ k, k (p_offer o)
      | CreateAnswer => λ k, k (p_answer o)
      | SetLocalDescription _ _ => λ k, k (p_local o)
      | SetRemoteDescription _ _ => λ k, k (p_remote o)
      | SpawnReader => λ k, k tt
      | Await => λ k, k (p_await o)
      | ClosePC => λ k, k tt
      end (λ x, with_pion o (k x))
  end.

Lemma with_pion_relay {R S} o (p : prog connE R) (k : R → prog rtcE S) :
  with_pion o (pbind (over_relay p) k) = pbind p (λ r, with_pion o (k r)).
Proof.
  apply peq_eq. induction p as [r|X e f IH]; cbn; [apply peq_refl|]. eexists. split; [done|]. apply IH.
Qed.

Lemma fallback_fits : fits (signal "fallback").
Proof. repeat constructor; done. Qed.

(** When the server cannot open a peer connection it tells the client to fall
    back and goes on to the data; the client answers with a fallback signal of its
    own.  Under every schedule that signal is left in front of the client's data,
    where the server's data phase reads it as payload. *)
Theorem stray_fallback o_s o_c offer e :
  p_new o_s = Some e → p_new o_c = None → p_channel o_c = None → p_offer o_c = Ok offer →
  p_local o_c = None → fits (mkSignal "offer" offer None) →
  Duplex.ends_in
    (Duplex.Config (with_pion o_s negotiateWebRTCServer) (with_pion o_c client_upgrade) [] []) 10
    (Duplex.Config (Ret (Fallback (Some e))) (Ret false) (frame (marshal (signal "fallback"))) []).
Proof.
  intros Hs H1 H2 H3 H4 Hf. unfold client_upgrade, negotiateWebRTCClient.
  apply (Duplex.ends_in_by_schedule _
    [false; false; true; true; true; true; false; false; false; false]).
  cbn [with_pion pbind trigger]. rewrite H1. cbn [with_pion pbind trigger]. rewrite H2.
  cbn [with_pion pbind trigger]. rewrite H3. cbn [with_pion pbind trigger]. rewrite H4.
  rewrite pbind_assoc_eq, with_pion_relay, sendSignal_frame, send_r, app_nil_l.
  unfold negotiateWebRTCServer. rewrite with_pion_relay. unfold readSignal at 1.
  rewrite read_l0 by done. cbv beta iota. cbn [sg_Type].
  change (str "offer" =s "fallback") with false. change (str "offer" =s "offer") with true.
  cbn [negb with_pion pbind trigger]. rewrite Hs. unfold abandon.
  rewrite with_pion_relay, sendSignal_frame, send_l, app_nil_l.
  cbn [with_pion]. rewrite pbind_assoc_eq, with_pion_relay. unfold readSignal.
  rewrite read_r0 by exact fallback_fits. cbv beta iota. cbn [sg_Type signal].
  change (str "fallback" =s "fallback") with true.
  cbn [pbind closing trigger with_pion]. cbv iota.
  rewrite with_pion_relay, send_r. reflexivity.
Qed.

(** A peer connection library with which nothing fails, given the two descriptions. *)
Record works (o : pion) (offer answer : bytes) : Prop := mkWorks {
  w_new : p_new o = None;
  w_channel : p_channel o = None;
  w_offer : p_offer o = Ok offer;
  w_answer : p_answer o = Ok answer;
  w_local : p_local o = None;
  w_remote : p_remote o = None;
  w_await : p_await o = Open;
}.

Definition upgrade_schedule : list bool := [false; false; true; true; true; true; false; false].

(** When nothing fails, both ends agree on the direct connection. *)
Lemma upgrade_follows o_s o_c offer answer :
  works o_s offer answer → works o_c offer answer →
  fits (mkSignal "offer" offer None) → fits (mkSignal "answer" answer None) →
  Duplex.follow upgrade_schedule
    (Duplex.Config (with_pion o_s negotiateWebRTCServer) (with_pion o_c client_upgrade) [] [])
  = Some (Duplex.Config (Ret Direct) (Ret true) [] []).
Proof.
  intros [S1 _ _ S4 S5 S6 S7] [C1 C2 C3 _ C5 C6 C7] Ho Ha.
  unfold upgrade_schedule, client_upgrade, negotiateWebRTCClient.
  cbn [with_pion pbind trigger]. rewrite C1. cbn [with_pion pbind trigger]. rewrite C2.
  cbn [with_pion pbind trigger]. rewrite C3. cbn [with_pion pbind trigger]. rewrite C5.
  rewrite pbind_assoc_eq, with_pion_relay, sendSignal_frame, send_r, app_nil_l.
  unfold negotiateWebRTCServer. rewrite with_pion_relay. unfold readSignal at 1.
  rewrite read_l0 by done. cbv beta iota. cbn [sg_Type sg_SDP].
  change (str "offer" =s "fallback") with false. change (str "offer" =s "offer") with true.
  cbn [negb with_pion pbind trigger]. rewrite S1. cbn [with_pion pbind trigger]. rewrite S6.
  cbn [with_pion pbind trigger]. rewrite S4. cbn [with_pion pbind trigger]. rewrite S5.
  rewrite with_pion_relay, sendSignal_frame, send_l, app_nil_l.
  rewrite pbind_assoc_eq, with_pion_relay. unfold readSignal. rewrite read_r0 by done.
  cbv beta iota. cbn [sg_Type sg_SDP].
  change (str "answer" =s "fallback") with false. change (str "answer" =s "answer") with true.
  cbn [negb with_pion pbind trigger]. rewrite S7, C6. cbn [with_pion pbind trigger]. by rewrite C7.
Qed.

(** *** Data where a signal is due *)

Lemma be_val_first b (l : bytes) :
  b ≠ x00 → 256 ^ Z.of_nat (length l) ≤ be_val 0 (b :: l).
Proof.
  intros Hb. cbn [be_val]. rewrite be_val_acc.
  pose proof (be_val_bound l). pose proof (byteZ_range b).
  assert (byteZ b ≠ 0) by (intros Hz; apply Hb, byteZ_inj; exact Hz). nia.
Qed.

(** The server reads a signal first.  Less than four bytes do not move it. *)
Lemma server_awaits_signal o data :
  (length data < 4)%nat → Duplex.step1 (with_pion o negotiateWebRTCServer) data = None.
Proof.
  intros Hl. unfold negotiateWebRTCServer. rewrite with_pion_relay. unfold readSignal, readMessage.
  cbn -[Z.leb]. by rewrite (proj2 (Z.leb_gt _ _)) by lia.
Qed.

Lemma server_not_done o r : with_pion o negotiateWebRTCServer ≠ Ret r.
Proof. unfold negotiateWebRTCServer. by rewrite with_pion_relay. Qed.

(** Of data that does not start with a zero it takes four bytes, for the length of a signal, and
    gives up. *)
Lemma server_reads_data o b1 b2 b3 b4 data :
  b1 ≠ x00 →
  Duplex.step1 (with_pion o negotiateWebRTCServer) (b1 :: b2 :: b3 :: b4 :: data)
  = Some (Ret (Broken (Errorf "message too large")), data, []).
Proof.
  intros Hb. unfold negotiateWebRTCServer. rewrite with_pion_relay. unfold readSignal, readMessage.
  cbn -[take drop be_val max_message Z.leb Z.ltb length].
  rewrite (proj2 (Z.leb_le 4 _)) by (cbn [length]; lia).
  cbn -[be_val max_message Z.ltb].
  rewrite (proj2 (Z.ltb_lt _ _)); [done|].
  change (take (Z.to_nat 4) (b1 :: b2 :: b3 :: b4 :: data)) with [b1; b2; b3; b4].
  pose proof (be_val_first b1 [b2; b3; b4] Hb) as Hv. unfold max_message. cbn [length] in Hv.
  change (256 ^ Z.of_nat 3) with 16777216 in Hv. lia.
Qed.

(** *** Two senders at once *)

Lemma parse_nul b : parse (x00 :: b) = None.
Proof. reflexivity. Qed.

Lemma be_bytes_small z : 0 ≤ z < 2 ^ 24 → ∃ t, be_bytes 4 z = x00 :: t.
Proof.
  intros Hz. cbn [be_bytes app]. eexists.
  assert (z / 256 / 256 / 256 = 0) as -> by (rewrite !Z.div_div by lia; apply Z.div_small; lia).
  reflexivity.
Qed.

Lemma marshal_nonempty (m : SignalMessage) : marshal m ≠ [].
Proof. done. Qed.

(** A signal is two writes, and the candidate callback may run between the two
    writes of an offer or an answer.  Then the reader's frame starts with the other
    signal's length, and no such frame is ever a valid signal. *)
Theorem interleaved_signals_lost m1 m2 rest out :
  fits m1 → fits m2 →
  let hdr m := be_bytes 4 (u32 (Z.of_nat (length (marshal m)))) in
  ∃ b s, run wire readSignal (hdr m1 ++ hdr m2 ++ marshal m1 ++ marshal m2 ++ rest, out)
         = (Err (JSONError b), s).
Proof.
  intros [_ Hl1] [_ Hl2] hdr. unfold max_message in *.
  assert (H2 : 0 ≤ u32 (Z.of_nat (length (marshal m2))) < 2 ^ 24).
  { unfold u32. rewrite Z.mod_small; lia. }
  destruct (be_bytes_small _ H2) as [t Ht]. unfold hdr. rewrite Ht.
  set (stream := (x00 :: t) ++ marshal m1 ++ marshal m2 ++ rest).
  assert (Hn : (length (marshal m1) ≤ length stream)%nat)
    by (unfold stream; rewrite !length_app; lia).
  assert (Hb : length (take (length (marshal m1)) stream) = length (marshal m1))
    by (rewrite length_take; lia).
  assert (Hs : be_bytes 4 (u32 (Z.of_nat (length (marshal m1)))) ++ stream
    = frame (take (length (marshal m1)) stream) ++ drop (length (marshal m1)) stream)
    by (unfold frame; by rewrite Hb, <- app_assoc, take_drop).
  change ((x00 :: t) ++ marshal m1 ++ marshal m2 ++ rest) with stream.
  rewrite Hs. unfold readSignal. rewrite run_readMessage_body by (rewrite Hb; done).
  destruct (marshal m1) as [|c b1] eqn:E1; [by apply marshal_nonempty in E1|].
  unfold stream. cbn [length app take].
  change (unmarshal (x00 :: ?b)) with (@None SignalMessage). eauto.
Qed.

(** ** The theorems at concrete inputs *)

Definition candidate_wit : ICECandidateInit :=
  mkCandidate "candidate:1 1 udp 2130706431 192.0.2.7 51234 typ host" (Some (str "0")) (Some 0) None.

Lemma candidate_wit_ok : candidate_ok candidate_wit.
Proof. unfold candidate_ok. split_and!; [done|..]; intros ? [= <-]; done. Qed.

Lemma candidate_wit_fits : fits (candidate_signal candidate_wit).
Proof.
  split; [|by vm_compute]. split_and!; [done|done|]. intros c [= <-]. exact candidate_wit_ok.
Qed.

Lemma signal_roundtrip_witness :
  Duplex.completes
    (Duplex.Config (sendSignal (candidate_signal candidate_wit)) (r <- readSignal;; Ret r) [] [])
    4 None (Ok (candidate_signal candidate_wit)).
Proof. exact (signal_roundtrip (candidate_signal candidate_wit) candidate_wit_fits). Defined.

Lemma candidates_delivered_witness :
  fst (run wire (candidate_reader 3)
    (concat (map (λ c, frame (marshal (candidate_signal c))) [candidate_wit; candidate_wit]), []))
  = [candidate_wit; candidate_wit].
Proof.
  apply (candidates_delivered [candidate_wit; candidate_wit] 3); [|cbn; lia].
  apply Forall_cons; split; [apply candidate_wit_fits|].
  apply Forall_singleton, candidate_wit_fits.
Defined.

Definition pion_ok : pion := mkPion None None (Ok (str "v=0")) (Ok (str "v=0")) None None Open.
Definition pion_none : pion :=
  mkPion (Some (LibErr "no network")) None (Ok []) (Ok []) None None TimedOut.

Lemma offer_fits : fits (mkSignal "offer" "v=0" None).
Proof. split; [|by vm_compute]. by split_and!. Qed.

Lemma answer_fits : fits (mkSignal "answer" "v=0" None).
Proof. split; [|by vm_compute]. by split_and!. Qed.

Lemma stray_fallback_witness :
  Duplex.ends_in
    (Duplex.Config (with_pion pion_none negotiateWebRTCServer) (with_pion pion_ok client_upgrade)
       [] []) 10
    (Duplex.Config (Ret (Fallback (Some (LibErr "no network")))) (Ret false)
       (frame (jtext "{'type':'fallback'}")) []).
Proof.
  exact (stray_fallback pion_none pion_ok "v=0" (LibErr "no network")
    eq_refl eq_refl eq_refl eq_refl eq_refl offer_fits).
Defined.

Lemma interleaved_signals_lost_witness :
  let hdr m := be_bytes 4 (u32 (Z.of_nat (length (marshal m)))) in
  ∃ b s, run wire readSignal
    (hdr (mkSignal "offer" "v=0" None) ++ hdr (candidate_signal candidate_wit)
     ++ marshal (mkSignal "offer" "v=0" None) ++ marshal (candidate_signal candidate_wit) ++ [], [])
    = (Err (JSONError b), s).
Proof.
  exact (interleaved_signals_lost (mkSignal "offer" "v=0" None) (candidate_signal candidate_wit)
    [] [] offer_fits candidate_wit_fits).
Defined.

(** A relay whose peer sends an offer, and a peer connection that opens. *)
Definition rtc_wit : handler rtcE (bytes * bytes) := λ X e s,
  match e in rtcE X return X * (bytes * bytes) with
  | Sig e => wire _ e s
  | NewPeerConnection | CreateDataChannel _ => (None, s)
  | CreateOffer | CreateAnswer => (Ok (str "v=0"), s)
  | SetLocalDescription _ _ | SetRemoteDescription _ _ => (None, s)
  | SpawnReader | ClosePC => (tt, s)
  | Await => (Open, s)
  end.

Lemma rtc_wit_ok X (e : rtcE X) s : resp_ok e (fst (rtc_wit X e s)).
Proof. destruct e; try done. apply wire_ok. Qed.

Lemma negotiation_releases_witness :
  pc_released (trace_of rtc_wit negotiateWebRTCServer (frame (marshal (mkSignal "offer" "v=0" None)), []))
    (Direct = Direct).
Proof.
  exact (proj2 (negotiation_releases _) _ (run_exec rtc_wit negotiateWebRTCServer
    (frame (marshal (mkSignal "offer" "v=0" None)), []) rtc_wit_ok)).
Defined.
