(* ===== verification/Negotiation.v ===== *)
(** * The upgrade with all its goroutines (webrtc.go)

    WebRTC.v has the two negotiation functions, the [OnICECandidate] callback and the candidate
    loop one by one.  Here they run together on one relayed connection.  An end of it is the
    negotiation itself; the callback, which pion runs for one candidate at a time from the moment
    the local description is set; and the loop that reads candidates, started when the
    negotiation has the descriptions.  The callback writes where the negotiation writes and the
    loop reads where the negotiation has read, each signal being two writes and two reads, and
    nothing keeps them apart.  What the ends do afterwards, closing the relayed connection when
    they have a direct one, is in ServerConn.v and Client.v. *)

From S2P Require Import Prelude GoStrings Effects Conn Auth WebRTC.

Record agent (R : Type) := mkAgent {
  main : prog rtcE R;                                  (* what is left of the negotiation *)
  wrote : nat;                                         (* its writes so far *)
  gathering : bool;                                    (* the local description is set *)
  found : list ICECandidateInit;                       (* given to the callback, in order *)
  callback : prog connE unit;                          (* what is left of its last call *)
  reader : option (prog connE (result SignalMessage)); (* the loop, reading a signal *)
  added : list ICECandidateInit;                       (* given to [AddICECandidate] *)
}.
Arguments mkAgent {R}.
Arguments main {R}.
Arguments wrote {R}.
Arguments gathering {R}.
Arguments found {R}.
Arguments callback {R}.
Arguments reader {R}.
Arguments added {R}.

Inductive move : Type :=
| Main                            (* the negotiation makes its next request *)
| Found (c : ICECandidateInit)    (* a candidate is found: the callback starts *)
| Callback                        (* a write of the callback *)
| Reader.                         (* a read of the loop *)

Section Move.
Context {R : Type} (o : pion).
Implicit Types a : agent R.

Definition set_main a (p : prog rtcE R) : agent R :=
  mkAgent p (wrote a) (gathering a) (found a) (callback a) (reader a) (added a).

(** A request of the negotiation: writes and reads on the connection, whatever has arrived being
    [inp]; the peer connection is asked, setting the local description starts the gathering. *)
Definition main_move a (inp : bytes) : option (agent R * bytes * bytes) :=
  match main a with
  | Ret _ => None
  | @Vis _ _ X e k =>
      match e in rtcE X return (X → prog rtcE R) → option (agent R * bytes * bytes) with
      | Sig e => λ k,
          match e in connE X return (X → prog rtcE R) → option (agent R * bytes * bytes) with
          | Write bs => λ k,
              Some (mkAgent (k None) (S (wrote a)) (gathering a) (found a) (callback a) (reader a) (added a),
                    inp, bs)
          | ReadFull n => λ k,
              if n <=? Z.of_nat (length inp)
              then Some (set_main a (k (Ok (take (Z.to_nat n) inp))), drop (Z.to_nat n) inp, [])
              else None
          end k
      | SetLocalDescription _ _ => λ k,
          Some (mkAgent (k (p_local o)) (wrote a) (gathering a || bool_decide (p_local o = None)) (found a)
                  (callback a) (reader a) (added a), inp, [])
      | SpawnReader => λ k,
          Some (mkAgent (k tt) (wrote a) (gathering a) (found a) (callback a) (Some readSignal) (added a),
                inp, [])
      | e => λ k, Some (set_main a (k (pion_answer o e)), inp, [])
      end k
  end.

(** The loop with the signal it has read, or the error that ends it. *)
Definition received a (r : result SignalMessage) : agent R :=
  match r with
  | Err _ => mkAgent (main a) (wrote a) (gathering a) (found a) (callback a) None (added a)
  | Ok msg =>
      mkAgent (main a) (wrote a) (gathering a) (found a) (callback a) (Some readSignal)
        (added a ++ match sg_Candidate msg with
                    | Some c => if sg_Type msg =s "candidate" then [c] else []
                    | None => []
                    end)
  end.

(** A move with what has arrived: what is left of that, and what is sent. *)
Definition make_move (m : move) a (inp : bytes) : option (agent R * bytes * bytes) :=
  match m with
  | Main => main_move a inp
  | Found c =>
      if negb (gathering a) then None else
      match callback a with
      | Ret _ => Some (mkAgent (main a) (wrote a) (gathering a) (found a ++ [c]) (onICECandidate (Some c))
                        (reader a) (added a), inp, [])
      | Vis _ _ => None
      end
  | Callback =>
      '(p, i, out) ← Duplex.step1 (callback a) inp;
      Some (mkAgent (main a) (wrote a) (gathering a) (found a) p (reader a) (added a), i, out)
  | Reader =>
      p ← reader a;
      '(p, i, out) ← Duplex.step1 p inp;
      Some (match p with
            | Ret r => received a r
            | p => mkAgent (main a) (wrote a) (gathering a) (found a) (callback a) (Some p) (added a)
            end, i, out)
  end.
End Move.

(** ** The two ends *)

Record negotiation := mkNegotiation {
  server : agent negotiated;
  client : agent bool;
  to_server : bytes;
  to_client : bytes;
}.

Definition starting {R} (p : prog rtcE R) : agent R := mkAgent p 0 false [] (Ret tt) None [].

Definition begin : negotiation :=
  mkNegotiation (starting negotiateWebRTCServer) (starting client_upgrade) [] [].

(** [true] for the server. *)
Definition act (o_s o_c : pion) (side : bool) (m : move) (s : negotiation) : option negotiation :=
  if side then
    '(a, i, out) ← make_move o_s m (server s) (to_server s);
    Some (mkNegotiation a (client s) i (to_client s ++ out))
  else
    '(a, i, out) ← make_move o_c m (client s) (to_client s);
    Some (mkNegotiation (server s) a (to_server s ++ out) i).

Fixpoint acts (o_s o_c : pion) (ms : list (bool * move)) (s : negotiation) : option negotiation :=
  match ms with
  | [] => Some s
  | (side, m) :: ms => s' ← act o_s o_c side m s; acts o_s o_c ms s'
  end.

(** No candidate is found before the negotiation has sent its description, the two writes of
    its offer or answer. *)
Definition in_turn (s : negotiation) (side : bool) (m : move) : bool :=
  match m with
  | Found _ => bool_decide (2 ≤ if side then wrote (server s) else wrote (client s))%nat
  | _ => true
  end.

Inductive calm_run (o_s o_c : pion) : list (bool * move) → negotiation → Prop :=
| calm_begin : calm_run o_s o_c [] begin
| calm_act ms s side m s' :
    calm_run o_s o_c ms s → in_turn s side m = true → act o_s o_c side m s = Some s' →
    calm_run o_s o_c (ms ++ [(side, m)]) s'.

Definition is_main (x : bool * move) : bool := match x.2 with Main => true | _ => false end.

Definition main_moves (ms : list (bool * move)) : nat := length (List.filter is_main ms).

(** ** What a program does, in advance

    [plays p ops r]: [p] makes the writes and reads [ops], the reads getting what they say, and
    returns [r]; [script] for a negotiation, with its other requests. *)

Inductive op : Type :=
| Put (bs : bytes)
| Get (bs : bytes)
| Ask
| Gather
| Listen.

Inductive plays {R} : prog connE R → list op → R → Prop :=
| plays_ret r : plays (Ret r) [] r
| plays_put bs k ops r : plays (k None) ops r → plays (Vis (Write bs) k) (Put bs :: ops) r
| plays_get n bs k ops r :
    Z.of_nat (length bs) = n → plays (k (Ok bs)) ops r → plays (Vis (ReadFull n) k) (Get bs :: ops) r.

Definition plain {X} (e : rtcE X) : Prop :=
  match e with
  | Sig _ | SetLocalDescription _ _ | SpawnReader => False
  | _ => True
  end.

Inductive script {R} (o : pion) : prog rtcE R → list op → R → Prop :=
| script_ret r : script o (Ret r) [] r
| script_put bs k ops r : script o (k None) ops r → script o (Vis (Sig (Write bs)) k) (Put bs :: ops) r
| script_get n bs k ops r :
    Z.of_nat (length bs) = n → script o (k (Ok bs)) ops r →
    script o (Vis (Sig (ReadFull n)) k) (Get bs :: ops) r
| script_ask {X} (e : rtcE X) k ops r :
    plain e → script o (k (pion_answer o e)) ops r → script o (Vis e k) (Ask :: ops) r
| script_gather kind sdp k ops r :
    script o (k (p_local o)) ops r → script o (Vis (SetLocalDescription kind sdp) k) (Gather :: ops) r
| script_listen k ops r : script o (k tt) ops r → script o (Vis SpawnReader k) (Listen :: ops) r.

Fixpoint puts (ops : list op) : list bytes :=
  match ops with
  | [] => []
  | Put bs :: ops => bs :: puts ops
  | _ :: ops => puts ops
  end.

Fixpoint gets (ops : list op) : list bytes :=
  match ops with
  | [] => []
  | Get bs :: ops => bs :: gets ops
  | _ :: ops => gets ops
  end.

(** The loop starts once, after the last read, and a sender that waits has sent everything. *)
Fixpoint listens_last (ops : list op) : Prop :=
  match ops with
  | [] => True
  | Listen :: ops => gets ops = [] ∧ (Listen ∉ ops) ∧ listens_last ops
  | _ :: ops => listens_last ops
  end.

Fixpoint puts_first (ops : list op) : Prop :=
  match ops with
  | [] => True
  | Get _ :: ops => puts ops = [] ∧ puts_first ops
  | _ :: ops => puts_first ops
  end.

(** The two chunks of a signal. *)
Definition chunks (m : SignalMessage) : list bytes :=
  [be_bytes 4 (u32 (Z.of_nat (length (marshal m)))); marshal m].

Lemma chunks_nonempty m : Forall (λ b, b ≠ []) (chunks m).
Proof. by repeat constructor. Qed.

Lemma plays_send m : plays (sendSignal m) (map Put (chunks m)) None.
Proof. unfold sendSignal. cbn. by repeat constructor. Qed.

Lemma plays_read m : fits m → plays readSignal (map Get (chunks m)) (Ok m).
Proof.
  intros [Hok Hl]. unfold readSignal, readMessage, chunks. cbn [trigger pbind map].
  apply plays_get; [by rewrite be_bytes_length|]. rewrite frame_header, (proj2 (Z.ltb_ge _ _)) by done.
  cbn [trigger pbind]. apply plays_get; [done|]. rewrite unmarshal_marshal by done. constructor.
Qed.

Lemma script_relay {R S} o (p : prog connE R) (k : R → prog rtcE S) ops ops' r r' :
  plays p ops r → script o (k r) ops' r' → script o (pbind (over_relay p) k) (ops ++ ops') r'.
Proof. intros H Hk. induction H; cbn; [done|constructor; auto..]. Qed.

Section Scripts.
Context (o : pion) (offer answer : bytes).
Hypothesis Hw : works o offer answer.
Hypothesis Ho : fits (mkSignal "offer" offer None).
Hypothesis Ha : fits (mkSignal "answer" answer None).

Definition client_ops : list op :=
  [Ask; Ask; Ask; Gather] ++ map Put (chunks (mkSignal "offer" offer None)) ++
  map Get (chunks (mkSignal "answer" answer None)) ++ [Ask; Listen; Ask].

Definition server_ops : list op :=
  map Get (chunks (mkSignal "offer" offer None)) ++ [Ask; Ask; Ask; Gather] ++
  map Put (chunks (mkSignal "answer" answer None)) ++ [Listen; Ask].

Lemma client_script : script o client_upgrade client_ops true.
Proof using Hw Ha.
  destruct Hw as [W1 W2 W3 W4 W5 W6 W7]. unfold client_upgrade, negotiateWebRTCClient, client_ops.
  cbn [pbind trigger app].
  apply script_ask; [done|]. cbn [pion_answer]. rewrite W1. cbn [pbind trigger].
  apply script_ask; [done|]. cbn [pion_answer]. rewrite W2. cbn [pbind trigger].
  apply script_ask; [done|]. cbn [pion_answer]. rewrite W3. cbn [pbind trigger].
  apply script_gather. rewrite W5. rewrite pbind_assoc_eq.
  eapply script_relay; [apply plays_send|]. cbv iota. rewrite pbind_assoc_eq.
  eapply script_relay; [by apply plays_read|]. cbv iota. cbn [sg_Type sg_SDP].
  change (str "answer" =s "fallback") with false. change (str "answer" =s "answer") with true.
  cbn [negb pbind trigger].
  apply script_ask; [done|]. cbn [pion_answer]. rewrite W6. cbn [pbind trigger].
  apply script_listen. cbn [pbind trigger]. apply script_ask; [done|]. cbn [pion_answer]. rewrite W7.
  constructor.
Qed.

Lemma server_script : script o negotiateWebRTCServer server_ops Direct.
Proof using Hw Ho.
  destruct Hw as [W1 W2 W3 W4 W5 W6 W7]. unfold negotiateWebRTCServer, server_ops.
  eapply script_relay; [by apply plays_read|]. cbv iota. cbn [sg_Type sg_SDP].
  change (str "offer" =s "fallback") with false. change (str "offer" =s "offer") with true.
  cbn [negb pbind trigger app].
  apply script_ask; [done|]. cbn [pion_answer]. rewrite W1. cbn [pbind trigger].
  apply script_ask; [done|]. cbn [pion_answer]. rewrite W6. cbn [pbind trigger].
  apply script_ask; [done|]. cbn [pion_answer]. rewrite W4. cbn [pbind trigger].
  apply script_gather. rewrite W5.
  eapply script_relay; [apply plays_send|]. cbv iota. cbn [pbind trigger].
  apply script_listen. cbn [pbind trigger]. apply script_ask; [done|]. cbn [pion_answer]. rewrite W7.
  constructor.
Qed.
End Scripts.

(** ** One direction of the connection

    [flow q puts pend gets todo]: the bytes [q] on the way are chunks, and with what the sender's
    negotiation ([puts]) and callback ([pend]) have still to write they are what the receiver's
    negotiation ([gets]) and loop ([todo]) have still to read. *)

Definition flow (q : bytes) (puts pend gets todo : list bytes) : Prop :=
  ∃ l, q = concat l ∧ gets ++ todo = l ++ puts ++ pend ∧ Forall (λ b, b ≠ []) (gets ++ todo) ∧
    (length pend ≤ length todo)%nat.

Lemma flow_put q b ps pend gs todo : flow q (b :: ps) pend gs todo → flow (q ++ b) ps pend gs todo.
Proof.
  intros (l & -> & H & Hf & Hl). exists (l ++ [b]). rewrite concat_app. cbn [concat]. rewrite app_nil_r.
  split_and!; [done| |done..]. by rewrite H, <- app_assoc.
Qed.

Lemma flow_call q b pend gs todo : flow q [] (b :: pend) gs todo → flow (q ++ b) [] pend gs todo.
Proof.
  intros (l & -> & H & Hf & Hl). exists (l ++ [b]). rewrite concat_app. cbn [concat]. rewrite app_nil_r.
  split_and!; [done| |done|cbn in Hl; lia]. by rewrite H, <- app_assoc.
Qed.

Lemma flow_found q ps gs todo new :
  Forall (λ b, b ≠ []) new → flow q ps [] gs todo → flow q ps new gs (todo ++ new).
Proof.
  intros Hn (l & -> & H & Hf & Hl). exists l. rewrite app_nil_r in H. split_and!; [done| | |rewrite length_app; lia].
  - by rewrite app_assoc, H, app_assoc.
  - rewrite app_assoc. by apply Forall_app.
Qed.

(** A chunk that the receiver expects and has bytes for is there whole. *)
Lemma flow_chunk (q b : bytes) (rest l ps : list bytes) :
  q = concat l → b :: rest = l ++ ps → b ≠ [] → (length b ≤ length q)%nat →
  ∃ l', l = b :: l' ∧ take (length b) q = b ∧ drop (length b) q = concat l' ∧ rest = l' ++ ps.
Proof.
  intros -> H Hb Hl. destruct l as [|x l']; [by destruct b; cbn in *; [|lia]|].
  cbn [app] in H. injection H as -> ->. exists l'. cbn [concat]. by rewrite take_app_length, drop_app_length.
Qed.

Lemma flow_get q b ps pend gs todo :
  flow q ps pend (b :: gs) todo → (length b ≤ length q)%nat →
  take (length b) q = b ∧ flow (drop (length b) q) ps pend gs todo.
Proof.
  intros (l & Hq & H & Hf & Hl) Hb. cbn [app] in H. apply Forall_cons in Hf as [Hne Hf].
  destruct (flow_chunk _ _ _ _ _ Hq H Hne Hb) as (l' & -> & Ht & -> & Hr). split; [done|]. by exists l'.
Qed.

Lemma flow_listen q b ps pend todo :
  flow q ps pend [] (b :: todo) → (length b ≤ length q)%nat →
  take (length b) q = b ∧ flow (drop (length b) q) ps pend [] todo.
Proof.
  intros (l & Hq & H & Hf & Hl) Hb. cbn [app] in H. apply Forall_cons in Hf as [Hne Hf].
  destruct (flow_chunk _ _ _ _ _ Hq H Hne Hb) as (l' & -> & Ht & -> & Hr). split; [done|]. exists l'.
  split_and!; [done|done|done|]. rewrite Hr, !length_app. lia.
Qed.

(** Where nothing is left to write, what the receiver waits for has arrived. *)
Lemma flow_arrived q b pend gs todo : flow q [] pend (b :: gs) todo → (length b ≤ length q)%nat.
Proof.
  intros (l & -> & H & _ & Hl). destruct l as [|x l].
  - apply (f_equal length) in H. rewrite length_app in H. cbn in H. lia.
  - cbn in H. injection H as -> _. cbn [concat]. rewrite length_app. lia.
Qed.

Lemma flow_quiet ps pend gs todo : flow [] ps pend gs todo → ps = [] → pend = [] → gs = [] ∧ todo = [].
Proof.
  intros (l & Hl & H & Hf & _) -> ->. rewrite !app_nil_r in H. apply app_eq_nil. rewrite H in *.
  destruct l as [|x l]; [done|]. apply Forall_cons in Hf as [Hx _]. cbn in Hl. by destruct x.
Qed.

(** ** One end *)

Definition candidate_chunks (cs : list ICECandidateInit) : list bytes :=
  concat (map (λ c, chunks (candidate_signal c)) cs).

(** The loop still has the candidates [cs] to read, as the chunks [todo]. *)
Inductive listening : option (prog connE (result SignalMessage)) → list ICECandidateInit → list bytes → Prop :=
| listening_not cs : Forall (λ c, fits (candidate_signal c)) cs → listening None cs (candidate_chunks cs)
| listening_next cs :
    Forall (λ c, fits (candidate_signal c)) cs → listening (Some readSignal) cs (candidate_chunks cs)
| listening_mid p b l c cs :
    plays p (map Get (b :: l)) (Ok (candidate_signal c)) →
    Forall (λ c, fits (candidate_signal c)) cs → listening (Some p) (c :: cs) ((b :: l) ++ candidate_chunks cs).

Lemma candidate_chunks_app cs cs' : candidate_chunks (cs ++ cs') = candidate_chunks cs ++ candidate_chunks cs'.
Proof. unfold candidate_chunks. by rewrite map_app, concat_app. Qed.

Lemma loop_gets_more r cs todo c :
  fits (candidate_signal c) → listening r cs todo →
  listening r (cs ++ [c]) (todo ++ chunks (candidate_signal c)).
Proof.
  intros Hc H. assert (candidate_chunks [c] = chunks (candidate_signal c)) as <- by apply app_nil_r.
  destruct H as [cs H|cs H|p b l c' cs Hp H].
  - rewrite <- candidate_chunks_app. constructor. apply Forall_app_2; [done|by apply Forall_singleton].
  - rewrite <- candidate_chunks_app. constructor. apply Forall_app_2; [done|by apply Forall_singleton].
  - rewrite <- app_assoc, <- candidate_chunks_app. cbn [app]. apply listening_mid; [done|].
    apply Forall_app_2; [done|by apply Forall_singleton].
Qed.

(** An end that has [ops] left to do and returns [r], with the chunks [pend] of a candidate to
    send, and the candidates [cs] to receive. *)
Record tracks {R} (o : pion) (a : agent R) (ops : list op) (r : R) (pend : list bytes)
    (cs : list ICECandidateInit) (todo : list bytes) : Prop := mkTracks {
  tr_main : script o (main a) ops r;
  tr_wrote : (wrote a + length (puts ops) = 2)%nat;
  tr_call : plays (callback a) (map Put pend) tt;
  tr_turn : found a ≠ [] → puts ops = [];
  tr_pend : pend ≠ [] → found a ≠ [];
  tr_last : listens_last ops;
  tr_loop : listening (reader a) cs todo;
  tr_reads : reader a ≠ None → gets ops = [];
  tr_once : Listen ∈ ops ↔ reader a = None;
}.

(** The two ends of a connection, with [inp] on the way to the first and [outq] to the second. *)
Definition linked {R R'} (o o' : pion) (a : agent R) (a' : agent R') (ops ops' : list op) (r : R) (r' : R')
    (inp outq : bytes) : Prop :=
  ∃ pend cs todo pend' cs' todo',
    tracks o a ops r pend cs todo ∧ tracks o' a' ops' r' pend' cs' todo' ∧
    flow inp (puts ops') pend' (gets ops) todo ∧ flow outq (puts ops) pend (gets ops') todo' ∧
    found a' = added a ++ cs ∧ found a = added a' ++ cs'.

Lemma linked_sym {R R'} o o' (a : agent R) (a' : agent R') ops ops' r r' inp outq :
  linked o o' a a' ops ops' r r' inp outq → linked o' o a' a ops' ops r' r outq inp.
Proof. intros (pend & cs & todo & pend' & cs' & todo' & H). exists pend', cs', todo', pend, cs, todo. tauto. Qed.

(** The loop has nothing to read, or is about to read a chunk of a candidate. *)
Lemma listening_reads p cs todo :
  listening (Some p) cs todo →
  (p = readSignal ∧ todo = []) ∨ ∃ b l c cs', plays p (map Get (b :: l)) (Ok (candidate_signal c)) ∧ cs = c :: cs' ∧
    todo = (b :: l) ++ candidate_chunks cs' ∧ Forall (λ c, fits (candidate_signal c)) cs'.
Proof.
  intros H. inversion H as [|cs0 Hf|p0 b l c cs' Hp Hf]; subst.
  - destruct Hf as [|c cs' Hc Hf]; [by left|]. right. eexists _, _, c, cs'. split; [by apply plays_read|done].
  - right. by eexists _, _, c, cs'.
Qed.

Section Moves.
Context {R R' : Type} (o o' : pion) (a a1 : agent R) (a' : agent R').
Context (ops ops' : list op) (r : R) (r' : R') (inp outq i out : bytes).
Hypothesis Hl : linked o o' a a' ops ops' r r' inp outq.

Lemma main_linked :
  make_move o Main a inp = Some (a1, i, out) →
  ∃ x ops1, ops = x :: ops1 ∧ linked o o' a1 a' ops1 ops' r r' i (outq ++ out).
Proof using Hl.
  destruct Hl as (pend & cs & todo & pend' & cs' & todo' & [Tm Tw Tc Tt Tp Tl To Tr Ton] & T' & F & F' & Ea & Ea').
  cbn [make_move]. unfold main_move. destruct a as [p w g fs cb rd ad]. cbn [main wrote gathering found callback reader added] in *.
  assert (Hlinked : ∀ x ops1 p1 w1 g1, ops = x :: ops1 →
    script o p1 ops1 r → (w1 + length (puts ops1) = 2)%nat → (fs ≠ [] → puts ops1 = []) → x ≠ Listen →
    flow i (puts ops') pend' (gets ops1) todo → flow (outq ++ out) (puts ops1) pend (gets ops') todo' →
    linked o o' (mkAgent p1 w1 g1 fs cb rd ad) a' ops1 ops' r r' i (outq ++ out)).
  { intros x ops1 p1 w1 g1 -> Hs Hw1 Ht1 Hx Hf Hf'. exists pend, cs, todo, pend', cs', todo'.
    split_and!; [constructor; cbn; auto|done..].
    - by destruct x.
    - intros Hr. specialize (Tr Hr). by destruct x.
    - rewrite <- Ton, elem_of_cons. naive_solver. }
  destruct Tm as [q|bs k ops1 q Hk|n bs k ops1 q Hn Hk|X e k ops1 q He Hk|kind sdp k ops1 q Hk|k ops1 q Hk]; [done|..].
  - intros [= <- <- <-]. exists (Put bs), ops1. split; [done|].
    apply (Hlinked (Put bs)); cbn in *; try done; [lia|by intros ?%Tt|by apply flow_put].
  - destruct (_ <=? _) eqn:E; [|done]. bools. intros [= <- <- <-]. exists (Get bs), ops1. split; [done|].
    subst n. unfold set_main in *. cbn [main wrote gathering found callback reader added]. rewrite Nat2Z.id in *. destruct (flow_get _ _ _ _ _ _ F ltac:(lia)) as [-> Hf].
    apply (Hlinked (Get bs)); cbn in *; try done. by rewrite app_nil_r.
  - destruct e; try done; intros [= <- <- <-]; exists Ask, ops1; (split; [done|]);
      (apply (Hlinked Ask); try done; by rewrite app_nil_r).
  - intros [= <- <- <-]. exists Gather, ops1. split; [done|]. apply (Hlinked Gather); try done. by rewrite app_nil_r.
  - intros [= <- <- <-]. exists Listen, ops1. split; [done|]. cbn in Tl. destruct Tl as (Hg & Hi & Tl).
    exists pend, cs, todo, pend', cs', todo'. rewrite app_nil_r. split_and!; [|done..].
    rewrite (proj1 Ton ltac:(by constructor)) in To. constructor; cbn; auto; [|naive_solver].
    inversion To; subst. by constructor.
Qed.

Lemma found_linked c :
  make_move o (Found c) a inp = Some (a1, i, out) → (2 ≤ wrote a)%nat → fits (candidate_signal c) →
  linked o o' a1 a' ops ops' r r' i (outq ++ out).
Proof using Hl.
  destruct Hl as (pend & cs & todo & pend' & cs' & todo' & [Tm Tw Tc Tt Tp Tl To Tr Ton] & T' & F & F' & Ea & Ea').
  intros H Hw Hc. cbn [make_move] in H. destruct (negb _); [done|]. destruct (callback a) eqn:Ecb; [|done].
  injection H as <- <- <-. assert (pend = []) as ->.
  { inversion Tc as [? E| |]; subst; destruct pend; done. }
  exists (chunks (candidate_signal c)), cs, todo, pend', (cs' ++ [c]), (todo' ++ chunks (candidate_signal c)).
  assert (Hp : puts ops = []) by (destruct (puts ops); [done|cbn in Tw; lia]).
  destruct T' as [Tm' Tw' Tc' Tt' Tp' Tl' To' Tr' Ton']. rewrite app_nil_r. split_and!.
  - constructor; cbn; auto.
    + change (onICECandidate (Some c)) with (sendSignal (candidate_signal c) ;;; Ret tt : prog connE unit).
      unfold sendSignal. cbn. by repeat constructor.
    + by destruct (found a).
  - constructor; auto. by apply loop_gets_more.
  - done.
  - by apply flow_found; [apply chunks_nonempty|].
  - done.
  - cbn. by rewrite Ea', app_assoc.
Qed.

Lemma callback_linked :
  make_move o Callback a inp = Some (a1, i, out) → linked o o' a1 a' ops ops' r r' i (outq ++ out).
Proof using Hl.
  destruct Hl as (pend & cs & todo & pend' & cs' & todo' & [Tm Tw Tc Tt Tp Tl To Tr Ton] & T' & F & F' & Ea & Ea').
  cbn [make_move]. destruct pend as [|b pend]; [by inversion Tc as [? E| |]; subst|].
  assert (Hp : puts ops = []) by (by apply Tt, Tp). rewrite Hp in *.
  inversion Tc as [|bs k ops2 u Hk Ek Eops|]; subst. cbn. intros [= <- <- <-].
  exists pend, cs, todo, pend', cs', todo'. rewrite Hp. split_and!; [|done|done|by apply flow_call|done..].
  constructor; cbn; auto. rewrite Hp. done.
Qed.

Lemma reader_linked :
  make_move o Reader a inp = Some (a1, i, out) → linked o o' a1 a' ops ops' r r' i (outq ++ out).
Proof using Hl.
  destruct Hl as (pend & cs & todo & pend' & cs' & todo' & [Tm Tw Tc Tt Tp Tl To Tr Ton] & T' & F & F' & Ea & Ea').
  cbn [make_move]. destruct (reader a) as [p|] eqn:Er; [|done]. rewrite (Tr ltac:(done)) in F.
  destruct (listening_reads _ _ _ To) as [[-> ->]|(b & l & c & cs1 & Hp & -> & -> & Hf)].
  { by destruct F as ([|] & -> & H & _). }
  inversion Hp as [| |n bs k ops2 u Hn Hk Ek Eops]; subst. cbn [Duplex.step1 mbind option_bind].
  destruct (_ <=? _) eqn:E; [|done]. bools. rewrite Nat2Z.id. cbn.
  destruct (flow_listen _ _ _ _ _ F ltac:(lia)) as [-> F1]. intros [= <- <- <-]. rewrite app_nil_r.
  destruct l as [|b' l].
  - inversion Hk; subst. cbn in Ea. exists pend, cs1, (candidate_chunks cs1), pend', cs', todo'.
    split_and!; [|done|by rewrite (Tr ltac:(done))|done|cbn; by rewrite Ea, <- app_assoc|done].
    constructor; cbn; auto; [by constructor|]. naive_solver.
  - destruct (k (Ok b)) as [|X e k'] eqn:Ek; [by inversion Hk|].
    exists pend, (c :: cs1), ((b' :: l) ++ candidate_chunks cs1), pend', cs', todo'.
    split_and!; [|done|by rewrite (Tr ltac:(done))|done..].
    constructor; cbn; auto; [by constructor|]. naive_solver.
Qed.
End Moves.

(** ** Both ends *)

Section Negotiation.
Context (o_s o_c : pion) (offer answer : bytes).
Hypothesis Hs : works o_s offer answer.
Hypothesis Hc : works o_c offer answer.
Hypothesis Ho : fits (mkSignal "offer" offer None).
Hypothesis Ha : fits (mkSignal "answer" answer None).

(** After [n] moves of the two negotiations. *)
Definition on_course (s : negotiation) (n : nat) : Prop :=
  ∃ ops_s ops_c,
    linked o_s o_c (server s) (client s) ops_s ops_c Direct true (to_server s) (to_client s) ∧
    puts_first ops_c ∧ (n + length ops_s + length ops_c = 21)%nat.

Lemma begin_on_course : on_course begin 0.
Proof using Hs Hc Ho Ha.
  exists (server_ops offer answer), (client_ops offer answer). split_and!; [|done..].
  exists [], [], [], [], [], []. split_and!.
  - constructor; try done; [by eapply server_script|apply plays_ret|cbn; set_solver|by apply (listening_not [])|].
    split; [done|]. intros _. cbn. set_solver.
  - constructor; try done; [by eapply client_script|apply plays_ret|cbn; set_solver|by apply (listening_not [])|].
    split; [done|]. intros _. cbn. set_solver.
  - exists []. split_and!; [done|done|by repeat constructor|done].
  - exists []. split_and!; [done|done|by repeat constructor|done].
  - done.
  - done.
Qed.

Lemma act_on_course s n side m s' :
  on_course s n → in_turn s side m = true → (∀ c, m = Found c → fits (candidate_signal c)) →
  act o_s o_c side m s = Some s' → on_course s' (n + if is_main (side, m) then 1 else 0).
Proof.
  intros (ops_s & ops_c & Hl & Hp & Hn) Ht Hf H. destruct side; cbn in H;
    apply bind_Some in H as ([[a i] out] & Hm & [= <-]).
  - destruct m as [|c| |].
    + destruct (main_linked _ _ _ _ _ _ _ _ _ _ _ _ _ Hl Hm) as (x & ops1 & -> & Hl').
      exists ops1, ops_c. split_and!; [done..|]. cbn in *. lia.
    + exists ops_s, ops_c. split_and!; [|done|cbn; lia]. apply bool_decide_eq_true in Ht. by eapply found_linked; eauto.
    + exists ops_s, ops_c. split_and!; [|done|cbn; lia]. by eapply callback_linked.
    + exists ops_s, ops_c. split_and!; [|done|cbn; lia]. by eapply reader_linked.
  - apply linked_sym in Hl. destruct m as [|c| |].
    + destruct (main_linked _ _ _ _ _ _ _ _ _ _ _ _ _ Hl Hm) as (x & ops1 & -> & Hl').
      exists ops_s, ops1. split_and!; [by apply linked_sym|by destruct x; cbn in Hp; tauto|]. cbn in *. lia.
    + exists ops_s, ops_c. split_and!; [|done|cbn; lia]. apply bool_decide_eq_true in Ht. apply linked_sym.
      by eapply found_linked; eauto.
    + exists ops_s, ops_c. split_and!; [|done|cbn; lia]. apply linked_sym. by eapply callback_linked.
    + exists ops_s, ops_c. split_and!; [|done|cbn; lia]. apply linked_sym. by eapply reader_linked.
Qed.

Lemma run_on_course ms s :
  calm_run o_s o_c ms s → (∀ side c, (side, Found c) ∈ ms → fits (candidate_signal c)) →
  on_course s (main_moves ms).
Proof using Hs Hc Ho Ha.
  induction 1 as [|ms s side m s' _ IH Ht H]; intros Hf; [apply begin_on_course|].
  unfold main_moves. rewrite List.filter_app, length_app.
  assert (E : length (List.filter is_main [(side, m)]) = if is_main (side, m) then 1%nat else 0%nat)
    by (by destruct m). rewrite E. eapply act_on_course; [|done| |done].
  - apply IH. intros sd c Hi. apply (Hf sd). by apply elem_of_app; left.
  - intros c ->. apply (Hf side). apply elem_of_app. right. by apply list_elem_of_singleton.
Qed.

(** An end whose next request is not a read can make it, and so can one that has been sent what it
    waits for. *)
Lemma main_enabled {R} o (a : agent R) x ops r inp :
  script o (main a) (x :: ops) r → (∀ b, x = Get b → (length b ≤ length inp)%nat) →
  is_Some (make_move o Main a inp).
Proof.
  intros H Hx. cbn [make_move]. unfold main_move. inversion H as [|bs k ops1 q Hk E|n bs k ops1 q Hn Hk E|X e k ops1 q He Hk E|kind sdp k ops1 q Hk E|k ops1 q Hk E]; subst; try by eexists.
  - rewrite (proj2 (Z.leb_le _ _)) by (specialize (Hx bs eq_refl); lia). by eexists.
  - destruct e; try done; by eexists.
Qed.

Lemma mains_go_on s n :
  on_course s n → (n < 21)%nat → ∃ side s', act o_s o_c side Main s = Some s'.
Proof.
  intros (ops_s & ops_c & (pend & cs & todo & pend' & cs' & todo' & T & T' & F & F' & _) & Hp & Hn) Hlt.
  assert (Hgo : is_Some (make_move o_s Main (server s) (to_server s)) ∨
                is_Some (make_move o_c Main (client s) (to_client s))).
  { pose proof (tr_main _ _ _ _ _ _ _ T) as Ms. pose proof (tr_main _ _ _ _ _ _ _ T') as Mc.
    destruct ops_s as [|x ops_s].
    - destruct ops_c as [|y ops_c]; [cbn in Hn; lia|]. right. eapply main_enabled; [exact Mc|].
      intros b ->. by eapply flow_arrived.
    - destruct x as [|b| | |]; try (left; eapply main_enabled; [exact Ms|done]).
      destruct ops_c as [|y ops_c].
      + left. eapply main_enabled; [exact Ms|]. intros ? [= <-]. by eapply flow_arrived.
      + destruct y as [|b'| | |]; try (right; eapply main_enabled; [exact Mc|done]).
        left. eapply main_enabled; [exact Ms|]. intros ? [= <-]. cbn in Hp. destruct Hp as [Hp _].
        cbn in F. rewrite Hp in F. by eapply flow_arrived. }
  destruct Hgo as [[[[a i] out] H]|[[[a i] out] H]]; [exists true|exists false]; eexists; unfold act; by rewrite H.
Qed.

(** What has been sent can be read. *)
Lemma loop_goes_on {R R'} o o' (a : agent R) (a' : agent R') r r' inp outq :
  linked o o' a a' [] [] r r' inp outq → callback a' = Ret tt →
  added a = found a' ∨ is_Some (make_move o Reader a inp).
Proof.
  intros (pend & cs & todo & pend' & cs' & todo' & T & T' & F & _ & E & _) Hcb.
  destruct T as [_ _ _ _ _ _ To _ Ton]. destruct T' as [_ _ Tc _ _ _ _ _ _].
  rewrite Hcb in Tc. assert (pend' = []) as -> by (inversion Tc; by destruct pend').
  destruct (reader a) as [p|] eqn:Er; [|by apply proj2 in Ton; specialize (Ton eq_refl); set_solver].
  destruct F as (l & -> & Hl & _). cbn in Hl. rewrite app_nil_r in Hl. subst l.
  destruct (listening_reads _ _ _ To) as [[-> ->]|(b & l & c & cs1 & Hp & -> & -> & _)].
  - left. destruct cs; [by rewrite E, app_nil_r|]. by inversion To.
  - right. cbn [make_move]. rewrite Er. inversion Hp; subst. cbn.
    rewrite (proj2 (Z.leb_le _ _)) by (rewrite length_app; lia). by eexists.
Qed.

(** A read of what has arrived. *)
Lemma get_move {R} o (a : agent R) b ops r rest :
  script o (main a) (Get b :: ops) r →
  ∃ p, make_move o Main a (b ++ rest) = Some (set_main a p, rest, []) ∧ script o p ops r.
Proof.
  intros H. cbn [make_move]. unfold main_move. inversion H as [| |n bs k ops1 q Hn Hk E|X e k ops1 q He Hk E| |]; subst.
  rewrite (proj2 (Z.leb_le _ _)) by (rewrite length_app; lia).
  rewrite Nat2Z.id, take_app_length, drop_app_length. eauto.
Qed.

Lemma ask_move {R} o (a : agent R) ops r inp :
  script o (main a) (Ask :: ops) r →
  ∃ p, make_move o Main a inp = Some (set_main a p, inp, []) ∧ script o p ops r.
Proof.
  intros H. cbn [make_move]. unfold main_move. inversion H as [| | |X e k ops1 q He Hk E| |]; subst.
  destruct e; try done; eauto.
Qed.

Lemma gather_move {R} o (a : agent R) ops r inp :
  script o (main a) (Gather :: ops) r → p_local o = None →
  ∃ p, make_move o Main a inp
       = Some (mkAgent p (wrote a) true (found a) (callback a) (reader a) (added a), inp, []).
Proof.
  intros H Hl. cbn [make_move]. unfold main_move. inversion H as [| | | |kind sdp k ops1 q Hk E|]; subst.
  rewrite Hl, orb_true_r. eauto.
Qed.

Lemma acts_client m ms s a i out :
  make_move o_c m (client s) (to_client s) = Some (a, i, out) →
  acts o_s o_c ((false, m) :: ms) s = acts o_s o_c ms (mkNegotiation (server s) a (to_server s ++ out) i).
Proof. intros H. cbn [acts act]. by rewrite H. Qed.

Lemma acts_server m ms s a i out :
  make_move o_s m (server s) (to_server s) = Some (a, i, out) →
  acts o_s o_c ((true, m) :: ms) s = acts o_s o_c ms (mkNegotiation a (client s) i (to_client s ++ out)).
Proof. intros H. cbn [acts act]. by rewrite H. Qed.

(** The client has set its description and a candidate is found, and signalled, before the offer is. *)
Definition early (c : ICECandidateInit) : list (bool * move) :=
  [(false, Main); (false, Main); (false, Main); (false, Main); (false, Found c);
   (false, Callback); (false, Callback); (true, Main); (true, Main)].

(** Out of turn the candidate is taken for the offer, and the server gives up; no fallback is
    sent, and the client, whose offer is still to come, is left to wait for an answer. *)
Theorem early_candidate_breaks_upgrade c :
  fits (candidate_signal c) →
  ∃ s, acts o_s o_c (early c) begin = Some s ∧
    main (server s) = Ret (Broken (Errorf "expected offer, got candidate")) ∧ to_client s = [] ∧
    (wrote (client s) = 0)%nat.
Proof using Hc Ha.
  intros Hf. pose proof (client_script o_c offer answer Hc Ha) as S0.
  destruct (ask_move o_c (starting client_upgrade) _ _ [] S0) as (p1 & M1 & S1).
  destruct (ask_move o_c (set_main (starting client_upgrade) p1) _ _ [] S1) as (p2 & M2 & S2).
  destruct (ask_move o_c (set_main (starting client_upgrade) p2) _ _ [] S2) as (p3 & M3 & S3).
  destruct (gather_move o_c (set_main (starting client_upgrade) p3) _ _ [] S3 (w_local _ _ _ Hc)) as (p4 & M4).
  unfold early, begin. erewrite acts_client by exact M1. erewrite acts_client by exact M2.
  erewrite acts_client by exact M3. erewrite acts_client by exact M4.
  do 3 erewrite acts_client by reflexivity. cbn [server client to_server to_client app].
  assert (T0 : script o_s negotiateWebRTCServer (map Get (chunks (candidate_signal c)))
    (Broken (Errorf "expected offer, got candidate"))).
  { rewrite <- (app_nil_r (map _ _)). unfold negotiateWebRTCServer.
    eapply script_relay; [by apply plays_read|apply script_ret]. }
  destruct (get_move o_s (starting negotiateWebRTCServer) _ _ _ (marshal (candidate_signal c)) T0) as (q1 & N1 & T1).
  destruct (get_move o_s (set_main (starting negotiateWebRTCServer) q1) _ _ _ [] T1) as (q2 & N2 & T2).
  rewrite app_nil_r in N2. erewrite acts_server by exact N1. erewrite acts_server by exact N2.
  eexists. split; [done|]. by inversion T2.
Qed.

(** C5. The upgrade with all that runs on the relayed connection: the two negotiations, the
    callbacks that signal candidates and the loops that read them, under every interleaving in
    which no candidate is found before the end that finds it has sent its description.  When the
    peer connections work, neither negotiation takes a candidate for a description or the other
    way round, and neither waits for ever: they make twenty-one requests between them, at any
    time before that one of them can make its next one, and then both have the direct
    connection, the only result either can come to.  Of the candidates an end has found the
    other has added the first ones, in order, and once the callback is done the loop can go on
    until it has added them all. *)
Theorem upgrade_with_candidates ms s :
  calm_run o_s o_c ms s → (∀ side c, (side, Found c) ∈ ms → fits (candidate_signal c)) →
  (main_moves ms ≤ 21)%nat ∧
  ((main_moves ms < 21)%nat → ∃ side s', act o_s o_c side Main s = Some s') ∧
  (main_moves ms = 21%nat → main (server s) = Ret Direct ∧ main (client s) = Ret true) ∧
  (∀ r, main (server s) = Ret r → r = Direct) ∧ (∀ r, main (client s) = Ret r → r = true) ∧
  (added (server s) `prefix_of` found (client s)) ∧ (added (client s) `prefix_of` found (server s)) ∧
  (main_moves ms = 21%nat →
     (callback (client s) = Ret tt →
        added (server s) = found (client s) ∨ is_Some (act o_s o_c true Reader s)) ∧
     (callback (server s) = Ret tt →
        added (client s) = found (server s) ∨ is_Some (act o_s o_c false Reader s))).
Proof using Hs Hc Ho Ha.
  intros Hr Hf. pose proof (run_on_course ms s Hr Hf) as H. pose proof (mains_go_on s (main_moves ms) H) as Hgo.
  destruct H as (ops_s & ops_c & Hl & _ & Hn).
  assert (Hend : main_moves ms = 21%nat → ops_s = [] ∧ ops_c = []).
  { intros E. destruct ops_s, ops_c; cbn in Hn; try lia. done. }
  pose proof Hl as (pend & cs & todo & pend' & cs' & todo' & T & T' & F & F' & E & E').
  pose proof (tr_main _ _ _ _ _ _ _ T) as Ms. pose proof (tr_main _ _ _ _ _ _ _ T') as Mc.
  split_and!; [lia|done|..].
  - intros (-> & ->)%Hend. split; [by inversion Ms|by inversion Mc].
  - intros r Er. rewrite Er in Ms. by inversion Ms.
  - intros r Er. rewrite Er in Mc. by inversion Mc.
  - rewrite E. by apply prefix_app_r.
  - rewrite E'. by apply prefix_app_r.
  - intros (-> & ->)%Hend. split; intros Hcb.
    + destruct (loop_goes_on _ _ _ _ _ _ _ _ Hl Hcb) as [?|[[[a i] out] Hm]]; [by left|right].
      unfold act. rewrite Hm. by eexists.
    + destruct (loop_goes_on _ _ _ _ _ _ _ _ (linked_sym _ _ _ _ _ _ _ _ _ _ Hl) Hcb) as [?|[[[a i] out] Hm]];
        [by left|right]. unfold act. rewrite Hm. by eexists.
Qed.
End Negotiation.

(** ** The theorems at concrete inputs *)

Fixpoint all_in_turn (o_s o_c : pion) (ms : list (bool * move)) (s : negotiation) : bool :=
  match ms with
  | [] => true
  | (side, m) :: ms =>
      in_turn s side m && match act o_s o_c side m s with Some s' => all_in_turn o_s o_c ms s' | None => true end
  end.

Lemma calm_run_more o_s o_c ms0 ms s0 s :
  calm_run o_s o_c ms0 s0 → all_in_turn o_s o_c ms s0 = true → acts o_s o_c ms s0 = Some s →
  calm_run o_s o_c (ms0 ++ ms) s.
Proof.
  revert ms0 s0. induction ms as [|[side m] ms IH]; intros ms0 s0 H0 Ht H.
  { injection H as <-. by rewrite app_nil_r. }
  cbn in Ht, H. bools. apply bind_Some in H as (s1 & Hs1 & H). rewrite Hs1 in *.
  rewrite cons_middle, app_assoc. eapply IH; [by eapply calm_act|done..].
Qed.

(** Both ends find a candidate, the client's while the server has yet to answer. *)
Definition whole_upgrade : list (bool * move) :=
  repeat (false, Main) 6 ++ [(false, Found candidate_wit); (false, Callback); (true, Main); (true, Main);
    (false, Callback)] ++ repeat (true, Main) 6 ++ [(true, Found candidate_wit); (true, Callback); (true, Main);
    (true, Main); (true, Callback); (true, Reader); (true, Reader)] ++ repeat (false, Main) 5 ++
  [(false, Reader); (false, Reader)].

Lemma upgrade_with_candidates_witness :
  ∃ s, calm_run pion_ok pion_ok whole_upgrade s ∧ main_moves whole_upgrade = 21%nat ∧
    main (server s) = Ret Direct ∧ main (client s) = Ret true ∧ found (client s) = [candidate_wit] ∧
    added (server s) = found (client s) ∧ (added (client s) `prefix_of` found (server s)).
Proof.
  assert (Hd : option_map (λ s, (found (client s), added (server s))) (acts pion_ok pion_ok whole_upgrade begin)
    = Some ([candidate_wit], [candidate_wit])) by (vm_compute; reflexivity).
  destruct (acts pion_ok pion_ok whole_upgrade begin) as [s|] eqn:E; [|done]. injection Hd as Hd Ha.
  assert (Hr : calm_run pion_ok pion_ok whole_upgrade s).
  { apply (calm_run_more _ _ [] _ begin); [constructor|by vm_compute|done]. }
  assert (Hf : ∀ side c, (side, Found c) ∈ whole_upgrade → fits (candidate_signal c)).
  { assert (Hw : Forall (λ x, match x.2 with Found c => c = candidate_wit | _ => True end) whole_upgrade)
      by (repeat constructor).
    intros side c Hi. rewrite Forall_forall in Hw. specialize (Hw _ Hi). cbn in Hw. subst c.
    exact candidate_wit_fits. }
  destruct (upgrade_with_candidates pion_ok pion_ok "v=0" "v=0" (ltac:(by split)) (ltac:(by split)) offer_fits
    answer_fits whole_upgrade s Hr Hf) as (_ & _ & H & _ & _ & _ & Hp & _).
  destruct (H eq_refl) as [Hs Hc].
  exists s. split_and!; [exact Hr|reflexivity|exact Hs|exact Hc|exact Hd|congruence|exact Hp].
Defined.

Lemma early_candidate_breaks_upgrade_witness :
  ∃ s, acts pion_ok pion_ok (early candidate_wit) begin = Some s ∧
    main (server s) = Ret (Broken (Errorf "expected offer, got candidate")).
Proof.
  destruct (early_candidate_breaks_upgrade pion_ok pion_ok "v=0" "v=0" (ltac:(by split)) answer_fits candidate_wit
    candidate_wit_fits) as (s & H & Hm & _).
  exists s. split; [exact H|exact Hm].
Defined.
