(* ===== verification/NetUtil.v ===== *)
(** * Addresses of forwarding targets (net_util.go) *)

From S2P Require Import Prelude GoStrings.

(** A path of a UNIX socket rather than a host and port. *)
Definition path_like (addr : bytes) : bool :=
  HasPrefix addr "/" || HasPrefix addr "./" || HasPrefix addr "../"
  || HasSuffix addr ".sock" || negb (Contains addr ":").

Definition parseNetworkAndAddr (addr : bytes) : bytes * bytes :=
  if HasPrefix addr "unix://" then (str "unix", TrimPrefix addr "unix://")
  else if HasPrefix addr "unix:" then (str "unix", TrimPrefix addr "unix:")
  else if HasPrefix addr "tcp://" then (str "tcp", TrimPrefix addr "tcp://")
  else if HasPrefix addr "tcp:" then (str "tcp", TrimPrefix addr "tcp:")
  else if path_like addr then (str "unix", addr)
  else (str "tcp", addr).

(** No explicit network is named. *)
Definition bare (addr : bytes) : Prop :=
  HasPrefix addr "unix:" = false ∧ HasPrefix addr "tcp:" = false.

Lemma bare_parse addr :
  bare addr →
  parseNetworkAndAddr addr = (if path_like addr then str "unix" else str "tcp", addr).
Proof.
  intros [Hu Ht]. unfold parseNetworkAndAddr.
  assert (HasPrefix addr "unix://" = false) as ->.
  { apply not_true_iff_false. intros H.
    rewrite (HasPrefix_weaken addr "unix:" "//") in Hu; done. }
  assert (HasPrefix addr "tcp://" = false) as ->.
  { apply not_true_iff_false. intros H.
    rewrite (HasPrefix_weaken addr "tcp:" "//") in Ht; done. }
  rewrite Hu, Ht. by destruct (path_like addr).
Qed.

(** A named network is taken at its word and its prefix removed, in the long
    and the short form; an address that names none is returned unchanged, as a
    TCP address exactly when it has a colon and does not look like a path. *)
Theorem parseNetworkAndAddr_spec (a : bytes) :
  parseNetworkAndAddr (str "unix://" ++ a) = (str "unix", a) ∧
  parseNetworkAndAddr (str "tcp://" ++ a) = (str "tcp", a) ∧
  (HasPrefix a "//" = false →
     parseNetworkAndAddr (str "unix:" ++ a) = (str "unix", a) ∧
     parseNetworkAndAddr (str "tcp:" ++ a) = (str "tcp", a)) ∧
  (bare a →
     parseNetworkAndAddr a = (str "unix", a) ∧ path_like a = true ∨
     parseNetworkAndAddr a = (str "tcp", a) ∧ Contains a ":" = true ∧ path_like a = false).
Proof.
  split_and!.
  - unfold parseNetworkAndAddr. by rewrite HasPrefix_app, TrimPrefix_app.
  - unfold parseNetworkAndAddr. change (HasPrefix _ "unix://") with false.
    change (HasPrefix _ "unix:") with false. by rewrite HasPrefix_app, TrimPrefix_app.
  - intros Ha. unfold parseNetworkAndAddr. split.
    + assert (HasPrefix (str "unix:" ++ a) "unix://" = HasPrefix a "//") as -> by done.
      by rewrite Ha, HasPrefix_app, TrimPrefix_app.
    + change (HasPrefix (str "tcp:" ++ a) "unix://") with false.
      change (HasPrefix (str "tcp:" ++ a) "unix:") with false.
      assert (HasPrefix (str "tcp:" ++ a) "tcp://" = HasPrefix a "//") as -> by done.
      by rewrite Ha, HasPrefix_app, TrimPrefix_app.
  - intros Hb. rewrite bare_parse by done. destruct (path_like a) eqn:E; [by left|right].
    split_and!; [done| |done]. unfold path_like in E.
    rewrite !orb_false_iff in E. destruct E as (_ & E). by apply negb_false_iff in E.
Qed.

Lemma parseNetworkAndAddr_spec_witness :
  bare "127.0.0.1:22" ∧ parseNetworkAndAddr "127.0.0.1:22" = (str "tcp", str "127.0.0.1:22").
Proof.
  pose proof (parseNetworkAndAddr_spec "127.0.0.1:22") as (_ & _ & _ & H).
  split; [done|]. destruct (H (conj eq_refl eq_refl)) as [[_ E]|[E _]]; [discriminate E|exact E].
Defined.
