(* ===== verification/ProxyProtocol.v ===== *)
(** * The PROXY protocol header of a forwarded connection

    The part of [handleForwardConn] (main.go) that describes the peer to the local
    service, with the vendored go-proxyproto's version 2 format
    (vendor/github.com/pires/go-proxyproto: v2.go, tlv.go, header.go). *)

From S2P Require Import Prelude GoStrings.

(** ** Addresses *)

(** [net.Addr] and its implementations; an IP is nil, four bytes or sixteen. *)
Inductive addr : Type :=
| TCPAddr (ip : bytes) (port : Z)
| UDPAddr (ip : bytes) (port : Z)
| UnixAddr (name : bytes)
| OtherAddr (text : bytes).

(** [net.IPv4(a,b,c,d)] keeps four bytes behind this prefix. *)
Definition v4InV6Prefix : bytes := [x00; x00; x00; x00; x00; x00; x00; x00; x00; x00; xff; xff].

Definition To4 (ip : bytes) : option bytes :=
  if bool_decide (length ip = 4%nat) then Some ip
  else if bool_decide (length ip = 16%nat) && HasPrefix ip v4InV6Prefix then Some (drop 12 ip)
  else None.

Definition To16 (ip : bytes) : option bytes :=
  if bool_decide (length ip = 4%nat) then Some (v4InV6Prefix ++ ip)
  else if bool_decide (length ip = 16%nat) then Some ip
  else None.

(** ** The header *)

Inductive transport : Type := TCPv4 | UDPv4 | TCPv6 | UDPv6 | UnixStream.

Record header := mkHeader {
  TransportProtocol : transport;
  SourceAddr : addr;
  DestinationAddr : addr;
  rawTLVs : bytes;
}.

Definition is_unix (a : addr) : bool := match a with UnixAddr _ => true | _ => false end.

Section Header.
(** [net.Addr.String] *)
Context (addr_string : addr → bytes).

Definition as_unix (a : addr) : addr :=
  match a with UnixAddr _ => a | _ => UnixAddr (addr_string a) end.

(** The family is a socket's if either end is one, and otherwise the source's. *)
Definition choose_transport (src dst : addr) : transport * addr * addr :=
  if is_unix src || is_unix dst then (UnixStream, as_unix src, as_unix dst)
  else (match src with
        | TCPAddr ip _ => match To4 ip with None => TCPv6 | Some _ => TCPv4 end
        | UDPAddr ip _ => match To4 ip with None => UDPv6 | Some _ => UDPv4 end
        | _ => TCPv4
        end, src, dst).

(** One TLV; a longer value leaves the header without any. *)
Definition tlv (type : byte) (value : bytes) : bytes :=
  if 65535 <? Z.of_nat (length value) then []
  else type :: be_bytes 2 (Z.of_nat (length value)) ++ value.

(** [0.0.0.0] for an address that is nil; the device ID of a peer with a
    certificate goes into a TLV of type 0xEA. *)
Definition zero_addr : addr := TCPAddr (v4InV6Prefix ++ [x00; x00; x00; x00]) 0.

Definition proxy_header (remote local : option addr) (peerID : option bytes) : header :=
  let '(tp, src, dst) := choose_transport (default zero_addr remote) (default zero_addr local) in
  mkHeader tp src dst (match peerID with Some i => tlv xea i | None => [] end).
End Header.

(** *** Rendering *)

Definition SIGV2 : bytes := [x0d; x0a; x0d; x0a; x00; x0d; x0a; x51; x55; x49; x54; x0a].

Definition transport_byte (t : transport) : byte :=
  match t with TCPv4 => x11 | UDPv4 => x12 | TCPv6 => x21 | UDPv6 => x22 | UnixStream => x31 end.

Definition is_stream (t : transport) : bool := match t with UDPv4 | UDPv6 => false | _ => true end.

(** [header.IPs] and [header.Ports]: both ends have to be of the header's kind. *)
Definition ends (h : header) : option ((bytes * Z) * (bytes * Z)) :=
  match SourceAddr h, DestinationAddr h, is_stream (TransportProtocol h) with
  | TCPAddr i p, TCPAddr j q, true => Some ((i, p), (j, q))
  | UDPAddr i p, UDPAddr j q, false => Some ((i, p), (j, q))
  | _, _, _ => None
  end.

Definition addTLVLen (cur : Z) (tlvLen : Z) : option bytes :=
  if tlvLen =? 0 then Some (be_bytes 2 cur)
  else if 2 ^ 16 <=? cur + tlvLen then None
  else Some (be_bytes 2 (cur + tlvLen)).

Definition lengthUnix : Z := 216.

(** The name, cut or padded to half the address block. *)
Definition formatUnixName (name : bytes) : bytes :=
  if 108 <=? Z.of_nat (length name) then take 108 name
  else name ++ repeat x00 (108 - length name).

Definition ports_bytes (h : header) : option bytes :=
  match ends h with
  | None => Some []
  | Some ((_, p), (_, q)) =>
      if (p <? 0) || (65535 <? p) || (q <? 0) || (65535 <? q) then None
      else Some (be_bytes 2 p ++ be_bytes 2 q)
  end.

Definition ips (h : header) (f : bytes → option bytes) : option (bytes * bytes) :=
  match ends h with
  | None => None
  | Some ((i, _), (j, _)) => a ← f i; b ← f j; Some (a, b)
  end.

(** [None] is ErrInvalidAddress, ErrInvalidPortNumber or a TLV section too long. *)
Definition formatVersion2 (h : header) : option bytes :=
  let tlvs := Z.of_nat (length (rawTLVs h)) in
  '(size, src, dst) ←
    match TransportProtocol h with
    | TCPv4 | UDPv4 => s ← addTLVLen 12 tlvs; '(a, b) ← ips h To4; Some (s, a, b)
    | TCPv6 | UDPv6 => s ← addTLVLen 36 tlvs; '(a, b) ← ips h To16; Some (s, a, b)
    | UnixStream =>
        s ← addTLVLen lengthUnix tlvs;
        match SourceAddr h, DestinationAddr h with
        | UnixAddr a, UnixAddr b => Some (s, formatUnixName a, formatUnixName b)
        | _, _ => None
        end
    end;
  ports ← ports_bytes h;
  Some (SIGV2 ++ x21 :: transport_byte (TransportProtocol h) :: size ++ src ++ dst ++ ports ++ rawTLVs h).

Example header_ex :
  formatVersion2 (proxy_header (λ _, []) (Some (TCPAddr [xc0; x00; x02; x01] 4711))
    (Some (TCPAddr [x7f; x00; x00; x01] 80)) None)
  = Some (SIGV2 ++ [x21; x11; x00; x0c; xc0; x00; x02; x01; x7f; x00; x00; x01; x12; x67; x00; x50]).
Proof. reflexivity. Qed.

(** ** The length field *)

Lemma addTLVLen_spec cur len s :
  0 ≤ cur < 2 ^ 16 → 0 ≤ len → addTLVLen cur len = Some s →
  length s = 2%nat ∧ be_val 0 s = cur + len.
Proof.
  intros Hc Hl. unfold addTLVLen. repeat case_match; bools; [| done|]; intros Hs%(inj Some); subst s;
    (split; [apply be_bytes_length|]); rewrite be_val_two; lia.
Qed.

Lemma To4_length ip a : To4 ip = Some a → length a = 4%nat.
Proof.
  unfold To4. repeat case_match; intros [= <-]; bools;
    repeat match goal with H : bool_decide _ = true |- _ => apply bool_decide_eq_true in H end;
    [done|]. rewrite length_drop. lia.
Qed.

Lemma To16_length ip a : To16 ip = Some a → length a = 16%nat.
Proof.
  unfold To16. repeat case_match; intros Hs; apply (inj Some) in Hs || done; subst a;
    repeat match goal with H : bool_decide _ = true |- _ => apply bool_decide_eq_true in H end;
    [rewrite length_app; cbn [length v4InV6Prefix]; lia|done].
Qed.

Lemma formatUnixName_length n : length (formatUnixName n) = 108%nat.
Proof.
  unfold formatUnixName. case_match; bools; [rewrite length_take; lia|].
  rewrite length_app, repeat_length. lia.
Qed.

Lemma ports_bytes_length h p :
  ports_bytes h = Some p → length p = match ends h with Some _ => 4%nat | None => 0%nat end.
Proof.
  unfold ports_bytes. destruct (ends h) as [[[i p1] [j q]]|]; [|by intros [= <-]].
  case_match; [done|]. intros Hs%(inj Some). subst p. by rewrite length_app, !be_bytes_length.
Qed.

(** A header as the receiver takes it apart: command and family, the declared length
    and what follows it. *)
Definition split_header (b : bytes) : option (byte * byte * Z * bytes) :=
  match CutPrefix b SIGV2 with
  | Some (cmd :: fam :: a :: c :: rest) => Some (cmd, fam, be_val 0 [a; c], rest)
  | _ => None
  end.

Lemma split_format h size rest :
  length size = 2%nat →
  split_header (SIGV2 ++ x21 :: transport_byte h :: size ++ rest)
  = Some (x21, transport_byte h, be_val 0 size, rest).
Proof.
  intros Hs. by destruct size as [|a [|c [|]]].
Qed.

(** A header is well formed: what follows the fixed part is exactly as long as
    declared, and ends with the TLVs. *)
Definition well_formed (h : header) (b : bytes) : Prop :=
  ∃ body, split_header b = Some (x21, transport_byte (TransportProtocol h),
                                 Z.of_nat (length body), body) ∧
          ∃ addresses, body = addresses ++ rawTLVs h.

Lemma well_formed_intro h size s src dst ports :
  0 ≤ size < 2 ^ 16 → addTLVLen size (Z.of_nat (length (rawTLVs h))) = Some s →
  Z.of_nat (length src + length dst + length ports) = size →
  well_formed h (SIGV2 ++ x21 :: transport_byte (TransportProtocol h) :: s ++ src ++ dst ++ ports
                 ++ rawTLVs h).
Proof.
  intros Hs Ha Hl. destruct (addTLVLen_spec _ _ _ Hs (Nat2Z.is_nonneg _) Ha) as [Hs2 Hv].
  exists (src ++ dst ++ ports ++ rawTLVs h). split.
  - rewrite split_format, Hv by done.
    by replace (size + Z.of_nat (length (rawTLVs h))) with
      (Z.of_nat (length (src ++ dst ++ ports ++ rawTLVs h))) by (rewrite !length_app; lia).
  - exists (src ++ dst ++ ports). by rewrite !app_assoc.
Qed.

(** C36. Every header the code manages to render is well formed: the length it
    declares is the number of bytes that follow, for every address family and with
    or without the peer's device ID, so the receiver finds the start of the data. *)
Theorem formatVersion2_well_formed h b : formatVersion2 h = Some b → well_formed h b.
Proof.
  unfold formatVersion2. intros Hf.
  destruct (match TransportProtocol h with UnixStream => _ | _ => _ end) as [[[s src] dst]|] eqn:E;
    [|done]. cbn [mbind option_bind] in Hf.
  destruct (ports_bytes h) as [ports|] eqn:Ep; [|done]. apply (inj Some) in Hf. subst b.
  apply ports_bytes_length in Ep. unfold ips in E.
  destruct (TransportProtocol h) eqn:Et; cbn -[addTLVLen To4 To16] in E.
  all: destruct (addTLVLen _ _) as [s'|] eqn:Ea; [|done]; cbn -[To4 To16] in E.
  all: try (destruct (ends h) as [[[i p] [j q]]|]; [|done]; cbn -[To4 To16] in E).
  all: rewrite <- Et.
  1,2: destruct (To4 i) eqn:E1; [|done]; destruct (To4 j) eqn:E2; [|done]; cbn in E;
    simplify_eq; eapply well_formed_intro; [|exact Ea|]; [lia|];
    apply To4_length in E1, E2; lia.
  1,2: destruct (To16 i) eqn:E1; [|done]; destruct (To16 j) eqn:E2; [|done]; cbn in E;
    simplify_eq; eapply well_formed_intro; [|exact Ea|]; [lia|];
    apply To16_length in E1, E2; lia.
  unfold ends in Ep. destruct (SourceAddr h) eqn:Es, (DestinationAddr h) eqn:Ed; try done.
  simplify_eq. eapply well_formed_intro; [|exact Ea|]; [done|].
  by rewrite !formatUnixName_length, Ep.
Qed.

Lemma no_ip_header_fails addr_string ip port peerID :
  formatVersion2 (proxy_header addr_string (Some (TCPAddr [] 0)) (Some (TCPAddr ip port)) peerID)
  = None.
Proof.
  unfold formatVersion2, proxy_header, choose_transport.
  cbn -[addTLVLen To16 To4]. change (To4 []) with (@None bytes).
  unfold ips. cbn -[addTLVLen To16 To4]. by destruct (addTLVLen _ _).
Qed.

(** No header can be rendered for a TCP target when the peer is on a direct WebRTC
    connection, whose remote address is a [TCPAddr] with no IP, nor when the peer has
    an IPv4 address and the local connection an IPv6 one: the family is chosen from
    the source alone. *)
Theorem header_family_fails addr_string srcPort ip port peerID :
  formatVersion2 (proxy_header addr_string (Some (TCPAddr [] 0)) (Some (TCPAddr ip port)) peerID)
  = None ∧
  (∀ src a, To4 src = Some a → To4 ip = None →
     formatVersion2 (proxy_header addr_string (Some (TCPAddr src srcPort)) (Some (TCPAddr ip port))
       peerID) = None).
Proof.
  split; [apply no_ip_header_fails|].
  unfold formatVersion2, proxy_header, choose_transport.
  - intros src a Hs Hi. cbn -[addTLVLen To16 To4]. rewrite Hs. unfold ips.
    cbn -[addTLVLen To16 To4]. destruct (addTLVLen _ _); [|done].
    cbn -[To4]. by rewrite Hs, Hi.
Qed.

(** ** The theorems at concrete inputs *)

Lemma formatVersion2_well_formed_witness :
  well_formed (mkHeader TCPv4 (TCPAddr [xc0; x00; x02; x01] 4711) (TCPAddr [x7f; x00; x00; x01] 80)
                 (tlv xea "ID"))
    (SIGV2 ++ [x21; x11; x00; x11; xc0; x00; x02; x01; x7f; x00; x00; x01; x12; x67; x00; x50;
               xea; x00; x02; x49; x44]).
Proof. apply formatVersion2_well_formed. vm_compute. reflexivity. Defined.

Lemma header_family_fails_witness :
  formatVersion2 (proxy_header (λ _, []) (Some (TCPAddr [xc0; x00; x02; x01] 4711))
    (Some (TCPAddr (repeat x00 15 ++ [x01]) 80)) None) = None.
Proof.
  apply (proj2 (header_family_fails (λ _, []) 4711 (repeat x00 15 ++ [x01]) 80 None)
    [xc0; x00; x02; x01] [xc0; x00; x02; x01]); vm_compute; reflexivity.
Defined.
