(* ===== verification/LuksConfig.v ===== *)
(** * What the LUKS agent reads (luks_agent.go, the parsers)

    systemd's password requests, the unlock configuration in a LUKS2 token or in
    luks.conf, the output of [cryptsetup luksDump], /proc/partitions and
    systemd-networkd's state files. *)

From S2P Require Import Prelude GoStrings Json.

(** ** Password requests *)

Definition askPasswordDir : bytes := "/run/systemd/ask-password".
Definition cryptsetupIDPrefix : bytes := "cryptsetup".

Record askRequest := mkAsk {
  path : bytes;
  socket : bytes;
  id : bytes;
  message : bytes;
  notAfter : Z;  (* CLOCK_MONOTONIC microseconds, a uint64; 0 means it never expires *)
}.

Definition set_socket v r := mkAsk (path r) v (id r) (message r) (notAfter r).
Definition set_id v r := mkAsk (path r) (socket r) v (message r) (notAfter r).
Definition set_message v r := mkAsk (path r) (socket r) (id r) v (notAfter r).
Definition set_notAfter v r := mkAsk (path r) (socket r) (id r) (message r) v.
Definition set_path v r := mkAsk v (socket r) (id r) (message r) (notAfter r).

#[global] Instance askRequest_eq_dec : EqDecision askRequest.
Proof. solve_decision. Defined.

Inductive ask_error : Type :=
| BadNotAfter (value : bytes)
| AskScan (e : error)
| NoSocket.

(** The key and value of a line, both trimmed; [None] for a blank line, a comment,
    a section header or a line with no [=]. *)
Definition ask_setting (line : bytes) : option (bytes * bytes) :=
  let line := TrimSpace line in
  if (line =s "") || HasPrefix line "#" || HasPrefix line "[" then None
  else match Cut line "=" with
       | None => None
       | Some (key, value) => Some (TrimSpace key, TrimSpace value)
       end.

(** One turn of the loop; an unparseable [NotAfter] ends it. *)
Definition ask_line (line : bytes) (req : askRequest) : ask_error + askRequest :=
  match ask_setting line with
  | None => inr req
  | Some (key, value) =>
      if key =s "Socket" then inr (set_socket value req)
      else if key =s "Id" then inr (set_id value req)
      else if key =s "Message" then inr (set_message value req)
      else if key =s "NotAfter" then
        match ParseUint value with
        | None => inl (BadNotAfter value)
        | Some n => inr (set_notAfter n req)
        end
      else inr req
  end.

Fixpoint ask_lines (lines : list bytes) (req : askRequest) : ask_error + askRequest :=
  match lines with
  | [] => inr req
  | l :: ls => match ask_line l req with
               | inl e => inl e
               | inr req => ask_lines ls req
               end
  end.

Definition parseAskFile (r : reader) : ask_error + askRequest :=
  let '(lines, err) := scan_lines r in
  match ask_lines lines (mkAsk [] [] [] [] 0) with
  | inl e => inl e
  | inr req =>
      match err with
      | Some e => inl (AskScan e)
      | None => if socket req =s "" then inl NoSocket else inr req
      end
  end.

Definition expired (a : askRequest) (nowUsec : Z) : bool :=
  negb (notAfter a =? 0) && (notAfter a <=? nowUsec).

Definition wantsCryptsetup (a : askRequest) : bool := HasPrefix (id a) cryptsetupIDPrefix.

(** ** The unlock configuration *)

Record luksConfig := mkConfig {
  Device : bytes;
  Seed : bytes;
  KeyHolderDeviceID : bytes;
  Role : bytes;
}.

Record luksToken := mkToken {
  tok_Type : bytes;
  tok_Version : Z;
  tok_Seed : bytes;
  tok_KeyHolderDeviceID : bytes;
  tok_Role : bytes;
}.

Definition luksTokenType : bytes := "syncthing-socket".
Definition luksTokenVersion : Z := 1.

(** [json.Unmarshal(raw, &tok)] *)
Definition unmarshalToken (raw : bytes) : option luksToken :=
  o ← (parse raw ≫= as_object);
  t ← string_field "type" [] o;
  v ← int_field "version" 0 o;
  s ← string_field "p2p_key_seed" [] o;
  k ← string_field "key_holder_device_id" [] o;
  r ← string_field "unlock_role" [] o;
  Some (mkToken t v s k r).

Inductive token_error : Type :=
| TokenJSON
| TokenNoVersion
| TokenVersion (v : Z)
| TokenNoSeed
| TokenRole (role : bytes).

Definition known_role (role : bytes) : bool := (role =s "client") || (role =s "server").

(** [None] for a token that is somebody else's. *)
Definition parseLUKSToken (raw : bytes) : token_error + option luksConfig :=
  match unmarshalToken raw with
  | None => inl TokenJSON
  | Some tok =>
      if negb (tok_Type tok =s luksTokenType) then inr None
      else if negb (tok_Version tok =? luksTokenVersion) then
        if tok_Version tok =? 0 then inl TokenNoVersion else inl (TokenVersion (tok_Version tok))
      else if tok_Seed tok =s "" then inl TokenNoSeed
      else
        let role := if tok_Role tok =s "" then str "client" else tok_Role tok in
        if negb (known_role role) then inl (TokenRole role)
        else inr (Some (mkConfig [] (tok_Seed tok) (tok_KeyHolderDeviceID tok) role))
  end.

Inductive conf_error : Type :=
| ConfScan (e : error)
| ConfRole (role : bytes).

(** The key and the unquoted value of a line of luks.conf. *)
Definition conf_setting (line : bytes) : option (bytes * bytes) :=
  let line := TrimSpace line in
  if (line =s "") || HasPrefix line "#" then None
  else match Cut line "=" with
       | None => None
       | Some (key, value) => Some (TrimSpace key, Trim (TrimSpace value) [x22; x27])
       end.

Definition conf_line (cfg : luksConfig) (line : bytes) : luksConfig :=
  match conf_setting line with
  | None => cfg
  | Some (key, value) =>
      if key =s "P2P_KEY_SEED" then mkConfig (Device cfg) value (KeyHolderDeviceID cfg) (Role cfg)
      else if key =s "KEY_HOLDER_DEVICE_ID" then mkConfig (Device cfg) (Seed cfg) value (Role cfg)
      else if key =s "UNLOCK_ROLE" then
        if value =s "" then cfg else mkConfig (Device cfg) (Seed cfg) (KeyHolderDeviceID cfg) value
      else cfg
  end.

(** [None] when the file sets no seed. *)
Definition parseLuksConf (r : reader) : conf_error + option luksConfig :=
  let '(lines, err) := scan_lines r in
  let cfg := foldl conf_line (mkConfig [] [] [] "client") lines in
  match err with
  | Some e => inl (ConfScan e)
  | None =>
      if Seed cfg =s "" then inr None
      else if negb (known_role (Role cfg)) then inl (ConfRole (Role cfg))
      else inr (Some cfg)
  end.

(** ** Finding the token *)

(** The token ids of the [Tokens:] section with the wanted type. *)
Fixpoint token_lines (tokenType : bytes) (inTokens : bool) (lines : list bytes) : list Z :=
  match lines with
  | [] => []
  | line :: ls =>
      if negb (HasPrefix line " ") && negb (HasPrefix line [x09])
      then token_lines tokenType (HasPrefix line "Tokens:") ls
      else if negb inTokens then token_lines tokenType inTokens ls
      else match Cut (TrimSpace line) ":" with
           | None => token_lines tokenType inTokens ls
           | Some (idPart, typePart) =>
               if negb (TrimSpace typePart =s tokenType) then token_lines tokenType inTokens ls
               else match Atoi (TrimSpace idPart) with
                    | Some id => id :: token_lines tokenType inTokens ls
                    | None => token_lines tokenType inTokens ls
                    end
           end
  end.

Definition tokenIDsFromDump (dump tokenType : bytes) : list Z :=
  token_lines tokenType false (Split dump x0a).

(** Devices that never hold a LUKS container in an initrd. *)
Definition skipped_device (name : bytes) : bool :=
  HasPrefix name "ram" || HasPrefix name "loop" || HasPrefix name "zram" || HasPrefix name "sr".

Definition partition_line (line : bytes) : option bytes :=
  match Fields line with
  | [major; _; _; name] =>
      if (major =s "major") || skipped_device name then None else Some (str "/dev/" ++ name)
  | _ => None
  end.

Definition blockDevices (procPartitions : reader) : list bytes :=
  omap partition_line (fst (scan_lines procPartitions)).

(** [commandRunner]: the output of a command line, or an error. *)
Definition runner := list bytes → result bytes.

Definition luksDump (device : bytes) : list bytes := [str "cryptsetup"; str "luksDump"; device].
Definition tokenExport (id : Z) (device : bytes) : list bytes :=
  [str "cryptsetup"; str "token"; str "export"; str "--token-id"; Itoa id; device].

Definition with_device (device : bytes) (cfg : luksConfig) : luksConfig :=
  mkConfig device (Seed cfg) (KeyHolderDeviceID cfg) (Role cfg).

(** The inner loop: the first token of [device] that is ours and usable. *)
Fixpoint scan_tokens (run : runner) (device : bytes) (ids : list Z) : option luksConfig :=
  match ids with
  | [] => None
  | id :: ids =>
      match run (tokenExport id device) with
      | Err _ => scan_tokens run device ids
      | Ok raw =>
          match parseLUKSToken raw with
          | inr (Some cfg) => Some (with_device device cfg)
          | _ => scan_tokens run device ids
          end
      end
  end.

Fixpoint scanDevicesForConfig (run : runner) (devices : list bytes) : option luksConfig :=
  match devices with
  | [] => None
  | device :: devices =>
      match run (luksDump device) with
      | Err _ => scanDevicesForConfig run devices
      | Ok dump =>
          match scan_tokens run device (tokenIDsFromDump dump luksTokenType) with
          | Some cfg => Some cfg
          | None => scanDevicesForConfig run devices
          end
      end
  end.

Inductive find_error : Type :=
| FindConf (e : conf_error)
| FindPartitions (e : error).

(** [conf] and [partitions] are what opening luks.conf and /proc/partitions gives. *)
Definition findLUKSConfig (run : runner) (conf partitions : result reader)
    : find_error + option luksConfig :=
  let scan :=
    match partitions with
    | Err e => inl (FindPartitions e)
    | Ok p => inr (scanDevicesForConfig run (blockDevices p))
    end in
  match conf with
  | Err _ => scan
  | Ok f => match parseLuksConf f with
            | inl e => inl (FindConf e)
            | inr (Some cfg) => inr (Some cfg)
            | inr None => scan
            end
  end.

(** ** Resolvers *)

Definition dnsFromNetworkdState (r : reader) : list bytes :=
  concat (omap (λ line, Fields <$> CutPrefix (TrimSpace line) "DNS=") (fst (scan_lines r))).

(** ** Messages *)

(** The last line that is not blank. *)
Definition lastLine (s : bytes) : bytes :=
  default [] (head (filter (λ l, l ≠ []) (map TrimSpace (reverse (Split (TrimSpace s) x0a))))).

Example ask_ex :
  parseAskFile (Reader (Join (map str
    ["[Ask]"; "PID=312"; "Socket=/run/systemd/ask-password/sck.abc";
     "AcceptCached=0"; "NotAfter=123456"; "Id=cryptsetup:/dev/sda2";
     "Message=Please enter passphrase"; ""]%string) [x0a]) None)
  = inr (mkAsk [] "/run/systemd/ask-password/sck.abc" "cryptsetup:/dev/sda2"
           "Please enter passphrase" 123456).
Proof. vm_compute. reflexivity. Qed.

Example token_ex :
  parseLUKSToken (jtext "{'type':'syncthing-socket','keyslots':[],'version':1,'p2p_key_seed':'s3'}")
  = inr (Some (mkConfig [] "s3" [] "client")).
Proof. vm_compute. reflexivity. Qed.

Example dump_ex :
  tokenIDsFromDump (Join (map str ["LUKS header"; "Keyslots:"; "  0: luks2"; "Tokens:"; "  0: clevis";
    "  1: syncthing-socket"; "	Keyslot:    1"; "Digests:"; "  0: pbkdf2"]%string) [x0a])
    luksTokenType = [1].
Proof. vm_compute. reflexivity. Qed.

Example partitions_ex :
  blockDevices (Reader (Join (map str ["major minor  #blocks  name"; ""; "   8        0   10 sda";
    "   7        0   10 loop0"; " 252 0 5 zram0"; " 259 1 77 nvme0n1p2"]%string) [x0a]) None)
  = map str ["/dev/sda"; "/dev/nvme0n1p2"]%string.
Proof. vm_compute. reflexivity. Qed.

(** ** Reading back a request *)

(** The file systemd writes for a request. *)
Definition print_ask (req : askRequest) : list bytes :=
  [ str "[Ask]"; str "Socket=" ++ socket req; str "Id=" ++ id req;
    str "Message=" ++ message req; str "NotAfter=" ++ Itoa (notAfter req) ].

(** A value that fits on a line of its own. *)
Definition value_ok (v : bytes) : Prop :=
  trimmed v ∧ (x0a ∉ v) ∧ Z.of_nat (length v) < 65000.

Lemma ask_setting_kv a k v :
  plain a = true → trimmed (a :: k) → x3d ∉ a :: k → beq a x23 = false → beq a x5b = false →
  trimmed v → ask_setting ((a :: k) ++ x3d :: v) = Some (a :: k, v).
Proof.
  intros Ha Hk He H1 H2 Hv. unfold ask_setting.
  rewrite TrimSpace_trimmed by (by apply trimmed_app).
  assert (((a :: k) ++ x3d :: v =s "") = false) as -> by done.
  assert (HasPrefix ((a :: k) ++ x3d :: v) "#" = false) as ->.
  { change (str "#") with [x23]. cbn [app HasPrefix]. assert (beq x23 a = false) as ->; [|done].
    apply beq_false. apply beq_false in H1. congruence. }
  assert (HasPrefix ((a :: k) ++ x3d :: v) "[" = false) as ->.
  { change (str "[") with [x5b]. cbn [app HasPrefix]. assert (beq x5b a = false) as ->; [|done].
    apply beq_false. apply beq_false in H2. congruence. }
  cbn [orb]. change (str "=") with [x3d]. rewrite Cut_byte by done.
  by rewrite !TrimSpace_trimmed.
Qed.

Lemma kv_line_ok a k v :
  plain a = true → x0a ∉ a :: k → Z.of_nat (length (a :: k)) < 100 → value_ok v →
  line_ok ((a :: k) ++ x3d :: v).
Proof.
  intros Ha Hk Hl (Hv & Hn & Hlen). apply line_ok_trimmed.
  - by apply trimmed_app.
  - set_solver.
  - rewrite length_app. cbn [length] in *. unfold max_token. lia.
Qed.

Lemma Itoa_value_ok z : 0 ≤ z ≤ max_uint64 → value_ok (Itoa z).
Proof.
  intros Hz. destruct (Itoa_nonneg_shape z) as (c & t & Hi & _); [lia|].
  pose proof (digits_is_digit 0 (Itoa z) z (digits_Itoa z ltac:(lia))) as Hd.
  assert (Hp : ∀ b, b ∈ Itoa z → plain b = true ∧ b ≠ x0a).
  { intros b Hb. rewrite forallb_forall in Hd. specialize (Hd b (proj1 (list_elem_of_In _ _) Hb)).
    destruct b; vm_compute in Hd; try discriminate Hd; split; done. }
  split_and!.
  - destruct (reverse (Itoa z)) as [|e u] eqn:Hr.
    { by rewrite <- (reverse_involutive (Itoa z)), Hr in Hi. }
    split.
    + rewrite Hi. refine (plain_head c t (proj1 (Hp c _))). rewrite Hi. set_solver.
    + rewrite Hr. refine (plain_last e u (proj1 (Hp e _))).
      rewrite <- elem_of_reverse, Hr. set_solver.
  - intros H. by destruct (Hp x0a H).
  - unfold Itoa. rewrite (proj2 (Z.ltb_ge z 0)), Z.abs_eq by lia. cbn [app].
    pose proof (udec_length (S (Z.to_nat (Z.log2 z))) z).
    assert (Z.log2 z ≤ 63); [|lia].
    exact (Z.log2_le_mono _ _ (proj2 Hz)).
Qed.

Ltac ask_key c rest v :=
  intros Hv; unfold ask_line; change (str _ ++ v) with ((c :: str rest) ++ x3d :: v);
  rewrite ask_setting_kv by (first [done | set_solver]); reflexivity.

Lemma ask_line_socket v req :
  trimmed v → ask_line (str "Socket=" ++ v) req = inr (set_socket v req).
Proof. ask_key x53 "ocket"%string v. Qed.
Lemma ask_line_id v req : trimmed v → ask_line (str "Id=" ++ v) req = inr (set_id v req).
Proof. ask_key x49 "d"%string v. Qed.
Lemma ask_line_message v req :
  trimmed v → ask_line (str "Message=" ++ v) req = inr (set_message v req).
Proof. ask_key x4d "essage"%string v. Qed.
Lemma ask_line_notAfter z req :
  0 ≤ z ≤ max_uint64 → ask_line (str "NotAfter=" ++ Itoa z) req = inr (set_notAfter z req).
Proof.
  intros Hz. destruct (Itoa_value_ok z Hz) as [Ht _]. unfold ask_line.
  change (str "NotAfter=" ++ Itoa z) with ((x4e :: str "otAfter") ++ x3d :: Itoa z).
  rewrite ask_setting_kv by (first [done | set_solver]). cbn -[ParseUint Itoa].
  by rewrite ParseUint_Itoa.
Qed.

(** A request written the way systemd writes it is read back field by field. *)
Theorem parseAskFile_roundtrip req :
  value_ok (socket req) → value_ok (id req) → value_ok (message req) →
  socket req ≠ [] → 0 ≤ notAfter req ≤ max_uint64 →
  parseAskFile (Reader (text (print_ask req)) None) = inr (set_path [] req).
Proof.
  intros Hs Hi Hm Hne Hn. pose proof (Itoa_value_ok _ Hn) as Ht.
  unfold parseAskFile. rewrite scan_lines_text.
  - unfold print_ask. cbn [ask_lines]. change (ask_line (str "[Ask]") ?r) with (@inr ask_error _ r).
    cbv match. rewrite ask_line_socket by apply Hs. cbv match.
    rewrite ask_line_id by apply Hi. cbv match. rewrite ask_line_message by apply Hm. cbv match.
    rewrite ask_line_notAfter by done. cbn [socket set_notAfter set_message set_id set_socket].
    by assert ((socket req =s "") = false) as -> by (by apply seq_eqb_false).
  - unfold print_ask. repeat (apply Forall_cons; split); [..|by apply Forall_nil].
    + split_and!; [set_solver|done|done].
    + apply (kv_line_ok x53 (str "ocket")); [done|set_solver|done|done].
    + apply (kv_line_ok x49 (str "d")); [done|set_solver|done|done].
    + apply (kv_line_ok x4d (str "essage")); [done|set_solver|done|done].
    + apply (kv_line_ok x4e (str "otAfter")); [done|set_solver|done|done].
Qed.

(** The values of the [NotAfter] lines of a request. *)
Definition notAfter_values (lines : list bytes) : list bytes :=
  omap (λ l, '(k, v) ← ask_setting l; if k =s "NotAfter" then Some v else None) lines.

Lemma ask_lines_notAfter lines req0 req :
  ask_lines lines req0 = inr req →
  ∃ ns, Forall2 (λ v n, ParseUint v = Some n) (notAfter_values lines) ns ∧
        notAfter req = default (notAfter req0) (last ns).
Proof.
  revert req0; induction lines as [|l lines IH]; intros req0; cbn [ask_lines].
  { intros [= ->]. by exists []. }
  destruct (ask_line l req0) as [e|req1] eqn:El; [done|].
  intros (ns & Hns & Hn)%IH. unfold notAfter_values in *. cbn [omap list_omap].
  unfold ask_line in El. destruct (ask_setting l) as [[k v]|]; cbn [mbind option_bind].
  - destruct (k =s "NotAfter") eqn:Ek; bools; subst.
    + destruct (ParseUint v) as [n|] eqn:Ep; [|done]. injection El as <-.
      exists (n :: ns). split; [by constructor|]. rewrite Hn, last_cons. by destruct (last ns).
    + assert (notAfter req1 = notAfter req0) as Hn1.
      { repeat case_match; bools; by simplify_eq/=. }
      exists ns. split; [done|]. by rewrite Hn, Hn1.
  - simplify_eq. by exists ns.
Qed.

(** A request whose timestamp cannot be parsed is rejected, never read as one
    that does not expire: every [NotAfter] line of an accepted request parses as
    an unsigned 64-bit number, and the last one is the expiry kept. *)
Theorem parseAskFile_expiry r req :
  parseAskFile r = inr req →
  ∃ ns, Forall2 (λ v n, ParseUint v = Some n) (notAfter_values (fst (scan_lines r))) ns ∧
        notAfter req = default 0 (last ns).
Proof.
  unfold parseAskFile. destruct (scan_lines r) as [lines err]. cbn [fst].
  destruct (ask_lines _ _) as [e|req'] eqn:E; [done|].
  apply ask_lines_notAfter in E as (ns & Hns & Hn). intros H.
  repeat case_match; simplify_eq. eauto.
Qed.

(** ** Configurations are usable *)

(** What the transfer needs: a seed, and a role it knows. *)
Definition valid_config (cfg : luksConfig) : Prop :=
  Seed cfg ≠ [] ∧ (Role cfg = "client" ∨ Role cfg = "server").

Lemma known_role_spec r : known_role r = true ↔ r = "client" ∨ r = "server".
Proof. unfold known_role. by rewrite orb_true_iff, !seq_eqb_true. Qed.

(** A token yields a configuration exactly when it is ours, of the version
    this build understands, carries a seed, and names a known role or none; a
    missing role means client. *)
Theorem parseLUKSToken_spec raw cfg :
  parseLUKSToken raw = inr (Some cfg) ↔
  ∃ tok, unmarshalToken raw = Some tok ∧ tok_Type tok = luksTokenType ∧
    tok_Version tok = luksTokenVersion ∧ tok_Seed tok ≠ [] ∧
    (tok_Role tok = [] ∧ Role cfg = "client" ∨
     (tok_Role tok = "client" ∨ tok_Role tok = "server") ∧ Role cfg = tok_Role tok) ∧
    Device cfg = [] ∧ Seed cfg = tok_Seed tok ∧
    KeyHolderDeviceID cfg = tok_KeyHolderDeviceID tok.
Proof.
  unfold parseLUKSToken. destruct (unmarshalToken raw) as [tok|]; [|naive_solver].
  destruct (tok_Type tok =s luksTokenType) eqn:Et; bools; cbn [negb]; [|naive_solver].
  destruct (tok_Version tok =? luksTokenVersion) eqn:Ev; bools; cbn [negb].
  2: { case_match; naive_solver. }
  destruct (tok_Seed tok =s "") eqn:Es; bools; [naive_solver|].
  destruct (tok_Role tok =s "") eqn:Er; bools.
  - change (known_role "client") with true. cbn [negb]. split.
    + intros [= <-]. exists tok. cbn. naive_solver.
    + intros (tok' & [= <-] & _ & _ & _ & [[_ Hr]|[[Hr|Hr] _]] & Hd & Hs & Hk);
        [|by rewrite Hr in Er..].
      destruct cfg. by simplify_eq/=.
  - destruct (known_role (tok_Role tok)) eqn:Ek; cbn [negb].
    + apply known_role_spec in Ek. split.
      * intros [= <-]. exists tok. cbn. naive_solver.
      * intros (tok' & [= <-] & _ & _ & _ & [[Hr _]|[_ Hr]] & Hd & Hs & Hk); [by rewrite Hr in Er|].
        destruct cfg. by simplify_eq/=.
    + apply not_true_iff_false in Ek. rewrite known_role_spec in Ek. naive_solver.
Qed.

Lemma parseLuksConf_valid r cfg :
  parseLuksConf r = inr (Some cfg) → valid_config cfg ∧ Device cfg = [].
Proof.
  unfold parseLuksConf. destruct (scan_lines r) as [lines err].
  assert (Hd : ∀ c, Device c = [] → Device (foldl conf_line c lines) = []).
  { induction lines as [|l ls IH]; intros c Hc; [done|]. cbn [foldl]. apply IH.
    unfold conf_line. by repeat case_match. }
  specialize (Hd (mkConfig [] [] [] "client") eq_refl).
  destruct err; [done|]. destruct (Seed _ =s "") eqn:Es; [done|].
  destruct (known_role _) eqn:Er; [|done]. bools. apply known_role_spec in Er.
  cbn [negb]. intros [= <-]. done.
Qed.

(** *** The scan over devices *)

(** What one token, and one device, contribute. *)
Definition token_config (run : runner) (device : bytes) (id : Z) : option luksConfig :=
  match run (tokenExport id device) with
  | Ok raw => match parseLUKSToken raw with
              | inr (Some cfg) => Some (with_device device cfg)
              | _ => None
              end
  | Err _ => None
  end.

Definition device_config (run : runner) (device : bytes) : option luksConfig :=
  match run (luksDump device) with
  | Ok dump => head (omap (token_config run device) (tokenIDsFromDump dump luksTokenType))
  | Err _ => None
  end.

Lemma scan_tokens_first run device ids :
  scan_tokens run device ids = head (omap (token_config run device) ids).
Proof.
  induction ids as [|i ids IH]; [done|]. cbn [scan_tokens omap list_omap].
  unfold token_config at 1. rewrite IH. by repeat case_match.
Qed.

(** The nested loops over devices and tokens, with their [continue]s, return the
    first usable configuration in order of devices, then of tokens. *)
Lemma scanDevices_first run devices :
  scanDevicesForConfig run devices = head (omap (device_config run) devices).
Proof.
  induction devices as [|d ds IH]; [done|]. cbn [scanDevicesForConfig omap list_omap].
  unfold device_config at 1. rewrite IH.
  destruct (run (luksDump d)); [|done]. rewrite scan_tokens_first. by case_match.
Qed.

Lemma head_omap_Some {A B} (f : A → option B) l y :
  head (omap f l) = Some y → ∃ x, x ∈ l ∧ f x = Some y.
Proof.
  induction l as [|a l IH]; [done|]. cbn. destruct (f a) eqn:E; cbn.
  - intros [= ->]. exists a. split; [by left|done].
  - intros (x & Hx & Hf)%IH. exists x. split; [by right|done].
Qed.

Lemma device_config_valid run device cfg :
  device_config run device = Some cfg → valid_config cfg ∧ Device cfg = device.
Proof.
  unfold device_config. destruct (run (luksDump device)) as [dump|]; [|done].
  intros (i & _ & Ht)%head_omap_Some. unfold token_config in Ht.
  destruct (run _) as [raw|]; [|done].
  destruct (parseLUKSToken raw) as [|[c|]] eqn:Ep; [done| |done]. injection Ht as <-.
  unfold parseLUKSToken in Ep. repeat (case_match; simplify_eq/=); bools; unfold valid_config;
    cbn; rewrite <- known_role_spec; naive_solver.
Qed.

(** C34. Every configuration found is usable, and luks.conf takes precedence: the
    devices are looked at only when it is absent or sets no seed, and then the
    configuration names the block device it came from. *)
Theorem findLUKSConfig_sound run conf partitions cfg :
  findLUKSConfig run conf partitions = inr (Some cfg) →
  valid_config cfg ∧
  ((∃ f, conf = Ok f ∧ parseLuksConf f = inr (Some cfg) ∧ Device cfg = []) ∨
   (∀ f, conf = Ok f → parseLuksConf f = inr None) ∧
   ∃ p, partitions = Ok p ∧ Device cfg ∈ blockDevices p ∧
        device_config run (Device cfg) = Some cfg).
Proof.
  assert (Hscan : ∀ p, scanDevicesForConfig run (blockDevices p) = Some cfg →
    valid_config cfg ∧ Device cfg ∈ blockDevices p ∧ device_config run (Device cfg) = Some cfg).
  { intros p. rewrite scanDevices_first. intros (d & Hin & Hd)%head_omap_Some.
    destruct (device_config_valid _ _ _ Hd) as [Hv <-]. done. }
  unfold findLUKSConfig. destruct conf as [f|e].
  - destruct (parseLuksConf f) as [|[c|]] eqn:Ef; [done| |].
    + intros [= <-]. destruct (parseLuksConf_valid _ _ Ef). split; [done|]. left. eauto.
    + destruct partitions as [p|]; [|done]. intros [= (Hv & Hin & Hd)%Hscan].
      split; [done|]. right. split; [naive_solver|eauto].
  - destruct partitions as [p|]; [|done]. intros [= (Hv & Hin & Hd)%Hscan].
    split; [done|]. right. split; [done|eauto].
Qed.

(** ** The dump of a header *)

(** The line [luksDump] prints for a token. *)
Definition token_line (tok : Z * bytes) : bytes :=
  str "  " ++ Itoa (fst tok) ++ str ": " ++ snd tok.

Definition token_ok (tok : Z * bytes) : Prop :=
  0 ≤ fst tok ≤ max_int64 ∧ snd tok ≠ [] ∧ trimmed (snd tok) ∧ (x0a ∉ snd tok).

(** Lines before and after the section: none starts another one. *)
Definition other_lines (ls : list bytes) : Prop :=
  Forall (λ l, HasPrefix l "Tokens:" = false ∧ (x0a ∉ l)) ls.

Lemma token_lines_outside ty ls rest :
  Forall (λ l, HasPrefix l "Tokens:" = false) ls →
  token_lines ty false (ls ++ rest) = token_lines ty false rest.
Proof.
  induction 1 as [|l ls Hl _ IH]; [done|]. cbn [app token_lines].
  rewrite Hl. by case_match.
Qed.

Lemma TrimSpace_indent s : TrimSpace (str "  " ++ s) = TrimSpace s.
Proof. reflexivity. Qed.

Lemma TrimSpace_space s : TrimSpace (x20 :: s) = TrimSpace s.
Proof. reflexivity. Qed.

Lemma token_lines_token ty tok rest :
  token_ok tok →
  token_lines ty true (token_line tok :: rest)
  = (if snd tok =s ty then [fst tok] else []) ++ token_lines ty true rest.
Proof.
  destruct tok as [z t]. intros (Hz & Hne & Ht & Hn). cbn [fst snd] in *.
  assert (Hc : x3a ∉ Itoa z).
  { intros H%Itoa_plain; [done|lia]. }
  assert (Hz' : 0 ≤ z ≤ max_uint64) by (unfold max_int64, max_uint64 in *; lia).
  destruct (Itoa_value_ok z Hz') as [Hti _].
  cbn [token_lines]. change (HasPrefix (token_line (z, t)) " ") with true. cbn [negb andb].
  unfold token_line. cbn [fst snd]. rewrite TrimSpace_indent.
  assert (Htr : trimmed (Itoa z ++ str ": " ++ t)).
  { destruct (Itoa_nonneg_shape z) as (c & u & Hi & _); [lia|].
    split.
    - rewrite Hi. apply plain_head.
      assert (is_digit c = true) as Hd by (apply (Itoa_plain z); [lia|rewrite Hi; set_solver]).
      by destruct c; vm_compute in Hd.
    - rewrite !reverse_app. destruct Ht as [_ Ht].
      change (reverse (str ": ")) with [x20; x3a]. rewrite <- app_assoc. cbn [app].
      rewrite rune_at_space; [exact Ht|].
      intros He. apply Hne. by rewrite <- (reverse_involutive t), He. }
  rewrite (TrimSpace_trimmed _ Htr). change (str ": " ++ t) with (x3a :: x20 :: t).
  change (str ":") with [x3a]. rewrite Cut_byte by done.
  rewrite TrimSpace_space, (TrimSpace_trimmed t), (TrimSpace_trimmed (Itoa z)) by done.
  rewrite Atoi_Itoa by (unfold min_int64 in *; lia).
  by destruct (t =s ty).
Qed.

Lemma token_lines_section ty toks rest :
  Forall token_ok toks →
  token_lines ty true (map token_line toks ++ rest)
  = map fst (filter (λ tok, snd tok = ty) toks) ++ token_lines ty true rest.
Proof.
  induction 1 as [|tok toks Ht _ IH]; [done|]. cbn [map app].
  rewrite token_lines_token, IH by done. rewrite filter_cons.
  destruct (snd tok =s ty) eqn:E; bools; case_decide; by try done.
Qed.

(** From a dump whose tokens section lists [toks], the ids returned are those
    of the tokens with the wanted type, in order, whatever other sections the dump
    has before and after. *)
Theorem tokenIDsFromDump_spec before toks heading after ty :
  other_lines before → Forall token_ok toks → other_lines (heading :: after) →
  HasPrefix heading " " = false → HasPrefix heading [x09] = false →
  tokenIDsFromDump
    (Join (before ++ [str "Tokens:"] ++ map token_line toks ++ heading :: after) [x0a]) ty
  = map fst (filter (λ tok, snd tok = ty) toks).
Proof.
  intros Hb Ht Ha Hh1 Hh2. unfold tokenIDsFromDump.
  assert (Hl : Forall (λ l, x0a ∉ l)
    (before ++ [str "Tokens:"] ++ map token_line toks ++ heading :: after)).
  { apply Forall_app. split; [eapply Forall_impl; [exact Hb|naive_solver]|].
    apply Forall_app. split; [by repeat constructor; set_solver|].
    apply Forall_app. split; [|eapply Forall_impl; [exact Ha|naive_solver]].
    apply Forall_fmap. eapply Forall_impl; [exact Ht|]. intros [z t] (Hz & _ & _ & Hn).
    unfold token_line. cbn [fst snd] in *. intros H.
    rewrite !elem_of_app in H. destruct H as [H|[H|[H|H]]]; [set_solver| |set_solver|done].
    by pose proof (Itoa_plain z x0a ltac:(lia) H). }
  assert (Hs : Split (Join (before ++ [str "Tokens:"] ++ map token_line toks ++ heading :: after)
    [x0a]) x0a = before ++ [str "Tokens:"] ++ map token_line toks ++ heading :: after).
  { destruct before; cbn [app] in *; by apply Split_Join. }
  rewrite Hs, token_lines_outside by (eapply Forall_impl; [exact Hb|naive_solver]).
  cbn [app token_lines]. change (HasPrefix (str "Tokens:") " ") with false.
  change (HasPrefix (str "Tokens:") [x09]) with false.
  change (HasPrefix (str "Tokens:") "Tokens:") with true. cbn [negb andb].
  rewrite token_lines_section by done.
  inversion Ha as [|? ? [Hh Hn] Ha']; subst.
  cbn [token_lines]. rewrite Hh1, Hh2, Hh. cbn [negb andb].
  rewrite <- (app_nil_r after), token_lines_outside
    by (eapply Forall_impl; [exact Ha'|naive_solver]).
  cbn [token_lines]. by rewrite app_nil_r.
Qed.

(** ** The theorems at concrete inputs *)

Definition ask_wit : askRequest :=
  mkAsk [] "/run/systemd/ask-password/sck.1" "cryptsetup:/dev/sda2" "Please enter it" 77.

Lemma parseAskFile_roundtrip_witness :
  parseAskFile (Reader (text (print_ask ask_wit)) None) = inr ask_wit.
Proof.
  apply (parseAskFile_roundtrip ask_wit); try (by apply (bool_decide_unpack _); vm_compute);
    unfold value_ok; split_and!; by apply (bool_decide_unpack _); vm_compute.
Defined.

Lemma parseAskFile_expiry_witness :
  ∃ ns, Forall2 (λ v n, ParseUint v = Some n)
          (notAfter_values (fst (scan_lines (Reader (text (print_ask ask_wit)) None)))) ns ∧
        77 = default 0 (last ns).
Proof.
  refine (parseAskFile_expiry (Reader (text (print_ask ask_wit)) None) ask_wit _).
  vm_compute. reflexivity.
Defined.

(** A machine whose second disk carries a foreign token and ours. *)
Definition run_wit : runner := λ cmd,
  if bool_decide (cmd = luksDump "/dev/sdb") then
    Ok (Join (map str ["LUKS header"; "Tokens:"; "  0: clevis"; "  1: syncthing-socket"]%string) [x0a])
  else if bool_decide (cmd = tokenExport 1 "/dev/sdb") then
    Ok (jtext "{'type':'syncthing-socket','version':1,'p2p_key_seed':'s3','unlock_role':'server'}")
  else Err (LibErr "exit status 1").

Definition partitions_wit : reader :=
  Reader (Join (map str ["major minor  #blocks  name"; ""; "   8   0   10 sda"; "   8  16   10 sdb"]%string)
            [x0a]) None.

Definition config_wit : luksConfig := mkConfig "/dev/sdb" "s3" [] "server".

Lemma findLUKSConfig_sound_witness :
  findLUKSConfig run_wit (Err (LibErr "no such file")) (Ok partitions_wit) = inr (Some config_wit) ∧
  valid_config config_wit.
Proof.
  split; [vm_compute; reflexivity|].
  apply (findLUKSConfig_sound run_wit (Err (LibErr "no such file")) (Ok partitions_wit)).
  vm_compute. reflexivity.
Defined.

Lemma tokenIDsFromDump_spec_witness :
  tokenIDsFromDump
    (Join ([str "Keyslots:"; str "  0: luks2"] ++ [str "Tokens:"]
       ++ map token_line [(0, str "clevis"); (1, luksTokenType); (7, luksTokenType)]
       ++ str "Digests:" :: [str "  0: pbkdf2"]) [x0a]) luksTokenType = [1; 7].
Proof.
  apply (tokenIDsFromDump_spec [str "Keyslots:"; str "  0: luks2"]
    [(0, str "clevis"); (1, luksTokenType); (7, luksTokenType)] "Digests:" [str "  0: pbkdf2"]
    luksTokenType); try done.
  - repeat constructor; by apply (bool_decide_unpack _); vm_compute.
  - repeat (apply Forall_cons; split); [..|by apply Forall_nil];
      split_and!; by apply (bool_decide_unpack _); vm_compute.
  - repeat constructor; by apply (bool_decide_unpack _); vm_compute.
Defined.
