(* ===== verification/LuksAgent.v ===== *)
(** * The LUKS password agent (luks_agent.go, luks_agent_linux.go)

    The agent polls systemd's request directory, looks for the unlock configuration,
    fetches the passphrase by running this same program as a subprocess, tests it
    against the device, and answers the request on its socket.  Everything it asks
    of the operating system is a request of [osE]; its state, the paths already
    dealt with and whether a passphrase was delivered, is passed from one turn of
    the endless loop to the next. *)

From S2P Require Import Prelude GoStrings Effects LuksConfig.

(** ** What the agent asks of the system *)

Inductive stat_result : Type :=
| Present (size : Z)
| NotExist
| StatErr (e : error).

(** How a transfer that failed ended: the error of [cmd.Output], whether the
    deadline of the attempt had passed, and what the subprocess said. *)
Record transfer_failure := mkFailure {
  exit_error : error;
  deadline_passed : bool;
  stderr_text : bytes;
}.

(** What [findLUKSConfig] looks at: what its commands print, luks.conf and
    /proc/partitions. *)
Record machine := mkMachine {
  commands : runner;
  conf_file : result reader;
  proc_partitions : result reader;
}.

Inductive osE : Type → Type :=
| Sleep (seconds : Z) : osE unit
| ReadDir (dir : bytes) : osE (result (list bytes))
| ClockGettime : osE (result (Z * Z))
| OpenFile (path : bytes) : osE (result reader)
| Stat (path : bytes) : osE stat_result
| Glob (pattern : bytes) : osE (result (list bytes))
| ReadFile (path : bytes) : osE (result bytes)
| WriteFile (path content : bytes) : osE (option error)
| LookAround : osE machine
| Executable : osE (result bytes)
| Transfer (self : bytes) (args : list bytes) : osE (transfer_failure + bytes)
| RunStdin (cmd : list bytes) (stdin : bytes) : osE (option error)
| Socket : osE (result Z)
| Sendto (fd : Z) (payload addr : bytes) : osE (option error)
| Close (fd : Z) : osE unit
| Stderr (text : bytes) : osE unit.

Inductive os_entry : Type :=
| Slept (seconds : Z)
| ListedDir (dir : bytes) (r : result (list bytes))
| ReadClock (r : result (Z * Z))
| Opened (path : bytes) (r : result reader)
| Statted (path : bytes) (r : stat_result)
| Globbed (pattern : bytes) (r : result (list bytes))
| FileRead (path : bytes) (r : result bytes)
| FileWritten (path content : bytes) (r : option error)
| LookedAround (m : machine)
| SelfIs (r : result bytes)
| Transferred (self : bytes) (args : list bytes) (r : transfer_failure + bytes)
| Ran (cmd : list bytes) (stdin : bytes) (r : option error)
| NewSocket (r : result Z)
| SentTo (fd : Z) (payload addr : bytes) (r : option error)
| Closed (fd : Z)
| Printed (text : bytes).

Definition os_log {X} (e : osE X) : X → os_entry :=
  match e in osE X return X → os_entry with
  | Sleep s => λ _, Slept s
  | ReadDir d => ListedDir d
  | ClockGettime => ReadClock
  | OpenFile p => Opened p
  | Stat p => Statted p
  | Glob p => Globbed p
  | ReadFile p => FileRead p
  | WriteFile p c => FileWritten p c
  | LookAround => LookedAround
  | Executable => SelfIs
  | Transfer s a => Transferred s a
  | RunStdin c i => Ran c i
  | Socket => NewSocket
  | Sendto fd p a => SentTo fd p a
  | Close fd => λ _, Closed fd
  | Stderr t => λ _, Printed t
  end.

(** The text of a pattern before its first wildcard. *)
Fixpoint fixed_part (pattern : bytes) : bytes :=
  match pattern with
  | [] => []
  | c :: p => if existsb (beq c) (str "*?[") then [] else c :: fixed_part p
  end.

(** The system may answer anything, except that what [Glob] returns matches the
    pattern up to its first wildcard. *)
Definition os_ok {X} (e : osE X) : X → Prop :=
  match e in osE X return X → Prop with
  | Glob pat => λ r, ∀ ms, r = Ok ms → Forall (λ m, HasPrefix m (fixed_part pat) = true) ms
  | _ => λ _, True
  end.

#[global] Instance os_effect : Effect osE :=
  {| entry := os_entry; log X e := os_log e; resp_ok X e := os_ok e |}.

Abbreviation OS := (prog osE).

(** ** The clock *)

(** [uint64(ts.Sec)*1000000 + uint64(ts.Nsec)/1000] *)
Definition usec (sec nsec : Z) : Z := u64 (u64 (u64 sec * 1000000) + u64 nsec / 1000).

Definition monotonicUsec : OS (result Z) :=
  r <- trigger ClockGettime ;;
  match r with
  | Err e => Ret (Err e)
  | Ok (sec, nsec) => Ret (Ok (usec sec nsec))
  end.

(** ** The resolver *)

Definition resolvConf : bytes := "/etc/resolv.conf".

Definition resolverSources : list bytes :=
  map str ["/run/systemd/resolve/resolv.conf"; "/run/NetworkManager/resolv.conf";
           "/tmp/net.*.resolv.conf"]%string.

Definition networkdStateFiles : list bytes :=
  map str ["/run/systemd/netif/state"; "/run/systemd/netif/leases/*"]%string.

Definition globAll (pattern : bytes) : OS (list bytes) :=
  if negb (ContainsAny pattern "*?[") then Ret [pattern]
  else r <- trigger (Glob pattern) ;;
       match r with Ok matches => Ret matches | Err _ => Ret [] end.

(** [for _, x := range xs { if f(x) { return } }]: whether some turn returned. *)
Fixpoint any {A} (f : A → OS bool) (xs : list A) : OS bool :=
  match xs with
  | [] => Ret false
  | x :: xs => b <- f x ;; if b then Ret true else any f xs
  end.

Definition write_resolver (content : bytes) : OS bool :=
  r <- trigger (WriteFile resolvConf content) ;;
  Ret (match r with None => true | Some _ => false end).

Definition copy_candidate (candidate : bytes) : OS bool :=
  r <- trigger (ReadFile candidate) ;;
  match r with
  | Ok (c :: content) => write_resolver (c :: content)
  | _ => Ret false
  end.

Definition nameservers (servers : list bytes) : bytes :=
  concat (map (λ s, str "nameserver " ++ s ++ [x0a]) servers).

Definition build_candidate (candidate : bytes) : OS bool :=
  r <- trigger (OpenFile candidate) ;;
  match r with
  | Err _ => Ret false
  | Ok f =>
      match dnsFromNetworkdState f with
      | [] => Ret false
      | s :: servers => write_resolver (nameservers (s :: servers))
      end
  end.

Definition over_patterns (f : bytes → OS bool) (patterns : list bytes) : OS bool :=
  any (λ pattern, cs <- globAll pattern ;; any f cs) patterns.

Definition ensureResolver : OS unit :=
  st <- trigger (Stat resolvConf) ;;
  if match st with Present size => 0 <? size | _ => false end then Ret tt
  else
    copied <- over_patterns copy_candidate resolverSources ;;
    if copied then Ret tt
    else over_patterns build_candidate networkdStateFiles ;;; Ret tt.

(** ** The passphrase *)

Definition verify_command (device : bytes) : list bytes :=
  [str "cryptsetup"; str "open"; str "--test-passphrase"; str "--key-file=-"; device].

Definition verifyPassphrase (device passphrase : bytes) : OS (option error) :=
  if device =s "" then Ret None
  else trigger (RunStdin (verify_command device) passphrase).

(** In nanoseconds, and as [UnlockAnnounceInterval.String()]. *)
Definition UnlockAnnounceInterval : Z := 60 * 1000000000.
Definition announce_interval_text : bytes := "1m0s".

(** The arguments of the subprocess; [None] for a role it does not know. *)
Definition transfer_args (cfg : luksConfig) : option (list bytes) :=
  let args := [Role cfg; str "--seed"; Seed cfg; str "--log-level"; str "error"] in
  let holder := KeyHolderDeviceID cfg in
  if Role cfg =s "server" then
    Some (args ++ (if holder =s "" then [] else [str "--authorized-clients"; holder])
               ++ [str "--announce-interval"; announce_interval_text])
  else if Role cfg =s "client" then
    Some (args ++ (if holder =s "" then [] else [holder]))
  else None.

Inductive fetch_error : Type :=
| NoExecutable (e : error)
| UnknownRole (role : bytes)
| GaveUp
| Failed (e : error) (detail : bytes).

Definition fetchPassphrase (cfg : luksConfig) : OS (fetch_error + bytes) :=
  self <- trigger Executable ;;
  match self with
  | Err e => Ret (inl (NoExecutable e))
  | Ok self =>
      match transfer_args cfg with
      | None => Ret (inl (UnknownRole (Role cfg)))
      | Some args =>
          r <- trigger (Transfer self args) ;;
          match r with
          | inr out => Ret (inr out)
          | inl f => if deadline_passed f then Ret (inl GaveUp)
                     else Ret (inl (Failed (exit_error f) (lastLine (stderr_text f))))
          end
      end
  end.

Definition replyToAsk (socketPath password : bytes) : OS (option error) :=
  s <- trigger Socket ;;
  match s with
  | Err e => Ret (Some (Wrapf "cannot create a reply socket" e))
  | Ok fd =>
      r <- trigger (Sendto fd (str "+" ++ password) socketPath) ;;
      trigger (Close fd) ;;;
      Ret (match r with
           | None => None
           | Some e => Some (Wrapf (str "cannot send to " ++ socketPath) e)
           end)
  end.

(** ** Pending requests *)

Definition ask_path (name : bytes) : bytes := askPasswordDir ++ str "/" ++ name.

(** One directory entry: the paths dealt with and the requests found so far. *)
Definition pending_entry (now : Z) (answered : gset bytes) (requests : list askRequest)
    (name : bytes) : OS (gset bytes * list askRequest) :=
  if negb (HasPrefix name "ask.") then Ret (answered, requests)
  else
    let path := ask_path name in
    if bool_decide (path ∈ answered) then Ret (answered, requests)
    else
      f <- trigger (OpenFile path) ;;
      match f with
      | Err _ => Ret (answered, requests)
      | Ok f =>
          match parseAskFile f with
          | inl _ => Ret ({[path]} ∪ answered, requests)
          | inr req =>
              let req := set_path path req in
              if expired req now then Ret ({[path]} ∪ answered, requests)
              else if negb (wantsCryptsetup req) then Ret ({[path]} ∪ answered, requests)
              else Ret (answered, requests ++ [req])
          end
      end.

Fixpoint pending_entries (now : Z) (answered : gset bytes) (requests : list askRequest)
    (names : list bytes) : OS (gset bytes * list askRequest) :=
  match names with
  | [] => Ret (answered, requests)
  | name :: names =>
      s <- pending_entry now answered requests name ;;
      pending_entries now (fst s) (snd s) names
  end.

(** The paths whose files are gone are forgotten. *)
Fixpoint forget (paths : list bytes) (answered : gset bytes) : OS (gset bytes) :=
  match paths with
  | [] => Ret answered
  | p :: paths =>
      st <- trigger (Stat p) ;;
      forget paths (match st with NotExist => answered ∖ {[p]} | _ => answered end)
  end.

Definition pendingRequests (answered : gset bytes) : OS (gset bytes * result (list askRequest)) :=
  entries <- trigger (ReadDir askPasswordDir) ;;
  match entries with
  | Err e => Ret (answered, Err e)
  | Ok names =>
      now <- monotonicUsec ;;
      match now with
      | Err e => Ret (answered, Err e)
      | Ok now =>
          s <- pending_entries now answered [] names ;;
          answered <- forget (elements (fst s)) (fst s) ;;
          Ret (answered, Ok (snd s))
      end
  end.

(** ** The agent *)

Record agent := mkAgent {
  answered : gset bytes;
  delivered : bool;
}.

Definition agentPollInterval : Z := 1.
Definition agentRetryInterval : Z := 5.

Definition say (words : list bytes) : OS unit :=
  trigger (Stderr (str "syncthing-socket: " ++ concat words ++ [x0a])).

(** The body of the loop over the pending requests. *)
Definition serve (cfg : luksConfig) (a : agent) (req : askRequest) : OS agent :=
  ensureResolver ;;;
  (if delivered a
   then say [Device cfg; str " rejected the passphrase, asking again"] else Ret tt) ;;;
  say [str "requesting the passphrase for "; Device cfg] ;;;
  got <- fetchPassphrase cfg ;;
  match got with
  | inl _ | inr [] => trigger (Sleep agentRetryInterval) ;;; Ret a
  | inr passphrase =>
      v <- verifyPassphrase (Device cfg) passphrase ;;
      match v with
      | Some _ =>
          say [str "the passphrase received ("; Itoa (Z.of_nat (length passphrase));
               str " bytes) does not unlock "; Device cfg; str "; not using it"] ;;;
          trigger (Sleep agentRetryInterval) ;;; Ret a
      | None =>
          sent <- replyToAsk (socket req) passphrase ;;
          match sent with
          | Some _ => Ret a
          | None =>
              say [str "passphrase delivered for "; Device cfg] ;;;
              Ret (mkAgent ({[path req]} ∪ answered a) true)
          end
      end
  end.

Fixpoint serve_all (cfg : luksConfig) (a : agent) (reqs : list askRequest) : OS agent :=
  match reqs with
  | [] => Ret a
  | req :: reqs => a <- serve cfg a req ;; serve_all cfg a reqs
  end.

Definition mark_all (reqs : list askRequest) (a : agent) : agent :=
  mkAgent (list_to_set (map path reqs) ∪ answered a) (delivered a).

(** One turn of the endless loop. *)
Definition agent_pass (a : agent) : OS agent :=
  trigger (Sleep agentPollInterval) ;;;
  p <- pendingRequests (answered a) ;;
  let a := mkAgent (fst p) (delivered a) in
  match snd p with
  | Err _ | Ok [] => Ret a
  | Ok reqs =>
      m <- trigger LookAround ;;
      match findLUKSConfig (commands m) (conf_file m) (proc_partitions m) with
      | inl _ => trigger (Sleep agentRetryInterval) ;;; Ret a
      | inr None => Ret (mark_all reqs a)
      | inr (Some cfg) => serve_all cfg a reqs
      end
  end.

(** The loop, observed for [passes] turns; the code never leaves it. *)
Fixpoint agent_loop (passes : nat) (a : agent) : OS agent :=
  match passes with
  | O => Ret a
  | S n => a <- agent_pass a ;; agent_loop n a
  end.

Definition runLUKSAgent (passes : nat) : OS agent := agent_loop passes (mkAgent ∅ false).

(** On other systems than Linux. *)
Definition runLUKSAgent_other : option error :=
  Some (Errorf "the LUKS password agent is only available on Linux").

(** ** What the agent may send *)

Definition is_clock (e : os_entry) : bool := match e with ReadClock _ => true | _ => false end.

(** [sec], [nsec] is the last reading of the clock in [h]. *)
Definition latest_clock (h : list os_entry) (sec nsec : Z) : Prop :=
  ∃ h1 h2, h = h1 ++ ReadClock (Ok (sec, nsec)) :: h2 ∧ Forall (λ e, is_clock e = false) h2.

(** In [h], [req] was read from its file in the request directory, and was then a
    cryptsetup request that had not expired by the clock read for that pass. *)
Definition pending_ok (h : list os_entry) (req : askRequest) : Prop :=
  ∃ name f req0 sec nsec h0,
    HasPrefix name "ask." = true ∧ parseAskFile f = inr req0 ∧
    req = set_path (ask_path name) req0 ∧
    latest_clock h0 sec nsec ∧ h0 ++ [Opened (ask_path name) (Ok f)] `prefix_of` h ∧
    expired req (usec sec nsec) = false ∧ wantsCryptsetup req = true.

(** [cfg] is what the machine was found configured with. *)
Definition configured (h : list os_entry) (cfg : luksConfig) : Prop :=
  ∃ m, LookedAround m ∈ h ∧
       findLUKSConfig (commands m) (conf_file m) (proc_partitions m) = inr (Some cfg).

(** What testing the passphrase leaves in the history when it passes. *)
Definition verified (device passphrase : bytes) : list os_entry :=
  if device =s "" then [] else [Ran (verify_command device) passphrase None].

(** The only datagram the agent sends: to the socket of a pending request, a
    passphrase the transfer has just delivered and the device has just accepted. *)
Definition reply_allowed (h : list os_entry) (fd : Z) (payload addr : bytes) : Prop :=
  ∃ h0 req cfg self args out,
    pending_ok h0 req ∧ configured h0 cfg ∧ transfer_args cfg = Some args ∧ out ≠ [] ∧
    h = h0 ++ Transferred self args (inr out) :: verified (Device cfg) out ++ [NewSocket (Ok fd)] ∧
    payload = str "+" ++ out ∧ addr = socket req.

Definition guarded (h : list os_entry) (e : os_entry) : Prop :=
  match e with SentTo fd payload addr _ => reply_allowed h fd payload addr | _ => True end.

Lemma pending_ok_later h h' req : h `prefix_of` h' → pending_ok h req → pending_ok h' req.
Proof.
  intros Hh (n & f & r & s & ns & h0 & ? & ? & ? & ? & ? & ? & ?).
  exists n, f, r, s, ns, h0. split_and!; try done. by etrans.
Qed.

Lemma configured_later h h' cfg : h `prefix_of` h' → configured h cfg → configured h' cfg.
Proof. intros Hh (m & ? & ?). exists m. eauto with go. Qed.

Lemma latest_clock_snoc h e sec nsec :
  is_clock e = false → latest_clock h sec nsec → latest_clock (h ++ [e]) sec nsec.
Proof.
  intros He (h1 & h2 & -> & Hh). exists h1, (h2 ++ [e]). split.
  - by rewrite <- app_assoc.
  - apply Forall_app. by repeat constructor.
Qed.

#[local] Hint Resolve pending_ok_later configured_later : go.

Abbreviation ok := (λ _ _, True).

Ltac safe_step :=
  match goal with
  | |- safe _ _ (pbind (trigger _) _) _ => apply safe_ask; intros ? _; split; [exact I|]
  | |- safe _ _ (trigger _) _ => apply safe_trigger; intros ? _; split; [exact I|]
  | |- safe _ _ (Ret _) _ => apply safe_Ret
  | |- safe _ _ (match ?x with _ => _ end) _ => destruct x eqn:?
  end.

(** [safe_step] for any guarantee: the allowance of each request is left as a goal. *)
Ltac safe_go :=
  repeat match goal with
  | |- safe _ _ (pbind (trigger _) _) _ => apply safe_ask; intros ? ?; split; [|]
  | |- safe _ _ (trigger _) _ => apply safe_trigger; intros ? ?; split; [|]
  | |- safe _ _ (Ret _) _ => apply safe_Ret
  | |- safe _ _ (match ?x with _ => _ end) _ => destruct x eqn:?
  end.

(** Loops that stop at the first success keep an invariant of the failures so far. *)
Section AnyRules.
Context (G : list os_entry → os_entry → Prop) (I : list os_entry → Prop).

Lemma any_rule {A} (f : A → OS bool) xs h :
  (∀ x h, x ∈ xs → I h → safe (E := osE) G h (f x) (λ h' b, b = false → I h')) →
  I h → safe (E := osE) G h (any f xs) (λ h' b, b = false → I h').
Proof.
  revert h; induction xs as [|x xs IH]; intros h Hf Hh; [by apply safe_Ret|].
  cbn [any]. eapply safe_call; [apply Hf; [by left|done]|].
  intros h' [|] _ Hb; [by apply safe_Ret|]. apply IH; [|by apply Hb]. intros y h'' Hy. apply Hf. by right.
Qed.

Lemma fixed_part_prefix pat : HasPrefix pat (fixed_part pat) = true.
Proof.
  induction pat as [|c pat IH]; [done|]. cbn [fixed_part]. case_match; [done|].
  cbn [HasPrefix]. rewrite beq_refl. exact IH.
Qed.

Lemma over_patterns_rule f patterns h :
  (∀ h pat r, I h → G h (Globbed pat r) ∧ I (h ++ [Globbed pat r])) →
  (∀ x pat h, pat ∈ patterns → HasPrefix x (fixed_part pat) = true → I h →
     safe (E := osE) G h (f x) (λ h' b, b = false → I h')) →
  I h → safe (E := osE) G h (over_patterns f patterns) (λ h' b, b = false → I h').
Proof.
  intros HG Hf. apply any_rule. intros pat h' Hpat Hh'. eapply (safe_call (E := osE) (H := os_effect) G _ _ _ (λ h ms,
    I h ∧ Forall (λ m, HasPrefix m (fixed_part pat) = true) ms)).
  - unfold globAll. destruct (ContainsAny _ _); cbn [negb].
    + apply safe_ask. intros r Hr. destruct (HG h' pat r Hh'). split; [done|].
      destruct r as [ms|e]; apply safe_Ret; split; [done|by apply Hr|done|by apply Forall_nil].
    + apply safe_Ret. split; [done|]. apply Forall_singleton, fixed_part_prefix.
  - intros h'' cs _ [Hh'' Hcs]. apply any_rule; [|done]. intros x h3 Hx.
    rewrite Forall_forall in Hcs. eapply Hf; [done|]. by apply Hcs.
Qed.
End AnyRules.

(** What setting up the resolver does to the system. *)
Definition resolver_event (e : os_entry) : bool :=
  match e with
  | Statted p _ => p =s resolvConf
  | Globbed _ _ | FileRead _ _ => true
  | Opened p _ => HasPrefix p "/run/systemd/netif/"
  | FileWritten p _ _ => p =s resolvConf
  | _ => false
  end.

Lemma networkd_prefix pat x :
  pat ∈ networkdStateFiles → HasPrefix x (fixed_part pat) = true →
  HasPrefix x "/run/systemd/netif/" = true.
Proof.
  intros Hpat [y ->]%HasPrefix_spec. apply list_elem_of_In in Hpat.
  destruct Hpat as [<-|[<-|[]]]; reflexivity.
Qed.

Lemma ensureResolver_rule (G : list os_entry → os_entry → Prop) h :
  (∀ h e, resolver_event e = true → G h e) → safe (E := osE) G h ensureResolver ok.
Proof.
  intros HG. unfold ensureResolver. apply safe_ask. intros st _. split; [by apply HG|].
  case_match; [done|].
  eapply safe_call; [apply (over_patterns_rule G (λ _, True)); [| |done]|].
  { intros. split; [by apply HG|done]. }
  { intros c pat h' _ _ _. unfold copy_candidate, write_resolver. safe_go; try done; by apply HG. }
  intros h' b _ _. destruct b; [done|].
  eapply safe_call; [|done]. apply (over_patterns_rule G (λ _, True)); [| |done].
  { intros. split; [by apply HG|done]. }
  intros c pat h'' Hpat Hc _. unfold build_candidate, write_resolver.
  safe_go; try done; apply HG; [by eapply networkd_prefix|done].
Qed.

Lemma ensureResolver_events t u : exec ensureResolver t u → Forall (λ e, resolver_event e = true) t.
Proof.
  intros Ht. apply Forall_forall. intros e (t1 & t2 & ->)%list_elem_of_split.
  apply (safe_always (E := osE) (H := os_effect) (λ _ e, resolver_event e = true)
    ensureResolver ok t1 e t2).
  - by apply ensureResolver_rule.
  - by eapply exec_prefix.
Qed.

Lemma fetchPassphrase_safe h cfg :
  safe guarded h (fetchPassphrase cfg) (λ h' r, ∀ out, r = inr out →
    ∃ h0 self args, h `prefix_of` h0 ∧ transfer_args cfg = Some args ∧
      h' = h0 ++ [Transferred self args (inr out)]).
Proof.
  unfold fetchPassphrase. repeat safe_step; try done. intros out [= <-].
  eexists _, _, _. split_and!; [|done|done]. by apply prefix_app_r.
Qed.

Lemma verifyPassphrase_safe h device pass :
  safe guarded h (verifyPassphrase device pass)
    (λ h' r, r = None → h' = h ++ verified device pass).
Proof.
  unfold verifyPassphrase, verified. safe_step; repeat safe_step.
  - intros _. by rewrite app_nil_r.
  - by intros ->.
Qed.

(** ** Pending requests *)

Lemma pending_entry_safe now h ans reqs name sec nsec :
  latest_clock h sec nsec → now = usec sec nsec → Forall (pending_ok h) reqs →
  safe guarded h (pending_entry now ans reqs name)
    (λ h' s, latest_clock h' sec nsec ∧ Forall (pending_ok h') (snd s)).
Proof.
  intros Hc -> Hr. unfold pending_entry. repeat safe_step; try done.
  all: assert (Hc' : latest_clock (h ++ [log (OpenFile (ask_path name)) x]) sec nsec)
         by (by apply latest_clock_snoc).
  all: assert (Hr' : Forall (pending_ok (h ++ [log (OpenFile (ask_path name)) x])) reqs)
         by (eapply Forall_impl; [exact Hr|]; eauto with go).
  all: subst; cbn [fst snd]; try (split; [exact Hc'|exact Hr']).
  subst. split; [done|]. apply Forall_app. split; [done|].
  apply Forall_singleton. bools. eexists name, _, _, sec, nsec, h. split_and!; try done.
Qed.

Lemma pending_entries_safe now h ans reqs names sec nsec :
  latest_clock h sec nsec → now = usec sec nsec → Forall (pending_ok h) reqs →
  safe guarded h (pending_entries now ans reqs names) (λ h' s, Forall (pending_ok h') (snd s)).
Proof.
  intros Hc Hn. revert h ans reqs Hc; induction names as [|n names IH]; intros h ans reqs Hc Hr; [done|].
  cbn [pending_entries]. eapply safe_call; [by eapply pending_entry_safe|].
  intros h' [ans' reqs'] _ [Hc' Hr']. by apply IH.
Qed.

Lemma forget_safe h paths ans : safe guarded h (forget paths ans) ok.
Proof.
  revert h ans; induction paths as [|p ps IH]; intros h ans; [done|]. cbn [forget].
  safe_step. apply IH.
Qed.

Lemma pendingRequests_safe h ans :
  safe guarded h (pendingRequests ans)
    (λ h' r, ∀ reqs, snd r = Ok reqs → Forall (pending_ok h') reqs).
Proof.
  unfold pendingRequests. safe_step. destruct x as [names|]; [|done].
  unfold monotonicUsec. apply safe_bind, safe_ask. intros [[sec nsec]|] _; (split; [done|]); [|done].
  cbv match. apply safe_Ret. eapply safe_call.
  { eapply (pending_entries_safe _ _ _ _ _ sec nsec); [|done|by apply Forall_nil].
    by eexists _, []. }
  intros h1 [ans1 reqs1] Hh1 Hr1. eapply safe_call; [apply forget_safe|].
  intros h2 ans2 Hh2 _. apply safe_Ret. intros reqs [= <-]. cbn.
  eapply Forall_impl; [exact Hr1|]. eauto with go.
Qed.

(** ** Serving *)

Lemma serve_safe h cfg a req :
  pending_ok h req → configured h cfg → safe guarded h (serve cfg a req) ok.
Proof.
  intros Hp Hc. unfold serve. eapply safe_call; [apply ensureResolver_rule; by intros ? []|].
  intros h1 _ Hh1 _. eapply (safe_call _ _ _ _ ok).
  { unfold say. by repeat safe_step. }
  intros h2 _ Hh2 _. unfold say. safe_step.
  eapply safe_call; [apply fetchPassphrase_safe|].
  intros h3 got Hh3 Hgot. destruct got as [e|[|c pass]]; [by repeat safe_step..|].
  destruct (Hgot _ eq_refl) as (h4 & self & args & Hh4 & Hargs & ->).
  eapply safe_call; [apply verifyPassphrase_safe|].
  intros h5 v _ Hv. destruct v as [e|]; [by repeat safe_step|].
  rewrite (Hv eq_refl). unfold replyToAsk. apply safe_bind.
  apply safe_ask. intros [fd|] _; (split; [done|]); [|done]. cbv match.
  apply safe_ask. intros r _. split; [|destruct r; by repeat safe_step].
  exists h4, req, cfg, self, args, (c :: pass). split_and!; try done.
  - eapply pending_ok_later; [|exact Hp]. etrans; [exact Hh1|]. etrans; [exact Hh2|].
    etrans; [|exact Hh4]. by apply prefix_app_r.
  - eapply configured_later; [|exact Hc]. etrans; [exact Hh1|]. etrans; [exact Hh2|].
    etrans; [|exact Hh4]. by apply prefix_app_r.
  - cbn. by rewrite <- !app_assoc.
Qed.

Lemma serve_all_safe h cfg a reqs :
  Forall (pending_ok h) reqs → configured h cfg → safe guarded h (serve_all cfg a reqs) ok.
Proof.
  revert h a; induction reqs as [|r reqs IH]; intros h a Hr Hc; [done|].
  inversion Hr as [|? ? Hr1 Hr2]; subst. cbn [serve_all].
  eapply safe_call; [by apply serve_safe|]. intros h' a' Hh' _. apply IH; [|eauto with go].
  eapply Forall_impl; [exact Hr2|]. eauto with go.
Qed.

Lemma agent_pass_safe h a : safe guarded h (agent_pass a) ok.
Proof.
  unfold agent_pass. safe_step. eapply safe_call; [apply pendingRequests_safe|].
  intros h1 [ans [reqs|e]] Hh1 Hr; cbn [fst snd] in *; [|done].
  specialize (Hr _ eq_refl). destruct reqs as [|r reqs]; [done|].
  safe_step. destruct (findLUKSConfig _ _ _) as [e|[cfg|]] eqn:Ef.
  - by repeat safe_step.
  - apply serve_all_safe.
    + eapply Forall_impl; [exact Hr|]. eauto with go.
    + exists x0. split; [apply elem_of_last|done].
  - done.
Qed.

Lemma agent_loop_safe n h a : safe guarded h (agent_loop n a) ok.
Proof.
  revert h a; induction n as [|n IH]; intros h a; [done|]. cbn [agent_loop].
  eapply safe_call; [apply agent_pass_safe|]. intros. apply IH.
Qed.

(** C6. Whatever the system answers and however long the agent runs, every datagram
    it sends goes to the socket of a cryptsetup request that is in the request
    directory and had not expired, and is [+] followed by a non-empty passphrase
    that the transfer configured for this machine has just delivered, and which
    the device has accepted if the configuration names one. *)
Theorem agent_reply_sound n pre fd payload addr r post :
  prefix_exec (runLUKSAgent n) (pre ++ SentTo fd payload addr r :: post) →
  reply_allowed pre fd payload addr.
Proof.
  refine (safe_always (E := osE) guarded _ ok pre (SentTo fd payload addr r) post _).
  apply agent_loop_safe.
Qed.

(** ** Each request is dealt with once *)

(** The file of [p] was opened during [t]. *)
Definition opened (p : bytes) (t : list os_entry) : Prop := ∃ r, Opened p r ∈ t.

Definition gone (p : bytes) (t : list os_entry) : Prop := Statted p NotExist ∈ t.

Lemma any_exec {A} (P : list os_entry → Prop) (f : A → OS bool) xs t b :
  P [] → (∀ t1 t2, P t1 → P t2 → P (t1 ++ t2)) →
  (∀ x t b, x ∈ xs → exec (f x) t b → P t) → exec (any f xs) t b → P t.
Proof.
  intros H0 Happ. revert t; induction xs as [|x xs IH]; intros t Hf Ht; cbn [any] in Ht.
  - by destruct Ht as [-> _].
  - repeat exec_step.
    + rewrite app_nil_r. eapply Hf; [by left|done].
    + apply Happ; [eapply Hf; [by left|done]|]. apply IH; [|done]. intros y t' b' Hy. apply Hf. by right.
Qed.

Lemma forget_exec ps ans t ans' :
  exec (forget ps ans) t ans' →
  (∀ p, ¬ opened p t) ∧ ans' ⊆ ans ∧ (∀ p, p ∈ ans → p ∈ ans' ∨ gone p t).
Proof.
  unfold opened, gone. revert ans t; induction ps as [|q ps IH]; intros ans t Ht; cbn [forget] in Ht.
  - destruct Ht as [-> ->]. set_solver.
  - repeat exec_step. match goal with H : exec (forget _ _) _ _ |- _ => destruct (IH _ _ H) as (Ho & Hs & Hg) end.
    cbn. split_and!.
    + set_solver.
    + case_match; set_solver.
    + intros p Hp. destruct (decide (p = q)) as [->|]; case_match; set_solver.
Qed.

Lemma pending_entry_exec now ans reqs name t s :
  exec (pending_entry now ans reqs name) t s →
  ans ⊆ fst s ∧ (∀ p, p ∈ ans → ¬ opened p t).
Proof.
  unfold pending_entry, opened. intros Ht. repeat (exec_step; simplify_eq); cbn [fst snd].
  all: match goal with H : bool_decide _ = false |- _ => apply bool_decide_eq_false in H | _ => idtac end.
  all: split; set_solver.
Qed.

Lemma opened_app p t1 t2 : opened p (t1 ++ t2) ↔ opened p t1 ∨ opened p t2.
Proof. unfold opened. set_solver. Qed.

Lemma gone_app p t1 t2 : gone p (t1 ++ t2) ↔ gone p t1 ∨ gone p t2.
Proof. unfold gone. set_solver. Qed.

Lemma opened_cons p e t :
  opened p (e :: t) ↔ (∃ r, e = Opened p r) ∨ opened p t.
Proof. unfold opened. set_solver. Qed.

Lemma not_opened_nil p : ¬ opened p [].
Proof. unfold opened. set_solver. Qed.

Lemma pending_entries_exec now ans reqs names t s :
  exec (pending_entries now ans reqs names) t s →
  ans ⊆ fst s ∧ (∀ p, p ∈ ans → ¬ opened p t).
Proof.
  revert ans reqs t; induction names as [|n names IH]; intros ans reqs t Ht; cbn [pending_entries] in Ht.
  - destruct Ht as [-> ->]. cbn. split; [done|]. intros. apply not_opened_nil.
  - repeat exec_step. rename select (exec (pending_entry _ _ _ _) _ _) into Hx1.
    rename select (exec (pending_entries _ _ _ _) _ _) into Hx2.
    apply pending_entry_exec in Hx1 as [Hs1 Ho1]. apply IH in Hx2 as [Hs2 Ho2].
    split; [set_solver|]. intros p Hp [?|?]%opened_app; [by eapply Ho1|by eapply Ho2; set_solver].
Qed.

Lemma pendingRequests_exec ans t s :
  exec (pendingRequests ans) t s →
  ∀ p, p ∈ ans → (p ∈ fst s ∨ gone p t) ∧ ¬ opened p t.
Proof.
  unfold pendingRequests, monotonicUsec. intros Ht p Hp.
  repeat (exec_step; simplify_eq); cbn [fst snd app].
  all: try (by split; [left|unfold opened; set_solver]).
  rename select (exec (pending_entries _ _ _ _) _ _) into Hx1.
  rename select (exec (forget _ _) _ _) into Hx2.
  apply pending_entries_exec in Hx1 as [Hs1 Ho1]. apply forget_exec in Hx2 as (Ho2 & _ & Hg).
  split.
  - destruct (Hg p) as [?|Hg']; [set_solver|by left|right]. unfold gone in *. set_solver.
  - rewrite !app_nil_r, !opened_cons, !opened_app. cbn. specialize (Ho1 p Hp). specialize (Ho2 p).
    by intros [[? ?]|[[? ?]|[?|?]]].
Qed.

(** The resolver is set up without opening anything in the request directory. *)
Definition no_request (t : list os_entry) : Prop :=
  ∀ p, HasPrefix p (ask_path "") = true → ¬ opened p t.

Lemma no_request_app t1 t2 : no_request t1 → no_request t2 → no_request (t1 ++ t2).
Proof. unfold no_request. intros H1 H2 p Hp [?|?]%opened_app; naive_solver. Qed.

Lemma no_request_nil : no_request [].
Proof. intros p _. apply not_opened_nil. Qed.

Lemma ensureResolver_no_request t u : exec ensureResolver t u → no_request t.
Proof.
  intros Ht%ensureResolver_events p Hp [r Hr]. rewrite Forall_forall in Ht.
  specialize (Ht _ Hr). apply HasPrefix_spec in Ht as [y ->]. by vm_compute in Hp.
Qed.

(** *** Serving a request *)

Definition sent_to (addr : bytes) (t : list os_entry) : Prop :=
  ∃ fd payload, SentTo fd payload addr None ∈ t.

Lemma ensureResolver_no_send t u addr : exec ensureResolver t u → ¬ sent_to addr t.
Proof.
  intros Ht%ensureResolver_events (fd & payload & Hs). rewrite Forall_forall in Ht.
  by specialize (Ht _ Hs).
Qed.

Lemma sent_to_app addr t1 t2 : sent_to addr (t1 ++ t2) ↔ sent_to addr t1 ∨ sent_to addr t2.
Proof. unfold sent_to. set_solver. Qed.

Lemma no_request_cons e t :
  match e with Opened _ _ => False | _ => True end → no_request t → no_request (e :: t).
Proof. intros He Ht p Hp [[r ->]|?]%opened_cons; [done|]. by eapply Ht. Qed.

Lemma replyToAsk_exec addr pw t r :
  exec (replyToAsk addr pw) t r → no_request t ∧ (r = None ↔ sent_to addr t).
Proof.
  unfold replyToAsk, sent_to. intros Ht. repeat (exec_step; simplify_eq); cbn [app].
  all: split; [repeat (apply no_request_cons; [done|]); apply no_request_nil|].
  all: repeat case_match; cbn; set_solver.
Qed.

(** A request is dealt with exactly when a passphrase reached its socket. *)
Lemma serve_exec cfg a req t a' :
  exec (serve cfg a req) t a' →
  no_request t ∧
  (sent_to (socket req) t ∧ a' = mkAgent ({[path req]} ∪ answered a) true ∨
   ¬ sent_to (socket req) t ∧ a' = a).
Proof.
  unfold serve. intros Ht. apply exec_bind in Ht as (t1 & t2 & u & -> & Hr & Ht).
  pose proof (ensureResolver_no_request _ _ Hr) as Hn.
  pose proof (ensureResolver_no_send _ _ (socket req) Hr) as Hs. clear Hr.
  cut (no_request t2 ∧ (sent_to (socket req) t2 ∧ a' = mkAgent ({[path req]} ∪ answered a) true ∨
    ¬ sent_to (socket req) t2 ∧ a' = a)).
  { intros [Hn2 H2]. split; [by apply no_request_app|]. rewrite sent_to_app. naive_solver. }
  clear Hn Hs. unfold say, fetchPassphrase, verifyPassphrase in Ht.
  repeat (exec_step; simplify_eq); cbn [app].
  all: try match goal with H : exec (replyToAsk _ _) _ _ |- _ =>
         apply replyToAsk_exec in H as [? ?] end.
  all: split; [repeat (apply no_request_cons; [done|]);
         eauto using no_request_app, no_request_cons, no_request_nil|].
  all: unfold sent_to in *; first [right; split; [set_solver|done] | left; split; [set_solver|done]].
Qed.

Lemma serve_all_exec cfg a reqs t a' :
  exec (serve_all cfg a reqs) t a' → no_request t ∧ answered a ⊆ answered a'.
Proof.
  revert a t; induction reqs as [|r reqs IH]; intros a t Ht; cbn [serve_all] in Ht.
  - destruct Ht as [-> ->]. split; [apply no_request_nil|done].
  - apply exec_bind in Ht as (t1 & t2 & a1 & -> & [Hn1 H1]%serve_exec & [Hn2 H2]%IH).
    split; [by apply no_request_app|]. destruct H1 as [[_ ->]|[_ ->]]; set_solver.
Qed.

(** C24. A request the agent has dealt with stays dealt with: in the next pass its
    file is not even opened again, and it is forgotten only when the file is found
    to be gone. *)
Theorem answered_once a t a' p :
  exec (agent_pass a) t a' → p ∈ answered a →
  (p ∈ answered a' ∨ gone p t) ∧ (HasPrefix p (ask_path "") = true → ¬ opened p t).
Proof.
  intros Ht Hp. unfold agent_pass in Ht.
  apply exec_bind in Ht as (t0 & t12 & u & -> & (x & t0' & _ & -> & [-> _]) & Ht).
  apply exec_bind in Ht as (t1 & t2 & [ans rs] & -> & Hp1 & Ht).
  destruct (pendingRequests_exec _ _ _ Hp1 p Hp) as [Hin Ho]. cbn [fst snd] in *.
  assert (Hrest : no_request t2 ∧ ans ⊆ answered a').
  { repeat (exec_step; simplify_eq); cbn [app].
    all: try (split; [repeat (apply no_request_cons; [done|]); apply no_request_nil|]; cbn; set_solver).
    rename select (exec (serve_all _ _ _) _ _) into Hs. apply serve_all_exec in Hs as [Hn Hs].
    split; [by apply no_request_cons|done]. }
  destruct Hrest as [Hn Hs]. rewrite !gone_app, !opened_app. split; [set_solver|].
  intros Hpre [H|[?|?]]; [|done|by eapply Hn]. unfold opened in H. set_solver.
Qed.

(** C25. The prompt stays retryable: a pending request is marked as dealt with
    exactly when a passphrase reached its socket, and a failed transfer, a
    passphrase the device refuses or a failed delivery leaves the agent's state
    as it was. *)
Theorem serve_retryable cfg a req t a' :
  exec (serve cfg a req) t a' →
  (sent_to (socket req) t → a' = mkAgent ({[path req]} ∪ answered a) true) ∧
  (¬ sent_to (socket req) t → a' = a).
Proof. intros [_ H]%serve_exec. naive_solver. Qed.

(** ** The resolver is only ever completed *)

Definition no_write (h : list os_entry) : Prop := ∀ p c, FileWritten p c None ∉ h.

(** Nothing happens once a resolver was written; until then, resolv.conf is written
    only after it was found missing or empty, with a copy of a file just read or
    with the nameservers of a state file just opened. *)
Definition resolver_allowed (h : list os_entry) (e : os_entry) : Prop :=
  no_write h ∧
  match e with
  | FileWritten p c _ =>
      p = resolvConf ∧ c ≠ [] ∧ (∀ n, Statted resolvConf (Present n) ∈ h → n ≤ 0) ∧
      ((∃ h0 file, h = h0 ++ [FileRead file (Ok c)]) ∨
       (∃ h0 file f, h = h0 ++ [Opened file (Ok f)] ∧ c = nameservers (dnsFromNetworkdState f)))
  | _ => True
  end.

Definition resolver_inv (h : list os_entry) : Prop :=
  no_write h ∧ ∀ n, Statted resolvConf (Present n) ∈ h → n ≤ 0.

Lemma resolver_inv_snoc h e :
  match e with FileWritten _ _ None | Statted _ _ => False | _ => True end →
  resolver_inv h → resolver_inv (h ++ [e]).
Proof.
  intros He [Hw Hs]. split.
  - intros p c [?|Hin]%elem_of_app; [by eapply Hw|]. apply list_elem_of_singleton in Hin. by subst.
  - intros n [?|Hin]%elem_of_app; [by apply Hs|]. apply list_elem_of_singleton in Hin. by subst.
Qed.

Lemma write_resolver_allowed h c :
  resolver_inv h → c ≠ [] →
  ((∃ h0 file, h = h0 ++ [FileRead file (Ok c)]) ∨
   (∃ h0 file f, h = h0 ++ [Opened file (Ok f)] ∧ c = nameservers (dnsFromNetworkdState f))) →
  safe (E := osE) resolver_allowed h (write_resolver c) (λ h' b, b = false → resolver_inv h').
Proof.
  intros Hi Hc Hfrom. unfold write_resolver. apply safe_ask. intros r _. split.
  - destruct Hi. by split_and!.
  - apply safe_Ret. destruct r; [|done]. intros _. by apply resolver_inv_snoc.
Qed.

Lemma copy_candidate_allowed h file :
  resolver_inv h →
  safe (E := osE) resolver_allowed h (copy_candidate file) (λ h' b, b = false → resolver_inv h').
Proof.
  intros Hi. unfold copy_candidate. apply safe_ask. intros r _. split; [by destruct Hi|].
  assert (Hi' : resolver_inv (h ++ [log (ReadFile file) r])) by (by apply resolver_inv_snoc).
  destruct r as [[|c cs]|e]; [by apply safe_Ret| |by apply safe_Ret].
  apply write_resolver_allowed; [done|done|]. left. by eexists _, _.
Qed.

Lemma nameservers_nonempty servers : servers ≠ [] → nameservers servers ≠ [].
Proof. by destruct servers. Qed.

Lemma build_candidate_allowed h file :
  resolver_inv h →
  safe (E := osE) resolver_allowed h (build_candidate file) (λ h' b, b = false → resolver_inv h').
Proof.
  intros Hi. unfold build_candidate. apply safe_ask. intros r _. split; [by destruct Hi|].
  assert (Hi' : resolver_inv (h ++ [log (OpenFile file) r])) by (by apply resolver_inv_snoc).
  destruct r as [f|e]; [|by apply safe_Ret].
  destruct (dnsFromNetworkdState f) as [|s servers] eqn:Ef; [by apply safe_Ret|].
  apply write_resolver_allowed; [done|by apply nameservers_nonempty|].
  right. eexists _, _, _. split; [done|]. by rewrite Ef.
Qed.

(** Setting up the resolver never touches a resolv.conf that has content; it
    writes a non-empty copy of a resolver file it has just read, or the nameservers
    of the networkd state it has just opened, and stops at the first write that
    succeeds. *)
Theorem ensureResolver_safe pre e post :
  prefix_exec ensureResolver (pre ++ e :: post) → resolver_allowed pre e.
Proof.
  refine (safe_always (E := osE) resolver_allowed _ ok pre e post _).
  unfold ensureResolver. apply safe_ask. intros st _. split; [split; [by intros p c ?%not_elem_of_nil|done]|].
  case_match eqn:Est; [done|]. assert (Hi : resolver_inv ([] ++ [log (Stat resolvConf) st])).
  { split; [by intros p c ?%list_elem_of_singleton|]. intros n [= <-]%list_elem_of_singleton.
    bools. lia. }
  assert (Hg : ∀ h pat r, resolver_inv h → resolver_allowed h (Globbed pat r) ∧
            resolver_inv (h ++ [Globbed pat r])).
  { intros h pat r Hh. split; [by destruct Hh|by apply resolver_inv_snoc]. }
  eapply safe_call; [apply (over_patterns_rule resolver_allowed resolver_inv); [done| |exact Hi]|].
  { intros. by apply copy_candidate_allowed. }
  intros h' b _ Hb. destruct b; [done|].
  eapply safe_call; [|done].
  apply (over_patterns_rule resolver_allowed resolver_inv); [done| |by apply Hb].
  intros. by apply build_candidate_allowed.
Qed.

(** ** The clock *)

(** The microseconds compared with a request's expiry are those of the clock,
    with no wrap-around for the first half million years of uptime, and they grow
    with it. *)
Theorem usec_exact sec nsec :
  0 ≤ sec < 18446744073709 → 0 ≤ nsec < 1000000000 →
  usec sec nsec = (sec * 1000000000 + nsec) / 1000.
Proof.
  intros Hs Hn. unfold usec, u64.
  assert (0 ≤ nsec / 1000 < 1000000) by (split; [apply Z.div_pos; lia|apply Z.div_lt_upper_bound; lia]).
  rewrite (Z.mod_small sec), (Z.mod_small (sec * 1000000)), (Z.mod_small nsec), Z.mod_small by lia.
  replace (sec * 1000000000 + nsec) with (sec * 1000000 * 1000 + nsec) by lia.
  rewrite Z.div_add_l; lia.
Qed.

(** ** The theorems at concrete inputs *)

(** A machine with one pending request, whose resolver is already in place and whose
    key holder answers at once. *)
Definition os_wit : handler osE unit := λ X e s,
  (match e in osE X return X with
   | Sleep _ | Close _ | Stderr _ => tt
   | ReadDir _ => Ok [str "sck.1"; str "ask.1"]
   | ClockGettime => Ok (0, 5000)
   | OpenFile p => if p =s ask_path "ask.1" then Ok (Reader (text (print_ask ask_wit)) None)
                   else Err (LibErr "no such file")
   | Stat _ => Present 20
   | Glob _ => Ok []
   | ReadFile _ => Err (LibErr "no such file")
   | WriteFile _ _ => None
   | LookAround => mkMachine run_wit (Err (LibErr "no such file")) (Ok partitions_wit)
   | Executable => Ok (str "/usr/bin/syncthing-socket")
   | Transfer _ _ => inr (str "pass")
   | RunStdin _ _ => None
   | Socket => Ok 3
   | Sendto _ _ _ => None
   end, s).

Lemma os_wit_ok X (e : osE X) s : resp_ok e (fst (os_wit X e s)).
Proof. destruct e; try done. intros ms [= <-]. by apply Forall_nil. Qed.

Definition trace_wit : list os_entry := trace_of os_wit (runLUKSAgent 1) tt.

Lemma trace_wit_exec : exec (runLUKSAgent 1) trace_wit (mkAgent {[ask_path "ask.1"]} true).
Proof.
  pose proof (run_exec os_wit (runLUKSAgent 1) tt os_wit_ok) as H.
  by replace (fst (run os_wit (runLUKSAgent 1) tt)) with (mkAgent {[ask_path "ask.1"]} true) in H
    by (vm_compute; reflexivity).
Qed.

Lemma agent_reply_sound_witness :
  reply_allowed (take 11 trace_wit) 3 "+pass" "/run/systemd/ask-password/sck.1".
Proof.
  apply (agent_reply_sound 1 (take 11 trace_wit) 3 "+pass" "/run/systemd/ask-password/sck.1" None
    (drop 12 trace_wit)).
  assert (E : take 11 trace_wit ++ SentTo 3 "+pass" "/run/systemd/ask-password/sck.1" None
    :: drop 12 trace_wit = trace_wit) by (vm_compute; reflexivity).
  rewrite E. exact (exec_prefix _ _ _ trace_wit_exec).
Defined.

Lemma serve_retryable_witness :
  fst (run os_wit (serve config_wit (mkAgent ∅ false) (set_path "/p" ask_wit)) tt)
  = mkAgent ({[str "/p"]} ∪ ∅) true.
Proof.
  apply (proj1 (serve_retryable config_wit (mkAgent ∅ false) (set_path "/p" ask_wit) _ _
    (run_exec os_wit _ tt os_wit_ok))).
  eexists _, _. apply list_elem_of_In. vm_compute. repeat (first [left; reflexivity|right]).
Defined.

Lemma answered_once_witness :
  ask_path "ask.1" ∈ ({[ask_path "ask.1"]} : gset bytes) ∧
  ¬ opened (ask_path "ask.1") (trace_of os_wit (agent_pass (mkAgent {[ask_path "ask.1"]} true)) tt).
Proof.
  split; [set_solver|].
  apply (answered_once (mkAgent {[ask_path "ask.1"]} true) _ _ (ask_path "ask.1")
    (run_exec os_wit _ tt os_wit_ok)); [set_solver|reflexivity].
Defined.

(** A machine with no resolv.conf where NetworkManager left one. *)
Definition os_bare : handler osE unit := λ X e s,
  (match e in osE X return X with
   | Stat _ => NotExist
   | ReadFile p => if p =s "/run/NetworkManager/resolv.conf" then Ok (str "nameserver 9.9.9.9")
                   else Err (LibErr "no such file")
   | e' => fst (os_wit _ e' tt)
   end, s).

Lemma os_bare_ok X (e : osE X) s : resp_ok e (fst (os_bare X e s)).
Proof. destruct e; try done. intros ms [= <-]. by apply Forall_nil. Qed.

Lemma ensureResolver_safe_witness :
  resolver_allowed
    [Statted resolvConf NotExist;
     FileRead "/run/systemd/resolve/resolv.conf" (Err (LibErr "no such file"));
     FileRead "/run/NetworkManager/resolv.conf" (Ok (str "nameserver 9.9.9.9"))]
    (FileWritten resolvConf "nameserver 9.9.9.9" None).
Proof.
  refine (ensureResolver_safe _ _ [] _).
  exact (exec_prefix _ _ _ (run_exec os_bare ensureResolver tt os_bare_ok)).
Defined.

Lemma usec_exact_witness : usec 12 3456 = 12000003.
Proof. apply (usec_exact 12 3456); lia. Defined.
