(* ===== verification/Net.v ===== *)
(** * What the connection handlers ask of the network

    [netE] gathers the requests of [handleServerConn], [handleForwardConn] and
    [RunClient]: dialling, TLS, the messages of the two protocols over a TLS
    connection, the WebRTC upgrade, closing, and handing the connection that carries
    the data to the service that uses it.  A connection is named by a handle. *)

From S2P Require Import Prelude Effects Conn Auth WebRTC Discovery ProxyProtocol.

(** The connection that carries the data. *)
Inductive data_conn : Type :=
| OverTLS (c : nat)
| OverP2P.

#[global] Instance data_conn_eq_dec : EqDecision data_conn.
Proof. solve_decision. Defined.

(** What is run over it. *)
Inductive service : Type :=
| SocksServer | ShellServer | CommandServer (command : bytes) | ReverseForwardServer (target : bytes)
| SocksClient (listen : bytes) | ShellClient | ReverseForwardClient (target : bytes)
| Pipe.

Inductive netE : Type → Type :=
| Http {X} (e : httpE X) : netE X
| Dial (network address : bytes) : netE (result nat)
| DialFastestRelay (relays : list bytes) : netE (result nat)
| Handshake (c : nat) : netE (option error)
| PeerCertificates (c : nat) : netE (list bytes)
| OnTLS (c : nat) {X} (e : connE X) : netE X
| Upgrade (c : nat) {X} (e : rtcE X) : netE X
| CloseTLS (c : nat) : netE unit
| CloseConn (c : nat) : netE unit
| CloseData (d : data_conn) : netE unit
| RemoteAddr (d : data_conn) : netE (option addr)
| LocalAddr (c : nat) : netE (option addr)
| WriteHeader (c : nat) (b : bytes) : netE (option error)
| CopyBoth (d : data_conn) (c : nat) : netE (option error)
| Serve (d : data_conn) (s : service) : netE unit.

Inductive net_entry : Type :=
| HttpDone (e : http_entry)
| Dialled (network address : bytes) (r : result nat)
| RelayDialled (relays : list bytes) (r : result nat)
| Handshaken (c : nat) (r : option error)
| CertificatesOf (c : nat) (certs : list bytes)
| TLSIO (c : nat) (e : conn_entry)
| Upgraded (c : nat) (e : rtc_entry)
| TLSClosed (c : nat)
| ConnClosed (c : nat)
| DataClosed (d : data_conn)
| RemoteAddrOf (d : data_conn) (a : option addr)
| LocalAddrOf (c : nat) (a : option addr)
| HeaderWritten (c : nat) (b : bytes) (r : option error)
| Copied (d : data_conn) (c : nat) (r : option error)
| Served (d : data_conn) (s : service).

Definition net_log {X} (e : netE X) : X → net_entry :=
  match e in netE X return X → net_entry with
  | Http e => λ x, HttpDone (http_log e x)
  | Dial n a => Dialled n a
  | DialFastestRelay rs => RelayDialled rs
  | Handshake c => Handshaken c
  | PeerCertificates c => CertificatesOf c
  | OnTLS c e => λ x, TLSIO c (conn_log e x)
  | Upgrade c e => λ x, Upgraded c (rtc_log e x)
  | CloseTLS c => λ _, TLSClosed c
  | CloseConn c => λ _, ConnClosed c
  | CloseData d => λ _, DataClosed d
  | RemoteAddr d => RemoteAddrOf d
  | LocalAddr c => LocalAddrOf c
  | WriteHeader c b => HeaderWritten c b
  | CopyBoth d c => Copied d c
  | Serve d s => λ _, Served d s
  end.

(** [WebRTCConn.RemoteAddr]: an address with neither IP nor port. *)
Definition webrtc_addr : addr := TCPAddr [] 0.

Definition net_ok {X} (e : netE X) : X → Prop :=
  match e in netE X return X → Prop with
  | OnTLS _ e => conn_ok e
  | Upgrade _ e => rtc_ok e
  | RemoteAddr OverP2P => λ a, a = Some webrtc_addr
  | _ => λ _, True
  end.

#[global] Instance net_effect : Effect netE :=
  {| entry := net_entry; log X e := net_log e; resp_ok X e := net_ok e |}.

Definition on_tls {R} (c : nat) (p : prog connE R) : prog netE R := translate (@OnTLS c) p.
Definition upgrade {R} (c : nat) (p : prog rtcE R) : prog netE R := translate (@Upgrade c) p.
Definition over_http {R} (p : prog httpE R) : prog netE R := translate (@Http) p.

(** The trace of a protocol run over a connection. *)
Lemma exec_on_tls {R} c (p : prog connE R) t r :
  exec (on_tls c p) t r ↔ ∃ t0, t = map (TLSIO c) t0 ∧ exec p t0 r.
Proof. by apply (exec_translate (H := conn_effect) (H0 := net_effect) (@OnTLS c) (TLSIO c)). Qed.

Lemma exec_upgrade {R} c (p : prog rtcE R) t r :
  exec (upgrade c p) t r ↔ ∃ t0, t = map (Upgraded c) t0 ∧ exec p t0 r.
Proof. by apply (exec_translate (H := rtc_effect) (H0 := net_effect) (@Upgrade c) (Upgraded c)). Qed.

Lemma safe_on_tls {R} (G : list net_entry → net_entry → Prop) h c (p : prog connE R)
    (Q : list net_entry → R → Prop) :
  (∀ t0 r, exec p t0 r → Q (h ++ map (TLSIO c) t0) r) →
  (∀ t0 e, prefix_exec p (t0 ++ [e]) → G (h ++ map (TLSIO c) t0) (TLSIO c e)) →
  safe (E := netE) (H := net_effect) G h (on_tls c p) Q.
Proof.
  by apply (safe_translate (H := conn_effect) (H0 := net_effect) (@OnTLS c) (TLSIO c)).
Qed.

Lemma safe_upgrade {R} (G : list net_entry → net_entry → Prop) h c (p : prog rtcE R)
    (Q : list net_entry → R → Prop) :
  (∀ t0 r, exec p t0 r → Q (h ++ map (Upgraded c) t0) r) →
  (∀ t0 e, prefix_exec p (t0 ++ [e]) → G (h ++ map (Upgraded c) t0) (Upgraded c e)) →
  safe (E := netE) (H := net_effect) G h (upgrade c p) Q.
Proof.
  by apply (safe_translate (H := rtc_effect) (H0 := net_effect) (@Upgrade c) (Upgraded c)).
Qed.

Lemma safe_over_http {R} (G : list net_entry → net_entry → Prop) h (p : prog httpE R)
    (Q : list net_entry → R → Prop) :
  (∀ t0 r, exec p t0 r → Q (h ++ map HttpDone t0) r) →
  (∀ t0 e, prefix_exec p (t0 ++ [e]) → G (h ++ map HttpDone t0) (HttpDone e)) →
  safe (E := netE) (H := net_effect) G h (over_http p) Q.
Proof.
  by apply (safe_translate (H := http_effect) (H0 := net_effect) (@Http) HttpDone).
Qed.

(** ** What was run, and on which connection *)

Definition services (t : list net_entry) : list (data_conn * service) :=
  omap (λ e, match e with Served d s => Some (d, s) | _ => None end) t.

Lemma services_app t1 t2 : services (t1 ++ t2) = services t1 ++ services t2.
Proof. apply omap_app. Qed.

Lemma services_nil t : (∀ d s, Served d s ∉ t) → services t = [].
Proof.
  induction t as [|e t IH]; intros H; [done|]. unfold services in *. cbn [omap list_omap].
  rewrite IH by set_solver. destruct e; set_solver.
Qed.

Lemma services_talk c t : services (map (TLSIO c) t) = [].
Proof. apply services_nil. set_solver. Qed.

Lemma services_upgrade c t : services (map (Upgraded c) t) = [].
Proof. apply services_nil. set_solver. Qed.

Lemma upgrade_exec {R} c (p : prog rtcE R) t r : exec (upgrade c p) t r → services t = [].
Proof. intros (t0 & -> & _)%exec_upgrade. apply services_upgrade. Qed.

Lemma on_tls_exec {R} c (p : prog connE R) t r : exec (on_tls c p) t r → services t = [].
Proof. intros (t0 & -> & _)%exec_on_tls. apply services_talk. Qed.

Lemma over_http_exec {R} (p : prog httpE R) t r : exec (over_http p) t r → services t = [].
Proof.
  intros (t0 & -> & _)%(exec_translate (H := http_effect) (H0 := net_effect) (@Http) HttpDone);
    [|done..]. apply services_nil. set_solver.
Qed.

(** ** A network to try things on

    The peer shows one certificate and has already sent its messages; peer
    connections open; the local service is on the loopback interface. *)

Definition net_wit : handler netE (bytes * bytes) := λ X e s,
  match e in netE X return X * (bytes * bytes) with
  | Http e => (match e in httpE X return X with
               | Get _ _ => Ok (200, announcement [str "tcp://192.0.2.9:22"; str "relay://192.0.2.1:443"])
               end, s)
  | Dial _ _ => (Ok 7%nat, s)
  | DialFastestRelay _ => (Ok 3%nat, s)
  | Handshake _ => (None, s)
  | PeerCertificates _ => ([str "CERT"], s)
  | OnTLS _ e => wire _ e s
  | Upgrade _ e => rtc_wit _ e s
  | CloseTLS _ | CloseConn _ => (tt, s)
  | CloseData _ => (tt, s)
  | RemoteAddr OverP2P => (Some webrtc_addr, s)
  | RemoteAddr (OverTLS _) => (Some (TCPAddr [xc0; x00; x02; x01] 4711), s)
  | LocalAddr _ => (Some (TCPAddr [x7f; x00; x00; x01] 5000), s)
  | WriteHeader _ _ => (None, s)
  | CopyBoth _ _ => (None, s)
  | Serve _ _ => (tt, s)
  end.

Lemma net_wit_ok X (e : netE X) s : resp_ok e (fst (net_wit X e s)).
Proof.
  destruct e; try exact I; [apply wire_ok|apply rtc_wit_ok|by destruct d].
Qed.

(** What a program does there, with [inp] what the peer has sent. *)
Definition net_trace {R} (p : prog netE R) (inp : bytes) : list net_entry :=
  trace_of net_wit p (inp, []).

Lemma net_trace_exec {R} (p : prog netE R) inp :
  exec p (net_trace p inp) (fst (run net_wit p (inp, []))).
Proof. apply run_exec, net_wit_ok. Qed.

Lemma net_trace_prefix {R} (p : prog netE R) inp n e :
  net_trace p inp !! n = Some e →
  prefix_exec p (take n (net_trace p inp) ++ e :: drop (S n) (net_trace p inp)).
Proof.
  intros He. rewrite take_drop_middle by done. eapply exec_prefix, net_trace_exec.
Qed.
