(* ===== verification/ServerConn.v ===== *)
(** * The server's side of a connection (handleServerConn, handleForwardConn)

    What happens to an accepted connection: TLS, the check of the client's device ID
    against the list of authorised clients, the TOTP exchange, the upgrade, and then
    the service, or the connection to the forwarding target. *)

From S2P Require Import Prelude GoStrings Effects Conn Auth WebRTC NetUtil ProxyProtocol Discovery Net.

Set Default Proof Using "Type".

Section ServerConn.
(** [totp.Validate], [protocol.NewDeviceID] of a certificate, [DeviceID.String], and
    [net.Addr.String]. *)
Context (validate : bytes → bytes → bool) (NewDeviceID : bytes → bytes).
Context (id_string : bytes → bytes) (addr_string : addr → bytes).

(** Nobody is turned away when no client is named; otherwise the first certificate's
    device has to be one of them. *)
Definition authorized (authorizedClients : list bytes) (certs : list bytes) : bool :=
  bool_decide (authorizedClients = []) ||
  match certs with
  | [] => false
  | cert :: _ => existsb (λ i, i =s NewDeviceID cert) authorizedClients
  end.

(** The certificates of a client that may use the server. *)
Definition admission (c : nat) (authorizedClients : list bytes) (totpSecret : bytes)
    : prog netE (option (list bytes)) :=
  hs <- trigger (Handshake c) ;;
  match hs with
  | Some _ => Ret None
  | None =>
      certs <- trigger (PeerCertificates c) ;;
      if negb (authorized authorizedClients certs)
      then trigger (CloseTLS c) ;;; Ret None
      else
        err <- on_tls c (performServerAuth validate totpSecret) ;;
        match err with
        | Some _ => trigger (CloseTLS c) ;;; Ret None
        | None => Ret (Some certs)
        end
  end.

Record options := mkOptions {
  isSocks : bool;
  isShell : bool;
  isCommand : bytes;
  reverseForward : bytes;
  authorizedClients : list bytes;
  totpSecret : bytes;
}.

(** [handleConn]: the pipe closes the connection, the services do so themselves. *)
Definition handleConn (o : options) (d : data_conn) : prog netE unit :=
  if isSocks o then trigger (Serve d SocksServer)
  else if isShell o then trigger (Serve d ShellServer)
  else if negb (isCommand o =s "") then trigger (Serve d (CommandServer (isCommand o)))
  else if negb (reverseForward o =s "")
  then trigger (Serve d (ReverseForwardServer (reverseForward o)))
  else trigger (Serve d Pipe) ;;; trigger (CloseData d).

Definition handleServerConn (o : options) (isRelay : bool) (c : nat) : prog netE unit :=
  a <- admission c (authorizedClients o) (totpSecret o) ;;
  (match a with
   | None => Ret tt
   | Some _ =>
       if isRelay then
         n <- upgrade c negotiateWebRTCServer ;;
         match n with
         | Fallback _ | Broken _ => handleConn o (OverTLS c)
         | Direct => trigger (CloseTLS c) ;;; handleConn o OverP2P
         end
       else handleConn o (OverTLS c)
   end) ;;;
  trigger (CloseConn c).

(** The connection for the data, after the upgrade if there is one. *)
Definition data_connection (isRelay : bool) (c : nat) : prog netE data_conn :=
  if isRelay then
    n <- upgrade c negotiateWebRTCServer ;;
    match n with
    | Fallback _ | Broken _ => Ret (OverTLS c)
    | Direct => trigger (CloseTLS c) ;;; Ret OverP2P
    end
  else Ret (OverTLS c).

(** The PROXY header; whether it was written. *)
Definition send_proxy_header (d : data_conn) (local : nat) (certs : list bytes) : prog netE bool :=
  src <- trigger (RemoteAddr d) ;;
  dst <- trigger (LocalAddr local) ;;
  let peerID := match certs with [] => None | cert :: _ => Some (id_string (NewDeviceID cert)) end in
  match formatVersion2 (proxy_header addr_string src dst peerID) with
  | None => Ret false
  | Some b =>
      r <- trigger (WriteHeader local b) ;;
      Ret (match r with None => true | Some _ => false end)
  end.

(** Copies in both directions until one of them ends, then closes the peer's
    connection. *)
Definition forward (forwardAddr : bytes) (proxyProtocol : bool) (d : data_conn)
    (certs : list bytes) : prog netE unit :=
  let '(network, address) := parseNetworkAndAddr forwardAddr in
  l <- trigger (Dial network address) ;;
  match l with
  | Err _ => trigger (CloseData d)
  | Ok local =>
      ok <- (if proxyProtocol then send_proxy_header d local certs else Ret true) ;;
      (if ok : bool then trigger (CopyBoth d local) ;;; trigger (CloseData d) else Ret tt) ;;;
      trigger (CloseConn local)
  end.

Definition handleForwardConn (forwardAddr : bytes) (isRelay proxyProtocol : bool)
    (authorizedClients : list bytes) (totpSecret : bytes) (c : nat) : prog netE unit :=
  a <- admission c authorizedClients totpSecret ;;
  (match a with
   | None => Ret tt
   | Some certs =>
       d <- data_connection isRelay c ;;
       forward forwardAddr proxyProtocol d certs
   end) ;;;
  trigger (CloseConn c).

(** ** The gate *)

(** [h] starts with everything a client has to get right on [c]. *)
Definition admitted (c : nat) (clients : list bytes) (secret : bytes) (h : list net_entry) : Prop :=
  ∃ certs t0,
    [Handshaken c None; CertificatesOf c certs] ++ map (TLSIO c) t0 `prefix_of` h ∧
    (clients ≠ [] → ∃ cert rest, certs = cert :: rest ∧ NewDeviceID cert ∈ clients) ∧
    (secret ≠ [] → authenticated validate secret t0).

(** Before that, only the handshake and the exchange of passcodes, and closing. *)
Definition gated (c : nat) (clients : list bytes) (secret : bytes)
    (h : list net_entry) (e : net_entry) : Prop :=
  match e with
  | Handshaken c' _ | CertificatesOf c' _ | TLSIO c' _ | TLSClosed c' | ConnClosed c' => c' = c
  | _ => False
  end ∨ admitted c clients secret h.

Lemma admitted_later c clients secret h h' :
  h `prefix_of` h' → admitted c clients secret h → admitted c clients secret h'.
Proof.
  intros Hh (certs & t0 & Hp & H1 & H2). exists certs, t0. split_and!; [by etrans|done|done].
Qed.

Lemma gated_admitted c clients secret h h' e :
  h `prefix_of` h' → admitted c clients secret h → gated c clients secret h' e.
Proof. intros ? ?. right. by eapply admitted_later. Qed.

Lemma authorized_spec clients certs :
  authorized clients certs = true →
  clients ≠ [] → ∃ cert rest, certs = cert :: rest ∧ NewDeviceID cert ∈ clients.
Proof.
  unfold authorized. intros [H|H]%orb_true_iff Hc; [by apply bool_decide_eq_true in H|].
  destruct certs as [|cert rest]; [done|]. exists cert, rest. split; [done|].
  apply existsb_exists in H as (i & Hi & He). bools. subst. by apply list_elem_of_In.
Qed.

Lemma admission_safe c clients secret :
  safe (E := netE) (gated c clients secret) [] (admission c clients secret)
    (λ h r, r ≠ None → admitted c clients secret h).
Proof.
  unfold admission. apply safe_ask. intros hs _. split; [by left|].
  destruct hs as [e|]; [by apply safe_Ret|].
  apply safe_ask. intros certs _. split; [by left|].
  destruct (authorized clients certs) eqn:Ea; cbn [negb].
  2: { apply safe_ask. intros ? _. split; [by left|]. by apply safe_Ret. }
  apply safe_bind. apply safe_on_tls; [|by left].
  intros t0 err Hx. destruct err as [e|].
  - apply safe_ask. intros ? _. split; [by left|]. by apply safe_Ret.
  - apply safe_Ret. intros _. exists certs, t0. split_and!.
    + done.
    + by apply authorized_spec.
    + intros Hs. by apply performServerAuth_authenticated.
Qed.

Lemma safe_admitted {R} c clients secret (p : prog netE R) h :
  admitted c clients secret h →
  safe (E := netE) (gated c clients secret) h p (λ _ _, True).
Proof.
  revert h; induction p as [r|X e k IH]; intros h Hh; [done|]. intros x _.
  split; [by right|]. apply IH. eapply admitted_later; [|exact Hh]. by apply prefix_app_r.
Qed.

Lemma gated_handler {R} c clients secret (body : list bytes → prog netE unit) (k : unit → prog netE R) :
  (∀ h, safe (E := netE) (gated c clients secret) h (k tt) (λ _ _, True)) →
  safe (E := netE) (gated c clients secret) []
    (a <- admission c clients secret ;;
     pbind (match a with None => Ret tt | Some certs => body certs end) k) (λ _ _, True).
Proof.
  intros Hk. eapply safe_call; [apply admission_safe|]. intros h a _ Ha.
  destruct a as [certs|]; [by apply safe_admitted, Ha|]. apply Hk.
Qed.

Lemma server_gated o isRelay c :
  safe (E := netE) (gated c (authorizedClients o) (totpSecret o)) [] (handleServerConn o isRelay c)
    (λ _ _, True).
Proof. apply gated_handler. intros h. apply safe_trigger. intros ? _. split; [by left|done]. Qed.

(** C12. The gate of the server: whatever the client does, nothing but the TLS
    handshake and the passcode exchange happens on its connection, no service, no
    upgrade, no connection to the forwarding target, until the handshake has
    succeeded, the first certificate's device ID is one of the authorised clients
    if any are named, and a passcode valid for the secret was received if there is
    one. *)
Theorem server_gate o isRelay c pre e post :
  prefix_exec (handleServerConn o isRelay c) (pre ++ e :: post) →
  gated c (authorizedClients o) (totpSecret o) pre e.
Proof.
  exact (safe_always (E := netE) (gated _ _ _) _ (λ _ _, True) pre e post (server_gated o isRelay c)).
Qed.

Lemma forward_gated forwardAddr isRelay proxyProtocol clients secret c :
  safe (E := netE) (gated c clients secret) []
    (handleForwardConn forwardAddr isRelay proxyProtocol clients secret c) (λ _ _, True).
Proof. apply gated_handler. intros h. apply safe_trigger. intros ? _. split; [by left|done]. Qed.

(** The same gate stands before every forwarded connection. *)
Theorem forward_gate forwardAddr isRelay proxyProtocol clients secret c pre e post :
  prefix_exec (handleForwardConn forwardAddr isRelay proxyProtocol clients secret c)
    (pre ++ e :: post) →
  gated c clients secret pre e.
Proof.
  exact (safe_always (E := netE) (gated _ _ _) _ (λ _ _, True) pre e post
    (forward_gated forwardAddr isRelay proxyProtocol clients secret c)).
Qed.

(** ** What is served *)

(** The service the options ask for. *)
Definition chosen (o : options) : service :=
  if isSocks o then SocksServer
  else if isShell o then ShellServer
  else if negb (isCommand o =s "") then CommandServer (isCommand o)
  else if negb (reverseForward o =s "") then ReverseForwardServer (reverseForward o)
  else Pipe.

Lemma admission_exec c clients secret t r : exec (admission c clients secret) t r → services t = [].
Proof.
  clear id_string addr_string. unfold admission. intros Ht. apply services_nil. intros d s.
  repeat first
    [ match goal with H : exec (on_tls _ _) _ _ |- _ =>
        apply exec_on_tls in H; destruct H as (? & -> & _) end
    | exec_step; simplify_eq ]; cbn [app]; set_solver.
Qed.

Lemma handleConn_exec o d t u : exec (handleConn o d) t u → services t = [(d, chosen o)].
Proof. unfold handleConn, chosen. intros Ht. repeat (exec_step; simplify_eq); done. Qed.

Lemma served_once_exec o isRelay c t u :
  exec (handleServerConn o isRelay c) t u →
  ∃ t1, t = t1 ++ [ConnClosed c] ∧
    (services t1 = [] ∨
     ∃ d, services t1 = [(d, chosen o)] ∧
          (d = OverTLS c ∨ d = OverP2P ∧ isRelay = true ∧ Upgraded c (Awaited Open) ∈ t1)).
Proof.
  unfold handleServerConn. intros (t0 & t1 & a & -> & Ha%admission_exec & Ht)%exec_bind.
  apply exec_bind in Ht as (t2 & t3 & [] & -> & Ht & (x & t4 & _ & -> & [-> _])).
  exists (t0 ++ t2). split; [by rewrite app_assoc|]. rewrite services_app, Ha, app_nil_l.
  destruct a as [certs|]; [|by left; destruct Ht as [-> _]].
  destruct isRelay.
  2: { right. exists (OverTLS c). apply handleConn_exec in Ht. auto. }
  apply exec_bind in Ht as (t4 & t5 & n & -> & Hn & Ht).
  rewrite services_app, (upgrade_exec _ _ _ _ Hn), app_nil_l.
  apply exec_upgrade in Hn as (t6 & -> & Hn). right.
  destruct n as [|e|e]; [|apply handleConn_exec in Ht; by eauto..].
  apply exec_ask in Ht as (y & t7 & _ & -> & Ht%handleConn_exec).
  exists OverP2P. split; [done|]. right. split_and!; [done|done|].
  destruct (proj2 (server_released _ _ Hn) eq_refl) as [_ Ho]. set_solver.
Qed.

(** C21. Every connection that is handled to the end is closed, and at most one
    service was run on it: the one the options ask for.  It gets the direct
    connection only if the data channel had opened on a relayed one. *)
Theorem served_once o isRelay c t u :
  exec (handleServerConn o isRelay c) t u →
  ∃ t1, t = t1 ++ [ConnClosed c] ∧
    (services t1 = [] ∨
     ∃ d, services t1 = [(d, chosen o)] ∧
          (d = OverTLS c ∨ d = OverP2P ∧ isRelay = true ∧ Upgraded c (Awaited Open) ∈ t1)).
Proof. apply served_once_exec. Qed.

(** A handler that is still running has not run more than that. *)
Lemma served_so_far o isRelay c t :
  prefix_exec (handleServerConn o isRelay c) t →
  services t = [] ∨ ∃ d, services t = [(d, chosen o)].
Proof.
  intros (t' & r & H)%(prefix_extends net_wit ([], [])); [|apply net_wit_ok].
  apply served_once_exec in H as (t1 & E & H). apply (f_equal services) in E.
  rewrite !services_app in E. cbn in E. rewrite app_nil_r in E.
  destruct H as [H|(d & H & _)]; rewrite H in E; [left; by apply app_eq_nil in E as [-> _]|].
  destruct (services t) as [|x l]; [by left|]. injection E as -> E. apply app_eq_nil in E as [-> _]. eauto.
Qed.

(** With the PROXY protocol, a direct connection to a TCP target is always
    dropped: the header cannot be rendered, no byte is forwarded, and the peer's
    WebRTC connection is left open. *)
Theorem proxy_over_p2p_dropped forwardAddr certs t u :
  exec (forward forwardAddr true OverP2P certs) t u →
  (∀ l a, LocalAddrOf l a ∈ t → ∃ ip port, a = Some (TCPAddr ip port)) →
  (∃ n a l, Dialled n a (Ok l) ∈ t) →
  (∀ l r, Copied OverP2P l r ∉ t) ∧ (DataClosed OverP2P ∉ t).
Proof.
  clear validate. unfold forward. destruct (parseNetworkAndAddr forwardAddr) as [network address].
  intros (l & t1 & _ & -> & Ht)%exec_ask Hl Hd.
  destruct l as [local|e].
  2: { destruct Ht as (x & t2 & _ & -> & [-> _]). set_solver. }
  apply exec_bind in Ht as (t2 & t3 & sent & -> & Hs & Ht).
  unfold send_proxy_header in Hs.
  apply exec_ask in Hs as (src & t4 & Hsrc & -> & Hs).
  apply exec_ask in Hs as (dst & t5 & _ & -> & Hs).
  destruct (Hl local dst) as (ip & port & ->); [set_solver|].
  cbn in Hsrc. subst src. unfold webrtc_addr in Hs. rewrite no_ip_header_fails in Hs.
  destruct Hs as [-> ->]. destruct Ht as (x & t6 & _ & -> & [-> _]). set_solver.
Qed.

(** ** A client that is refused *)

Lemma admission_cases c clients secret t r :
  exec (admission c clients secret) t r →
  (∃ e, t = [Handshaken c (Some e)] ∧ r = None) ∨
  (∃ certs, t = [Handshaken c None; CertificatesOf c certs; TLSClosed c] ∧
            authorized clients certs = false ∧ r = None) ∨
  (∃ certs t', t = Handshaken c None :: CertificatesOf c certs :: t' ∧
               authorized clients certs = true).
Proof.
  unfold admission. intros ([e|] & t1 & _ & -> & Ht)%exec_ask; [left; destruct Ht as [-> ->]; eauto|].
  right. apply exec_ask in Ht as (certs & t2 & _ & -> & Ht).
  destruct (authorized clients certs) eqn:Ea; [by eauto|]. left.
  destruct Ht as (x & t3 & _ & -> & [-> ->]). eauto.
Qed.

(** A client whose device is not authorised is turned away before any secret is
    asked for: the connection is closed after the handshake, and not one byte of
    the passcode exchange is sent. *)
Theorem unauthorized_refused o isRelay c certs t u :
  authorized (authorizedClients o) certs = false →
  exec (handleServerConn o isRelay c) ([Handshaken c None; CertificatesOf c certs] ++ t) u →
  t = [TLSClosed c; ConnClosed c].
Proof.
  intros Ha Ht. unfold handleServerConn in Ht.
  apply exec_bind in Ht as (t1 & t2 & a & Heq & Had & Ht).
  apply admission_cases in Had as [(e & -> & ->)|[(cs & -> & _ & ->)|(cs & t' & -> & Hok)]];
    [done| |]; cbn [app] in Heq; injection Heq as <- Heq; [|congruence].
  destruct Ht as (x & t4 & _ & -> & [-> _]). done.
Qed.
End ServerConn.

(** ** The theorems at concrete inputs *)

Definition options_wit : options :=
  mkOptions false true [] [] [str "id:CERT"] "JBSWY3DP".
Definition id_wit (cert : bytes) : bytes := str "id:" ++ cert.

Definition server_wit : prog netE unit := handleServerConn demo_validate id_wit options_wit false 1.

Lemma server_gate_witness :
  gated demo_validate id_wit 1 [str "id:CERT"] "JBSWY3DP"
    (take 8 (net_trace server_wit (demo_answer "123456"))) (Served (OverTLS 1) ShellServer).
Proof.
  apply (server_gate demo_validate id_wit options_wit false 1 _ _
    (drop 9 (net_trace server_wit (demo_answer "123456")))).
  apply (net_trace_prefix server_wit (demo_answer "123456") 8). vm_compute. reflexivity.
Defined.

Definition forward_wit : prog netE unit :=
  handleForwardConn demo_validate id_wit id_wit (λ _, []) "localhost:80" true true [] [] 1.

(** The forwarding target is dialled after an upgrade. *)
Lemma forward_gate_witness :
  gated demo_validate id_wit 1 [] []
    (take 15 (net_trace forward_wit (frame (marshal (mkSignal "offer" "v=0" None)))))
    (Dialled "tcp" "localhost:80" (Ok 7%nat)).
Proof.
  apply (forward_gate demo_validate id_wit id_wit (λ _, []) "localhost:80" true true [] [] 1 _ _
    (drop 16 (net_trace forward_wit (frame (marshal (mkSignal "offer" "v=0" None)))))).
  apply (net_trace_prefix forward_wit _ 15). vm_compute. reflexivity.
Defined.

Lemma served_once_witness :
  ∃ t1, net_trace server_wit (demo_answer "123456") = t1 ++ [ConnClosed 1] ∧
    (services t1 = [] ∨
     ∃ d, services t1 = [(d, ShellServer)] ∧
          (d = OverTLS 1 ∨ d = OverP2P ∧ false = true ∧ Upgraded 1 (Awaited Open) ∈ t1)).
Proof.
  exact (served_once demo_validate id_wit options_wit false 1 _ _
    (net_trace_exec server_wit (demo_answer "123456"))).
Defined.

Lemma proxy_over_p2p_dropped_witness :
  (∀ l r, Copied OverP2P l r ∉
     net_trace (forward id_wit id_wit (λ _, []) "localhost:80" true OverP2P [str "CERT"]) []) ∧
  (DataClosed OverP2P ∉
     net_trace (forward id_wit id_wit (λ _, []) "localhost:80" true OverP2P [str "CERT"]) []).
Proof.
  apply (proxy_over_p2p_dropped id_wit id_wit (λ _, []) "localhost:80" [str "CERT"] _ tt).
  - exact (net_trace_exec (forward id_wit id_wit (λ _, []) "localhost:80" true OverP2P [str "CERT"]) []).
  - intros l a H%list_elem_of_In. vm_compute in H.
    destruct H as [H|[H|[H|[H|[]]]]]; try discriminate H. injection H as _ <-. eauto.
  - exists "tcp", "localhost:80", 7%nat. vm_compute. by left.
Defined.

Lemma unauthorized_refused_witness :
  [TLSClosed 1; ConnClosed 1] = [TLSClosed 1; ConnClosed 1].
Proof.
  apply (unauthorized_refused demo_validate id_wit
    (mkOptions false true [] [] [str "id:OTHER"] "JBSWY3DP") false 1 [str "CERT"] _ tt); [done|].
  exact (net_trace_exec (handleServerConn demo_validate id_wit
    (mkOptions false true [] [] [str "id:OTHER"] "JBSWY3DP") false 1) []).
Defined.
