(* ===== verification/Client.v ===== *)
(** * The client (RunClient and handleClientConn of main.go)

    Resolves the server's addresses, tries the direct ones in turn and then the
    relays, checks the server's identity, authenticates, upgrades a relayed
    connection, and runs the mode asked for. *)

From S2P Require Import Prelude GoStrings Effects Conn Auth WebRTC ProxyProtocol Discovery Net.

Set Default Proof Using "Type".

Record ClientOptions := mkClient {
  ServerID : bytes;
  RelayURI : bytes;
  DiscoveryServer : bytes;
  TryDirect : bool;
  Socks : bytes;
  Shell : bool;
  ReverseForward : bytes;
  TOTPPasscode : bytes;
}.

Section Client.
(** [protocol.NewDeviceID] of a certificate, [DeviceIDFromString], [DeviceID.String],
    the host of [url.Parse], and what the terminal gives when a passcode has to be
    asked for on a connection. *)
Context (NewDeviceID : bytes → bytes) (DeviceIDFromString : bytes → result bytes).
Context (id_string : bytes → bytes) (url_host : bytes → option bytes) (stdin : nat → Stdin).

Definition handleClientConn (o : ClientOptions) (d : data_conn) : prog netE unit :=
  if negb (Socks o =s "") then trigger (Serve d (SocksClient (Socks o)))
  else if Shell o then trigger (Serve d ShellClient)
  else if negb (ReverseForward o =s "")
  then trigger (Serve d (ReverseForwardClient (ReverseForward o)))
  else trigger (Serve d Pipe) ;;; trigger (CloseData d).

Definition directAddresses (addresses : list bytes) : list bytes :=
  filter (λ a, HasPrefix a "tcp://" = true) addresses.

Definition relayAddresses (addresses : list bytes) : list bytes :=
  filter (λ a, HasPrefix a "tcp://" = false ∧ HasPrefix a "relay://" = true) addresses.

(** The loop over the direct addresses: whether one of them was used. *)
Fixpoint try_direct (o : ClientOptions) (serverID : bytes) (addrs : list bytes) : prog netE bool :=
  match addrs with
  | [] => Ret false
  | addr :: addrs =>
      match url_host addr with
      | None => try_direct o serverID addrs
      | Some host =>
          conn <- trigger (Dial "tcp" host) ;;
          match conn with
          | Err _ => try_direct o serverID addrs
          | Ok c =>
              hs <- trigger (Handshake c) ;;
              match hs with
              | Some _ => trigger (CloseConn c) ;;; try_direct o serverID addrs
              | None =>
                  certs <- trigger (PeerCertificates c) ;;
                  match certs with
                  | [] => trigger (CloseTLS c) ;;; try_direct o serverID addrs
                  | cert :: _ =>
                      if negb (NewDeviceID cert =s serverID)
                      then trigger (CloseTLS c) ;;; try_direct o serverID addrs
                      else
                        err <- on_tls c (performClientAuth (stdin c) (TOTPPasscode o)) ;;
                        match err with
                        | Some _ => trigger (CloseTLS c) ;;; try_direct o serverID addrs
                        | None => handleClientConn o (OverTLS c) ;;; Ret true
                        end
                  end
              end
          end
      end
  end.

(** From the relay session to the end of the mode. *)
Definition relay_session (o : ClientOptions) (serverID : bytes) (c : nat) : prog netE (option error) :=
  hs <- trigger (Handshake c) ;;
  match hs with
  | Some e => Ret (Some (Wrapf "TLS handshake failed" e))
  | None =>
      certs <- trigger (PeerCertificates c) ;;
      match certs with
      | [] => trigger (CloseTLS c) ;;; Ret (Some (Errorf "server presented no TLS certificates"))
      | cert :: _ =>
          if negb (NewDeviceID cert =s serverID)
          then trigger (CloseTLS c) ;;;
               Ret (Some (Errorf (str "security mismatch: connected to device "
                                  ++ id_string (NewDeviceID cert) ++ str ", expected "
                                  ++ id_string serverID)))
          else
            err <- on_tls c (performClientAuth (stdin c) (TOTPPasscode o)) ;;
            match err with
            | Some e => trigger (CloseTLS c) ;;; Ret (Some (Wrapf "authentication failed" e))
            | None =>
                if negb (TryDirect o) then handleClientConn o (OverTLS c) ;;; Ret None
                else
                  direct <- upgrade c client_upgrade ;;
                  if direct : bool
                  then trigger (CloseTLS c) ;;; handleClientConn o OverP2P ;;; Ret None
                  else handleClientConn o (OverTLS c) ;;; Ret None
            end
      end
  end.

Definition RunClient (o : ClientOptions) : prog netE (option error) :=
  match DeviceIDFromString (ServerID o) with
  | Err e => Ret (Some (Wrapf "invalid server Device ID" e))
  | Ok serverID =>
      addresses <- (if negb (RelayURI o =s "") then Ret (Ok [RelayURI o])
                    else over_http (lookup (id_string serverID) (DiscoveryServer o))) ;;
      match addresses with
      | Err e => Ret (Some (Wrapf "discovery lookup failed" e))
      | Ok addresses =>
          done <- (if TryDirect o then try_direct o serverID (directAddresses addresses)
                   else Ret false) ;;
          if done : bool then Ret None
          else
            match relayAddresses addresses with
            | [] => Ret (Some (Errorf "no connectable relay or TCP addresses found"))
            | relays =>
                conn <- trigger (DialFastestRelay relays) ;;
                match conn with
                | Err e => Ret (Some e)
                | Ok c =>
                    r <- relay_session o serverID c ;;
                    trigger (CloseConn c) ;;;
                    Ret r
                end
            end
      end
  end.

(** ** Nothing goes to an unverified server *)

(** What the options ask for. *)
Definition client_service (o : ClientOptions) : service :=
  if negb (Socks o =s "") then SocksClient (Socks o)
  else if Shell o then ShellClient
  else if negb (ReverseForward o =s "") then ReverseForwardClient (ReverseForward o)
  else Pipe.

Definition is_dial (c : nat) (e : net_entry) : Prop :=
  (∃ n a, e = Dialled n a (Ok c)) ∨ (∃ rs, e = RelayDialled rs (Ok c)).

(** [h] ends with dialling [c], a handshake, the certificate of [serverID], and the
    exchange [t0] over the connection. *)
Definition verified (serverID : bytes) (h : list net_entry) (c : nat) (t0 : list conn_entry) : Prop :=
  ∃ h0 d cert rest,
    h = h0 ++ [d; Handshaken c None; CertificatesOf c (cert :: rest)] ++ map (TLSIO c) t0 ∧
    is_dial c d ∧ NewDeviceID cert = serverID.

(** Only [c]'s upgrade, and closing the TLS connection it replaces, may come between
    authentication and the data. *)
Definition session_of (o : ClientOptions) (serverID : bytes) (h : list net_entry) (c : nat) : Prop :=
  ∃ h0 t0 more, h = h0 ++ more ∧ verified serverID h0 c t0 ∧
    exec (performClientAuth (stdin c) (TOTPPasscode o)) t0 None ∧
    Forall (λ e, match e with Upgraded c' _ | TLSClosed c' => c' = c | _ => False end) more.

Definition client_allowed (o : ClientOptions) (h : list net_entry) (e : net_entry) : Prop :=
  match e with
  | TLSIO c _ => ∃ serverID t0, DeviceIDFromString (ServerID o) = Ok serverID ∧ verified serverID h c t0
  | Upgraded c _ => ∃ serverID, DeviceIDFromString (ServerID o) = Ok serverID ∧
                      session_of o serverID h c
  | Served d s => s = client_service o ∧
                  ∃ serverID c, DeviceIDFromString (ServerID o) = Ok serverID ∧
                    session_of o serverID h c ∧ (d = OverTLS c ∨ d = OverP2P)
  | _ => True
  end.

Section Verified.
Context (o : ClientOptions) (serverID : bytes).
Hypothesis Hid : DeviceIDFromString (ServerID o) = Ok serverID.

Abbreviation G := (client_allowed o).
Abbreviation ok := (λ _ _, True).

Lemma verified_talk h c t0 : verified serverID h c [] → verified serverID (h ++ map (TLSIO c) t0) c t0.
Proof.
  intros (h0 & d & cert & rest & -> & Hd & Hc). exists h0, d, cert, rest.
  split; [by rewrite app_nil_r, <- app_assoc|done].
Qed.

Lemma verified_start h c d cert rest :
  is_dial c d → NewDeviceID cert = serverID →
  verified serverID (((h ++ [d]) ++ [Handshaken c None]) ++ [CertificatesOf c (cert :: rest)]) c [].
Proof. intros Hd Hc. exists h, d, cert, rest. by rewrite <- !app_assoc. Qed.

Lemma session_more h c more :
  Forall (λ e, match e with Upgraded c' _ | TLSClosed c' => c' = c | _ => False end) more →
  session_of o serverID h c → session_of o serverID (h ++ more) c.
Proof.
  intros Hm (h0 & t0 & m & -> & Hv & Ha & Hf). exists h0, t0, (m ++ more).
  split_and!; [by rewrite app_assoc|done|done|]. by apply Forall_app.
Qed.

Lemma client_auth_safe h c :
  verified serverID h c [] →
  safe (E := netE) G h (on_tls c (performClientAuth (stdin c) (TOTPPasscode o)))
    (λ h' r, r = None → session_of o serverID h' c).
Proof using Hid.
  intros Hv. apply safe_on_tls.
  - intros t0 r Hx ->. exists (h ++ map (TLSIO c) t0), t0, [].
    split_and!; [by rewrite app_nil_r|by apply verified_talk|done|by apply Forall_nil].
  - intros t0 e _. exists serverID, t0. split; [done|]. by apply verified_talk.
Qed.

Lemma handleClientConn_safe h c d :
  session_of o serverID h c → d = OverTLS c ∨ d = OverP2P →
  safe (E := netE) G h (handleClientConn o d) ok.
Proof using Hid.
  intros Hs Hd. assert (HG : G h (Served d (client_service o))) by (split; [done|by exists serverID, c]).
  unfold handleClientConn. unfold client_service in HG. repeat case_match.
  1-3: apply safe_trigger; intros ? _; by split; [apply HG|].
  apply safe_ask. intros ? _. split; [apply HG|]. by apply safe_trigger.
Qed.

Lemma try_direct_safe addrs h : safe (E := netE) G h (try_direct o serverID addrs) ok.
Proof using Hid.
  revert h; induction addrs as [|addr addrs IH]; intros h; [done|]. cbn [try_direct].
  destruct (url_host addr) as [host|]; [|done].
  apply safe_ask. intros [c|e] _; (split; [done|]); [|done].
  apply safe_ask. intros [e|] _; (split; [done|]); [by apply safe_ask|].
  apply safe_ask. intros [|cert rest] _; (split; [done|]); [by apply safe_ask|].
  destruct (NewDeviceID cert =s serverID) eqn:E; cbn [negb]; bools; [|by apply safe_ask].
  eapply safe_call; [apply client_auth_safe, verified_start; [|done]; left; by eexists _, _|].
  intros h' [e|] _ Hs; [by apply safe_ask|].
  eapply safe_call; [by apply (handleClientConn_safe _ c); [apply Hs|left]|]. done.
Qed.

Lemma relay_session_safe h c d :
  is_dial c d → safe (E := netE) G (h ++ [d]) (relay_session o serverID c) ok.
Proof using Hid.
  intros Hd. unfold relay_session.
  apply safe_ask. intros [e|] _; (split; [done|]); [done|].
  apply safe_ask. intros [|cert rest] _; (split; [done|]); [by apply safe_ask|].
  destruct (NewDeviceID cert =s serverID) eqn:E; cbn [negb]; bools; [|by apply safe_ask].
  eapply safe_call; [by apply client_auth_safe, verified_start|].
  intros h' [e|] _ Hs; [by apply safe_ask|]. specialize (Hs eq_refl).
  destruct (TryDirect o); cbn [negb].
  2: { eapply safe_call; [by apply (handleClientConn_safe _ c); [|left]|]. done. }
  assert (Hm : ∀ t0, session_of o serverID (h' ++ map (Upgraded c) t0) c).
  { intros t0. apply session_more; [|done]. apply Forall_fmap, Forall_true. done. }
  eapply (safe_call (E := netE) (H := net_effect) _ _ _ _ (λ h _, session_of o serverID h c)).
  { apply safe_upgrade; [by intros|]. intros t0 e0 _. exists serverID. by split. }
  intros h'' [|] _ Hs''.
  - apply safe_ask. intros ? _. split; [done|].
    eapply safe_call; [apply (handleClientConn_safe _ c); [|by right]|done].
    apply session_more; [|done]. by apply Forall_singleton.
  - eapply safe_call; [by apply (handleClientConn_safe _ c); [|left]|]. done.
Qed.
End Verified.

Lemma RunClient_safe o : safe (E := netE) (client_allowed o) [] (RunClient o) (λ _ _, True).
Proof.
  unfold RunClient. destruct (DeviceIDFromString (ServerID o)) as [serverID|] eqn:Hid; [|done].
  apply (safe_call _ _ _ _ (λ _ _, True)).
  { destruct (negb _); [done|]. by apply safe_over_http. }
  intros h [addresses|e0] _ _; [|done].
  apply (safe_call _ _ _ _ (λ _ _, True)).
  { destruct (TryDirect o); [by apply try_direct_safe|done]. }
  intros h' [|] _ _; [done|]. destruct (relayAddresses addresses) as [|r rs]; [done|].
  apply safe_ask. intros [c|e0] _; (split; [done|]); [|done].
  eapply safe_call; [apply (relay_session_safe o serverID Hid h'); right; by eexists|].
  intros h'' res _ _. by apply safe_ask.
Qed.

(** C3. The client talks only to the server it was asked for: nothing is written to
    or read from a TLS connection, no upgrade is negotiated and no data is passed
    on, unless that very connection has just completed a handshake and presented a
    certificate of the expected device; and no upgrade and no data before the
    authentication exchange on it has succeeded.  What is done with the data is what the
    options ask for. *)
Theorem client_verifies_server o pre e post :
  prefix_exec (RunClient o) (pre ++ e :: post) → client_allowed o pre e.
Proof. exact (safe_always (E := netE) (client_allowed o) _ (λ _ _, True) pre e post (RunClient_safe o)). Qed.

(** ** The outcome *)

(** What a part of the client leaves: one session of the mode asked for, or none. *)
Definition session_iff (o : ClientOptions) (done : Prop) (t : list net_entry) : Prop :=
  (done ∧ ∃ d, services t = [(d, client_service o)]) ∨ (¬ done ∧ services t = []).

Lemma session_after o done t1 t2 :
  services t1 = [] → session_iff o done t2 → session_iff o done (t1 ++ t2).
Proof. unfold session_iff. intros H1. by rewrite services_app, H1. Qed.

Lemma session_before o done t1 t2 :
  services t2 = [] → session_iff o done t1 → session_iff o done (t1 ++ t2).
Proof. unfold session_iff. intros H2. by rewrite services_app, H2, app_nil_r. Qed.

Lemma session_step o done e t :
  services [e] = [] → session_iff o done t → session_iff o done (e :: t).
Proof. intros He Ht. by apply (session_after o done [e] t). Qed.

Lemma handleClientConn_exec o d t u :
  exec (handleClientConn o d) t u → services t = [(d, client_service o)].
Proof.
  unfold handleClientConn, client_service. intros Ht. repeat (exec_step; simplify_eq); done.
Qed.

Lemma served_session {R} o d (done : R → Prop) (r : R) t r' :
  exec (handleClientConn o d ;;; Ret r) t r' → done r → session_iff o (done r') t.
Proof.
  intros (t1 & t2 & u & -> & Ht%handleClientConn_exec & [-> ->])%exec_bind Hd.
  rewrite app_nil_r. left. eauto.
Qed.

Lemma try_direct_exec o serverID addrs t b :
  exec (try_direct o serverID addrs) t b → session_iff o (b = true) t.
Proof.
  revert t; induction addrs as [|addr addrs IH]; intros t Ht; cbn [try_direct] in Ht.
  { destruct Ht as [-> ->]. by right. }
  destruct (url_host addr) as [host|]; [|by apply IH].
  apply exec_ask in Ht as ([c|e] & t1 & _ & -> & Ht); (apply session_step; [done|]); [|by apply IH].
  apply exec_ask in Ht as ([e|] & t2 & _ & -> & Ht); (apply session_step; [done|]).
  { apply exec_ask in Ht as (x & t3 & _ & -> & Ht). apply session_step; [done|]. by apply IH. }
  apply exec_ask in Ht as ([|cert rest] & t3 & _ & -> & Ht); (apply session_step; [done|]).
  { apply exec_ask in Ht as (x & t4 & _ & -> & Ht). apply session_step; [done|]. by apply IH. }
  destruct (negb _).
  { apply exec_ask in Ht as (x & t4 & _ & -> & Ht). apply session_step; [done|]. by apply IH. }
  apply exec_bind in Ht as (t4 & t5 & err & -> & Ha%on_tls_exec & Ht).
  apply session_after; [done|]. destruct err as [e|].
  - apply exec_ask in Ht as (x & t6 & _ & -> & Ht). apply session_step; [done|]. by apply IH.
  - by eapply (served_session o _ (λ b, b = true)).
Qed.

Lemma relay_session_exec o serverID c t r :
  exec (relay_session o serverID c) t r → session_iff o (r = None) t.
Proof.
  unfold relay_session. intros Ht.
  apply exec_ask in Ht as ([e|] & t1 & _ & -> & Ht); (apply session_step; [done|]).
  { destruct Ht as [-> ->]. by right. }
  apply exec_ask in Ht as ([|cert rest] & t2 & _ & -> & Ht); (apply session_step; [done|]).
  { destruct Ht as (x & t3 & _ & -> & [-> ->]). by right. }
  destruct (negb _).
  { destruct Ht as (x & t3 & _ & -> & [-> ->]). by right. }
  apply exec_bind in Ht as (t3 & t4 & err & -> & Ha%on_tls_exec & Ht).
  apply session_after; [done|]. destruct err as [e|].
  { destruct Ht as (x & t5 & _ & -> & [-> ->]). by right. }
  destruct (negb _); [by eapply (served_session o _ (λ r, r = None))|].
  apply exec_bind in Ht as (t5 & t6 & direct & -> & Hu%upgrade_exec & Ht).
  apply session_after; [done|]. destruct direct; [|by eapply (served_session o _ (λ r, r = None))].
  apply exec_ask in Ht as (x & t7 & _ & -> & Ht). apply session_step; [done|].
  by eapply (served_session o _ (λ r, r = None)).
Qed.

(** C20. The client's result says what happened: it returns without an error exactly
    when it ran the mode asked for, once, on one connection, and with an error when
    it ran nothing. *)
Theorem client_outcome o t r :
  exec (RunClient o) t r → session_iff o (r = None) t.
Proof.
  unfold RunClient. destruct (DeviceIDFromString _) as [serverID|e].
  2: { intros [-> ->]. by right. }
  intros (t1 & t2 & addresses & -> & Hl & Ht)%exec_bind. apply session_after.
  { destruct (negb _); [by destruct Hl as [-> _]|by apply over_http_exec in Hl]. }
  destruct addresses as [addresses|e]; [|destruct Ht as [-> ->]; by right].
  apply exec_bind in Ht as (t3 & t4 & done_ & -> & Hd & Ht).
  assert (Hs : session_iff o (done_ = true) t3).
  { destruct (TryDirect o); [by eapply try_direct_exec|]. destruct Hd as [-> ->]. by right. }
  destruct done_.
  { destruct Ht as [-> ->]. rewrite app_nil_r. destruct Hs as [[_ Hs]|[? _]]; [by left|done]. }
  destruct Hs as [[? _]|[_ Hs]]; [done|]. apply session_after; [done|].
  destruct (relayAddresses addresses); [destruct Ht as [-> ->]; by right|].
  apply exec_ask in Ht as ([c|e] & t5 & _ & -> & Ht); (apply session_step; [done|]).
  2: { destruct Ht as [-> ->]. by right. }
  apply exec_bind in Ht as (t6 & t7 & res & -> & Hr%relay_session_exec & Ht).
  destruct Ht as (x & t8 & _ & -> & [-> ->]). by apply session_before.
Qed.
End Client.

(** ** The theorems at concrete inputs *)

Definition client_wit : ClientOptions := mkClient "id:CERT" [] "https://d/" true [] false [] [].

Definition run_client_wit : prog netE (option error) :=
  RunClient (λ cert, str "id:" ++ cert) Ok (λ i, i) (λ u, Some (drop 6 u)) (λ _, no_stdin) client_wit.

(** A server that needs no passcode. *)
Definition welcome : bytes := frame (marshal (mkChallenge "auth_ok" [])).

Lemma client_verifies_server_witness :
  client_allowed (λ cert, str "id:" ++ cert) Ok (λ _, no_stdin) client_wit
    (take 6 (net_trace run_client_wit welcome)) (Served (OverTLS 7) Pipe).
Proof.
  apply (client_verifies_server (λ cert, str "id:" ++ cert) Ok (λ i, i) (λ u, Some (drop 6 u))
    (λ _, no_stdin) client_wit _ _ (drop 7 (net_trace run_client_wit welcome))).
  apply (net_trace_prefix run_client_wit welcome 6). vm_compute. reflexivity.
Defined.

Lemma client_outcome_witness :
  session_iff client_wit (fst (run net_wit run_client_wit (welcome, [])) = None)
    (net_trace run_client_wit welcome).
Proof.
  exact (client_outcome (λ cert, str "id:" ++ cert) Ok (λ i, i) (λ u, Some (drop 6 u))
    (λ _, no_stdin) client_wit _ _ (net_trace_exec run_client_wit welcome)).
Defined.
