(* ===== verification/Mobile.v ===== *)
(** * The phone's side (mobile/mobile.go)

    Unlocking a machine, telling the user what went wrong, and telling whether a
    machine looks like it is waiting. *)

From Stdlib Require Import Floats.SpecFloat.
From S2P Require Import Prelude GoStrings GoNumbers Utf8 Json Effects Conn Auth WebRTC Discovery Net Client.

Set Default Proof Using "Type".

(** ** Unlocking *)

Definition DefaultDiscoveryURL : bytes := "https://discovery-lookup.syncthing.net/v2/".

Definition unlock_options (serverDeviceID : bytes) : ClientOptions :=
  mkClient serverDeviceID [] DefaultDiscoveryURL true [] false [] [].

(** What becomes of the client's error: one that mentions EOF is taken for success. *)
Definition unlock_result (json_text : bytes → bytes) (err : option error) : option bytes :=
  match err with
  | None => None
  | Some e => if negb (Contains (error_text json_text e) "EOF")
              then Some (str "client failed: " ++ error_text json_text e) else None
  end.

Section Unlock.
Context (json_text : bytes → bytes).
Context (NewDeviceID : bytes → bytes) (DeviceIDFromString : bytes → result bytes).
Context (id_string : bytes → bytes) (url_host : bytes → option bytes) (stdin : nat → Stdin).

(** [pipe] and [cert] are the outcomes of [os.Pipe] and of deriving the identity. *)
Definition UnlockLUKS (pipe : option error) (cert : result bytes) (serverDeviceID : bytes)
    : prog netE (option bytes) :=
  match pipe with
  | Some e => Ret (Some (str "failed to create pipe: " ++ error_text json_text e))
  | None =>
      match cert with
      | Err e => Ret (Some (str "failed to generate cert: " ++ error_text json_text e))
      | Ok _ =>
          err <- RunClient NewDeviceID DeviceIDFromString id_string url_host stdin
                   (unlock_options serverDeviceID) ;;
          Ret (unlock_result json_text err)
      end
  end.
End Unlock.

(** ** What went wrong *)

Inductive category : Type :=
| SERVER_OFFLINE | SERVER_UNREACHABLE | WRONG_DEVICE | NO_NETWORK | REJECTED | UNKNOWN.

Definition contains_any (m : bytes) (subs : list string) : bool :=
  existsb (λ s, Contains m (str s)) subs.

Definition ClassifyUnlockError (unicode_lower : bytes → bytes) (msg : bytes) : category :=
  let m := ToLower unicode_lower msg in
  if contains_any m ["not found in discovery"]%string then SERVER_OFFLINE
  else if contains_any m ["invitation from relay"; "join session"; "not found"]%string
  then SERVER_UNREACHABLE
  else if contains_any m ["security mismatch"]%string then WRONG_DEVICE
  else if contains_any m ["discovery lookup failed"; "no such host"; "dial tcp";
                          "network is unreachable"; "timeout"; "deadline exceeded"]%string
  then NO_NETWORK
  else if contains_any m ["authentication failed"; "unauthorized"]%string then REJECTED
  else UNKNOWN.

(** ** Is it waiting? *)

Inductive server_state : Type := WAITING | STALE | ABSENT | StatusNoNetwork.

Record ServerStatus := mkStatus { State : server_state; AgeSeconds : Z }.

Definition second : Z := 1000000000.
Definition freshRecordAge : Z := 150 * second.

(** [time.Since]: a duration is an int64 and the difference saturates. *)
Definition since (now seen : Time) : Z := Z.max min_int64 (Z.min max_int64 (now - seen)).

(** [int(age.Seconds())], for an age that is not negative. *)
Definition age_seconds (age : Z) : Z :=
  float_int (SFadd 53 1024 (float64 (age / second))
               (SFdiv 53 1024 (float64 (age mod second)) (float64 second))).

Definition status_of (now : Time) (r : result (option Record_)) : ServerStatus :=
  match r with
  | Err _ => mkStatus StatusNoNetwork (-1)
  | Ok None => mkStatus ABSENT (-1)
  | Ok (Some record) =>
      if IsZero (Seen record) then mkStatus STALE (-1)
      else
        let age := Z.max 0 (since now (Seen record)) in
        mkStatus (if age <=? freshRecordAge then WAITING else STALE) (age_seconds age)
  end.

(** [now] is the phone's clock when the record has arrived. *)
Definition checkAgainst (parseTime : bytes → option Time) (now : Time)
    (discoveryURL serverDeviceID : bytes) : prog httpE (result ServerStatus) :=
  if TrimSpace serverDeviceID =s "" then Ret (Err (Errorf "no device ID to look up"))
  else
    r <- LookupRecord parseTime serverDeviceID discoveryURL ;;
    Ret (Ok (status_of now r)).

Definition CheckServerStatus (parseTime : bytes → option Time) (now : Time)
    (serverDeviceID : bytes) : prog httpE (result ServerStatus) :=
  checkAgainst parseTime now DefaultDiscoveryURL serverDeviceID.

Example age_ex : map age_seconds [0; 999999999; 61999999999; 150 * second; 86400 * second] = [0; 0; 61; 150; 86400].
Proof. vm_compute. reflexivity. Qed.

(** At an age of about two centuries the sum is rounded up to the next second. *)
Example age_rounds_up : age_seconds (9000000000 * second + 999999999) = 9000000001.
Proof. vm_compute. reflexivity. Qed.

(** ** A refused phone *)

Lemma HasPrefix_Contains s p : HasPrefix s p = true → Contains s p = true.
Proof. intros [t ->]%HasPrefix_spec. apply Contains_spec. by exists [], t. Qed.

Lemma Contains_app_r s a b : Contains b s = true → Contains (a ++ b) s = true.
Proof.
  intros (x & y & ->)%Contains_spec. apply Contains_spec. exists (a ++ x), y. by rewrite <- app_assoc.
Qed.

(** An end of stream anywhere in the chain of errors shows in the text. *)
Lemma error_text_EOF json_text p q :
  Contains (error_text json_text (Wrapf p (Wrapf q EOF))) "EOF" = true.
Proof. cbn [error_text]. do 4 apply Contains_app_r. reflexivity. Qed.

Section Refused.
Context (json_text NewDeviceID id_string : bytes → bytes) (stdin : nat → Stdin).

(** C38. A machine that refuses the phone closes the connection after the handshake,
    before its challenge.  The client then fails, no passphrase has been sent and
    no session was run, and yet the unlock is reported as successful. *)
Theorem refused_unlock_succeeds serverDeviceID serverID c cert rest t r :
  NewDeviceID cert = serverID →
  exec (relay_session NewDeviceID id_string stdin (unlock_options serverDeviceID) serverID c)
    ([Handshaken c None; CertificatesOf c (cert :: rest); TLSIO c (ReadN 4 (Err EOF))] ++ t) r →
  t = [TLSClosed c] ∧
  r = Some (Wrapf "authentication failed" (Wrapf "failed to read auth challenge from server" EOF)) ∧
  unlock_result json_text r = None.
Proof.
  intros Hid Ht. unfold relay_session in Ht. cbn [app] in Ht.
  apply exec_ask in Ht as (hs & t1 & _ & [= <- <-] & Ht).
  apply exec_ask in Ht as (certs & t2 & _ & [= <- <-] & Ht). cbv beta iota in Ht.
  rewrite (proj2 (seq_eqb_true _ _) Hid) in Ht. cbn [negb] in Ht.
  apply exec_bind in Ht as (t3 & t4 & err & Heq & Ha & Ht).
  apply exec_on_tls in Ha as (t0 & -> & Ha). unfold performClientAuth in Ha.
  apply exec_bind in Ha as (t5 & t6 & ch & -> & Hread & Ha).
  unfold readAuthMessage, readMessage in Hread.
  apply exec_ask in Hread as (hdr & t7 & _ & -> & Hread).
  injection Heq as Hhdr Heq. subst hdr. destruct Hread as [-> ->].
  destruct Ha as [-> ->]. cbn in Heq. subst t4.
  destruct Ht as (x & t8 & _ & -> & [-> ->]).
  split_and!; [done|done|]. unfold unlock_result. by rewrite error_text_EOF.
Qed.
End Refused.

(** ** What the phone is told about a machine *)

(** The record in a response. *)
Definition record_in (parseTime : bytes → option Time) (resp : result (Z * bytes)) : option Record_ :=
  match resp with
  | Ok (status, body) =>
      if status =? StatusOK
      then j ← parse_first body; o ← as_object j; record_of parseTime o else None
  | Err _ => None
  end.

Lemma LookupRecord_exec parseTime serverID ds t r :
  exec (LookupRecord parseTime serverID ds) t r →
  ∃ resp, t = [Got true (lookup_url ds serverID) resp] ∧
    (r = Ok None ↔ ∃ body, resp = Ok (StatusNotFound, body)) ∧
    (∀ rec, r = Ok (Some rec) ↔ record_in parseTime resp = Some rec).
Proof.
  unfold LookupRecord. intros (resp & t' & _ & -> & Ht)%exec_ask.
  exists resp. destruct resp as [[status body]|e]; cbv beta iota in Ht; unfold record_in.
  - destruct (status =? StatusNotFound) eqn:E1; bools.
    { destruct Ht as [-> ->]. subst status. cbn. naive_solver. }
    destruct (status =? StatusOK) eqn:E2; bools; cbv beta iota delta [negb] in Ht;
      destruct Ht as [-> ->]; (split; [done|]).
    + case_match; naive_solver.
    + naive_solver.
  - destruct Ht as [-> ->]. naive_solver.
Qed.

Lemma status_of_waiting now r :
  State (status_of now r) = WAITING ↔
  ∃ rec, r = Ok (Some rec) ∧ Seen rec ≠ 0 ∧ now - Seen rec ≤ freshRecordAge.
Proof.
  unfold status_of. destruct r as [[rec|]|e]; [|naive_solver..]. unfold IsZero.
  destruct (Seen rec =? 0) eqn:E; bools; [naive_solver|]. cbn [State].
  assert (Hc : Z.max 0 (since now (Seen rec)) ≤ freshRecordAge ↔ now - Seen rec ≤ freshRecordAge).
  { unfold since. unfold freshRecordAge, second, max_int64, min_int64. lia. }
  case_match; bools.
  - split; [intros _; exists rec; naive_solver|done].
  - split; [done|]. intros (rec' & [= <-] & _ & Hle). lia.
Qed.

Lemma status_of_absent now r : State (status_of now r) = ABSENT ↔ r = Ok None.
Proof. unfold status_of. destruct r as [[rec|]|e]; [|naive_solver..]. repeat case_match; cbn in *; naive_solver. Qed.

(** The status is honest: a machine is reported as waiting exactly when discovery
    holds a dated record of it that is at most 150 seconds old, or from the future by
    the phone's clock, and as absent exactly when discovery answered that it has
    none; one verified request is made, and none without a device ID. *)
Theorem checkAgainst_sound parseTime now ds serverID t r :
  exec (checkAgainst parseTime now ds serverID) t r →
  (TrimSpace serverID = [] → t = [] ∧ ∃ e, r = Err e) ∧
  (TrimSpace serverID ≠ [] →
   ∃ resp st, t = [Got true (lookup_url ds serverID) resp] ∧ r = Ok st ∧
     (State st = WAITING ↔ ∃ rec, record_in parseTime resp = Some rec ∧ Seen rec ≠ 0 ∧
                                  now - Seen rec ≤ freshRecordAge) ∧
     (State st = ABSENT ↔ ∃ body, resp = Ok (StatusNotFound, body))).
Proof.
  unfold checkAgainst. destruct (TrimSpace serverID =s "") eqn:E; bools.
  { intros [-> ->]. split; [eauto|done]. }
  intros (t1 & t2 & lr & -> & (resp & -> & Ha & Hr)%LookupRecord_exec & [-> ->])%exec_bind.
  split; [done|]. intros _. exists resp, (status_of now lr).
  rewrite status_of_waiting, status_of_absent, Ha. split_and!; [done|done| |done].
  split; intros (rec & H & ?); exists rec; (split; [by apply Hr|done]).
Qed.

(** ** The category matches the failure *)

Lemma Split_around a p c rest :
  c ∉ p →
  ∃ ws w, Split (a ++ p ++ c :: rest) c = ws ++ w :: Split rest c ∧ HasSuffix w p = true.
Proof.
  intros Hp. induction a as [|x a (ws & w & IH & Hw)]; cbn [app].
  - exists [], p. rewrite Split_app by done. split; [done|]. apply HasSuffix_spec. by exists [].
  - cbn [Split]. rewrite IH. destruct (beq x c) eqn:E.
    + by exists ([] :: ws), w.
    + destruct ws as [|w0 ws]; cbn [app].
      * exists [], (x :: w). split; [done|]. apply HasSuffix_spec in Hw as [t ->].
        apply HasSuffix_spec. by exists (x :: t).
      * by exists ((x :: w0) :: ws), w.
Qed.

(** A phrase of several words occurs only where some word ends in its first one. *)
Lemma Contains_phrase words lastw p q :
  Forall (λ w, x20 ∉ w) (words ++ [lastw]) → x20 ∉ p →
  forallb (λ w, negb (HasSuffix w p)) words = true →
  Contains (Join (words ++ [lastw]) " ") (p ++ x20 :: q) = false.
Proof.
  intros Hws Hp Hno. destruct (Contains _ _) eqn:E; [exfalso|done].
  apply Contains_spec in E as (a & b & E). rewrite <- app_assoc in E. cbn [app] in E.
  destruct (Split_around a p x20 (q ++ b) Hp) as (ws & w & Hsp & Hw).
  rewrite <- E in Hsp. change (str " ") with [x20] in Hsp.
  assert (Hne : ∃ y l, words ++ [lastw] = y :: l) by (destruct words; cbn; eauto).
  destruct Hne as (y & l & Hl). rewrite Hl in Hsp, Hws. rewrite Split_Join in Hsp by done.
  rewrite <- Hl in Hsp. destruct (Split (q ++ b) x20) as [|z s' _] eqn:Es using rev_ind;
    [by apply Split_ne in Es|].
  assert (Hsp' : words ++ [lastw] = (ws ++ w :: s') ++ [z]) by (by rewrite Hsp, <- app_assoc).
  apply app_inj_tail in Hsp' as [-> _].
  rewrite forallb_app in Hno. cbn in Hno. rewrite Hw in Hno. cbn in Hno.
  by rewrite andb_false_r in Hno.
Qed.

(** A device ID as the program prints it: ASCII without spaces. *)
Definition plain_id (i : bytes) : Prop := is_ascii i = true ∧ x20 ∉ i.

Lemma lower_no_space i : x20 ∉ i → x20 ∉ map lower_byte i.
Proof.
  intros Hi (c & Hc & Hin)%list_elem_of_fmap. apply Hi.
  assert (c = x20) as ->; [|done]. revert Hc. clear. by destruct c; vm_compute.
Qed.

Lemma HasSuffix_comma w p : HasSuffix p "," = false → p ≠ [] → HasSuffix (w ++ [x2c]) p = false.
Proof.
  intros Hp Hne. destruct (HasSuffix (w ++ [x2c]) p) eqn:E; [|done].
  apply HasSuffix_spec in E as [t Ht]. destruct p as [|c p _] using rev_ind; [done|].
  rewrite app_assoc in Ht. apply app_inj_tail in Ht as [_ <-].
  assert (HasSuffix (p ++ [x2c]) "," = true) by (apply HasSuffix_spec; by exists p). congruence.
Qed.

Lemma ToLower_ascii ul s : is_ascii s = true → ToLower ul s = map lower_byte s.
Proof. unfold ToLower. by intros ->. Qed.

Lemma is_ascii_app a b : is_ascii (a ++ b) = is_ascii a && is_ascii b.
Proof. apply forallb_app. Qed.

(** The two messages, in lower case. *)
Definition offline_message (i : bytes) : bytes :=
  str "client failed: discovery lookup failed: device " ++ i ++ str " not found in discovery".
Definition mismatch_message (got expected : bytes) : bytes :=
  str "client failed: security mismatch: connected to device " ++ got ++ str ", expected " ++ expected.

Lemma mismatch_words got expected :
  mismatch_message got expected =
  Join (map str ["client"; "failed:"; "security"; "mismatch:"; "connected"; "to"; "device"]%string
        ++ [got ++ [x2c]; str "expected"] ++ [expected]) " ".
Proof.
  unfold mismatch_message.
  change (Join _ _) with (str "client failed: security mismatch: connected to device " ++
    (got ++ [x2c]) ++ str " expected " ++ expected).
  by rewrite <- app_assoc.
Qed.

Lemma mismatch_phrase got expected p q :
  x20 ∉ got → x20 ∉ expected → x20 ∉ p → p ≠ [] → HasSuffix p "," = false →
  forallb (λ w, negb (HasSuffix w p))
    (map str ["client"; "failed:"; "security"; "mismatch:"; "connected"; "to"; "device"; "expected"]%string)
  = true →
  Contains (mismatch_message got expected) (p ++ x20 :: q) = false.
Proof.
  intros Hg He Hp Hne Hc Hf. rewrite mismatch_words, app_assoc.
  apply Contains_phrase; [|done|].
  - rewrite !Forall_app. split_and!.
    + repeat (apply Forall_cons; split; [by apply (bool_decide_unpack _); vm_compute|]). by apply Forall_nil.
    + apply Forall_cons. split; [set_solver|]. apply Forall_singleton.
      by apply (bool_decide_unpack _); vm_compute.
    + by apply Forall_singleton.
  - rewrite forallb_app. cbn [forallb map app] in *. rewrite HasSuffix_comma by done.
    repeat (apply andb_true_iff in Hf as [? Hf]). repeat (apply andb_true_iff; split); done.
Qed.

Lemma map_lower_mismatch got expected :
  map lower_byte (mismatch_message got expected)
  = mismatch_message (map lower_byte got) (map lower_byte expected).
Proof. unfold mismatch_message. by rewrite !map_app. Qed.

Lemma map_lower_offline i :
  map lower_byte (offline_message i) = offline_message (map lower_byte i).
Proof. unfold offline_message. by rewrite !map_app. Qed.

(** The category shown to the user is that of the failure: a machine that
    discovery does not know is offline, and a peer that proves another identity is
    the wrong device, whatever the device IDs are, provided the message is reported
    at all. *)
Theorem classify_unlock ul json_text got expected i msg :
  plain_id got → plain_id expected → plain_id i →
  (unlock_result json_text (Some (Wrapf "discovery lookup failed"
     (Errorf (str "device " ++ i ++ str " not found in discovery")))) = Some msg →
   ClassifyUnlockError ul msg = SERVER_OFFLINE) ∧
  (unlock_result json_text (Some (Errorf (str "security mismatch: connected to device "
     ++ got ++ str ", expected " ++ expected))) = Some msg →
   ClassifyUnlockError ul msg = WRONG_DEVICE).
Proof.
  intros [Ag Sg] [Ae Se] [Ai Si]. unfold unlock_result. cbn [error_text]. split.
  - destruct (negb _); [|done]. intros H%(inj Some). subst msg.
    change (ClassifyUnlockError ul (offline_message i) = SERVER_OFFLINE).
    unfold ClassifyUnlockError. rewrite ToLower_ascii by (unfold offline_message; by rewrite !is_ascii_app, Ai).
    rewrite map_lower_offline. cbn [contains_any existsb]. unfold offline_message.
    rewrite (Contains_app_r "not found in discovery"); [done|].
    by apply Contains_app_r.
  - destruct (negb _); [|done]. intros H%(inj Some). subst msg.
    change (ClassifyUnlockError ul (mismatch_message got expected) = WRONG_DEVICE).
    unfold ClassifyUnlockError. rewrite ToLower_ascii by (unfold mismatch_message; by rewrite !is_ascii_app, Ag, Ae).
    rewrite map_lower_mismatch. apply lower_no_space in Sg, Se. cbn [contains_any existsb].
    rewrite (mismatch_phrase _ _ "not" "found in discovery"), (mismatch_phrase _ _ "not" "found"),
      (mismatch_phrase _ _ "invitation" "from relay"), (mismatch_phrase _ _ "join" "session");
      try done; try (by apply (bool_decide_unpack _); vm_compute).
Qed.

(** ** The theorems at concrete inputs *)

(** The phone knocks on a machine that hangs up, directly and over a relay: no session,
    and no error. *)
Definition unlock_wit : prog netE (option bytes) :=
  UnlockLUKS (λ b, b) (λ cert, str "id:" ++ cert) Ok (λ i, i) (λ u, Some (drop 6 u)) (λ _, no_stdin)
    None (Ok []) "id:CERT".

Example unlock_refused_run :
  fst (run net_wit unlock_wit ([], [])) = None ∧ services (net_trace unlock_wit []) = [].
Proof. vm_compute. done. Qed.

Lemma refused_unlock_succeeds_witness :
  [TLSClosed 3] = [TLSClosed 3] ∧
  Some (Wrapf "authentication failed" (Wrapf "failed to read auth challenge from server" EOF))
  = Some (Wrapf "authentication failed" (Wrapf "failed to read auth challenge from server" EOF)) ∧
  unlock_result (λ b, b)
    (Some (Wrapf "authentication failed" (Wrapf "failed to read auth challenge from server" EOF)))
  = None.
Proof.
  apply (refused_unlock_succeeds (λ b, b) (λ cert, str "id:" ++ cert) (λ i, i) (λ _, no_stdin)
    "id:CERT" "id:CERT" 3 "CERT" []); [done|].
  exact (net_trace_exec (relay_session (λ cert, str "id:" ++ cert) (λ i, i) (λ _, no_stdin)
    (unlock_options "id:CERT") "id:CERT" 3) []).
Defined.

Lemma checkAgainst_sound_witness :
  ∃ resp st,
    [Got true (lookup_url "https://d/" "X") (Ok (404, []))]
    = [Got true (lookup_url "https://d/" "X") resp] ∧
    Ok (mkStatus ABSENT (-1)) = Ok st ∧
    (State st = WAITING ↔ ∃ rec, record_in (λ _, None) resp = Some rec ∧ Seen rec ≠ 0 ∧
                                 0 - Seen rec ≤ freshRecordAge) ∧
    (State st = ABSENT ↔ ∃ body, resp = Ok (StatusNotFound, body)).
Proof.
  refine (proj2 (checkAgainst_sound (λ _, None) 0 "https://d/" "X" _ _ _) _); [|by vm_compute].
  exact (run_exec (server_says 404 []) (checkAgainst (λ _, None) 0 "https://d/" "X") tt (λ _ _ _, I)).
Defined.

Lemma classify_unlock_witness :
  ClassifyUnlockError (λ s, s)
    "client failed: security mismatch: connected to device TIMEOUT, expected FOUND-NOT" = WRONG_DEVICE.
Proof.
  apply (proj2 (classify_unlock (λ s, s) (λ b, b) "TIMEOUT" "FOUND-NOT" "X" _
    ltac:(by split; apply (bool_decide_unpack _); vm_compute)
    ltac:(by split; apply (bool_decide_unpack _); vm_compute)
    ltac:(by split; apply (bool_decide_unpack _); vm_compute))).
  vm_compute. reflexivity.
Defined.
