(* ===== verification/Copy.v ===== *)
(** * Copying (CopyWithTrace of logging.go, the sending half of pipeBiDirectional)

    The loop that moves the payload from one end to the other, and the half-close
    that ends a transmission. *)

From S2P Require Import Prelude Effects.

(** ** The copy loop *)

Definition buffer_size : Z := 32 * 1024.

(** [ReadSome n]: up to [n] bytes together with an error; [WriteSome bs]: the number of
    bytes the writer says it took together with an error. *)
Inductive copyE : Type → Type :=
| ReadSome (n : Z) : copyE (bytes * option error)
| WriteSome (bs : bytes) : copyE (Z * option error).

Inductive copy_entry : Type :=
| DidRead (bs : bytes) (err : option error)
| DidWrite (bs : bytes) (n : Z) (err : option error).

Definition copy_log {X} (e : copyE X) : X → copy_entry :=
  match e in copyE X return X → copy_entry with
  | ReadSome _ => λ r, DidRead (fst r) (snd r)
  | WriteSome bs => λ r, DidWrite bs (fst r) (snd r)
  end.

(** A reader fills no more than the buffer; a writer may claim anything. *)
Definition copy_ok {X} (e : copyE X) : X → Prop :=
  match e in copyE X return X → Prop with
  | ReadSome n => λ r, Z.of_nat (length (fst r)) ≤ n
  | WriteSome _ => λ _, True
  end.

#[global] Instance copy_effect : Effect copyE :=
  {| entry := copy_entry; log X e := copy_log e; resp_ok X e := copy_ok e |}.

(** Addition on an int64. *)
Definition i64 (z : Z) : Z := (z + 2 ^ 63) mod 2 ^ 64 - 2 ^ 63.

(** The count and the error to go on with after a write. *)
Definition check_write (nr nw : Z) (ew : option error) : Z * option error :=
  if (nw <? 0) || (nr <? nw) then (0, match ew with None => Some ErrShortWrite | e => e end)
  else (nw, ew).

Definition copy_end (er : error) : option error := if bool_decide (er = EOF) then None else Some er.

(** The bytes written and the error; [None] when [reads] reads were not enough to reach
    the end. *)
Fixpoint CopyWithTrace (reads : nat) (written : Z) : prog copyE (option (Z * option error)) :=
  match reads with
  | O => Ret None
  | S reads =>
      r <- trigger (ReadSome buffer_size) ;;
      let after written :=
        match snd r with
        | Some er => Ret (Some (written, copy_end er))
        | None => CopyWithTrace reads written
        end in
      match fst r with
      | [] => after written
      | _ =>
          w <- trigger (WriteSome (fst r)) ;;
          let '(nw, ew) := check_write (Z.of_nat (length (fst r))) (fst w) (snd w) in
          let written := i64 (written + nw) in
          match ew with
          | Some e => Ret (Some (written, Some e))
          | None =>
              if negb (Z.of_nat (length (fst r)) =? nw)
              then Ret (Some (written, Some ErrShortWrite))
              else after written
          end
      end
  end.

(** ** The sending half of the pipe *)

Inductive pipeE : Type → Type :=
| Copying {X} (e : copyE X) : pipeE X
| CloseWrite : pipeE (option error).

Inductive pipe_entry : Type :=
| CopyIO (e : copy_entry)
| ClosedWrite (r : option error).

Definition pipe_log {X} (e : pipeE X) : X → pipe_entry :=
  match e in pipeE X return X → pipe_entry with
  | Copying e => λ x, CopyIO (copy_log e x)
  | CloseWrite => ClosedWrite
  end.

Definition pipe_ok {X} (e : pipeE X) : X → Prop :=
  match e in pipeE X return X → Prop with Copying e => copy_ok e | CloseWrite => λ _, True end.

#[global] Instance pipe_effect : Effect pipeE :=
  {| entry := pipe_entry; log X e := pipe_log e; resp_ok X e := pipe_ok e |}.

(** The goroutine that sends standard input; [halfCloser] tells whether the connection
    can end one direction. *)
Definition stdin_to_remote (reads : nat) (halfCloser : bool) : prog pipeE unit :=
  r <- translate (@Copying) (CopyWithTrace reads 0) ;;
  match r with
  | None => Ret tt
  | Some (written, err) =>
      if match err with Some e => bool_decide (e ≠ EOF) | None => false end then Ret tt
      else if written =? 0 then Ret tt
      else if halfCloser then trigger CloseWrite ;;; Ret tt
      else Ret tt
  end.

(** ** What was moved *)

Definition data_in (t : list copy_entry) : bytes :=
  concat (omap (λ e, match e with DidRead bs _ => Some bs | _ => None end) t).

(** The bytes the writer took. *)
Definition data_out (t : list copy_entry) : bytes :=
  concat (omap (λ e, match e with
    | DidWrite bs n err => Some (take (Z.to_nat (fst (check_write (Z.of_nat (length bs)) n err))) bs)
    | _ => None
    end) t).

Lemma data_in_cons e t :
  data_in (e :: t) = match e with DidRead bs _ => bs | _ => [] end ++ data_in t.
Proof. by destruct e. Qed.

Lemma data_out_cons e t :
  data_out (e :: t) = match e with
    | DidWrite bs n err => take (Z.to_nat (fst (check_write (Z.of_nat (length bs)) n err))) bs
    | _ => []
    end ++ data_out t.
Proof. by destruct e. Qed.

(** The source ended by itself. *)
Definition reached_end (t : list copy_entry) : Prop := ∃ bs, DidRead bs (Some EOF) ∈ t.

Lemma i64_small z : 0 ≤ z < 2 ^ 63 → i64 z = z.
Proof. intros Hz. unfold i64. rewrite Z.mod_small; lia. Qed.

Lemma check_write_range nr nw ew :
  0 ≤ nr → 0 ≤ fst (check_write nr nw ew) ≤ nr.
Proof. intros Hr. unfold check_write. destruct (nw <? 0) eqn:E1, (nr <? nw) eqn:E2; cbn; bools; lia. Qed.

Lemma copy_exec reads written t n err :
  exec (CopyWithTrace reads written) t (Some (n, err)) →
  0 ≤ written → written + Z.of_nat (length (data_in t)) < 2 ^ 63 →
  data_out t `prefix_of` data_in t ∧
  n = written + Z.of_nat (length (data_out t)) ∧
  (err = None → data_out t = data_in t ∧ reached_end t).
Proof.
  revert written t; induction reads as [|reads IH]; intros written t Ht Hw Hb; [by destruct Ht|].
  cbn [CopyWithTrace] in Ht. apply exec_ask in Ht as ([bs er] & t1 & Hlen & -> & Ht).
  cbn [fst snd log copy_effect copy_log] in *. rewrite data_in_cons in Hb |- *. rewrite data_out_cons.
  rewrite length_app in Hb.
  assert (Hafter : ∀ t2 w, w + Z.of_nat (length (data_in t2)) < 2 ^ 63 → 0 ≤ w →
    exec (match er with Some er => Ret (Some (w, copy_end er)) | None => CopyWithTrace reads w end)
      t2 (Some (n, err)) →
    data_out t2 `prefix_of` data_in t2 ∧ n = w + Z.of_nat (length (data_out t2)) ∧
    (err = None → data_out t2 = data_in t2 ∧ reached_end (DidRead bs er :: t2))).
  { intros t2 w Hb2 Hw2 H2. destruct er as [er|].
    - destruct H2 as [-> [= -> ->]]. cbn. split_and!; [done|lia|].
      unfold copy_end. intros Hn. case_bool_decide; [|done]. subst. split; [done|].
      exists bs. by left.
    - destruct (IH _ _ H2 Hw2 Hb2) as (H3 & H4 & H5). split_and!; [done|done|].
      intros Hn. destruct (H5 Hn) as [? [b ?]]. split; [done|]. exists b. by right. }
  destruct bs as [|c bs].
  { cbn [app]. apply Hafter; [cbn in Hb; lia|done|done]. }
  set (data := c :: bs) in *.
  apply exec_ask in Ht as ([nw ew] & t2 & _ & -> & Ht).
  cbn [fst snd log copy_effect copy_log] in *.
  rewrite data_in_cons, data_out_cons in *. cbn [app] in *.
  pose proof (check_write_range (Z.of_nat (length data)) nw ew ltac:(lia)) as Hr.
  destruct (check_write _ nw ew) as [nw' ew'] eqn:Ecw. cbn [fst] in *.
  rewrite i64_small in Ht by lia.
  assert (Htake : length (take (Z.to_nat nw') data) = Z.to_nat nw') by (rewrite length_take; lia).
  destruct ew' as [e|].
  { destruct Ht as [-> [= -> ->]]. cbn. rewrite !app_nil_r, Htake.
    split_and!; [by apply prefix_take|lia|done]. }
  destruct (Z.of_nat (length data) =? nw') eqn:En; cbn [negb] in Ht; bools.
  2: { destruct Ht as [-> [= -> ->]]. cbn. rewrite !app_nil_r, Htake.
       split_and!; [by apply prefix_take|lia|done]. }
  subst nw'. rewrite Nat2Z.id, take_ge by lia.
  destruct (Hafter t2 (written + Z.of_nat (length data))) as (H1 & H2 & H3); [lia|lia|done|].
  split_and!.
  - by apply prefix_app.
  - rewrite length_app. lia.
  - intros Hn. destruct (H3 Hn) as [-> [b Hb']]. split; [done|]. exists b. set_solver.
Qed.

(** C17. The copy loses, reorders and invents nothing: what the destination took is a
    prefix of what the source gave and the count is its length; when no error is
    reported, everything was delivered and the source had ended. *)
Theorem copy_exact reads t n err :
  exec (CopyWithTrace reads 0) t (Some (n, err)) →
  Z.of_nat (length (data_in t)) < 2 ^ 63 →
  data_out t `prefix_of` data_in t ∧ n = Z.of_nat (length (data_out t)) ∧
  (err = None → data_out t = data_in t ∧ reached_end t).
Proof. intros Ht Hb. by apply (copy_exec _ 0) in Ht. Qed.

(** *** The loop ends *)

(** A source that gives [chunks] and then ends, and a destination that takes all; the
    state is what is left and what was taken. *)
Definition stream (X : Type) (e : copyE X) : list bytes * bytes → X * (list bytes * bytes) :=
  match e in copyE X return list bytes * bytes → X * (list bytes * bytes) with
  | ReadSome _ => λ '(chunks, out),
      match chunks with [] => (([], Some EOF), ([], out)) | c :: cs => ((c, None), (cs, out)) end
  | WriteSome bs => λ '(chunks, out), ((Z.of_nat (length bs), None), (chunks, out ++ bs))
  end.

Lemma check_write_all nr : check_write (Z.of_nat nr) (Z.of_nat nr) None = (Z.of_nat nr, None).
Proof.
  unfold check_write. rewrite (proj2 (Z.ltb_ge (Z.of_nat nr) 0)), Z.ltb_irrefl by lia. done.
Qed.

Lemma copy_stream chunks reads written out :
  (length chunks < reads)%nat → 0 ≤ written →
  written + Z.of_nat (length (concat chunks)) < 2 ^ 63 →
  run stream (CopyWithTrace reads written) (chunks, out)
  = (Some (written + Z.of_nat (length (concat chunks)), None), ([], out ++ concat chunks)).
Proof.
  revert reads written out; induction chunks as [|c cs IH]; intros [|reads] written out Hr Hw Hb;
    cbn [length] in Hr; try lia; cbn [CopyWithTrace]; rewrite run_bind; cbn [run trigger stream fst snd].
  - cbn. by rewrite app_nil_r, Z.add_0_r.
  - cbn [concat] in *. rewrite length_app in Hb. destruct c as [|b c].
    + apply IH; [lia|done|cbn in Hb; lia].
    + rewrite run_bind. cbn [run trigger stream fst snd]. rewrite check_write_all.
      rewrite i64_small by lia. rewrite Z.eqb_refl. cbn [negb].
      rewrite IH by lia. rewrite length_app, <- app_assoc. do 3 f_equal. lia.
Qed.

(** C18. Every source that ends is copied to the end: with one read more than it has
    pieces, however it is cut up, the loop finishes without an error and the
    destination holds exactly the payload. *)
Theorem copy_complete chunks reads :
  (length chunks < reads)%nat → Z.of_nat (length (concat chunks)) < 2 ^ 63 →
  run stream (CopyWithTrace reads 0) (chunks, [])
  = (Some (Z.of_nat (length (concat chunks)), None), ([], concat chunks)).
Proof. intros Hr Hb. by rewrite copy_stream by lia. Qed.

(** *** The half-close *)

Lemma exec_copying {R} (p : prog copyE R) t r :
  exec (translate (@Copying) p) t r ↔ ∃ t0, t = map CopyIO t0 ∧ exec p t0 r.
Proof. by apply (exec_translate (H := copy_effect) (H0 := pipe_effect) (@Copying) CopyIO). Qed.

(** The half-close never cuts a payload short and a silent side never signals: the
    write side is closed only after something was sent and after all of the input,
    to its end, was taken by the connection, unless the connection's own write
    reported an end of stream. *)
Theorem half_close_complete reads halfCloser t r :
  exec (stdin_to_remote reads halfCloser) t tt → ClosedWrite r ∈ t →
  ∃ t0, t = map CopyIO t0 ++ [ClosedWrite r] ∧
    (Z.of_nat (length (data_in t0)) < 2 ^ 63 →
     data_out t0 ≠ [] ∧
     (data_out t0 = data_in t0 ∧ reached_end t0 ∨ ∃ n, exec (CopyWithTrace reads 0) t0 (Some (n, Some EOF)))).
Proof.
  unfold stdin_to_remote. intros (t1 & t2 & res & -> & (t0 & -> & Hc)%exec_copying & Ht)%exec_bind Hin.
  assert (Hno : ClosedWrite r ∉ map CopyIO t0) by set_solver.
  assert (H2 : ClosedWrite r ∈ t2) by set_solver. clear Hin Hno.
  destruct res as [[n err]|]; [|destruct Ht as [-> _]; set_solver].
  destruct (match err with Some _ => _ | None => _ end) eqn:Ee; [destruct Ht as [-> _]; set_solver|].
  destruct (n =? 0) eqn:En; [destruct Ht as [-> _]; set_solver|]. bools.
  destruct halfCloser; [|destruct Ht as [-> _]; set_solver].
  destruct Ht as (r' & t3 & _ & -> & [-> _]). apply list_elem_of_singleton in H2.
  change (log CloseWrite r') with (ClosedWrite r') in *. injection H2 as <-.
  exists t0. split; [done|]. intros Hb. pose proof Hc as Hx.
  apply (copy_exec _ 0) in Hx as (_ & Hn & Hd); [|lia|lia].
  split; [intros H0; rewrite H0 in Hn; cbn in Hn; lia|].
  destruct err as [e|]; [|left; by apply Hd].
  apply bool_decide_eq_false in Ee. apply dec_stable in Ee. subst e. right. eauto.
Qed.

(** ** The theorems at concrete inputs *)

Definition chunks_wit : list bytes := [str "pass"; []; str "phrase"].

Definition copy_trace_wit : list copy_entry :=
  [DidRead "pass" None; DidWrite "pass" 4 None; DidRead [] None;
   DidRead "phrase" None; DidWrite "phrase" 6 None; DidRead [] (Some EOF)].

Lemma copy_trace_wit_exec : exec (CopyWithTrace 4 0) copy_trace_wit (Some (10, None)).
Proof.
  exists (str "pass", None), (tail copy_trace_wit). split_and!; [done|done|].
  exists (4, None), (drop 2 copy_trace_wit). split_and!; [done|done|].
  exists ([], None), (drop 3 copy_trace_wit). split_and!; [done|done|].
  exists (str "phrase", None), (drop 4 copy_trace_wit). split_and!; [done|done|].
  exists (6, None), (drop 5 copy_trace_wit). split_and!; [done|done|].
  exists ([], Some EOF), []. by split_and!.
Qed.

Lemma copy_exact_witness :
  data_out copy_trace_wit `prefix_of` data_in copy_trace_wit ∧
  10 = Z.of_nat (length (data_out copy_trace_wit)) ∧
  (@None error = None → data_out copy_trace_wit = data_in copy_trace_wit ∧ reached_end copy_trace_wit).
Proof. apply (copy_exact 4); [exact copy_trace_wit_exec|]. by vm_compute. Defined.

Lemma copy_complete_witness :
  run stream (CopyWithTrace 4 0) (chunks_wit, []) = (Some (10, None), ([], str "passphrase")).
Proof. apply (copy_complete chunks_wit 4); vm_compute; [lia|reflexivity]. Defined.

Lemma half_close_complete_witness :
  ∃ t0, map CopyIO copy_trace_wit ++ [ClosedWrite None] = map CopyIO t0 ++ [ClosedWrite None] ∧
    (Z.of_nat (length (data_in t0)) < 2 ^ 63 →
     data_out t0 ≠ [] ∧
     (data_out t0 = data_in t0 ∧ reached_end t0 ∨ ∃ n, exec (CopyWithTrace 4 0) t0 (Some (n, Some EOF)))).
Proof.
  apply (half_close_complete 4 true).
  - unfold stdin_to_remote. apply exec_bind. exists (map CopyIO copy_trace_wit), [ClosedWrite None], (Some (10, None)).
    split_and!; [done|apply exec_copying; exists copy_trace_wit; split; [done|exact copy_trace_wit_exec]|].
    exists None, []. by split_and!.
  - apply elem_of_app. right. by left.
Defined.
