(* ===== verification/Logging.v ===== *)
(** * Logging (logging.go)

    The two handlers the program has for [log/slog], the choice between them and the level
    below which nothing is said; what [CopyWithTrace] logs about the bytes it moves.  The
    rendering of times and of attribute values is the library's: a record carries them as
    text.  The default logger, a global of [log/slog], is the handler that [setupLogging]
    returns. *)

From S2P Require Import Prelude GoStrings Utf8 Json Effects Copy.

(** ** Levels *)

Definition LevelTrace : Z := -8.
Definition LevelDebug : Z := -4.
Definition LevelInfo : Z := 0.
Definition LevelWarn : Z := 4.
Definition LevelError : Z := 8.

(** [slog.Level.String] *)
Definition level_offset (base : bytes) (val : Z) : bytes :=
  if val =? 0 then base else base ++ (if 0 <? val then str "+" else []) ++ Itoa val.
Definition level_String (l : Z) : bytes :=
  if l <? LevelInfo then level_offset "DEBUG" (l - LevelDebug)
  else if l <? LevelWarn then level_offset "INFO" (l - LevelInfo)
  else if l <? LevelError then level_offset "WARN" (l - LevelWarn)
  else level_offset "ERROR" (l - LevelError).

(** The name both handlers give a level. *)
Definition level_name (l : Z) : bytes := if l <=? LevelTrace then "TRACE" else level_String l.

(** ** Records *)

Record record := mkRecord {
  r_time : bytes;
  r_level : Z;
  r_message : bytes;
  r_attrs : list (bytes * bytes);
}.

(** ** The console: [TextHandler.Handle] *)

Definition text_attr (a : bytes * bytes) : bytes := str " " ++ fst a ++ str "=" ++ snd a.

Definition text_line (r : record) : bytes :=
  r_time r ++ str " [" ++ level_name (r_level r) ++ str "] " ++ r_message r ++
  concat (map text_attr (r_attrs r)) ++ [x0a].

(** ** The journal: [JournaldHandler.Handle] *)

Definition PriErr : Z := 3.
Definition PriWarning : Z := 4.
Definition PriInfo : Z := 6.
Definition PriDebug : Z := 7.

Definition priority (l : Z) : Z :=
  if l <=? LevelTrace then PriDebug
  else if l <? LevelInfo then PriDebug
  else if l <? LevelWarn then PriInfo
  else if l <? LevelError then PriWarning
  else PriErr.

(** One rune of a key. *)
Definition key_rune (r : Z) : byte :=
  if ((65 <=? r) && (r <=? 90)) || ((48 <=? r) && (r <=? 57)) || (r =? 95) then Zbyte r else x5f.

(** [strings.Map key_rune], with [skip] the bytes left of the rune being read. *)
Fixpoint map_key (skip : nat) (s : bytes) : bytes :=
  match s with
  | [] => []
  | _ :: s' =>
      match skip with
      | S k => map_key k s'
      | O => let '(r, n) := DecodeRune s in key_rune r :: map_key (pred n) s'
      end
  end.

Section Journal.
Context (unicode_upper : bytes → bytes).

Definition journal_key (key : bytes) : bytes := map_key 0 (ToUpper unicode_upper key).

Definition journal_vars (r : record) : gmap bytes bytes :=
  <[str "LOG_LEVEL" := level_name (r_level r)]>
    (fold_left (λ vars a, <[journal_key (fst a) := snd a]> vars) (r_attrs r) ∅).
End Journal.

(** ** The choice of a handler *)

Inductive handler_kind : Type := JSONHandler | Journald | Text.

Record log_handler := mkHandler { h_kind : handler_kind; h_level : Z }.

Definition Enabled (h : log_handler) (level : Z) : bool := h_level h <=? level.

(** The program's own handlers keep neither attributes nor groups. *)
Definition WithAttrs (h : log_handler) (attrs : list (bytes * bytes)) : log_handler := h.
Definition WithGroup (h : log_handler) (name : bytes) : log_handler := h.

Definition isTraceEnabled (h : log_handler) : bool := Enabled h LevelTrace.

(** [ReplaceAttr] of the JSON handler, on the level: what is printed for it. *)
Definition json_level (l : Z) : bytes := if l <=? LevelTrace then "TRACE" else level_String l.

Section Setup.
Context (unicode_lower unicode_upper : bytes → bytes).

Definition parse_level (levelStr : bytes) : Z :=
  let s := ToLower unicode_lower levelStr in
  if s =s "trace" then LevelTrace
  else if s =s "debug" then LevelDebug
  else if s =s "info" then LevelInfo
  else if s =s "warn" then LevelWarn
  else if s =s "error" then LevelError
  else LevelInfo.

(** [journal_up]: what [journal.Enabled] would say. *)
Definition setupLogging (getenv : bytes → bytes) (journal_up : bool) (levelStr formatStr : bytes) : log_handler :=
  let level := parse_level levelStr in
  let formatStr :=
    if formatStr =s "auto" then
      if negb (getenv "INVOCATION_ID" =s "") || negb (getenv "JOURNAL_STREAM" =s "")
      then str "journald" else str "text"
    else formatStr in
  if ToLower unicode_lower formatStr =s "json" then mkHandler JSONHandler level
  else if (ToLower unicode_lower formatStr =s "journald") && journal_up then mkHandler Journald level
  else mkHandler Text level.

(** ** What is said *)

Inductive output : Type :=
| ToStderr (line : bytes)
| ToJSON (level : bytes) (r : record)
| ToJournal (message : bytes) (pri : Z) (vars : gmap bytes bytes).

Definition Handle (h : log_handler) (r : record) : output :=
  match h_kind h with
  | JSONHandler => ToJSON (json_level (r_level r)) r
  | Journald => ToJournal (r_message r) (priority (r_level r)) (journal_vars unicode_upper r)
  | Text => ToStderr (text_line r)
  end.

(** [slog.Log] with the default logger. *)
Definition Log (h : log_handler) (r : record) : list output :=
  if Enabled h (r_level r) then [Handle h r] else [].

(** What one read of [CopyWithTrace] logs. *)
Definition log_read (h : log_handler) (now direction data : bytes) : list output :=
  match data with
  | [] => []
  | _ =>
      Log h (mkRecord now LevelTrace "IO read"
        [(str "direction", direction); (str "bytes", Itoa (Z.of_nat (length data)))]) ++
      if Enabled h LevelTrace
      then Log h (mkRecord now LevelTrace "IO data"
             [(str "direction", direction); (str "hex", hex_lower data)])
      else []
  end.

(** What a whole copy logs. *)
Definition copy_logs (h : log_handler) (now direction : bytes) (t : list copy_entry) : list output :=
  concat (map (λ e, match e with
    | DidRead data _ => log_read h now direction data
    | DidWrite _ _ _ => []
    end) t).
End Setup.

(** ** Payload stays out of the log *)

Section Quiet.
Context (unicode_lower unicode_upper : bytes → bytes).

Lemma parse_level_range levelStr :
  LevelTrace ≤ parse_level unicode_lower levelStr ∧
  (parse_level unicode_lower levelStr = LevelTrace → ToLower unicode_lower levelStr = "trace").
Proof. unfold parse_level. repeat case_match; bools; (split; [by vm_compute|done]). Qed.

Lemma setupLogging_level getenv up levelStr formatStr :
  h_level (setupLogging unicode_lower getenv up levelStr formatStr) = parse_level unicode_lower levelStr.
Proof. unfold setupLogging. repeat case_match; done. Qed.

(** The bytes that are moved, and even how many there were, are logged only when the log
    level was set to trace, whatever the format and the environment; and then each
    non-empty read is logged with its data. *)
Theorem payload_logged_only_at_trace getenv up levelStr formatStr now direction t :
  let h := setupLogging unicode_lower getenv up levelStr formatStr in
  (ToLower unicode_lower levelStr ≠ "trace" → copy_logs unicode_upper h now direction t = []) ∧
  (ToLower unicode_lower levelStr = "trace" → ∀ data err, DidRead data err ∈ t → data ≠ [] →
     ∃ r, r_attrs r = [(str "direction", direction); (str "hex", hex_lower data)] ∧
       Handle unicode_upper h r ∈ copy_logs unicode_upper h now direction t).
Proof.
  intros h. unfold copy_logs. pose proof (setupLogging_level getenv up levelStr formatStr) as Hl. fold h in Hl.
  destruct (parse_level_range levelStr) as [Hr Ht]. rewrite <- Hl in Hr, Ht. clearbody h. split.
  - intros Hn. assert (Hq : Enabled h LevelTrace = false).
    { apply Z.leb_gt. destruct (Z.eq_dec (h_level h) LevelTrace) as [E|]; [by apply Ht in E|lia]. }
    induction t as [|[data err|? ? ?] t IH]; cbn [map concat]; [done| |done]. rewrite IH, app_nil_r.
    destruct data; [done|]. unfold log_read, Log. cbn [r_level]. by rewrite Hq.
  - intros E data err Hin Hne. assert (Hq : Enabled h LevelTrace = true).
    { apply Z.leb_le. rewrite Hl. unfold parse_level. rewrite E, seq_eqb_refl. done. }
    exists (mkRecord now LevelTrace "IO data" [(str "direction", direction); (str "hex", hex_lower data)]).
    split; [done|]. rewrite list_elem_of_In, in_concat.
    exists (log_read unicode_upper h now direction data). split.
    { apply in_map_iff. exists (DidRead data err). split; [done|]. by apply list_elem_of_In. }
    unfold log_read, Log. destruct data as [|c data]; [done|]. cbn [r_level]. rewrite Hq.
    apply in_app_iff. right. by left.
Qed.
End Quiet.

(** ** The console has one line per record *)

Lemma Itoa_line z : 0 ≤ z → x0a ∉ Itoa z.
Proof. intros Hz Hin. by apply Itoa_plain in Hin. Qed.

Lemma level_offset_line base val : x0a ∉ base → 0 ≤ val → x0a ∉ level_offset base val.
Proof.
  intros Hb Hv. unfold level_offset. case_match; [done|]. rewrite !not_elem_of_app.
  split_and!; [done| |by apply Itoa_line]. case_match; [literal|set_solver].
Qed.

Lemma level_name_line l : x0a ∉ level_name l.
Proof.
  unfold level_name, level_String, LevelTrace, LevelInfo, LevelWarn, LevelError, LevelDebug.
  destruct (l <=? -8) eqn:E0; [literal|]. bools.
  destruct (l <? 0) eqn:E1; [|destruct (l <? 4) eqn:E2; [|destruct (l <? 8) eqn:E3]]; bools;
    try (apply level_offset_line; [literal|lia]).
  assert (Hl : l ∈ [-7; -6; -5; -4; -3; -2; -1]).
  { assert (l = -7 ∨ l = -6 ∨ l = -5 ∨ l = -4 ∨ l = -3 ∨ l = -2 ∨ l = -1) by lia. set_solver. }
  rewrite !elem_of_cons, elem_of_nil in Hl. apply (bool_decide_eq_true (x0a ∉ _)).
  by destruct Hl as [->|[->|[->|[->|[->|[->|[->|[]]]]]]]]; vm_compute.
Qed.

(** A record is one line on the console as long as nothing in it contains a line break: no
    level or attribute adds one, and none is missing. *)
Theorem text_one_line r :
  x0a ∉ r_time r → x0a ∉ r_message r →
  Forall (λ a, (x0a ∉ fst a) ∧ (x0a ∉ snd a)) (r_attrs r) →
  ∃ line, text_line r = line ++ [x0a] ∧ (x0a ∉ line).
Proof.
  intros Ht Hm Ha. unfold text_line.
  exists (r_time r ++ str " [" ++ level_name (r_level r) ++ str "] " ++ r_message r ++
          concat (map text_attr (r_attrs r))).
  split; [by rewrite <- !app_assoc|]. rewrite !not_elem_of_app.
  split_and!; [done|literal|apply level_name_line|literal|done|].
  rewrite list_elem_of_In, in_concat. intros (part & (a & <- & Hin)%in_map_iff & Hx).
  rewrite Forall_forall in Ha. apply list_elem_of_In in Hin. destruct (Ha a Hin) as [Hk Hv].
  unfold text_attr in Hx. rewrite !in_app_iff, <- !list_elem_of_In in Hx.
  destruct Hx as [Hx|[?|[Hx|?]]]; [by apply (literal_free x0a " ") in Hx|done|by apply (literal_free x0a "=") in Hx|done].
Qed.

(** ** What the journal gets *)

(** What [sd_journal_send] asks of a field name. *)
Definition key_char (c : byte) : bool :=
  ((65 <=? byteZ c) && (byteZ c <=? 90)) || ((48 <=? byteZ c) && (byteZ c <=? 57)) || (byteZ c =? 95).
Definition validVarName (name : bytes) : bool :=
  match name with
  | [] => false
  | c :: _ => negb (beq c x5f) && forallb key_char name
  end.

Lemma key_rune_char r : key_char (key_rune r) = true.
Proof.
  unfold key_rune. case_match eqn:E; [|done]. unfold key_char. rewrite byteZ_Zbyte, Z.mod_small; [done|].
  repeat rewrite ?orb_true_iff, ?andb_true_iff, ?Z.leb_le, ?Z.eqb_eq in E. lia.
Qed.

Lemma map_key_chars skip s : forallb key_char (map_key skip s) = true.
Proof.
  revert skip; induction s as [|c s IH]; intros [|k]; cbn [map_key]; try done.
  destruct (DecodeRune (c :: s)) as [r n]. cbn [forallb]. by rewrite key_rune_char, IH.
Qed.

(** The last attribute that gets the name [k]. *)
Definition last_attr (unicode_upper : bytes → bytes) (k : bytes) (attrs : list (bytes * bytes)) : option bytes :=
  snd <$> last (filter (λ a, journal_key unicode_upper (fst a) = k) attrs).

Lemma fold_vars (uu : bytes → bytes) (attrs : list (bytes * bytes)) (vars : gmap bytes bytes) (k : bytes) :
  fold_left (λ (vars : gmap bytes bytes) a, <[journal_key uu (fst a) := snd a]> vars) attrs vars !! k =
  match last_attr uu k attrs with Some v => Some v | None => vars !! k end.
Proof.
  unfold last_attr. induction attrs as [|a attrs IH] using rev_ind; [done|].
  rewrite fold_left_app, filter_app, last_app. cbn [fold_left].
  destruct (decide (journal_key uu (fst a) = k)) as [<-|Hk].
  - rewrite lookup_insert_eq, filter_cons_True by done. done.
  - rewrite lookup_insert_ne by done. rewrite filter_cons_False by done. exact IH.
Qed.

(** Every field of a journal entry is one of the record: the level under its own name, which
    no attribute can take, and under each other name the last attribute it stands for;
    all names are made of capitals, digits and underscores. *)
Theorem journal_fields uu r k :
  journal_vars uu r !! k =
    (if k =s "LOG_LEVEL" then Some (level_name (r_level r)) else last_attr uu k (r_attrs r)) ∧
  (is_Some (journal_vars uu r !! k) → forallb key_char k = true).
Proof.
  assert (H : journal_vars uu r !! k =
    (if k =s "LOG_LEVEL" then Some (level_name (r_level r)) else last_attr uu k (r_attrs r))).
  { unfold journal_vars. destruct (k =s "LOG_LEVEL") eqn:E; bools; subst; [apply lookup_insert_eq|].
    rewrite lookup_insert_ne by done. rewrite fold_vars. by destruct (last_attr uu k (r_attrs r)). }
  split; [done|]. rewrite H. destruct (k =s "LOG_LEVEL") eqn:E; bools; [by intros _; subst|].
  unfold last_attr. intros [v Hv]. apply fmap_Some in Hv as (a & Ha & _).
  apply last_Some_elem_of, list_elem_of_filter in Ha as [<- _]. apply map_key_chars.
Qed.

(** An ASCII key that starts with a letter or a digit has a name the journal accepts. *)
Lemma upper_byte_key c :
  (lower c || upper c || is_digit c) = true →
  byteZ (upper_byte c) < 0x80 ∧ key_rune (byteZ (upper_byte c)) ≠ x5f.
Proof. by destruct c; vm_compute. Qed.

Lemma journal_key_valid uu c key :
  is_ascii (c :: key) = true → (lower c || upper c || is_digit c) = true →
  validVarName (journal_key uu (c :: key)) = true.
Proof.
  intros Ha Hc. destruct (upper_byte_key c Hc) as [Hlow Hne%beq_false]. unfold journal_key, ToUpper.
  rewrite Ha. cbn [map map_key]. rewrite DecodeRune_ascii by done. cbn [validVarName pred forallb].
  by rewrite Hne, key_rune_char, map_key_chars.
Qed.

(** ** The theorems at concrete inputs *)

Lemma text_one_line_witness :
  ∃ line, text_line (mkRecord "now" LevelTrace "IO read" [(str "bytes", str "3")]) = line ++ [x0a] ∧ (x0a ∉ line).
Proof.
  apply (text_one_line (mkRecord "now" LevelTrace "IO read" [(str "bytes", str "3")])); cbn [r_time r_message r_attrs].
  - literal.
  - literal.
  - constructor; [split; literal|constructor].
Defined.
