(* ===== verification/Splice.v ===== *)
(** * Two directions at once

    A connection is spliced onto another one, or onto the standard streams, by two copies
    that run concurrently; CopyWithTrace itself is in Copy.v.  Here the interleavings are
    modelled: what the two sources send, how far each copy has come, and who ends the
    whole.  [Splice] is the scheme of the forwarding server ([handleForwardConn] of main.go),
    of the SOCKS client ([pipeConns] of socks.go) and of both ends of reverse forwarding
    (reverse_forward.go); [Stdio] is that of [pipeBiDirectional] of main.go. *)

From S2P Require Import Prelude.

(** ** One direction *)

Inductive progress : Type := Running | Finished | Failed.

(** What the source has sent and whether it has ended, what the destination has taken, and
    the state of the copy. *)
Record dir := mkDir { sent : bytes; ended : bool; taken : bytes; prog_ : progress }.

Definition fresh_dir : dir := mkDir [] false [] Running.

(** [dstep alive d d']: the source sends or ends; the copy moves bytes, while the connections are
    open ([alive]); it reaches the end; or it fails.  Forwarding.v shows that the copies of
    forwarding, run request by request, make these steps and no others. *)
Inductive dstep (alive : bool) : dir → dir → Prop :=
| d_send s t p bs : dstep alive (mkDir s false t p) (mkDir (s ++ bs) false t p)
| d_end s t p : dstep alive (mkDir s false t p) (mkDir s true t p)
| d_copy s e t bs rest :
    alive = true → s = t ++ bs ++ rest → dstep alive (mkDir s e t Running) (mkDir s e (t ++ bs) Running)
| d_finish s : dstep alive (mkDir s true s Running) (mkDir s true s Finished)
| d_fail s e t : dstep alive (mkDir s e t Running) (mkDir s e t Failed).

(** Nothing is lost, reordered or invented; a copy that finished has moved everything. *)
Definition dir_ok (d : dir) : Prop :=
  taken d `prefix_of` sent d ∧ (prog_ d = Finished → ended d = true ∧ taken d = sent d).

Lemma dir_ok_step alive d d' : dstep alive d d' → dir_ok d → dir_ok d'.
Proof.
  unfold dir_ok. intros Hst [Hp Hf]. destruct Hst; cbn in *.
  - split; [by apply prefix_app_r|]. intros Hx. by destruct (Hf Hx).
  - split; [done|]. intros Hx. by destruct (Hf Hx).
  - subst. split; [|done]. rewrite app_assoc. by apply prefix_app_r.
  - done.
  - done.
Qed.

(** What was taken stays taken, and a copy that is over stays as it is. *)
Lemma dstep_mono alive d d' :
  dstep alive d d' → taken d `prefix_of` taken d' ∧ (prog_ d ≠ Running → prog_ d' = prog_ d ∧ taken d' = taken d).
Proof. intros Hst. destruct Hst; cbn; split; try done. by apply prefix_app_r. Qed.

(** Over closed connections nothing moves. *)
Lemma dstep_closed d d' : dstep false d d' → taken d' = taken d.
Proof. by intros Hst; destruct Hst. Qed.

(** ** The first end closes both *)

Module Splice.

Record state := mkState { ab : dir; ba : dir; closed : bool }.

Definition init : state := mkState fresh_dir fresh_dir false.

Inductive step : state → state → Prop :=
| step_ab x x' y c : dstep (negb c) x x' → step (mkState x y c) (mkState x' y c)
| step_ba x y y' c : dstep (negb c) y y' → step (mkState x y c) (mkState x y' c)
| step_close x y : prog_ x ≠ Running ∨ prog_ y ≠ Running → step (mkState x y false) (mkState x y true).

(** Both directions are intact, and the connections are only closed once a copy is over. *)
Record inv (s : state) : Prop := mkInv {
  inv_ab : dir_ok (ab s);
  inv_ba : dir_ok (ba s);
  inv_closed : closed s = true → prog_ (ab s) ≠ Running ∨ prog_ (ba s) ≠ Running;
}.

Lemma splice_inv_step s s' : step s s' → inv s → inv s'.
Proof.
  intros Hst [H1 H2 H3]. destruct Hst as [x x' y c Hd|x y y' c Hd|x y Hor]; cbn in *; split; cbn;
    eauto using dir_ok_step; intros Hc; destruct (H3 Hc) as [Hr|Hr]; auto;
    destruct (dstep_mono _ _ _ Hd) as [_ Hp]; destruct (Hp Hr) as [-> _]; auto.
Qed.

Lemma splice_inv_reachable s : rtc step init s → inv s.
Proof.
  intros H. assert (Hinit : inv init) by (by split).
  revert Hinit. induction H; eauto using splice_inv_step.
Qed.

(** In every interleaving, each side has received a prefix of what the other sent; and when
    the connections are closed although no copy failed, one direction is complete. *)
Theorem splice_prefix s :
  rtc step init s →
  taken (ab s) `prefix_of` sent (ab s) ∧ taken (ba s) `prefix_of` sent (ba s) ∧
  (closed s = true → prog_ (ab s) ≠ Failed → prog_ (ba s) ≠ Failed →
     (ended (ab s) = true ∧ taken (ab s) = sent (ab s)) ∨
     (ended (ba s) = true ∧ taken (ba s) = sent (ba s))).
Proof.
  intros [[Ha Fa] [Hb Fb] Hc]%splice_inv_reachable. split_and!; [done..|].
  intros Hcl Na Nb. destruct (Hc Hcl) as [Hr|Hr]; [left; apply Fa|right; apply Fb].
  - by destruct (prog_ (ab s)).
  - by destruct (prog_ (ba s)).
Qed.

Lemma closed_frozen s s' : rtc step s s' → closed s = true → closed s' = true ∧ taken (ba s') = taken (ba s).
Proof.
  intros H. induction H as [|s1 s2 s3 Hst _ IH]; [done|]. intros Hc.
  destruct Hst as [x x' y c Hd|x y y' c Hd|]; cbn in *; [by apply IH|..|done].
  destruct (IH Hc) as [? E]. split; [done|]. subst c. cbn in Hd. rewrite E. by apply dstep_closed in Hd.
Qed.

(** C40. A peer that ends its own half after its request gets no answer: there is an interleaving
    in which the request arrives completely, the answer is sent, no copy fails, and nothing
    of the answer is ever delivered. *)
Theorem half_close_cuts_reply request reply :
  ∃ s, rtc step init s ∧ closed s = true ∧
    ended (ab s) = true ∧ taken (ab s) = request ∧ sent (ab s) = request ∧
    sent (ba s) = reply ∧ prog_ (ab s) ≠ Failed ∧ prog_ (ba s) ≠ Failed ∧
    ∀ s', rtc step s s' → taken (ba s') = [].
Proof.
  exists (mkState (mkDir request true request Finished) (mkDir reply false [] Running) true).
  split_and!; try done.
  - eapply rtc_l; [apply step_ab, (d_send _ [] [] Running request)|].
    eapply rtc_l; [apply step_ab, (d_copy _ _ _ [] request []); [done|by rewrite app_nil_r]|].
    eapply rtc_l; [apply step_ab, d_end|]. eapply rtc_l; [by apply step_ab, d_finish|].
    eapply rtc_l; [apply step_ba, (d_send _ [] [] Running reply)|].
    eapply rtc_l; [apply step_close; by left|]. done.
  - intros s' H. by apply closed_frozen in H as [_ ->].
Qed.
End Splice.

(** ** Standard streams: the peer's end decides *)

Module Pipe.

Inductive main : Type := Receiving | Flushing | Returned (timed_out : bool).

(** [out]: standard input to the connection; [inc]: the connection to the payload's output;
    [half]: our half was closed; [stdinDone]: the sending goroutine has returned. *)
Record state := mkState {
  out : dir;
  inc : dir;
  half : bool;
  stdinDone : bool;
  top : main;
  closed : bool;
}.

Definition init : state := mkState fresh_dir fresh_dir false false Receiving false.

Section Steps.
(** Whether the connection can close one half, and whether standard input is a terminal. *)
Context (halfCloser isTerminal : bool).

Inductive step : state → state → Prop :=
| sends x x' y h d m c : dstep (negb c) x x' → step (mkState x y h d m c) (mkState x' y h d m c)
| receives x y y' h d m c : dstep (negb c) y y' → step (mkState x y h d m c) (mkState x y' h d m c)
| stdin_returns x y h m c :
    prog_ x = Failed ∨ prog_ x = Finished ∧ (taken x = [] ∨ halfCloser = false) →
    step (mkState x y h false m c) (mkState x y h true m c)
| stdin_half_closes x y h m c :
    prog_ x = Finished → taken x ≠ [] → halfCloser = true →
    step (mkState x y h false m c) (mkState x y true true m c)
| peer_done x y h d c :
    prog_ y ≠ Running →
    step (mkState x y h d Receiving c) (mkState x y h d (if isTerminal then Returned false else Flushing) c)
| flushed x y h c : step (mkState x y h true Flushing c) (mkState x y h true (Returned false) c)
| grace_over x y h d c : step (mkState x y h d Flushing c) (mkState x y h d (Returned true) c)
| closes x y h d b : step (mkState x y h d (Returned b) false) (mkState x y h d (Returned b) true).

Definition over (m : main) : Prop := match m with Returned _ => True | _ => False end.

Record inv (s : state) : Prop := mkInv {
  inv_out : dir_ok (out s);
  inv_inc : dir_ok (inc s);
  inv_half : half s = true → prog_ (out s) = Finished ∧ taken (out s) ≠ [];
  inv_done : stdinDone s = true → prog_ (out s) ≠ Running ∧
    (prog_ (out s) = Finished → taken (out s) ≠ [] → halfCloser = true → half s = true);
  inv_peer : top s ≠ Receiving → prog_ (inc s) ≠ Running;
  inv_flushed : isTerminal = false → top s = Returned false → stdinDone s = true;
  inv_open : closed s = true → over (top s);
}.

Lemma pipe_inv_step s s' : step s s' → inv s → inv s'.
Proof.
  intros Hst [H1 H2 H3 H4 H5 H6 H7].
  destruct Hst as [x x' y h d m c Hd|x y y' h d m c Hd|x y h m c Hx|x y h m c Hx Ht Hh| | | |];
    cbn in *; split; cbn; eauto using dir_ok_step; try done.
  - destruct (dstep_mono _ _ _ Hd) as [_ Hp]. intros Hh. destruct (H3 Hh) as [E1 E2].
    destruct Hp as [-> ->]; [by rewrite E1|]. done.
  - destruct (dstep_mono _ _ _ Hd) as [_ Hp]. intros Hh. destruct (H4 Hh) as [E1 E2].
    destruct (Hp E1) as [-> ->]. done.
  - destruct (dstep_mono _ _ _ Hd) as [_ Hp]. intros Hm. destruct (Hp (H5 Hm)) as [-> _]. auto.
  - intros _. destruct Hx as [->|[-> Hx]]; [done|]. split; [done|]. intros _ Hne Hh.
    destruct Hx; [done|congruence].
  - intros _. split; [by rewrite Hx|done].
  - intros ->. done.
Qed.

Lemma pipe_inv_reachable s : rtc step init s → inv s.
Proof.
  intros H. assert (Hinit : inv init) by (by split).
  revert Hinit. induction H; eauto using pipe_inv_step.
Qed.

(** C15. The pipe ends with the peer, not with our own input.  In every interleaving: our half is
    closed only after a non-empty input was sent to its end, so a side with nothing to say
    stays open for what it is waiting for; when the pipe returns, the peer's stream is
    complete unless its copy failed; and if standard input is no terminal and the grace
    period did not run out, our input has been sent completely too, and its end signalled. *)
Theorem pipe_complete s :
  rtc step init s →
  (half s = true → ended (out s) = true ∧ taken (out s) = sent (out s) ∧ taken (out s) ≠ []) ∧
  (closed s = true → over (top s)) ∧
  (over (top s) → prog_ (inc s) ≠ Failed → ended (inc s) = true ∧ taken (inc s) = sent (inc s)) ∧
  (top s = Returned false → isTerminal = false → prog_ (out s) ≠ Failed →
     ended (out s) = true ∧ taken (out s) = sent (out s) ∧
     (halfCloser = true → taken (out s) ≠ [] → half s = true)).
Proof.
  intros [[H1 F1] [H2 F2] H3 H4 H5 H6 H7]%pipe_inv_reachable. split_and!.
  - intros Hh. destruct (H3 Hh) as [E Hne]. by destruct (F1 E).
  - done.
  - intros Ho Hf. apply F2. assert (top s ≠ Receiving) as Hr by (by intros E; rewrite E in Ho).
    specialize (H5 Hr). by destruct (prog_ (inc s)).
  - intros Ht Hi Hf. destruct (H4 (H6 Hi Ht)) as [E1 E2].
    assert (prog_ (out s) = Finished) as E by (by destruct (prog_ (out s))).
    destruct (F1 E) as [? ?]. auto.
Qed.
End Steps.
End Pipe.

(** ** The theorems at a concrete run *)

(** The peer sends "key" and ends; our input ends at once. *)
Definition unlocked : Pipe.state :=
  Pipe.mkState (mkDir [] true [] Finished) (mkDir "key" true "key" Finished) false true (Pipe.Returned false) true.

Lemma unlocked_reachable : rtc (Pipe.step true false) Pipe.init unlocked.
Proof.
  eapply rtc_l; [apply Pipe.sends, d_end|]. eapply rtc_l; [by apply Pipe.sends, d_finish|].
  eapply rtc_l; [apply Pipe.stdin_returns; right; split; [done|by left]|].
  eapply rtc_l; [apply Pipe.receives, (d_send _ [] [] Running "key")|].
  eapply rtc_l; [apply Pipe.receives, (d_copy _ _ _ [] "key" []); [done|done]|].
  eapply rtc_l; [apply Pipe.receives, d_end|]. eapply rtc_l; [by apply Pipe.receives, d_finish|].
  eapply rtc_l; [by apply Pipe.peer_done|]. eapply rtc_l; [apply Pipe.flushed|].
  eapply rtc_l; [apply Pipe.closes|]. done.
Qed.

Lemma pipe_complete_witness :
  (Pipe.half unlocked = true → ended (Pipe.out unlocked) = true ∧
     taken (Pipe.out unlocked) = sent (Pipe.out unlocked) ∧ taken (Pipe.out unlocked) ≠ []) ∧
  (Pipe.closed unlocked = true → Pipe.over (Pipe.top unlocked)) ∧
  (Pipe.over (Pipe.top unlocked) → prog_ (Pipe.inc unlocked) ≠ Failed →
     ended (Pipe.inc unlocked) = true ∧ taken (Pipe.inc unlocked) = sent (Pipe.inc unlocked)) ∧
  (Pipe.top unlocked = Pipe.Returned false → false = false → prog_ (Pipe.out unlocked) ≠ Failed →
     ended (Pipe.out unlocked) = true ∧ taken (Pipe.out unlocked) = sent (Pipe.out unlocked) ∧
     (true = true → taken (Pipe.out unlocked) ≠ [] → Pipe.half unlocked = true)).
Proof. exact (Pipe.pipe_complete true false unlocked unlocked_reachable). Defined.

Definition one_way : Splice.state :=
  Splice.mkState (mkDir "hi" true "hi" Finished) fresh_dir true.

Lemma splice_prefix_witness :
  taken (Splice.ab one_way) `prefix_of` sent (Splice.ab one_way) ∧
  taken (Splice.ba one_way) `prefix_of` sent (Splice.ba one_way) ∧
  (Splice.closed one_way = true → prog_ (Splice.ab one_way) ≠ Failed → prog_ (Splice.ba one_way) ≠ Failed →
     (ended (Splice.ab one_way) = true ∧ taken (Splice.ab one_way) = sent (Splice.ab one_way)) ∨
     (ended (Splice.ba one_way) = true ∧ taken (Splice.ba one_way) = sent (Splice.ba one_way))).
Proof.
  apply (Splice.splice_prefix one_way).
  eapply rtc_l; [apply Splice.step_ab, (d_send _ [] [] Running "hi")|].
  eapply rtc_l; [apply Splice.step_ab, (d_copy _ _ _ [] "hi" []); done|].
  eapply rtc_l; [apply Splice.step_ab, d_end|]. eapply rtc_l; [by apply Splice.step_ab, d_finish|].
  eapply rtc_l; [apply Splice.step_close; by left|]. done.
Defined.
