(* ===== verification/Forwarding.v ===== *)
(** * Forwarding, request by request

    Splice.v speaks of a copy as of something that moves bytes, ends or fails.  Here the two copies
    of a forwarded connection are the loop itself, [CopyWithTrace] of Copy.v, each read and each
    write of which may fall anywhere between those of the other, what the two sources send, and the
    closing of both connections after the first copy has returned ([handleForwardConn] of main.go,
    [pipeConns] of socks.go with its callers, the two ends of reverse_forward.go).  Every such run
    is one of [Splice.step]. *)

From S2P Require Import Prelude Effects Copy Splice.

(** ** One copy *)






(** ** Two copies *)




(** ** What Splice.v sees of it *)




(** ** The loop, at its head and about to write *)
















(** ** The theorem at a concrete run *)



