(* ===== verification/WebRTCConn.v ===== *)
(** * Data channels as connections (webrtc.go, WebRTCConn)

    The half-close of a data channel, which has none: what is queued is given time to drain
    before the channel is reset.  Times are in nanoseconds. *)

From S2P Require Import Prelude GoStrings Effects ProxyProtocol Net.

(** ** Configuration and presentation *)

(** [getWebRTCConfig]: the servers asked for our own addresses. *)
Definition getWebRTCConfig : list bytes :=
  [str "stun:stun.syncthing.net:3478"; str "stun:stun.l.google.com:19302"].

Record candidate := mkCandidate { Address : bytes; Port : Z; Typ : bytes }.

Definition candidate_text (c : candidate) : bytes :=
  Address c ++ str ":" ++ Itoa (Port c) ++ str " (" ++ Typ c ++ str ")".

(** [logICEConnection]: the attributes of what is logged, if anything is.  [transport]: the
    peer connection has an ICE transport, and what its [GetSelectedCandidatePair] says. *)
Definition logICEConnection (transport : option (result (option (candidate * candidate)))) :
    option (list (bytes * bytes)) :=
  match transport with
  | Some (Ok (Some (local, remote))) =>
      Some [(str "local", candidate_text local); (str "remote", candidate_text remote)]
  | _ => None
  end.

(** ** The methods of a [net.Conn] *)

(** Both addresses are those of an empty [net.TCPAddr]; deadlines are accepted and ignored. *)
Definition LocalAddr : addr := TCPAddr [] 0.
Definition SetDeadline (t : Z) : option error := None.
Definition SetReadDeadline (t : Z) : option error := None.
Definition SetWriteDeadline (t : Z) : option error := None.

(** ** Half-close *)

Definition webrtcFlushTimeout : Z := 5 * 1000000000.
Definition flush_pause : Z := 10 * 1000000.

Inductive dcE : Type → Type :=
| BufferedAmount : dcE Z
| Now : dcE Z
| Sleep (ns : Z) : dcE unit
| CloseChannel : dcE (option error)
| ClosePeerConnection : dcE unit.

(** The amount is a [uint64]. *)
#[global] Instance dc_effect : Effect dcE :=
  recording dcE (λ X e, match e in dcE X return X → Prop with
    | BufferedAmount => λ n, 0 ≤ n
    | _ => λ _, True
    end).

(** The loop; [None] when [looks] rounds were not enough. *)
Fixpoint drain (looks : nat) (deadline : Z) : prog dcE (option unit) :=
  match looks with
  | O => Ret None
  | S looks =>
      n <- trigger BufferedAmount ;;
      if 0 <? n then
        now <- trigger Now ;;
        if now <? deadline then trigger (Sleep flush_pause) ;;; drain looks deadline
        else Ret (Some tt)
      else Ret (Some tt)
  end.

(** [amounter]: the channel can say how much it has queued. *)
Definition CloseWrite (looks : nat) (amounter : bool) : prog dcE (option (option error)) :=
  d <- (if amounter then now <- trigger Now ;; drain looks (now + webrtcFlushTimeout) else Ret (Some tt)) ;;
  match d with
  | None => Ret None
  | Some tt => r <- trigger CloseChannel ;; Ret (Some r)
  end.

Definition Close (has_pc : bool) : prog dcE (option error) :=
  err <- trigger CloseChannel ;;
  (if has_pc then trigger ClosePeerConnection else Ret tt) ;;;
  Ret err.

(** ** Nothing queued is thrown away early *)

Definition drained_or_late (start : Z) (t : list (event dcE)) : Prop :=
  last t = Some (Did BufferedAmount 0) ∨
  ∃ now, last t = Some (Did Now now) ∧ start + webrtcFlushTimeout ≤ now.

Lemma drain_outcome looks start t :
  exec (drain looks (start + webrtcFlushTimeout)) t (Some tt) → drained_or_late start t.
Proof.
  revert t; induction looks as [|looks IH]; intros t H; [by destruct H|]. cbn [drain] in H.
  apply exec_ask in H as (n & t1 & Hn & -> & H). cbn in Hn. destruct (0 <? n) eqn:En; bools.
  - apply exec_ask in H as (now & t2 & _ & -> & H). destruct (now <? _) eqn:Ed; bools.
    + apply exec_ask in H as ([] & t3 & _ & -> & H%IH). unfold drained_or_late in *.
      destruct t3 as [|e t3]; [by destruct H as [?|(? & ? & _)]|]. cbn [last] in H |- *. exact H.
    + destruct H as [-> _]. right. by exists now.
  - destruct H as [-> _]. left. by replace n with 0 by lia.
Qed.

Lemma drain_asks looks deadline :
  asks (λ X e, match e with CloseChannel | ClosePeerConnection => False | _ => True end) (drain looks deadline).
Proof. induction looks as [|looks IH]; cbn [drain]; walk. Qed.

(** The channel is reset only after it had nothing queued any more, or after the five seconds
    had passed; and the peer connection, which would discard what the peer has not read yet,
    is left alone. *)
Theorem flush_before_reset looks t r :
  exec (CloseWrite looks true) t (Some r) →
  ∃ start mid, t = Did Now start :: mid ++ [Did CloseChannel r] ∧ drained_or_late start mid ∧
    (Did ClosePeerConnection tt ∉ t) ∧ (Did CloseChannel r ∉ mid).
Proof.
  intros (t1 & t2 & d & -> & Hd & H)%exec_bind.
  apply exec_ask in Hd as (start & mid & _ & -> & Hd).
  assert (Hfree : Forall (λ ev : event dcE, match ev with
    | Did CloseChannel _ | Did ClosePeerConnection _ => False | _ => True end) mid).
  { eapply Forall_impl; [eapply (asks_exec _ (λ X e, match e with
      | CloseChannel | ClosePeerConnection => False | _ => True end)); [|exact Hd]|].
    - apply drain_asks.
    - by intros [X e x]; destruct e. }
  destruct d as [[]|]; [|by destruct H].
  apply exec_ask in H as (r' & t3 & _ & -> & [-> [= <-]]).
  exists start, mid. split_and!; [done|by eapply drain_outcome| |].
  - rewrite Forall_forall in Hfree. intros Hin. rewrite <- app_comm_cons in Hin.
    apply elem_of_cons in Hin as [E|[Hin|Hin]%elem_of_app].
    + by apply (f_equal (λ ev : event dcE, match ev with Did Now _ => true | _ => false end)) in E.
    + by apply Hfree in Hin.
    + apply list_elem_of_singleton in Hin.
      by apply (f_equal (λ ev : event dcE, match ev with Did CloseChannel _ => true | _ => false end)) in Hin.
  - rewrite Forall_forall in Hfree. by intros Hin%Hfree.
Qed.

(** ** The flush is bounded *)

(** What the time package promises, whatever the channel does and however long any of it takes:
    the clock does not go back, it is read during the call, and a pause takes at least the time
    asked for. *)
Record keeps_time {S} (h : handler dcE S) (time : S → Z) : Prop := mkKeeps {
  kt_forward X (e : dcE X) s : time s ≤ time (snd (h X e s));
  kt_now s : time s ≤ fst (h _ Now s) ≤ time (snd (h _ Now s));
  kt_sleep ns s : time s + ns ≤ time (snd (h _ (Sleep ns) s));
  kt_amount s : 0 ≤ fst (h _ BufferedAmount s);
}.

Definition asked {X} (e : dcE X) : Z := match e with Sleep ns => Z.max 0 ns | _ => 0 end.

(** Every call takes at most [d] longer than it was asked to. *)
Definition prompt {S} (h : handler dcE S) (time : S → Z) (d : Z) : Prop :=
  ∀ X (e : dcE X) s, time (snd (h X e s)) ≤ time s + asked e + d.

Definition clock_read (ev : event dcE) : Z :=
  match ev with Did e x => match e in dcE X return X → Z with Now => λ now, now | _ => λ _, 0 end x end.

Section Bounded.
Context {S : Type} (h : handler dcE S) (time : S → Z).
Hypothesis Hk : keeps_time h time.

(** As many rounds as the time that is left has pauses, and one, are enough. *)
Lemma drain_returns k deadline s :
  deadline ≤ time s + Z.of_nat k * flush_pause →
  ∃ s', run h (drain (Datatypes.S k) deadline) s = (Some tt, s').
Proof using Hk.
  revert s; induction k as [|k IH]; intros s Hd; [|remember (Datatypes.S k) as k1 eqn:Ek];
    cbn [drain]; rewrite run_bind; cbn [run trigger];
    pose proof (kt_forward _ _ Hk _ BufferedAmount s) as H1; destruct (h _ BufferedAmount s) as [n s1]; cbn [fst snd] in *;
    (destruct (0 <? n); [|by eexists]); rewrite run_bind; cbn [run trigger];
    pose proof (kt_now _ _ Hk s1) as H2; destruct (h _ Now s1) as [now s2]; cbn [fst snd] in *.
  - rewrite (proj2 (Z.ltb_ge _ _)) by lia. by eexists.
  - destruct (now <? deadline); [|by eexists]. subst k1. rewrite run_bind. cbn [run trigger].
    pose proof (kt_sleep _ _ Hk flush_pause s2) as H3. destruct (h _ (Sleep flush_pause) s2) as [[] s3]; cbn [fst snd] in *.
    apply IH. lia.
Qed.

(** It is over at most a pause and a few calls after the deadline. *)
Lemma drain_late d k deadline s s' :
  0 ≤ d → prompt h time d → run h (drain k deadline) s = (Some tt, s') →
  time s' ≤ Z.max (time s + 2 * d) (deadline + flush_pause + 4 * d).
Proof using Hk.
  intros Hd Hp. revert s. induction k as [|k IH]; intros s; [done|].
  cbn [drain]. rewrite run_bind. cbn [run trigger].
  pose proof (Hp _ BufferedAmount s) as H1. destruct (h _ BufferedAmount s) as [n s1]. cbn [fst snd asked] in *.
  destruct (0 <? n); [|intros [= <-]; lia]. rewrite run_bind. cbn [run trigger].
  pose proof (Hp _ Now s1) as H2. pose proof (kt_now _ _ Hk s1) as H2'. destruct (h _ Now s1) as [now s2]. cbn [fst snd asked] in *.
  destruct (now <? deadline) eqn:E; bools; [|intros [= <-]; lia]. rewrite run_bind. cbn [run trigger].
  pose proof (Hp _ (Sleep flush_pause) s2) as H3. destruct (h _ (Sleep flush_pause) s2) as [[] s3]. cbn [fst snd asked] in *.
  intros H%IH. unfold flush_pause in *. lia.
Qed.

Lemma keeps_ok X (e : dcE X) s : resp_ok e (fst (h X e s)).
Proof using Hk. destruct e; try done. apply Hk. Qed.

(** C32. The half-close of a data channel returns, whatever the queue does and however long the
    calls and the pauses take: 501 looks are always enough.  It has reset the channel once, at its
    end, after a look that found nothing queued or a reading of the clock at least five seconds
    after the first; the peer connection it leaves alone.  And if no call takes more than [d]
    longer than asked, it returns within five seconds, one pause and five times [d]. *)
Theorem flush_bounded s :
  ∃ r s' start mid, run h (CloseWrite 501 true) s = (Some r, s') ∧
    trace_of h (CloseWrite 501 true) s = Did Now start :: mid ++ [Did CloseChannel r] ∧
    drained_or_late start mid ∧ (Did CloseChannel r ∉ mid) ∧
    (Did ClosePeerConnection tt ∉ trace_of h (CloseWrite 501 true) s) ∧ time s ≤ start ∧
    ∀ d, 0 ≤ d → prompt h time d → time s' ≤ start + webrtcFlushTimeout + flush_pause + 5 * d.
Proof using Hk.
  assert (Hrun : ∃ r s', run h (CloseWrite 501 true) s = (Some r, s') ∧
    (∀ d, 0 ≤ d → prompt h time d →
       time s' ≤ fst (h _ Now s) + webrtcFlushTimeout + flush_pause + 5 * d)).
  { unfold CloseWrite. rewrite run_bind, run_bind. cbn [run trigger].
    pose proof (kt_now _ _ Hk s) as H1. destruct (h _ Now s) as [start s1] eqn:E1. cbn [fst snd] in *.
    destruct (drain_returns 500 (start + webrtcFlushTimeout) s1) as (s2 & H2).
    { change (Z.of_nat 500 * flush_pause) with webrtcFlushTimeout. lia. }
    rewrite H2. cbn [run trigger pbind]. destruct (h _ CloseChannel s2) as [r s3] eqn:E3.
    exists r, s3. split; [done|]. intros d Hd Hp. pose proof (drain_late d _ _ _ _ Hd Hp H2) as H4.
    pose proof (Hp _ Now s) as H5. rewrite E1 in H5. pose proof (Hp _ CloseChannel s2) as H6. rewrite E3 in H6.
    cbn [fst snd asked] in *. unfold webrtcFlushTimeout, flush_pause in *. lia. }
  destruct Hrun as (r & s' & Hr & Hl). pose proof (run_exec h (CloseWrite 501 true) s keeps_ok) as He.
  rewrite Hr in He. cbn [fst] in He. destruct (flush_before_reset _ _ _ He) as (start & mid & Ht & Hdl & Hpc & Hc).
  assert (start = fst (h _ Now s)) as ->.
  { symmetry. apply (f_equal (λ t, match t with ev :: _ => clock_read ev | [] => 0 end)) in Ht. unfold CloseWrite in Ht.
    cbn [trace_of pbind trigger log dc_effect recording] in Ht. by destruct (h _ Now s). }
  eexists r, s', _, mid. split_and!; try done. apply Hk.
Qed.
End Bounded.

(** ** The theorem at a concrete run *)

Definition flush_wit : list (event dcE) :=
  [Did Now 0; Did BufferedAmount 7; Did Now 1; Did (Sleep flush_pause) tt; Did BufferedAmount 0;
   Did CloseChannel None].

Lemma flush_before_reset_witness :
  ∃ start mid, flush_wit = Did Now start :: mid ++ [Did CloseChannel None] ∧ drained_or_late start mid ∧
    (Did ClosePeerConnection tt ∉ flush_wit) ∧ (Did CloseChannel None ∉ mid).
Proof.
  apply (flush_before_reset 2 flush_wit None).
  exists 0, (tail flush_wit). split_and!; [done|done|].
  exists 7, (drop 2 flush_wit). split_and!; [by cbn|done|].
  exists 1, (drop 3 flush_wit). split_and!; [done|done|].
  exists tt, (drop 4 flush_wit). split_and!; [done|done|].
  exists 0, (drop 5 flush_wit). split_and!; [by cbn|done|].
  exists None, []. by split_and!.
Defined.

(** A clock that the pauses drive, each a millisecond too long, and a queue with [queued now]
    bytes in it. *)
Definition clocked (queued : Z → Z) : handler dcE Z := λ X e now,
  match e in dcE X return X * Z with
  | BufferedAmount => (Z.max 0 (queued now), now)
  | Now => (now, now)
  | Sleep ns => (tt, now + Z.max 0 ns + 1000000)
  | CloseChannel => (None, now)
  | ClosePeerConnection => (tt, now)
  end.

Lemma clocked_keeps queued : keeps_time (clocked queued) (λ now, now).
Proof. split; intros; try (destruct e); cbn; lia. Qed.

(** A queue that never drains. *)
Lemma flush_bounded_witness :
  ∃ r now start mid, run (clocked (λ _, 7)) (CloseWrite 501 true) 0 = (Some r, now) ∧
    drained_or_late start mid ∧ 0 ≤ start ∧ now ≤ start + 5015000000.
Proof.
  destruct (flush_bounded (clocked (λ _, 7)) (λ now, now) (clocked_keeps _) 0)
    as (r & now & start & mid & Hr & _ & Hm & _ & _ & H0 & Hd).
  exists r, now, start, mid. split_and!; [exact Hr|exact Hm|exact H0|].
  assert (Hp : prompt (clocked (λ _, 7)) (λ now, now) 1000000) by (intros X e s; destruct e; cbn; lia).
  specialize (Hd 1000000 ltac:(lia) Hp). unfold webrtcFlushTimeout, flush_pause in Hd. lia.
Defined.
