(* ===== verification/RelayRace.v ===== *)
(** * Racing the relays (dialFastestRelay and drainLateSessions of main.go)

    One goroutine per relay posts its outcome on a buffered channel; the caller takes
    outcomes until one is a session; what arrives after that is drained and closed.
    The goroutines are a step relation: any racer, the caller and the drain may move
    next. *)

From S2P Require Import Prelude.

(** ** State *)

(** A racer's outcome; a racer is named by its position among those started, and so is
    the session it joins. *)
Inductive outcome : Type :=
| Won (k : nat)
| Lost (k : nat) (e : error).

Definition racer (r : outcome) : nat := match r with Won k | Lost k _ => k end.

(** What the call returns. *)
Inductive returned : Type :=
| Session (k : nat)
| NoSession (e : error)
| Interrupted (e : error).

(** The caller in its loop, with the last error seen, or after its return, with how many
    outcomes are still to be drained. *)
Inductive caller : Type :=
| Waiting (lastErr : option error)
| Returned (r : returned) (drain : nat).

Record race := mkRace {
  running : gset nat;       (* racers that have not posted *)
  results : list outcome;   (* the channel *)
  received : nat;           (* outcomes taken from it, by the caller or the drain *)
  main : caller;
  open : gset nat;          (* sessions joined and not closed *)
  joined : gset nat;        (* sessions ever joined *)
}.

(** The relays that parse are started; with none the call fails at once. *)
Definition started (parses : bytes → bool) (relayAddresses : list bytes) : nat :=
  length (filter (λ a, parses a = true) relayAddresses).

Definition start (n : nat) : race := mkRace (set_seq 0 n) [] 0 (Waiting None) ∅ ∅.

Definition no_usable : error := Errorf "no usable relay addresses to try".
Definition no_session : error := Errorf "no relay offered a session".

Definition dialFastestRelay (parses : bytes → bool) (relayAddresses : list bytes) : error + race :=
  match started parses relayAddresses with
  | O => inl no_usable
  | n => inr (start n)
  end.

(** ** Steps *)

Definition post (r : outcome) (s : race) : race :=
  mkRace (running s ∖ {[racer r]}) (results s ++ [r]) (received s) (main s)
    (match r with Won k => {[k]} ∪ open s | _ => open s end)
    (match r with Won k => {[k]} ∪ joined s | _ => joined s end).

Definition take_result (rest : list outcome) (m : caller) (opn : gset nat) (s : race) : race :=
  mkRace (running s) rest (S (received s)) m opn (joined s).

Definition set_main (m : caller) (s : race) : race :=
  mkRace (running s) (results s) (received s) m (open s) (joined s).

Inductive step (n : nat) : race → race → Prop :=
| racer_posts r s :
    racer r ∈ running s → step n s (post r s)
| caller_loss k e q last s :
    main s = Waiting last → (received s < n)%nat → results s = Lost k e :: q →
    step n s (take_result q (Waiting (Some e)) (open s) s)
| caller_win k q last s :
    main s = Waiting last → (received s < n)%nat → results s = Won k :: q →
    step n s (take_result q (Returned (Session k) (n - received s - 1)) (open s) s)
| caller_done e s :
    main s = Waiting e → received s = n →
    step n s (set_main (Returned (NoSession (default no_session e)) 0) s)
| caller_interrupted e last s :
    main s = Waiting last → (received s < n)%nat →
    step n s (set_main (Returned (Interrupted e) 0) s)
| drain_one r q ret d s :
    main s = Returned ret (S d) → results s = r :: q →
    step n s (take_result q (Returned ret d)
                (match r with Won k => open s ∖ {[k]} | _ => open s end) s).

Definition reachable (n : nat) (s : race) : Prop := rtc (step n) (start n) s.

(** ** Invariant *)

(** The sessions waiting in the channel. *)
Definition sessions (q : list outcome) : gset nat :=
  list_to_set (omap (λ r, match r with Won k => Some k | Lost _ _ => None end) q).

Record inv (n : nat) (s : race) : Prop := mkInv {
  inv_count : (size (running s) + length (results s) + received s = n)%nat;
  inv_fresh : NoDup (map racer (results s));
  inv_apart : ∀ r, r ∈ results s → racer r ∉ running s;
  inv_main : match main s with
             | Waiting _ => open s = sessions (results s) ∧ joined s = open s
             | Returned (Session k) d =>
                 d = (n - received s)%nat ∧ open s = {[k]} ∪ sessions (results s) ∧
                 (k ∉ running s) ∧ (∀ r, r ∈ results s → racer r ≠ k)
             | Returned (NoSession _) d => d = 0%nat ∧ received s = n ∧ joined s = ∅ ∧ open s = ∅
             | Returned (Interrupted _) d => d = 0%nat
             end;
}.

Lemma sessions_app q1 q2 : sessions (q1 ++ q2) = sessions q1 ∪ sessions q2.
Proof. unfold sessions. by rewrite omap_app, list_to_set_app_L. Qed.

Lemma sessions_cons r q :
  sessions (r :: q) = match r with Won k => {[k]} | Lost _ _ => ∅ end ∪ sessions q.
Proof. destruct r; unfold sessions; cbn; set_solver. Qed.

Lemma elem_of_sessions k q : k ∈ sessions q → Won k ∈ q.
Proof.
  unfold sessions. rewrite elem_of_list_to_set, list_elem_of_omap.
  intros ([k'|k' e] & Hin & H); [by injection H as ->|done].
Qed.

Lemma inv_start n : inv n (start n).
Proof.
  split; cbn; [rewrite size_set_seq; lia|by constructor|set_solver|].
  split; [|done]. by unfold sessions.
Qed.

Lemma inv_post n r s : inv n s → racer r ∈ running s → inv n (post r s).
Proof.
  intros [Hc Hf Ha Hm] Hr. split; cbn [running results received main open joined post].
  - rewrite length_app, size_difference, size_singleton by set_solver. cbn.
    assert (size (running s) ≠ 0%nat) by (rewrite size_non_empty_iff; set_solver). lia.
  - rewrite map_app. apply NoDup_app. split_and!; [done| |by repeat constructor; set_solver].
    intros x (r' & -> & Hin)%list_elem_of_fmap Hx%list_elem_of_singleton.
    apply (Ha r' Hin). by rewrite Hx.
  - intros r' [Hin| ->%list_elem_of_singleton]%elem_of_app; [|set_solver].
    apply Ha in Hin. set_solver.
  - destruct (main s) as [e|[k|e|e] d].
    + destruct Hm as [-> ->]. rewrite sessions_app, sessions_cons. destruct r; cbn; set_solver.
    + destruct Hm as (-> & -> & Hk & Hne). rewrite sessions_app, sessions_cons.
      split_and!; [done|destruct r; cbn; set_solver|set_solver|].
      intros r' [Hin| ->%list_elem_of_singleton]%elem_of_app; [by apply Hne|]. set_solver.
    + destruct Hm as (-> & Hn & -> & ->).
      assert (size (running s) = 0%nat) as Hz by lia. apply size_empty_inv in Hz. set_solver.
    + done.
Qed.

Lemma NoDup_racer_tail r q : NoDup (map racer (r :: q)) → ∀ r', r' ∈ q → racer r' ≠ racer r.
Proof.
  cbn. intros [Hn _]%NoDup_cons r' Hin He. apply Hn. rewrite <- He. by apply list_elem_of_fmap_2.
Qed.

Lemma race_inv_step n s s' : inv n s → step n s s' → inv n s'.
Proof.
  intros Hi Hst. destruct Hst as [r s Hr|k e q last s Hm Hlt Hq|k q last s Hm Hlt Hq|e s Hm Hn
    |e last s Hm Hlt|r q ret d s Hm Hq].
  { by apply inv_post. }
  all: destruct Hi as [Hc Hf Ha Hmain]; rewrite Hm in Hmain.
  - rewrite Hq in *. apply NoDup_cons in Hf as [_ Hf].
    split; cbn [running results received main open joined take_result]; [cbn in Hc; lia|done|set_solver|].
    rewrite sessions_cons, union_empty_l_L in Hmain. done.
  - rewrite Hq in *. pose proof (NoDup_racer_tail _ _ Hf) as Hne. apply NoDup_cons in Hf as [_ Hf].
    split; cbn [running results received main open joined take_result]; [cbn in Hc; lia|done|set_solver|].
    rewrite sessions_cons in Hmain. destruct Hmain as [-> _].
    split_and!; [lia|done| |done]. apply (Ha (Won k)). by left.
  - destruct Hmain as [Ho Hj].
    assert (Hz : results s = []) by (apply length_zero_iff_nil; lia).
    split; cbn [running results received main open joined set_main]; [done..|].
    by rewrite Hj, Ho, Hz.
  - by split.
  - rewrite Hq in *. pose proof (NoDup_racer_tail _ _ Hf) as Hne. apply NoDup_cons in Hf as [_ Hf].
    split; cbn [running results received main open joined take_result]; [cbn in Hc; lia|done|set_solver|].
    destruct ret as [k|e|e]; [|by destruct Hmain as [? _]|done].
    destruct Hmain as (Hd & -> & Hk & Hkq). rewrite sessions_cons.
    split_and!; [lia| |done|set_solver].
    destruct r as [j|j e]; cbn [racer] in *; [|set_solver].
    assert (j ≠ k) by (apply (Hkq (Won j)); by left).
    assert (j ∉ sessions q) by (intros Hj%elem_of_sessions; by apply (Hne _ Hj)). set_solver.
Qed.

Lemma race_inv_reachable n s : reachable n s → inv n s.
Proof.
  unfold reachable. intros H.
  assert (G : ∀ x y, rtc (step n) x y → inv n x → inv n y).
  { induction 1; [done|]. intros Hx. eauto using race_inv_step. }
  eapply G; [exact H|apply inv_start].
Qed.

(** ** Every race settles *)

Definition energy (s : race) : nat :=
  (2 * size (running s) + length (results s) + match main s with Waiting _ => 1 | _ => 0 end)%nat.

Lemma step_energy n s s' : step n s s' → (energy s' < energy s)%nat.
Proof.
  intros Hst. unfold energy. destruct Hst as [r s Hr|k e q last s Hm Hlt Hq|k q last s Hm Hlt Hq|e s Hm Hn
    |e last s Hm Hlt|r q ret d s Hm Hq]; cbn [running results main post take_result set_main].
  - rewrite length_app, size_difference, size_singleton by set_solver. cbn [length].
    assert (size (running s) ≠ 0%nat) by (rewrite size_non_empty_iff; set_solver). lia.
  - rewrite Hm, Hq. cbn. lia.
  - rewrite Hm, Hq. cbn. lia.
  - rewrite Hm. lia.
  - rewrite Hm. lia.
  - rewrite Hm, Hq. cbn. lia.
Qed.

Lemma nsteps_energy n m s s' : nsteps (step n) m s s' → (m + energy s' ≤ energy s)%nat.
Proof. induction 1 as [|m s1 s2 s3 Hst _ IH]; [done|]. apply step_energy in Hst. lia. Qed.

Definition settled (n : nat) (s : race) : Prop := ∀ s', ¬ step n s s'.

Lemma settled_shape n s :
  inv n s → settled n s →
  running s = ∅ ∧ ∃ r, main s = Returned r 0 ∧ (∀ k, r = Session k → results s = []).
Proof.
  intros Hi Hno. assert (Hrun : running s = ∅).
  { destruct (set_choose_or_empty (running s)) as [[k Hk]|He]; [|by apply leibniz_equiv].
    destruct (Hno _ (racer_posts n (Won k) s Hk)). }
  split; [done|]. destruct Hi as [Hc Hf Ha Hm]. rewrite Hrun, size_empty in Hc.
  destruct (main s) as [last|r d] eqn:Em.
  - destruct (decide (received s = n)) as [E|E]; [by destruct (Hno _ (caller_done n last s Em E))|].
    assert (Hlt : (received s < n)%nat) by lia.
    by destruct (Hno _ (caller_interrupted n EOF last s Em Hlt)).
  - destruct d as [|d].
    + exists r. split; [done|]. intros k ->. apply length_zero_iff_nil. lia.
    + exfalso. destruct r as [k|e|e]; [|by destruct Hm|done]. destruct Hm as (Hd & _).
      destruct (results s) as [|r q] eqn:Eq; [cbn in Hc; lia|].
      exact (Hno _ (drain_one n r q (Session k) d s Em Eq)).
Qed.

(** C19. Every race settles, whatever the schedule: after at most two steps per relay
    and one more nothing moves, and no racer ever blocks on the channel.  If a session
    was returned, it is then the only one open, every late one having been closed; if
    the race failed, no relay offered a session at all. *)
Theorem race_settles n m s :
  nsteps (step n) m (start n) s →
  (m ≤ 2 * n + 1)%nat ∧ (length (results s) ≤ n)%nat ∧
  (settled n s →
   ∃ r, main s = Returned r 0 ∧
     (∀ k, r = Session k → open s = {[k]}) ∧
     (∀ e, r = NoSession e → joined s = ∅ ∧ open s = ∅)).
Proof.
  intros Hs. assert (Hi : inv n s) by (apply race_inv_reachable; by eapply rtc_nsteps_2).
  split_and!.
  - apply nsteps_energy in Hs. assert (He : energy (start n) = (2 * n + 1)%nat).
    { unfold energy. cbn [running results main start]. rewrite size_set_seq. cbn. lia. }
    lia.
  - destruct Hi as [Hc _ _ _]. lia.
  - intros Hno. destruct (settled_shape n s Hi Hno) as (_ & r & Hm & Hq). exists r.
    split; [done|]. destruct Hi as [_ _ _ Hmain]. rewrite Hm in Hmain. split.
    + intros k ->. destruct Hmain as (_ & -> & _). rewrite (Hq k eq_refl).
      unfold sessions. cbn. set_solver.
    + intros e ->. by destruct Hmain as (_ & _ & ? & ?).
Qed.

Lemma only_racer k : k ∈ running (start 1) ↔ k = 0%nat.
Proof. cbn [running start]. rewrite elem_of_set_seq. lia. Qed.

(** A caller interrupted by its context does not drain: a session that a relay
    has already joined then stays open for ever, in a race that has settled. *)
Theorem interrupted_race_leaks e :
  ∃ s, reachable 1 s ∧ settled 1 s ∧ main s = Returned (Interrupted e) 0 ∧ open s = {[0%nat]}.
Proof.
  exists (set_main (Returned (Interrupted e) 0) (post (Won 0) (start 1))). split_and!.
  - apply (rtc_l _ _ (post (Won 0) (start 1))); [by apply racer_posts, only_racer|].
    apply rtc_once. apply (caller_interrupted 1 e None); [done|cbn; lia].
  - intros s' Hst. inversion Hst as [r s Hr| | | | |]; subst; try done.
  - done.
  - cbn. set_solver.
Qed.

(** ** The theorems at concrete inputs *)

(** One relay, which wins. *)
Definition race_wit : race :=
  take_result [] (Returned (Session 0) 0) (open (post (Won 0) (start 1))) (post (Won 0) (start 1)).

Lemma race_settles_witness :
  (2 ≤ 2 * 1 + 1)%nat ∧ (length (results race_wit) ≤ 1)%nat ∧
  (settled 1 race_wit →
   ∃ r, main race_wit = Returned r 0 ∧
     (∀ k, r = Session k → open race_wit = {[k]}) ∧
     (∀ e, r = NoSession e → joined race_wit = ∅ ∧ open race_wit = ∅)).
Proof.
  apply (race_settles 1 2 race_wit).
  apply (nsteps_l _ _ _ (post (Won 0) (start 1))); [by apply racer_posts, only_racer|].
  apply nsteps_once. apply (caller_win 1 0 [] None (post (Won 0) (start 1))); [done|cbn; lia|done].
Defined.
