(* ===== verification/Server.v ===== *)
(** * The server's accept loops (runServer of main.go)

    Once it is connected, the server accepts connections from its direct listener and
    from relay invitations.  In forwarding mode both go on for ever; in the simple
    mode exactly one connection is served.  The goroutines are step relations; the
    environment delivers connections, failures and the end of the relay client. *)

From S2P Require Import Prelude.

(** ** Simple mode *)

Module Netcat.

(** The goroutine that accepts one direct connection. *)
Inductive direct : Type := NoListener | Accepting | AcceptDone.

(** The goroutine that answers relay invitations; [RelayGone] when it has seen the relay
    client stop. *)
Inductive relay : Type := NoRelay | Inviting | RelayDone | RelayGone.

Inductive result_ : Type := Served | CtxErr (e : error).

Inductive main : Type :=
| Selecting
| Handling (c : nat) (isRelay : bool)
| Returned (r : result_).

Record state := mkState {
  dir : direct;
  rel : relay;
  stopped : bool;                   (* the relay client's Serve has returned *)
  chan : option (nat * bool);       (* connChan: one connection, and whether it is relayed *)
  top : main;
  fresh : nat;                      (* the next connection to arrive *)
  served : list nat;
  closed : list nat;                (* closed without having been served *)
}.

(** [directPort > 0] and a relay URI was given. *)
Definition init (listens relays : bool) : state :=
  mkState (if listens then Accepting else NoListener) (if relays then Inviting else NoRelay)
    false None Selecting 0 [] [].

(** [select { case connChan <- c: default: c.Close() }] *)
Definition offer (isRelay : bool) (s : state) : option (nat * bool) * list nat :=
  match chan s with
  | None => (Some (fresh s, isRelay), closed s)
  | Some x => (Some x, fresh s :: closed s)
  end.

Inductive step : state → state → Prop :=
| direct_accepts s :
    dir s = Accepting →
    step s (mkState AcceptDone (rel s) (stopped s) (fst (offer false s)) (top s) (S (fresh s))
              (served s) (snd (offer false s)))
| direct_fails s :
    dir s = Accepting →
    step s (mkState AcceptDone (rel s) (stopped s) (chan s) (top s) (fresh s) (served s) (closed s))
| relay_client_stops s :
    rel s ≠ NoRelay → stopped s = false →
    step s (mkState (dir s) (rel s) true (chan s) (top s) (fresh s) (served s) (closed s))
| relay_sees_stop s :
    rel s = Inviting → stopped s = true →
    step s (mkState (dir s) RelayGone true (chan s) (top s) (fresh s) (served s) (closed s))
| relay_joins s :
    rel s = Inviting →
    step s (mkState (dir s) (match chan s with None => RelayDone | Some _ => Inviting end) (stopped s)
              (fst (offer true s)) (top s) (S (fresh s)) (served s) (snd (offer true s)))
| main_takes s c isRelay :
    top s = Selecting → chan s = Some (c, isRelay) →
    step s (mkState (dir s) (rel s) (stopped s) None (Handling c isRelay) (fresh s) (c :: served s)
              (closed s))
| main_finishes s c isRelay :
    top s = Handling c isRelay →
    step s (mkState (dir s) (rel s) (stopped s) (chan s) (Returned Served) (fresh s) (served s) (closed s))
| ctx_done s e :
    top s = Selecting →
    step s (mkState (dir s) (match rel s with Inviting => RelayDone | r => r end) (stopped s) (chan s)
              (Returned (CtxErr e)) (fresh s) (served s) (closed s)).

Definition reachable (listens relays : bool) (s : state) : Prop := rtc step (init listens relays) s.

(** *** One connection is served *)

(** Every connection that arrived is served, closed, or in the channel, once; at most
    one is served, and it is the one being handled. *)
Record inv (s : state) : Prop := mkInv {
  inv_all : map fst (option_list (chan s)) ++ served s ++ closed s ≡ₚ seq 0 (fresh s);
  inv_one : match top s with
            | Selecting => served s = []
            | Handling c _ => served s = [c]
            | Returned Netcat.Served => length (served s) = 1%nat
            | Returned (CtxErr _) => served s = []
            end;
}.


Lemma netcat_inv_init listens relays : inv (init listens relays).
Proof. by split. Qed.

Lemma offer_all isRelay s :
  map fst (option_list (chan s)) ++ served s ++ closed s ≡ₚ seq 0 (fresh s) →
  map fst (option_list (fst (offer isRelay s))) ++ served s ++ snd (offer isRelay s)
  ≡ₚ seq 0 (S (fresh s)).
Proof.
  intros H. rewrite seq_S, <- H. unfold offer. destruct (chan s) as [[c r]|]; cbn.
  - constructor. rewrite <- !app_assoc. apply Permutation_app_head. by rewrite Permutation_cons_append.
  - by rewrite <- Permutation_cons_append.
Qed.

Lemma netcat_inv_step s s' : inv s → step s s' → inv s'.
Proof.
  intros [Ha Ho] Hst. destruct Hst; split; cbn [chan served closed fresh top];
    try done; try (by apply offer_all).
  - rewrite <- Ha. by rewrite H0.
  - rewrite H in Ho. by rewrite Ho.
  - rewrite H in Ho. by rewrite Ho.
  - by rewrite H in Ho.
Qed.

Lemma netcat_inv_reachable listens relays s : reachable listens relays s → inv s.
Proof.
  intros H. assert (G : ∀ x y, rtc step x y → inv x → inv y).
  { induction 1; [done|]. intros Hx. eauto using netcat_inv_step. }
  eapply G; [exact H|apply netcat_inv_init].
Qed.

Lemma netcat_one listens relays s : reachable listens relays s → (length (served s) ≤ 1)%nat.
Proof.
  intros [_ Ho]%netcat_inv_reachable. destruct (top s) as [| |[]]; rewrite ?Ho; cbn; lia.
Qed.

(** In the simple mode at most one connection is ever served, however the direct
    listener and the relay interleave, and no connection is lost track of: each one
    that arrived was served, was closed, or is the single one waiting in the channel.
    The server returns without an error only after having served one. *)
Theorem netcat_serves_one listens relays s :
  reachable listens relays s →
  (length (served s) ≤ 1)%nat ∧ NoDup (served s ++ closed s) ∧
  (∀ c, (c < fresh s)%nat → c ∈ served s ∨ c ∈ closed s ∨ ∃ r, chan s = Some (c, r)) ∧
  (top s = Returned Served → length (served s) = 1%nat).
Proof.
  intros Hr. pose proof (netcat_one _ _ _ Hr). apply netcat_inv_reachable in Hr as [Ha Ho].
  split_and!; [done| | |].
  - pose proof (NoDup_seq 0 (fresh s)) as Hn. rewrite <- Ha in Hn. by apply NoDup_app in Hn as (_ & _ & ?).
  - intros c Hc. assert (Hin : c ∈ seq 0 (fresh s)) by (apply elem_of_seq; lia).
    rewrite <- Ha in Hin. apply elem_of_app in Hin as [Hin|Hin].
    + destruct (chan s) as [[c' r]|]; cbn in Hin; [|by apply not_elem_of_nil in Hin].
      apply list_elem_of_singleton in Hin as ->. eauto.
    + apply elem_of_app in Hin. naive_solver.
  - intros Ht. by rewrite Ht in Ho.
Qed.

(** *** When the relay client stops *)

(** Without a direct listener, a relay client that stops before anybody connected
    leaves the simple mode waiting for ever: the goroutine that notices ends, and
    nothing but the context can move the server again. *)
Theorem netcat_relay_stop_hangs :
  ∃ s, reachable false true s ∧ stopped s = true ∧ top s = Selecting ∧
    ∀ s', step s s' → ∃ e, top s' = Returned (CtxErr e).
Proof.
  exists (mkState NoListener RelayGone true None Selecting 0 [] []). split_and!; [|done|done|].
  - eapply rtc_l; [by apply relay_client_stops|]. eapply rtc_l; [by apply relay_sees_stop|].
    apply rtc_refl.
  - intros s' Hst. inversion Hst; subst; cbn in *; try done. eauto.
Qed.

(** The relay delivers a connection, which is being served, and then the listener one. *)
Definition two_arrived : state :=
  mkState AcceptDone RelayDone false (Some (1%nat, false)) (Handling 0 true) 2 [0%nat] [].

Lemma two_arrived_reachable : reachable true true two_arrived.
Proof.
  eapply rtc_l; [by apply relay_joins|]. eapply rtc_l; [by eapply main_takes|].
  eapply rtc_l; [by apply direct_accepts|]. apply rtc_refl.
Qed.

(** A connection that arrives while another is being served can be left in the
    channel, neither served nor closed, for as long as the first one lasts. *)
Theorem netcat_second_connection_waits :
  ∃ s c r, reachable true true s ∧ top s = Handling 0 true ∧ chan s = Some (c, r) ∧
    (c ∉ served s) ∧ (c ∉ closed s) ∧
    ∀ s', rtc step s s' → chan s' = Some (c, r).
Proof.
  exists two_arrived, 1%nat, false.
  split_and!; [exact two_arrived_reachable|done|done|cbn; set_solver|cbn; set_solver|].
  - intros s' H.
    assert (G : ∀ x y, rtc step x y →
      (dir x = AcceptDone ∧ rel x = RelayDone ∧ top x ≠ Selecting ∧ chan x = Some (1%nat, false)) →
      chan y = Some (1%nat, false)).
    { induction 1 as [|x y z Hst _ IH]; [naive_solver|]. intros (Hd & Hr & Ht & Hc). apply IH.
      inversion Hst; subst; cbn; split_and!; congruence. }
    eapply G; [exact H|done].
Qed.

End Netcat.

(** ** Forwarding mode *)

Module Forward.

(** The goroutine of the direct listener: waiting in [Accept], or with a connection whose handler
    it is about to start. *)
Inductive listener : Type := NoListener | Accepting | Accepted (c : nat).

(** Why the loop returned. *)
Inductive reason : Type :=
| RelayStopped (err : option error)
| InvitationsClosed
| ContextDone (e : error).

(** The loop: in its select; in [JoinSession], outside of it; with the connection that gave, whose
    handler it is about to start. *)
Inductive main : Type :=
| Looping
| Joining
| Joined (c : nat)
| Returned (r : reason).

Record state := mkState {
  lis : listener;
  has_relay : bool;
  stopped : option (option error);  (* relayStopped: what Serve returned *)
  invs_closed : bool;
  ctx : option error;
  top : main;
  fresh : nat;                      (* the next connection to arrive *)
  handlers : list (nat * bool);     (* connections handed to handleForwardConn *)
}.

Definition init (listens relays : bool) : state :=
  mkState (if listens then Accepting else NoListener) relays None false None Looping 0 [].

(** The error it returns. *)
Definition return_error (r : reason) : error :=
  match r with
  | RelayStopped (Some e) => Wrapf "relay client stopped" e
  | RelayStopped None => Errorf "relay client stopped"
  | InvitationsClosed => Errorf "invitations channel closed"
  | ContextDone e => e
  end.

(** Invitations are sent by the relay client's [Serve], on a channel without a buffer: none is
    received once it has returned. *)
Inductive step : state → state → Prop :=
| direct_accepts h st ic cx m n hs :
    step (mkState Accepting h st ic cx m n hs) (mkState (Accepted n) h st ic cx m (S n) hs)
| direct_starts c h st ic cx m n hs :
    step (mkState (Accepted c) h st ic cx m n hs) (mkState Accepting h st ic cx m n ((c, false) :: hs))
| listener_fails h st ic cx m n hs :
    step (mkState Accepting h st ic cx m n hs) (mkState NoListener h st ic cx m n hs)
| relay_client_stops l ic cx m n hs err :
    step (mkState l true None ic cx m n hs) (mkState l true (Some err) ic cx m n hs)
| invitations_close l st cx m n hs :
    step (mkState l true st false cx m n hs) (mkState l true st true cx m n hs)
| context_ends l h st ic m n hs e :
    step (mkState l h st ic None m n hs) (mkState l h st ic (Some e) m n hs)
| main_invited l cx n hs :
    step (mkState l true None false cx Looping n hs) (mkState l true None false cx Joining n hs)
| join_succeeds l h st ic cx n hs :
    step (mkState l h st ic cx Joining n hs) (mkState l h st ic cx (Joined n) (S n) hs)
| join_fails l h st ic cx n hs :
    step (mkState l h st ic cx Joining n hs) (mkState l h st ic cx Looping n hs)
| main_starts c l h st ic cx n hs :
    step (mkState l h st ic cx (Joined c) n hs) (mkState l h st ic cx Looping n ((c, true) :: hs))
| main_sees_stop l ic cx n hs err :
    step (mkState l true (Some err) ic cx Looping n hs)
         (mkState l true (Some err) ic cx (Returned (RelayStopped err)) n hs)
| main_sees_closed l st cx n hs :
    step (mkState l true st true cx Looping n hs) (mkState l true st true cx (Returned InvitationsClosed) n hs)
| main_sees_context l h st ic n hs e :
    step (mkState l h st ic (Some e) Looping n hs)
         (mkState l h st ic (Some e) (Returned (ContextDone e)) n hs).

Definition reachable (listens relays : bool) (s : state) : Prop := rtc step (init listens relays) s.

(** *** Every connection has its handler *)

(** The connections that are about to be handed to one. *)
Definition held (s : state) : list nat :=
  match lis s with Accepted c => [c] | _ => [] end ++ match top s with Joined c => [c] | _ => [] end.

Definition inv (s : state) : Prop := map fst (handlers s) ++ held s ≡ₚ seq 0 (fresh s).

Lemma forward_inv_reachable listens relays s : reachable listens relays s → inv s.
Proof.
  intros H. assert (G : ∀ x y, rtc step x y → inv x → inv y).
  { induction 1 as [|x y z Hst _ IH]; [done|]. intros Hx. apply IH. unfold inv, held in *.
    destruct Hst; cbn [handlers fresh lis top map fst app] in *; rewrite ?app_nil_r in *; try done;
      rewrite ?seq_S, <- ?Hx; solve_Permutation. }
  eapply G; [exact H|]. unfold inv, held, init. by destruct listens.
Qed.

(** No connection is handed to two handlers, and none is lost. *)
Theorem forward_each_once listens relays s :
  reachable listens relays s →
  NoDup (map fst (handlers s)) ∧ ∀ c, (c < fresh s)%nat → c ∈ map fst (handlers s) ∨ c ∈ held s.
Proof.
  intros Hi%forward_inv_reachable. unfold inv in Hi. split.
  - pose proof (NoDup_seq 0 (fresh s)) as Hn. rewrite <- Hi in Hn. by apply NoDup_app in Hn as (? & _).
  - intros c Hc. assert (Hin : c ∈ seq 0 (fresh s)) by (apply elem_of_seq; lia).
    rewrite <- Hi in Hin. by apply elem_of_app in Hin.
Qed.

(** *** The loop after the relay client has stopped *)


(** The loop can move by itself: something is ready in its select, or it is outside of it. *)
Definition main_ready (s : state) : bool :=
  match top s with
  | Looping => bool_decide (is_Some (ctx s)) || has_relay s && (invs_closed s || bool_decide (is_Some (stopped s)))
  | Joining | Joined _ => true
  | Returned _ => false
  end.


(** Ready means that a step of the loop is enabled. *)
Lemma main_ready_step s : main_ready s = true → ∃ s', step s s' ∧ top s' ≠ top s.
Proof.
  destruct s as [l h st ic cx [| |c|r] n hs]; unfold main_ready; cbn; intros H; try done.
  - destruct cx as [e|]; [eexists; by split; [apply main_sees_context|]|]. cbn in H. bools.
    destruct h; [|done]. destruct ic; [eexists; by split; [apply main_sees_closed|]|].
    destruct st as [err|]; [|done]. eexists. by split; [apply main_sees_stop|].
  - eexists. by split; [apply join_fails|].
  - eexists. by split; [apply main_starts|].
Qed.









Section Stopped.
Context (σ : nat → state) (n0 : nat) (err : option error).
Hypothesis Hrun : ∀ n, step (σ n) (σ (S n)) ∨ σ (S n) = σ n.
Hypothesis Hstop : stopped (σ n0) = Some err.
Hypothesis Hrel : has_relay (σ n0) = true.


End Stopped.



End Forward.

(** ** The theorems at concrete inputs *)

Lemma netcat_serves_one_witness :
  (length (Netcat.served Netcat.two_arrived) ≤ 1)%nat ∧
  NoDup (Netcat.served Netcat.two_arrived ++ Netcat.closed Netcat.two_arrived) ∧
  (∀ c, (c < 2)%nat →
     c ∈ Netcat.served Netcat.two_arrived ∨ c ∈ Netcat.closed Netcat.two_arrived ∨
     ∃ r, Netcat.chan Netcat.two_arrived = Some (c, r)) ∧
  (Netcat.top Netcat.two_arrived = Netcat.Returned Netcat.Served →
   length (Netcat.served Netcat.two_arrived) = 1%nat).
Proof.
  exact (Netcat.netcat_serves_one true true Netcat.two_arrived Netcat.two_arrived_reachable).
Defined.




