(* ===== verification/Services.v ===== *)
(** * Multiplexed services (socks.go, reverse_forward.go)

    The SOCKS server and client and the two ends of reverse forwarding.  Each runs a yamux
    session over the connection and an accept loop, and starts a goroutine per connection;
    loop and goroutine bodies are programs over the session, the listener and the dialer.
    A loop takes the number of rounds to follow it for and has no result while it is still
    running.  How the two copies of a goroutine interleave is the subject of Splice.v. *)

From S2P Require Import Prelude GoStrings Effects NetUtil.

Inductive svcE : Type → Type :=
| YamuxServer : svcE (option error)
| YamuxClient : svcE (option error)
| CloseSession : svcE unit
| SocksNew : svcE (option error)
| AcceptStream : svcE (result nat)
| OpenStream : svcE (result nat)
| GoServeConn (stream : nat) : svcE unit
| ListenOn (network addr : bytes) : svcE (option error)
| AcceptLocal : svcE (result nat)
| CloseListener : svcE unit
| GoCloseOnDone : svcE unit
| RemoveFile (path : bytes) : svcE unit
| GoForward (conn : nat) : svcE unit
| DialTarget (network addr : bytes) : svcE (result nat)
| PipeBoth (a b : nat) : svcE unit
| CloseEnd (c : nat) : svcE unit.

#[global] Instance svc_effect : Effect svcE := recording svcE (λ _ _ _, True).

(** [for { c, err := accept(); if err != nil { return }; go serve(c) }] *)
Fixpoint accept_loop (rounds : nat) (accept : svcE (result nat)) (serve : nat → svcE unit) : prog svcE (option unit) :=
  match rounds with
  | O => Ret None
  | S rounds =>
      c <- trigger accept ;;
      match c with
      | Err _ => Ret (Some tt)
      | Ok c => trigger (serve c) ;;; accept_loop rounds accept serve
      end
  end.

(** What a [defer] does once the rest of the function has returned. *)
Definition deferring (p : prog svcE (option unit)) (d : prog svcE unit) : prog svcE (option unit) :=
  r <- p ;; match r with Some tt => d ;;; Ret (Some tt) | None => Ret None end.

(** ** SOCKS *)

Definition runSocksServer (rounds : nat) : prog svcE (option unit) :=
  y <- trigger YamuxServer ;;
  match y with
  | Some _ => Ret (Some tt)
  | None =>
      deferring
        (s <- trigger SocksNew ;;
         match s with
         | Some _ => Ret (Some tt)
         | None => accept_loop rounds AcceptStream GoServeConn
         end)
        (trigger CloseSession)
  end.

Definition runSocksClient (rounds : nat) (localPort : bytes) : prog svcE (option unit) :=
  y <- trigger YamuxClient ;;
  match y with
  | Some _ => Ret (Some tt)
  | None =>
      deferring
        (l <- trigger (ListenOn "tcp" localPort) ;;
         match l with
         | Some _ => Ret (Some tt)
         | None =>
             deferring (trigger GoCloseOnDone ;;; accept_loop rounds AcceptLocal GoForward)
               (trigger CloseListener)
         end)
        (trigger CloseSession)
  end.

(** The goroutine of a local connection: a stream for it, until one side is done. *)
Definition forward_local (c : nat) : prog svcE unit :=
  s <- trigger OpenStream ;;
  match s with
  | Err _ => Ret tt
  | Ok s => trigger (PipeBoth c s) ;;; trigger (CloseEnd s)
  end ;;;
  trigger (CloseEnd c).

(** ** Reverse forwarding *)

Definition remove_socket (network addr : bytes) : prog svcE unit :=
  if network =s "unix" then trigger (RemoveFile addr) else Ret tt.

Definition runReverseForwardServer (rounds : nat) (bindAddr : bytes) : prog svcE (option unit) :=
  y <- trigger YamuxServer ;;
  match y with
  | Some _ => Ret (Some tt)
  | None =>
      deferring
        (let '(network, addr) := parseNetworkAndAddr bindAddr in
         remove_socket network addr ;;;
         deferring
           (l <- trigger (ListenOn network addr) ;;
            match l with
            | Some _ => Ret (Some tt)
            | None => deferring (accept_loop rounds AcceptLocal GoForward) (trigger CloseListener)
            end)
           (remove_socket network addr))
        (trigger CloseSession)
  end.

Definition runReverseForwardClient (rounds : nat) : prog svcE (option unit) :=
  y <- trigger YamuxClient ;;
  match y with
  | Some _ => Ret (Some tt)
  | None => deferring (accept_loop rounds AcceptStream GoForward) (trigger CloseSession)
  end.

(** The goroutine of a stream that arrived at the client. *)
Definition forward_stream (targetAddr : bytes) (s : nat) : prog svcE unit :=
  let '(network, addr) := parseNetworkAndAddr targetAddr in
  c <- trigger (DialTarget network addr) ;;
  match c with
  | Err _ => Ret tt
  | Ok c => trigger (PipeBoth c s) ;;; trigger (CloseEnd c)
  end ;;;
  trigger (CloseEnd s).

(** ** What a service does, request by request *)

(** Every connection that was accepted is handed to one goroutine, in order. *)
Definition rounds_of (accept : svcE (result nat)) (serve : nat → svcE unit) (cs : list nat) : list (event svcE) :=
  concat (map (λ c, [Did accept (Ok c); Did (serve c) tt]) cs).

Lemma accept_loop_trace rounds accept serve t :
  exec (accept_loop rounds accept serve) t (Some tt) →
  ∃ cs e, t = rounds_of accept serve cs ++ [Did accept (Err e)].
Proof.
  revert t; induction rounds as [|rounds IH]; intros t H; [by destruct H|]. cbn [accept_loop] in H.
  apply exec_ask in H as ([c|e] & t1 & _ & -> & H).
  - apply exec_ask in H as ([] & t2 & _ & -> & (cs & e & ->)%IH). by exists (c :: cs), e.
  - destruct H as [-> _]. by exists [], e.
Qed.

Lemma exec_deferring p d t :
  exec (deferring p d) t (Some tt) → ∃ t1 t2, t = t1 ++ t2 ∧ exec p t1 (Some tt) ∧ exec d t2 tt.
Proof.
  intros (t1 & t2 & r & -> & Hp & H)%exec_bind. destruct r as [[]|]; [|by destruct H].
  apply exec_bind in H as (t3 & t4 & [] & -> & Hd & [-> _]). exists t1, t3. by rewrite app_nil_r.
Qed.

Lemma exec_trigger {X} (e : svcE X) t x : exec (E := svcE) (trigger e) t x → t = [Did e x].
Proof. by intros (y & t1 & _ & -> & [-> ->]). Qed.

Definition removals (network addr : bytes) : list (event svcE) :=
  if network =s "unix" then [Did (RemoveFile addr) tt] else [].

Lemma remove_socket_trace network addr t :
  exec (remove_socket network addr) t tt → t = removals network addr.
Proof. unfold remove_socket, removals. case_match; [apply exec_trigger|by intros [-> _]]. Qed.

Lemma reverse_server_shape rounds bindAddr t :
  exec (runReverseForwardServer rounds bindAddr) t (Some tt) →
  let '(network, addr) := parseNetworkAndAddr bindAddr in
  (∃ e, t = [Did YamuxServer (Some e)]) ∨
  ∃ mid, t = Did YamuxServer None :: removals network addr ++ mid ++ removals network addr ++ [Did CloseSession tt] ∧
    ((∃ e, mid = [Did (ListenOn network addr) (Some e)]) ∨
     ∃ cs e, mid = Did (ListenOn network addr) None :: rounds_of AcceptLocal GoForward cs ++
                   [Did AcceptLocal (Err e); Did CloseListener tt]).
Proof.
  unfold runReverseForwardServer. destruct (parseNetworkAndAddr bindAddr) as [network addr].
  intros ([e|] & t1 & _ & -> & H)%exec_ask; [destruct H as [-> _]; eauto|]. right.
  apply exec_deferring in H as (t2 & t3 & -> & H & ->%exec_trigger).
  apply exec_bind in H as (t4 & t5 & [] & -> & ->%remove_socket_trace & H).
  apply exec_deferring in H as (mid & t7 & -> & H & ->%remove_socket_trace).
  exists mid. split; [by rewrite <- !app_assoc|].
  apply exec_ask in H as ([e|] & t8 & _ & -> & H); [destruct H as [-> _]; eauto|]. right.
  apply exec_deferring in H as (t9 & t10 & -> & (cs & e & ->)%accept_loop_trace & ->%exec_trigger).
  exists cs, e. by rewrite <- app_assoc.
Qed.

(** The whole life of a reverse-forwarding server.  Once it has a session it removes a stale
    socket file, listens, and hands every connection to a goroutine; it returns only when
    accepting fails, and then closes the listener, removes the socket file and closes the
    session, in this order; when listening fails it does the same without a listener.
    Nothing in it looks at whether the session is still alive. *)
Theorem reverse_server_life rounds bindAddr t :
  exec (runReverseForwardServer rounds bindAddr) t (Some tt) →
  let '(network, addr) := parseNetworkAndAddr bindAddr in
  (∃ e, t = [Did YamuxServer (Some e)]) ∨
  ∃ mid, t = Did YamuxServer None :: removals network addr ++ mid ++ removals network addr ++ [Did CloseSession tt] ∧
    ((∃ e, mid = [Did (ListenOn network addr) (Some e)]) ∨
     ∃ cs e, mid = Did (ListenOn network addr) None :: rounds_of AcceptLocal GoForward cs ++
                   [Did AcceptLocal (Err e); Did CloseListener tt]).
Proof. apply reverse_server_shape. Qed.

(** A goroutine closes both of its connections, once, on every path, after the copying; at
    the client it only ever connects to the configured target. *)
Theorem links_closed :
  (∀ c t, exec (forward_local c) t tt →
     (∃ e, t = [Did OpenStream (Err e); Did (CloseEnd c) tt]) ∨
     (∃ s, t = [Did OpenStream (Ok s); Did (PipeBoth c s) tt; Did (CloseEnd s) tt; Did (CloseEnd c) tt])) ∧
  (∀ targetAddr s t, exec (forward_stream targetAddr s) t tt →
     let '(network, addr) := parseNetworkAndAddr targetAddr in
     (∃ e, t = [Did (DialTarget network addr) (Err e); Did (CloseEnd s) tt]) ∨
     (∃ c, t = [Did (DialTarget network addr) (Ok c); Did (PipeBoth c s) tt; Did (CloseEnd c) tt;
                Did (CloseEnd s) tt])).
Proof.
  assert (Htail : ∀ a b t, exec (E := svcE) ((trigger (PipeBoth a b) ;;; trigger (CloseEnd a)) ;;; trigger (CloseEnd b)) t tt →
    t = [Did (PipeBoth a b) tt; Did (CloseEnd a) tt; Did (CloseEnd b) tt]).
  { intros a b t (t1 & t2 & [] & -> & H & ->%exec_trigger)%exec_bind.
    by apply exec_ask in H as ([] & t3 & _ & -> & ->%exec_trigger). }
  split.
  - intros c t ([s|e] & t1 & _ & -> & H)%exec_ask; [right|left].
    + apply exec_bind in H as (t2 & t3 & [] & -> & H & ->%exec_trigger).
      apply exec_ask in H as ([] & t4 & _ & -> & ->%exec_trigger). by exists s.
    + apply exec_bind in H as (t2 & t3 & [] & -> & [-> _] & ->%exec_trigger). by exists e.
  - intros targetAddr s t. unfold forward_stream. destruct (parseNetworkAndAddr targetAddr) as [network addr].
    intros ([c|e] & t1 & _ & -> & H)%exec_ask; [right|left].
    + apply Htail in H as ->. by exists c.
    + apply exec_bind in H as (t2 & t3 & [] & -> & [-> _] & ->%exec_trigger). by exists e.
Qed.

(** ** Sessions and listeners are given back *)

Definition count (f : event svcE → bool) (t : list (event svcE)) : nat := length (List.filter f t).

Definition opens_session (e : event svcE) : bool :=
  match e with Did YamuxServer None | Did YamuxClient None => true | _ => false end.
Definition closes_session (e : event svcE) : bool := match e with Did CloseSession _ => true | _ => false end.
Definition opens_listener (e : event svcE) : bool := match e with Did (ListenOn _ _) None => true | _ => false end.
Definition closes_listener (e : event svcE) : bool := match e with Did CloseListener _ => true | _ => false end.

Definition balanced (t : list (event svcE)) : Prop :=
  count opens_session t = count closes_session t ∧ count opens_listener t = count closes_listener t.

Lemma count_app f t1 t2 : count f (t1 ++ t2) = (count f t1 + count f t2)%nat.
Proof. unfold count. by rewrite List.filter_app, length_app. Qed.

Lemma count_cons f e t : count f (e :: t) = ((if f e then 1 else 0) + count f t)%nat.
Proof. unfold count. cbn. by destruct (f e). Qed.

Lemma count_rounds f accept serve cs :
  (∀ c, f (Did accept (Ok c)) = false ∧ f (Did (serve c) tt) = false) → count f (rounds_of accept serve cs) = 0%nat.
Proof.
  intros Hf. induction cs as [|c cs IH]; [done|]. cbn [rounds_of map concat].
  rewrite count_app. fold (rounds_of accept serve cs). rewrite IH, !count_cons.
  destruct (Hf c) as [-> ->]. done.
Qed.

Lemma count_removals f network addr :
  f (Did (RemoveFile addr) tt) = false → count f (removals network addr) = 0%nat.
Proof. intros Hf. unfold removals. case_match; [|done]. by rewrite count_cons, Hf. Qed.

Ltac balance :=
  split; repeat rewrite ?count_app, ?count_cons; cbn [opens_session closes_session opens_listener closes_listener];
  rewrite ?count_rounds, ?count_removals by done; reflexivity.

(** Whenever one of the services returns, however it came to that, its own deferred
    calls have closed its session and its listener, exactly once each, and never one it did not
    have. The goroutine the SOCKS client starts may close that listener earlier, when the context
    ends: it is started by [GoCloseOnDone] and its close is not counted here. *)
Theorem services_balanced rounds t :
  (exec (runSocksServer rounds) t (Some tt) → balanced t) ∧
  (∀ port, exec (runSocksClient rounds port) t (Some tt) → balanced t) ∧
  (∀ bindAddr, exec (runReverseForwardServer rounds bindAddr) t (Some tt) → balanced t) ∧
  (exec (runReverseForwardClient rounds) t (Some tt) → balanced t).
Proof.
  split_and!.
  - intros ([e|] & t1 & _ & -> & H)%exec_ask; [by destruct H as [-> _]|].
    apply exec_deferring in H as (t2 & t3 & -> & H & ->%exec_trigger).
    apply exec_ask in H as ([e|] & t4 & _ & -> & H); [by destruct H as [-> _]|].
    apply accept_loop_trace in H as (cs & e & ->). balance.
  - intros port ([e|] & t1 & _ & -> & H)%exec_ask; [by destruct H as [-> _]|].
    apply exec_deferring in H as (t2 & t3 & -> & H & ->%exec_trigger).
    apply exec_ask in H as ([e|] & t4 & _ & -> & H); [by destruct H as [-> _]|].
    apply exec_deferring in H as (t5 & t6 & -> & H & ->%exec_trigger).
    apply exec_ask in H as ([] & t7 & _ & -> & (cs & e & ->)%accept_loop_trace). balance.
  - intros bindAddr H%reverse_server_shape. destruct (parseNetworkAndAddr bindAddr) as [network addr].
    destruct H as [[e ->]|(mid & -> & [[e ->]|(cs & e & ->)])]; balance.
  - intros ([e|] & t1 & _ & -> & H)%exec_ask; [by destruct H as [-> _]|].
    apply exec_deferring in H as (t2 & t3 & -> & (cs & e & ->)%accept_loop_trace & ->%exec_trigger). balance.
Qed.

(** ** A concrete run *)

(** A peer that opens the connections in the state and then goes away. *)
Definition peer : handler svcE (list nat) := λ X e s,
  match e in svcE X return X * list nat with
  | YamuxServer | YamuxClient | SocksNew | ListenOn _ _ => (None, s)
  | CloseSession | GoServeConn _ | CloseListener | GoCloseOnDone | RemoveFile _ | GoForward _
  | PipeBoth _ _ | CloseEnd _ => (tt, s)
  | AcceptStream | AcceptLocal => match s with c :: s => (Ok c, s) | [] => (Err EOF, []) end
  | OpenStream | DialTarget _ _ => (Ok 100%nat, s)
  end.

Definition reverse_wit : list (event svcE) :=
  trace_of (H := svc_effect) peer (runReverseForwardServer 3 "unix:/run/r.sock") [1; 2]%nat.

Lemma reverse_server_life_witness :
  (∃ e, reverse_wit = [Did YamuxServer (Some e)]) ∨
  ∃ mid, reverse_wit = Did YamuxServer None :: removals "unix" "/run/r.sock" ++ mid ++
                       removals "unix" "/run/r.sock" ++ [Did CloseSession tt] ∧
    ((∃ e, mid = [Did (ListenOn "unix" "/run/r.sock") (Some e)]) ∨
     ∃ cs e, mid = Did (ListenOn "unix" "/run/r.sock") None :: rounds_of AcceptLocal GoForward cs ++
                   [Did AcceptLocal (Err e); Did CloseListener tt]).
Proof.
  apply (reverse_server_life 3 "unix:/run/r.sock" reverse_wit).
  exact (run_exec (E := svcE) peer (runReverseForwardServer 3 "unix:/run/r.sock") [1; 2]%nat (λ _ _ _, I)).
Defined.
