(* ===== verification/Shell.v ===== *)
(** * The remote shell and remote commands (shell.go, shell_pty_*.go, shell_resize_unix.go)

    A shell has two streams of a yamux session: one for its data, one on which the client
    announces the size of its terminal, a JSON line each time.  A command has the connection
    itself.  The set-up of each end is a program; the three copies that run beside a command
    are a step relation. *)

From S2P Require Import Prelude GoStrings Utf8 Json Effects Splice.

(** ** Sizes *)

Record winsize := mkWinsize { Rows : Z; Cols : Z }.

(** [json.Unmarshal(line, &size)] into a zero [winsize]. *)
Definition parse_winsize (line : bytes) : option winsize :=
  j ← parse line;
  o ← as_object j;
  rows ← uint16_field "rows" 0 o;
  cols ← uint16_field "cols" 0 o;
  Some (mkWinsize rows cols).

(** What the client sends, without the line break. *)
Definition size_line (width height : Z) : bytes :=
  jtext "{'cols': " ++ Itoa width ++ jtext ", 'rows': " ++ Itoa height ++ str "}".

(** The calls of [Resize] that the lines of the control stream lead to. *)
Definition resizes (control : reader) : list (Z * Z) :=
  omap (λ line, size ← parse_winsize line; Some (Rows size, Cols size)) (fst (scan_lines control)).

(** ** Requests *)

Inductive shE : Type → Type :=
| Yamux (server : bool) : shE (option error)
| CloseSession : shE unit
| AcceptStream : shE (result nat)
| OpenStream : shE (result nat)
| Getenv (name : bytes) : shE bytes
| StartPty (path : bytes) : shE (option error)
| CloseShell : shE unit
| WaitShell : shE unit
| GoResizes (control : nat) : shE unit
| GoCopy (label : bytes) : shE unit
| CopyAll (label : bytes) : shE unit
| MakeRaw : shE (option error)
| RestoreTerm : shE unit
| GetSize : shE (option (Z * Z))
| SendControl (s : nat) (data : bytes) : shE unit
| GoTerminalResize (control : nat) : shE unit
| Command (path : bytes) (args : list bytes) : shE unit
| PipeFor (fd : Z) : shE (option error)
| GoLogStderr : shE unit
| GoStdin : shE unit
| GoStdout : shE unit
| StartCmd : shE (option error)
| WaitGroup : shE unit
| WaitCmd : shE (option error).

#[global] Instance sh_effect : Effect shE := recording shE (λ _ _ _, True).

(** ** The shell's server *)

(** [spawnShell] on UNIX and on Windows: the program that is started. *)
Definition spawnShell : prog shE (option error) :=
  p <- trigger (Getenv "SHELL") ;;
  trigger (StartPty (if p =s "" then str "/bin/sh" else p)).

Definition spawnShell_windows : prog shE (option error) :=
  p <- trigger (Getenv "COMSPEC") ;;
  trigger (Command (if p =s "" then str "cmd.exe" else p) []) ;;;
  i <- trigger (PipeFor 0) ;;
  match i with
  | Some e => Ret (Some e)
  | None =>
      o <- trigger (PipeFor 1) ;;
      match o with
      | Some e => Ret (Some e)
      | None =>
          r <- trigger (PipeFor 2) ;;
          match r with
          | Some e => Ret (Some e)
          | None =>
              s <- trigger StartCmd ;;
              match s with
              | Some e => Ret (Some e)
              | None => trigger (GoCopy "stdout") ;;; trigger (GoCopy "stderr") ;;; Ret None
              end
          end
      end
  end.

Definition serve_shell (control : nat) : prog shE unit :=
  e <- spawnShell ;;
  match e with
  | Some _ => Ret tt
  | None =>
      trigger (GoResizes control) ;;;
      trigger (GoCopy "remote->pty") ;;;
      trigger (CopyAll "pty->remote") ;;;
      trigger WaitShell ;;;
      trigger CloseShell
  end.

Definition runShellServer : prog shE unit :=
  y <- trigger (Yamux true) ;;
  match y with
  | Some _ => Ret tt
  | None =>
      d <- trigger AcceptStream ;;
      match d with
      | Err _ => Ret tt
      | Ok _ =>
          c <- trigger AcceptStream ;;
          match c with
          | Err _ => Ret tt
          | Ok control => serve_shell control
          end
      end ;;;
      trigger CloseSession
  end.

(** ** The shell's client *)

Definition send_size (control : nat) : prog shE unit :=
  size <- trigger GetSize ;;
  match size with
  | Some (width, height) => trigger (SendControl control (size_line width height ++ [x0a]))
  | None => Ret tt
  end.

(** [signals]: how many SIGWINCH arrive before the context is done. *)
Fixpoint handleTerminalResize (signals : nat) (control : nat) : prog shE unit :=
  match signals with
  | O => Ret tt
  | S n => send_size control ;;; handleTerminalResize n control
  end.

(** There is no such signal on Windows. *)
Definition handleTerminalResize_windows (control : nat) : prog shE unit := Ret tt.

Definition shell_session : prog shE unit :=
  y <- trigger (Yamux false) ;;
  match y with
  | Some _ => Ret tt
  | None =>
      d <- trigger OpenStream ;;
      match d with
      | Err _ => Ret tt
      | Ok _ =>
          c <- trigger OpenStream ;;
          match c with
          | Err _ => Ret tt
          | Ok control =>
              send_size control ;;;
              trigger (GoTerminalResize control) ;;;
              trigger (GoCopy "stdin->remote") ;;;
              trigger (CopyAll "remote->stdout")
          end
      end ;;;
      trigger CloseSession
  end.

Definition runShellClient : prog shE unit :=
  raw <- trigger MakeRaw ;;
  match raw with
  | Some _ => shell_session
  | None => shell_session ;;; trigger RestoreTerm
  end.

(** ** The command server *)

Definition runCommandServer (windows : bool) (commandStr : bytes) : prog shE unit :=
  (if windows then trigger (Command "cmd.exe" [str "/c"; commandStr])
   else trigger (Command "/bin/sh" [str "-c"; commandStr])) ;;;
  i <- trigger (PipeFor 0) ;;
  match i with
  | Some _ => Ret tt
  | None =>
      o <- trigger (PipeFor 1) ;;
      match o with
      | Some _ => Ret tt
      | None =>
          e <- trigger (PipeFor 2) ;;
          match e with
          | Some _ => Ret tt
          | None =>
              trigger GoLogStderr ;;;
              trigger GoStdin ;;;
              trigger GoStdout ;;;
              s <- trigger StartCmd ;;
              match s with
              | Some _ => Ret tt
              | None =>
                  trigger WaitGroup ;;;
                  trigger WaitCmd ;;;
                  Ret tt
              end
          end
      end
  end.

(** ** The Windows shell: [windowsShell.Write] *)

Inductive win_act : Type := Kill | CloseStdin | Typed.

(** What is written to the shell and what is echoed, and what ended the loop. *)
Fixpoint win_loop (stdin echo p : bytes) : win_act * bytes * bytes :=
  match p with
  | [] => (Typed, stdin, echo)
  | b :: p =>
      if beq b x0d || beq b x0a then win_loop (stdin ++ [x0d; x0a]) (echo ++ [x0d; x0a]) p
      else if beq b x7f || beq b x08 then win_loop (stdin ++ [x08]) (echo ++ [x08; x20; x08]) p
      else if beq b x03 then (Kill, [], [])
      else if beq b x04 then (CloseStdin, [], [])
      else win_loop (stdin ++ [b]) (echo ++ [b]) p
  end.

(** The action, the bytes for the shell, the bytes for the client, the count returned. *)
Definition win_Write (p : bytes) : win_act * bytes * bytes * Z :=
  (win_loop [] [] p, Z.of_nat (length p)).

(** ** Sizes arrive *)

Lemma value_space f depth s : value (S f) depth (x20 :: s) = value (S f) depth s.
Proof. done. Qed.

Definition size_ok (z : Z) : Prop := 0 ≤ z < 2 ^ 16.

(** One member whose value is an integer, after white space, with a space after the colon. *)
Lemma member_number f depth s k z c rest :
  skip_ws s = quote k ++ x3a :: x20 :: Itoa z ++ c :: rest → ValidUtf8 k = true → num_end (c :: rest) = true →
  is_ws c = false →
  members (S (S f)) depth s =
  match expect x2c (c :: rest) with
  | Some u => '(l, w) ← members (S f) depth u; Some ((k, JNum (Itoa z)) :: l, w)
  | None => u ← expect x7d (c :: rest); Some ([(k, JNum (Itoa z))], u)
  end.
Proof.
  intros Hs Hk Hn Hc. remember (S f) as f' eqn:Ef. cbn [members]. rewrite Hs. unfold quote.
  rewrite <- app_comm_cons, expect_eq. cbn [mbind option_bind]. rewrite <- app_assoc. cbn [app].
  rewrite unquote_string by done. cbn [mbind option_bind]. rewrite skip_ws_cons, expect_eq by done.
  cbn [mbind option_bind]. subst f'. rewrite value_space, value_number by done. cbn [mbind option_bind].
  by rewrite skip_ws_cons.
Qed.

Lemma parse_size_line w h :
  parse (size_line w h) = Some (JObj [(str "cols", JNum (Itoa w)); (str "rows", JNum (Itoa h))]).
Proof.
  unfold parse.
  assert (Hf : ∃ f, doc_fuel (size_line w h) = S (S (S (S f)))).
  { unfold doc_fuel, size_line. rewrite length_app. change (length (jtext "{'cols': ")) with 9%nat.
    set (n := length _). exists (2 * n + 16)%nat. lia. }
  destruct Hf as [f ->].
  assert (Hv : value (S (S (S (S f)))) 0 (size_line w h) =
    Some (JObj [(str "cols", JNum (Itoa w)); (str "rows", JNum (Itoa h))], [])).
  { remember (S (S (S f))) as f1 eqn:Ef. unfold size_line.
    set (rest := jtext ", 'rows': " ++ Itoa h ++ str "}").
    change (value (S f1) 0 (jtext "{'cols': " ++ Itoa w ++ rest)) with
      ('(l, u) ← members f1 1 (jtext "'cols': " ++ Itoa w ++ rest); Some (JObj l, u)).
    subst f1. unfold rest.
    rewrite (member_number (S f) 1 _ "cols" w x2c (jtext " 'rows': " ++ Itoa h ++ str "}")) by done.
    rewrite expect_eq.
    rewrite (member_number f 1 _ "rows" h x7d []) by done.
    by rewrite expect_ne, expect_eq by done. }
  by rewrite Hv.
Qed.

Lemma parse_winsize_line w h :
  size_ok w → size_ok h → parse_winsize (size_line w h) = Some (mkWinsize h w).
Proof.
  unfold size_ok. intros Hw Hh. unfold parse_winsize. rewrite parse_size_line. cbn [mbind option_bind as_object].
  assert (Hp : ∀ z, 0 ≤ z < 2 ^ 16 → ParseUint (Itoa z) = Some z).
  { intros z Hz. apply ParseUint_Itoa. unfold max_uint64. lia. }
  cbn [uint16_field]. change (field_match "rows" "cols") with false. change (field_match "rows" "rows") with true.
  change (field_match "cols" "rows") with false. change (field_match "cols" "cols") with true.
  rewrite !Hp by done. cbn [mbind option_bind].
  by rewrite !(proj2 (Z.ltb_lt _ _)) by lia.
Qed.

Lemma Itoa_length z : 0 ≤ z < 2 ^ 16 → Z.of_nat (length (Itoa z)) ≤ 16.
Proof.
  intros Hz. unfold Itoa. rewrite (proj2 (Z.ltb_ge z 0)), Z.abs_eq by lia. cbn [app].
  pose proof (udec_length (S (Z.to_nat (Z.log2 z))) z).
  assert (Z.log2 z < 16) by (destruct (decide (z = 0)) as [->|]; [done|apply Z.log2_lt_pow2; lia]).
  pose proof (Z.log2_nonneg z). lia.
Qed.

Lemma size_line_ok w h : size_ok w → size_ok h → line_ok (size_line w h).
Proof.
  intros Hw Hh.
  assert (Hl : ∀ z, size_ok z → x0a ∉ Itoa z).
  { intros z [Hz _] Hin. by apply Itoa_plain in Hin. }
  unfold size_line, line_ok. split_and!.
  - rewrite !not_elem_of_app. split_and!; auto; apply (bool_decide_eq_true (x0a ∉ _)); by vm_compute.
  - unfold drop_cr. by rewrite !app_assoc, reverse_app.
  - rewrite !length_app. unfold size_ok in *.
    pose proof (Itoa_length w Hw). pose proof (Itoa_length h Hh).
    change (length (jtext "{'cols': ")) with 9%nat. change (length (jtext ", 'rows': ")) with 10%nat.
    change (length (str "}")) with 1%nat. unfold max_token. lia.
Qed.

(** Every size the client announces is applied by the server, in order, the width as the
    number of columns and the height as the number of rows. *)
Theorem resize_roundtrip sizes :
  Forall (λ s, size_ok (fst s) ∧ size_ok (snd s)) sizes →
  resizes (Reader (text (map (λ s, size_line (fst s) (snd s)) sizes)) None)
  = map (λ s, (snd s, fst s)) sizes.
Proof.
  intros Hs. unfold resizes. rewrite scan_lines_text.
  - cbn [fst]. induction Hs as [|[w h] sizes [Hw Hh] _ IH]; [done|]. cbn [map omap list_omap fst snd].
    rewrite parse_winsize_line by done. cbn [mbind option_bind Rows Cols]. f_equal. exact IH.
  - apply Forall_map. eapply Forall_impl; [exact Hs|]. intros [w h] [? ?]. by apply size_line_ok.
Qed.

(** ** Sessions, shells and terminals are given back *)

Lemma exec_sh {X} (e : shE X) t x : exec (E := shE) (trigger e) t x → t = [Did e x].
Proof. by intros (y & t1 & _ & -> & [-> ->]). Qed.

(** The shell the environment names, or the standard one. *)
Definition shell_path (path : bytes) : bytes := if path =s "" then "/bin/sh" else path.

Inductive shell_life (control : nat) : list (event shE) → Prop :=
| not_spawned path e : shell_life control [Did (Getenv "SHELL") path; Did (StartPty (shell_path path)) (Some e)]
| spawned path :
    shell_life control
      [Did (Getenv "SHELL") path; Did (StartPty (shell_path path)) None; Did (GoResizes control) tt;
       Did (GoCopy "remote->pty") tt; Did (CopyAll "pty->remote") tt; Did WaitShell tt; Did CloseShell tt].

Lemma serve_shell_life control t : exec (serve_shell control) t tt → shell_life control t.
Proof.
  unfold serve_shell, spawnShell. intros (t1 & t2 & e & -> & H & Hk)%exec_bind.
  apply exec_ask in H as (path & t3 & _ & -> & ->%exec_sh). destruct e as [e|].
  - destruct Hk as [-> _]. apply not_spawned.
  - do 4 apply exec_ask in Hk as ([] & ? & _ & -> & Hk). apply exec_sh in Hk as ->. apply spawned.
Qed.

(** The whole life of a shell server: once it has a session it closes it, as its last act and
    on every path; the shell is started only when both streams are there, the first for the
    data and the second for the sizes, and when its output has ended it is waited for and
    closed. *)
Theorem shell_server_life t :
  exec runShellServer t tt →
  (∃ e, t = [Did (Yamux true) (Some e)]) ∨
  ∃ mid, t = Did (Yamux true) None :: mid ++ [Did CloseSession tt] ∧
    ((∃ e, mid = [Did AcceptStream (Err e)]) ∨
     (∃ d e, mid = [Did AcceptStream (Ok d); Did AcceptStream (Err e)]) ∨
     (∃ d c life, mid = Did AcceptStream (Ok d) :: Did AcceptStream (Ok c) :: life ∧ shell_life c life)).
Proof.
  intros ([e|] & t1 & _ & -> & H)%exec_ask; [destruct H as [-> _]; eauto|]. right.
  apply exec_ask in H as ([d|e] & t2 & _ & -> & H);
    apply exec_bind in H as (t3 & t4 & [] & -> & H & ->%exec_sh).
  - apply exec_ask in H as ([c|e] & t5 & _ & -> & H).
    + apply serve_shell_life in H. eexists (_ :: _ :: t5). split; [done|]. eauto 10.
    + destruct H as [-> _]. eexists [_; _]. split; [done|]. eauto 10.
  - destruct H as [-> _]. eexists [_]. split; [done|]. eauto.
Qed.

(** A terminal that was put into raw mode is put back, as the very last thing and whatever
    happened in between; one that was not is left alone. *)
Theorem terminal_restored t :
  exec runShellClient t tt →
  (∃ e t', t = Did MakeRaw (Some e) :: t' ∧ exec shell_session t' tt ∧ (Did RestoreTerm tt ∉ t')) ∨
  (∃ t', t = Did MakeRaw None :: t' ++ [Did RestoreTerm tt] ∧ exec shell_session t' tt ∧
     (Did RestoreTerm tt ∉ t')).
Proof.
  assert (Hfree : ∀ t, exec shell_session t tt → Did RestoreTerm tt ∉ t).
  { intros t0 H0 Hin. apply (asks_exec _ (λ X e, match e with RestoreTerm => False | _ => True end)) in H0.
    - rewrite Forall_forall in H0. by apply H0 in Hin.
    - unfold shell_session, send_size. walk. }
  intros ([e|] & t1 & _ & -> & H)%exec_ask.
  - left. eauto 10.
  - apply exec_bind in H as (t2 & t3 & [] & -> & H & ->%exec_sh). right. eauto 10.
Qed.

(** ** A running command *)

(** [runCommandServer] after [cmd.Start]: standard output goes to the connection, the
    connection to standard input, standard error to the log. *)
Module Command.

Inductive main : Type := InWaitGroup | InWait | Returned.

Record state := mkState {
  stdout : dir;
  stderr : dir;
  stdin : dir;
  stdin_closed : bool;
  exited : bool;
  top : main;
}.

Definition init : state := mkState fresh_dir fresh_dir fresh_dir false false InWaitGroup.

(** [cmd.Wait] closes the pipes when it returns. *)
Definition pipes_open (m : main) : bool := match m with Returned => false | _ => true end.

Inductive step : state → state → Prop :=
| out_moves x x' y z c e m : dstep (pipes_open m) x x' → step (mkState x y z c e m) (mkState x' y z c e m)
| err_moves x y y' z c e m : dstep (pipes_open m) y y' → step (mkState x y z c e m) (mkState x y' z c e m)
| in_moves x y z z' c e m : dstep (negb c) z z' → step (mkState x y z c e m) (mkState x y z' c e m)
| in_closes x y z e m : prog_ z ≠ Running → step (mkState x y z false e m) (mkState x y z true e m)
| process_exits x y z c m : step (mkState x y z c false m) (mkState x y z c true m)
| group_done x y z c e :
    prog_ x ≠ Running → prog_ y ≠ Running →
    step (mkState x y z c e InWaitGroup) (mkState x y z c e InWait)
| waited x y z c : step (mkState x y z c true InWait) (mkState x y z c true Returned).

Record inv (s : state) : Prop := mkInv {
  inv_out : dir_ok (stdout s);
  inv_err : dir_ok (stderr s);
  inv_in : dir_ok (stdin s);
  inv_group : top s ≠ InWaitGroup → prog_ (stdout s) ≠ Running ∧ prog_ (stderr s) ≠ Running;
  inv_exited : top s = Returned → exited s = true;
  inv_stdin : stdin_closed s = true → prog_ (stdin s) ≠ Running;
}.

Lemma command_inv_step s s' : step s s' → inv s → inv s'.
Proof.
  intros Hst [H1 H2 H3 H4 H5 H6].
  destruct Hst as [x x' y z c e m Hd|x y y' z c e m Hd|x y z z' c e m Hd| | | |]; cbn in *; split; cbn;
    eauto using dir_ok_step; try done.
  - destruct (dstep_mono _ _ _ Hd) as [_ Hp]. intros Hm. destruct (H4 Hm) as [Hx Hy].
    destruct (Hp Hx) as [-> _]. by split.
  - destruct (dstep_mono _ _ _ Hd) as [_ Hp]. intros Hm. destruct (H4 Hm) as [Hx Hy].
    destruct (Hp Hy) as [-> _]. by split.
  - destruct (dstep_mono _ _ _ Hd) as [_ Hp]. intros Hc. destruct (Hp (H6 Hc)) as [-> _]. auto.
Qed.

Lemma command_inv_reachable s : rtc step init s → inv s.
Proof.
  intros H. assert (Hinit : inv init) by (by split).
  revert Hinit. induction H; eauto using command_inv_step.
Qed.

(** C31. The client gets all the output of a command: when the server returns, the process has
    exited and, unless writing to the connection failed, everything it printed to the end of
    its output was sent; nothing was read after the pipes were closed.  What reaches its
    input is always a prefix of what the client sent, all of it once the copy finished. *)
Theorem command_output_complete s :
  rtc step init s →
  (top s = Returned → exited s = true) ∧
  (top s ≠ InWaitGroup → prog_ (stdout s) ≠ Failed →
     ended (stdout s) = true ∧ taken (stdout s) = sent (stdout s)) ∧
  (top s ≠ InWaitGroup → prog_ (stderr s) ≠ Failed →
     ended (stderr s) = true ∧ taken (stderr s) = sent (stderr s)) ∧
  taken (stdin s) `prefix_of` sent (stdin s) ∧
  (stdin_closed s = true → prog_ (stdin s) ≠ Failed → taken (stdin s) = sent (stdin s)).
Proof.
  intros [[H1 F1] [H2 F2] [H3 F3] H4 H5 H6]%command_inv_reachable.
  assert (Hfin : ∀ d, prog_ d ≠ Running → prog_ d ≠ Failed → prog_ d = Finished).
  { intros d. by destruct (prog_ d). }
  split_and!; [done|..|done|].
  - intros Hm Hf. destruct (H4 Hm) as [Hx _]. by apply F1, Hfin.
  - intros Hm Hf. destruct (H4 Hm) as [_ Hy]. by apply F2, Hfin.
  - intros Hc Hf. by apply F3, Hfin; [apply H6|].
Qed.
End Command.

(** ** Typing at a Windows shell *)

Definition win_stdin (b : byte) : bytes :=
  if beq b x0d || beq b x0a then [x0d; x0a] else if beq b x7f || beq b x08 then [x08] else [b].
Definition win_echo (b : byte) : bytes :=
  if beq b x0d || beq b x0a then [x0d; x0a] else if beq b x7f || beq b x08 then [x08; x20; x08] else [b].

Definition control (b : byte) : bool := beq b x03 || beq b x04.

Lemma win_loop_typed stdin echo p :
  forallb (λ b, negb (control b)) p = true →
  win_loop stdin echo p = (Typed, stdin ++ concat (map win_stdin p), echo ++ concat (map win_echo p)).
Proof.
  revert stdin echo; induction p as [|b p IH]; intros stdin echo; [by cbn; rewrite !app_nil_r|].
  cbn [forallb map concat win_loop]. intros [Hb Hp]%andb_true_iff. unfold control in Hb. bools.
  unfold win_stdin, win_echo. destruct (beq b x0d || beq b x0a); [by rewrite IH, <- !app_assoc|].
  destruct (beq b x7f || beq b x08); [by rewrite IH, <- !app_assoc|].
  rewrite (proj2 (beq_false b x03)), (proj2 (beq_false b x04)) by done. by rewrite IH, <- !app_assoc.
Qed.

Lemma win_loop_control stdin echo typed c rest :
  forallb (λ b, negb (control b)) typed = true → control c = true →
  win_loop stdin echo (typed ++ c :: rest) = (if beq c x03 then Kill else CloseStdin, [], []).
Proof.
  intros Ht Hc. revert stdin echo; induction typed as [|b p IH]; intros stdin echo; cbn [app win_loop].
  - by destruct c; vm_compute in Hc.
  - cbn [forallb] in Ht. apply andb_true_iff in Ht as [Hb Hp]. unfold control in Hb. bools.
    destruct (beq b x0d || beq b x0a); [by apply IH|]. destruct (beq b x7f || beq b x08); [by apply IH|].
    rewrite (proj2 (beq_false b x03)), (proj2 (beq_false b x04)) by done. by apply IH.
Qed.

(** What is typed at a Windows shell reaches it byte by byte, line ends and backspaces
    translated, and is echoed, as long as it contains neither Ctrl+C nor Ctrl+D; the count
    is that of the bytes typed, not of those written.  The first of these two keys acts
    alone: what was typed before it in the same piece is neither written nor echoed. *)
Theorem win_Write_spec p :
  snd (win_Write p) = Z.of_nat (length p) ∧
  (forallb (λ b, negb (control b)) p = true →
     fst (win_Write p) = (Typed, concat (map win_stdin p), concat (map win_echo p))) ∧
  (∀ typed rest, forallb (λ b, negb (control b)) typed = true →
     (p = typed ++ x03 :: rest → fst (win_Write p) = (Kill, [], [])) ∧
     (p = typed ++ x04 :: rest → fst (win_Write p) = (CloseStdin, [], []))).
Proof.
  split; [done|]. split; [apply win_loop_typed|]. intros typed rest Ht. unfold win_Write. cbn [fst].
  split; intros ->; by rewrite win_loop_control.
Qed.


(** ** Leaving a Windows shell *)

(** The shell's output reaches the server through an [io.Pipe] that two goroutines write to,
    one per output stream of the process; only [windowsShell.Close] closes the pipe. *)
Module WinShell.

Inductive main : Type := CopyingOut | InWait | Closed.

Record state := mkState {
  exited : bool;
  out_copier : bool;
  err_copier : bool;
  pipe_open : bool;
  peer_up : bool;
  top : main;
}.

Definition init : state := mkState false true true true true CopyingOut.

Inductive step : state → state → Prop :=
| child_exits o e p u m : step (mkState false o e p u m) (mkState true o e p u m)
| out_ends e p u m : step (mkState true true e p u m) (mkState true false e p u m)
| err_ends o p u m : step (mkState true o true p u m) (mkState true o false p u m)
| peer_leaves x o e p m : step (mkState x o e p true m) (mkState x o e p false m)
| read_ends x o e u : step (mkState x o e false u CopyingOut) (mkState x o e false u InWait)
| write_fails x o e p : step (mkState x o e p false CopyingOut) (mkState x o e p false InWait)
| waited o e p u : step (mkState true o e p u InWait) (mkState true o e false u Closed).

(** The server never learns that a Windows shell is gone: the process has exited and both of
    its outputs have ended, and as long as the client stays the server goes on reading. *)
Lemma windows_exit_hangs :
  ∃ s, rtc step init s ∧ exited s = true ∧ out_copier s = false ∧ err_copier s = false ∧
    ∀ s', rtc step s s' → peer_up s' = true → top s' = CopyingOut.
Proof.
  exists (mkState true false false true true CopyingOut). split_and!; [|done..|].
  - eapply rtc_l; [apply child_exits|]. eapply rtc_l; [apply out_ends|]. eapply rtc_l; [apply err_ends|]. done.
  - intros s' H.
    assert (Hinv : ∀ s s', rtc step s s' → (peer_up s = true → top s = CopyingOut ∧ pipe_open s = true) →
      peer_up s' = true → top s' = CopyingOut ∧ pipe_open s' = true).
    { clear. intros s s' H. induction H as [|s1 s2 s3 Hst _ IH]; [auto|]. intros H1. apply IH.
      destruct Hst; cbn in *; intros Hu; try done; try (by apply H1); destruct (H1 Hu); done. }
    intros Hu. by apply (Hinv _ _ H).
Qed.
End WinShell.

(** ** Leaving an idle shell *)

(** The server of a shell on UNIX: the client, the copy towards the shell, the shell itself,
    and the server, which reads the shell's output, waits for it and closes the terminal. *)
Module PtyServer.

Inductive main : Type := CopyingOut | InWait | Closed.

Record state := mkState { client_up : bool; input_copier : bool; shell_up : bool; top : main }.

Definition init : state := mkState true true true CopyingOut.

Inductive actor : Type := Client | Server | TheShell.

Inductive step : actor → state → state → Prop :=
| client_leaves i h m : step Client (mkState true i h m) (mkState false i h m)
| input_ends h m : step Server (mkState false true h m) (mkState false false h m)
| prints_unheard i : step TheShell (mkState false i true CopyingOut) (mkState false i true InWait)
| shell_exits c i m : step TheShell (mkState c i true m) (mkState c i false m)
| output_ends c i : step Server (mkState c i false CopyingOut) (mkState c i false InWait)
| waited c i : step Server (mkState c i false InWait) (mkState c i false Closed).

(** When its client goes away while the shell waits for input, the server does nothing any
    more: it keeps the shell and its terminal until the shell itself prints or exits. *)
Lemma idle_shell_left :
  ∃ s, rtc (λ s s', ∃ a, step a s s') init s ∧ client_up s = false ∧ input_copier s = false ∧
    shell_up s = true ∧ ∀ a s', step a s s' → a = TheShell.
Proof.
  exists (mkState false false true CopyingOut). split_and!; [|done..|].
  - eapply rtc_l; [eexists; apply client_leaves|]. eapply rtc_l; [eexists; apply input_ends|]. done.
  - intros a s' Hst. by inversion Hst.
Qed.
End PtyServer.

(** ** The theorems at concrete inputs *)

Lemma resize_roundtrip_witness :
  resizes (Reader (text (map (λ s, size_line (fst s) (snd s)) [(80, 24); (132, 43)])) None) = [(24, 80); (43, 132)].
Proof.
  apply (resize_roundtrip [(80, 24); (132, 43)]). unfold size_ok. repeat constructor; cbn; lia.
Defined.

(** Everything works; the terminal is one. *)
Definition smooth_sh : handler shE unit := λ X e s,
  match e in shE X return X * unit with
  | Yamux _ | StartPty _ | MakeRaw | PipeFor _ | StartCmd | WaitCmd => (None, s)
  | AcceptStream | OpenStream => (Ok 1%nat, s)
  | Getenv _ => (str "/bin/bash", s)
  | GetSize => (Some (80, 24), s)
  | CloseSession | CloseShell | WaitShell | GoResizes _ | GoCopy _ | CopyAll _ | RestoreTerm
  | SendControl _ _ | GoTerminalResize _ | Command _ _ | GoLogStderr | GoStdin | GoStdout | WaitGroup => (tt, s)
  end.

Definition client_trace : list (event shE) := trace_of (H := sh_effect) smooth_sh runShellClient tt.
Definition server_trace : list (event shE) := trace_of (H := sh_effect) smooth_sh runShellServer tt.

Lemma terminal_restored_witness :
  (∃ e t', client_trace = Did MakeRaw (Some e) :: t' ∧ exec shell_session t' tt ∧ (Did RestoreTerm tt ∉ t')) ∨
  (∃ t', client_trace = Did MakeRaw None :: t' ++ [Did RestoreTerm tt] ∧ exec shell_session t' tt ∧
     (Did RestoreTerm tt ∉ t')).
Proof.
  apply (terminal_restored client_trace).
  exact (run_exec (E := shE) smooth_sh runShellClient tt (λ _ _ _, I)).
Defined.

Lemma shell_server_life_witness :
  (∃ e, server_trace = [Did (Yamux true) (Some e)]) ∨
  ∃ mid, server_trace = Did (Yamux true) None :: mid ++ [Did CloseSession tt] ∧
    ((∃ e, mid = [Did AcceptStream (Err e)]) ∨
     (∃ d e, mid = [Did AcceptStream (Ok d); Did AcceptStream (Err e)]) ∨
     (∃ d c life, mid = Did AcceptStream (Ok d) :: Did AcceptStream (Ok c) :: life ∧ shell_life c life)).
Proof.
  apply (shell_server_life server_trace).
  exact (run_exec (E := shE) smooth_sh runShellServer tt (λ _ _ _, I)).
Defined.

Definition echoed : Command.state :=
  Command.mkState (mkDir "ok" true "ok" Finished) (mkDir [] true [] Finished) fresh_dir false true Command.Returned.

Lemma command_output_complete_witness :
  (Command.top echoed = Command.Returned → Command.exited echoed = true) ∧
  (Command.top echoed ≠ Command.InWaitGroup → prog_ (Command.stdout echoed) ≠ Failed →
     ended (Command.stdout echoed) = true ∧ taken (Command.stdout echoed) = sent (Command.stdout echoed)) ∧
  (Command.top echoed ≠ Command.InWaitGroup → prog_ (Command.stderr echoed) ≠ Failed →
     ended (Command.stderr echoed) = true ∧ taken (Command.stderr echoed) = sent (Command.stderr echoed)) ∧
  taken (Command.stdin echoed) `prefix_of` sent (Command.stdin echoed) ∧
  (Command.stdin_closed echoed = true → prog_ (Command.stdin echoed) ≠ Failed →
     taken (Command.stdin echoed) = sent (Command.stdin echoed)).
Proof.
  apply (Command.command_output_complete echoed).
  eapply rtc_l; [apply Command.out_moves, (d_send _ [] [] Running "ok")|].
  eapply rtc_l; [apply Command.out_moves, (d_copy _ _ _ [] "ok" []); done|].
  eapply rtc_l; [apply Command.process_exits|].
  eapply rtc_l; [apply Command.out_moves, d_end|]. eapply rtc_l; [by apply Command.out_moves, d_finish|].
  eapply rtc_l; [apply Command.err_moves, d_end|]. eapply rtc_l; [by apply Command.err_moves, d_finish|].
  eapply rtc_l; [by apply Command.group_done|]. eapply rtc_l; [apply Command.waited|]. done.
Defined.
