(* ===== verification/ShellSession.v ===== *)
(** * Shell sessions (shell.go, shell_pty_unix.go, shell_pty_windows.go)

    [ShellSession], the interface the shell's server is written against, and its two
    implementations: on UNIX the process's terminal, on Windows the process with its pipes,
    an [io.Pipe] for what the client is to see, and a mutex around the writes to it.  What
    the server does is in Shell.v. *)

From S2P Require Import Prelude Effects Shell.

(** ** The interface *)

(** What the implementations ask the system for. *)
Inductive sessE : Type → Type :=
| PtmxRead (n : Z) : sessE (bytes * option error)
| PtmxWrite (p : bytes) : sessE (Z * option error)
| PtmxClose : sessE (option error)
| Setsize (rows cols : Z) : sessE (option error)
| CmdWait : sessE (option error)
| OutRead (n : Z) : sessE (bytes * option error)
| OutWrite (p : bytes) : sessE unit
| OutClose : sessE unit
| Lock : sessE unit
| Unlock : sessE unit
| StdinWrite (p : bytes) : sessE unit
| StdinClose : sessE unit
| StdoutClose : sessE unit
| ProcessKill : sessE (option error).

#[global] Instance sess_effect : Effect sessE := recording sessE (λ _ _ _, True).

Class ShellSession := {
  Read : Z → prog sessE (bytes * option error);
  Write : bytes → prog sessE (Z * option error);
  Close : prog sessE (option error);
  Wait : prog sessE (option error);
  Resize : Z → Z → prog sessE (option error);
}.

(** ** UNIX *)

#[global] Instance unixShell : ShellSession := {
  Read n := trigger (PtmxRead n);
  Write p := trigger (PtmxWrite p);
  Close := trigger PtmxClose;
  Wait := trigger CmdWait;
  Resize rows cols := trigger (Setsize rows cols);
}.

(** ** Windows *)

(** [pw.Write] and [outWriter.Write] under the mutex. *)
Definition locked_write (p : bytes) : prog sessE unit :=
  trigger Lock ;;; trigger (OutWrite p) ;;; trigger Unlock.

Definition windows_Write (p : bytes) : prog sessE (Z * option error) :=
  let '(act, stdin, echo, n) := win_Write p in
  match act with
  | Kill => trigger ProcessKill ;;; Ret (n, None)
  | CloseStdin => trigger StdinClose ;;; Ret (n, None)
  | Typed =>
      (if (0 <? length stdin)%nat then trigger (StdinWrite stdin) else Ret tt) ;;;
      (if (0 <? length echo)%nat then locked_write echo else Ret tt) ;;;
      Ret (n, None)
  end.

(** The process has been started when there is a session. *)
Definition windows_Close : prog sessE (option error) :=
  trigger StdinClose ;;; trigger StdoutClose ;;; trigger OutClose ;;; trigger ProcessKill.

Definition windows_Wait : prog sessE (option error) := trigger CmdWait.

(** The pipes of a process have no size. *)
Definition windows_Resize (rows cols : Z) : prog sessE (option error) := Ret None.

#[global] Instance windowsShell : ShellSession := {
  Read n := trigger (OutRead n);
  Write := windows_Write;
  Close := windows_Close;
  Wait := windows_Wait;
  Resize := windows_Resize;
}.

(** One round of the goroutine that copies an output of the process, after a read that gave
    [buf]; whether it goes on. *)
Definition copy_round (buf : bytes) (err : option error) : prog sessE bool :=
  (if (0 <? length buf)%nat then locked_write buf else Ret tt) ;;;
  Ret (match err with Some _ => false | None => true end).

(** ** What a session promises *)

(** The mutex along a history: [None] when it was locked twice or unlocked while free. *)
Fixpoint holds (locked : bool) (t : list (event sessE)) : option bool :=
  match t with
  | [] => Some locked
  | Did Lock _ :: t => if locked then None else holds true t
  | Did Unlock _ :: t => if locked then holds false t else None
  | Did (OutWrite _) _ :: t => if locked then holds locked t else None
  | _ :: t => holds locked t
  end.

Lemma holds_app l t t' l' : holds l t = Some l' → holds l (t ++ t') = holds l' t'.
Proof.
  revert l; induction t as [|[X e x] t IH]; intros l; [by intros [= ->]|].
  destruct e; cbn; try apply IH; destruct l; done || apply IH.
Qed.

(** What the process and the client got. *)
Definition to_process (t : list (event sessE)) : bytes :=
  concat (map (λ e, match e with Did (StdinWrite p) _ => p | _ => [] end) t).
Definition to_client (t : list (event sessE)) : bytes :=
  concat (map (λ e, match e with Did (OutWrite p) _ => p | _ => [] end) t).

Lemma exec_sess {X} (e : sessE X) t x : exec (E := sessE) (trigger e) t x → t = [Did e x].
Proof. by intros (y & t1 & _ & -> & [-> ->]). Qed.

Lemma exec_locked_write p t r : exec (locked_write p) t r → t = [Did Lock tt; Did (OutWrite p) tt; Did Unlock tt].
Proof.
  intros H. apply exec_ask in H as ([] & t1 & _ & -> & H). apply exec_ask in H as ([] & t2 & _ & -> & H).
  apply exec_sess in H as ->. by destruct r.
Qed.

(** A piece that is written, or nothing when there is nothing. *)
Lemma exec_unless_empty (p : bytes) (w : prog sessE unit) t r :
  exec (if (0 <? length p)%nat then w else Ret tt) t r → (p ≠ [] ∧ exec w t r) ∨ (p = [] ∧ t = []).
Proof. destruct p; cbn; [intros [-> _]; auto|]. left. by split. Qed.

Lemma first_control p :
  forallb (λ b, negb (control b)) p = false →
  ∃ typed c rest, p = typed ++ c :: rest ∧ forallb (λ b, negb (control b)) typed = true ∧ control c = true.
Proof.
  induction p as [|b p IH]; [done|]. cbn. destruct (control b) eqn:Eb; cbn; [by exists [], b, p|].
  intros (typed & c & rest & -> & Ht & Hc)%IH. exists (b :: typed), c, rest. cbn. by rewrite Eb.
Qed.

(** Everything that is typed on Windows is reported as written, without an error.  Unless a
    control key is among it, the process and the client get the translations of all of it;
    the pipe the server reads from is written to only with the mutex held, which is free
    again afterwards. *)
Theorem windows_Write_sound p t r :
  exec (Write (ShellSession := windowsShell) p) t r →
  r = (Z.of_nat (length p), None) ∧ holds false t = Some false ∧
  (if forallb (λ b, negb (control b)) p
   then to_process t = concat (map win_stdin p) ∧ to_client t = concat (map win_echo p)
   else to_process t = [] ∧ to_client t = []).
Proof.
  cbn [Write windowsShell]. unfold windows_Write, win_Write.
  destruct (forallb _ p) eqn:Ep.
  - rewrite win_loop_typed by done. cbn [app].
    intros (t1 & t2 & [] & -> & H1%exec_unless_empty & H)%exec_bind.
    apply exec_bind in H as (t3 & t4 & [] & -> & H2%exec_unless_empty & [-> ->]). split; [done|].
    destruct H1 as [[_ ->%exec_sess]|[-> ->]], H2 as [[_ ->%exec_locked_write]|[-> ->]];
      unfold to_process, to_client; cbn; by rewrite ?app_nil_r.
  - destruct (first_control p Ep) as (typed & c & rest & -> & Ht & Hc). rewrite win_loop_control by done.
    destruct (beq c x03); intros H; apply exec_ask in H as (? & ? & _ & -> & [-> ->]); by split.
Qed.

(** Closing a session gives back all it holds: the terminal on UNIX, the process and both
    ends of its pipes on Windows, whatever the system answers. *)
Theorem session_released t r :
  (exec (Close (ShellSession := unixShell)) t r → t = [Did PtmxClose r]) ∧
  (exec (Close (ShellSession := windowsShell)) t r →
     t = [Did StdinClose tt; Did StdoutClose tt; Did OutClose tt; Did ProcessKill r]).
Proof.
  split; [apply exec_sess|]. intros H. do 3 apply exec_ask in H as ([] & ? & _ & -> & H).
  by apply exec_sess in H as ->.
Qed.

(** ** The two goroutines and the echo take turns *)

(** Rounds of the copies and of [Write], one after the other on the mutex: whatever the
    order, each piece reaches the client in one. *)
Lemma copy_round_whole buf err t b :
  exec (copy_round buf err) t b → holds false t = Some false ∧ to_client t = buf ∧ (b = false ↔ err ≠ None).
Proof.
  intros (t1 & t2 & [] & -> & H%exec_unless_empty & [-> ->])%exec_bind.
  destruct H as [[_ ->%exec_locked_write]|[-> ->]]; (split; [done|]); unfold to_client; cbn;
    rewrite ?app_nil_r; (split; [done|]); by destruct err.
Qed.
