(* ===== verification/OpenPGP.v ===== *)
(** * The OpenPGP key of the APT repository

    The packet encoder of [scripts/openpgp_key.go]: multiprecision integers, the key,
    user-ID and signature packets, and ASCII armor.  Readers written from RFC 4880
    ([read_mpi], [read_packet], [certifies], [dearmor]) state what the output has to be;
    the encoder is proved against them.  SHA-1, SHA-256 and Ed25519 are parameters. *)

From S2P Require Import Prelude GoStrings Effects.

(** ** Integers and packets *)

Definition pgpTagSignature : Z := 2.
Definition pgpTagSecretKey : Z := 5.
Definition pgpTagPublicKey : Z := 6.
Definition pgpTagUserID : Z := 13.
Definition pgpAlgoEdDSA : Z := 22.
Definition pgpHashSHA256 : Z := 8.
Definition pgpSigTypePosit : Z := 0x13.
Definition pgpKeyCreationTime : Z := 1704067200.
Definition pgpUserID : bytes := "Syncthing LUKS APT repository <noreply@github.com>".
Definition ed25519OID : bytes := [x2b; x06; x01; x04; x01; xda; x47; x0f; x01].

Abbreviation len b := (Z.of_nat (length b)).

(** The loop of [leadingZeros8], from bit [k - 1] down. *)
Fixpoint zeros_below (k : nat) (x : byte) : Z :=
  match k with
  | O => 0
  | S i => if negb (Z.land (byteZ x) (Z.shiftl 1 (Z.of_nat i)) =? 0) then 0
           else 1 + zeros_below i x
  end.

Definition leadingZeros8 (x : byte) : Z := zeros_below 8 x.

Fixpoint strip_zeros (b : bytes) : bytes :=
  match b with
  | [] => []
  | x :: b' => if beq x x00 then strip_zeros b' else b
  end.

Definition mpi (b : bytes) : bytes :=
  match strip_zeros b with
  | [] => [x00; x00]
  | (x :: _) as b =>
      let bits := (len b - 1) * 8 + (8 - leadingZeros8 x) in
      be_bytes 2 (u16 bits) ++ b
  end.

Definition packet (tag : Z) (body : bytes) : bytes :=
  let n := len body in
  [Zbyte (Z.lor 0xC0 tag)] ++
  (if n <? 192 then [Zbyte n]
   else if n <? 8384 then [Zbyte ((n - 192) / 256 + 192); Zbyte ((n - 192) mod 256)]
   else [xff] ++ be_bytes 4 (u32 n)) ++
  body.

Definition subpacket (typ : Z) (data : bytes) : bytes :=
  let body := [Zbyte typ] ++ data in
  [Zbyte (len body)] ++ body.

(** [publicKeyBody]. *)
Definition publicKeyBody (pub : bytes) : bytes :=
  [x04] ++ be_bytes 4 pgpKeyCreationTime ++ [Zbyte pgpAlgoEdDSA] ++
  [Zbyte (len ed25519OID)] ++ ed25519OID ++ mpi ([x40] ++ pub).

(** An [ed25519.PrivateKey] is the seed followed by the public key. *)
Definition Seed (priv : bytes) : bytes := take 32 priv.
Definition Public (priv : bytes) : bytes := drop 32 priv.

(** The sum of the bytes, in a [uint16]. *)
Definition checksum (b : bytes) : Z := fold_left (λ sum c, u16 (sum + byteZ c)) b 0.

Definition secretKeyBody (priv : bytes) : bytes :=
  let secret := mpi (Seed priv) in
  publicKeyBody (Public priv) ++ [x00] ++ secret ++ be_bytes 2 (checksum secret).

Section Crypto.
Context (sha1 sha256 : bytes → bytes) (Sign : bytes → bytes → bytes).

Definition fingerprint (pub : bytes) : bytes :=
  let body := publicKeyBody pub in
  sha1 ([x99] ++ be_bytes 2 (u16 (len body)) ++ body).

Definition keyID (pub : bytes) : bytes := drop 12 (fingerprint pub).

(** The signed fields of the self-signature, from the version to the hashed
    subpackets. *)
Definition signed_fields (pub : bytes) : bytes :=
  let hashed := subpacket 2 (be_bytes 4 pgpKeyCreationTime) ++ subpacket 27 [x03] ++
                subpacket 33 ([x04] ++ fingerprint pub) in
  [x04; Zbyte pgpSigTypePosit; Zbyte pgpAlgoEdDSA; Zbyte pgpHashSHA256] ++
  be_bytes 2 (u16 (len hashed)) ++ hashed.

Definition signature_digest (pub uid : bytes) : bytes :=
  let signed := signed_fields pub in
  let keyBody := publicKeyBody pub in
  sha256 ([x99] ++ be_bytes 2 (u16 (len keyBody)) ++ keyBody ++
          [xb4] ++ be_bytes 4 (u32 (len uid)) ++ uid ++ signed ++
          [x04; xff] ++ be_bytes 4 (u32 (len signed))).

Definition selfSignature (priv uid : bytes) : bytes :=
  let pub := Public priv in
  let digest := signature_digest pub uid in
  let sig := Sign priv digest in
  let unhashed := subpacket 16 (keyID pub) in
  packet pgpTagSignature
    (signed_fields pub ++ be_bytes 2 (u16 (len unhashed)) ++ unhashed ++
     take 2 digest ++ mpi (take 32 sig) ++ mpi (drop 32 sig)).

Definition transferableSecretKey (priv : bytes) : bytes :=
  packet pgpTagSecretKey (secretKeyBody priv) ++ packet pgpTagUserID pgpUserID ++
  selfSignature priv pgpUserID.

Definition transferablePublicKey (priv : bytes) : bytes :=
  packet pgpTagPublicKey (publicKeyBody (Public priv)) ++ packet pgpTagUserID pgpUserID ++
  selfSignature priv pgpUserID.
End Crypto.

(** ** Armor *)

(** One turn of the inner loop of [crc24]. *)
Definition crc_bit (crc : Z) : Z :=
  let crc := u32 (Z.shiftl crc 1) in
  if negb (Z.land crc 0x1000000 =? 0) then Z.lxor crc 0x1864CFB else crc.

Definition crc_byte (crc : Z) (b : byte) : Z :=
  Nat.iter 8 crc_bit (Z.lxor crc (u32 (Z.shiftl (byteZ b) 16))).

Definition crc24 (data : bytes) : Z := Z.land (fold_left crc_byte data 0xB704CE) 0xFFFFFF.

Definition b64 : bytes := "ABCDEFGHIJKLMNOPQRSTUVWXYZabcdefghijklmnopqrstuvwxyz0123456789+/".

Definition b64_char (v : Z) : byte := nth (Z.to_nat (Z.land v 0x3F)) b64 x00.

(** The four characters of a group of [n] bytes. *)
Definition quad (b0 b1 b2 : byte) (n : nat) : bytes :=
  let v := Z.lor (Z.lor (Z.shiftl (byteZ b0) 16) (Z.shiftl (byteZ b1) 8)) (byteZ b2) in
  [b64_char (Z.shiftr v 18); b64_char (Z.shiftr v 12);
   if (1 <? n)%nat then b64_char (Z.shiftr v 6) else "="%byte;
   if (2 <? n)%nat then b64_char v else "="%byte].

Fixpoint encode64 (src : bytes) : bytes :=
  match src with
  | [] => []
  | [b0] => quad b0 x00 x00 1
  | [b0; b1] => quad b0 b1 x00 2
  | b0 :: b1 :: b2 :: src => quad b0 b1 b2 3 ++ encode64 src
  end.

(** [body[i:i+64]] for [i] a multiple of 64; the list is as long as [fuel] lets it. *)
Fixpoint lines64 (fuel : nat) (body : bytes) : list bytes :=
  match fuel, body with
  | S fuel, _ :: _ => take 64 body :: lines64 fuel (drop 64 body)
  | _, _ => []
  end.

(** The writes of [armor], in order. *)
Definition armor_writes (blockType data : bytes) : list bytes :=
  let body := encode64 data in
  let c := crc24 data in
  [str "-----BEGIN " ++ blockType ++ str "-----" ++ [x0a; x0a]] ++
  map (λ l, l ++ [x0a]) (lines64 (length body) body) ++
  [str "=" ++ encode64 [Zbyte (Z.shiftr c 16); Zbyte (Z.shiftr c 8); Zbyte c] ++ [x0a] ++
   str "-----END " ++ blockType ++ str "-----" ++ [x0a]].

(** What [armor] asks of its writer. *)
Inductive writeE : Type → Type :=
| Put (b : bytes) : writeE (option error).

(** It stops at the first write that fails. *)
Fixpoint put_all (ws : list bytes) : prog writeE (option error) :=
  match ws with
  | [] => Ret None
  | w :: ws => r <- trigger (Put w) ;; match r with Some e => Ret (Some e) | None => put_all ws end
  end.

Definition armor (blockType data : bytes) : prog writeE (option error) :=
  put_all (armor_writes blockType data).

(** A [strings.Builder]: every write is kept. *)
Definition builder : handler writeE bytes := λ X e s,
  match e in writeE X return X * bytes with Put b => (None, s ++ b) end.

Definition armored (blockType data : bytes) : bytes := snd (run builder (armor blockType data) []).

Example mpi_ex : mpi [x00; x01; xff] = [x00; x09; x01; xff].
Proof. by vm_compute. Qed.

Example crc_ex : crc24 "123456789" = 0x21CF02.
Proof. by vm_compute. Qed.

Example encode_ex : encode64 "hello" = str "aGVsbG8=".
Proof. by vm_compute. Qed.

(** ** Reading it back, after RFC 4880 *)

(** Section 3.2: the bit count is that of the value, which takes as few bytes as it
    can. *)
Definition bit_count (v : Z) : Z := if v =? 0 then 0 else Z.log2 v + 1.

Definition read_mpi (inp : bytes) : option (Z * bytes) :=
  match inp with
  | a :: b :: rest =>
      let bits := be_val 0 [a; b] in
      let n := Z.to_nat ((bits + 7) / 8) in
      let v := be_val 0 (take n rest) in
      if (n <=? length rest)%nat && (bit_count v =? bits) then Some (v, drop n rest) else None
  | _ => None
  end.

(** Section 4.2: a new-format packet, with its tag. *)
Definition read_packet (inp : bytes) : option (Z * bytes * bytes) :=
  '(t, inp) ← (match inp with t :: inp => Some (byteZ t, inp) | [] => None end);
  '(n, inp) ← (match inp with
               | l :: inp =>
                   if byteZ l <? 192 then Some (byteZ l, inp)
                   else if byteZ l <? 224 then
                     match inp with
                     | m :: inp => Some ((byteZ l - 192) * 256 + byteZ m + 192, inp)
                     | [] => None
                     end
                   else if byteZ l =? 255 then
                     if (4 <=? length inp)%nat then Some (be_val 0 (take 4 inp), drop 4 inp) else None
                   else None
               | [] => None
               end);
  if (Z.land t 0xC0 =? 0xC0) && (n <=? len inp)
  then Some (Z.land t 0x3F, take (Z.to_nat n) inp, drop (Z.to_nat n) inp) else None.

Lemma leadingZeros8_log2 x : x ≠ x00 → leadingZeros8 x = 7 - Z.log2 (byteZ x).
Proof. by destruct x. Qed.

Lemma byteZ_pos x : x ≠ x00 → 0 < byteZ x.
Proof. by destruct x. Qed.

Lemma strip_zeros_val b : be_val 0 (strip_zeros b) = be_val 0 b.
Proof.
  induction b as [|x b IH]; [done|]. cbn [strip_zeros].
  destruct (beq x x00) eqn:E; [|done]. apply beq_true in E as ->. exact IH.
Qed.

Lemma strip_zeros_head b x c : strip_zeros b = x :: c → x ≠ x00.
Proof.
  induction b as [|y b IH]; [done|]. cbn [strip_zeros].
  destruct (beq y x00) eqn:E; [exact IH|]. intros [= -> ->]. by apply beq_false.
Qed.

Lemma strip_zeros_length b : (length (strip_zeros b) ≤ length b)%nat.
Proof. induction b as [|x b IH]; [done|]. cbn. destruct (beq x x00); cbn; lia. Qed.

Lemma be_val_log2 x c : x ≠ x00 → Z.log2 (be_val 0 (x :: c)) = 8 * len c + Z.log2 (byteZ x).
Proof.
  intros Hx%byteZ_pos. cbn [be_val]. rewrite be_val_acc, Z.mul_0_l, Z.add_0_l.
  pose proof (be_val_bound c). pose proof (Z.log2_spec _ Hx) as [Hl Hu].
  assert (H256 : 256 ^ len c = 2 ^ (8 * len c)) by (rewrite Z.pow_mul_r by lia; done).
  pose proof (Z.log2_nonneg (byteZ x)).
  apply Z.log2_unique; [lia|]. rewrite H256 in *.
  rewrite <- Z.add_succ_r. rewrite !Z.pow_add_r by lia. nia.
Qed.

Lemma read_mpi_mpi b rest :
  len b < 8192 → read_mpi (mpi b ++ rest) = Some (be_val 0 b, rest).
Proof.
  intros Hb. unfold mpi. pose proof (strip_zeros_length b).
  rewrite <- strip_zeros_val. destruct (strip_zeros b) as [|x c] eqn:E; [done|].
  apply strip_zeros_head in E. cbn [length] in *.
  rewrite leadingZeros8_log2 by done. pose proof (byteZ_pos _ E) as Hx.
  pose proof (byteZ_range x).
  assert (Hl : 0 ≤ Z.log2 (byteZ x) ≤ 7).
  { split; [apply Z.log2_nonneg|]. apply Z.lt_succ_r, Z.log2_lt_pow2; lia. }
  set (bits := (Z.of_nat (S (length c)) - 1) * 8 + (8 - (7 - Z.log2 (byteZ x)))).
  assert (Hbits : bits = len c * 8 + Z.log2 (byteZ x) + 1) by (unfold bits; lia).
  clearbody bits. replace (u16 bits) with bits by (unfold u16; rewrite Z.mod_small; lia).
  pose proof (be_bytes_length 2 bits) as Hlen. pose proof (be_val_bytes 2 bits) as Hval.
  change (256 ^ Z.of_nat 2) with 65536 in Hval. rewrite Z.mod_small in Hval by lia.
  destruct (be_bytes 2 bits) as [|a [|a' [|]]]; try done. cbn [app read_mpi].
  rewrite Hval. replace (Z.to_nat ((bits + 7) / 8)) with (length (x :: c)).
  2: { cbn [length]. replace (bits + 7) with (Z.log2 (byteZ x) + Z.of_nat (S (length c)) * 8) by lia.
       rewrite Z.div_add, Z.div_small by lia. lia. }
  change (x :: c ++ rest) with ((x :: c) ++ rest). rewrite take_app_length, drop_app_length.
  rewrite length_app. rewrite (proj2 (Nat.leb_le _ _)) by lia. cbn [andb].
  assert (Hc : bit_count (be_val 0 (x :: c)) = bits).
  { unfold bit_count. pose proof (be_val_log2 x c E) as H2. destruct (_ =? 0) eqn:Ez.
    - apply Z.eqb_eq in Ez. rewrite Ez in H2. exfalso. cbn [be_val] in Ez.
      rewrite be_val_acc in Ez. pose proof (be_val_bound c). nia.
    - rewrite H2. lia. }
  by rewrite Hc, Z.eqb_refl.
Qed.

Lemma tag_byte tag :
  0 ≤ tag < 64 →
  Z.land (byteZ (Zbyte (Z.lor 0xC0 tag))) 0xC0 = 0xC0 ∧
  Z.land (byteZ (Zbyte (Z.lor 0xC0 tag))) 0x3F = tag.
Proof.
  intros Ht. rewrite <- (Z2Nat.id tag) by lia.
  assert (Hk : (Z.to_nat tag < 64)%nat) by lia. revert Hk.
  generalize (Z.to_nat tag) as k. intros k Hk.
  do 64 (destruct k as [|k]; [done|]). lia.
Qed.

Lemma byteZ_small z : 0 ≤ z < 256 → byteZ (Zbyte z) = z.
Proof. intros Hz. rewrite byteZ_Zbyte. by apply Z.mod_small. Qed.

Lemma packet_body tag (body rest : bytes) :
  0 ≤ tag < 64 →
  let t := byteZ (Zbyte (Z.lor 0xC0 tag)) in
  (if (Z.land t 0xC0 =? 0xC0) && (len body <=? len (body ++ rest))
   then Some (Z.land t 0x3F, take (Z.to_nat (len body)) (body ++ rest),
              drop (Z.to_nat (len body)) (body ++ rest)) else None)
  = Some (tag, body, rest).
Proof.
  intros Ht t. destruct (tag_byte tag Ht) as [H1 H2]. unfold t.
  rewrite H1, H2, length_app, (proj2 (Z.leb_le _ _)) by lia. cbn [andb Z.eqb].
  by rewrite Nat2Z.id, take_app_length, drop_app_length.
Qed.

Lemma read_packet_packet tag body rest :
  0 ≤ tag < 64 → len body < 2 ^ 32 →
  read_packet (packet tag body ++ rest) = Some (tag, body, rest).
Proof.
  intros Ht Hb. unfold packet, read_packet.
  rewrite <- !app_assoc. cbn [app mbind option_bind].
  destruct (len body <? 192) eqn:E1; [|destruct (len body <? 8384) eqn:E2]; bools; cbn [app].
  - rewrite (byteZ_small (len body)) by lia. rewrite (proj2 (Z.ltb_lt _ _)) by done.
    by apply packet_body.
  - assert (Hq : 0 ≤ (len body - 192) / 256 < 32).
    { split; [apply Z.div_pos; lia|]. apply Z.div_lt_upper_bound; lia. }
    pose proof (Z.mod_pos_bound (len body - 192) 256 ltac:(lia)).
    rewrite (byteZ_small (_ + 192)), (byteZ_small (_ mod _)) by lia.
    rewrite (proj2 (Z.ltb_ge _ 192)) by lia. rewrite (proj2 (Z.ltb_lt _ 224)) by lia.
    cbn [mbind option_bind]. replace (_ + 192) with (len body).
    2: { pose proof (Z.div_mod (len body - 192) 256). lia. }
    by apply packet_body.
  - change (byteZ xff) with 255.
    change (255 <? 192) with false. change (255 <? 224) with false. change (255 =? 255) with true.
    unfold u32. rewrite Z.mod_small by lia. cbv iota.
    rewrite !length_app, be_bytes_length. cbn [Nat.add Nat.leb].
    rewrite take_app_length', drop_app_length' by (by rewrite be_bytes_length).
    cbn [mbind option_bind]. rewrite be_val_bytes. change (256 ^ Z.of_nat 4) with (2 ^ 32).
    rewrite Z.mod_small by lia. by apply packet_body.
Qed.

(** Section 5.5.2: the public key at the start of a key packet, and what follows it. *)
Definition read_public (body : bytes) : option (bytes * bytes) :=
  if take 16 body =s [x04] ++ be_bytes 4 pgpKeyCreationTime ++ [x16; x09] ++ ed25519OID then
    '(v, rest) ← read_mpi (drop 16 body);
    match be_bytes 33 v with
    | x40 :: pub => if v <? 256 ^ 33 then Some (pub, rest) else None
    | _ => None
    end
  else None.

(** Section 5.5.3: an unencrypted secret key is an integer and its checksum. *)
Definition read_secret (rest : bytes) : option bytes :=
  match rest with
  | x00 :: rest =>
      '(v, sum) ← read_mpi rest;
      if be_bytes 2 (checksum (take (length rest - 2) rest)) =s sum
      then Some (be_bytes 32 v) else None
  | _ => None
  end.

Section Certification.
Context (sha256 : bytes → bytes) (verify : bytes → bytes → bytes → bool).

(** Section 5.2.4: does this version 4 signature by the key [pub], whose packet is
    [keyBody], certify [uid]? *)
Definition certifies (keyBody pub uid body : bytes) : option unit :=
  let n := Z.to_nat (be_val 0 (take 2 (drop 4 body))) in
  let signed := take (6 + n) body in
  let unhashed := drop (6 + n) body in
  let m := Z.to_nat (be_val 0 (take 2 unhashed)) in
  let rest := drop (2 + m) unhashed in
  let digest := sha256 ([x99] ++ be_bytes 2 (len keyBody) ++ keyBody ++
                        [xb4] ++ be_bytes 4 (len uid) ++ uid ++ signed ++
                        [x04; xff] ++ be_bytes 4 (len signed)) in
  '(r, rest') ← read_mpi (drop 2 rest);
  '(s, rest') ← read_mpi rest';
  if (take 4 body =s [x04; x13; x16; x08]) && (length signed =? 6 + n)%nat &&
     (rest' =s []) && (take 2 digest =s take 2 rest) &&
     verify pub digest (be_bytes 32 r ++ be_bytes 32 s)
  then Some tt else None.

(** A key packet, a user ID and a signature by that key: the public key, the secret one
    if it is there, and the user. *)
Definition read_keyring (inp : bytes) : option (bytes * option bytes * bytes) :=
  '(tag, body, inp) ← read_packet inp;
  '(utag, uid, inp) ← read_packet inp;
  '(stag, sig, inp) ← read_packet inp;
  '(pub, rest) ← read_public body;
  certifies (take (length body - length rest) body) pub uid sig ≫= λ _,
  if (utag =? pgpTagUserID) && (stag =? pgpTagSignature) && (inp =s []) then
    if tag =? pgpTagPublicKey then
      if rest =s [] then Some (pub, None, uid) else None
    else if tag =? pgpTagSecretKey then
      seed ← read_secret rest; Some (pub, Some seed, uid)
    else None
  else None.
End Certification.

Lemma mpi_length b : (length (mpi b) ≤ 2 + length b)%nat.
Proof.
  pose proof (strip_zeros_length b). unfold mpi. destruct (strip_zeros b) as [|x c]; [cbn; lia|].
  rewrite length_app, be_bytes_length. lia.
Qed.

Lemma be_bytes_fixed n b : length b = n → be_bytes n (be_val 0 b) = b.
Proof. intros <-. apply be_bytes_val. Qed.

Lemma publicKeyBody_length pub : length pub = 32%nat → (length (publicKeyBody pub) ≤ 51)%nat.
Proof.
  intros Hp. unfold publicKeyBody. pose proof (mpi_length ([x40] ++ pub)) as H.
  rewrite !length_app, be_bytes_length in *. cbn [length ed25519OID] in *. lia.
Qed.

Lemma read_public_body pub rest :
  length pub = 32%nat → read_public (publicKeyBody pub ++ rest) = Some (pub, rest).
Proof.
  intros Hp. unfold publicKeyBody, read_public.
  set (pre := [x04] ++ be_bytes 4 pgpKeyCreationTime ++ [x16; x09] ++ ed25519OID).
  replace (_ ++ rest) with (pre ++ mpi ([x40] ++ pub) ++ rest) by (by rewrite <- !app_assoc).
  rewrite (take_app_length' pre), (drop_app_length' pre) by done.
  rewrite seq_eqb_refl, read_mpi_mpi by (rewrite length_app, Hp; done). cbn [mbind option_bind].
  rewrite (be_bytes_fixed 33) by (rewrite length_app, Hp; done). cbn [app].
  pose proof (be_val_bound (x40 :: pub)) as Hb. cbn [length] in Hb. rewrite Hp in Hb.
  rewrite (proj2 (Z.ltb_lt _ _)) by apply Hb. done.
Qed.

Lemma read_secret_body priv rest :
  length priv = 64%nat → secretKeyBody priv = publicKeyBody (Public priv) ++ rest →
  read_secret rest = Some (Seed priv).
Proof.
  intros Hl H. apply (inj (app _)) in H as <-. unfold read_secret. cbn [app].
  assert (Hs : length (Seed priv) = 32%nat) by (unfold Seed; rewrite length_take; lia).
  rewrite read_mpi_mpi by (rewrite Hs; done). cbn [mbind option_bind].
  rewrite length_app, be_bytes_length, Nat.add_sub, take_app_length.
  rewrite seq_eqb_refl, be_bytes_fixed by done. done.
Qed.

(** What the certification is computed over, from the signed part of the packet. *)
Definition certified_text (keyBody uid signed : bytes) : bytes :=
  [x99] ++ be_bytes 2 (len keyBody) ++ keyBody ++ [xb4] ++ be_bytes 4 (len uid) ++ uid ++ signed ++
  [x04; xff] ++ be_bytes 4 (len signed).

Lemma certifies_intro sha256 verify keyBody pub uid hashed unhashed r s :
  let signed := [x04; x13; x16; x08] ++ be_bytes 2 (len hashed) ++ hashed in
  let digest := sha256 (certified_text keyBody uid signed) in
  len hashed < 65536 → len unhashed < 65536 → (2 ≤ length digest)%nat →
  length r = 32%nat → length s = 32%nat → verify pub digest (r ++ s) = true →
  certifies sha256 verify keyBody pub uid
    (signed ++ be_bytes 2 (len unhashed) ++ unhashed ++ take 2 digest ++ mpi r ++ mpi s) = Some tt.
Proof.
  intros signed digest Hh Hu Hd Hr Hs Hv.
  set (tail := take 2 digest ++ mpi r ++ mpi s). set (body := signed ++ _ ++ unhashed ++ tail).
  assert (Hsig : length signed = (6 + length hashed)%nat).
  { unfold signed. rewrite !length_app, be_bytes_length. cbn. lia. }
  assert (Hn : be_val 0 (take 2 (drop 4 body)) = len hashed).
  { unfold body, signed. rewrite <- !app_assoc, (drop_app_length' [x04; x13; x16; x08]) by done.
    rewrite take_app_length' by (by rewrite be_bytes_length).
    apply be_val_two. lia. }
  assert (Hm : be_val 0 (take 2 (be_bytes 2 (len unhashed) ++ unhashed ++ tail)) = len unhashed).
  { rewrite take_app_length' by (by rewrite be_bytes_length).
    apply be_val_two. lia. }
  assert (Htake : take (6 + length hashed) body = signed) by (by apply take_app_length').
  assert (Hdrop : drop (6 + length hashed) body = be_bytes 2 (len unhashed) ++ unhashed ++ tail)
    by (by apply drop_app_length').
  unfold certifies. rewrite Hn, Nat2Z.id, Htake, Hdrop, Hm, Nat2Z.id.
  replace (drop (2 + length unhashed) _) with tail.
  2: { rewrite app_assoc, drop_app_length'; [done|]. by rewrite length_app, be_bytes_length. }
  assert (H2 : length (take 2 digest) = 2%nat) by (rewrite length_take; lia).
  unfold tail. rewrite drop_app_length', take_app_length' by done.
  rewrite read_mpi_mpi by (rewrite Hr; done). cbn [mbind option_bind].
  rewrite <- (app_nil_r (mpi s)), read_mpi_mpi by (rewrite Hs; done). cbn [mbind option_bind].
  fold (certified_text keyBody uid signed). fold digest. rewrite !be_bytes_fixed by done.
  rewrite Hv, Hsig, Nat.eqb_refl, !seq_eqb_refl.
  by replace (take 4 body) with [x04; x13; x16; x08].
Qed.

Section Keyring.
Context (sha1 sha256 : bytes → bytes) (Sign : bytes → bytes → bytes).
Context (verify : bytes → bytes → bytes → bool).
Hypothesis sha1_length : ∀ b, length (sha1 b) = 20%nat.
Hypothesis sha256_length : ∀ b, length (sha256 b) = 32%nat.
Hypothesis Sign_length : ∀ priv b, length (Sign priv b) = 64%nat.

(** RFC 8032: a key pair verifies what it signs. *)
Definition key_pair (priv : bytes) : Prop :=
  length priv = 64%nat ∧ ∀ m, verify (Public priv) m (Sign priv m) = true.

Lemma u16_small z : 0 ≤ z < 65536 → u16 z = z.
Proof. apply Z.mod_small. Qed.

Lemma u32_small z : 0 ≤ z < 2 ^ 32 → u32 z = z.
Proof. apply Z.mod_small. Qed.

Lemma selfSignature_certifies priv uid rest :
  key_pair priv → len uid < 2 ^ 32 →
  ∃ sig, read_packet (selfSignature sha1 sha256 Sign priv uid ++ rest) = Some (pgpTagSignature, sig, rest) ∧
    certifies sha256 verify (publicKeyBody (Public priv)) (Public priv) uid sig = Some tt.
Proof.
  intros [Hl Hv] Hu. set (pub := Public priv) in *.
  assert (Hp : length pub = 32%nat) by (unfold pub, Public; rewrite length_drop; lia).
  set (hashed := subpacket 2 (be_bytes 4 pgpKeyCreationTime) ++ subpacket 27 [x03] ++
                 subpacket 33 ([x04] ++ fingerprint sha1 pub)).
  assert (Hh : len hashed = 32).
  { unfold hashed, subpacket, fingerprint. by rewrite !length_app, be_bytes_length, sha1_length. }
  assert (Hs : signed_fields sha1 pub = [x04; x13; x16; x08] ++ be_bytes 2 (len hashed) ++ hashed).
  { unfold signed_fields. fold hashed. by rewrite u16_small by lia. }
  set (signed := signed_fields sha1 pub) in *.
  assert (Hsl : len signed = 38) by (rewrite Hs, !length_app, be_bytes_length; cbn [length]; lia).
  assert (Hd : signature_digest sha1 sha256 pub uid
               = sha256 (certified_text (publicKeyBody pub) uid signed)).
  { unfold signature_digest, certified_text. fold signed. pose proof (publicKeyBody_length pub Hp).
    by rewrite !u32_small, u16_small by lia. }
  unfold selfSignature. fold pub signed. rewrite Hd.
  set (digest := sha256 _). set (unhashed := subpacket 16 _).
  assert (Hun : len unhashed = 10).
  { unfold unhashed, subpacket, keyID, fingerprint. by rewrite !length_app, length_drop, sha1_length. }
  assert (Hr : length (take 32 (Sign priv digest)) = 32%nat) by (rewrite length_take, Sign_length; lia).
  assert (Hr' : length (drop 32 (Sign priv digest)) = 32%nat) by (rewrite length_drop, Sign_length; lia).
  eexists. split.
  - apply read_packet_packet; [done|]. pose proof (mpi_length (take 32 (Sign priv digest))).
    pose proof (mpi_length (drop 32 (Sign priv digest))).
    rewrite !length_app, be_bytes_length, length_take. lia.
  - pose proof (certifies_intro sha256 verify (publicKeyBody pub) pub uid hashed unhashed
      (take 32 (Sign priv digest)) (drop 32 (Sign priv digest))) as Hci.
    cbv zeta in Hci. rewrite <- Hs in Hci. fold digest in Hci. rewrite u16_small by lia.
    rewrite take_drop in Hci. apply Hci; [lia|lia| |exact Hr|exact Hr'|apply Hv].
    unfold digest. rewrite sha256_length. lia.
Qed.

(** C27. What the script writes is a key that OpenPGP software accepts: read after RFC 4880,
    both transferable keys are a key packet, the user ID and a valid certification of it
    by that same key, and the secret one also carries the seed, with a correct checksum. *)
Theorem keyring_valid priv :
  key_pair priv →
  read_keyring sha256 verify (transferablePublicKey sha1 sha256 Sign priv)
  = Some (Public priv, None, pgpUserID) ∧
  read_keyring sha256 verify (transferableSecretKey sha1 sha256 Sign priv)
  = Some (Public priv, Some (Seed priv), pgpUserID).
Proof.
  intros Hk. pose proof Hk as [Hl _].
  assert (Hp : length (Public priv) = 32%nat) by (unfold Public; rewrite length_drop; lia).
  assert (Hs : (length (mpi (Seed priv)) ≤ 34)%nat).
  { etrans; [apply mpi_length|]. unfold Seed. rewrite length_take. lia. }
  pose proof (publicKeyBody_length _ Hp) as Hb.
  destruct (selfSignature_certifies priv pgpUserID [] Hk ltac:(done)) as (sig & Hr & Hc).
  rewrite app_nil_r in Hr. unfold transferablePublicKey, transferableSecretKey, read_keyring.
  split; rewrite read_packet_packet; cbn [mbind option_bind];
    [|done|lia| |done|unfold secretKeyBody; rewrite !length_app, be_bytes_length; cbn [length]; lia].
  - rewrite read_packet_packet by done. cbn [mbind option_bind]. rewrite Hr. cbn [mbind option_bind].
    rewrite <- (app_nil_r (publicKeyBody _)), read_public_body by done. cbn [mbind option_bind].
    rewrite app_nil_r, Nat.sub_0_r, take_ge, Hc by lia. done.
  - rewrite read_packet_packet by done. cbn [mbind option_bind]. rewrite Hr. cbn [mbind option_bind].
    unfold secretKeyBody. rewrite read_public_body by done. cbn [mbind option_bind].
    rewrite length_app, Nat.add_sub, take_app_length, Hc. cbn [mbind option_bind].
    by rewrite (read_secret_body priv).
Qed.
End Keyring.

(** ** The checksum of the armor *)

Lemma testbit_high z n i : 0 ≤ z < 2 ^ n → n ≤ i → Z.testbit z i = false.
Proof.
  intros [Hz Hn] Hi. destruct (decide (z = 0)) as [->|]; [apply Z.bits_0|].
  apply Z.bits_above_log2; [done|]. apply Z.lt_le_trans with n; [|done]. by apply Z.log2_lt_pow2; [lia|].
Qed.

Lemma below_pow2 z n : 0 ≤ n → 0 ≤ z → (∀ i, n ≤ i → Z.testbit z i = false) → z < 2 ^ n.
Proof.
  intros Hn Hz H. destruct (decide (z = 0)) as [->|]; [by apply Z.pow_pos_nonneg|].
  apply Z.log2_lt_pow2; [lia|]. apply Z.nle_gt. intros Hle.
  pose proof (Z.bit_log2 z ltac:(lia)) as Ht. rewrite H in Ht; [done|lia].
Qed.

Lemma lxor_range n a b : 0 ≤ n → 0 ≤ a < 2 ^ n → 0 ≤ b < 2 ^ n → 0 ≤ Z.lxor a b < 2 ^ n.
Proof.
  intros Hn Ha Hb. assert (0 ≤ Z.lxor a b) by (apply Z.lxor_nonneg; lia). split; [done|].
  apply below_pow2; [done..|]. intros i Hi.
  by rewrite Z.lxor_spec, (testbit_high a n), (testbit_high b n).
Qed.

(** Disjoint bits add up. *)
Lemma disjoint_bits a b k i :
  0 ≤ k → 0 ≤ b < 2 ^ k → 0 ≤ i →
  Z.testbit (a * 2 ^ k + b) i = if i <? k then Z.testbit b i else Z.testbit a (i - k).
Proof.
  intros Hk Hb Hi. destruct (i <? k) eqn:E; bools.
  - rewrite <- (Z.mod_pow2_bits_low _ k) by lia.
    by rewrite Z.add_comm, Z_mod_plus_full, Z.mod_small.
  - replace i with (i - k + k) at 1 by lia. rewrite <- Z.div_pow2_bits by lia.
    rewrite Z.div_add_l, Z.div_small, Z.add_0_r by lia. done.
Qed.

Lemma shifted_bits a b k i :
  0 ≤ k → 0 ≤ b < 2 ^ k → 0 ≤ i →
  (i < k ∧ Z.testbit (a * 2 ^ k) i = false ∧ Z.testbit (a * 2 ^ k + b) i = Z.testbit b i) ∨
  (Z.testbit b i = false ∧ Z.testbit (a * 2 ^ k + b) i = Z.testbit (a * 2 ^ k) i).
Proof.
  intros Hk Hb Hi. rewrite (disjoint_bits a b k) by lia.
  pose proof (disjoint_bits a 0 k i Hk ltac:(lia) Hi) as H0. rewrite Z.add_0_r in H0. rewrite H0.
  destruct (i <? k) eqn:E; bools; [left; by rewrite Z.bits_0|right; by rewrite (testbit_high b k)].
Qed.

Lemma lxor_shifted a b k : 0 ≤ k → 0 ≤ b < 2 ^ k → Z.lxor (a * 2 ^ k) b = a * 2 ^ k + b.
Proof.
  intros Hk Hb. apply Z.bits_inj'. intros i Hi. rewrite Z.lxor_spec.
  destruct (shifted_bits a b k i Hk Hb Hi) as [(_ & -> & ->)|[-> ->]]; by rewrite ?xorb_false_r.
Qed.

Lemma lor_shifted a b k : 0 ≤ k → 0 ≤ b < 2 ^ k → Z.lor (a * 2 ^ k) b = a * 2 ^ k + b.
Proof.
  intros Hk Hb. apply Z.bits_inj'. intros i Hi. rewrite Z.lor_spec.
  destruct (shifted_bits a b k i Hk Hb Hi) as [(_ & -> & ->)|[-> ->]]; by rewrite ?orb_false_r.
Qed.

Lemma lxor_inj_l c a b : Z.lxor c a = Z.lxor c b → a = b.
Proof.
  intros H. apply (f_equal (Z.lxor c)) in H.
  by rewrite <- !Z.lxor_assoc, !Z.lxor_nilpotent, !Z.lxor_0_l in H.
Qed.

(** The register holds 24 bits. *)
Definition reg (r : Z) : Prop := 0 ≤ r < 2 ^ 24.

Lemma reg_lxor a b : reg a → reg b → reg (Z.lxor a b).
Proof. by apply lxor_range. Qed.

Lemma crc_bit_eq r :
  reg r → crc_bit r = Z.lxor (2 * r) (if Z.testbit r 23 then 0x1864CFB else 0).
Proof.
  unfold reg. intros Hr. unfold crc_bit, u32. rewrite Z.shiftl_mul_pow2, Z.mod_small by lia.
  change (2 ^ 1) with 2. rewrite (Z.mul_comm r 2).
  change 0x1000000 with (2 ^ 24). change 24 with (Z.succ 23).
  rewrite <- (Z.double_bits_succ r 23).
  destruct (Z.testbit (2 * r) (Z.succ 23)) eqn:E; destruct (Z.land _ _ =? 0) eqn:E'; bools.
  - apply (f_equal (λ z, Z.testbit z (Z.succ 23))) in E'.
    rewrite Z.land_spec, E, Z.bits_0, Z.pow2_bits_true in E'; [done|lia].
  - done.
  - by rewrite Z.lxor_0_r.
  - exfalso. apply E'. apply Z.bits_inj'. intros i Hi. rewrite Z.land_spec, Z.bits_0.
    destruct (decide (i = Z.succ 23)) as [->|]; [by rewrite E|].
    by rewrite Z.pow2_bits_false, andb_false_r.
Qed.

Lemma reg_crc_bit r : reg r → reg (crc_bit r).
Proof.
  intros Hr. rewrite crc_bit_eq by done. unfold reg in *.
  assert (H0 : 0 ≤ Z.lxor (2 * r) (if Z.testbit r 23 then 0x1864CFB else 0)).
  { apply Z.lxor_nonneg. split; [|lia]. destruct (Z.testbit r 23); lia. }
  split; [done|]. apply below_pow2; [lia|done|]. intros i Hi. rewrite Z.lxor_spec.
  destruct (decide (i = 24)) as [->|].
  - change 24 with (Z.succ 23) at 1. rewrite Z.double_bits_succ. by destruct (Z.testbit r 23).
  - rewrite (testbit_high (2 * r) 25) by lia.
    destruct (Z.testbit r 23); [|by rewrite Z.bits_0]. by rewrite (testbit_high _ 25) by lia.
Qed.

Lemma crc_bit_lxor a b :
  reg a → reg b → crc_bit (Z.lxor a b) = Z.lxor (crc_bit a) (crc_bit b).
Proof.
  intros Ha Hb. rewrite !crc_bit_eq by (done || by apply reg_lxor).
  replace (2 * Z.lxor a b) with (Z.lxor (2 * a) (2 * b)).
  2: { pose proof (Z.shiftl_lxor a b 1) as H. rewrite !Z.shiftl_mul_pow2 in H by lia.
       by rewrite !(Z.mul_comm _ (2 ^ 1)) in H. }
  rewrite Z.lxor_spec. apply Z.bits_inj'. intros i Hi. rewrite !Z.lxor_spec.
  destruct (Z.testbit a 23), (Z.testbit b 23); cbn [xorb]; rewrite ?Z.bits_0;
    destruct (Z.testbit (2 * a) i), (Z.testbit (2 * b) i), (Z.testbit 0x1864CFB i); done.
Qed.

Lemma crc_bit_inj a b : reg a → reg b → crc_bit a = crc_bit b → a = b.
Proof.
  intros Ha Hb. rewrite !crc_bit_eq by done. intros H.
  pose proof (f_equal (λ z, Z.testbit z 0) H) as H0. cbn beta in H0.
  rewrite !Z.lxor_spec, !Z.testbit_even_0 in H0.
  assert (Hab : Z.testbit a 23 = Z.testbit b 23).
  { by destruct (Z.testbit a 23), (Z.testbit b 23). }
  rewrite Hab, !(Z.lxor_comm (2 * _)) in H. apply lxor_inj_l in H. lia.
Qed.

(** The register after [n] bits of zeros. *)
Definition crc_bits (n : nat) (r : Z) : Z := Nat.iter n crc_bit r.

Lemma crc_bits_S n r : crc_bits (S n) r = crc_bit (crc_bits n r).
Proof. done. Qed.

Lemma crc_bits_add n m r : crc_bits (n + m) r = crc_bits n (crc_bits m r).
Proof. apply Nat.iter_add. Qed.

Lemma reg_crc_bits n r : reg r → reg (crc_bits n r).
Proof. intros Hr. induction n; [done|]. by apply reg_crc_bit. Qed.

Lemma crc_bits_lxor n a b :
  reg a → reg b → crc_bits n (Z.lxor a b) = Z.lxor (crc_bits n a) (crc_bits n b).
Proof.
  intros Ha Hb. induction n as [|n IH]; [done|]. rewrite ?crc_bits_S.
  rewrite IH. apply crc_bit_lxor; by apply reg_crc_bits.
Qed.

Lemma crc_bits_inj n a b : reg a → reg b → crc_bits n a = crc_bits n b → a = b.
Proof.
  intros Ha Hb. induction n as [|n IH]; [done|]. rewrite ?crc_bits_S.
  intros H%crc_bit_inj; auto; by apply reg_crc_bits.
Qed.

Lemma crc_bits_shift n k r :
  (n + k ≤ 24)%nat → 0 ≤ r < 2 ^ Z.of_nat k → crc_bits n r = r * 2 ^ Z.of_nat n.
Proof.
  intros Hn Hr. induction n as [|n IH]; [cbn; lia|]. rewrite ?crc_bits_S.
  rewrite IH by lia.
  assert (Hk : 2 ^ Z.of_nat k * 2 ^ Z.of_nat n ≤ 2 ^ 23).
  { rewrite <- Z.pow_add_r by lia. apply Z.pow_le_mono_r; lia. }
  pose proof (Z.pow_pos_nonneg 2 (Z.of_nat n) ltac:(lia) ltac:(lia)).
  assert (Hlt : 0 ≤ r * 2 ^ Z.of_nat n < 2 ^ 23) by nia.
  rewrite crc_bit_eq by (unfold reg; lia). rewrite (testbit_high _ 23 23) by lia.
  rewrite Z.lxor_0_r, Nat2Z.inj_succ, Z.pow_succ_r by lia. lia.
Qed.

Lemma crc_byte_eq c b : crc_byte c b = crc_bits 8 (Z.lxor c (byteZ b * 2 ^ 16)).
Proof.
  unfold crc_byte, crc_bits, u32. pose proof (byteZ_range b).
  rewrite Z.shiftl_mul_pow2, Z.mod_small by lia. reflexivity.
Qed.

#[local] Opaque crc_bit crc_byte crc_bits.

Lemma reg_byte b : reg (byteZ b * 2 ^ 16).
Proof. pose proof (byteZ_range b). unfold reg. lia. Qed.

Lemma reg_crc_byte c b : reg c → reg (crc_byte c b).
Proof. intros Hc. rewrite crc_byte_eq. apply reg_crc_bits, reg_lxor; [exact Hc|apply reg_byte]. Qed.

Lemma reg_crc data c : reg c → reg (fold_left crc_byte data c).
Proof. intros Hc. apply fold_left_inv; [exact Hc|]. intros a b. apply reg_crc_byte. Qed.

Lemma crc_byte_inj a a' x : reg a → reg a' → crc_byte a x = crc_byte a' x → a = a'.
Proof.
  intros Ha Hb H. rewrite !crc_byte_eq in H.
  apply crc_bits_inj in H; [|apply reg_lxor; [assumption|apply reg_byte]..].
  rewrite !(Z.lxor_comm _ (byteZ x * _)) in H. apply lxor_inj_l in H. exact H.
Qed.

Lemma crc_inj data a b :
  reg a → reg b → fold_left crc_byte data a = fold_left crc_byte data b → a = b.
Proof.
  apply (fold_left_inj reg crc_byte); [intros c x; apply reg_crc_byte|apply crc_byte_inj].
Qed.

Lemma word_lxor b1 b2 b3 :
  be_val 0 [b1; b2; b3] = Z.lxor (Z.lxor (byteZ b1 * 2 ^ 16) (byteZ b2 * 2 ^ 8)) (byteZ b3).
Proof.
  pose proof (byteZ_range b2). pose proof (byteZ_range b3). cbn [be_val].
  rewrite (lxor_shifted (byteZ b1) (byteZ b2 * 2 ^ 8) 16) by lia.
  replace (byteZ b1 * 2 ^ 16 + byteZ b2 * 2 ^ 8) with ((byteZ b1 * 256 + byteZ b2) * 2 ^ 8) by lia.
  rewrite lxor_shifted by lia. lia.
Qed.

(** Three bytes enter the register like one 24-bit word. *)
Lemma crc_word c b1 b2 b3 :
  reg c →
  fold_left crc_byte [b1; b2; b3] c =
  crc_bits 24 (Z.lxor c (be_val 0 [b1; b2; b3])).
Proof.
  intros Hc. rewrite word_lxor, <- !Z.lxor_assoc. cbn [fold_left]. rewrite !crc_byte_eq.
  assert (H1 : reg (Z.lxor c (byteZ b1 * 2 ^ 16))) by (apply reg_lxor; [exact Hc|apply reg_byte]).
  pose proof (byteZ_range b2). pose proof (byteZ_range b3).
  assert (H2 : reg (byteZ b2 * 2 ^ 8)) by (unfold reg; lia).
  assert (H3 : reg (byteZ b3)) by (unfold reg; lia).
  rewrite (crc_bits_add 8 16), (crc_bits_add 8 8).
  assert (S2 : crc_bits 8 (byteZ b2 * 2 ^ 8) = byteZ b2 * 2 ^ 16).
  { rewrite (crc_bits_shift 8 16) by (change (2 ^ Z.of_nat 16) with 65536; lia).
    change (2 ^ Z.of_nat 8) with (2 ^ 8). lia. }
  assert (S3 : crc_bits 8 (byteZ b3) = byteZ b3 * 2 ^ 8).
  { by rewrite (crc_bits_shift 8 8) by (change (2 ^ Z.of_nat 8) with 256; lia). }
  assert (S4 : crc_bits 8 (byteZ b3 * 2 ^ 8) = byteZ b3 * 2 ^ 16).
  { rewrite (crc_bits_shift 8 16) by (change (2 ^ Z.of_nat 16) with 65536; lia).
    change (2 ^ Z.of_nat 8) with (2 ^ 8). lia. }
  rewrite <- S2, <- S4, <- S3, !crc_bits_lxor; auto 10 using reg_lxor, reg_crc_bits, reg_byte.
Qed.

Lemma crc_init : reg 0xB704CE.
Proof. by unfold reg. Qed.

Lemma crc24_reg data : crc24 data = fold_left crc_byte data 0xB704CE.
Proof.
  unfold crc24. pose proof (reg_crc data _ crc_init) as [Hl Hu].
  change 0xFFFFFF with (Z.ones 24). rewrite Z.land_ones by lia. apply Z.mod_small. lia.
Qed.

Lemma reg_word b1 b2 b3 : reg (be_val 0 [b1; b2; b3]).
Proof. exact (be_val_bound [b1; b2; b3]). Qed.

(** The checksum catches every burst of damage that stays within three bytes: two texts
    that differ only there never have the same checksum. *)
Theorem crc24_detects_bursts pre x1 x2 x3 y1 y2 y3 post :
  crc24 (pre ++ [x1; x2; x3] ++ post) = crc24 (pre ++ [y1; y2; y3] ++ post) →
  [x1; x2; x3] = [y1; y2; y3].
Proof.
  rewrite !crc24_reg, !fold_left_app. pose proof (reg_crc pre _ crc_init) as Hc.
  generalize dependent (fold_left crc_byte pre 0xB704CE). intros c Hc H.
  apply crc_inj in H; [|apply reg_crc; exact Hc..]. rewrite !crc_word in H by exact Hc.
  apply crc_bits_inj in H; [|apply reg_lxor; [exact Hc|apply reg_word]..].
  apply lxor_inj_l in H. by rewrite <- (be_bytes_val [x1; x2; x3]), <- (be_bytes_val [y1; y2; y3]), H.
Qed.

(** ** Reading the armor back *)

Fixpoint index_of (c : byte) (l : bytes) (i : Z) : option Z :=
  match l with
  | [] => None
  | x :: l => if beq x c then Some i else index_of c l (i + 1)
  end.

Definition b64_index (c : byte) : option Z := index_of c b64 0.

(** RFC 4880, section 6.3: one to three bytes from four characters. *)
Definition decode_quad (c0 c1 c2 c3 : byte) : option bytes :=
  i0 ← b64_index c0;
  i1 ← b64_index c1;
  if beq c2 "="%byte then
    if beq c3 "="%byte then Some (take 1 (be_bytes 3 (i0 * 2 ^ 18 + i1 * 2 ^ 12))) else None
  else
    i2 ← b64_index c2;
    if beq c3 "="%byte then Some (take 2 (be_bytes 3 (i0 * 2 ^ 18 + i1 * 2 ^ 12 + i2 * 2 ^ 6)))
    else
      i3 ← b64_index c3;
      Some (be_bytes 3 (i0 * 2 ^ 18 + i1 * 2 ^ 12 + i2 * 2 ^ 6 + i3)).

(** Padding only at the end. *)
Fixpoint decode64 (s : bytes) : option bytes :=
  match s with
  | [] => Some []
  | c0 :: c1 :: c2 :: c3 :: s =>
      q ← decode_quad c0 c1 c2 c3;
      if (length q <? 3)%nat then (if s =s [] then Some q else None)
      else rest ← decode64 s; Some (q ++ rest)
  | _ => None
  end.

(** The lines before the one with the checksum, which starts with an equals sign. *)
Fixpoint before_sum (lines : list bytes) : list bytes * list bytes :=
  match lines with
  | [] => ([], [])
  | l :: ls => if HasPrefix l "=" then ([], lines) else (l :: fst (before_sum ls), snd (before_sum ls))
  end.

(** Section 6.2: the header line, a blank line, the data in lines of at most 76
    characters, the checksum and the footer. *)
Definition dearmor (blockType input : bytes) : option bytes :=
  match Split input x0a with
  | header :: blank :: lines =>
      let body := fst (before_sum lines) in
      match snd (before_sum lines) with
      | [sum; footer; []] =>
          data ← decode64 (concat body);
          crc ← decode64 (drop 1 sum);
          if (header =s str "-----BEGIN " ++ blockType ++ str "-----") && (blank =s []) &&
             forallb (λ l, (length l <=? 76)%nat) body &&
             (crc =s be_bytes 3 (crc24 data)) &&
             (footer =s str "-----END " ++ blockType ++ str "-----")
          then Some data else None
      | _ => None
      end
  | _ => None
  end.

Lemma b64_index_char v : b64_index (b64_char v) = Some (v mod 64).
Proof.
  unfold b64_char. change 0x3F with (Z.ones 6). rewrite Z.land_ones by lia. change (2 ^ 6) with 64.
  pose proof (Z.mod_pos_bound v 64 ltac:(lia)) as Hk.
  rewrite <- (Z2Nat.id (v mod 64)) at 2 by lia.
  assert (Hn : (Z.to_nat (v mod 64) < 64)%nat) by lia. revert Hn.
  generalize (Z.to_nat (v mod 64)) as k. intros k Hn.
  do 64 (destruct k as [|k]; [by vm_compute|]). lia.
Qed.

Lemma b64_char_not v c : b64_index c = None → b64_char v ≠ c.
Proof. intros Hc <-. by rewrite b64_index_char in Hc. Qed.

Lemma b64_char_pad v : beq (b64_char v) "="%byte = false.
Proof. apply beq_false, b64_char_not. by vm_compute. Qed.

Lemma decode_quad_quad b0 b1 b2 n :
  (1 ≤ n ≤ 3)%nat → (n < 3 → b2 = x00)%nat → (n < 2 → b1 = x00)%nat →
  match quad b0 b1 b2 n with
  | [c0; c1; c2; c3] => decode_quad c0 c1 c2 c3 = Some (take n [b0; b1; b2])
  | _ => False
  end.
Proof.
  intros Hn H2 H1. unfold quad.
  pose proof (byteZ_range b0). pose proof (byteZ_range b1). pose proof (byteZ_range b2).
  rewrite !Z.shiftl_mul_pow2, (lor_shifted (byteZ b0)) by lia.
  replace (byteZ b0 * 2 ^ 16 + byteZ b1 * 2 ^ 8) with ((byteZ b0 * 256 + byteZ b1) * 2 ^ 8) by lia.
  rewrite lor_shifted by lia. set (v := (byteZ b0 * 256 + byteZ b1) * 2 ^ 8 + byteZ b2).
  assert (Hv : be_bytes 3 v = [b0; b1; b2]).
  { rewrite <- (be_bytes_val [b0; b1; b2]). cbn [length be_val]. unfold v. f_equal. }
  rewrite !Z.shiftr_div_pow2 by lia. unfold decode_quad. rewrite !b64_index_char. cbn [mbind option_bind].
  change (2 ^ 18) with 262144. change (2 ^ 12) with 4096. change (2 ^ 6) with 64.
  assert (Hz : byteZ x00 = 0) by done. change (2 ^ 8) with 256 in v.
  assert (n = 1 ∨ n = 2 ∨ n = 3)%nat as [->|[->| ->]] by lia; cbn [Nat.ltb Nat.leb];
    rewrite ?b64_char_pad, ?beq_refl, ?b64_index_char; cbn [mbind option_bind].
  - replace (_ + _) with v; [by rewrite Hv|].
    unfold v. rewrite H1, H2, Hz by lia. Z.to_euclidean_division_equations. lia.
  - replace (_ + _) with v; [by rewrite Hv|].
    unfold v. rewrite H2, Hz by lia. Z.to_euclidean_division_equations. lia.
  - replace (_ + _) with v; [by rewrite Hv|].
    unfold v. Z.to_euclidean_division_equations. lia.
Qed.

Lemma quad_shape b0 b1 b2 n :
  ∃ c0 c1 c2 c3, quad b0 b1 b2 n = [c0; c1; c2; c3] ∧ b64_index c0 ≠ None ∧
    Forall (λ c, b64_index c ≠ None ∨ c = "="%byte) [c0; c1; c2; c3].
Proof.
  unfold quad. eexists _, _, _, _. split; [done|]. rewrite !Forall_cons, Forall_nil, !b64_index_char.
  split; [done|]. destruct (1 <? n)%nat, (2 <? n)%nat; rewrite ?b64_index_char; auto 10.
Qed.

Lemma decode64_quad b0 b1 b2 n s :
  (1 ≤ n ≤ 3)%nat → (n < 3 → b2 = x00)%nat → (n < 2 → b1 = x00)%nat → (n < 3 → s = [])%nat →
  decode64 (quad b0 b1 b2 n ++ s) = rest ← decode64 s; Some (take n [b0; b1; b2] ++ rest).
Proof.
  intros Hn H2 H1 Hs. pose proof (decode_quad_quad b0 b1 b2 n Hn H2 H1) as Hq.
  destruct (quad_shape b0 b1 b2 n) as (c0 & c1 & c2 & c3 & E & _). rewrite E in *.
  cbn [app decode64]. rewrite Hq. cbn [mbind option_bind].
  assert (length (take n [b0; b1; b2]) = n) as -> by (rewrite length_take; cbn [length]; lia).
  destruct (n <? 3)%nat eqn:En; [|done]. apply Nat.ltb_lt in En. rewrite Hs by done.
  cbn. by rewrite app_nil_r.
Qed.

Lemma decode64_encode64 data : decode64 (encode64 data) = Some data.
Proof.
  induction data as [data IH] using length_ind.
  destruct data as [|b0 [|b1 [|b2 data]]]; [done| | |].
  - cbn [encode64]. rewrite <- (app_nil_r (quad _ _ _ _)), decode64_quad by (done || lia). done.
  - cbn [encode64]. rewrite <- (app_nil_r (quad _ _ _ _)), decode64_quad by (done || lia). done.
  - cbn [encode64]. rewrite decode64_quad by (done || lia). rewrite IH by (cbn; lia). done.
Qed.

(** Groups of four, each of which starts with a character of the alphabet. *)
Definition b64_text (c : byte) : Prop := b64_index c ≠ None ∨ c = "="%byte.

Fixpoint quads (s : bytes) : Prop :=
  match s with
  | [] => True
  | c0 :: c1 :: c2 :: c3 :: s => b64_index c0 ≠ None ∧ Forall b64_text [c0; c1; c2; c3] ∧ quads s
  | _ => False
  end.

Lemma quads_encode64 data : quads (encode64 data).
Proof.
  induction data as [data IH] using length_ind.
  destruct data as [|b0 [|b1 [|b2 data]]]; [done|..]; cbn [encode64].
  - destruct (quad_shape b0 x00 x00 1) as (c0 & c1 & c2 & c3 & -> & H0 & H). done.
  - destruct (quad_shape b0 b1 x00 2) as (c0 & c1 & c2 & c3 & -> & H0 & H). done.
  - destruct (quad_shape b0 b1 b2 3) as (c0 & c1 & c2 & c3 & -> & H0 & H).
    split; [done|]. split; [done|]. apply IH. cbn. lia.
Qed.

Lemma quads_drop k s : quads s → quads (drop (4 * k) s).
Proof.
  revert s; induction k as [|k IH]; intros s Hs; [done|].
  replace (4 * S k)%nat with (S (S (S (S (4 * k))))) by lia.
  destruct s as [|c0 [|c1 [|c2 [|c3 s]]]]; try done. cbn [drop]. apply IH, Hs.
Qed.

Lemma quads_chars s : quads s → Forall b64_text s.
Proof.
  induction s as [s IH] using length_ind.
  destruct s as [|c0 [|c1 [|c2 [|c3 s]]]]; try done. intros (_ & H & Hs).
  apply (Forall_app_2 _ [c0; c1; c2; c3]); [done|]. apply IH; [cbn; lia|done].
Qed.

(** A line of the body: not too long, no line break, and not the checksum's. *)
Definition body_line (l : bytes) : Prop :=
  (length l ≤ 64)%nat ∧ (x0a ∉ l) ∧ HasPrefix l "=" = false.

Lemma lines64_body fuel s :
  quads s → Forall body_line (lines64 fuel s) ∧
  ((length s ≤ fuel)%nat → concat (lines64 fuel s) = s).
Proof.
  revert s; induction fuel as [|fuel IH]; intros s Hs.
  { split; [done|]. destruct s; [done|cbn; lia]. }
  destruct s as [|c s]; [done|]. cbn [lines64].
  destruct (IH (drop 64 (c :: s)) (quads_drop 16 (c :: s) Hs)) as [H1 H2]. split.
  - constructor; [|done]. split_and!.
    + rewrite length_take. lia.
    + intros Hin. apply quads_chars in Hs. rewrite Forall_forall in Hs.
      destruct (Hs x0a) as [H|H]; [|by apply H; vm_compute|done].
      rewrite <- (take_drop 64 (c :: s)). set_solver.
    + destruct s as [|c1 [|c2 [|c3 s]]]; try done. destruct Hs as [Hc _]. cbn [take firstn].
      cbn. rewrite andb_true_r. apply beq_false. intros <-.
      by apply Hc; vm_compute.
  - intros Hl. cbn [concat]. rewrite H2; [by rewrite take_drop|].
    rewrite length_drop. cbn [length] in *. lia.
Qed.

Lemma run_put_all ws s : run builder (put_all ws) s = (None, s ++ concat ws).
Proof.
  revert s; induction ws as [|w ws IH]; intros s; cbn; [by rewrite app_nil_r|].
  by rewrite IH, <- app_assoc.
Qed.

Lemma armored_text blockType data :
  armored blockType data =
  text (([str "-----BEGIN " ++ blockType ++ str "-----"; []] ++
         lines64 (length (encode64 data)) (encode64 data)) ++
        [str "=" ++ encode64 (be_bytes 3 (crc24 data)); str "-----END " ++ blockType ++ str "-----"]).
Proof.
  unfold armored, armor. rewrite run_put_all. unfold armor_writes, text.
  rewrite !map_app, !concat_app. cbn [snd app map concat be_bytes].
  rewrite !Z.shiftr_div_pow2 by lia. change (2 ^ 16) with (256 * 256). change (2 ^ 8) with 256.
  rewrite <- Z.div_div by lia. cbn [app]. by rewrite <- !app_assoc, !app_nil_r.
Qed.

Lemma before_sum_app body sum rest :
  Forall body_line body → HasPrefix sum "=" = true →
  before_sum (body ++ sum :: rest) = (body, sum :: rest).
Proof.
  intros Hb Hs. induction Hb as [|l body (_ & _ & Hl) _ IH]; cbn [app before_sum].
  - by rewrite Hs.
  - by rewrite Hl, IH.
Qed.

(** C28. Armor is read back exactly: header, lines of a legal length, padding and checksum are
    what RFC 4880 asks for, and the data is the data. *)
Theorem armor_roundtrip blockType data :
  x0a ∉ blockType → dearmor blockType (armored blockType data) = Some data.
Proof.
  intros Hbt. pose proof (quads_encode64 data) as Hq.
  pose proof (quads_encode64 (be_bytes 3 (crc24 data))) as Hq'%quads_chars.
  destruct (lines64_body (length (encode64 data)) _ Hq) as [Hl Hc].
  unfold dearmor. rewrite armored_text, Split_text.
  - cbn [app]. rewrite <- app_assoc. cbn [app]. rewrite before_sum_app by done. cbn [fst snd].
    rewrite Hc by lia. rewrite decode64_encode64. cbn [mbind option_bind].
    rewrite (drop_app_length' (str "=")) by done. rewrite decode64_encode64. cbn [mbind option_bind].
    rewrite !seq_eqb_refl. replace (forallb _ _) with true; [done|]. symmetry. apply forallb_forall.
    intros l Hin%list_elem_of_In. rewrite Forall_forall in Hl. destruct (Hl l Hin) as [H64 _].
    apply Nat.leb_le. lia.
  - assert (Hw : ∀ w : string, bool_decide (x0a ∈ str w) = false → x0a ∉ str w).
    { intros w Hw. by apply bool_decide_eq_false in Hw. }
    rewrite !Forall_app, !Forall_cons, Forall_nil, !not_elem_of_app. split_and!;
      try (done || by apply Hw; vm_compute).
    + apply not_elem_of_nil.
    + eapply Forall_impl; [exact Hl|]. by intros l (_ & ? & _).
    + rewrite Forall_forall in Hq'. intros H'.
      destruct (Hq' _ H') as [Hi|Hi]; [by apply Hi; vm_compute|done].
Qed.

(** ** The theorems at concrete inputs *)

Definition priv_wit : bytes := replicate 32 x11 ++ replicate 32 x00.
Definition sig_wit : bytes := replicate 64 x01.

Lemma keyring_valid_witness :
  read_keyring (λ _, replicate 32 x05) (λ _ _ s, s =s sig_wit)
    (transferableSecretKey (λ _, replicate 20 x07) (λ _, replicate 32 x05) (λ _ _, sig_wit) priv_wit)
  = Some (replicate 32 x00, Some (replicate 32 x11), pgpUserID).
Proof.
  apply (keyring_valid (λ _, replicate 20 x07) (λ _, replicate 32 x05) (λ _ _, sig_wit)
    (λ _ _ s, s =s sig_wit) (λ _, eq_refl) (λ _, eq_refl) (λ _ _, eq_refl) priv_wit).
  split; [done|]. intros m. apply seq_eqb_refl.
Defined.

Lemma armor_roundtrip_witness :
  dearmor "PGP PUBLIC KEY BLOCK" (armored "PGP PUBLIC KEY BLOCK" "key") = Some (str "key").
Proof.
  apply (armor_roundtrip "PGP PUBLIC KEY BLOCK" "key"). apply (bool_decide_unpack _). by vm_compute.
Defined.

Lemma crc24_detects_bursts_witness : [x61; x62; x63] = [x61; x62; x63].
Proof. by apply (crc24_detects_bursts (str "data") x61 x62 x63 x61 x62 x63 []). Defined.
