(* ===== verification/Crc.v ===== *)
(** * The armor checksum as polynomial division

    [crc24] of scripts/openpgp_key.go works bit by bit on a register.  RFC 4880 defines the
    value as a remainder of polynomials over two elements; here the loop is shown to compute
    the long division of the whole text, read as one number. *)

From S2P Require Import Prelude OpenPGP.

(** The generator, x^24 + x^23 + ... + 1, with its leading term. *)
Definition generator : Z := 0x1864CFB.

(** Long division of a polynomial of degree below [24 + n]: from the highest place down, a
    multiple of the generator cancels the leading coefficient. *)
Fixpoint poly_rem (n : nat) (v : Z) : Z :=
  match n with
  | O => v
  | S n => poly_rem n (if Z.testbit v (24 + Z.of_nat n) then Z.lxor v (generator * 2 ^ Z.of_nat n) else v)
  end.

Lemma lxor_pow2 a b n : 0 ≤ n → Z.lxor (a * 2 ^ n) (b * 2 ^ n) = Z.lxor a b * 2 ^ n.
Proof. intros Hn. rewrite <- !Z.shiftl_mul_pow2 by done. symmetry. apply Z.shiftl_lxor. Qed.

Lemma crc_bits_l n r : crc_bits n (crc_bit r) = crc_bits (S n) r.
Proof. symmetry. apply Nat.iter_succ_r. Qed.

(** The register is the top of the number being divided; the places below wait. *)
Lemma poly_rem_register n k r low :
  reg r → 0 ≤ low < 2 ^ (24 + Z.of_nat k) →
  poly_rem (n + k) (Z.lxor (r * 2 ^ Z.of_nat (n + k)) low)
  = poly_rem k (Z.lxor (crc_bits n r * 2 ^ Z.of_nat k) low).
Proof.
  intros Hr Hlow. revert r Hr. induction n as [|n IH]; intros r Hr; [done|].
  change (S n + k)%nat with (S (n + k)). cbn [poly_rem].
  rewrite <- crc_bits_l, <- IH by (by apply reg_crc_bit). f_equal.
  set (i := Z.of_nat (n + k)). assert (Hi : Z.of_nat k ≤ i) by lia.
  replace (Z.of_nat (S (n + k))) with (i + 1) by lia.
  assert (Htop : Z.testbit (Z.lxor (r * 2 ^ (i + 1)) low) (24 + i) = Z.testbit r 23).
  { rewrite Z.lxor_spec, (testbit_high low (24 + Z.of_nat k)) by lia. rewrite xorb_false_r.
    rewrite Z.mul_pow2_bits by lia. f_equal. lia. }
  rewrite Htop, crc_bit_eq by done.
  replace (r * 2 ^ (i + 1)) with (2 * r * 2 ^ i) by (rewrite Z.pow_add_r by lia; lia).
  destruct (Z.testbit r 23); [|by rewrite Z.lxor_0_r].
  rewrite <- lxor_pow2 by lia. rewrite !Z.lxor_assoc. f_equal. apply Z.lxor_comm.
Qed.

#[local] Opaque poly_rem crc_bit crc_bits crc_byte Z.pow Z.lxor.

Lemma poly_rem_nil v : poly_rem 0 v = v.
Proof. reflexivity. Qed.

(** The first byte of a text is at the top of the number it is read as. *)
Lemma top_byte c x M k :
  0 ≤ k → 0 ≤ M < 2 ^ k →
  Z.lxor (c * 2 ^ (8 + k)) ((x * 2 ^ k + M) * 2 ^ 24) = Z.lxor (Z.lxor c (x * 2 ^ 16) * 2 ^ (8 + k)) (M * 2 ^ 24).
Proof.
  intros Hk HM. assert (H24 : 2 ^ (24 + k) = 2 ^ 24 * 2 ^ k) by (apply Z.pow_add_r; lia).
  replace ((x * 2 ^ k + M) * 2 ^ 24) with (x * 2 ^ (24 + k) + M * 2 ^ 24) by (rewrite H24; lia).
  rewrite <- lxor_shifted by lia.
  rewrite <- Z.lxor_assoc. f_equal.
  assert (H : x * 2 ^ (24 + k) = x * 2 ^ 16 * 2 ^ (8 + k)).
  { rewrite <- Z.mul_assoc, <- Z.pow_add_r by lia. do 2 f_equal. lia. }
  rewrite H. apply lxor_pow2. lia.
Qed.

Lemma be_val_cons b data : be_val 0 (b :: data) = byteZ b * 256 ^ Z.of_nat (length data) + be_val 0 data.
Proof. cbn [be_val]. apply be_val_acc. Qed.

Lemma pow_256 n : 256 ^ Z.of_nat n = 2 ^ Z.of_nat (8 * n).
Proof. change 256 with (2 ^ 8). rewrite <- Z.pow_mul_r by lia. f_equal. lia. Qed.

Lemma fold_left_cons {A B} (f : A → B → A) x l a : fold_left f (x :: l) a = fold_left f l (f a x).
Proof. reflexivity. Qed.

Lemma poly_rem_byte c b M k :
  reg c → 0 ≤ M < 2 ^ Z.of_nat k →
  poly_rem (8 + k) (Z.lxor (c * 2 ^ Z.of_nat (8 + k)) ((byteZ b * 2 ^ Z.of_nat k + M) * 2 ^ 24))
  = poly_rem k (Z.lxor (crc_byte c b * 2 ^ Z.of_nat k) (M * 2 ^ 24)).
Proof.
  intros Hc HM. rewrite crc_byte_eq, <- poly_rem_register.
  - replace (Z.of_nat (8 + k)) with (8 + Z.of_nat k) by lia. rewrite (top_byte c (byteZ b) M (Z.of_nat k)); [done|lia|exact HM].
  - apply reg_lxor; [exact Hc|apply reg_byte].
  - rewrite Z.pow_add_r by lia. lia.
Qed.

Lemma poly_rem_crc data c :
  reg c →
  poly_rem (8 * length data) (Z.lxor (c * 2 ^ Z.of_nat (8 * length data)) (be_val 0 data * 2 ^ 24))
  = fold_left crc_byte data c.
Proof.
  revert c; induction data as [|b data IH]; intros c Hc.
  { change (8 * length (@nil byte))%nat with 0%nat. rewrite poly_rem_nil. change (be_val 0 []) with 0.
    rewrite Z.mul_0_l, Z.lxor_0_r. apply Z.mul_1_r. }
  rewrite fold_left_cons, <- (IH (crc_byte c b) (reg_crc_byte c b Hc)).
  assert (Hk : (8 * length (b :: data))%nat = (8 + 8 * length data)%nat) by (cbn [length]; lia).
  rewrite Hk, be_val_cons, pow_256. apply poly_rem_byte; [exact Hc|].
  rewrite <- pow_256. apply be_val_bound.
Qed.

(** C29. The checksum is the one the standard defines: the remainder, by the generator, of the
    text shifted by 24 places, with the initial value added at its top. *)
Theorem crc24_is_remainder data :
  crc24 data =
  poly_rem (8 * length data) (Z.lxor (0xB704CE * 2 ^ Z.of_nat (8 * length data)) (be_val 0 data * 2 ^ 24)).
Proof. rewrite poly_rem_crc by apply crc_init. apply crc24_reg. Qed.
