(* ===== verification/Proxy.v ===== *)
(** * The upstream proxy (proxy.go) and the transport of main.go

    How the proxy variables of the environment are mapped to the one syncthing's dialer
    reads; the dialer that tunnels through an HTTP proxy with CONNECT, and the connection
    it returns, which must not lose what was read too far; the transport that turns error
    pages of the syncthing servers into errors. *)

From S2P Require Import Prelude GoStrings Effects Copy OpenPGP.

(** ** The environment: [setupProxyEnvironment] *)

Abbreviation environment := (gmap bytes bytes).

Definition Getenv (env : environment) (name : bytes) : bytes := default [] (env !! name).

Definition proxy_vars : list bytes :=
  [str "SOCKS_PROXY"; str "socks_proxy"; str "HTTPS_PROXY"; str "https_proxy"; str "HTTP_PROXY"; str "http_proxy"].

(** A proxy given without a scheme is an HTTP proxy. *)
Definition with_scheme (p : bytes) : bytes := if Contains p "://" then p else str "http://" ++ p.

Fixpoint first_proxy (vars : list bytes) (env : environment) : environment :=
  match vars with
  | [] => env
  | v :: vars =>
      if negb (Getenv env v =s "") then <[str "all_proxy" := with_scheme (Getenv env v)]> env
      else first_proxy vars env
  end.

(** The schemes that [httpProxyDialer] is registered for, and the new environment. *)
Definition setupProxyEnvironment (env : environment) : list bytes * environment :=
  ([str "http"; str "https"],
   if (Getenv env "all_proxy" =s "") && (Getenv env "ALL_PROXY" =s "")
   then first_proxy proxy_vars env else env).

(** ** The CONNECT request *)

(** The part of a [url.URL] that is used: the host with its port, and the user with a
    password, if there is one. *)
Record proxy_url := mkProxyURL { Host : bytes; User : option (bytes * bytes) }.

Definition crlf : bytes := [x0d; x0a].

(** [http.Request.SetBasicAuth] *)
Definition basic_auth (user password : bytes) : bytes :=
  str "Basic " ++ encode64 (user ++ str ":" ++ password).

(** What [http.Request.Write] sends for the method CONNECT. *)
Definition connect_request (u : proxy_url) (addr : bytes) : bytes :=
  str "CONNECT " ++ addr ++ str " HTTP/1.1" ++ crlf ++
  str "Host: " ++ addr ++ crlf ++
  str "User-Agent: Go-http-client/1.1" ++ crlf ++
  match User u with
  | Some (user, password) => str "Authorization: " ++ basic_auth user password ++ crlf
  | None => []
  end ++ crlf.

(** ** The dialer *)

(** [ReadResponse] answers with the status and what the buffered reader read beyond the
    response. *)
Inductive proxyE : Type → Type :=
| DialForward (network host : bytes) : proxyE (option error)
| WriteRequest (text : bytes) : proxyE (option error)
| ReadResponse : proxyE (result (Z * bytes))
| CloseConn : proxyE unit.

#[global] Instance proxy_effect : Effect proxyE := recording proxyE (λ _ _ _, True).

(** [proxyConn]: the buffered bytes and the error the buffered reader holds back, and the
    reader of [io.MultiReader] that is read from: the buffered one, the connection itself,
    or none any more. *)
Inductive turn : Type := Buffer | Connection | Ended.
Record proxyConn := mkProxyConn { buffered : bytes; held : option error; at_ : turn }.

Definition Dial (u : proxy_url) (addr : bytes) : prog proxyE (result proxyConn) :=
  c <- trigger (DialForward "tcp" (Host u)) ;;
  match c with
  | Some e => Ret (Err e)
  | None =>
      w <- trigger (WriteRequest (connect_request u addr)) ;;
      match w with
      | Some e => trigger CloseConn ;;; Ret (Err e)
      | None =>
          r <- trigger ReadResponse ;;
          match r with
          | Err e => trigger CloseConn ;;; Ret (Err e)
          | Ok (status, rest) =>
              if negb (status =? 200)
              then trigger CloseConn ;;; Ret (Err (Errorf (str "HTTP proxy failed with status: " ++ Itoa status)))
              else Ret (Ok (mkProxyConn rest None Buffer))
          end
      end
  end.

(** ** Reading from the tunnel *)

Definition bufio_size : Z := 4096.

(** [bufio.Reader.Read] for a buffer of [n] bytes; [ReadSome] reads from the connection. *)
Definition bufio_Read (n : Z) (c : proxyConn) : prog copyE (bytes * option error * proxyConn) :=
  let ready := buffered c in
  if n =? 0 then
    if 0 <? Z.of_nat (length ready) then Ret ([], None, c)
    else Ret ([], held c, mkProxyConn ready None (at_ c))
  else if 0 <? Z.of_nat (length ready) then
    Ret (take (Z.to_nat n) ready, None, mkProxyConn (drop (Z.to_nat n) ready) (held c) (at_ c))
  else
    match held c with
    | Some e => Ret ([], Some e, mkProxyConn [] None (at_ c))
    | None =>
        if bufio_size <=? n then
          r <- trigger (ReadSome n) ;;
          Ret (fst r, snd r, mkProxyConn [] None (at_ c))
        else
          r <- trigger (ReadSome bufio_size) ;;
          match fst r with
          | [] => Ret ([], snd r, mkProxyConn [] None (at_ c))
          | _ => Ret (take (Z.to_nat n) (fst r), None,
                      mkProxyConn (drop (Z.to_nat n) (fst r)) (snd r) (at_ c))
          end
    end.

(** [proxyConn.Read]: the buffered reader and then the connection ([io.MultiReader]). *)
Definition conn_Read (n : Z) : prog copyE (bytes * option error * proxyConn) :=
  r <- trigger (ReadSome n) ;;
  Ret (fst r, snd r, mkProxyConn [] None (if bool_decide (snd r = Some EOF) then Ended else Connection)).

Definition proxy_Read (n : Z) (c : proxyConn) : prog copyE (bytes * option error * proxyConn) :=
  match at_ c with
  | Buffer =>
      r <- bufio_Read n c ;;
      let '(data, err, c) := r in
      if bool_decide (err = Some EOF) then
        match data with
        | [] => conn_Read n
        | _ => Ret (data, None, mkProxyConn (buffered c) (held c) Connection)
        end
      else Ret (data, err, c)
  | Connection => conn_Read n
  | Ended => Ret ([], Some EOF, c)
  end.

(** ** The transport of [http.DefaultClient] *)

Inductive httpE : Type → Type :=
| RoundTripper : httpE (result Z)
| ReadBody (limit : Z) : httpE bytes
| CloseBody : httpE unit
| LogWarn (status : Z) (body : bytes) : httpE unit.

#[global] Instance http_effect : Effect httpE :=
  recording httpE (λ X e, match e in httpE X return X → Prop with
    | ReadBody n => λ b, Z.of_nat (length b) ≤ n
    | _ => λ _, True
    end).

(** The status of the response that the caller gets, its body unread. *)
Definition RoundTrip (host : bytes) : prog httpE (result Z) :=
  r <- trigger RoundTripper ;;
  match r with
  | Err e => Ret (Err e)
  | Ok status =>
      if Contains host "syncthing.net" && (400 <=? status) then
        body <- trigger (ReadBody 256) ;;
        trigger CloseBody ;;;
        trigger (LogWarn status body) ;;;
        Ret (Err (Errorf (str "relay rate-limit or captive portal intercepted the connection (HTTP " ++
                          Itoa status ++ str "): " ++ body)))
      else Ret (Ok status)
  end.

(** ** The environment *)

Lemma with_scheme_scheme p : Contains (with_scheme p) "://" = true.
Proof.
  unfold with_scheme. destruct (Contains p "://") eqn:E; [done|]. apply Contains_spec.
  by exists (str "http"), p.
Qed.

(** What the loop does, in one formula. *)
Lemma first_proxy_spec vars env :
  first_proxy vars env =
  match filter (λ w, Getenv env w ≠ []) vars with
  | [] => env
  | w :: _ => <[str "all_proxy" := with_scheme (Getenv env w)]> env
  end.
Proof.
  induction vars as [|w vars IH]; [done|]. cbn [first_proxy].
  destruct (Getenv env w =s "") eqn:E; bools; cbn [negb].
  - rewrite IH, filter_cons_False; [done|]. by rewrite E; intros [].
  - by rewrite filter_cons_True by done.
Qed.

Lemma filter_first {A} (P : A → Prop) `{!∀ x, Decision (P x)} before x after :
  Forall (λ y, ¬ P y) before → P x → ∃ l, filter P (before ++ x :: after) = x :: l.
Proof.
  intros Hb Hx. induction Hb as [|y before Hy Hb IH]; cbn [app].
  - rewrite filter_cons_True by done. by eexists.
  - by rewrite filter_cons_False.
Qed.

(** A proxy the user chose for everything is kept; otherwise the first of the variables that
    is set decides, always with a scheme; and nothing else changes. *)
Theorem proxy_env (env : environment) :
  let env' := snd (setupProxyEnvironment env) in
  (∀ v : bytes, v ≠ "all_proxy" → env' !! v = env !! v) ∧
  (Getenv env "all_proxy" ≠ [] ∨ Getenv env "ALL_PROXY" ≠ [] → env' = env) ∧
  (Getenv env "all_proxy" = [] → Getenv env "ALL_PROXY" = [] →
     ∀ before name after, proxy_vars = before ++ name :: after →
       Forall (λ w, Getenv env w = []) before → Getenv env name ≠ [] →
       Getenv env' "all_proxy" = with_scheme (Getenv env name)) ∧
  (Getenv env' "all_proxy" ≠ Getenv env "all_proxy" → Contains (Getenv env' "all_proxy") "://" = true).
Proof.
  cbn zeta. unfold setupProxyEnvironment. cbn [snd]. rewrite first_proxy_spec. set (found := filter _ _). split_and!.
  - intros v Hv. case_match; [|done]. destruct found; [done|]. by rewrite lookup_insert_ne.
  - intros H. case_match eqn:E; bools; [|done]. naive_solver.
  - intros H1 H2 before name after Hp Hb Hn. destruct (_ && _) eqn:E; [|by rewrite H1, H2 in E].
    destruct (filter_first (λ w, Getenv env w ≠ []) before name after) as [l Hl]; [|done|].
    { eapply Forall_impl; [exact Hb|]. by intros w -> ?. }
    unfold found. rewrite Hp, Hl. unfold Getenv at 1. by rewrite lookup_insert_eq.
  - case_match; [|done]. destruct found as [|w l]; [done|]. intros _. unfold Getenv at 1.
    rewrite lookup_insert_eq. apply with_scheme_scheme.
Qed.

(** ** The dialer *)

Definition closes_conn (ev : event proxyE) : bool := match ev with Did CloseConn _ => true | _ => false end.

(** A tunnel is handed out only after the proxy answered 200 to the request for this
    address; in every other case the connection, if there was one, has been closed. *)
Theorem proxy_dial u addr t r :
  exec (Dial u addr) t r →
  match r with
  | Ok c => ∃ rest, t = [Did (DialForward "tcp" (Host u)) None;
                         Did (WriteRequest (connect_request u addr)) None;
                         Did ReadResponse (Ok (200, rest))] ∧ c = mkProxyConn rest None Buffer
  | Err e => t = [Did (DialForward "tcp" (Host u)) (Some e)] ∨
             ∃ t', t = Did (DialForward "tcp" (Host u)) None :: t' ++ [Did CloseConn tt] ∧
               (Did CloseConn tt ∉ t')
  end.
Proof.
  intros ([e|] & t1 & _ & -> & H)%exec_ask; [by destruct H as [-> ->]; left|].
  assert (Hclose : ∀ t', forallb (λ ev, negb (closes_conn ev)) t' = true →
    ∃ t0, Did (DialForward "tcp" (Host u)) None :: t' ++ [Did CloseConn tt]
          = Did (DialForward "tcp" (Host u)) None :: t0 ++ [Did CloseConn tt] ∧ (Did CloseConn tt ∉ t0)).
  { intros t' Ht. exists t'. split; [done|]. by apply (forallb_absent closes_conn). }
  apply exec_ask in H as ([e|] & t2 & _ & -> & H).
  { apply exec_ask in H as ([] & t3 & _ & -> & [-> ->]). right.
    by apply (Hclose [Did (WriteRequest (connect_request u addr)) (Some e)]). }
  apply exec_ask in H as ([[status rest]|e] & t3 & _ & -> & H).
  - destruct (status =? 200) eqn:Es; bools; cbn [negb] in H.
    + destruct H as [-> ->]. subst. by exists rest.
    + apply exec_ask in H as ([] & t4 & _ & -> & [-> ->]). right.
      by apply (Hclose [Did (WriteRequest (connect_request u addr)) None; Did ReadResponse (Ok (status, rest))]).
  - apply exec_ask in H as ([] & t4 & _ & -> & [-> ->]). right.
    by apply (Hclose [Did (WriteRequest (connect_request u addr)) None; Did ReadResponse (Err e)]).
Qed.

(** ** Reading from the tunnel *)

(** Reads of the given sizes, to the first error. *)
Fixpoint proxy_reads (sizes : list Z) (c : proxyConn) : prog copyE (bytes * option error * proxyConn) :=
  match sizes with
  | [] => Ret ([], None, c)
  | n :: sizes =>
      r <- proxy_Read n c ;;
      let '(data, err, c) := r in
      match err with
      | Some e => Ret (data, Some e, c)
      | None =>
          r <- proxy_reads sizes c ;;
          let '(more, err, c) := r in
          Ret (data ++ more, err, c)
      end
  end.

(** Only the buffered reader has bytes to give back. *)
Definition tunnel_ok (c : proxyConn) : Prop := at_ c ≠ Buffer → buffered c = [].

Lemma bufio_Read_exact n c t data err c' :
  exec (bufio_Read n c) t (data, err, c') →
  data ++ buffered c' = buffered c ++ data_in t ∧ (err ≠ None → buffered c' = []) ∧ at_ c' = at_ c.
Proof.
  unfold bufio_Read. intros H.
  destruct (n =? 0) eqn:En; [|destruct (0 <? Z.of_nat (length (buffered c))) eqn:El].
  - case_match eqn:E; destruct H as [-> [= -> -> ->]]; cbn; rewrite app_nil_r; split_and!; try done.
    intros _. apply length_zero_iff_nil. bools. lia.
  - destruct H as [-> [= -> -> ->]]. cbn. by rewrite app_nil_r, take_drop.
  - assert (buffered c = []) as -> by (apply length_zero_iff_nil; bools; lia).
    destruct (held c); [by destruct H as [-> [= -> -> ->]]|].
    destruct (bufio_size <=? n).
    + apply exec_ask in H as ([bs er] & t1 & _ & -> & [-> [= -> -> ->]]). cbn. by rewrite !app_nil_r.
    + apply exec_ask in H as ([bs er] & t1 & _ & -> & H). cbn in H.
      destruct bs as [|b bs]; destruct H as [-> [= -> -> ->]]; cbn; [done|].
      rewrite app_nil_r. split_and!; [|done..]. apply (take_drop (Z.to_nat n) (b :: bs)).
Qed.

Lemma conn_Read_exact n t data err c' :
  exec (conn_Read n) t (data, err, c') → data = data_in t ∧ buffered c' = [].
Proof. intros ([bs er] & t1 & _ & -> & [-> [= -> -> ->]])%exec_ask. cbn. by rewrite app_nil_r. Qed.

Lemma data_in_app t1 t2 : data_in (t1 ++ t2) = data_in t1 ++ data_in t2.
Proof. unfold data_in. by rewrite omap_app, concat_app. Qed.

Lemma proxy_Read_exact n c t data err c' :
  tunnel_ok c → exec (proxy_Read n c) t (data, err, c') →
  data ++ buffered c' = buffered c ++ data_in t ∧ (err ≠ None → buffered c' = []) ∧ tunnel_ok c'.
Proof.
  intros Hc H. unfold proxy_Read in H. destruct (at_ c) eqn:Ea.
  - apply exec_bind in H as (t1 & t2 & [[d1 e1] c1] & -> & (Hd & He & Hat)%bufio_Read_exact & H).
    rewrite data_in_app, app_assoc, <- Hd. case_bool_decide as E.
    + subst e1. specialize (He ltac:(done)). rewrite He, app_nil_r.
      destruct d1 as [|b d1].
      * apply conn_Read_exact in H as [-> Hb]. rewrite Hb. cbn. by rewrite app_nil_r; split_and!; [| |intros ?].
      * destruct H as [-> [= -> -> ->]]. cbn. by rewrite He, !app_nil_r; split_and!; [| |intros ?].
    + destruct H as [-> [= -> -> ->]]. cbn. rewrite app_nil_r. split_and!; [done|done|].
      intros Hne. by rewrite Hat, Ea in Hne.
  - apply conn_Read_exact in H as [-> Hb]. rewrite Hb, app_nil_r, Hc by (by rewrite Ea).
    by split_and!; [| |intros ?].
  - destruct H as [-> [= -> -> ->]]. cbn. rewrite app_nil_r. split_and!; [done|by rewrite Hc; rewrite ?Ea|done].
Qed.

(** C30. The tunnel is the stream after the proxy's answer: whatever the sizes of the reads, and
    however the connection cuts up what it delivers, the bytes read are, in order, those
    that arrived together with the answer and then those of the connection; what has not
    been returned yet is still held, and nothing is once an error was reported. *)
Theorem tunnel_exact sizes rest t data err c' :
  exec (proxy_reads sizes (mkProxyConn rest None Buffer)) t (data, err, c') →
  data ++ buffered c' = rest ++ data_in t ∧ (err ≠ None → data = rest ++ data_in t).
Proof.
  assert (Hgen : ∀ c t data err c', tunnel_ok c → exec (proxy_reads sizes c) t (data, err, c') →
    data ++ buffered c' = buffered c ++ data_in t ∧ (err ≠ None → buffered c' = [])).
  { clear. induction sizes as [|n sizes IH]; intros c t data err c' Hc H.
    - destruct H as [-> [= -> -> ->]]. cbn. by rewrite app_nil_r.
    - cbn [proxy_reads] in H.
      apply exec_bind in H as (t1 & t2 & [[d1 e1] c1] & -> & (H1 & H2 & H3)%proxy_Read_exact & H); [|done].
      rewrite data_in_app, app_assoc, <- H1. destruct e1 as [e|].
      { destruct H as [-> [= -> -> ->]]. cbn. rewrite app_nil_r. auto. }
      apply exec_bind in H as (t3 & t4 & [[d2 e2] c2] & -> & (H4 & H5)%IH & [-> [= -> -> ->]]); [|done].
      rewrite data_in_app. cbn. rewrite <- !app_assoc, app_nil_r, H4. auto. }
  intros H. destruct (Hgen (mkProxyConn rest None Buffer) t data err c') as [H1 H2]; [by intros []|done|].
  split; [exact H1|]. intros Hne. cbn in H1. by rewrite <- H1, (H2 Hne), app_nil_r.
Qed.

(** ** The transport *)

(** An error page of the syncthing servers never reaches the caller as a response: its body
    is closed after at most 256 bytes, which are in the error; every other response is
    passed on untouched. *)
Theorem error_pages_reported host t r :
  exec (RoundTrip host) t r →
  match r with
  | Ok status => t = [Did RoundTripper (Ok status)] ∧
      (Contains host "syncthing.net" = true → status < 400)
  | Err e => t = [Did RoundTripper (Err e)] ∨
      ∃ status body, 400 ≤ status ∧ Z.of_nat (length body) ≤ 256 ∧
        t = [Did RoundTripper (Ok status); Did (ReadBody 256) body; Did CloseBody tt;
             Did (LogWarn status body) tt] ∧
        e = Errorf (str "relay rate-limit or captive portal intercepted the connection (HTTP " ++
                    Itoa status ++ str "): " ++ body)
  end.
Proof.
  intros ([status|e] & t1 & _ & -> & H)%exec_ask; [|by destruct H as [-> ->]; left].
  destruct (Contains host "syncthing.net") eqn:Eh; cbn [andb] in H;
    [destruct (400 <=? status) eqn:Es; bools|]; [|by destruct H as [-> ->]..].
  apply exec_ask in H as (body & t2 & Hb & -> & H).
  apply exec_ask in H as ([] & t3 & _ & -> & H). apply exec_ask in H as ([] & t4 & _ & -> & [-> ->]).
  right. by exists status, body.
Qed.

(** ** The theorems at concrete inputs *)

(** An environment with a proxy for HTTP only. *)
Definition env_wit : environment := {[str "http_proxy" := str "proxy:3128"]}.

Lemma proxy_env_wit : Getenv (snd (setupProxyEnvironment env_wit)) "all_proxy" = "http://proxy:3128".
Proof. by vm_compute. Qed.

Lemma proxy_dial_witness :
  ∃ rest, [Did (DialForward "tcp" "proxy:3128") None;
     Did (WriteRequest (connect_request (mkProxyURL "proxy:3128" None) "peer:1")) None;
     Did ReadResponse (Ok (200, str "hello"))]
    = [Did (DialForward "tcp" "proxy:3128") None;
       Did (WriteRequest (connect_request (mkProxyURL "proxy:3128" None) "peer:1")) None;
       Did ReadResponse (Ok (200, rest))] ∧ mkProxyConn "hello" None Buffer = mkProxyConn rest None Buffer.
Proof.
  apply (proxy_dial (mkProxyURL "proxy:3128" None) "peer:1" _ (Ok (mkProxyConn "hello" None Buffer))).
  exists None, [Did (WriteRequest (connect_request (mkProxyURL "proxy:3128" None) "peer:1")) None;
     Did ReadResponse (Ok (200, str "hello"))]. split_and!; [done|done|].
  exists None, [Did ReadResponse (Ok (200, str "hello"))]. split_and!; [done|done|].
  exists (Ok (200, str "hello")), []. by split_and!.
Defined.

(** "hello" came with the answer, " you" from the connection, in reads of three bytes. *)
Lemma tunnel_exact_witness :
  str "hello yo" ++ str "u" = str "hello" ++ data_in [DidRead " you" None] ∧
  (@None error ≠ None → str "hello yo" = str "hello" ++ data_in [DidRead " you" None]).
Proof.
  apply (tunnel_exact [3; 3; 3] "hello" [DidRead " you" None] "hello yo" None (mkProxyConn "u" None Buffer)).
  exists (str " you", None), []. by split_and!.
Defined.

Lemma error_pages_reported_witness :
  [Did RoundTripper (Ok 200)] = [Did RoundTripper (Ok 200)] ∧
  (Contains "relays.syncthing.net" "syncthing.net" = true → 200 < 400).
Proof.
  apply (error_pages_reported "relays.syncthing.net" [Did RoundTripper (Ok 200)] (Ok 200)).
  exists (Ok 200), []. by split_and!.
Defined.
