(* ===== verification/Keystore.v ===== *)
(** * The signing-key generator

    [scripts/generate_keystore.go]: every signing identity of the project is derived from
    one secret and a role.  The derivations are functions over the primitives they use
    (a record of parameters); [main] and [runOpenPGP] are programs over the files they
    read and write and the two output streams. *)

From S2P Require Import Prelude GoStrings Effects OpenPGP.

(** ** Paths: [filepath.Join] *)

(** One component of a path after the cleaned [stack], which is reversed. *)
Definition push_elem (rooted : bool) (stack : list bytes) (e : bytes) : list bytes :=
  if (e =s "") || (e =s ".") then stack
  else if e =s ".." then
    match stack with
    | top :: rest => if top =s ".." then e :: stack else rest
    | [] => if rooted then [] else [e]
    end
  else e :: stack.

Definition Clean (path : bytes) : bytes :=
  let rooted := HasPrefix path "/" in
  let body := Join (reverse (fold_left (push_elem rooted) (Split path "/"%byte) [])) "/" in
  if rooted then str "/" ++ body else if body =s "" then "." else body.

Definition path_join (a b : bytes) : bytes :=
  if a =s "" then (if b =s "" then [] else Clean b)
  else if b =s "" then Clean a else Clean (a ++ str "/" ++ b).

Definition pinnedCertPath (role : bytes) : bytes := path_join "signing" (role ++ str "-cert.pem").

(** ** Derivations *)

(** The public key of a certificate: an ECDSA one, or of another kind. *)
Inductive cert_key : Type := ECDSA (pub : bytes) | OtherKey.

(** The primitives of the crypto, x509 and pem packages that the script uses. *)
Record primitives := mkPrimitives {
  hkdf : bytes → bytes → bytes → Z → result bytes;
  ScalarBaseMult : Z → bytes;
  NewKeyFromSeed : bytes → bytes;
  ed_Sign : bytes → bytes → bytes;
  sha1_Sum : bytes → bytes;
  sha256_Sum : bytes → bytes;
  hmac_sha256 : bytes → bytes → bytes;
  ParseCertificate : bytes → result cert_key;
  pem_Decode : bytes → option bytes;
  MarshalECPrivateKey : Z → result bytes;
}.

Definition hkdfSalt : bytes := "syncthing-luks".

(** The order of the group of the P-256 curve. *)
Definition P256_N : Z := 0xFFFFFFFF00000000FFFFFFFFFFFFFFFFBCE6FAADA7179E84F3B9CAC2FC632551.

(** [base64.RawURLEncoding]: another alphabet and no padding. *)
Definition raw_url64 (b : bytes) : bytes :=
  map (λ c, if beq c "+"%byte then "-"%byte else if beq c "/"%byte then "_"%byte else c)
    (filter (λ c, c ≠ "="%byte) (encode64 b)).

(** The fields of [x509.Certificate] that the script sets; times are in seconds since 1970,
    and the usages are those for digital signatures and for code signing. *)
Record certificate := mkCertificate {
  SerialNumber : Z;
  CommonName : bytes;
  Organization : list bytes;
  NotBefore : Z;
  NotAfter : Z;
  DigitalSignature : bool;
  CodeSigning : bool;
  BasicConstraintsValid : bool;
}.

Definition certNotBefore : Z := 1704067200.
Definition certNotAfter : Z := 2840140800.

Definition certTemplate (role : bytes) : certificate :=
  mkCertificate 1 (str "Syncthing LUKS " ++ role) [str "Syncthing LUKS"] certNotBefore certNotAfter
    true true true.

(** ** What the script asks of the system *)

Inductive genE : Type → Type :=
| ReadFile (path : bytes) : genE (result bytes)
| MkdirAll (path : bytes) : genE (option error)
| WriteFile (path content : bytes) : genE (option error)
| Create (path : bytes) : genE (option error)
| EncodePEM (path blockType der : bytes) : genE (option error)
| OpenFile (path : bytes) : genE (option error)
| PutFile (path content : bytes) : genE (option error)
| CloseFile (path : bytes) : genE unit
| CreateCertificate (template parent : certificate) (d : Z) : genE (result bytes)
| Stdout (text : bytes) : genE unit
| Stderr (text : bytes) : genE unit.

#[global] Instance gen_effect : Effect genE := recording genE (λ _ _ _, True).

(** The arguments of [writePEM], in a file that is created or truncated. *)
Definition writePEM (path blockType der : bytes) : prog genE (option error) :=
  c <- trigger (Create path) ;;
  match c with
  | Some e => Ret (Some e)
  | None =>
      r <- trigger (EncodePEM path blockType der) ;;
      trigger (CloseFile path) ;;;
      Ret r
  end.

(** [fail]: the exit status is 1. *)
Definition fail (text : bytes) : prog genE Z :=
  trigger (Stderr (str "generate_keystore: " ++ text ++ [x0a])) ;;; Ret 1.

Section Generator.
Context (P : primitives) (error_string : error → bytes).

Definition expand (seed role purpose : bytes) (length : Z) : result bytes :=
  hkdf P seed hkdfSalt (role ++ purpose) length.

(** The scalar of the key. *)
Definition deriveECKey (seed role : bytes) : result Z :=
  match expand seed role "" 32 with
  | Err e => Err e
  | Ok okm => Ok (be_val 0 okm mod (P256_N - 1) + 1)
  end.

Definition derivePassphrase (seed role : bytes) : result bytes :=
  match expand seed role ":passphrase-key" 32 with
  | Err e => Err e
  | Ok prk => Ok (raw_url64 (take 24 (hmac_sha256 P prk (role ++ str ":passphrase"))))
  end.

Definition deriveEd25519Key (seed role : bytes) : result bytes :=
  match expand seed role ":openpgp-ed25519" 32 with
  | Err e => Err e
  | Ok okm => Ok (NewKeyFromSeed P okm)
  end.

(** The armored public key of the role. *)
Definition public_armor (priv : bytes) : bytes :=
  armored "PGP PUBLIC KEY BLOCK"
    (transferablePublicKey (sha1_Sum P) (sha256_Sum P) (ed_Sign P) priv).

Definition bootstrapCert (role : bytes) (d : Z) : prog genE (result bytes) :=
  let tmpl := certTemplate role in trigger (CreateCertificate tmpl tmpl d).

(** Minting the certificate: it, or the exit status. *)
Definition bootstrap_cert (role : bytes) (d : Z) : prog genE (Z + bytes) :=
  cert <- bootstrapCert role d ;;
  match cert with
  | Err e => s <- fail (str "minting the " ++ role ++ str " certificate: " ++ error_string e) ;; Ret (inl s)
  | Ok certDER =>
      m <- trigger (MkdirAll "signing") ;;
      match m with
      | Some e => s <- fail (str "creating signing/: " ++ error_string e) ;; Ret (inl s)
      | None =>
          w <- writePEM (pinnedCertPath role) "CERTIFICATE" certDER ;;
          match w with
          | Some e =>
              s <- fail (str "writing " ++ pinnedCertPath role ++ str ": " ++ error_string e) ;; Ret (inl s)
          | None =>
              trigger (Stderr (str "wrote " ++ pinnedCertPath role ++
                               str "; commit it, and never bootstrap this role again" ++ [x0a])) ;;;
              Ret (inr certDER)
          end
      end
  end.

(** The pinned certificate, if it is that of the derived key. *)
Definition pinned_cert (role : bytes) (d : Z) : prog genE (Z + bytes) :=
  let path := pinnedCertPath role in
  pemBytes <- trigger (ReadFile path) ;;
  match pemBytes with
  | Err e =>
      s <- fail (str "reading the pinned certificate " ++ path ++ str ": " ++ error_string e ++ [x0a] ++
                 str "  Run with -bootstrap once to create it, then commit it.") ;; Ret (inl s)
  | Ok pemBytes =>
      match pem_Decode P pemBytes with
      | None => s <- fail (path ++ str " is not PEM") ;; Ret (inl s)
      | Some certDER =>
          match ParseCertificate P certDER with
          | Err e => s <- fail (str "parsing " ++ path ++ str ": " ++ error_string e) ;; Ret (inl s)
          | Ok OtherKey => s <- fail (path ++ str " does not hold an ECDSA public key") ;; Ret (inl s)
          | Ok (ECDSA pinned) =>
              if negb (pinned =s ScalarBaseMult P d)
              then s <- fail (str "the seed does not match the committed certificate " ++ path ++ str "." ++ [x0a] ++
                     str "  Either MASTER_SECRET is wrong, or the certificate belongs to a different seed." ++ [x0a] ++
                     str "  Signing with a mismatched identity would break every existing install.") ;; Ret (inl s)
              else Ret (inr certDER)
          end
      end
  end.

(** From the certificate to the end of [main]. *)
Definition publish (seed role : bytes) (d : Z) (certDER : bytes) : prog genE Z :=
  match MarshalECPrivateKey P d with
  | Err e => fail (str "marshalling the " ++ role ++ str " key: " ++ error_string e)
  | Ok privDER =>
      k <- writePEM (str "key_" ++ role ++ str ".pem") "EC PRIVATE KEY" privDER ;;
      match k with
      | Some e => fail (str "writing key_" ++ role ++ str ".pem: " ++ error_string e)
      | None =>
          c <- writePEM (str "cert_" ++ role ++ str ".pem") "CERTIFICATE" certDER ;;
          match c with
          | Some e => fail (str "writing cert_" ++ role ++ str ".pem: " ++ error_string e)
          | None =>
              match derivePassphrase seed role with
              | Err e => fail (str "deriving the " ++ role ++ str " passphrase: " ++ error_string e)
              | Ok pass =>
                  trigger (Stdout (pass ++ [x0a])) ;;;
                  trigger (Stderr (role ++ str " certificate sha256: " ++
                                   hex_lower (sha256_Sum P certDER) ++ [x0a])) ;;;
                  Ret 0
              end
          end
      end
  end.

(** [runOpenPGP] after the public key was pinned or verified. *)
Definition publish_openpgp (role priv : bytes) : prog genE Z :=
  let secPath := str "secret_" ++ role ++ str ".asc" in
  f <- trigger (OpenFile secPath) ;;
  match f with
  | Some e => fail (str "writing " ++ secPath ++ str ": " ++ error_string e)
  | None =>
      r <- translate (λ X e, match e in writeE X return genE X with Put b => PutFile secPath b end)
             (armor "PGP PRIVATE KEY BLOCK"
                (transferableSecretKey (sha1_Sum P) (sha256_Sum P) (ed_Sign P) priv)) ;;
      trigger (CloseFile secPath) ;;;
      match r with
      | Some e => fail (str "armouring the " ++ role ++ str " secret key: " ++ error_string e)
      | None =>
          w <- trigger (WriteFile (str "pub_" ++ role ++ str ".asc") (public_armor priv)) ;;
          match w with
          | Some e => fail (str "writing pub_" ++ role ++ str ".asc: " ++ error_string e)
          | None =>
              let fp := hex_upper (fingerprint (sha1_Sum P) (Public priv)) in
              trigger (Stdout (fp ++ [x0a])) ;;;
              trigger (Stderr (role ++ str " OpenPGP fingerprint: " ++ fp ++ [x0a])) ;;;
              Ret 0
          end
      end
  end.

Definition runOpenPGP (seed role : bytes) (bootstrap : bool) : prog genE Z :=
  match deriveEd25519Key seed role with
  | Err e => fail (str "deriving the " ++ role ++ str " key: " ++ error_string e)
  | Ok priv =>
      let pinned := path_join "signing" (role ++ str "-pub.asc") in
      if bootstrap then
        m <- trigger (MkdirAll "signing") ;;
        match m with
        | Some e => fail (str "creating signing/: " ++ error_string e)
        | None =>
            w <- trigger (WriteFile pinned (public_armor priv)) ;;
            match w with
            | Some e => fail (str "writing " ++ pinned ++ str ": " ++ error_string e)
            | None =>
                trigger (Stderr (str "wrote " ++ pinned ++ str "; commit it" ++ [x0a])) ;;;
                publish_openpgp role priv
            end
        end
      else
        want <- trigger (ReadFile pinned) ;;
        match want with
        | Err e =>
            fail (str "reading the pinned public key " ++ pinned ++ str ": " ++ error_string e ++ [x0a] ++
                  str "  Run with -bootstrap once to create it, then commit it.")
        | Ok want =>
            if negb (TrimSpace want =s TrimSpace (public_armor priv))
            then fail (str "the seed does not reproduce the committed public key " ++ pinned ++ str "." ++ [x0a] ++
                   str "  Either MASTER_SECRET is wrong, or the key belongs to a different seed." ++ [x0a] ++
                   str "  Signing packages with an unknown key would strand every apt client.")
            else publish_openpgp role priv
        end
  end.

(** [main] after its arguments have been taken apart: the exit status. *)
Definition generate (bootstrap : bool) (seed role : bytes) : prog genE Z :=
  if seed =s "" then
    fail (str "the master seed is empty; refusing to produce a signing identity." ++ [x0a] ++
          str "  Set the MASTER_SECRET repository secret. Falling back to a throwaway key would" ++ [x0a] ++
          str "  publish artefacts nobody can reproduce or upgrade across.")
  else if role =s "debian" then runOpenPGP seed role bootstrap
  else
    match deriveECKey seed role with
    | Err e => fail (str "deriving the " ++ role ++ str " key: " ++ error_string e)
    | Ok d =>
        cert <- (if bootstrap then bootstrap_cert role d else pinned_cert role d) ;;
        match cert with
        | inl status => Ret status
        | inr certDER => publish seed role d certDER
        end
    end.

Definition split_args (args : list bytes) : bool * list bytes :=
  match args with
  | a :: rest => if a =s "-bootstrap" then (true, rest) else (false, args)
  | [] => (false, [])
  end.

(** [main], with [os.Args[1:]]. *)
Definition main (args : list bytes) : prog genE Z :=
  match split_args args with
  | (bootstrap, [seed; role]) => generate bootstrap seed role
  | _ =>
      trigger (Stderr (str "Usage: generate_keystore [-bootstrap] <master_seed> <role>" ++ [x0a])) ;;;
      Ret 2
  end.
End Generator.

(** ** The key *)

(** The scalar of every derived key is one the curve allows: neither zero nor as large as
    the order of the group, whatever the derivation yields. *)
Theorem deriveECKey_range P seed role d : deriveECKey P seed role = Ok d → 1 ≤ d < P256_N.
Proof.
  unfold deriveECKey. destruct (expand P seed role "" 32) as [okm|]; [|done].
  intros [= <-]. pose proof (Z.mod_pos_bound (be_val 0 okm) (P256_N - 1) ltac:(done)). lia.
Qed.

(** ** Nothing is signed with an unknown key *)

Section Pinned.
Context (P : primitives) (error_string : error → bytes) (seed role : bytes).

(** The pinned identity has been read and is the one the seed yields. *)
Definition pin_checked (h : list (event genE)) : Prop :=
  seed ≠ [] ∧
  if role =s "debian"
  then ∃ priv want, deriveEd25519Key P seed role = Ok priv ∧
         Did (ReadFile (path_join "signing" (role ++ str "-pub.asc"))) (Ok want) ∈ h ∧
         TrimSpace want = TrimSpace (public_armor P priv)
  else ∃ d pem der, deriveECKey P seed role = Ok d ∧
         Did (ReadFile (pinnedCertPath role)) (Ok pem) ∈ h ∧
         pem_Decode P pem = Some der ∧ ParseCertificate P der = Ok (ECDSA (ScalarBaseMult P d)).

Definition pinned_only (h : list (event genE)) (e : event genE) : Prop :=
  match e with
  | Did (ReadFile _) _ | Did (Stderr _) _ => True
  | _ => pin_checked h
  end.

Lemma pin_checked_later h h' : h `prefix_of` h' → pin_checked h → pin_checked h'.
Proof.
  intros Hh [Hs Hc]. split; [done|]. destruct (role =s "debian").
  - destruct Hc as (priv & want & H1 & H2 & H3). eauto 10 using elem_of_later.
  - destruct Hc as (d & pem & der & H1 & H2 & H3). eauto 10 using elem_of_later.
Qed.

Lemma fail_safe h text Q : (∀ h', h `prefix_of` h' → Q h' 1) → safe (E := genE) pinned_only h (fail text) Q.
Proof. intros HQ. apply safe_ask. intros x _. split; [done|]. apply safe_Ret, HQ. by eexists. Qed.

(** Once the pin has been checked, everything is allowed. *)
Lemma checked_safe {R} h (p : prog genE R) :
  pin_checked h → safe (E := genE) pinned_only h p (λ _ _, True).
Proof.
  revert h; induction p as [r|X e k IH]; intros h Hh; [done|]. intros x _. split.
  - destruct e; done.
  - apply IH. by apply (pin_checked_later h); [eexists|].
Qed.

Lemma fail_inl_safe h text :
  safe (E := genE) pinned_only h (s <- fail text ;; Ret (inl s))
    (λ h' r, ∀ der : bytes, r = inr der → pin_checked h').
Proof.
  apply (safe_call _ _ _ _ (λ _ _, True)); [by apply fail_safe|].
  intros h' st _ _. by apply safe_Ret.
Qed.

Lemma pinned_cert_safe h d :
  seed ≠ [] → (role =s "debian") = false → deriveECKey P seed role = Ok d →
  safe (E := genE) pinned_only h (pinned_cert P error_string role d)
    (λ h' r, ∀ der, r = inr der → pin_checked h').
Proof.
  intros Hs Hr Hd. unfold pinned_cert. apply safe_ask. intros got _. split; [done|].
  destruct got as [pem|e]; [|apply fail_inl_safe].
  destruct (pem_Decode P pem) as [der|] eqn:Ep; [|apply fail_inl_safe].
  destruct (ParseCertificate P der) as [[pinned|]|e] eqn:Ec; [|apply fail_inl_safe..].
  destruct (negb _) eqn:E; [apply fail_inl_safe|].
  apply negb_false_iff, seq_eqb_true in E as ->. apply safe_Ret. intros der' _. split; [done|]. rewrite Hr.
  eexists d, pem, der. split_and!; auto with go.
Qed.

(** C10. No key material leaves an ordinary run unless the seed reproduces the committed
    identity: before the first file is created or written, the first directory made, or
    the first byte printed on the standard output, the pinned certificate or public key
    of the role was read and matched the key derived from a non-empty seed. *)
Theorem keystore_pinned pre e post :
  seed ≠ "-bootstrap" →
  prefix_exec (main P error_string [seed; role]) (pre ++ e :: post) → pinned_only pre e.
Proof.
  intros Hb. refine (safe_always (E := genE) pinned_only _ (λ _ _, True) pre e post _).
  unfold main, split_args. apply seq_eqb_false in Hb. rewrite Hb. unfold generate.
  destruct (seed =s "") eqn:Es; [by apply fail_safe|]. apply seq_eqb_false in Es.
  destruct (role =s "debian") eqn:Er.
  - unfold runOpenPGP. destruct (deriveEd25519Key P seed role) as [priv|] eqn:Ed; [|by apply fail_safe].
    apply safe_ask. intros [want|e0] _; (split; [done|]); [|by apply fail_safe].
    destruct (negb _) eqn:E; [by apply fail_safe|]. apply negb_false_iff, seq_eqb_true in E.
    apply checked_safe.
    split; [done|]. rewrite Er. eauto 10 with go.
  - destruct (deriveECKey P seed role) as [d|] eqn:Ed; [|by apply fail_safe].
    eapply safe_call; [by apply pinned_cert_safe|]. intros h' [st|der] _ H; [by apply safe_Ret|].
    apply checked_safe. by apply (H der).
Qed.
End Pinned.

(** ** What was pinned is reproduced *)

(** A file system where every operation succeeds, and the standard output. *)
Definition disk : handler genE (gmap bytes bytes * bytes) := λ X e s,
  let '(fs, out) := s in
  match e in genE X return X * (gmap bytes bytes * bytes) with
  | ReadFile p => (match fs !! p with Some c => Ok c | None => Err (LibErr "no such file") end, s)
  | MkdirAll _ => (None, s)
  | WriteFile p c => (None, (<[p:=c]> fs, out))
  | Create p | OpenFile p => (None, (<[p:=[]]> fs, out))
  | EncodePEM p ty der => (None, (<[p:=der]> fs, out))
  | PutFile p c => (None, (<[p:=default [] (fs !! p) ++ c]> fs, out))
  | CloseFile _ => (tt, s)
  | CreateCertificate _ _ _ => (Err (LibErr "no randomness"), s)
  | Stdout b => (tt, (fs, out ++ b))
  | Stderr _ => (tt, s)
  end.

Section Reproduced.
Context (P : primitives) (error_string : error → bytes).

Lemma run_secret_armor p ws fs out c :
  fs !! p = Some c →
  run disk (translate (λ X e, match e in writeE X return genE X with Put b => PutFile p b end)
              (put_all ws)) (fs, out)
  = (None, (<[p:=c ++ concat ws]> fs, out)).
Proof.
  revert fs c; induction ws as [|w ws IH]; intros fs c Hc; cbn.
  - by rewrite app_nil_r, insert_id.
  - rewrite Hc. cbn. rewrite (IH _ (c ++ w)) by apply lookup_insert_eq.
    by rewrite insert_insert_eq, <- app_assoc.
Qed.

Lemma run_publish_openpgp role priv fs out :
  let secPath := str "secret_" ++ role ++ str ".asc" in
  let secret := concat (armor_writes "PGP PRIVATE KEY BLOCK"
                  (transferableSecretKey (sha1_Sum P) (sha256_Sum P) (ed_Sign P) priv)) in
  run disk (publish_openpgp P error_string role priv) (fs, out)
  = (0, (<[str "pub_" ++ role ++ str ".asc" := public_armor P priv]> (<[secPath:=secret]> fs),
         out ++ hex_upper (fingerprint (sha1_Sum P) (Public priv)) ++ [x0a])).
Proof.
  intros secPath secret. unfold publish_openpgp, armor. fold secPath.
  cbn [pbind trigger run disk]. rewrite run_bind.
  rewrite (run_secret_armor _ _ _ _ []) by apply lookup_insert_eq.
  cbn [pbind trigger run disk]. by rewrite insert_insert_eq.
Qed.

(** The pin is reproducible: a run with the same seed accepts what the first one pinned,
    writes the same files again and prints the same fingerprint; a run whose seed yields
    another public key stops with status 1 and changes nothing. *)
Theorem openpgp_reproducible seed priv fs out :
  seed ≠ [] → deriveEd25519Key P seed "debian" = Ok priv →
  let '(st, (fs1, out1)) := run disk (main P error_string [str "-bootstrap"; seed; str "debian"]) (fs, out) in
  st = 0 ∧
  ∃ line, out1 = out ++ line ∧
    run disk (generate P error_string false seed "debian") (fs1, out1) = (0, (fs1, out1 ++ line)) ∧
    ∀ seed' priv', seed' ≠ [] → deriveEd25519Key P seed' "debian" = Ok priv' →
      TrimSpace (public_armor P priv') ≠ TrimSpace (public_armor P priv) →
      run disk (generate P error_string false seed' "debian") (fs1, out1) = (1, (fs1, out1)).
Proof.
  intros Hs Hd.
  assert (Hp : path_join "signing" (str "debian" ++ str "-pub.asc") = "signing/debian-pub.asc")
    by (by vm_compute).
  assert (Hm : main P error_string [str "-bootstrap"; seed; str "debian"]
               = runOpenPGP P error_string seed "debian" true).
  { unfold main, split_args, generate. rewrite !seq_eqb_refl.
    by rewrite (proj2 (seq_eqb_false seed "") Hs). }
  rewrite Hm. unfold runOpenPGP. rewrite Hd, Hp. cbn [pbind trigger run disk].
  rewrite run_publish_openpgp. split; [done|]. eexists. split; [done|].
  set (fs1 := <[_:=_]> (<[_:=_]> (<[_:=_]> fs))). set (out1 := out ++ _).
  assert (Hf : fs1 !! str "signing/debian-pub.asc" = Some (public_armor P priv)).
  { unfold fs1. rewrite !lookup_insert_ne by (by vm_compute). apply lookup_insert_eq. }
  split.
  - unfold generate. rewrite (proj2 (seq_eqb_false seed "") Hs), seq_eqb_refl.
    unfold runOpenPGP. rewrite Hd, Hp. cbn [pbind trigger run disk]. rewrite Hf.
    rewrite seq_eqb_refl. cbn [negb]. rewrite run_publish_openpgp. do 2 f_equal.
    rewrite (insert_id fs1); [apply insert_id; apply lookup_insert_eq|].
    unfold fs1. rewrite lookup_insert_ne by (by vm_compute). apply lookup_insert_eq.
  - intros seed' priv' Hs' Hd' Hne. unfold generate.
    rewrite (proj2 (seq_eqb_false seed' "") Hs'), seq_eqb_refl.
    unfold runOpenPGP. rewrite Hd', Hp. cbn [pbind trigger run disk]. rewrite Hf.
    rewrite (proj2 (seq_eqb_false _ _)) by done. done.
Qed.
End Reproduced.

(** ** The theorems at concrete inputs *)

Definition primitives_wit : primitives := {|
  hkdf seed salt info n := Ok (take (Z.to_nat n) (seed ++ replicate 32 x00));
  ScalarBaseMult d := be_bytes 2 d;
  NewKeyFromSeed okm := okm ++ okm;
  ed_Sign _ _ := sig_wit;
  sha1_Sum _ := replicate 20 x07;
  sha256_Sum _ := replicate 32 x05;
  hmac_sha256 _ _ := replicate 32 x09;
  ParseCertificate der := Ok (ECDSA der);
  pem_Decode b := Some b;
  MarshalECPrivateKey d := Ok (be_bytes 2 d);
|}.

Lemma deriveECKey_range_witness :
  deriveECKey primitives_wit [x02] "fdroid" = Ok (2 * 256 ^ 31 + 1) ∧ 1 ≤ 2 * 256 ^ 31 + 1 < P256_N.
Proof.
  assert (H : deriveECKey primitives_wit [x02] "fdroid" = Ok (2 * 256 ^ 31 + 1)) by (by vm_compute).
  split; [exact H|]. exact (deriveECKey_range primitives_wit [x02] "fdroid" _ H).
Defined.

(** A run that finds its certificate: the key file is created after it was read. *)
Definition pinned_run : list (event genE) :=
  trace_of (H := gen_effect) disk (main primitives_wit (λ _, []) [str "s"; str "fdroid"])
    ({[str "signing/fdroid-cert.pem" := [x00; x01]]}, []).

Lemma pinned_run_prefix :
  prefix_exec (main primitives_wit (λ _, []) [str "s"; str "fdroid"])
    ([Did (ReadFile "signing/fdroid-cert.pem") (Ok [x00; x01])] ++
     Did (Create "key_fdroid.pem") None :: drop 2 pinned_run).
Proof.
  assert (H : pinned_run = [Did (ReadFile "signing/fdroid-cert.pem") (Ok [x00; x01])] ++
     Did (Create "key_fdroid.pem") None :: drop 2 pinned_run) by (vm_compute; reflexivity).
  rewrite <- H. unfold pinned_run. eapply (exec_prefix (E := genE)), (run_exec (E := genE) disk). done.
Qed.

Lemma keystore_pinned_witness :
  pin_checked primitives_wit "s" "fdroid" [Did (ReadFile "signing/fdroid-cert.pem") (Ok [x00; x01])].
Proof.
  exact (keystore_pinned primitives_wit (λ _, []) "s" "fdroid" _ _ _
    (proj1 (seq_eqb_false "s" "-bootstrap") eq_refl) pinned_run_prefix).
Defined.

Lemma openpgp_reproducible_witness :
  ∃ fs1 out1, run disk (main primitives_wit (λ _, []) [str "-bootstrap"; str "s"; str "debian"]) (∅, [])
    = (0, (fs1, out1)) ∧
    fst (run disk (generate primitives_wit (λ _, []) false "s" "debian") (fs1, out1)) = 0.
Proof.
  pose proof (openpgp_reproducible primitives_wit (λ _, []) "s" _ ∅ [] ltac:(by vm_compute) eq_refl) as H.
  destruct (run _ _ _) as [st [fs1 out1]]. destruct H as [-> (line & _ & H & _)].
  exists fs1, out1. by rewrite H.
Defined.
