(* ===== verification/Identity.v ===== *)
(** * Deterministic identities (identity/cert.go, cert.go)

    Both ends derive their certificates from a shared passphrase and a suffix.  The hash, the
    key derivation and the encoding of certificates are parameters; what they are given is
    computed here. *)

From S2P Require Import Prelude GoStrings OpenPGP.

Definition CertSuffixServer : bytes := "server".
Definition CertSuffixClient : bytes := "client".

(** [zeroReader.Read] for a buffer of the given length. *)
Definition zeroReader (n : nat) : bytes := replicate n x00.

(** The fields of [x509.Certificate] that are set; times are in seconds since 1970. *)
Record template := mkTemplate {
  t_SerialNumber : Z;
  t_CommonName : bytes;
  t_NotBefore : Z;
  t_NotAfter : Z;
  t_DigitalSignature : bool;
  t_KeyEncipherment : bool;
  t_ServerAuth : bool;
  t_ClientAuth : bool;
  t_BasicConstraintsValid : bool;
}.

Definition identity_template : template :=
  mkTemplate 1 "syncthing-socket" 0 3155760000 true true true true true.

Record tls_certificate := mkTLS { Certificate : list bytes; PrivateKey : bytes }.

Section Derive.
(** [sha256.Sum256], [ed25519.NewKeyFromSeed], and [x509.CreateCertificate] with its source of
    randomness, the template, the parent, the public and the private key. *)
Context (sha256 : bytes → bytes) (NewKeyFromSeed : bytes → bytes).
Context (CreateCertificate : (nat → bytes) → template → template → bytes → bytes → result bytes).

Definition GenerateDeterministicCert (seed : bytes) : result tls_certificate :=
  let priv := NewKeyFromSeed (sha256 seed) in
  match CreateCertificate zeroReader identity_template identity_template (Public priv) priv with
  | Err e => Err e
  | Ok derBytes => Ok (mkTLS [derBytes] priv)
  end.

(** No seed makes a client derive a server's identity. *)
Lemma suffixes_disjoint s1 s2 : s1 ++ CertSuffixServer ≠ s2 ++ CertSuffixClient.
Proof.
  intros H. apply (f_equal last) in H. unfold CertSuffixServer, CertSuffixClient in H.
  by rewrite !last_app in H.
Qed.

(** The two ends never have the same key, whatever passphrases they use, except where the
    hash itself collides: an equal private key yields two different texts with one hash. *)
Theorem identities_differ s1 s2 c1 c2 :
  (∀ x, length (sha256 x) = 32%nat) →
  (∀ k, length k = 32%nat → Seed (NewKeyFromSeed k) = k) →
  GenerateDeterministicCert (s1 ++ CertSuffixServer) = Ok c1 →
  GenerateDeterministicCert (s2 ++ CertSuffixClient) = Ok c2 →
  PrivateKey c1 = PrivateKey c2 →
  ∃ a b, a ≠ b ∧ sha256 a = sha256 b.
Proof.
  unfold GenerateDeterministicCert. intros Hlen Hseed H1 H2 Heq.
  exists (s1 ++ CertSuffixServer), (s2 ++ CertSuffixClient). split; [apply suffixes_disjoint|].
  destruct (CreateCertificate _ _ _ _ (NewKeyFromSeed (sha256 (s1 ++ _)))); simplify_eq/=.
  destruct (CreateCertificate _ _ _ _ (NewKeyFromSeed (sha256 (s2 ++ _)))); simplify_eq/=.
  rewrite <- (Hseed (sha256 (s1 ++ CertSuffixServer))), Heq by done. by apply Hseed.
Qed.
End Derive.

(** With a hash that maps everything to one key, the two ends do collide. *)
Lemma identities_differ_witness :
  ∃ a b : bytes, a ≠ b ∧ (λ _ : bytes, replicate 32 x00) a = (λ _ : bytes, replicate 32 x00) b.
Proof.
  apply (identities_differ (λ _, replicate 32 x00) (λ k, k ++ k) (λ _ _ _ _ _, Ok []) "s" "s"
    (mkTLS [[]] (replicate 64 x00)) (mkTLS [[]] (replicate 64 x00))); [done| |done..].
  intros k Hk. unfold Seed. by rewrite take_app_length'.
Defined.
