(* ===== verification/Stdio.v ===== *)
(** * The payload's own standard output (stdio_unix.go)

    In pipe mode the standard output is the payload and nothing else may write to it.  The
    process's descriptor table maps descriptors to open files; [reserveDataStdout] moves the
    payload to a fresh descriptor and points descriptor 1 at the standard error. *)

From S2P Require Import Prelude Effects.

(** ** Descriptors *)

Record fds := mkFds { table : gmap Z bytes; cloexec : gset Z }.

Inductive fdE : Type → Type :=
| Dup (fd : Z) : fdE (result Z)
| CloseOnExec (fd : Z) : fdE unit
| Dup2 (old new : Z) : fdE (option error)
| CloseFd (fd : Z) : fdE unit.

(** The descriptor of the file it returns. *)
Definition reserveDataStdout : prog fdE Z :=
  d <- trigger (Dup 1) ;;
  match d with
  | Err _ => Ret 1
  | Ok dataFD =>
      trigger (CloseOnExec dataFD) ;;;
      r <- trigger (Dup2 2 1) ;;
      match r with
      | Some _ => trigger (CloseFd dataFD) ;;; Ret 1
      | None => Ret dataFD
      end
  end.

(** The Windows build has nothing to redirect. *)
Definition reserveDataStdout_windows : prog fdE Z := Ret 1.

(** ** The kernel *)

Section Kernel.
(** The descriptor [dup] picks, and the errors the two calls may give. *)
Context (lowest : gmap Z bytes → Z) (dup_error dup2_error : option error).

Definition kernel : handler fdE fds := λ X e s,
  match e in fdE X return X * fds with
  | Dup fd =>
      match dup_error, table s !! fd with
      | Some e, _ => (Err e, s)
      | None, None => (Err (LibErr "bad file descriptor"), s)
      | None, Some f => (Ok (lowest (table s)),
                         mkFds (<[lowest (table s) := f]> (table s)) (cloexec s ∖ {[lowest (table s)]}))
      end
  | CloseOnExec fd => (tt, mkFds (table s) ({[fd]} ∪ cloexec s))
  | Dup2 old new =>
      match dup2_error, table s !! old with
      | Some e, _ => (Some e, s)
      | None, None => (Some (LibErr "bad file descriptor"), s)
      | None, Some f => (None, mkFds (<[new := f]> (table s)) (cloexec s ∖ {[new]}))
      end
  | CloseFd fd => (tt, mkFds (delete fd (table s)) (cloexec s ∖ {[fd]}))
  end.

(** Writing appends to the file a descriptor stands for. *)
Definition write (s : fds) (files : gmap bytes bytes) (w : Z * bytes) : gmap bytes bytes :=
  match table s !! fst w with
  | Some f => <[f := default [] (files !! f) ++ snd w]> files
  | None => files
  end.

Definition writes (s : fds) (files : gmap bytes bytes) (ws : list (Z * bytes)) : gmap bytes bytes :=
  fold_left (write s) ws files.

(** What was written to the descriptor [fd]. *)
Definition written_to (fd : Z) (ws : list (Z * bytes)) : bytes :=
  concat (map snd (filter (λ w, fst w = fd) ws)).

Hypothesis lowest_free : ∀ t, t !! lowest t = None.

(** The outcome on every branch: a fresh descriptor for the old standard output, kept from
    child processes, with descriptor 1 on the standard error; or descriptor 1 with the table
    as it was. *)
Lemma reserve_outcome s out err :
  table s !! 1 = Some out → table s !! 2 = Some err →
  let '(d, s') := run kernel reserveDataStdout s in
  (d ≠ 1 ∧ d ∈ cloexec s' ∧ table s !! d = None ∧ table s' = <[1 := err]> (<[d := out]> (table s))) ∨
  (d = 1 ∧ table s' = table s).
Proof.
  intros Ho He. unfold reserveDataStdout. cbn [pbind trigger run kernel].
  destruct dup_error as [e|]; [by right|]. rewrite Ho. cbn [run kernel pbind trigger].
  pose proof (lowest_free (table s)) as Hf. set (d := lowest (table s)) in *.
  assert (d ≠ 1) by (intros E; rewrite E, Ho in Hf; done).
  assert (d ≠ 2) by (intros E; rewrite E, He in Hf; done). cbn [table cloexec].
  destruct dup2_error as [e|]; [|rewrite lookup_insert_ne, He by done]; cbn [run table cloexec].
  - right. split; [done|]. by apply delete_insert_id.
  - left. split_and!; [done|set_solver|done|done].
Qed.

(** The payload cannot be corrupted: once the descriptor is reserved, the real standard
    output receives exactly what was written to the reserved one, in order, whatever else is
    written to any other descriptor, descriptor 1 included. *)
Theorem payload_unmixed s out err files ws :
  table s !! 1 = Some out → table s !! 2 = Some err → out ≠ err →
  (∀ fd, table s !! fd = Some out → fd = 1) →
  let '(d, s') := run kernel reserveDataStdout s in
  d ≠ 1 →
  default [] (writes s' files ws !! out) = default [] (files !! out) ++ written_to d ws.
Proof.
  intros Ho He Hne Hu. pose proof (reserve_outcome s out err Ho He) as H.
  destruct (run kernel reserveDataStdout s) as [d s']. intros Hd.
  destruct H as [(_ & _ & Hfree & Ht)|[-> _]]; [|done].
  assert (Hd' : table s' !! d = Some out) by (rewrite Ht, lookup_insert_ne by done; apply lookup_insert_eq).
  assert (Hother : ∀ fd, table s' !! fd = Some out → fd = d).
  { intros fd. rewrite Ht. destruct (decide (fd = 1)) as [->|]; [rewrite lookup_insert_eq; congruence|].
    rewrite lookup_insert_ne by done. destruct (decide (fd = d)); [done|].
    rewrite lookup_insert_ne by done. by intros ->%Hu. }
  clear Ht Hfree Hd. unfold writes. revert files. induction ws as [|[fd data] ws IH]; intros files.
  { cbn. by rewrite app_nil_r. }
  cbn [fold_left]. rewrite IH. unfold write, written_to. cbn [fst snd].
  destruct (decide (fd = d)) as [->|Hfd].
  - rewrite filter_cons_True by done. rewrite Hd', lookup_insert_eq. cbn. by rewrite app_assoc.
  - rewrite filter_cons_False by done. f_equal. destruct (table s' !! fd) as [f|] eqn:E; [|done].
    rewrite lookup_insert_ne; [done|]. intros ->. by apply Hfd, Hother.
Qed.
End Kernel.

(** ** The theorem at a concrete table *)

Definition above (t : gmap Z bytes) : Z := fold_right Z.max 0 (map fst (map_to_list t)) + 1.

Lemma above_free t : t !! above t = None.
Proof.
  destruct (t !! above t) as [f|] eqn:E; [|done]. exfalso.
  apply elem_of_map_to_list in E. unfold above in E.
  assert (H : ∀ (l : list (Z * bytes)) p, p ∈ l → fst p ≤ fold_right Z.max 0 (map fst l)).
  { induction l as [|q l IH]; intros p Hp; [by apply elem_of_nil in Hp|]. cbn.
    apply elem_of_cons in Hp as [->|Hp%IH]; lia. }
  apply H in E. cbn in E. lia.
Qed.

Definition fds_wit : fds :=
  mkFds {[0 := str "null"; 1 := str "pipe"; 2 := str "console"]} ∅.
Definition reserved_wit : Z * fds := run (kernel above None None) reserveDataStdout fds_wit.

Lemma fds_wit_pipe fd : table fds_wit !! fd = Some (str "pipe") → fd = 1.
Proof.
  unfold fds_wit. cbn [table].
  destruct (decide (fd = 0)) as [->|]; [done|]. rewrite lookup_insert_ne by done.
  destruct (decide (fd = 1)) as [->|]; [done|]. rewrite lookup_insert_ne by done.
  destruct (decide (fd = 2)) as [->|]; [done|]. by rewrite lookup_singleton_ne.
Qed.

Lemma payload_unmixed_witness :
  default [] (writes (snd reserved_wit) ∅
    [(1, str "Joined relay"); (fst reserved_wit, str "passphrase"); (2, str "bye")] !! str "pipe")
  = default [] ((∅ : gmap bytes bytes) !! str "pipe") ++
    written_to (fst reserved_wit)
      [(1, str "Joined relay"); (fst reserved_wit, str "passphrase"); (2, str "bye")].
Proof.
  pose proof (payload_unmixed above None None above_free fds_wit "pipe" "console" ∅
    [(1, str "Joined relay"); (fst reserved_wit, str "passphrase"); (2, str "bye")]
    eq_refl eq_refl ltac:(by vm_compute)) as H.
  change (run (kernel above None None) reserveDataStdout fds_wit) with reserved_wit in H.
  destruct reserved_wit as [d s'] eqn:E. apply H.
  - exact fds_wit_pipe.
  - intros ->. by vm_compute in E.
Defined.
