(* ===== verification/Cli.v ===== *)
(** * The command line

    What the commands of [main.go] do with their flags, and the service wrapper of
    [service.go].  A command starts from the values of its flags; how the arguments give
    them is in Flags.v.  A command is a program over the libraries it calls; its
    result is the exit status. *)

From S2P Require Import Prelude GoStrings Effects Conn Auth WebRTC NetUtil ProxyProtocol.
From S2P Require Import Net ServerConn Client Identity.

Set Default Proof Using "Type".

(** ** Flags *)

Record server_flags := mkServerFlags {
  serverCert : bytes;
  serverKey : bytes;
  serverSeed : bytes;
  serverSocks : bool;
  serverShell : bool;
  serverCommand : bytes;
  serverProxyProtocol : bool;
  serverRelay : bytes;
  serverDiscovery : bytes;
  serverForward : bytes;
  serverReverseForward : bytes;
  serverAuthorizedClients : bytes;
  serverDirectPort : Z;
  serverLogLevel : bytes;
  serverLogFormat : bytes;
  serverTOTP : bool;
  serverTOTPSecret : bytes;
  serverAnnounceInterval : Z;
}.

(** The interval is in nanoseconds. *)
Definition DefaultAnnounceInterval : Z := 30 * 60 * 1000000000.

Definition default_server_flags : server_flags :=
  mkServerFlags [] [] [] false false [] false
    "dynamic+https://relays.syncthing.net/endpoint"
    "https://discovery-announce-v4.syncthing.net/v2/?nolookup,https://discovery-announce-v6.syncthing.net/v2/?nolookup"
    [] [] [] 0 "info" "auto" false [] DefaultAnnounceInterval.

Record client_flags := mkClientFlags {
  clientCert : bytes;
  clientKey : bytes;
  clientSeed : bytes;
  clientSocks : bytes;
  clientShell : bool;
  clientReverseForward : bytes;
  clientRelay : bytes;
  clientDiscovery : bytes;
  clientTryDirect : bool;
  clientLogLevel : bytes;
  clientLogFormat : bytes;
  clientTOTP : bytes;
}.

Definition default_client_flags : client_flags :=
  mkClientFlags [] [] [] [] false [] [] "https://discovery-lookup.syncthing.net/v2/" true "info" "auto" [].

(** The arguments of [runServer]. *)
Record server_args := mkServerArgs {
  sa_cert : bytes;
  sa_relayURI : bytes;
  sa_discoveryServers : list bytes;
  sa_forwardAddr : bytes;
  sa_directPort : Z;
  sa_isSocks : bool;
  sa_isShell : bool;
  sa_isCommand : bytes;
  sa_proxyProtocol : bool;
  sa_reverseForward : bytes;
  sa_authorizedClients : list bytes;
  sa_totpSecret : bytes;
}.

(** What [runServer] hands to the handler of a connection. *)
Definition conn_options (a : server_args) : options :=
  mkOptions (sa_isSocks a) (sa_isShell a) (sa_isCommand a) (sa_reverseForward a)
    (sa_authorizedClients a) (sa_totpSecret a).

(** ** What the commands ask for *)

Inductive cliE : Type → Type :=
| SetupLogging (level format : bytes) : cliE unit
| LogError (text : bytes) : cliE unit
| Eprint (text : bytes) : cliE unit
| Print (text : bytes) : cliE unit
| Usage : cliE unit
| ReservePipeStdout : cliE unit
| GenerateDeterministicCert (seed : bytes) : cliE (result bytes)
| FileExists (path : bytes) : cliE bool
| LoadX509KeyPair (cert key : bytes) : cliE (result bytes)
| NewCertificate (cert key name : bytes) (days : Z) : cliE (result bytes)
| NewCertificateInMemory (name : bytes) (days : Z) : cliE (result bytes)
| GenerateTOTP : cliE (result bytes)
| ShowQR (url : bytes) : cliE unit
| ServiceNew (arguments : list bytes) : cliE (option error)
| Interactive : cliE bool
| ServiceRun (a : server_args) : cliE (option error)
| ServiceInstall : cliE (option error)
| ServiceStart : cliE (option error)
| RunServer (a : server_args) : cliE (option error)
| RunTheClient (cert : bytes) (o : ClientOptions) : cliE (option error)
| RunLUKSAgent : cliE (option error).

(** A secret that was generated is not empty. *)
Definition cli_ok {X} (e : cliE X) : X → Prop :=
  match e in cliE X return X → Prop with
  | GenerateTOTP => λ r, ∀ secret, r = Ok secret → secret ≠ []
  | _ => λ _, True
  end.

#[global] Instance cli_effect : Effect cliE := recording cliE (@cli_ok).

Abbreviation CLI := (prog cliE).

(** Lines on the standard error. *)
Fixpoint eprint_all (lines : list bytes) : CLI unit :=
  match lines with
  | [] => Ret tt
  | l :: lines => trigger (Eprint (l ++ [x0a])) ;;; eprint_all lines
  end.

(** [slog.Error] and [os.Exit(1)]. *)
Definition exit_error (text : bytes) : CLI Z := trigger (LogError text) ;;; Ret 1.

(** ** Identities *)

Definition loadOrGenerateCert (certPath keyPath : bytes) : CLI (result bytes) :=
  c <- trigger (FileExists certPath) ;;
  k <- (if c : bool then trigger (FileExists keyPath) else Ret false) ;;
  if k : bool then trigger (LoadX509KeyPair certPath keyPath)
  else trigger (NewCertificate certPath keyPath "syncthing-socket" 3650).

(** The identity of a command: from the seed, from files, or a fresh one; [None] when only
    one of the two files is named. *)
Definition get_cert (seed suffix cert key name : bytes) : CLI (option (result bytes)) :=
  if negb (seed =s "") then
    r <- trigger (GenerateDeterministicCert (seed ++ suffix)) ;; Ret (Some r)
  else if negb (cert =s "") && negb (key =s "") then
    r <- loadOrGenerateCert cert key ;; Ret (Some r)
  else if (cert =s "") && (key =s "") then
    r <- trigger (NewCertificateInMemory name 365) ;; Ret (Some r)
  else Ret None.

(** The non-blank elements of a comma-separated list. *)
Definition comma_list (s : bytes) : list bytes :=
  filter (λ e, e ≠ []) (map TrimSpace (Split s ","%byte)).

Section Commands.
(** [DeviceIDFromString], [NewDeviceID] of a certificate and [DeviceID.String]. *)
Context (DeviceIDFromString : bytes → result bytes).
Context (NewDeviceID : bytes → bytes) (id_string : bytes → bytes).

(** ** [server] *)

(** The device IDs of the list, or the first element that is not one. *)
Fixpoint parse_ids (l : list bytes) : bytes + list bytes :=
  match l with
  | [] => inr []
  | i :: l =>
      match DeviceIDFromString i with
      | Err _ => inl i
      | Ok d => match parse_ids l with inl bad => inl bad | inr ds => inr (d :: ds) end
      end
  end.

Definition server_modes (f : server_flags) : nat :=
  (if serverSocks f then 1 else 0) + (if serverShell f then 1 else 0) +
  (if negb (serverCommand f =s "") then 1 else 0) + (if negb (serverForward f =s "") then 1 else 0) +
  (if negb (serverReverseForward f =s "") then 1 else 0).

(** The secret to authenticate clients with: given, or generated when asked for. *)
Definition totp_secret (f : server_flags) : CLI (result bytes) :=
  if serverTOTP f && (serverTOTPSecret f =s "")
  then trigger GenerateTOTP else Ret (Ok (serverTOTPSecret f)).

Definition secret_line (secret : bytes) : bytes := str "TOTP Authentication Enabled! Secret: " ++ secret.

Definition show_secret (secret : bytes) : CLI unit :=
  if secret =s "" then Ret tt
  else
    let otpURL := str "otpauth://totp/syncthing-socket:server?secret=" ++ secret ++ str "&issuer=syncthing-socket" in
    eprint_all [[]; replicate 50 x3d; secret_line secret;
                str "URL: " ++ otpURL; []; str "Scan this QR code with your Authenticator App:"; []] ;;;
    trigger (ShowQR otpURL) ;;;
    eprint_all [replicate 50 x3d; []].

(** [runServerWrapper]. *)
Definition runServerWrapper (a : server_args) : CLI (option error) :=
  s <- trigger (ServiceNew []) ;;
  match s with
  | Some e => Ret (Some e)
  | None =>
      i <- trigger Interactive ;;
      if i : bool then trigger (RunServer a) else trigger (ServiceRun a)
  end.

(** The command, from the identity on. *)
Definition start_server (f : server_flags) (cert : bytes) : CLI Z :=
  match parse_ids (comma_list (serverAuthorizedClients f)) with
  | inl bad => exit_error (str "Invalid authorized client Device ID " ++ bad)
  | inr authorizedClients =>
      secret <- totp_secret f ;;
      match secret with
      | Err _ => exit_error "Failed to generate TOTP secret"
      | Ok secret =>
          show_secret secret ;;;
          err <- runServerWrapper
                   (mkServerArgs cert (serverRelay f) (comma_list (serverDiscovery f)) (serverForward f)
                      (serverDirectPort f) (serverSocks f) (serverShell f) (serverCommand f)
                      (serverProxyProtocol f) (serverReverseForward f) authorizedClients secret) ;;
          match err with
          | Some _ => exit_error "Server error"
          | None => Ret 0
          end
      end
  end.

Definition serverCmd (f : server_flags) : CLI Z :=
  trigger (SetupLogging (serverLogLevel f) (serverLogFormat f)) ;;;
  if (1 <? server_modes f)%nat then
    exit_error "Error: --socks, --shell, --command, --forward, and --reverse-forward are mutually exclusive. Please specify only one mode."
  else
    (if (server_modes f =? 0)%nat then trigger ReservePipeStdout else Ret tt) ;;;
    cert <- get_cert (serverSeed f) CertSuffixServer (serverCert f) (serverKey f) "syncthing-socket-server" ;;
    match cert with
    | None => exit_error "Error: both --cert and --key must be specified if one is provided"
    | Some (Err _) => exit_error "Error getting server cert"
    | Some (Ok cert) => start_server f cert
    end.

(** ** [client] *)

Definition client_modes (f : client_flags) : nat :=
  (if negb (clientSocks f =s "") then 1 else 0) + (if clientShell f then 1 else 0) +
  (if negb (clientReverseForward f =s "") then 1 else 0).

(** The server and the relay a target names. *)
Definition parse_target (target relay : bytes) : bytes * bytes :=
  match Cut target "@" with
  | Some (i, r) => (i, r)
  | None => if negb (target =s "") then (target, relay) else ([], relay)
  end.

(** The exit status of a Go program that panics. *)
Definition panicked : Z := 2.

(** The server to look for: the one named, or the one the seed derives. *)
Definition server_id (seed named : bytes) : CLI (option bytes) :=
  if seed =s "" then Ret (Some named)
  else
    cert <- trigger (GenerateDeterministicCert (seed ++ CertSuffixServer)) ;;
    match cert with
    | Err _ => Ret None
    | Ok cert => Ret (Some (if named =s "" then id_string (NewDeviceID cert) else named))
    end.

(** The command once its target is known. *)
Definition connect (f : client_flags) (target : bytes) : CLI Z :=
  let '(named, relayURI) := parse_target target (clientRelay f) in
  i <- server_id (clientSeed f) named ;;
  match i with
  | None => Ret panicked
  | Some serverID =>
      cert <- get_cert (clientSeed f) CertSuffixClient (clientCert f) (clientKey f) "syncthing-socket-client" ;;
      match cert with
      | None => exit_error "Error: both --cert and --key must be specified if one is provided"
      | Some (Err _) => exit_error "Error getting client cert"
      | Some (Ok cert) =>
          err <- trigger (RunTheClient cert
                   (mkClient serverID relayURI (clientDiscovery f) (clientTryDirect f) (clientSocks f)
                      (clientShell f) (clientReverseForward f) (clientTOTP f))) ;;
          match err with
          | Some _ => exit_error "Client error"
          | None => Ret 0
          end
      end
  end.

Definition clientCmd (f : client_flags) (args : list bytes) : CLI Z :=
  trigger (SetupLogging (clientLogLevel f) (clientLogFormat f)) ;;;
  if (1 <? client_modes f)%nat then
    exit_error "Error: --socks, --shell, and --reverse-forward are mutually exclusive. Please specify only one mode."
  else
    (if (client_modes f =? 0)%nat then trigger ReservePipeStdout else Ret tt) ;;;
    match args with
    | target :: _ => connect f target
    | [] =>
        if clientSeed f =s ""
        then eprint_all [str "Error: client mode requires target server Device ID unless --seed is used"] ;;;
             trigger Usage ;;; Ret 1
        else connect f []
    end.

(** ** [id] *)

Definition id_explanation : list bytes :=
  [[];
   str "The Server ID belongs to whichever end waits to be connected to,";
   str "and the Client ID to whichever end dials out. For a LUKS unlock:";
   str "  unlock_role=server  the machine waits, so it is the Server ID,";
   str "                      and key_holder_device_id is the Client ID.";
   str "  unlock_role=client  the machine dials out, so it is the Client ID,";
   str "                      and key_holder_device_id is the Server ID.";
   str "The key holder is the other end in both cases; the machine only ever receives."].

Definition idCmd (error_string : error → bytes) (seed : bytes) : CLI Z :=
  if seed =s "" then eprint_all [str "Error: --seed is required"] ;;; Ret 1
  else
    server <- trigger (GenerateDeterministicCert (seed ++ CertSuffixServer)) ;;
    match server with
    | Err e => eprint_all [str "Error generating server cert: " ++ error_string e] ;;; Ret 1
    | Ok server =>
        client <- trigger (GenerateDeterministicCert (seed ++ CertSuffixClient)) ;;
        match client with
        | Err e => eprint_all [str "Error generating client cert: " ++ error_string e] ;;; Ret 1
        | Ok client =>
            trigger (Print (str "Server ID: " ++ id_string (NewDeviceID server) ++ [x0a])) ;;;
            trigger (Print (str "Client ID: " ++ id_string (NewDeviceID client) ++ [x0a])) ;;;
            eprint_all id_explanation ;;;
            Ret 0
        end
    end.
End Commands.

(** ** [install-service] *)

Definition runInstallService (args : list bytes) : CLI (option error) :=
  s <- trigger (ServiceNew (str "server" :: args)) ;;
  match s with
  | Some e => Ret (Some (Wrapf "failed to create service configuration" e))
  | None =>
      i <- trigger ServiceInstall ;;
      match i with
      | Some e => Ret (Some (Wrapf "failed to install service (did you run as root/Admin?)" e))
      | None =>
          r <- trigger ServiceStart ;;
          match r with
          | Some e => Ret (Some (Wrapf "failed to start service" e))
          | None => trigger (Print (str "Service installed and started successfully." ++ [x0a])) ;;; Ret None
          end
      end
  end.

(** The command; an error is printed on the standard output. *)
Definition installServiceCmd (error_string : error → bytes) (args : list bytes) : CLI Z :=
  e <- runInstallService args ;;
  match e with
  | Some e => trigger (Print (error_string e ++ [x0a])) ;;; Ret 1
  | None => Ret 0
  end.

(** [serverService]: whether there is a context to cancel and whether that was done. [Start]
    makes one and starts the server in it, with the arguments it returns here. *)
Definition service_Start (a : server_args) : option bool * server_args := (Some false, a).
Definition service_Stop (cancelled : option bool) : option bool :=
  match cancelled with Some _ => Some true | None => None end.

(** ** [luks-agent] *)

Definition luksAgentCmd (error_string : error → bytes) : CLI Z :=
  trigger (SetupLogging "info" "text") ;;;
  e <- trigger RunLUKSAgent ;;
  match e with
  | Some e => eprint_all [error_string e] ;;; Ret 1
  | None => Ret 0
  end.

(** ** The server that is started is the one asked for *)

Section Started.
Context (DeviceIDFromString : bytes → result bytes).

Record started (f : server_flags) (a : server_args) : Prop := mkStarted {
  one_mode : (server_modes f ≤ 1)%nat;
  all_clients : Forall2 (λ i d, DeviceIDFromString i = Ok d)
                  (comma_list (serverAuthorizedClients f)) (sa_authorizedClients a);
  given_secret : serverTOTPSecret f ≠ [] → sa_totpSecret a = serverTOTPSecret f;
  some_secret : serverTOTP f = true → sa_totpSecret a ≠ [];
  same_places : sa_relayURI a = serverRelay f ∧ sa_discoveryServers a = comma_list (serverDiscovery f) ∧
                sa_directPort a = serverDirectPort f;
  same_mode : sa_isSocks a = serverSocks f ∧ sa_isShell a = serverShell f ∧
              sa_isCommand a = serverCommand f ∧ sa_forwardAddr a = serverForward f ∧
              sa_reverseForward a = serverReverseForward f ∧
              sa_proxyProtocol a = serverProxyProtocol f;
}.

(** The user was told the secret that is in force. *)
Definition shown (h : list (event cliE)) (secret : bytes) : Prop :=
  secret ≠ [] → Did (Eprint (secret_line secret ++ [x0a])) tt ∈ h.

Definition starts (f : server_flags) (h : list (event cliE)) (e : event cliE) : Prop :=
  match e with
  | Did (RunServer a) _ | Did (ServiceRun a) _ => started f a ∧ shown h (sa_totpSecret a)
  | _ => True
  end.

Lemma shown_later h h' secret : h `prefix_of` h' → shown h secret → shown h' secret.
Proof. intros Hp Hs Hne. eapply elem_of_later; [exact Hp|]. by apply Hs. Qed.

Abbreviation top := (λ _ _, True).

Lemma parse_ids_all l ds :
  parse_ids DeviceIDFromString l = inr ds → Forall2 (λ i d, DeviceIDFromString i = Ok d) l ds.
Proof.
  revert ds; induction l as [|i l IH]; intros ds; cbn [parse_ids]; [by intros [= <-]|].
  destruct (DeviceIDFromString i) as [d|] eqn:E; [|done].
  destruct (parse_ids _ l) as [|ds'] eqn:E'; [done|]. intros [= <-]. constructor; auto.
Qed.

Lemma exit_error_safe f h text : safe (E := cliE) (starts f) h (exit_error text) top.
Proof. apply safe_ask. intros x _. by split. Qed.

Lemma eprint_all_safe f h lines : safe (E := cliE) (starts f) h (eprint_all lines) top.
Proof.
  revert h; induction lines as [|l lines IH]; intros h; [done|]. apply safe_ask. intros [] _. split; [done|]. apply IH.
Qed.

Lemma show_secret_safe f h secret :
  safe (E := cliE) (starts f) h (show_secret secret) (λ h' _, shown h' secret).
Proof.
  unfold show_secret. destruct (secret =s "") eqn:E; bools; [by subst; apply safe_Ret; intros []|]. cbn [eprint_all].
  repeat (apply safe_ask; intros [] _; (split; [done|])). apply safe_Ret. intros _.
  do 7 (apply elem_of_app; left). apply elem_of_last.
Qed.

Lemma get_cert_safe f h seed suffix cert key name :
  safe (E := cliE) (starts f) h (get_cert seed suffix cert key name) top.
Proof.
  unfold get_cert, loadOrGenerateCert. destruct (negb (seed =s "")); [by apply safe_ask|].
  destruct (_ && _).
  - apply (safe_call _ _ _ _ top); [|done]. apply safe_ask. intros c _. split; [done|].
    apply (safe_call _ _ _ _ top); [by destruct c|]. intros h' k _ _. by destruct k.
  - destruct (_ && _); [by apply safe_ask|done].
Qed.

Lemma totp_secret_safe f h :
  safe (E := cliE) (starts f) h (totp_secret f)
    (λ _ r, ∀ s, r = Ok s → (serverTOTPSecret f ≠ [] → s = serverTOTPSecret f) ∧
                            (serverTOTP f = true → s ≠ [])).
Proof.
  unfold totp_secret. destruct (serverTOTP f) eqn:Et; cbn [andb].
  - destruct (serverTOTPSecret f =s "") eqn:Es; bools.
    + apply safe_trigger. intros r Hr. split; [done|]. intros s ->. split; [by rewrite Es|]. auto.
    + apply safe_Ret. by intros s [= <-].
  - apply safe_Ret. by intros s [= <-].
Qed.

Lemma serverCmd_safe f : safe (E := cliE) (starts f) [] (serverCmd DeviceIDFromString f) top.
Proof.
  unfold serverCmd. apply safe_ask. intros [] _. split; [done|].
  destruct (1 <? server_modes f)%nat eqn:Em; [apply exit_error_safe|]. apply Nat.ltb_ge in Em.
  apply (safe_call _ _ _ _ top); [case_match; [apply safe_trigger; by split|done]|].
  intros h' [] _ _. apply (safe_call _ _ _ _ top); [apply get_cert_safe|].
  intros h1 [[cert|]|] _ _; [|apply exit_error_safe..].
  unfold start_server. destruct (parse_ids _ _) as [bad|ids] eqn:Ei; [apply exit_error_safe|].
  eapply safe_call; [apply totp_secret_safe|]. intros h2 [secret|] _ Hs; [|apply exit_error_safe].
  destruct (Hs secret eq_refl) as [H1 H2].
  eapply safe_call; [apply show_secret_safe|].
  intros h3 [] _ Hsh. set (a := mkServerArgs _ _ _ _ _ _ _ _ _ _ _ _).
  assert (Ha : started f a) by (constructor; [by auto using parse_ids_all..|done|done]).
  apply (safe_call _ _ _ _ top).
  - unfold runServerWrapper. apply safe_ask. intros [e0|] _; (split; [done|]); [done|].
    apply safe_ask. intros [] _; (split; [done|]); apply safe_trigger; (split; [|done]); split; try done;
      eapply shown_later, Hsh; rewrite <- app_assoc; by apply prefix_app_r.
  - intros h4 [e0|] _ _; [apply exit_error_safe|done].
Qed.

(** C23. A server runs only as its flags say: in at most one mode and in the one named, at the
    relay, the discovery servers and the port named, for exactly the clients named, each of
    which is a valid device ID, with the secret given, and never without one when one was
    asked for; the secret in force has been shown on the standard error before. *)
Theorem server_starts_as_asked f pre e post :
  prefix_exec (serverCmd DeviceIDFromString f) (pre ++ e :: post) → starts f pre e.
Proof. exact (safe_always (E := cliE) (starts f) _ top pre e post (serverCmd_safe f)). Qed.
End Started.

(** ** The client that is run is the one asked for *)

Section Dialling.
Context (NewDeviceID : bytes → bytes) (id_string : bytes → bytes).

(** The server that the arguments name is the one looked for, if they name one, and the mode
    and the passcode are those of the flags. *)
Definition dials (f : client_flags) (args : list bytes) (h : list (event cliE)) (e : event cliE) : Prop :=
  match e with
  | Did (RunTheClient _ o) _ =>
      let target := parse_target (default [] (head args)) (clientRelay f) in
      (client_modes f ≤ 1)%nat ∧ (fst target ≠ [] → ServerID o = fst target) ∧ RelayURI o = snd target ∧
      DiscoveryServer o = clientDiscovery f ∧ TryDirect o = clientTryDirect f ∧
      Socks o = clientSocks f ∧ Shell o = clientShell f ∧ ReverseForward o = clientReverseForward f ∧
      TOTPPasscode o = clientTOTP f
  | _ => True
  end.

Lemma get_cert_dials f args h seed suffix cert key name :
  safe (E := cliE) (dials f args) h (get_cert seed suffix cert key name) (λ _ _, True).
Proof.
  unfold get_cert, loadOrGenerateCert. destruct (negb (seed =s "")); [by apply safe_ask|].
  destruct (_ && _).
  - apply (safe_call _ _ _ _ (λ _ _, True)); [|done]. apply safe_ask. intros c _. split; [done|].
    apply (safe_call _ _ _ _ (λ _ _, True)); [by destruct c|]. intros h' k _ _. by destruct k.
  - destruct (_ && _); [by apply safe_ask|done].
Qed.

Lemma connect_safe f args h target :
  target = default [] (head args) → (client_modes f ≤ 1)%nat →
  safe (E := cliE) (dials f args) h (connect NewDeviceID id_string f target) (λ _ _, True).
Proof.
  intros -> Hm. unfold connect. destruct (parse_target _ _) as [named relayURI] eqn:Et.
  apply (safe_call _ _ _ _ (λ _ i, ∀ j, i = Some j → named ≠ [] → j = named)).
  { unfold server_id. destruct (clientSeed f =s ""); [apply safe_Ret; by intros j [= <-]|].
    apply safe_ask. intros [cert|] _; (split; [done|]); apply safe_Ret; [|done].
    intros j [= <-] Hn. by rewrite (proj2 (seq_eqb_false named "") Hn). }
  intros h1 [i|] _ Hi; [|done]. apply (safe_call _ _ _ _ (λ _ _, True)); [apply get_cert_dials|].
  intros h2 [[cert|]|] _ _; [|by apply safe_ask..]. apply safe_ask. intros r _. split.
  - cbn. rewrite Et. cbn. split_and!; [done|by apply Hi|done..].
  - destruct r; [by apply safe_ask|done].
Qed.

Lemma clientCmd_safe f args :
  safe (E := cliE) (dials f args) [] (clientCmd NewDeviceID id_string f args) (λ _ _, True).
Proof.
  unfold clientCmd. apply safe_ask. intros [] _. split; [done|].
  destruct (1 <? client_modes f)%nat eqn:Em; [by apply safe_ask|]. apply Nat.ltb_ge in Em.
  apply (safe_call _ _ _ _ (λ _ _, True)); [case_match; [by apply safe_trigger|done]|].
  intros h [] _ _. destruct args as [|target args]; [|by apply connect_safe].
  destruct (clientSeed f =s ""); [|by apply connect_safe].
  apply safe_ask. intros [] _. split; [done|]. by apply safe_ask.
Qed.

(** The client runs only as its arguments say: for the server named, if one is, and in the one
    mode asked for. *)
Theorem client_dials_as_asked f args pre e post :
  prefix_exec (clientCmd NewDeviceID id_string f args) (pre ++ e :: post) → dials f args pre e.
Proof. exact (safe_always (E := cliE) (dials f args) _ (λ _ _, True) pre e post (clientCmd_safe f args)). Qed.
End Dialling.

(** ** The allowlist, from the flag to the connection *)

Section Allowlist.
Context (validate : bytes → bytes → bool).
Context (NewDeviceID : bytes → bytes) (DeviceIDFromString : bytes → result bytes).

(** Whoever gets a service from a server started with [--authorized-clients] is a device
    that the flag names: the first certificate of the connection has the ID that an element
    of the list denotes. *)
Theorem allowlist_enforced f a isRelay c pre d s post :
  started DeviceIDFromString f a → comma_list (serverAuthorizedClients f) ≠ [] →
  prefix_exec (handleServerConn validate NewDeviceID (conn_options a) isRelay c)
    (pre ++ Served d s :: post) →
  ∃ cert rest i, CertificatesOf c (cert :: rest) ∈ pre ∧
    i ∈ comma_list (serverAuthorizedClients f) ∧ DeviceIDFromString i = Ok (NewDeviceID cert).
Proof.
  intros [_ Hids _ _ _ _] Hne Ht.
  pose proof (safe_always (E := netE) _ _ _ pre _ post
    (server_gated validate NewDeviceID (conn_options a) isRelay c) Ht) as [[]|Had].
  destruct Had as (certs & t0 & Hp & Hc & _).
  destruct Hc as (cert & rest & -> & Hin).
  { cbn. intros E. rewrite E in Hids. by apply Forall2_nil_inv_r in Hids. }
  cbn in Hin. apply list_elem_of_lookup in Hin as [k Hk].
  destruct (Forall2_lookup_r _ _ _ _ _ Hids Hk) as (i & Hi & Hd).
  exists cert, rest, i. split_and!; [|by eapply list_elem_of_lookup_2|done].
  eapply elem_of_later; [exact Hp|]. set_solver.
Qed.

(** A list with only blanks in it names nobody, and then nobody is turned away. *)
Lemma blank_allowlist_open f a certs :
  started DeviceIDFromString f a → comma_list (serverAuthorizedClients f) = [] →
  authorized NewDeviceID (authorizedClients (conn_options a)) certs = true.
Proof.
  intros [_ Hids _ _ _ _] E. rewrite E in Hids. apply Forall2_nil_inv_l in Hids. cbn. by rewrite Hids.
Qed.
End Allowlist.

(** ** The two ends of a seed *)

Section Seed.
Context (DeviceIDFromString : bytes → result bytes).
Context (NewDeviceID : bytes → bytes) (id_string : bytes → bytes).
Context (derive : bytes → bytes).

(** An environment where identities are derived by [derive] and nothing else matters;
    what was started is remembered. *)
Definition seeded : handler cliE (option server_args * option (bytes * ClientOptions)) := λ X e s,
  match e in cliE X return X * _ with
  | SetupLogging _ _ | LogError _ | Eprint _ | Print _ | Usage | ReservePipeStdout | ShowQR _ => (tt, s)
  | GenerateDeterministicCert seed => (Ok (derive seed), s)
  | FileExists _ => (false, s)
  | LoadX509KeyPair _ _ | NewCertificate _ _ _ _ | NewCertificateInMemory _ _ | GenerateTOTP => (Err EOF, s)
  | ServiceNew _ | ServiceInstall | ServiceStart | RunLUKSAgent => (None, s)
  | Interactive => (true, s)
  | ServiceRun a | RunServer a => (None, (Some a, snd s))
  | RunTheClient cert o => (None, (fst s, Some (cert, o)))
  end.

Lemma run_get_cert seed suffix cert key name s :
  seed ≠ [] → run seeded (get_cert seed suffix cert key name) s = (Some (Ok (derive (seed ++ suffix))), s).
Proof. intros Hs. unfold get_cert. by rewrite (proj2 (seq_eqb_false seed "") Hs). Qed.

Lemma run_reserve (b : bool) s : run seeded (if b then trigger ReservePipeStdout else Ret tt) s = (tt, s).
Proof. by destruct b. Qed.

Lemma run_start_server f cert s :
  comma_list (serverAuthorizedClients f) = [] → serverTOTP f = false →
  ∃ a, run seeded (start_server DeviceIDFromString f cert) s = (0, (Some a, snd s)) ∧ sa_cert a = cert.
Proof.
  intros Hl Ht. unfold start_server, totp_secret. rewrite Hl, Ht. cbn [parse_ids andb pbind].
  rewrite run_bind.
  replace (run seeded (show_secret (serverTOTPSecret f)) s) with (tt, s).
  2: { unfold show_secret. by case_match. }
  cbn. by eexists.
Qed.

(** Both ends of a seed find each other without naming anybody: the client looks for the
    device whose certificate the server has, and presents the identity derived for the
    client. *)
Theorem seed_agreement fs fc seed :
  seed ≠ [] → serverSeed fs = seed → clientSeed fc = seed →
  (server_modes fs ≤ 1)%nat → (client_modes fc ≤ 1)%nat →
  comma_list (serverAuthorizedClients fs) = [] → serverTOTP fs = false →
  ∃ a o,
    fst (snd (run seeded (serverCmd DeviceIDFromString fs) (None, None))) = Some a ∧
    snd (snd (run seeded (clientCmd NewDeviceID id_string fc []) (None, None)))
    = Some (derive (seed ++ CertSuffixClient), o) ∧
    sa_cert a = derive (seed ++ CertSuffixServer) ∧
    ServerID o = id_string (NewDeviceID (sa_cert a)).
Proof.
  intros Hs Hss Hc Hms Hmc Hl Ht. pose proof (proj2 (seq_eqb_false seed "") Hs) as Hs'.
  destruct (run_start_server fs (derive (seed ++ CertSuffixServer)) (None, None) Hl Ht) as (a & Ha & Hcert).
  unfold serverCmd, clientCmd. rewrite Hss, Hc, Hs', !(proj2 (Nat.ltb_ge _ _)) by done.
  rewrite !run_bind. cbn [run trigger seeded]. rewrite !run_bind, !run_reserve, run_bind, run_get_cert by done.
  rewrite Ha. unfold connect.
  replace (parse_target [] (clientRelay fc)) with (@nil byte, clientRelay fc) by (by vm_compute).
  rewrite Hc. unfold server_id. rewrite Hs'. cbn [pbind trigger run seeded].
  rewrite run_bind, run_get_cert by done. cbn. eexists a, _. by rewrite Hcert.
Qed.
End Seed.

(** ** The target of a client *)

(** A target [id@relay] overrides the relay and its ID is what stands before the first at
    sign; a target without one is an ID and leaves the relay to the flag. *)
Lemma parse_target_spec i r relay :
  "@"%byte ∉ i →
  parse_target (i ++ str "@" ++ r) relay = (i, r) ∧ parse_target i relay = (i, relay).
Proof.
  intros Hi. unfold parse_target. change (str "@") with ["@"%byte]. cbn [app].
  rewrite Cut_byte by done. split; [done|]. rewrite (proj2 (Cut_None i _) Hi). destruct (negb (i =s "")) eqn:E; [done|]. by bools; subst.
Qed.

(** ** The theorems at concrete inputs *)

Definition flags_wit : server_flags :=
  mkServerFlags [] [] "seed" false false [] false [] [] [] [] "A, B" 0 [] [] false [] 0.

Definition parse_id_wit (i : bytes) : result bytes := if i =s "" then Err EOF else Ok (str "id:" ++ i).

Definition args_wit : server_args :=
  mkServerArgs "seedserver" [] [] [] 0 false false [] false [] [str "id:A"; str "id:B"] [].

Definition seed_trace_wit : list (event cliE) :=
  [Did (SetupLogging [] []) tt; Did ReservePipeStdout tt;
   Did (GenerateDeterministicCert "seedserver") (Ok (str "seedserver"));
   Did (ServiceNew []) None; Did Interactive true].

Lemma seeded_ok derive X (e : cliE X) s : resp_ok e (fst (seeded derive X e s)).
Proof. by destruct e. Qed.

Lemma server_trace_wit :
  prefix_exec (serverCmd parse_id_wit flags_wit) (seed_trace_wit ++ [Did (RunServer args_wit) None]).
Proof.
  pose proof (exec_prefix _ _ _
    (run_exec (seeded (λ s, s)) (serverCmd parse_id_wit flags_wit) (None, None) (seeded_ok _))) as H.
  assert (E : trace_of (H := cli_effect) (seeded (λ s, s)) (serverCmd parse_id_wit flags_wit) (None, None)
              = seed_trace_wit ++ [Did (RunServer args_wit) None]) by (vm_compute; reflexivity).
  by rewrite E in H.
Qed.

Lemma server_starts_as_asked_witness :
  started parse_id_wit flags_wit args_wit ∧ shown seed_trace_wit [].
Proof.
  exact (server_starts_as_asked parse_id_wit flags_wit seed_trace_wit
    (Did (RunServer args_wit) None) [] server_trace_wit).
Defined.

Definition allow_flags_wit : server_flags :=
  mkServerFlags [] [] [] false false [] false [] [] [] [] " CERT ," 0 [] [] false [] 0.
Definition allow_args_wit : server_args :=
  mkServerArgs [] [] [] [] 0 false false [] false [] [str "id:CERT"] [].
Definition allow_wit : prog netE unit :=
  handleServerConn demo_validate id_wit (conn_options allow_args_wit) false 1.

Lemma allowlist_enforced_witness :
  ∃ cert rest i, CertificatesOf 1 (cert :: rest) ∈ take 4 (net_trace allow_wit []) ∧
    i ∈ comma_list " CERT ," ∧ parse_id_wit i = Ok (id_wit cert).
Proof.
  apply (allowlist_enforced demo_validate id_wit parse_id_wit allow_flags_wit allow_args_wit false 1
    (take 4 (net_trace allow_wit [])) (OverTLS 1) Pipe (drop 5 (net_trace allow_wit []))).
  - constructor; [by vm_compute; lia| |done..]. by repeat constructor.
  - by vm_compute.
  - apply (net_trace_prefix allow_wit [] 4). vm_compute. reflexivity.
Defined.

Lemma seed_agreement_witness :
  ∃ a o,
    fst (snd (run (seeded (λ s, s)) (serverCmd parse_id_wit
      (mkServerFlags [] [] "s" false false [] false [] [] [] [] [] 0 [] [] false [] 0)) (None, None))) = Some a ∧
    snd (snd (run (seeded (λ s, s)) (clientCmd (λ c, c) (λ i, i)
      (mkClientFlags [] [] "s" [] false [] [] [] true [] [] []) []) (None, None)))
    = Some (str "sclient", o) ∧ sa_cert a = str "sserver" ∧ ServerID o = sa_cert a.
Proof.
  apply (seed_agreement parse_id_wit (λ c, c) (λ i, i) (λ s, s)
    (mkServerFlags [] [] "s" false false [] false [] [] [] [] [] 0 [] [] false [] 0)
    (mkClientFlags [] [] "s" [] false [] [] [] true [] [] []) "s");
    first [by vm_compute | (vm_compute; lia)].
Defined.
