(* ===== verification/Flags.v ===== *)
(** * From the arguments to a command

    The flags the commands of [main.go] define, the parser of the pflag library that fills
    them (vendor/github.com/spf13/pflag), and the choice of a command by its name.  A flag
    set is the kinds of its flags; parsing gives the assignments in their order, of which
    the last one for a flag counts, and the arguments that are no flags. *)

From S2P Require Import Prelude GoStrings GoNumbers Effects Conn Auth WebRTC NetUtil ProxyProtocol.
From S2P Require Import Net ServerConn Client Identity Cli.

Set Default Proof Using "Type".

(** ** The parser *)

Inductive flag_kind : Type := StringFlag | BoolFlag | IntFlag | DurationFlag.

#[global] Instance flag_kind_eq_dec : EqDecision flag_kind.
Proof. solve_decision. Defined.

(** Whether [Value.Set] takes a text. *)
Definition accepts (k : flag_kind) (v : bytes) : bool :=
  match k with
  | StringFlag => true
  | BoolFlag => bool_decide (is_Some (ParseBool v))
  | IntFlag => bool_decide (is_Some (ParseInt0 v))
  | DurationFlag => bool_decide (is_Some (ParseDuration v))
  end.

Inductive parse_error : Type :=
| InvalidSyntax (s : bytes)
| NoSuchFlag (name : bytes)
| NoSuchShorthand (c : byte)
| ValueRequired (name : bytes)
| InvalidValue (name value : bytes).

(** The assignments, and the other arguments. *)
Abbreviation parsed := (parse_error + list (bytes * bytes) * list bytes)%type.

Definition flag_set : Type := list (bytes * flag_kind).

Fixpoint formal (fs : flag_set) (name : bytes) : option flag_kind :=
  match fs with
  | [] => None
  | (n, k) :: fs => if n =s name then Some k else formal fs name
  end.

Section Parse.
Context (fs : flag_set).

(** [parseLongArg] up to the value: the flag, and the value written with it. *)
Definition long_flag (s : bytes) : parse_error + bytes * flag_kind * option bytes :=
  let name := drop 2 s in
  match name with
  | [] => inl (InvalidSyntax s)
  | c :: _ =>
      if beq c "-" || beq c "=" then inl (InvalidSyntax s)
      else
        let '(name, value) :=
          match Cut name "=" with Some (n, v) => (n, Some v) | None => (name, None) end in
        match formal fs name with
        | None => inl (NoSuchFlag name)
        | Some k => inr (name, k, value)
        end
  end.

(** [parseShortArg]: the one shorthand there is, [-h] for help. *)
Fixpoint short_flags (shorthands : bytes) : parse_error + list (bytes * bytes) :=
  match shorthands with
  | [] => inr []
  | c :: r =>
      if HasPrefix shorthands "test." then inr []
      else if beq c "h" then
        match r with
        | "="%byte :: _ :: _ =>
            if accepts BoolFlag (drop 1 r) then inr [(str "help", drop 1 r)]
            else inl (InvalidValue "help" (drop 1 r))
        | _ =>
            match short_flags r with
            | inl e => inl e
            | inr a => inr ((str "help", str "true") :: a)
            end
        end
      else inl (NoSuchShorthand c)
  end.

Definition assign (name : bytes) (k : flag_kind) (v : bytes) (rest : parsed) : parsed :=
  if accepts k v then
    match rest with inl e => inl e | inr (a, p) => inr ((name, v) :: a, p) end
  else inl (InvalidValue name v).

(** [parseArgs]; flags and other arguments may be mixed. *)
Fixpoint parseArgs (args : list bytes) : parsed :=
  match args with
  | [] => inr ([], [])
  | s :: rest =>
      match s with
      | "-"%byte :: c :: t =>
          if beq c "-" then
            match t with
            | [] => inr ([], rest)
            | _ =>
                match long_flag s with
                | inl e => inl e
                | inr (name, k, Some v) => assign name k v (parseArgs rest)
                | inr (name, BoolFlag, None) => assign name BoolFlag "true" (parseArgs rest)
                | inr (name, k, None) =>
                    match rest with
                    | [] => inl (ValueRequired name)
                    | v :: rest => assign name k v (parseArgs rest)
                    end
                end
            end
          else
            match short_flags (c :: t) with
            | inl e => inl e
            | inr a => match parseArgs rest with inl e => inl e | inr (b, p) => inr (a ++ b, p) end
            end
      | _ => match parseArgs rest with inl e => inl e | inr (a, p) => inr (a, s :: p) end
      end
  end.
End Parse.

(** ** The flags of the commands *)

(** The value of a flag: the last one assigned, or its default. *)
Definition value_of (a : list (bytes * bytes)) (name : bytes) : option bytes :=
  snd <$> last (filter (λ nv, fst nv = name) a).

Definition string_flag a (name dflt : bytes) : bytes := default dflt (value_of a name).
Definition bool_flag a (name : bytes) (dflt : bool) : bool :=
  match value_of a name with Some v => default false (ParseBool v) | None => dflt end.
Definition int_flag a (name : bytes) (dflt : Z) : Z :=
  match value_of a name with Some v => default 0 (ParseInt0 v) | None => dflt end.
Definition duration_flag a (name : bytes) (dflt : Z) : Z :=
  match value_of a name with Some v => default 0 (ParseDuration v) | None => dflt end.

(** Every command has a help flag. *)
Definition help_flag : bytes * flag_kind := (str "help", BoolFlag).

Definition server_flag_set : flag_set :=
  [(str "cert", StringFlag); (str "key", StringFlag); (str "seed", StringFlag); (str "socks", BoolFlag);
   (str "shell", BoolFlag); (str "command", StringFlag); (str "proxy-protocol", BoolFlag);
   (str "relay", StringFlag); (str "discovery", StringFlag); (str "forward", StringFlag);
   (str "reverse-forward", StringFlag); (str "direct-port", IntFlag);
   (str "authorized-clients", StringFlag); (str "log-level", StringFlag); (str "log-format", StringFlag);
   (str "totp", BoolFlag); (str "totp-secret", StringFlag); (str "announce-interval", DurationFlag);
   help_flag].

Definition server_flags_of (a : list (bytes * bytes)) : server_flags :=
  let d := default_server_flags in
  mkServerFlags (string_flag a "cert" (serverCert d)) (string_flag a "key" (serverKey d))
    (string_flag a "seed" (serverSeed d)) (bool_flag a "socks" (serverSocks d))
    (bool_flag a "shell" (serverShell d)) (string_flag a "command" (serverCommand d))
    (bool_flag a "proxy-protocol" (serverProxyProtocol d)) (string_flag a "relay" (serverRelay d))
    (string_flag a "discovery" (serverDiscovery d)) (string_flag a "forward" (serverForward d))
    (string_flag a "reverse-forward" (serverReverseForward d))
    (string_flag a "authorized-clients" (serverAuthorizedClients d))
    (int_flag a "direct-port" (serverDirectPort d)) (string_flag a "log-level" (serverLogLevel d))
    (string_flag a "log-format" (serverLogFormat d)) (bool_flag a "totp" (serverTOTP d))
    (string_flag a "totp-secret" (serverTOTPSecret d))
    (duration_flag a "announce-interval" (serverAnnounceInterval d)).

Definition client_flag_set : flag_set :=
  [(str "cert", StringFlag); (str "key", StringFlag); (str "seed", StringFlag); (str "socks", StringFlag);
   (str "shell", BoolFlag); (str "reverse-forward", StringFlag); (str "relay", StringFlag);
   (str "discovery", StringFlag); (str "direct", BoolFlag); (str "log-level", StringFlag);
   (str "log-format", StringFlag); (str "totp-passcode", StringFlag); help_flag].

Definition client_flags_of (a : list (bytes * bytes)) : client_flags :=
  let d := default_client_flags in
  mkClientFlags (string_flag a "cert" (clientCert d)) (string_flag a "key" (clientKey d))
    (string_flag a "seed" (clientSeed d)) (string_flag a "socks" (clientSocks d))
    (bool_flag a "shell" (clientShell d)) (string_flag a "reverse-forward" (clientReverseForward d))
    (string_flag a "relay" (clientRelay d)) (string_flag a "discovery" (clientDiscovery d))
    (bool_flag a "direct" (clientTryDirect d)) (string_flag a "log-level" (clientLogLevel d))
    (string_flag a "log-format" (clientLogFormat d)) (string_flag a "totp-passcode" (clientTOTP d)).

Definition id_flag_set : flag_set := [(str "seed", StringFlag); help_flag].

(** ** The commands *)

Inductive invocation : Type :=
| Server (f : server_flags)
| Client (f : client_flags) (args : list bytes)
| Id (seed : bytes)
| InstallService (args : list bytes)
| LUKSAgent
| Help                          (* the help of a command; status zero *)
| BadUsage                      (* an error of the parser or of the number of arguments; status one *)
| Other.                        (* no command of the program's own comes first *)

(** A command with flags: its run, unless help was asked for or the arguments are wrong. *)
Definition with_flags (fs : flag_set) (max_args : option nat) (args : list bytes)
    (run : list (bytes * bytes) → list bytes → invocation) : invocation :=
  match parseArgs fs args with
  | inl _ => BadUsage
  | inr (a, p) =>
      if bool_flag a "help" false then Help
      else if match max_args with Some n => (n <? length p)%nat | None => false end then BadUsage
      else run a p
  end.

(** The command line, without the name of the program. *)
Definition interpret (argv : list bytes) : invocation :=
  match argv with
  | [] => Other
  | name :: args =>
      if name =s "server" then with_flags server_flag_set None args (λ a _, Server (server_flags_of a))
      else if name =s "client" then
        with_flags client_flag_set (Some 1%nat) args (λ a p, Client (client_flags_of a) p)
      else if name =s "id" then with_flags id_flag_set None args (λ a _, Id (string_flag a "seed" ""))
      else if name =s "install-service" then InstallService args
      else if name =s "luks-agent" then with_flags [help_flag] (Some 0%nat) args (λ _ _, LUKSAgent)
      else Other
  end.

(** ** The help screen *)

Inductive helpE : Type → Type :=
| TermWidth : helpE (option Z)
| LoadLogo : helpE bool
| Renderer : helpE (option bool)          (* whether it draws with half blocks *)
| PrintANSI : helpE unit
| PrintImage (height width : Z) : helpE unit
| OriginalHelp : helpE unit.

#[global] Instance help_effect : Effect helpE := recording helpE (λ _ _ _, True).

(** The logo, for the program itself on a terminal of at least 75 columns, and the help. *)
Definition help_screen (name : bytes) : prog helpE unit :=
  (if (name =s "syncthing-socket") || (name =s "help") then
     w <- trigger TermWidth ;;
     match w with
     | Some w =>
         if 75 <=? w then
           i <- trigger LoadLogo ;;
           if i : bool then
             r <- trigger Renderer ;;
             match r with
             | Some true => trigger PrintANSI
             | _ => trigger (PrintImage 25 80)
             end
           else Ret tt
         else Ret tt
     | None => Ret tt
     end
   else Ret tt) ;;;
  trigger OriginalHelp.

(** Whatever the terminal and the logo do, the help is shown, last. *)
Lemma help_shown name t : exec (help_screen name) t tt → last t = Some (Did OriginalHelp tt).
Proof.
  intros (t1 & t2 & [] & -> & _ & (x & t3 & _ & -> & [-> _]))%exec_bind.
  destruct x. by rewrite last_snoc.
Qed.

Section Execute.
Context (DeviceIDFromString : bytes → result bytes).
Context (NewDeviceID id_string : bytes → bytes) (error_string : error → bytes).

(** [Execute]: the command the arguments name, and the exit status; [None] where the cobra
    library answers by itself. *)
Definition Execute (argv : list bytes) : option (CLI Z) :=
  match interpret argv with
  | Server f => Some (serverCmd DeviceIDFromString f)
  | Client f args => Some (clientCmd NewDeviceID id_string f args)
  | Id seed => Some (idCmd NewDeviceID id_string error_string seed)
  | InstallService args => Some (installServiceCmd error_string args)
  | LUKSAgent => Some (luksAgentCmd error_string)
  | Help => Some (Ret 0)
  | BadUsage => Some (Ret 1)
  | Other => None
  end.
End Execute.

(** ** Writing arguments and reading them back *)

(** The ways to write an argument. *)
Inductive item : Type :=
| Equals (name value : bytes)      (* --name=value *)
| Spaced (name value : bytes)      (* --name value *)
| Switch (name : bytes)            (* --name, of a flag that is on or off *)
| Word (s : bytes).                (* no flag *)

Definition render (i : item) : list bytes :=
  match i with
  | Equals n v => [str "--" ++ n ++ str "=" ++ v]
  | Spaced n v => [str "--" ++ n; v]
  | Switch n => [str "--" ++ n]
  | Word s => [s]
  end.

Definition assignments (items : list item) : list (bytes * bytes) :=
  omap (λ i, match i with
             | Equals n v | Spaced n v => Some (n, v)
             | Switch n => Some (n, str "true")
             | Word _ => None
             end) items.

Definition words (items : list item) : list bytes :=
  omap (λ i, match i with Word s => Some s | _ => None end) items.

Section RoundTrip.
Context (fs : flag_set).

(** A name that can be written: not empty, without an equals sign, not starting with a dash. *)
Definition name_ok (n : bytes) : Prop :=
  match n with [] => False | c :: _ => c ≠ "-"%byte end ∧ "="%byte ∉ n.

Definition item_ok (i : item) : Prop :=
  match i with
  | Equals n v => name_ok n ∧ ∃ k, formal fs n = Some k ∧ accepts k v = true
  | Spaced n v => name_ok n ∧ ∃ k, formal fs n = Some k ∧ k ≠ BoolFlag ∧ accepts k v = true
  | Switch n => name_ok n ∧ formal fs n = Some BoolFlag
  | Word s => match s with "-"%byte :: _ :: _ => False | _ => True end
  end.

Lemma long_flag_name n k : name_ok n → formal fs n = Some k → long_flag fs (str "--" ++ n) = inr (n, k, None).
Proof.
  intros [Hn He] Hk. unfold long_flag. change (drop 2 (str "--" ++ n)) with n.
  destruct n as [|c n]; [done|]. rewrite (proj2 (beq_false c _) Hn).
  assert (c ≠ "="%byte) by set_solver. rewrite (proj2 (beq_false c _)) by done. cbn [orb].
  change (str "=") with ["="%byte]. by rewrite (proj2 (Cut_None (c :: n) _) He), Hk.
Qed.

Lemma long_flag_value n k v :
  name_ok n → formal fs n = Some k → long_flag fs (str "--" ++ n ++ str "=" ++ v) = inr (n, k, Some v).
Proof.
  intros [Hn He] Hk. unfold long_flag. change (drop 2 (str "--" ++ n ++ str "=" ++ v)) with (n ++ "="%byte :: v).
  change (str "=") with ["="%byte]. rewrite Cut_byte by done.
  destruct n as [|c n]; [done|]. cbn [app]. rewrite (proj2 (beq_false c _) Hn).
  assert (c ≠ "="%byte) by set_solver. rewrite (proj2 (beq_false c _)) by done. cbn [orb]. by rewrite Hk.
Qed.

(** A long flag is parsed by [long_flag]. *)
Lemma parse_long n t rest :
  name_ok n →
  parseArgs fs ((str "--" ++ n ++ t) :: rest) =
  match long_flag fs (str "--" ++ n ++ t) with
  | inl e => inl e
  | inr (name, k, Some v) => assign name k v (parseArgs fs rest)
  | inr (name, BoolFlag, None) => assign name BoolFlag "true" (parseArgs fs rest)
  | inr (name, k, None) =>
      match rest with [] => inl (ValueRequired name) | v :: rest => assign name k v (parseArgs fs rest) end
  end.
Proof. intros [Hn _]. by destruct n. Qed.

Lemma parse_item i rest a p :
  item_ok i → parseArgs fs rest = inr (a, p) →
  parseArgs fs (render i ++ rest) = inr (assignments [i] ++ a, words [i] ++ p).
Proof.
  intros Hi Hr. destruct i as [n v|n v|n|s]; cbn [render app item_ok] in *.
  - destruct Hi as (Hn & k & Hk & Ha). rewrite parse_long, (long_flag_value n k v) by done.
    by destruct k; unfold assign; rewrite Ha, Hr.
  - destruct Hi as (Hn & k & Hk & Hb & Ha). rewrite <- (app_nil_r n) at 1.
    rewrite parse_long, app_nil_r, (long_flag_name n k) by done.
    by destruct k; unfold assign; rewrite ?Ha, ?Hr.
  - destruct Hi as (Hn & Hk). rewrite <- (app_nil_r n) at 1.
    rewrite parse_long, app_nil_r, (long_flag_name n BoolFlag) by done. unfold assign. by rewrite Hr.
  - cbn [parseArgs]. rewrite Hr. destruct s as [|c [|c' s]]; [done|by destruct c|]. by destruct c.
Qed.

(** Arguments written for a flag set are read back as they were meant: every assignment with
    its value, in order, and the words, wherever they stand between the flags; and after two
    dashes everything is a word. *)
Lemma parse_render items more :
  Forall item_ok items →
  parseArgs fs (concat (map render items)) = inr (assignments items, words items) ∧
  parseArgs fs (concat (map render items) ++ str "--" :: more) = inr (assignments items, words items ++ more).
Proof.
  intros H.
  assert (G : ∀ tail p, parseArgs fs tail = inr ([], p) →
    parseArgs fs (concat (map render items) ++ tail) = inr (assignments items, words items ++ p)).
  { intros tail p Ht. induction H as [|i items Hi _ IH]; [done|]. cbn [map concat]. rewrite <- app_assoc.
    rewrite (parse_item i _ _ _ Hi IH). by destruct i. }
  split; [|by apply G]. specialize (G [] [] eq_refl). by rewrite !app_nil_r in G.
Qed.
End RoundTrip.

(** ** The installed service *)

Section Installed.
Context (DeviceIDFromString : bytes → result bytes).
Context (NewDeviceID id_string : bytes → bytes) (error_string : error → bytes).

Abbreviation Execute := (Execute DeviceIDFromString NewDeviceID id_string error_string).

(** The service manager is asked to run [args]. *)
Definition registers (args : list bytes) (h : list (event cliE)) (e : event cliE) : Prop :=
  match e with Did (ServiceNew l) _ => l = args | _ => True end.

Lemma installServiceCmd_safe args :
  safe (E := cliE) (registers (str "server" :: args)) [] (installServiceCmd error_string args) (λ _ _, True).
Proof.
  unfold installServiceCmd. apply (safe_call _ _ _ _ (λ _ _, True)).
  - unfold runInstallService. apply safe_ask. intros [] _; (split; [done|]); [done|].
    apply safe_ask. intros [] _; (split; [done|]); [done|].
    apply safe_ask. intros [] _; (split; [done|]); [done|]. by apply safe_ask.
  - intros h [e|] _ _; [by apply safe_ask|done].
Qed.

(** C16. The service that [install-service] registers is the server its arguments describe: read
    back by this same program, the registered command line is the server command with every
    flag as it was written, the last one of a flag counting. *)
Theorem installed_service items command pre args r post :
  Forall (item_ok server_flag_set) items → value_of (assignments items) "help" = None →
  Execute (str "install-service" :: concat (map render items)) = Some command →
  prefix_exec command (pre ++ Did (ServiceNew args) r :: post) →
  Execute args = Some (serverCmd DeviceIDFromString (server_flags_of (assignments items))).
Proof.
  intros Hok Hh [= <-] Ht.
  pose proof (safe_always (E := cliE) _ _ _ pre _ post (installServiceCmd_safe _) Ht) as E. cbn in E.
  subst args. unfold Flags.Execute, interpret. change (str "server" =s "server") with true.
  unfold with_flags. destruct (parse_render server_flag_set items [] Hok) as [-> _].
  unfold bool_flag. by rewrite Hh.
Qed.
End Installed.

(** ** The theorem at a concrete command line *)

Definition items_wit : list item :=
  [Equals "forward" "127.0.0.1:22"; Spaced "seed" "s"; Switch "proxy-protocol"; Equals "direct-port" "0x1F90"].

Lemma installed_service_witness :
  Execute (λ _, Err EOF) id id (λ _, []) (str "server" :: concat (map render items_wit)) =
  Some (serverCmd (λ _, Err EOF) (mkServerFlags [] [] "s" false false [] true
    (serverRelay default_server_flags) (serverDiscovery default_server_flags) "127.0.0.1:22" [] [] 8080
    "info" "auto" false [] DefaultAnnounceInterval)).
Proof.
  apply (installed_service (λ _, Err EOF) id id (λ _, []) items_wit
    (installServiceCmd (λ _, []) (concat (map render items_wit))) [] _ None []).
  - repeat (apply Forall_cons; split); [..|by apply Forall_nil]; (split; [split; [done|literal]|]);
      (by vm_compute) || (eexists; split; [by vm_compute|by vm_compute]) || (eexists; split_and!; by vm_compute).
  - by vm_compute.
  - done.
  - unfold installServiceCmd, runInstallService. right. exists None, []. split_and!; [done|done|by left].
Defined.
