(* ===== verification/Startup.v ===== *)
(** * Starting the server

    [runServer] of [main.go] up to its accept loops: the direct listener, the relay client
    and the wait until it is connected, what systemd and the user are told, and the
    announcers.  The loops themselves are the step relations of Server.v; here they are
    requests, made with what the start left behind. *)

From S2P Require Import Prelude GoStrings Effects Conn Auth WebRTC NetUtil ProxyProtocol.
From S2P Require Import Net ServerConn Client Cli.

Set Default Proof Using "Type".

Inductive upE : Type → Type :=
| Say (text : bytes) : upE unit
| Listen (address : bytes) : upE (result Z)
| CloseListener : upE unit
| NewRelayClient (uri : bytes) : upE (option error)
| GoServeRelay : upE unit
| RelayClientError : upE (option error)
| RelayClientURI : upE (option bytes)
| ContextErr : upE (option error)
| SleepMs (ms : Z) : upE unit
| Getenv (name : bytes) : upE bytes
| DialUnixgram (path : bytes) : upE (option error)
| Notify (path state : bytes) : upE (option error)
| HangUp (path : bytes) : upE unit
| GoAnnounce (ds : bytes) (interval directPort announcePort : Z) : upE unit
| ForwardLoop (a : server_args) (listens relays : bool) : upE (option error)
| SimpleLoop (a : server_args) (listens relays : bool) : upE (option error).

#[global] Instance up_effect : Effect upE := recording upE (λ _ _ _, True).

Definition systemdNotify (state : bytes) : prog upE unit :=
  socketPath <- trigger (Getenv "NOTIFY_SOCKET") ;;
  if socketPath =s "" then Ret tt
  else
    c <- trigger (DialUnixgram socketPath) ;;
    match c with
    | Some _ => Ret tt
    | None => trigger (Notify socketPath state) ;;; trigger (HangUp socketPath)
    end.

Definition rule : bytes := replicate 50 x3d.

Definition extraFlags (a : server_args) : bytes :=
  if sa_isShell a then " --shell"
  else if sa_isSocks a then " --socks 127.0.0.1:1080"
  else if negb (sa_reverseForward a =s "") then " --reverse-forward 127.0.0.1:80"
  else "".

(** The loop that waits for the relay client: the address it is connected to, or the error;
    [None] when [polls] looks were not enough. *)
Fixpoint await_relay (polls : nat) : prog upE (option (result bytes)) :=
  match polls with
  | O => Ret None
  | S polls =>
      e <- trigger RelayClientError ;;
      match e with
      | Some e => Ret (Some (Err (Wrapf "relay client error" e)))
      | None =>
          u <- trigger RelayClientURI ;;
          match u with
          | Some uri => Ret (Some (Ok uri))
          | None =>
              d <- trigger ContextErr ;;
              match d with
              | Some e => Ret (Some (Err e))
              | None => trigger (SleepMs 100) ;;; await_relay polls
              end
          end
      end
  end.

(** [announce]: one goroutine per discovery server. *)
Fixpoint announce_all (servers : list bytes) (interval directPort announcePort : Z) : prog upE unit :=
  match servers with
  | [] => Ret tt
  | ds :: servers =>
      trigger (GoAnnounce ds interval directPort announcePort) ;;;
      announce_all servers interval directPort announcePort
  end.

Section RunServer.
(** Whether [url.Parse] accepts a relay address, the text of the server's own device ID, and
    [%q]. *)
Context (url_ok : bytes → option error) (serverID : bytes) (quote : bytes → bytes).

(** The relay client, if there is one: whether it runs. *)
Definition start_relay (polls : nat) (a : server_args) (actualPort : Z)
    : prog upE (option (result bool)) :=
  if negb (sa_relayURI a =s "") then
    c <- trigger (NewRelayClient (sa_relayURI a)) ;;
    match c with
    | Some e => Ret (Some (Err (Wrapf "failed to create relay client" e)))
    | None =>
        systemdNotify "STATUS=Connecting to relay..." ;;;
        trigger GoServeRelay ;;;
        r <- await_relay polls ;;
        match r with
        | None => Ret None
        | Some (Err e) => Ret (Some (Err e))
        | Some (Ok uri) =>
            trigger (Say (str "Connected to Relay: " ++ uri)) ;;;
            trigger (Say "To connect, run:") ;;;
            trigger (Say (str "  ./syncthing-socket client" ++ extraFlags a ++ str " -relay " ++
                          quote uri ++ str " " ++ serverID)) ;;;
            trigger (Say "Or simply:") ;;;
            trigger (Say (str "  ./syncthing-socket client" ++ extraFlags a ++ str " " ++
                          serverID ++ str "@" ++ uri)) ;;;
            trigger (Say rule) ;;;
            systemdNotify (str "READY=1" ++ [x0a] ++ str "STATUS=Connected to " ++ uri) ;;;
            Ret (Some (Ok true))
        end
    end
  else
    systemdNotify (str "READY=1" ++ [x0a] ++ str "STATUS=Listening for direct connections only") ;;;
    (if 0 <? sa_directPort a
     then trigger (Say "To connect directly, run:") ;;;
          trigger (Say (str "  ./syncthing-socket client" ++ extraFlags a ++ str " -relay " ++
                        [x22] ++ str "tcp://127.0.0.1:" ++ Itoa actualPort ++ [x22] ++
                        str " " ++ serverID)) ;;;
          trigger (Say rule)
     else Ret tt) ;;;
    Ret (Some (Ok false)).

(** From the listener on. *)
Definition serve_from (polls : nat) (a : server_args) (interval actualPort : Z)
    : prog upE (option (option error)) :=
  r <- start_relay polls a actualPort ;;
  match r with
  | None => Ret None
  | Some (Err e) => Ret (Some (Some e))
  | Some (Ok relays) =>
      announce_all (sa_discoveryServers a)
        (if interval <=? 0 then DefaultAnnounceInterval else interval) (sa_directPort a) actualPort ;;;
      e <- (if negb (sa_forwardAddr a =s "")
            then trigger (ForwardLoop a (0 <? sa_directPort a) relays)
            else trigger (SimpleLoop a (0 <? sa_directPort a) relays)) ;;
      Ret (Some e)
  end.

Definition runServer (polls : nat) (a : server_args) (interval : Z) : prog upE (option (option error)) :=
  match url_ok (sa_relayURI a) with
  | Some e => Ret (Some (Some (Wrapf "invalid relay URI" e)))
  | None =>
      trigger (Say rule) ;;;
      trigger (Say (str "Server Device ID: " ++ serverID)) ;;;
      trigger (Say rule) ;;;
      if 0 <? sa_directPort a then
        l <- trigger (Listen (str ":" ++ Itoa (sa_directPort a))) ;;
        match l with
        | Err e => Ret (Some (Some (Wrapf "failed to start direct TCP listener" e)))
        | Ok actualPort =>
            trigger (Say (str "Direct TCP Port: " ++ Itoa actualPort)) ;;;
            trigger (Say rule) ;;;
            r <- serve_from polls a interval actualPort ;;
            (match r with Some _ => trigger CloseListener | None => Ret tt end) ;;;
            Ret r
        end
      else serve_from polls a interval 0
  end.
End RunServer.

(** ** What holds when the server reports itself ready *)

(** The listener has the port, if a port was asked for; the relay client is on a relay, if
    there is a relay. *)
Definition listening (a : server_args) (h : list (event upE)) (port : Z) : Prop :=
  if 0 <? sa_directPort a
  then Did (Listen (str ":" ++ Itoa (sa_directPort a))) (Ok port) ∈ h ∧ Did CloseListener tt ∉ h
  else port = 0.

Definition on_relay (a : server_args) (h : list (event upE)) : Prop :=
  sa_relayURI a ≠ [] → ∃ uri, Did RelayClientURI (Some uri) ∈ h.

Definition ready (a : server_args) (h : list (event upE)) : Prop :=
  on_relay a h ∧ ∃ port, listening a h port.

(** What each request says about the start so far. *)
Inductive startup_rule (a : server_args) (h : list (event upE)) : event upE → Prop :=
| may_notify p s x : (HasPrefix s "READY=1" = true → ready a h) → startup_rule a h (Did (Notify p s) x)
| may_announce ds i dp ap x :
    ready a h → ds ∈ sa_discoveryServers a → 0 < i → dp = sa_directPort a → listening a h ap →
    startup_rule a h (Did (GoAnnounce ds i dp ap) x)
| may_forward l r x :
    ready a h → sa_forwardAddr a ≠ [] → l = (0 <? sa_directPort a) → r = negb (sa_relayURI a =s "") →
    startup_rule a h (Did (ForwardLoop a l r) x)
| may_serve l r x :
    ready a h → sa_forwardAddr a = [] → l = (0 <? sa_directPort a) → r = negb (sa_relayURI a =s "") →
    startup_rule a h (Did (SimpleLoop a l r) x)
| may_prepare X (e : upE X) x :
    match e with
    | Notify _ _ | GoAnnounce _ _ _ _ | ForwardLoop _ _ _ | SimpleLoop _ _ _ => False
    | _ => True
    end → startup_rule a h (Did e x).

#[local] Hint Extern 1 (startup_rule _ _ _) => (by apply may_prepare) : go.

Section StartupProofs.
Context (a : server_args).

Notation guarded := (safe (E := upE) (startup_rule a)).

Definition closes (ev : event upE) : bool := match ev with Did CloseListener _ => true | _ => false end.

(** Requests of the set-up leave the listener alone. *)
Lemma listening_more h port X (e : upE X) x :
  match e with CloseListener => False | _ => True end →
  listening a h port → listening a (h ++ [Did e x]) port.
Proof.
  unfold listening. destruct (0 <? sa_directPort a); [|done]. intros He [H1 H2]. split; [set_solver|].
  intros [?|Hin]%elem_of_app; [done|]. apply list_elem_of_singleton, (f_equal closes) in Hin.
  by destruct e.
Qed.

Lemma listening_intro h port :
  (0 <? sa_directPort a) = true →
  Did (Listen (str ":" ++ Itoa (sa_directPort a))) (Ok port) ∈ h →
  forallb (λ ev, negb (closes ev)) h = true → listening a h port.
Proof.
  intros Ha Hl Hc. unfold listening. rewrite Ha. split; [done|].
  by apply (forallb_absent closes).
Qed.

Lemma on_relay_later h h' : h `prefix_of` h' → on_relay a h → on_relay a h'.
Proof. intros Hp Hr Hne. destruct (Hr Hne) as [uri Hu]. exists uri. by eapply elem_of_later. Qed.

(** One request of the set-up. *)
Lemma prepare {X S} port h (e : upE X) (k : X → prog upE S) (Q : list (event upE) → S → Prop) :
  listening a h port →
  match e with CloseListener => False | _ => True end →
  (∀ x, startup_rule a h (Did e x)) →
  (∀ x, listening a (h ++ [Did e x]) port → guarded (h ++ [Did e x]) (k x) Q) →
  guarded h (pbind (trigger e) k) Q.
Proof.
  intros Hl He HG Hk. apply safe_ask. intros x _. split; [apply HG|]. by apply Hk, listening_more.
Qed.

Lemma systemdNotify_safe port h state :
  listening a h port → (HasPrefix state "READY=1" = true → on_relay a h) →
  guarded h (systemdNotify state) (λ h' _, listening a h' port).
Proof.
  intros Hl Hr. unfold systemdNotify. apply (prepare port); [done..|auto with go|]. intros p Hp.
  case_match; [done|]. apply (prepare port); [done..|auto with go|]. intros [|] Hd; [done|].
  apply (prepare port); [done|done| |].
  - intros x. apply may_notify. intros Hs. split; [|by exists port].
    eapply on_relay_later, Hr, Hs. rewrite <- app_assoc. by apply prefix_app_r.
  - intros x Hn. apply safe_trigger. intros [] _. split; [auto with go|]. by apply listening_more.
Qed.

Lemma await_relay_safe port polls h :
  listening a h port →
  guarded h (await_relay polls) (λ h' r, listening a h' port ∧
    ∀ uri, r = Some (Ok uri) → Did RelayClientURI (Some uri) ∈ h').
Proof.
  revert h; induction polls as [|polls IH]; intros h Hl; [by split|]. cbn [await_relay].
  apply (prepare port); [done..|auto with go|]. intros [e|] H1; [by split|].
  apply (prepare port); [done..|auto with go|]. intros [uri|] H2.
  { apply safe_Ret. split; [done|]. intros ? [= <-]. apply elem_of_last. }
  apply (prepare port); [done..|auto with go|]. intros [e|] H3; [by split|].
  apply (prepare port); [done..|auto with go|]. intros [] H4. by apply IH.
Qed.

Lemma announce_all_safe port servers interval h :
  listening a h port → on_relay a h → (∀ ds, ds ∈ servers → ds ∈ sa_discoveryServers a) → 0 < interval →
  guarded h (announce_all servers interval (sa_directPort a) port)
    (λ h' _, listening a h' port ∧ on_relay a h').
Proof.
  revert h; induction servers as [|ds servers IH]; intros h Hl Hr Hs Hi; [done|]. cbn [announce_all].
  apply (prepare port); [done|done| |].
  - intros x. apply may_announce; [split; [done|by exists port]|set_solver|done|done|done].
  - intros [] Hl'. apply IH; [done| |set_solver|done]. eapply on_relay_later, Hr. by apply prefix_app_r.
Qed.

Context (url_ok : bytes → option error) (serverID : bytes) (quote : bytes → bytes).

Ltac prepared port := apply (prepare port); [done|done|auto with go|].

Lemma start_relay_safe port polls h :
  listening a h port →
  guarded h (start_relay serverID quote polls a port) (λ h' r, listening a h' port ∧
    ∀ relays, r = Some (Ok relays) → on_relay a h' ∧ relays = negb (sa_relayURI a =s "")).
Proof.
  intros Hl. unfold start_relay. destruct (negb (sa_relayURI a =s "")) eqn:Er.
  - prepared port. intros [e|] H1; [by split|].
    eapply safe_call; [by apply systemdNotify_safe|]. intros h1 [] _ H2. prepared port. intros [] H3.
    eapply safe_call; [by apply (await_relay_safe port)|]. intros h2 r _ [H4 Hu].
    destruct r as [[uri|e]|]; [|by split..]. specialize (Hu uri eq_refl).
    do 6 (prepared port; intros [] ?).
    eapply safe_call; [apply systemdNotify_safe; [done|]|].
    { intros _ _. exists uri. repeat (apply elem_of_app; left). exact Hu. }
    intros h3 [] Hp Hl3. apply safe_Ret. split; [done|]. intros ? [= <-]. split; [|done].
    intros _. exists uri. eapply elem_of_later; [exact Hp|]. repeat (apply elem_of_app; left). exact Hu.
  - assert (Hn : ∀ h, on_relay a h).
    { intros h' Hne. apply negb_false_iff, seq_eqb_true in Er. by rewrite Er in Hne. }
    eapply safe_call; [by apply systemdNotify_safe|]. intros h1 [] _ H1.
    apply (safe_call (H := up_effect) _ _ _ _ (λ h' _, listening a h' port)).
    + case_match; [|done]. do 2 (prepared port; intros [] ?). apply safe_trigger. intros [] _.
      split; [auto with go|by apply listening_more].
    + intros h2 [] _ H2. apply safe_Ret. split; [done|]. by intros ? [= <-].
Qed.

Lemma serve_from_safe port polls interval h :
  listening a h port →
  guarded h (serve_from serverID quote polls a interval port) (λ h' _, listening a h' port).
Proof.
  intros Hl. unfold serve_from. eapply safe_call; [by apply start_relay_safe|].
  intros h1 r _ [H1 Hr]. destruct r as [[relays|e]|]; [|done..].
  destruct (Hr relays eq_refl) as [H2 ->].
  eapply safe_call; [apply (announce_all_safe port); [done|done|done|destruct (Z.leb_spec interval 0); [done|lia]]|].
  intros h2 [] _ [H3 H4]. assert (Hready : ready a h2) by (split; [done|by exists port]).
  apply (safe_call (H := up_effect) _ _ _ _ (λ h' _, listening a h' port)); [|done].
  case_match eqn:Ef; bools; apply safe_trigger; intros x _;
    (split; [|by apply listening_more]); [by apply may_forward|by apply may_serve].
Qed.

Lemma runServer_safe polls interval :
  guarded [] (runServer url_ok serverID quote polls a interval) (λ _ _, True).
Proof.
  unfold runServer. case_match; [done|].
  do 3 (apply safe_ask; intros [] _; split; [auto with go|]).
  destruct (0 <? sa_directPort a) eqn:Ed.
  - apply safe_ask. intros [port|e0] _; (split; [auto with go|]); [|done].
    eapply (prepare port); [by apply listening_intro; [|set_solver|]|done|auto with go|]. intros [] H1.
    eapply (prepare port); [done|done|auto with go|]. intros [] H2.
    eapply safe_call; [by apply serve_from_safe|]. intros h' r _ H3.
    apply (safe_call _ _ _ _ (λ _ _, True)); [|done].
    destruct r; [|done]. apply safe_trigger. intros [] _. split; [auto with go|done].
  - eapply safe_mono; [apply serve_from_safe|done]. unfold listening. by rewrite Ed.
Qed.

(** C22. A server is only ready once it can be reached.  Ready is told to systemd, the announcers
    and the accept loops are started, only while the listener is open (if a port was asked
    for) and after the relay client got a relay (if there is one); the announcers have a
    positive interval and the port the listener really has. *)
Theorem startup_ordered polls interval pre e post :
  prefix_exec (runServer url_ok serverID quote polls a interval) (pre ++ e :: post) →
  startup_rule a pre e.
Proof.
  exact (safe_always (E := upE) (startup_rule a) _ (λ _ _, True) pre e post (runServer_safe polls interval)).
Qed.

(** The accept loops are entered with what the start left behind. *)
Lemma startup_loop h ev :
  startup_rule a h ev →
  match ev with
  | Did (ForwardLoop _ l r) _ =>
      sa_forwardAddr a ≠ [] ∧ l = (0 <? sa_directPort a) ∧ r = negb (sa_relayURI a =s "")
  | Did (SimpleLoop _ l r) _ =>
      sa_forwardAddr a = [] ∧ l = (0 <? sa_directPort a) ∧ r = negb (sa_relayURI a =s "")
  | _ => True
  end.
Proof. intros []; try done. by destruct e. Qed.

(** The wait for the relay never ends early: when it has no outcome, every one of the looks
    was followed by a pause, none finding an error, a relay or a cancelled context. *)
Lemma await_relay_patient polls t :
  exec (await_relay polls) t None → t = concat (replicate polls
    [Did RelayClientError None; Did RelayClientURI None; Did ContextErr None; Did (SleepMs 100) tt]).
Proof.
  revert t; induction polls as [|polls IH]; intros t; cbn [await_relay]; [by intros [-> _]|].
  intros ([e|] & t1 & _ & -> & H)%exec_ask; [by destruct H|].
  apply exec_ask in H as ([uri|] & t2 & _ & -> & H); [by destruct H|].
  apply exec_ask in H as ([e|] & t3 & _ & -> & H); [by destruct H|].
  apply exec_ask in H as ([] & t4 & _ & -> & H%IH). by rewrite H.
Qed.

(** ** The listener is given back *)

(** However the server ends, the listener it opened is closed, once, as its last act. *)
Theorem listener_released polls interval t r port :
  exec (runServer url_ok serverID quote polls a interval) t (Some r) →
  Did (Listen (str ":" ++ Itoa (sa_directPort a))) (Ok port) ∈ t →
  0 < sa_directPort a →
  ∃ t', t = t' ++ [Did CloseListener tt] ∧ Did CloseListener tt ∉ t'.
Proof.
  intros Ht Hl Ha%Z.ltb_lt. unfold runServer in Ht. destruct (url_ok (sa_relayURI a)).
  { destruct Ht as [-> _]. by apply elem_of_nil in Hl. }
  do 3 (apply exec_ask in Ht as ([] & ? & _ & -> & Ht)). rewrite Ha in Ht.
  apply exec_ask in Ht as ([p|e] & t1 & _ & -> & Ht).
  - do 2 (apply exec_ask in Ht as ([] & ? & _ & -> & Ht)).
    apply exec_bind in Ht as (t2 & t3 & r' & -> & H2 & H3).
    apply exec_bind in H3 as (t4 & t5 & [] & -> & H4 & [-> <-]).
    apply exec_ask in H4 as ([] & ? & _ & -> & [-> _]).
    pose proof (safe_exec (E := upE) _ _ _ _ _ _ (serve_from_safe p polls interval
      (map (λ x, Did (Say x) tt) [rule; str "Server Device ID: " ++ serverID; rule] ++
       [Did (Listen (str ":" ++ Itoa (sa_directPort a))) (Ok p);
        Did (Say (str "Direct TCP Port: " ++ Itoa p)) tt; Did (Say rule) tt]) ltac:(apply listening_intro; [done|set_solver|done])) H2) as H5.
    unfold listening in H5. rewrite Ha in H5. destruct H5 as [_ H5].
    rewrite !app_comm_cons, !app_nil_r. by eexists.
  - destruct Ht as [-> _]. exfalso.
    apply (forallb_absent (λ ev : event upE, match ev with Did (Listen _) (Ok _) => true | _ => false end)) in Hl;
      done.
Qed.
End StartupProofs.

(** ** The theorems at a concrete start *)

Definition start_args_wit : server_args :=
  mkServerArgs [] "relay://r" [str "https://d"] [] 22000 false false [] false [] [] [].

(** Everything works, and the accept loop ends with an error. *)
Definition smooth : handler upE unit := λ X e s,
  match e in upE X return X * _ with
  | Say _ | CloseListener | GoServeRelay | SleepMs _ | HangUp _ | GoAnnounce _ _ _ _ => (tt, s)
  | Listen _ => (Ok 22000, s)
  | NewRelayClient _ | RelayClientError | ContextErr | DialUnixgram _ | Notify _ _ => (None, s)
  | RelayClientURI => (Some (str "relay://r"), s)
  | Getenv _ => (str "/run/notify", s)
  | ForwardLoop _ _ _ | SimpleLoop _ _ _ => (Some EOF, s)
  end.

Definition start_wit : prog upE (option (option error)) :=
  runServer (λ _, None) "ID" (λ s, s) 1 start_args_wit 0.

Definition start_trace : list (event upE) := trace_of (H := up_effect) smooth start_wit tt.

Lemma start_exec : exec (E := upE) start_wit start_trace (Some (Some EOF)).
Proof. apply (run_exec (E := upE) smooth start_wit tt). by intros X e s; destruct e. Qed.

Lemma startup_ordered_witness :
  startup_rule start_args_wit (take 24 start_trace)
    (Did (GoAnnounce "https://d" DefaultAnnounceInterval 22000 22000) tt).
Proof.
  apply (startup_ordered start_args_wit (λ _, None) "ID" (λ s, s) 1 0 _ _ (drop 25 start_trace)).
  exact (exec_prefix _ _ _ start_exec).
Defined.

Lemma listener_released_witness :
  ∃ t', start_trace = t' ++ [Did CloseListener tt] ∧ Did CloseListener tt ∉ t'.
Proof.
  apply (listener_released start_args_wit (λ _, None) "ID" (λ s, s) 1 0 start_trace (Some EOF) 22000).
  - exact start_exec.
  - apply (list_elem_of_lookup_2 _ 3). reflexivity.
  - done.
Defined.
