(* ===== verification/Process.v ===== *)
(** * The server process

    The parts of the server put together as they run: the [server] command, which calls
    [runServer] in its own goroutine or as a service; [runServer], which starts the accept
    loops; the loops, which hand each connection to a handler; and the handlers, one
    goroutine per connection in forwarding mode.  They run beside each other, one request
    or one step of a loop at a time, until the command has ended. *)

From S2P Require Import Prelude GoStrings Effects Conn Auth WebRTC NetUtil ProxyProtocol.
From S2P Require Import Net ServerConn Client Identity Cli Startup Server.

Set Default Proof Using "Type".

(** ** The state of the process *)

(** The goroutine of a connection: what is left of its handler, and what it has done. *)
Record goroutine := mkGo { rest : prog netE unit; done_ : list net_entry }.

(** The accept loops, once [runServer] has come to them. *)
Inductive accepting : Type :=
| NoLoop
| InSimple (n : Netcat.state)
| InForward (w : Forward.state).

(** [runServer]: its arguments, what is left of it, and what it has done. *)
Record server := mkServer {
  args : server_args;
  body : prog upE (option (option error));
  did : list (event upE);
  loops : accepting;
}.

Record state := mkState {
  cmd : prog cliE Z;
  cmd_did : list (event cliE);
  srv : option server;
  handlers : gmap nat goroutine;
}.

(** The exit status, when the command has ended. *)
Definition exited (s : state) : option Z := match cmd s with Ret z => Some z | Vis _ _ => None end.

(** ** Who calls whom *)

(** The commands that start the server: directly, and through the service manager. *)
Definition server_call {X} (e : cliE X) : option server_args :=
  match e with RunServer a | ServiceRun a => Some a | _ => None end.

(** The loops as they are entered. *)
Definition loop_call {X} (e : upE X) : option accepting :=
  match e with
  | SimpleLoop _ listens relays => Some (InSimple (Netcat.init listens relays))
  | ForwardLoop _ listens relays => Some (InForward (Forward.init listens relays))
  | _ => None
  end.

Definition simple_result (r : Netcat.result_) : option error :=
  match r with Netcat.Served => None | Netcat.CtxErr e => Some e end.

(** The connection the simple mode turns to with a step, and the one it waits for. *)
Definition taken (n n' : Netcat.state) : option (nat * bool) :=
  match Netcat.top n, Netcat.top n' with
  | Netcat.Selecting, Netcat.Handling c isRelay => Some (c, isRelay)
  | _, _ => None
  end.

Definition awaited (n n' : Netcat.state) : option nat :=
  match Netcat.top n, Netcat.top n' with
  | Netcat.Handling c _, Netcat.Returned _ => Some c
  | _, _ => None
  end.

(** The connection the forwarding mode starts a goroutine for with a step. *)
Definition accepted (w w' : Forward.state) : option (nat * bool) :=
  if (length (Forward.handlers w) <? length (Forward.handlers w'))%nat then head (Forward.handlers w') else None.

Definition spawn (h : bool → nat → prog netE unit) (c : option (nat * bool))
    (hs : gmap nat goroutine) : gmap nat goroutine :=
  match c with Some (c, isRelay) => <[c := mkGo (h isRelay c) []]> hs | None => hs end.

Section Process.
Context (validate : bytes → bytes → bool) (NewDeviceID id_string : bytes → bytes).
Context (addr_string : addr → bytes) (DeviceIDFromString : bytes → result bytes).
Context (url_ok : bytes → option error) (quote : bytes → bytes).
Context (polls : nat) (f : server_flags).

Definition server_body (a : server_args) : prog upE (option (option error)) :=
  runServer url_ok (id_string (NewDeviceID (sa_cert a))) quote polls a (serverAnnounceInterval f).

Definition simple_handler (a : server_args) (isRelay : bool) (c : nat) : prog netE unit :=
  handleServerConn validate NewDeviceID (conn_options a) isRelay c.

Definition forward_handler (a : server_args) (isRelay : bool) (c : nat) : prog netE unit :=
  handleForwardConn validate NewDeviceID id_string addr_string (sa_forwardAddr a) isRelay
    (sa_proxyProtocol a) (sa_authorizedClients a) (sa_totpSecret a) c.

Definition init : state := mkState (serverCmd DeviceIDFromString f) [] None ∅.

(** ** The steps *)

(** Nothing moves any more once the command has ended. *)
Inductive step (s : state) : state → Prop :=
| cmd_does {X} (e : cliE X) k x :
    cmd s = Vis e k → server_call e = None → resp_ok e x →
    step s (mkState (k x) (cmd_did s ++ [Did e x]) (srv s) (handlers s))
| cmd_calls {X} (e : cliE X) k a :
    cmd s = Vis e k → server_call e = Some a → srv s = None →
    step s (mkState (cmd s) (cmd_did s) (Some (mkServer a (server_body a) [] NoLoop)) (handlers s))
| cmd_returns a k v r :
    cmd s = Vis (RunServer a) k → srv s = Some v → body v = Ret (Some r) →
    step s (mkState (k r) (cmd_did s ++ [Did (RunServer a) r]) (srv s) (handlers s))
| service_returns a k v r :
    cmd s = Vis (ServiceRun a) k → srv s = Some v →
    step s (mkState (k r) (cmd_did s ++ [Did (ServiceRun a) r]) (srv s) (handlers s))
| srv_does v {X} (e : upE X) k x :
    exited s = None → srv s = Some v → body v = Vis e k → loop_call e = None →
    step s (mkState (cmd s) (cmd_did s)
              (Some (mkServer (args v) (k x) (did v ++ [Did e x]) (loops v))) (handlers s))
| srv_enters v {X} (e : upE X) k l :
    exited s = None → srv s = Some v → body v = Vis e k → loop_call e = Some l → loops v = NoLoop →
    step s (mkState (cmd s) (cmd_did s) (Some (mkServer (args v) (body v) (did v) l)) (handlers s))
| simple_leaves v a listens relays k n r :
    exited s = None → srv s = Some v → body v = Vis (SimpleLoop a listens relays) k →
    loops v = InSimple n → Netcat.top n = Netcat.Returned r →
    step s (mkState (cmd s) (cmd_did s)
              (Some (mkServer (args v) (k (simple_result r))
                       (did v ++ [Did (SimpleLoop a listens relays) (simple_result r)]) (loops v)))
              (handlers s))
| forward_leaves v a listens relays k w r :
    exited s = None → srv s = Some v → body v = Vis (ForwardLoop a listens relays) k →
    loops v = InForward w → Forward.top w = Forward.Returned r →
    step s (mkState (cmd s) (cmd_did s)
              (Some (mkServer (args v) (k (Some (Forward.return_error r)))
                       (did v ++ [Did (ForwardLoop a listens relays) (Some (Forward.return_error r))]) (loops v)))
              (handlers s))
| simple_moves v n n' :
    exited s = None → srv s = Some v → loops v = InSimple n → Netcat.step n n' →
    (∀ c, awaited n n' = Some c → ∃ h, handlers s !! c = Some (mkGo (Ret tt) h)) →
    step s (mkState (cmd s) (cmd_did s) (Some (mkServer (args v) (body v) (did v) (InSimple n')))
              (spawn (simple_handler (args v)) (taken n n') (handlers s)))
| forward_moves v w w' :
    exited s = None → srv s = Some v → loops v = InForward w → Forward.step w w' →
    step s (mkState (cmd s) (cmd_did s) (Some (mkServer (args v) (body v) (did v) (InForward w')))
              (spawn (forward_handler (args v)) (accepted w w') (handlers s)))
| handler_does c {X} (e : netE X) k h x :
    exited s = None → handlers s !! c = Some (mkGo (Vis e k) h) → resp_ok e x →
    step s (mkState (cmd s) (cmd_did s) (srv s) (<[c := mkGo (k x) (h ++ [log e x])]> (handlers s))).

Definition reachable (s : state) : Prop := rtc step init s.


(** ** The invariant *)

Definition listens (a : server_args) : bool := 0 <? sa_directPort a.
Definition relays (a : server_args) : bool := negb (sa_relayURI a =s "").

(** What a return of [runServer], and of an accept loop, looks like in a history. *)
Definition server_result (ev : event cliE) : option (option error) :=
  match ev with Did (RunServer _) r => Some r | _ => None end.
Definition loop_result (ev : event upE) : option (option error) :=
  match ev with Did (SimpleLoop _ _ _) r | Did (ForwardLoop _ _ _) r => Some r | _ => None end.

(** Every goroutine runs the handler of a connection of [conns]. *)
Definition goroutines (h : bool → nat → prog netE unit) (conns : nat → Prop) (hs : gmap nat goroutine) : Prop :=
  ∀ c g, hs !! c = Some g → conns c ∧ ∃ isRelay, reaches (h isRelay c) (done_ g) (rest g).

(** The loops are those the arguments ask for, and have started the goroutines there are;
    [results] is what they have returned so far. *)
Definition loops_inv (a : server_args) (l : accepting) (results : list (option error))
    (hs : gmap nat goroutine) : Prop :=
  match l with
  | NoLoop => results = [] ∧ hs = ∅
  | InSimple n =>
      sa_forwardAddr a = [] ∧ Netcat.reachable (listens a) (relays a) n ∧
      goroutines (simple_handler a) (λ c, c ∈ Netcat.served n) hs ∧
      (∀ r, r ∈ results → ∃ q, Netcat.top n = Netcat.Returned q ∧ r = simple_result q) ∧
      (Netcat.top n = Netcat.Returned Netcat.Served →
       ∃ c h, Netcat.served n = [c] ∧ hs !! c = Some (mkGo (Ret tt) h))
  | InForward w =>
      sa_forwardAddr a ≠ [] ∧ Forward.reachable (listens a) (relays a) w ∧
      goroutines (forward_handler a) (λ c, c ∈ map fst (Forward.handlers w)) hs ∧
      (∀ r, r ∈ results → r ≠ None)
  end.

Record server_inv (hs : gmap nat goroutine) (v : server) : Prop := mkServerInv {
  si_started : started DeviceIDFromString f (args v);
  si_body : reaches (server_body (args v)) (did v) (body v);
  si_loops : loops_inv (args v) (loops v) (omap loop_result (did v)) hs;
}.

Record inv (s : state) : Prop := mkInv {
  inv_cmd : reaches (serverCmd DeviceIDFromString f) (cmd_did s) (cmd s);
  inv_returned : ∀ r, r ∈ omap server_result (cmd_did s) →
                   ∃ v, srv s = Some v ∧ body v = Ret (Some r);
  inv_none : srv s = None → handlers s = ∅;
  inv_server : ∀ v, srv s = Some v → server_inv (handlers s) v;
  inv_shown : ∀ v, srv s = Some v → shown (cmd_did s) (sa_totpSecret (args v));
}.

(** *** What the parts guarantee *)

Lemma server_call_started {X} (e : cliE X) k h a :
  reaches (serverCmd DeviceIDFromString f) h (Vis e k) → server_call e = Some a →
  started DeviceIDFromString f a ∧ shown h (sa_totpSecret a).
Proof.
  intros Hr Ha. assert (∃ x, resp_ok e x) as [x Hx] by (by destruct e; try done; exists None).
  pose proof (safe_always (E := cliE) _ _ _ _ _ _ (serverCmd_safe DeviceIDFromString f)
    (reaches_ask _ _ _ _ _ Hr Hx)) as H.
  destruct e; cbn in Ha; simplify_eq; apply H.
Qed.

Lemma loop_call_as_started {X} (e : upE X) k h a l :
  reaches (server_body a) h (Vis e k) → loop_call e = Some l →
  (l = InSimple (Netcat.init (listens a) (relays a)) ∧ sa_forwardAddr a = []) ∨
  (l = InForward (Forward.init (listens a) (relays a)) ∧ sa_forwardAddr a ≠ []).
Proof.
  intros Hr Hl. assert (∃ x, resp_ok e x) as [x Hx] by (by destruct e; try done; exists None).
  pose proof (safe_always (E := upE) _ _ _ _ _ _
    (runServer_safe a url_ok (id_string (NewDeviceID (sa_cert a))) quote polls (serverAnnounceInterval f))
    (reaches_ask _ _ _ _ _ Hr Hx)) as H%startup_loop.
  destruct e; cbn in Hl; simplify_eq; [right|left]; destruct H as (Hf & -> & ->); by split.
Qed.

(** *** Goroutines *)

Lemma goroutines_mono h (P Q : nat → Prop) hs : goroutines h P hs → (∀ c, P c → Q c) → goroutines h Q hs.
Proof. intros Hg HPQ c g Hc. destruct (Hg c g Hc). auto. Qed.

Lemma goroutines_spawn h (P Q : nat → Prop) o hs :
  goroutines h P hs → (∀ c, P c → Q c) → (∀ c r, o = Some (c, r) → Q c) → goroutines h Q (spawn h o hs).
Proof.
  intros Hg HPQ Ho. destruct o as [[c r]|]; cbn [spawn]; [|by eapply goroutines_mono].
  intros c' g [[<- <-]|[_ Hc]]%lookup_insert_Some; [|destruct (Hg _ _ Hc); auto].
  split; [by eapply Ho|]. exists r. exact (reaches_start _).
Qed.

Lemma goroutines_step h P hs c {X} (e : netE X) k d x :
  goroutines h P hs → hs !! c = Some (mkGo (Vis e k) d) → resp_ok e x →
  goroutines h P (<[c := mkGo (k x) (d ++ [log e x])]> hs).
Proof.
  intros Hg Hc Hx c' g [[<- <-]|[_ Hc']]%lookup_insert_Some; [|by apply Hg].
  destruct (Hg _ _ Hc) as (HP & r & Hr). split; [done|]. exists r. exact (reaches_next (H := net_effect) _ d e k x Hr Hx).
Qed.

Lemma finished_stays (hs : gmap nat goroutine) c c' {X} (e : netE X) k d g h :
  hs !! c = Some (mkGo (Vis e k) d) → hs !! c' = Some (mkGo (Ret tt) h) →
  <[c := g]> hs !! c' = Some (mkGo (Ret tt) h).
Proof. intros Hc Hc'. rewrite lookup_insert_ne; [done|]. by intros ->; rewrite Hc in Hc'. Qed.

(** *** Steps of the loops *)

Lemma netcat_served n n' :
  Netcat.step n n' →
  Netcat.served n' = match taken n n' with Some (c, _) => c :: Netcat.served n | None => Netcat.served n end.
Proof.
  unfold taken. intros []; cbn [Netcat.top Netcat.served]; try (by destruct (Netcat.top _));
    by match goal with H : Netcat.top _ = _ |- _ => rewrite H end.
Qed.

Lemma netcat_finishing n n' q :
  Netcat.step n n' → Netcat.top n' = Netcat.Returned q →
  Netcat.top n = Netcat.Returned q ∨ (∃ c, awaited n n' = Some c) ∨ ∃ e, q = Netcat.CtxErr e.
Proof.
  unfold awaited. intros []; cbn [Netcat.top]; try by auto.
  - intros [= <-]. right. left. rewrite H. eauto.
  - intros [= <-]. eauto.
Qed.

Lemma netcat_returned_stays n n' q :
  Netcat.step n n' → Netcat.top n = Netcat.Returned q → Netcat.top n' = Netcat.Returned q.
Proof. intros []; cbn [Netcat.top]; congruence. Qed.

Lemma forward_handlers w w' :
  Forward.step w w' → Forward.handlers w' = option_list (accepted w w') ++ Forward.handlers w.
Proof.
  unfold accepted. intros []; cbn [Forward.handlers length head];
    match goal with |- context [(?a <? ?b)%nat] => destruct (Nat.ltb_spec a b) end; try lia; done.
Qed.

(** *** The invariant is kept *)

Lemma netcat_reachable_step l r n n' : Netcat.reachable l r n → Netcat.step n n' → Netcat.reachable l r n'.
Proof. intros Hr Hs. by eapply rtc_r. Qed.

Lemma simple_moves_inv a n n' results hs :
  loops_inv a (InSimple n) results hs → Netcat.step n n' →
  (∀ c, awaited n n' = Some c → ∃ h, hs !! c = Some (mkGo (Ret tt) h)) →
  loops_inv a (InSimple n') results (spawn (simple_handler a) (taken n n') hs).
Proof.
  intros (Hf & Hr & Hg & Hq & Hd) Hst Haw. pose proof (netcat_served _ _ Hst) as Hsv.
  split_and!; [done|by eapply netcat_reachable_step| | |].
  - eapply goroutines_spawn; [exact Hg| |]; rewrite Hsv.
    + intros c Hc. destruct (taken n n') as [[]|]; set_solver.
    + intros c r ->. set_solver.
  - intros r (q & Ht & ->)%Hq. exists q. split; [by eapply netcat_returned_stays|done].
  - intros Ht. assert (Hno : taken n n' = None) by (unfold taken; rewrite Ht; by destruct (Netcat.top n)).
    rewrite Hno in *. rewrite Hsv. cbn [spawn].
    destruct (netcat_finishing _ _ _ Hst Ht) as [Ht'|[[c Hc]|[e [=]]]]; [by apply Hd|].
    destruct (Haw c Hc) as [h Hh]. exists c, h. split; [|done].
    destruct (Netcat.netcat_inv_reachable _ _ _ Hr) as [_ Ho]. unfold awaited in Hc.
    destruct (Netcat.top n) eqn:E; rewrite ?Ht in Hc; try done. by injection Hc as ->.
Qed.

Lemma forward_moves_inv a w w' results hs :
  loops_inv a (InForward w) results hs → Forward.step w w' →
  loops_inv a (InForward w') results (spawn (forward_handler a) (accepted w w') hs).
Proof.
  intros (Hf & Hr & Hg & Hq) Hst. split_and!; [done|by eapply rtc_r| |done].
  eapply goroutines_spawn; [exact Hg| |]; rewrite (forward_handlers _ _ Hst), map_app.
  - set_solver.
  - intros c r ->. set_solver.
Qed.

Lemma handler_does_inv a l results hs c {X} (e : netE X) k d x :
  loops_inv a l results hs → hs !! c = Some (mkGo (Vis e k) d) → resp_ok e x →
  loops_inv a l results (<[c := mkGo (k x) (d ++ [log e x])]> hs).
Proof.
  intros Hl Hc Hx. destruct l as [|n|w]; cbn [loops_inv] in *.
  - destruct Hl as [_ ->]. by rewrite lookup_empty in Hc.
  - destruct Hl as (Hf & Hr & Hg & Hq & Hd). split_and!; [done..|by eapply goroutines_step|done|].
    intros Ht. destruct (Hd Ht) as (c' & h & Hsv & Hh). exists c', h.
    split; [done|]. by eapply finished_stays.
  - destruct Hl as (Hf & Hr & Hg & Hq). split_and!; [done..|by eapply goroutines_step|done].
Qed.

(** Entering a loop. *)
Lemma srv_enters_inv a {X} (e : upE X) k h l results hs :
  reaches (server_body a) h (Vis e k) → loop_call e = Some l →
  loops_inv a NoLoop results hs → loops_inv a l results hs.
Proof.
  intros Hr Hl [-> ->]. destruct (loop_call_as_started e k h a l Hr Hl) as [[-> Hf]|[-> Hf]];
    split_and!; try done; try (by apply rtc_refl); by intros ? ?%elem_of_nil.
Qed.

Lemma process_inv_init : inv init.
Proof. split; [exact (reaches_start _)|by intros ? ?%elem_of_nil|done..]. Qed.

Lemma no_server_result {X} (e : cliE X) x : server_call e = None → server_result (Did e x) = None.
Proof. by destruct e. Qed.

Lemma no_loop_result {X} (e : upE X) x : loop_call e = None → loop_result (Did e x) = None.
Proof. by destruct e. Qed.

(** Steps of the command. *)
Lemma cmd_inv s {X} (e : cliE X) k x :
  inv s → cmd s = Vis e k → resp_ok e x →
  (∀ r, server_result (Did e x) = Some r → ∃ v, srv s = Some v ∧ body v = Ret (Some r)) →
  inv (mkState (k x) (cmd_did s ++ [Did e x]) (srv s) (handlers s)).
Proof.
  intros [Hc Hr Hn Hv Hs] E Hx Hret. split; cbn [cmd cmd_did srv handlers]; [| |done|done|].
  - rewrite E in Hc. exact (reaches_next (H := cli_effect) _ _ e k x Hc Hx).
  - intros r. rewrite omap_app, elem_of_app. intros [?|H]; [by apply Hr|].
    cbn [omap list_omap] in H. destruct (server_result (Did e x)) eqn:Es; [|by apply elem_of_nil in H].
    apply list_elem_of_singleton in H as ->. by apply Hret.
  - intros v Ev. eapply shown_later; [by apply prefix_app_r|]. by apply Hs.
Qed.

(** Steps of [runServer], its loops and its handlers. *)
Lemma server_inv_step s v v' hs :
  inv s → srv s = Some v → server_inv hs v' → args v' = args v →
  (∀ r, body v = Ret r → body v' = body v) →
  inv (mkState (cmd s) (cmd_did s) (Some v') hs).
Proof.
  intros [Hc Hr Hn Hv Hs] E Hv' Ha Hb. split; cbn [cmd cmd_did srv handlers]; [done| |done| |].
  - intros r (v0 & E0 & Hb0)%Hr. assert (v0 = v) as -> by congruence. exists v'. split; [done|].
    by rewrite (Hb _ Hb0).
  - by intros ? [= <-].
  - intros ? [= <-]. rewrite Ha. by apply Hs.
Qed.

Lemma server_answer {X} hs v (e : upE X) k x :
  server_inv hs v → body v = Vis e k →
  (∀ results, loops_inv (args v) (loops v) results hs →
     loops_inv (args v) (loops v) (results ++ option_list (loop_result (Did e x))) hs) →
  server_inv hs (mkServer (args v) (k x) (did v ++ [Did e x]) (loops v)).
Proof.
  intros [H1 H2 H3] E Hl. split; cbn [args body did loops]; [done| |].
  - rewrite E in H2. exact (reaches_next (H := up_effect) _ _ e k x H2 I).
  - rewrite omap_app. apply Hl in H3. by destruct (loop_result (Did e x)) eqn:El; cbn in *; rewrite ?El in *.
Qed.

Lemma process_inv_step s s' : inv s → step s s' → inv s'.
Proof.
  intros Hi Hst. pose proof Hi as [Hc Hr Hn Hv Hsh].
  destruct Hst as [X e k x E Hcall Hx|X e k a E Hcall E'|a k v r E E' Hb|a k v r E E'
    |v X e k x _ E Hb Hl|v X e k l _ E Hb Hl Hno|v a l r k n q _ E Hb Hl Ht|v a l r k w q _ E Hb Hl Ht
    |v n n' _ E Hl Hs Haw|v w w' _ E Hl Hs|c X e k h x _ Hh Hx].
  - apply cmd_inv; [done..|]. by rewrite no_server_result.
  - rewrite E in Hc. destruct (server_call_started _ _ _ _ Hc Hcall) as [H1 H2].
    split; cbn [cmd cmd_did srv handlers]; [by rewrite E| |done| |by intros ? [= <-]].
    + intros r (v & E0 & _)%Hr. congruence.
    + intros ? [= <-]. split; [done|exact (reaches_start _)|split; [done|auto]].
  - apply (cmd_inv s (RunServer a)); [done..|]. intros ? [= <-]. eauto.
  - by apply (cmd_inv s (ServiceRun a)).
  - eapply server_inv_step; [done..| |done|by rewrite Hb]. apply (server_answer _ _ e k x (Hv _ E) Hb).
    intros res. by rewrite no_loop_result, app_nil_r.
  - eapply server_inv_step; [done..| |done|done]. destruct (Hv _ E) as [H1 H2 H3]. split; [done..|].
    cbn [args did loops]. rewrite Hno in H3. rewrite Hb in H2. by eapply srv_enters_inv.
  - eapply server_inv_step; [done..| |done|by rewrite Hb]. apply (server_answer _ _ _ k _ (Hv _ E) Hb).
    rewrite Hl. intros res (? & ? & ? & Hq & ?). split_and!; [done..| |done].
    intros x [?|Hx%list_elem_of_singleton]%elem_of_app; [by apply Hq|]. exists q. by rewrite Hx.
  - eapply server_inv_step; [done..| |done|by rewrite Hb]. apply (server_answer _ _ _ k _ (Hv _ E) Hb).
    rewrite Hl. intros res (? & ? & ? & Hq). split_and!; [done..|].
    intros x [?|Hx%list_elem_of_singleton]%elem_of_app; [by apply Hq|by rewrite Hx].
  - eapply server_inv_step; [done..| |done|done]. destruct (Hv _ E) as [H1 H2 H3]. split; [done..|].
    rewrite Hl in H3. by apply simple_moves_inv.
  - eapply server_inv_step; [done..| |done|done]. destruct (Hv _ E) as [H1 H2 H3]. split; [done..|].
    rewrite Hl in H3. by apply forward_moves_inv.
  - split; cbn [cmd cmd_did srv handlers]; [done|done| | |done].
    + intros E. rewrite (Hn E) in Hh. by rewrite lookup_empty in Hh.
    + intros v E. destruct (Hv _ E) as [H1 H2 H3]. split; [done..|]. by apply handler_does_inv.
Qed.

Lemma process_inv_reachable s : reachable s → inv s.
Proof.
  intros H. assert (G : ∀ x y, rtc step x y → inv x → inv y).
  { induction 1; [done|]. eauto using process_inv_step. }
  eapply G; [exact H|apply process_inv_init].
Qed.

(** ** Nobody is served against the flags *)

(** What a client has to have shown on [c] by the time of [pre], in terms of the flags; the
    command has done [told]. *)
Record entitled (told : list (event cliE)) (c : nat) (pre : list net_entry) : Prop := mkEntitled {
  is_named : comma_list (serverAuthorizedClients f) ≠ [] →
    ∃ cert rest i, CertificatesOf c (cert :: rest) ∈ pre ∧
      i ∈ comma_list (serverAuthorizedClients f) ∧ DeviceIDFromString i = Ok (NewDeviceID cert);
  knows_secret : serverTOTP f = true ∨ serverTOTPSecret f ≠ [] →
    ∃ secret payload resp, shown told secret ∧ secret ≠ [] ∧
      (serverTOTPSecret f ≠ [] → secret = serverTOTPSecret f) ∧
      TLSIO c (ReadN (Z.of_nat (length payload)) (Ok payload)) ∈ pre ∧
      unmarshal payload = Some resp ∧ ar_Type resp = "auth" ∧ validate (ar_TOTP resp) secret = true;
}.

Lemma admitted_entitled a told c pre :
  started DeviceIDFromString f a → shown told (sa_totpSecret a) →
  admitted validate NewDeviceID c (sa_authorizedClients a) (sa_totpSecret a) pre →
  entitled told c pre.
Proof.
  clear url_ok quote id_string addr_string. intros [_ Hids Hgiven Hsome _ _] Hsh (certs & t0 & Hp & Hc & Ht). split.
  - intros Hne. destruct Hc as (cert & rest & -> & Hin).
    { intros E. rewrite E in Hids. by apply Forall2_nil_inv_r in Hids. }
    apply list_elem_of_lookup in Hin as [i Hi].
    destruct (Forall2_lookup_r _ _ _ _ _ Hids Hi) as (n & Hn & Hd). exists cert, rest, n.
    split_and!; [eapply elem_of_later; [exact Hp|set_solver]|by eapply list_elem_of_lookup_2|done].
  - intros Hs. assert (Hne : sa_totpSecret a ≠ []).
    { destruct Hs as [Hs|Hs]; [by apply Hsome|by rewrite (Hgiven Hs)]. }
    destruct (Ht Hne) as (payload & resp & Hin & Hu & Hty & Hval).
    exists (sa_totpSecret a), payload, resp. split_and!; try done.
    eapply elem_of_later; [exact Hp|]. set_solver.
Qed.

(** Handshake, passcode exchange and closing are all a stranger gets. *)
Definition opening (e : net_entry) : bool :=
  match e with
  | Handshaken _ _ | CertificatesOf _ _ | TLSIO _ _ | TLSClosed _ | ConnClosed _ => true
  | _ => false
  end.

Lemma gated_opening clients secret c pre e :
  opening e = false → gated validate NewDeviceID c clients secret pre e →
  admitted validate NewDeviceID c clients secret pre.
Proof. intros He [H|H]; [by destruct e|done]. Qed.

Lemma handler_entitled s c g pre e post :
  reachable s → handlers s !! c = Some g → done_ g = pre ++ e :: post → opening e = false →
  entitled (cmd_did s) c pre.
Proof.
  intros [_ _ Hn Hv Hsh]%process_inv_reachable Hc Hd Ho.
  destruct (srv s) as [v|] eqn:Ev; [|by rewrite Hn, lookup_empty in Hc].
  destruct (Hv v eq_refl) as [Hst _ Hl]. specialize (Hsh v eq_refl).
  apply (admitted_entitled _ _ _ _ Hst Hsh). destruct (loops v) as [|n|w]; cbn [loops_inv] in Hl.
  - destruct Hl as [_ E]. by rewrite E, lookup_empty in Hc.
  - destruct Hl as (_ & _ & Hg & _). destruct (Hg c g Hc) as (_ & r & Hr%reaches_prefix).
    rewrite Hd in Hr. eapply gated_opening; [exact Ho|].
    exact (safe_always (E := netE) _ _ _ pre e post (server_gated _ _ _ _ _) Hr).
  - destruct Hl as (_ & _ & Hg & _). destruct (Hg c g Hc) as (_ & r & Hr%reaches_prefix).
    rewrite Hd in Hr. eapply gated_opening; [exact Ho|].
    exact (safe_always (E := netE) _ _ _ pre e post (forward_gated _ _ _ _ _ _ _ _ _ _) Hr).
Qed.

(** C1. The whole server, from its flags to every connection: however the command, the start-up,
    the accept loops and the handlers of all connections interleave, whatever the peers do,
    and in every mode, a handler goes beyond the TLS handshake and the passcode exchange (it
    upgrades, dials the forwarding target, copies, serves) only after its own peer has
    presented the certificate of a device that [--authorized-clients] names, if it names any,
    and has sent a passcode valid for the secret in force, if [--totp] or [--totp-secret] asks for one; that
    secret is the one given, or else the one that was shown. *)
Theorem process_gate s c g pre e post :
  reachable s → handlers s !! c = Some g → done_ g = pre ++ e :: post → opening e = false →
  entitled (cmd_did s) c pre.
Proof. apply handler_entitled. Qed.

(** ** What the exit status says *)

Lemma exit_error_status text t z : exec (exit_error text) t z → z = 1.
Proof. by intros (x & t' & _ & -> & [_ ->])%exec_ask. Qed.

(** The server that was started, here or by the service manager, has returned no error. *)
Definition server_ok (t : list (event cliE)) : Prop :=
  None ∈ omap server_result t ∨ ∃ a, Did (ServiceRun a) None ∈ t.

Lemma server_ok_app t1 t2 : server_ok t1 ∨ server_ok t2 → server_ok (t1 ++ t2).
Proof.
  unfold server_ok. rewrite omap_app, elem_of_app. intros [[H|[a H]]|[H|[a H]]]; [by auto| |by auto|];
    right; exists a; rewrite elem_of_app; auto.
Qed.

Lemma runServerWrapper_ok a t : exec (runServerWrapper a) t None → server_ok t.
Proof.
  unfold runServerWrapper. intros ([e|] & t1 & _ & -> & H)%exec_ask; [by destruct H|].
  apply exec_ask in H as ([] & t2 & _ & -> & H); apply exec_ask in H as (x & t3 & _ & -> & [-> <-]).
  - left. cbn. by left.
  - right. exists a. right. right. by left.
Qed.

(** The command succeeds only if the server it started did. *)
Lemma serverCmd_zero t : exec (serverCmd DeviceIDFromString f) t 0 → server_ok t.
Proof.
  unfold serverCmd. intros ([] & t1 & _ & -> & H)%exec_ask.
  destruct (1 <? server_modes f)%nat; [by apply exit_error_status in H|].
  apply exec_bind in H as (t2 & t3 & [] & -> & _ & H).
  apply exec_bind in H as (t4 & t5 & [[cert|]|] & -> & _ & H); [|by apply exit_error_status in H..].
  unfold start_server in H. destruct (parse_ids _ _) as [|ids]; [by apply exit_error_status in H|].
  apply exec_bind in H as (t6 & t7 & [secret|] & -> & _ & H); [|by apply exit_error_status in H].
  apply exec_bind in H as (t8 & t9 & [] & -> & _ & H).
  apply exec_bind in H as (ta & tb & [e|] & -> & Hw & H); [by apply exit_error_status in H|].
  apply runServerWrapper_ok in Hw. apply (server_ok_app [_]). right.
  do 4 (apply server_ok_app; right). apply server_ok_app. by left.
Qed.

(** [runServer] succeeds only if the loop it entered did. *)
Lemma server_body_ok a (t : list (event upE)) : exec (server_body a) t (Some None) → None ∈ omap loop_result t.
Proof.
  assert (Hs : ∀ port (t : list (event upE)) r, exec (serve_from (id_string (NewDeviceID (sa_cert a))) quote polls a
                 (serverAnnounceInterval f) port) t r → r = Some None → None ∈ omap loop_result t).
  { intros port t0 r. unfold serve_from.
    intros (t1 & t2 & [[rl|e]|] & -> & _ & H)%exec_bind; [|by destruct H as [_ ->]..].
    apply exec_bind in H as (t3 & t4 & [] & -> & _ & H).
    apply exec_bind in H as (t5 & t6 & e & -> & H & [-> ->]). intros [= ->].
    rewrite !omap_app, !elem_of_app. right. right. left.
    by destruct (negb _); apply exec_ask in H as (x & t7 & _ & -> & [-> <-]); left. }
  unfold server_body, runServer. destruct (url_ok _); [by intros [_ [=]]|].
  intros H. do 3 (apply exec_ask in H as ([] & ? & _ & -> & H)). cbn [omap list_omap loop_result log].
  destruct (0 <? sa_directPort a); [|by eapply Hs].
  apply exec_ask in H as ([port|e] & t1 & _ & -> & H); [|by destruct H as [_ [=]]].
  do 2 (apply exec_ask in H as ([] & ? & _ & -> & H)).
  apply exec_bind in H as (t2 & t3 & r & -> & H2 & H).
  apply exec_bind in H as (t4 & t5 & [] & -> & _ & [_ <-]).
  cbn. rewrite omap_app, elem_of_app. left. by eapply Hs.
Qed.

(** The service the flags ask for. *)
Definition flag_service : service :=
  chosen (mkOptions (serverSocks f) (serverShell f) (serverCommand f) (serverReverseForward f) [] []).

Lemma started_service a : started DeviceIDFromString f a → chosen (conn_options a) = flag_service.
Proof.
  intros [_ _ _ _ _ (H1 & H2 & H3 & _ & H5 & _)]. unfold flag_service, chosen. cbn.
  by rewrite H1, H2, H3, H5.
Qed.

(** In simple mode there is one connection, and the service of the flags on it. *)
Lemma simple_goroutine v n hs c g :
  server_inv hs v → loops v = InSimple n → hs !! c = Some g →
  Netcat.served n = [c] ∧ ∃ isRelay, reaches (simple_handler (args v) isRelay c) (done_ g) (rest g).
Proof.
  intros [_ _ Hl] E Hc. rewrite E in Hl. destruct Hl as (_ & Hr & Hg & _).
  destruct (Hg c g Hc) as [Hin Hre]. split; [|done].
  pose proof (Netcat.netcat_one _ _ _ Hr) as Hle.
  destruct (Netcat.served n) as [|c0 [|c1 l]]; [by apply elem_of_nil in Hin| |cbn in Hle; lia].
  by apply list_elem_of_singleton in Hin as ->.
Qed.

Lemma server_mode hs v :
  server_inv hs v →
  match loops v with
  | NoLoop => hs = ∅ | InSimple _ => serverForward f = [] | InForward _ => serverForward f ≠ []
  end.
Proof.
  intros [Hst _ Hl]. destruct (same_mode _ _ _ Hst) as (_ & _ & _ & <- & _).
  destruct (loops v); cbn in Hl; naive_solver.
Qed.

(** Handlers in simple mode: all on the one connection, with the service of the flags. *)
Lemma simple_handlers s c g :
  reachable s → serverForward f = [] → handlers s !! c = Some g →
  ∃ v n, srv s = Some v ∧ loops v = InSimple n ∧ Netcat.served n = [c] ∧
    (services (done_ g) = [] ∨ ∃ d, services (done_ g) = [(d, flag_service)]).
Proof.
  intros [_ _ Hn Hv _]%process_inv_reachable Hf Hc.
  destruct (srv s) as [v|] eqn:Ev; [|by rewrite Hn, lookup_empty in Hc].
  specialize (Hv v eq_refl). pose proof (server_mode _ _ Hv) as Hm.
  destruct (loops v) as [|n|w] eqn:El; [by rewrite Hm, lookup_empty in Hc| |done].
  destruct (simple_goroutine _ _ _ _ _ Hv El Hc) as (Hs & r & Hr%reaches_prefix).
  exists v, n. split_and!; [done..|]. apply served_so_far in Hr.
  by rewrite (started_service _ (si_started _ _ Hv)) in Hr.
Qed.

Lemma handler_services s c g :
  reachable s → serverForward f = [] → handlers s !! c = Some g →
  services (done_ g) = [] ∨ ∃ d, services (done_ g) = [(d, flag_service)].
Proof. intros Hr Hf Hc. by destruct (simple_handlers s c g Hr Hf Hc) as (v & n & _ & _ & _ & H). Qed.

(** C9. A server without [--forward] handles one connection in its life: no two handlers ever
    run, and the one that does has run at most one service, the one of the flags. *)
Theorem process_serves_one s c g c' g' :
  reachable s → serverForward f = [] → handlers s !! c = Some g → handlers s !! c' = Some g' →
  c' = c ∧ (services (done_ g) = [] ∨ ∃ d, services (done_ g) = [(d, flag_service)]).
Proof.
  intros Hr Hf Hc Hc'. destruct (simple_handlers s c g Hr Hf Hc) as (v & n & E1 & E2 & E3 & H).
  destruct (simple_handlers s c' g' Hr Hf Hc') as (v' & n' & E1' & E2' & E3' & _).
  split; [congruence|done].
Qed.

(** C11. What exit status zero says: unless the server was run by a service manager, it is not a
    forwarding server, and it has handled exactly one connection to its end, closing it.
    Whether that client was admitted and served, or turned away, the status does not say. *)
Theorem process_exit_zero s :
  reachable s → exited s = Some 0 →
  (∃ a, Did (ServiceRun a) None ∈ cmd_did s) ∨
  serverForward f = [] ∧ ∃ c t1, handlers s = {[c := mkGo (Ret tt) (t1 ++ [ConnClosed c])]} ∧
    (services t1 = [] ∨ ∃ d, services t1 = [(d, flag_service)]).
Proof.
  intros [Hc Hret _ Hv _]%process_inv_reachable He. unfold exited in He.
  destruct (cmd s) as [z|] eqn:Ez; [injection He as ->|done].
  apply reaches_exec, serverCmd_zero in Hc as [Hc|Hc]; [|by left]. right.
  destruct (Hret _ Hc) as (v & Ev & Hb). pose proof (Hv v Ev) as Hi. pose proof (server_mode _ _ Hi) as Hm.
  pose proof Hi as [Hst Hbody Hl]. rewrite Hb in Hbody. apply reaches_exec, server_body_ok in Hbody.
  destruct (loops v) as [|n|w] eqn:El; cbn [loops_inv] in Hl.
  - destruct Hl as [E _]. rewrite E in Hbody. by apply elem_of_nil in Hbody.
  - split; [done|]. destruct Hl as (_ & _ & Hg & Hq & Hd). destruct (Hq _ Hbody) as ([|] & Ht & Hr); [|done].
    destruct (Hd Ht) as (c & h & Hs & Hh).
    destruct (simple_goroutine _ _ _ _ _ Hi El Hh) as (_ & r & Hre). cbn [rest done_] in Hre.
    apply reaches_exec, served_once_exec in Hre as (t1 & -> & Hsv). exists c, t1. split.
    + apply map_eq. intros c'. destruct (decide (c' = c)) as [->|Hne]; [by rewrite lookup_singleton_eq|].
      rewrite lookup_singleton_ne by done. destruct (handlers s !! c') as [g|] eqn:Eg; [|done].
      destruct (simple_goroutine _ _ _ _ _ Hi El Eg) as (Hs' & _). congruence.
    + rewrite <- (started_service _ Hst). destruct Hsv as [|(d & ? & _)]; eauto.
  - destruct Hl as (_ & _ & _ & Hq). by apply Hq in Hbody.
Qed.

(** *** What the command and [runServer] make of it *)

(** [runServer] returns what the loop did, if it came to one. *)
Lemma serve_from_result port a (t : list (event upE)) r :
  exec (serve_from (id_string (NewDeviceID (sa_cert a))) quote polls a (serverAnnounceInterval f) port) t r →
  omap loop_result t = [] ∨ ∃ e, omap loop_result t = [e] ∧ r = Some e.
Proof.
  assert (Hp : asks (λ X e, ∀ x, loop_result (Did e x) = None) (await_relay polls)).
  { induction polls as [|n IH]; cbn [await_relay]; [done|]. walk. }
  assert (Ha : ∀ l i d p, asks (λ X e, ∀ x, loop_result (Did e x) = None) (announce_all l i d p)).
  { induction l as [|x l IH]; intros i d p; cbn [announce_all]; walk. }
  assert (Hs : asks (λ X e, ∀ x, loop_result (Did e x) = None)
    (start_relay (id_string (NewDeviceID (sa_cert a))) quote polls a port)).
  { unfold start_relay, systemdNotify. walk. }
  unfold serve_from. intros (t1 & t2 & rl & -> & H1 & H)%exec_bind. rewrite omap_app.
  rewrite (asks_omap _ loop_result _ _ _ H1 Hs).
  destruct rl as [[rl|e]|]; [|by destruct H as [-> _]; left..].
  apply exec_bind in H as (t3 & t4 & [] & -> & H3 & H). rewrite omap_app, (asks_omap _ loop_result _ _ _ H3 (Ha _ _ _ _)).
  apply exec_bind in H as (t5 & t6 & e & -> & H & [-> ->]). right. exists e.
  by destruct (negb _); apply exec_ask in H as (x & t7 & _ & -> & [-> <-]).
Qed.

Lemma server_body_result a (t : list (event upE)) r :
  exec (server_body a) t r → omap loop_result t = [] ∨ ∃ e, omap loop_result t = [e] ∧ r = Some e.
Proof.
  unfold server_body, runServer. destruct (url_ok _); [intros [-> _]; by left|].
  intros H. do 3 (apply exec_ask in H as ([] & ? & _ & -> & H)). cbn [omap list_omap loop_result log up_effect recording].
  destruct (0 <? sa_directPort a); [|by eapply serve_from_result].
  apply exec_ask in H as ([port|e] & t1 & _ & -> & H); [|by destruct H as [-> _]; left].
  do 2 (apply exec_ask in H as ([] & ? & _ & -> & H)). cbn [omap list_omap loop_result log up_effect recording].
  apply exec_bind in H as (t2 & t3 & r' & -> & H2%serve_from_result & H).
  apply exec_bind in H as (t4 & t5 & [] & -> & H4 & [-> ->]). rewrite omap_app, app_nil_r.
  assert (omap loop_result t4 = []) as ->.
  { destruct r'; [by apply exec_ask in H4 as (x & t6 & _ & -> & [-> _])|by destruct H4 as [-> _]]. }
  by rewrite app_nil_r.
Qed.

(** The command's status is that of the server it ran itself, if it did. *)
Definition status (r : option error) : Z := match r with None => 0 | Some _ => 1 end.

Lemma runServerWrapper_result a t e :
  exec (runServerWrapper a) t e → omap server_result t = [] ∨ omap server_result t = [e].
Proof.
  unfold runServerWrapper. intros ([e'|] & t1 & _ & -> & H)%exec_ask; [left; by destruct H as [-> _]|].
  apply exec_ask in H as ([] & t2 & _ & -> & H); apply exec_ask in H as (x & t3 & _ & -> & [-> <-]); auto.
Qed.

Lemma exit_error_result text t z : exec (exit_error text) t z → omap server_result t = [] ∧ z = 1.
Proof. by intros (x & t' & _ & -> & [-> ->])%exec_ask. Qed.

Lemma serverCmd_result t z :
  exec (serverCmd DeviceIDFromString f) t z →
  omap server_result t = [] ∨ ∃ r, omap server_result t = [r] ∧ z = status r.
Proof.
  assert (He : ∀ l, asks (λ X e, ∀ x, server_result (Did e x) = None) (eprint_all l)).
  { induction l as [|x l IH]; cbn [eprint_all]; walk. }
  unfold serverCmd. intros ([] & t1 & _ & -> & H)%exec_ask. cbn [omap list_omap server_result log cli_effect recording].
  destruct (1 <? server_modes f)%nat; [by apply exit_error_result in H as [-> _]; left|].
  apply exec_bind in H as (t2 & t3 & [] & -> & H2 & H).
  apply exec_bind in H as (t4 & t5 & cert & -> & H4 & H). rewrite !omap_app.
  rewrite (asks_omap _ server_result _ _ _ H2) by walk.
  rewrite (asks_omap _ server_result _ _ _ H4) by (unfold get_cert, loadOrGenerateCert; walk).
  destruct cert as [[cert|e]|]; [|by apply exit_error_result in H as [-> _]; left..].
  unfold start_server in H. destruct (parse_ids _ _) as [|ids]; [by apply exit_error_result in H as [-> _]; left|].
  apply exec_bind in H as (t6 & t7 & secret & -> & H6 & H). rewrite omap_app.
  rewrite (asks_omap _ server_result _ _ _ H6) by (unfold totp_secret; walk).
  destruct secret as [secret|e]; [|by apply exit_error_result in H as [-> _]; left].
  apply exec_bind in H as (t8 & t9 & [] & -> & H8 & H). rewrite omap_app.
  rewrite (asks_omap _ server_result _ _ _ H8) by (unfold show_secret; walk; apply He).
  apply exec_bind in H as (ta & tb & e & -> & Hw%runServerWrapper_result & H). rewrite omap_app.
  assert (omap server_result tb = [] ∧ z = status e) as [-> ->].
  { destruct e; [by apply exit_error_result in H|by destruct H as [-> ->]]. }
  rewrite app_nil_r. cbn [app]. destruct Hw as [->| ->]; eauto.
Qed.

(** Whoever started a server or entered a loop waits for it, or has its result. *)
Definition waits_cmd (p : prog cliE Z) : Prop :=
  match p with Vis e _ => server_call e ≠ None | Ret _ => False end.
Definition waits_loop (p : prog upE (option (option error))) : Prop :=
  match p with Vis e _ => loop_call e ≠ None | Ret _ => False end.

Record under_way (s : state) : Prop := mkUnderWay {
  uw_cmd : srv s ≠ None → waits_cmd (cmd s) ∨ omap server_result (cmd_did s) ≠ [] ∨
             ∃ a r, Did (ServiceRun a) r ∈ cmd_did s;
  uw_loop : ∀ v, srv s = Some v → loops v ≠ NoLoop → waits_loop (body v) ∨ omap loop_result (did v) ≠ [];
}.

Lemma under_way_step s s' : step s s' → under_way s → under_way s'.
Proof.
  intros Hst [H1 H2].
  destruct Hst as [X e k x E Hcall Hx|X e k a E Hcall E'|a k v r E E' Hb|a k v r E E'
    |v X e k x _ E Hb Hl|v X e k l _ E Hb Hl Hno|v a l r k n q _ E Hb Hl Ht|v a l r k w q _ E Hb Hl Ht
    |v n n' _ E Hl Hs Haw|v w w' _ E Hl Hs|c' X e k h x _ Hh Hx]; split; cbn [srv cmd cmd_did]; try done.
  - rewrite E in H1. intros Hs. right. rewrite omap_app.
    destruct (H1 Hs) as [Hw|[Hr|(a & r & Hi)]]; [by cbn in Hw; rewrite Hcall in Hw| |].
    + left. by intros [? _]%app_eq_nil.
    + right. exists a, r. apply elem_of_app. by left.
  - intros _. left. rewrite E. cbn. by rewrite Hcall.
  - by intros v [= <-].
  - intros _. right. left. rewrite omap_app. by intros [_ ?]%app_eq_nil.
  - intros _. right. right. exists a, r. apply elem_of_last.
  - intros _. apply H1. congruence.
  - intros ? [= <-]. cbn [loops did body]. intros Hn. right. rewrite omap_app.
    destruct (H2 v E Hn) as [Hw|Hr]; [rewrite Hb in Hw; by cbn in Hw; rewrite Hl in Hw|by intros [? _]%app_eq_nil].
  - intros _. apply H1. congruence.
  - intros ? [= <-] _. left. cbn [body]. rewrite Hb. cbn. by rewrite Hl.
  - intros _. apply H1. congruence.
  - intros ? [= <-] _. right. cbn [did]. rewrite omap_app. by intros [_ ?]%app_eq_nil.
  - intros _. apply H1. congruence.
  - intros ? [= <-] _. right. cbn [did]. rewrite omap_app. by intros [_ ?]%app_eq_nil.
  - intros _. apply H1. congruence.
  - intros ? [= <-] _. cbn [did body]. apply (H2 v E). by rewrite Hl.
  - intros _. apply H1. congruence.
  - intros ? [= <-] _. cbn [did body]. apply (H2 v E). by rewrite Hl.
Qed.

Lemma under_way_reachable s : reachable s → under_way s.
Proof.
  intros H. assert (G : ∀ x y, rtc step x y → under_way x → under_way y).
  { induction 1; [done|]. eauto using under_way_step. }
  eapply G; [exact H|by split].
Qed.

(** A simple server that has turned to a connection exits with status zero, if it exits, or was
    run by a service manager. *)
Lemma taken_exit s c g z :
  reachable s → serverForward f = [] → handlers s !! c = Some g → exited s = Some z →
  z = 0 ∨ ∃ a r, Did (ServiceRun a) r ∈ cmd_did s.
Proof.
  intros Hr Hf Hc Hz. destruct (simple_handlers s c g Hr Hf Hc) as (v & n & Ev & El & Es & _).
  pose proof (under_way_reachable _ Hr) as [U1 U2].
  pose proof (process_inv_reachable _ Hr) as [Hcmd Hret _ Hv _]. specialize (Hv v Ev).
  unfold exited in Hz. destruct (cmd s) as [z'|] eqn:Ez; [injection Hz as ->|done].
  apply reaches_exec, serverCmd_result in Hcmd. rewrite Ev in U1.
  destruct (U1 ltac:(done)) as [[]|[Hne|?]]; [|by right]. left.
  destruct Hcmd as [?|(r & Hres & ->)]; [done|]. destruct (Hret r) as (v' & Ev' & Hb); [rewrite Hres; by left|].
  assert (v' = v) as -> by congruence. destruct Hv as [_ Hbody Hl]. rewrite Hb in Hbody.
  apply reaches_exec, server_body_result in Hbody.
  destruct (U2 v Ev ltac:(by rewrite El)) as [Hw|Hne']; [by rewrite Hb in Hw|].
  destruct Hbody as [?|(e & He & [= ->])]; [done|]. rewrite El in Hl. destruct Hl as (_ & Hn & _ & Hq & _).
  destruct (Hq e) as (q & Hq1 & ->); [rewrite He; by left|].
  destruct (Netcat.netcat_inv_reachable _ _ _ Hn) as [_ Ho]. rewrite Hq1 in Ho. destruct q as [|e]; [done|].
  by rewrite Es in Ho.
Qed.

(** ** A client that is turned away *)

(** What a client showed that no name on the allowlist stands for. *)
Definition stranger (certs : list bytes) : Prop :=
  comma_list (serverAuthorizedClients f) ≠ [] ∧
  ∀ cert rest i, certs = cert :: rest → i ∈ comma_list (serverAuthorizedClients f) →
    DeviceIDFromString i ≠ Ok (NewDeviceID cert).

Lemma stranger_unauthorized a certs :
  started DeviceIDFromString f a → stranger certs →
  authorized NewDeviceID (sa_authorizedClients a) certs = false.
Proof.
  clear validate url_ok quote id_string addr_string polls. intros [_ Hids _ _ _ _] [Hne Hno].
  destruct (authorized _ _ _) eqn:E; [|done]. exfalso.
  destruct (authorized_spec _ _ _ E) as (cert & rest & -> & Hin).
  { intros E0. rewrite E0 in Hids. by apply Forall2_nil_inv_r in Hids. }
  apply list_elem_of_lookup in Hin as [j Hj].
  destruct (Forall2_lookup_r _ _ _ _ _ Hids Hj) as (i & Hi & Hd).
  by apply (Hno cert rest i); [|eapply list_elem_of_lookup_2|].
Qed.

(** In simple mode a goroutine stays, with all it has done. *)
Lemma handler_kept s s' c g :
  reachable s → serverForward f = [] → step s s' → handlers s !! c = Some g →
  ∃ g', handlers s' !! c = Some g' ∧ done_ g `prefix_of` done_ g'.
Proof.
  intros Hr Hf Hst Hc. destruct (simple_handlers s c g Hr Hf Hc) as (v0 & n0 & E1 & E2 & E3 & _).
  pose proof (process_inv_reachable _ Hr) as [_ _ _ Hv _].
  destruct Hst as [X e k x E Hcall Hx|X e k a E Hcall E'|a k v r E E' Hb|a k v r E E'
    |v X e k x _ E Hb Hl|v X e k l _ E Hb Hl Hno|v a l r k n q _ E Hb Hl Ht|v a l r k w q _ E Hb Hl Ht
    |v n n' _ E Hl Hs Haw|v w w' _ E Hl Hs|c' X e k h x _ Hh Hx]; cbn [handlers]; eauto.
  - assert (v0 = v) as -> by congruence. assert (n0 = n) as -> by congruence.
    pose proof (si_loops _ _ (Hv _ E)) as Hli. rewrite Hl in Hli. destruct Hli as (_ & Hnr & _).
    pose proof (netcat_served _ _ Hs) as Hsv.
    pose proof (Netcat.netcat_one _ _ _ (netcat_reachable_step _ _ _ _ Hnr Hs)) as Hone.
    destruct (taken n n') as [[c' r]|]; cbn [spawn]; [|eauto]. rewrite Hsv, E3 in Hone. cbn in Hone. lia.
  - assert (v0 = v) as -> by congruence. congruence.
  - destruct (decide (c' = c)) as [->|]; [|rewrite lookup_insert_ne by done; eauto].
    rewrite lookup_insert_eq. eexists. split; [done|]. rewrite Hc in Hh. injection Hh as ->. by apply prefix_app_r.
Qed.

Lemma handler_kept_always s s' c g :
  reachable s → serverForward f = [] → rtc step s s' → handlers s !! c = Some g →
  reachable s' ∧ ∃ g', handlers s' !! c = Some g' ∧ done_ g `prefix_of` done_ g'.
Proof.
  intros Hr Hf Hss. revert Hr g. induction Hss as [s|s s1 s2 Hst _ IH]; intros Hr g Hc; [by eauto|].
  destruct (handler_kept _ _ _ _ Hr Hf Hst Hc) as (g1 & Hc1 & Hp1).
  destruct (IH (rtc_r _ _ _ Hr Hst) g1 Hc1) as (Hr2 & g2 & Hc2 & Hp2). split; [done|].
  exists g2. split; [done|]. by etrans.
Qed.

(** What the handler of a stranger does. *)
Lemma stranger_handler s c g certs :
  reachable s → serverForward f = [] → handlers s !! c = Some g → stranger certs →
  [Handshaken c None; CertificatesOf c certs] `prefix_of` done_ g →
  done_ g `prefix_of` [Handshaken c None; CertificatesOf c certs; TLSClosed c; ConnClosed c].
Proof.
  intros Hr Hf Hc Hst [t Ht]. destruct (simple_handlers s c g Hr Hf Hc) as (v & n & Ev & El & _ & _).
  pose proof (process_inv_reachable _ Hr) as [_ _ _ Hv _]. specialize (Hv v Ev).
  destruct (simple_goroutine _ _ _ _ _ Hv El Hc) as (_ & r & Hre%reaches_prefix).
  destruct (prefix_extends net_wit ([], []) _ _ net_wit_ok Hre) as (t' & u & Hx). rewrite Ht, <- app_assoc in Hx.
  apply unauthorized_refused in Hx; [|exact (stranger_unauthorized _ _ (si_started _ _ Hv) Hst)].
  rewrite Ht. exists t'. by rewrite <- app_assoc, Hx.
Qed.

(** C37. A stranger uses up a server without [--forward]: once a client has shown certificates that
    no name on the allowlist stands for, then however the process goes on, that client's
    goroutine closes the connection and ends, it stays the only one there ever is, and nobody,
    on the list or not, is ever served; and when the process exits, and was not run by a service
    manager, it exits with status zero. *)
Theorem stranger_ends_server s c g certs s' :
  reachable s → serverForward f = [] → handlers s !! c = Some g → stranger certs →
  [Handshaken c None; CertificatesOf c certs] `prefix_of` done_ g → rtc step s s' →
  ∃ g', handlers s' = {[c := g']} ∧ services (done_ g') = [] ∧
    done_ g' `prefix_of` [Handshaken c None; CertificatesOf c certs; TLSClosed c; ConnClosed c] ∧
    (∀ z, exited s' = Some z → z = 0 ∨ ∃ a r, Did (ServiceRun a) r ∈ cmd_did s').
Proof.
  intros Hr Hf Hc Hst Hp Hss.
  destruct (handler_kept_always _ _ _ _ Hr Hf Hss Hc) as (Hr' & g' & Hc' & Hp').
  assert (Hd : done_ g' `prefix_of` [Handshaken c None; CertificatesOf c certs; TLSClosed c; ConnClosed c])
    by (eapply stranger_handler; [done..|by etrans]).
  exists g'. split_and!; [| |done|intros z; by eapply taken_exit].
  - apply map_eq. intros c'. destruct (decide (c' = c)) as [->|Hne]; [by rewrite lookup_singleton_eq|].
    rewrite lookup_singleton_ne by done. destruct (handlers s' !! c') as [g2|] eqn:Eg; [|done].
    destruct (simple_handlers s' c g' Hr' Hf Hc') as (v & n & E1 & E2 & E3 & _).
    destruct (simple_handlers s' c' g2 Hr' Hf Eg) as (v' & n' & E1' & E2' & E3' & _). congruence.
  - destruct Hd as [t Ht]. apply (f_equal services) in Ht. rewrite services_app in Ht. cbn in Ht.
    by destruct (services (done_ g')).
Qed.

End Process.

(** ** The process on a given schedule

    For trying the process out: the choices a schedule makes, with the answers of a fixed
    environment.  Whatever a schedule leads to is reachable. *)

Inductive choice : Type :=
| Command | Call | Return_
| ServerGoes | Enter | Leave
| Accept | Take | Finish
| HandlerGoes (c : nat).

Section Play.
Context (validate : bytes → bytes → bool) (NewDeviceID id_string : bytes → bytes).
Context (addr_string : addr → bytes) (DeviceIDFromString : bytes → result bytes).
Context (url_ok : bytes → option error) (quote : bytes → bytes) (polls : nat) (f : server_flags).
Context (ask_cli : ∀ X, cliE X → X) (ask_up : ∀ X, upE X → X) (peer : handler netE (bytes * bytes)).
Hypothesis cli_answers : ∀ X (e : cliE X), resp_ok e (ask_cli X e).
Hypothesis peer_answers : ∀ X (e : netE X) io, resp_ok e (fst (peer X e io)).

Abbreviation pstep := (step validate NewDeviceID id_string addr_string url_ok quote polls f).

Definition go_command (s : state) : option state :=
  match cmd s with
  | Ret _ => None
  | Vis e k =>
      match server_call e with
      | Some _ => None
      | None => Some (mkState (k (ask_cli _ e)) (cmd_did s ++ [Did e (ask_cli _ e)]) (srv s) (handlers s))
      end
  end.

Definition go_call (s : state) : option state :=
  match cmd s, srv s with
  | Vis e _, None =>
      match server_call e with
      | Some a => Some (mkState (cmd s) (cmd_did s)
                          (Some (mkServer a (server_body NewDeviceID id_string url_ok quote polls f a) [] NoLoop))
                          (handlers s))
      | None => None
      end
  | _, _ => None
  end.

Definition go_return (s : state) : option state :=
  match srv s with
  | Some (mkServer _ (Ret (Some r)) _ _) =>
      match cmd s with
      | Vis e k =>
          match e in cliE X return (X → prog cliE Z) → option state with
          | RunServer a => λ k, Some (mkState (k r) (cmd_did s ++ [Did (RunServer a) r]) (srv s) (handlers s))
          | _ => λ _, None
          end k
      | Ret _ => None
      end
  | _ => None
  end.

(** A change of [runServer] or its loops. *)
Definition with_server (s : state) (v : option server) : option state :=
  match exited s with
  | Some _ => None
  | None => v ← v; Some (mkState (cmd s) (cmd_did s) (Some v) (handlers s))
  end.

Definition go_server (v : server) : option server :=
  match body v with
  | Ret _ => None
  | Vis e k =>
      match loop_call e with
      | Some _ => None
      | None => Some (mkServer (args v) (k (ask_up _ e)) (did v ++ [Did e (ask_up _ e)]) (loops v))
      end
  end.

Definition go_enter (v : server) : option server :=
  match body v, loops v with
  | Vis e _, NoLoop => l ← loop_call e; Some (mkServer (args v) (body v) (did v) l)
  | _, _ => None
  end.

Definition go_leave (v : server) : option server :=
  match body v, loops v with
  | Vis e k, InSimple n =>
      match e in upE X return (X → prog upE _) → option server with
      | SimpleLoop a l r => λ k,
          match Netcat.top n with
          | Netcat.Returned q =>
              Some (mkServer (args v) (k (simple_result q))
                      (did v ++ [Did (SimpleLoop a l r) (simple_result q)]) (loops v))
          | _ => None
          end
      | _ => λ _, None
      end k
  | _, _ => None
  end.

(** A direct connection arrives; it is taken; it is done with. *)
Definition simple_choice (ch : choice) (n : Netcat.state) : option Netcat.state :=
  match ch, Netcat.dir n, Netcat.top n, Netcat.chan n with
  | Accept, Netcat.Accepting, _, _ =>
      Some (Netcat.mkState Netcat.AcceptDone (Netcat.rel n) (Netcat.stopped n) (fst (Netcat.offer false n))
              (Netcat.top n) (S (Netcat.fresh n)) (Netcat.served n) (snd (Netcat.offer false n)))
  | Take, _, Netcat.Selecting, Some (c, isRelay) =>
      Some (Netcat.mkState (Netcat.dir n) (Netcat.rel n) (Netcat.stopped n) None
              (Netcat.Handling c isRelay) (Netcat.fresh n) (c :: Netcat.served n) (Netcat.closed n))
  | Finish, _, Netcat.Handling _ _, _ =>
      Some (Netcat.mkState (Netcat.dir n) (Netcat.rel n) (Netcat.stopped n) (Netcat.chan n)
              (Netcat.Returned Netcat.Served) (Netcat.fresh n) (Netcat.served n) (Netcat.closed n))
  | _, _, _, _ => None
  end.

Lemma simple_choice_step ch n n' : simple_choice ch n = Some n' → Netcat.step n n'.
Proof.
  unfold simple_choice. destruct ch; try done.
  - destruct (Netcat.dir n) eqn:Ed; try done. intros [= <-]. by apply Netcat.direct_accepts.
  - destruct (Netcat.dir n) eqn:Ed, (Netcat.top n) eqn:Et, (Netcat.chan n) as [[]|] eqn:Ec; try done;
      intros [= <-]; rewrite <- Ed; by apply Netcat.main_takes.
  - destruct (Netcat.dir n) eqn:Ed, (Netcat.top n) eqn:Et; try done;
      intros [= <-]; rewrite <- Ed; by eapply Netcat.main_finishes.
Qed.

(** The goroutine the step waits for, if any, has ended. *)
Definition ended (hs : gmap nat goroutine) (c : option nat) : bool :=
  match c with
  | None => true
  | Some c => match hs !! c with Some (mkGo (Ret _) _) => true | _ => false end
  end.

Definition go_simple (ch : choice) (s : state) : option state :=
  match exited s, srv s with
  | None, Some v =>
      match loops v with
      | InSimple n =>
          n' ← simple_choice ch n;
          if ended (handlers s) (awaited n n')
          then Some (mkState (cmd s) (cmd_did s) (Some (mkServer (args v) (body v) (did v) (InSimple n')))
                       (spawn (simple_handler validate NewDeviceID (args v)) (taken n n') (handlers s)))
          else None
      | _ => None
      end
  | _, _ => None
  end.

Definition go_handler (c : nat) (s : state) (io : bytes * bytes) : option (state * (bytes * bytes)) :=
  match exited s, handlers s !! c with
  | None, Some (mkGo (Vis e k) h) =>
      let '(x, io') := peer _ e io in
      Some (mkState (cmd s) (cmd_did s) (srv s) (<[c := mkGo (k x) (h ++ [log e x])]> (handlers s)), io')
  | _, _ => None
  end.

Definition move (ch : choice) (s : state) (io : bytes * bytes) : option (state * (bytes * bytes)) :=
  match ch with
  | HandlerGoes c => go_handler c s io
  | _ =>
      s' ← match ch with
           | Command => go_command s
           | Call => go_call s
           | Return_ => go_return s
           | ServerGoes => with_server s (srv s ≫= go_server)
           | Enter => with_server s (srv s ≫= go_enter)
           | Leave => with_server s (srv s ≫= go_leave)
           | _ => go_simple ch s
           end;
      Some (s', io)
  end.

Fixpoint play (sched : list choice) (s : state) (io : bytes * bytes) : option state :=
  match sched with
  | [] => Some s
  | ch :: sched => '(s', io') ← move ch s io; play sched s' io'
  end.

Lemma go_command_step s s' : go_command s = Some s' → pstep s s'.
Proof using cli_answers.
  unfold go_command. destruct (cmd s) as [|X e k] eqn:E; [done|].
  destruct (server_call e) eqn:Ec; [done|]. intros [= <-]. by eapply cmd_does.
Qed.

Lemma go_call_step s s' : go_call s = Some s' → pstep s s'.
Proof.
  unfold go_call. destruct (cmd s) as [|X e k] eqn:E; [done|].
  destruct (srv s) eqn:Ev; [done|]. destruct (server_call e) eqn:Ec; [|done].
  intros [= <-]. rewrite <- E. by eapply cmd_calls.
Qed.

Lemma go_return_step s s' : go_return s = Some s' → pstep s s'.
Proof.
  unfold go_return. destruct (srv s) as [[a b d l]|] eqn:Ev; [|done].
  destruct b as [[r|]|] eqn:Eb; try done. destruct (cmd s) as [|X e k] eqn:E; [done|].
  destruct e; try done. intros [= <-]. rewrite <- Ev. by eapply cmd_returns.
Qed.

Lemma with_server_step s v' s' :
  with_server s v' = Some s' →
  exited s = None ∧ ∃ v, v' = Some v ∧ s' = mkState (cmd s) (cmd_did s) (Some v) (handlers s).
Proof. unfold with_server. destruct (exited s); [done|]. destruct v'; [|done]. intros [= <-]. eauto. Qed.

Lemma go_server_step s s' : with_server s (srv s ≫= go_server) = Some s' → pstep s s'.
Proof.
  intros (He & v & Hv & ->)%with_server_step. apply bind_Some in Hv as (v0 & E0 & Hv).
  unfold go_server in Hv. destruct (body v0) as [|X e k] eqn:E; [done|].
  destruct (loop_call e) eqn:El; [done|]. injection Hv as <-. by eapply srv_does.
Qed.

Lemma go_enter_step s s' : with_server s (srv s ≫= go_enter) = Some s' → pstep s s'.
Proof.
  intros (He & v & Hv & ->)%with_server_step. apply bind_Some in Hv as (v0 & E0 & Hv).
  unfold go_enter in Hv. destruct (body v0) as [|X e k] eqn:E; [done|].
  destruct (loops v0) eqn:El; try done. apply bind_Some in Hv as (l & Hl & [= <-]).
  rewrite <- E. by eapply srv_enters.
Qed.

Lemma go_leave_step s s' : with_server s (srv s ≫= go_leave) = Some s' → pstep s s'.
Proof.
  intros (He & v & Hv & ->)%with_server_step. apply bind_Some in Hv as (v0 & E0 & Hv).
  unfold go_leave in Hv. destruct (body v0) as [|X e k] eqn:E; [done|].
  destruct (loops v0) as [|n|] eqn:El; try done. destruct e; try done.
  destruct (Netcat.top n) eqn:Et; try done. injection Hv as <-. rewrite <- El. by eapply simple_leaves.
Qed.

Lemma go_simple_step ch s s' : go_simple ch s = Some s' → pstep s s'.
Proof.
  unfold go_simple. destruct (exited s) eqn:He; [done|]. destruct (srv s) as [v|] eqn:Ev; [|done].
  destruct (loops v) as [|n|] eqn:El; try done. intros (n' & Hn & H)%bind_Some.
  destruct (ended _ _) eqn:Ee; [|done]. injection H as <-. apply simple_choice_step in Hn.
  eapply simple_moves; [done..|]. intros c Hc. unfold ended in Ee. rewrite Hc in Ee.
  destruct (handlers s !! c) as [[[[]|] h]|]; try done. eauto.
Qed.

Lemma go_handler_step c s io s' io' : go_handler c s io = Some (s', io') → pstep s s'.
Proof using peer_answers.
  unfold go_handler. destruct (exited s) eqn:He; [done|].
  destruct (handlers s !! c) as [[[|X e k] h]|] eqn:Ec; try done.
  pose proof (peer_answers X e io) as Hok. destruct (peer X e io) as [x io1]. intros [= <- <-].
  by eapply handler_does.
Qed.

Lemma move_step ch s io s' io' : move ch s io = Some (s', io') → pstep s s'.
Proof using cli_answers peer_answers.
  destruct ch; cbn [move]; try (by apply go_handler_step); intros (s1 & H & [= <- <-])%bind_Some;
    eauto using go_command_step, go_call_step, go_return_step, go_server_step, go_enter_step,
      go_leave_step, go_simple_step.
Qed.

Lemma play_steps sched io s0 s : play sched s0 io = Some s → rtc pstep s0 s.
Proof using cli_answers peer_answers.
  revert io s0. induction sched as [|ch sched IH]; intros io s0; cbn [play]; [by intros [= ->]; apply rtc_refl|].
  intros ([s1 io1] & Hm%move_step & H)%bind_Some. eapply rtc_l; [exact Hm|]. by eapply IH.
Qed.

Lemma play_reachable sched io s :
  play sched (init DeviceIDFromString f) io = Some s →
  reachable validate NewDeviceID id_string addr_string DeviceIDFromString url_ok quote polls f s.
Proof using cli_answers peer_answers. apply play_steps. Qed.
End Play.

(** ** The theorems at a concrete process

    A shell server for one device and with a secret; its peer is that device and sends the
    right passcode. *)

Definition proc_flags : server_flags :=
  mkServerFlags [] [] "seed" false true [] false [] [] [] [] " CERT," 22000 [] [] false "JBSWY3DP" 0.

Definition calm_cli X (e : cliE X) : X := fst (seeded (λ s, s) X e (None, None)).
Definition calm_up X (e : upE X) : X := fst (smooth X e tt).

Definition proc_play (f : server_flags) (sched : list choice) : option state :=
  play demo_validate id_wit (λ i, i) (λ _, None) (λ s, s) 0 f calm_cli calm_up net_wit sched
    (init parse_id_wit f) (demo_answer "123456", []).

(** Up to the service; and to the end. *)
Definition proc_served : list choice :=
  replicate 14 Command ++ [Call] ++ replicate 13 ServerGoes ++ [Enter; Accept; Take] ++
  replicate 9 (HandlerGoes 0).
Definition proc_all : list choice :=
  proc_served ++ [HandlerGoes 0; Finish; Leave; ServerGoes; Return_].

Definition state_after (f : server_flags) (sched : list choice) : state :=
  default (init parse_id_wit f) (proc_play f sched).
Definition goroutine_after (sched : list choice) : goroutine :=
  default (mkGo (Ret tt) []) (handlers (state_after proc_flags sched) !! 0%nat).

Abbreviation proc_reachable :=
  (reachable demo_validate id_wit (λ i, i) (λ _, []) parse_id_wit (λ _, None) (λ s, s) 0).

Lemma state_after_reachable f sched :
  match proc_play f sched with Some _ => true | None => false end = true →
  proc_reachable f (state_after f sched).
Proof.
  intros H. unfold state_after. destruct (proc_play f sched) as [s|] eqn:E; [|done].
  eapply play_reachable; [| |exact E]; [by intros X []|apply net_wit_ok].
Qed.

Lemma goroutine_after_lookup sched :
  match handlers (state_after proc_flags sched) !! 0%nat with Some _ => true | None => false end = true →
  handlers (state_after proc_flags sched) !! 0%nat = Some (goroutine_after sched).
Proof. unfold goroutine_after. by destruct (_ !! _). Qed.

(** The same server for another device, up to its end. *)
Definition picky_flags : server_flags :=
  mkServerFlags [] [] "seed" false true [] false [] [] [] [] "OTHER" 22000 [] [] false "JBSWY3DP" 0.

(** A stranger has shown its certificate; its goroutine ends and the process exits. *)
Definition picky_shown : list choice :=
  replicate 14 Command ++ [Call] ++ replicate 13 ServerGoes ++ [Enter; Accept; Take] ++ replicate 2 (HandlerGoes 0).
Definition picky_rest : list choice := replicate 2 (HandlerGoes 0) ++ [Finish; Leave; ServerGoes; Return_].

Definition proc_go (f : server_flags) (sched : list choice) (s : state) : option state :=
  play demo_validate id_wit (λ i, i) (λ _, None) (λ s, s) 0 f calm_cli calm_up net_wit sched s ([], []).

Lemma proc_go_steps f sched s s' :
  proc_go f sched s = Some s' →
  rtc (step demo_validate id_wit (λ i, i) (λ _, []) (λ _, None) (λ s, s) 0 f) s s'.
Proof. apply play_steps; [by intros X []|apply net_wit_ok]. Qed.

Lemma stranger_ends_server_witness :
  ∃ s' g', proc_go picky_flags picky_rest (state_after picky_flags picky_shown) = Some s' ∧ exited s' = Some 0 ∧
    handlers s' = {[0%nat := g']} ∧ services (done_ g') = [].
Proof.
  assert (Hd : (done_ <$> handlers (state_after picky_flags picky_shown) !! 0%nat)
    = Some [Handshaken 0 None; CertificatesOf 0 [str "CERT"]]) by (vm_compute; reflexivity).
  apply fmap_Some in Hd as (g & Hg & Hd).
  assert (He : (proc_go picky_flags picky_rest (state_after picky_flags picky_shown) ≫= exited) = Some 0)
    by (vm_compute; reflexivity).
  apply bind_Some in He as (s' & Es & He).
  assert (Hl : comma_list (serverAuthorizedClients picky_flags) = [str "OTHER"]) by (vm_compute; reflexivity).
  destruct (stranger_ends_server demo_validate id_wit (λ i, i) (λ _, []) parse_id_wit (λ _, None) (λ s, s) 0
    picky_flags (state_after picky_flags picky_shown) 0 g [str "CERT"] s') as (g' & H1 & H2 & _ & _).
  - apply state_after_reachable. vm_compute. reflexivity.
  - reflexivity.
  - exact Hg.
  - unfold stranger. rewrite Hl. split; [done|]. by intros cert rest i [= <- <-] ->%list_elem_of_singleton.
  - by rewrite <- Hd.
  - exact (proc_go_steps _ _ _ _ Es).
  - exists s', g'. split_and!; [exact Es|exact He|exact H1|exact H2].
Defined.

Lemma process_gate_witness :
  entitled demo_validate id_wit parse_id_wit proc_flags (cmd_did (state_after proc_flags proc_served)) 0
    (take 8 (done_ (goroutine_after proc_served))).
Proof.
  apply (process_gate demo_validate id_wit (λ i, i) (λ _, []) parse_id_wit (λ _, None) (λ s, s) 0 proc_flags
    (state_after proc_flags proc_served) 0 (goroutine_after proc_served) _ (Served (OverTLS 0) ShellServer) []).
  - apply state_after_reachable. vm_compute. reflexivity.
  - apply goroutine_after_lookup. vm_compute. reflexivity.
  - vm_compute. reflexivity.
  - reflexivity.
Defined.

Lemma process_serves_one_witness :
  0%nat = 0%nat ∧ (services (done_ (goroutine_after proc_served)) = [] ∨
    ∃ d, services (done_ (goroutine_after proc_served)) = [(d, flag_service proc_flags)]).
Proof.
  apply (process_serves_one demo_validate id_wit (λ i, i) (λ _, []) parse_id_wit (λ _, None) (λ s, s) 0
    proc_flags (state_after proc_flags proc_served) 0 (goroutine_after proc_served) 0 (goroutine_after proc_served)).
  - apply state_after_reachable. vm_compute. reflexivity.
  - reflexivity.
  - apply goroutine_after_lookup. vm_compute. reflexivity.
  - apply goroutine_after_lookup. vm_compute. reflexivity.
Defined.

Lemma process_exit_zero_witness :
  (∃ a, Did (ServiceRun a) None ∈ cmd_did (state_after proc_flags proc_all)) ∨
  serverForward proc_flags = [] ∧
  ∃ c t1, handlers (state_after proc_flags proc_all) = {[c := mkGo (Ret tt) (t1 ++ [ConnClosed c])]} ∧
    (services t1 = [] ∨ ∃ d, services t1 = [(d, flag_service proc_flags)]).
Proof.
  apply (process_exit_zero demo_validate id_wit (λ i, i) (λ _, []) parse_id_wit (λ _, None) (λ s, s) 0
    proc_flags (state_after proc_flags proc_all)).
  - apply state_after_reachable. vm_compute. reflexivity.
  - vm_compute. reflexivity.
Defined.
