(* ===== verification/Session.v ===== *)
(** * A whole session: the client and the server on one connection

    [RunClient] on one side and [handleServerConn] on the other, with TLS, dialling and the
    peer connections answering as they do when nothing fails, and every byte of the passcode
    exchange and of the signalling passing through a pair of queues.  What is left of either
    program is then a program over the connection, and the two run under every schedule. *)

From S2P Require Import Prelude GoStrings Effects Conn Auth WebRTC NetUtil ProxyProtocol Discovery.
From S2P Require Import Net ServerConn Client.

Set Default Proof Using "Type".

(** ** A handler on the wire *)

(** What surrounds the connection, on one side: what dialling gives, the certificates the
    other side shows, and the peer connection. *)
Record world := mkWorld {
  web : result (Z * bytes);
  dialled : bytes → bytes → result nat;
  fastest : result nat;
  certificates : list bytes;
  pion_of : pion;
}.

(** Its answers to everything that is not a read or a write on the connection; TLS and what is
    done with the data succeed. *)
Definition answer (w : world) {X} (e : netE X) : X :=
  match e in netE X return X with
  | Http e => match e in httpE X return X with Get _ _ => web w end
  | Dial network address => dialled w network address
  | DialFastestRelay _ => fastest w
  | Handshake _ => None
  | PeerCertificates _ => certificates w
  | OnTLS _ e => match e in connE X return X with Write _ => None | ReadFull _ => Err EOF end
  | Upgrade _ e => pion_answer (pion_of w) e
  | CloseTLS _ | CloseConn _ | CloseData _ => tt
  | RemoteAddr _ => Some webrtc_addr
  | LocalAddr _ => None
  | WriteHeader _ _ | CopyBoth _ _ => None
  | Serve _ _ => tt
  end.

(** [p] with its other requests answered by [w], as a program over the connection; its
    result comes with everything it did. *)
Fixpoint on_wire {R} (w : world) (p : prog netE R) (h : list net_entry)
    : prog connE (list net_entry * R) :=
  match p with
  | Ret r => Ret (h, r)
  | @Vis _ _ X e k =>
      match e in netE X return (X → prog connE (list net_entry * R)) → prog connE (list net_entry * R) with
      | OnTLS _ e => λ k, Vis e k
      | Upgrade c e => λ k,
          match e in rtcE Y return (Y → prog connE (list net_entry * R)) → prog connE (list net_entry * R) with
          | Sig e => λ k, Vis e k
          | e => λ k, k (pion_answer (pion_of w) e)
          end k
      | e => λ k, k (answer w e)
      end (λ x, on_wire w (k x) (h ++ [net_log e x]))
  end.

(** ** A protocol inside a handler

    [extends p q K]: [q] makes the requests of [p], and where [p] returns [a] it goes on as
    a program in [K a]. *)

Inductive extends {A B} (K : A → prog connE B → Prop) : prog connE A → prog connE B → Prop :=
| extends_ret a q : K a q → extends K (Ret a) q
| extends_vis {X} (e : connE X) k k' : (∀ x, extends K (k x) (k' x)) → extends K (Vis e k) (Vis e k').

Lemma extends_step1 {A B} (K : A → prog connE B → Prop) p q p' i i' o :
  extends K p q → Duplex.step1 p i = Some (p', i', o) →
  ∃ q', extends K p' q' ∧ Duplex.step1 q i = Some (q', i', o).
Proof.
  intros [a q' _|X e k k' Hk]; [done|]. destruct e; cbn.
  - intros [= <- <- <-]. eauto.
  - destruct (_ <=? _); [|done]. intros [= <- <- <-]. eauto.
Qed.

(** A schedule that takes two protocols somewhere takes the handlers around them just as far. *)
Lemma follow_extends {A B A' B'} (K : A → prog connE B → Prop) (K' : A' → prog connE B' → Prop)
    sched p q p' q' i o p1 p1' i' o' :
  extends K p q → extends K' p' q' →
  Duplex.follow sched (Duplex.Config p p' i o) = Some (Duplex.Config p1 p1' i' o') →
  ∃ q1 q1', extends K p1 q1 ∧ extends K' p1' q1' ∧
    Duplex.follow sched (Duplex.Config q q' i o) = Some (Duplex.Config q1 q1' i' o').
Proof.
  revert p q p' q' i o. induction sched as [|side sched IH]; intros p q p' q' i o Hp Hp' H.
  { injection H as -> -> -> ->. eauto. }
  cbn [Duplex.follow] in H. apply bind_Some in H as (c & Hc & H). destruct side;
    unfold Duplex.step_l, Duplex.step_r in Hc; cbn in Hc; apply bind_Some in Hc as ([[p2 i2] o2] & H1 & [= <-]).
  - destruct (extends_step1 _ _ _ _ _ _ _ Hp H1) as (q2 & Hq & Hs).
    destruct (IH _ _ _ _ _ _ Hq Hp' H) as (r & r' & Hr & Hr' & Hf). exists r, r'. split_and!; [done..|].
    cbn [Duplex.follow]. unfold Duplex.step_l. cbn. by rewrite Hs.
  - destruct (extends_step1 _ _ _ _ _ _ _ Hp' H1) as (q2 & Hq & Hs).
    destruct (IH _ _ _ _ _ _ Hp Hq H) as (r & r' & Hr & Hr' & Hf). exists r, r'. split_and!; [done..|].
    cbn [Duplex.follow]. unfold Duplex.step_r. cbn. by rewrite Hs.
Qed.

Lemma extends_done {A B} (K : A → prog connE B → Prop) a q : extends K (Ret a) q → K a q.
Proof. intros H. by inversion H. Qed.

(** Where the protocol waits, so does the handler. *)
Lemma extends_waits {A B} (K : A → prog connE B → Prop) p q :
  extends K p q → Duplex.waits p → (∀ a r, K a r → Duplex.waits r) → Duplex.waits q.
Proof.
  intros [a q' H|X e k k' Hk] Hw HK; [by eapply HK|]. unfold Duplex.waits in *.
  unfold Duplex.step1 in *. destruct e; [done|]. by destruct (n <=? _).
Qed.

Lemma extends_blocked {A B} (K : A → prog connE B → Prop) p q i :
  extends K p q → Duplex.step1 p i = None → (∀ a, p ≠ Ret a) → Duplex.step1 q i = None.
Proof.
  intros [a q' _|X e k k' Hk] Hw Hn; [by destruct (Hn a)|]. unfold Duplex.step1 in *.
  destruct e; [done|]. by destruct (n <=? _).
Qed.

(** What the protocol makes of a peer that hangs up is what the handler goes on with. *)
Lemma extends_hang_up {A B} (K : A → prog connE B → Prop) p q s a s' :
  extends K p q → run wire p s = (a, s') → ∃ r, K a r ∧ run wire q s = run wire r s'.
Proof.
  intros H. revert s. induction H as [a0 q H|X e k k' Hk IH]; intros s.
  - intros [= -> ->]. eauto.
  - cbn [run]. destruct (wire X e s) as [x s1]. apply IH.
Qed.

Lemma follow_app {A B} s1 s2 (c d : Duplex.config A B) :
  Duplex.follow s1 c = Some d → Duplex.follow (s1 ++ s2) c = Duplex.follow s2 d.
Proof.
  revert c; induction s1 as [|b s1 IH]; intros c; cbn [Duplex.follow app]; [by intros [= ->]|].
  intros (c' & Hc & H)%bind_Some. rewrite Hc. by apply IH.
Qed.

Section Embed.
Context {R S : Type} (w : world) (f : R → prog netE S).

(** The passcode exchange in a handler. *)
Lemma extends_on_tls c (p : prog connE R) h :
  extends (λ a r, ∃ t, r = on_wire w (f a) (h ++ map (TLSIO c) t)) p
    (on_wire w (pbind (on_tls c p) f) h).
Proof.
  assert (G : ∀ t0, extends (λ a r, ∃ t, r = on_wire w (f a) (h ++ map (TLSIO c) t)) p
    (on_wire w (pbind (on_tls c p) f) (h ++ map (TLSIO c) t0))).
  { induction p as [r|X e k IH]; intros t0; [constructor; eauto|]. cbn. constructor. intros x.
    specialize (IH x (t0 ++ [conn_log e x])). by rewrite map_app, app_assoc in IH. }
  specialize (G []). by rewrite app_nil_r in G.
Qed.

(** The negotiation of an upgrade in a handler, with the answers of its peer connection. *)
Lemma extends_upgrade c (p : prog rtcE R) h :
  extends (λ a r, ∃ t, r = on_wire w (f a) (h ++ map (Upgraded c) t)) (with_pion (pion_of w) p)
    (on_wire w (pbind (upgrade c p) f) h).
Proof.
  assert (G : ∀ t0, extends (λ a r, ∃ t, r = on_wire w (f a) (h ++ map (Upgraded c) t))
    (with_pion (pion_of w) p) (on_wire w (pbind (upgrade c p) f) (h ++ map (Upgraded c) t0))).
  { induction p as [r|X e k IH]; intros t0; [constructor; eauto|].
    assert (Hx : ∀ x, extends (λ a r, ∃ t, r = on_wire w (f a) (h ++ map (Upgraded c) t))
      (with_pion (pion_of w) (k x))
      (on_wire w (pbind (upgrade c (k x)) f) ((h ++ map (Upgraded c) t0) ++ [Upgraded c (rtc_log e x)]))).
    { intros x. specialize (IH x (t0 ++ [rtc_log e x])). by rewrite map_app, app_assoc in IH. }
    clear IH. destruct e; cbn in *; try apply Hx. by constructor. }
  specialize (G []). by rewrite app_nil_r in G.
Qed.
End Embed.

(** What a client makes of a server that hangs up at once. *)
Definition no_challenge : error := Wrapf "failed to read auth challenge from server" EOF.

Lemma client_hung_up term pass : run wire (performClientAuth term pass) ([], []) = (Some no_challenge, ([], [])).
Proof. reflexivity. Qed.

(** ** The two ends *)

Section Session.
Context (validate : bytes → bytes → bool) (NewDeviceID id_string : bytes → bytes).
Context (DeviceIDFromString : bytes → result bytes) (url_host : bytes → option bytes).
Context (stdin : nat → Stdin).

(** The server's side of the connection is [c], with [ws] around it; the client has [wc]
    around it. *)
Definition session (o : options) (isRelay : bool) (c : nat) (ws : world) (co : ClientOptions) (wc : world)
    : Duplex.config (list net_entry * unit) (list net_entry * option error) :=
  Duplex.Config
    (on_wire ws (handleServerConn validate NewDeviceID o isRelay c) [])
    (on_wire wc (RunClient NewDeviceID DeviceIDFromString id_string url_host stdin co) []) [] [].

(** What both ends do first on a connection. *)
Definition opened (c : nat) (w : world) : list net_entry :=
  [Handshaken c None; CertificatesOf c (certificates w)].

(** What is left of the server after the exchange. *)
Definition served_rest (o : options) (isRelay : bool) (c : nat) (err : option error) : prog netE unit :=
  match err with
  | Some _ => trigger (CloseTLS c)
  | None =>
      if isRelay then
        n <- upgrade c negotiateWebRTCServer ;;
        match n with
        | Fallback _ | Broken _ => handleConn o (OverTLS c)
        | Direct => trigger (CloseTLS c) ;;; handleConn o OverP2P
        end
      else handleConn o (OverTLS c)
  end ;;; trigger (CloseConn c).

Lemma server_to_auth o isRelay c ws :
  authorized NewDeviceID (authorizedClients o) (certificates ws) = true →
  on_wire ws (handleServerConn validate NewDeviceID o isRelay c) []
  = on_wire ws (pbind (on_tls c (performServerAuth validate (totpSecret o))) (served_rest o isRelay c))
      (opened c ws).
Proof.
  intros Ha. unfold handleServerConn, admission. cbn [pbind trigger on_wire answer app net_log].
  rewrite Ha. cbn [negb]. rewrite !pbind_assoc_eq. f_equal. by apply pbind_ext; intros [e|].
Qed.

(** *** Over a direct connection *)

Definition no_address : error := Errorf "no connectable relay or TCP addresses found".

Definition direct_rest (co : ClientOptions) (c : nat) (err : option error) : prog netE (option error) :=
  match err with
  | Some _ => trigger (CloseTLS c) ;;; Ret (Some no_address)
  | None => handleClientConn co (OverTLS c) ;;; Ret None
  end.

(** The client is told the server's one direct address, and gets through. *)
Record directly (co : ClientOptions) (wc : world) (host : bytes) (c : nat) : Prop := mkDirectly {
  direct_address : RelayURI co ≠ [] ∧ HasPrefix (RelayURI co) "tcp://" = true;
  direct_allowed : TryDirect co = true;
  direct_host : url_host (RelayURI co) = Some host;
  direct_dialled : dialled wc "tcp" host = Ok c;
}.

(** The other side shows the certificate the client looks for. *)
Definition genuine (co : ClientOptions) (wc : world) : Prop :=
  ∃ cert rest, certificates wc = cert :: rest ∧ DeviceIDFromString (ServerID co) = Ok (NewDeviceID cert).

Lemma client_to_auth_direct co wc host c :
  directly co wc host c → genuine co wc →
  on_wire wc (RunClient NewDeviceID DeviceIDFromString id_string url_host stdin co) []
  = on_wire wc (pbind (on_tls c (performClientAuth (stdin c) (TOTPPasscode co))) (direct_rest co c))
      (Dialled "tcp" host (Ok c) :: opened c wc).
Proof.
  intros [[Hne Hp] Ht Hh Hd] (cert & rest & Hc & Hid). unfold RunClient, opened. rewrite Hid, Ht.
  rewrite (proj2 (seq_eqb_false (RelayURI co) "") Hne). cbn [negb pbind].
  assert (directAddresses [RelayURI co] = [RelayURI co]) as ->
    by (unfold directAddresses; by rewrite filter_cons_True, filter_nil).
  assert (relayAddresses [RelayURI co] = []) as ->
    by (unfold relayAddresses; by rewrite filter_cons_False, filter_nil by (rewrite Hp; by intros [])).
  cbn [try_direct]. rewrite Hh. cbn [pbind trigger on_wire answer app net_log]. rewrite Hd.
  cbn [pbind trigger on_wire answer app net_log]. rewrite Hc, seq_eqb_refl. cbn [negb].
  rewrite pbind_assoc_eq. f_equal. apply pbind_ext. intros [e|]; [done|].
  by rewrite pbind_assoc_eq.
Qed.

(** A part of a handler that reads and writes nothing: it is over at once, having done [t]. *)
Definition at_once {R} (w : world) (p : prog netE R) (r : R) (t : list net_entry) : Prop :=
  ∀ S (k : R → prog netE S) h, on_wire w (pbind p k) h = on_wire w (k r) (h ++ t).

Lemma at_once_Ret {R} w (r : R) : at_once w (Ret r) r [].
Proof. intros S k h. by rewrite app_nil_r. Qed.

Lemma at_once_bind {R Q} w (p : prog netE R) (q : R → prog netE Q) r r' t t' :
  at_once w p r t → at_once w (q r) r' t' → at_once w (pbind p q) r' (t ++ t').
Proof. intros Hp Hq S k h. rewrite pbind_assoc_eq, Hp, Hq. by rewrite app_assoc. Qed.

(** Closing and serving need nothing of the other side. *)
Lemma at_once_close_tls w c : at_once w (trigger (CloseTLS c)) tt [TLSClosed c].
Proof. by intros S k h. Qed.

Lemma at_once_close w c : at_once w (trigger (CloseConn c)) tt [ConnClosed c].
Proof. by intros S k h. Qed.

Lemma at_once_close_data w d : at_once w (trigger (CloseData d)) tt [DataClosed d].
Proof. by intros S k h. Qed.

Lemma at_once_serve w d sv : at_once w (trigger (Serve d sv)) tt [Served d sv].
Proof. by intros S k h. Qed.

Lemma handleConn_at_once w o d :
  ∃ t, at_once w (handleConn o d) tt t ∧ services t = [(d, chosen o)].
Proof.
  unfold handleConn, chosen. repeat case_match; try (eexists; split; [apply at_once_serve|done]).
  eexists. split; [apply (at_once_bind w _ _ tt tt); [apply at_once_serve|apply at_once_close_data]|done].
Qed.

Lemma handleClientConn_at_once w co d :
  ∃ t, at_once w (handleClientConn co d) tt t ∧ services t = [(d, client_service co)].
Proof.
  unfold handleClientConn, client_service. repeat case_match; try (eexists; split; [apply at_once_serve|done]).
  eexists. split; [apply (at_once_bind w _ _ tt tt); [apply at_once_serve|apply at_once_close_data]|done].
Qed.

(** A handler that is done with the connection has its result. *)
Lemma at_once_end {R} w (p : prog netE R) r t h : at_once w p r t → on_wire w p h = Ret (h ++ t, r).
Proof. intros Hp. specialize (Hp _ Ret h). by rewrite (peq_eq _ _ (pbind_Ret_r p)) in Hp. Qed.

Lemma served_rest_direct w o c err :
  ∃ t, at_once w (served_rest o false c err) tt t ∧
    services t = (match err with None => [(OverTLS c, chosen o)] | Some _ => [] end) ∧
    (err ≠ None → TLSClosed c ∈ t).
Proof.
  unfold served_rest. destruct err.
  - eexists. split_and!; [apply (at_once_bind w _ _ tt tt); [apply at_once_close_tls|apply at_once_close]|done|].
    intros _. by apply elem_of_cons; left.
  - destruct (handleConn_at_once w o (OverTLS c)) as (t & Ht & Hs). eexists.
    split_and!; [apply (at_once_bind w _ _ tt tt); [exact Ht|apply at_once_close]| |done].
    by rewrite services_app, Hs.
Qed.

Lemma direct_rest_at_once w co c err :
  ∃ t, at_once w (direct_rest co c err) (match err with None => None | Some _ => Some no_address end) t ∧
    services t = (match err with None => [(OverTLS c, client_service co)] | Some _ => [] end) ∧
    (err ≠ None → TLSClosed c ∈ t).
Proof.
  unfold direct_rest. destruct err.
  - eexists. split_and!; [apply (at_once_bind w _ _ tt _); [apply at_once_close_tls|apply at_once_Ret]|done|].
    intros _. by apply elem_of_cons; left.
  - destruct (handleClientConn_at_once w co (OverTLS c)) as (t & Ht & Hs). eexists.
    split_and!; [apply (at_once_bind w _ _ tt _); [exact Ht|apply at_once_Ret]| |done].
    by rewrite services_app, Hs.
Qed.

(** The passcode the client has, and whether the two ends come to agree. *)
Definition choice (co : ClientOptions) (c : nat) : result bytes := chooseCode (stdin c) (TOTPPasscode co).

Definition agreed (o : options) (ch : result bytes) : bool :=
  (totpSecret o =s "") || match ch with Ok code => validate code (totpSecret o) | Err _ => false end.

(** A passcode, if there is one, is text that fits into a message. *)
Definition sendable (ch : result bytes) : Prop := ∀ code, ch = Ok code → fits (mkResponse "auth" code).

Lemma verdicts_agreed o ch :
  (fst (verdicts validate (totpSecret o) ch) = None ↔ agreed o ch = true) ∧
  (snd (verdicts validate (totpSecret o) ch) = None ↔ agreed o ch = true).
Proof.
  unfold verdicts, agreed. destruct (totpSecret o =s ""); [done|]. destruct ch; [|done]. by case_match.
Qed.

(** A server that does not know the device hangs up before a word is said. *)
Lemma server_refuses o isRelay c ws :
  authorized NewDeviceID (authorizedClients o) (certificates ws) = false →
  on_wire ws (handleServerConn validate NewDeviceID o isRelay c) []
  = Ret (opened c ws ++ [TLSClosed c; ConnClosed c], tt).
Proof.
  intros Ha. unfold handleServerConn, admission. cbn [pbind trigger on_wire answer app net_log].
  by rewrite Ha.
Qed.

(** The end of a session over a direct connection, when the server knows the device ... *)
Lemma direct_known o c ws co wc host c' :
  directly co wc host c' → genuine co wc → sendable (choice co c') →
  authorized NewDeviceID (authorizedClients o) (certificates ws) = true →
  let ok := agreed o (choice co c') in
  ∃ ts tc,
    Duplex.settles (session o false c ws co wc)
      (length (handshake_schedule (totpSecret o) (choice co c'))) (ts, tt) (tc, if ok then None else Some no_address) ∧
    services ts = (if ok then [(OverTLS c, chosen o)] else []) ∧
    services tc = (if ok then [(OverTLS c', client_service co)] else []) ∧
    (ok = false → TLSClosed c ∈ ts ∧ TLSClosed c' ∈ tc).
Proof.
  intros Hd Hg Hc Ha ok. unfold session. rewrite (client_to_auth_direct _ _ _ _ Hd Hg), server_to_auth by done.
  pose proof (handshake_follows validate (totpSecret o) _ _ Hc) as Hf. fold (choice co c') in Hf.
  destruct (follow_extends _ _ _ _ _ _ _ _ _ _ _ _ _ (extends_on_tls ws (served_rest o false c) c _ (opened c ws))
    (extends_on_tls wc (direct_rest co c') c' _ (Dialled "tcp" host (Ok c') :: opened c' wc)) Hf)
    as (q & q' & Hq & (t' & ->)%extends_done & Hfl).
  destruct (extends_hang_up _ _ _ _ _ _ Hq (handshake_server_end _ _ _)) as (r & (t & ->) & Hr).
  destruct (verdicts_agreed o (choice co c')) as [V1 V2].
  destruct (verdicts validate (totpSecret o) (choice co c')) as [vs vc] eqn:E. cbn [fst snd] in *.
  destruct (served_rest_direct ws o c vs) as (t1 & H1 & Hs1 & Hc1).
  destruct (direct_rest_at_once wc co c' vc) as (t2 & H2 & Hs2 & Hc2).
  rewrite (at_once_end _ _ _ _ _ H1) in Hr. rewrite (at_once_end _ _ _ _ _ H2) in Hfl.
  exists ((opened c ws ++ map (TLSIO c) t) ++ t1),
    (((Dialled "tcp" host (Ok c') :: opened c' wc) ++ map (TLSIO c') t') ++ t2). split_and!.
  - eapply Duplex.settles_by_schedule; [exact Hfl| |right; by eexists|].
    + intros e. apply Duplex.waiting_stuck; [|done]. eapply extends_waits; [exact Hq|apply handshake_server_waits|].
      intros a r (u & ->). destruct (served_rest_direct ws o c a) as (u2 & Hu & _).
      by rewrite (at_once_end _ _ _ _ _ Hu).
    + unfold Duplex.hang_up. cbn [Duplex.left Duplex.right Duplex.to_left Duplex.to_right]. rewrite Hr. cbn.
      subst ok. destruct vc, (agreed _ _); naive_solver.
  - rewrite !services_app, services_talk, Hs1. subst ok. destruct vs, (agreed _ _); naive_solver.
  - rewrite !services_app, services_talk, Hs2. subst ok. destruct vc, (agreed _ _); naive_solver.
  - intros E'. subst ok. rewrite E' in V1, V2. split; apply elem_of_app; right; [apply Hc1|apply Hc2]; naive_solver.
Qed.

(** ... and when it does not: it hangs up, and the client sees the end of the stream. *)
Lemma direct_unknown o c ws co wc host c' :
  directly co wc host c' → genuine co wc →
  authorized NewDeviceID (authorizedClients o) (certificates ws) = false →
  ∃ ts tc, Duplex.settles (session o false c ws co wc) 0 (ts, tt) (tc, Some no_address) ∧
    services ts = [] ∧ services tc = [] ∧ TLSClosed c ∈ ts ∧ TLSClosed c' ∈ tc.
Proof.
  intros Hd Hg Ha. unfold session. rewrite (client_to_auth_direct _ _ _ _ Hd Hg), server_refuses by done.
  pose proof (extends_on_tls wc (direct_rest co c') c' (performClientAuth (stdin c') (TOTPPasscode co))
    (Dialled "tcp" host (Ok c') :: opened c' wc)) as Hx.
  destruct (extends_hang_up _ _ _ _ _ _ Hx (client_hung_up _ _)) as (r & (t & ->) & Hr).
  destruct (direct_rest_at_once wc co c' (Some no_challenge)) as (t2 & H2 & Hs2 & Hc2).
  rewrite (at_once_end _ _ _ _ _ H2) in Hr.
  exists (opened c ws ++ [TLSClosed c; ConnClosed c]),
    (((Dialled "tcp" host (Ok c') :: opened c' wc) ++ map (TLSIO c') t) ++ t2).
  split_and!; [|done|by rewrite !services_app, services_talk, Hs2| |apply elem_of_app; right; by apply Hc2].
  - eapply (Duplex.settles_by_schedule _ []); [done| |by left; eexists|].
    + intros e. apply Duplex.waiting_stuck; [done|]. eapply extends_waits; [exact Hx|done|].
      intros a r (u & ->). destruct (direct_rest_at_once wc co c' a) as (u2 & Hu & _).
      by rewrite (at_once_end _ _ _ _ _ Hu).
    + unfold Duplex.hang_up. cbn [Duplex.left Duplex.right Duplex.to_left Duplex.to_right]. by rewrite Hr.
  - apply elem_of_app. right. by apply elem_of_cons; left.
Qed.

(** C8. A session over a direct connection, between a client that reaches the server it looks for
    and a server that may or may not know the client, under every schedule of the two ends: it
    comes to its end after at most twelve steps on the connection.  If the server admits the
    client (the device is on its allowlist, or there is none, and it has no secret, or the
    client a valid passcode), both ends run exactly the service each was asked for, on that
    connection, and the client succeeds.  If not, whether the device is not on the list, the
    passcode wrong or there is none, neither end runs anything, both close the connection and
    the client fails. *)
Theorem direct_session o c ws co wc host c' :
  directly co wc host c' → genuine co wc → sendable (choice co c') →
  let ok := authorized NewDeviceID (authorizedClients o) (certificates ws) && agreed o (choice co c') in
  ∃ n ts tc, (n ≤ 12)%nat ∧
    Duplex.settles (session o false c ws co wc) n (ts, tt) (tc, if ok then None else Some no_address) ∧
    services ts = (if ok then [(OverTLS c, chosen o)] else []) ∧
    services tc = (if ok then [(OverTLS c', client_service co)] else []) ∧
    (ok = false → TLSClosed c ∈ ts ∧ TLSClosed c' ∈ tc).
Proof.
  intros Hd Hg Hc ok. subst ok. destruct (authorized _ _ _) eqn:Ha; cbn [andb].
  - destruct (direct_known o c ws co wc host c' Hd Hg Hc Ha) as (ts & tc & H).
    exists (length (handshake_schedule (totpSecret o) (choice co c'))), ts, tc. split; [|exact H].
    unfold handshake_schedule. repeat case_match; cbn; lia.
  - destruct (direct_unknown o c ws co wc host c' Hd Hg Ha) as (ts & tc & H & Hs & Hc' & Ht).
    exists 0%nat, ts, tc. split_and!; [lia|done..].
Qed.

(** *** Through a relay *)

Definition relayed_rest (co : ClientOptions) (c : nat) (err : option error) : prog netE (option error) :=
  r <- match err with
       | Some e => trigger (CloseTLS c) ;;; Ret (Some (Wrapf "authentication failed" e))
       | None =>
           if negb (TryDirect co) then handleClientConn co (OverTLS c) ;;; Ret None
           else
             direct <- upgrade c client_upgrade ;;
             if direct : bool
             then trigger (CloseTLS c) ;;; handleClientConn co OverP2P ;;; Ret None
             else handleClientConn co (OverTLS c) ;;; Ret None
       end ;;
  trigger (CloseConn c) ;;; Ret r.

(** The client is told a relay, where the server is found. *)
Record through_relay (co : ClientOptions) (wc : world) (c : nat) : Prop := mkThrough {
  relay_address : HasPrefix (RelayURI co) "tcp://" = false ∧ HasPrefix (RelayURI co) "relay://" = true;
  relay_joined : fastest wc = Ok c;
}.

Lemma client_to_auth_relay co wc c :
  through_relay co wc c → genuine co wc →
  on_wire wc (RunClient NewDeviceID DeviceIDFromString id_string url_host stdin co) []
  = on_wire wc (pbind (on_tls c (performClientAuth (stdin c) (TOTPPasscode co))) (relayed_rest co c))
      (RelayDialled [RelayURI co] (Ok c) :: opened c wc).
Proof.
  intros [[Hp Hr] Hj] (cert & rest & Hc & Hid). unfold RunClient, opened. rewrite Hid.
  assert (Hne : (RelayURI co =s "") = false) by (apply seq_eqb_false; intros E; by rewrite E in Hr).
  rewrite Hne. cbn [negb pbind].
  assert (directAddresses [RelayURI co] = []) as ->
    by (unfold directAddresses; by rewrite filter_cons_False, filter_nil by (by rewrite Hp)).
  assert (relayAddresses [RelayURI co] = [RelayURI co]) as ->
    by (unfold relayAddresses; by rewrite filter_cons_True, filter_nil).
  replace (if TryDirect co then _ else _) with (Ret false : prog netE bool) by (by destruct (TryDirect co)).
  cbn [try_direct pbind trigger on_wire answer app net_log]. rewrite Hj.
  unfold relay_session. cbn [pbind trigger on_wire answer app net_log].
  rewrite Hc, seq_eqb_refl. cbn [negb]. by rewrite pbind_assoc_eq.
Qed.

(** What the two ends go on with after an exchange that succeeded. *)
Definition upgraded_server (o : options) (c : nat) (n : negotiated) : prog netE unit :=
  match n with
  | Fallback _ | Broken _ => handleConn o (OverTLS c)
  | Direct => trigger (CloseTLS c) ;;; handleConn o OverP2P
  end ;;; trigger (CloseConn c).

Definition upgraded_client (co : ClientOptions) (c : nat) (direct : bool) : prog netE (option error) :=
  r <- (if direct then trigger (CloseTLS c) ;;; handleClientConn co OverP2P ;;; Ret None
        else handleClientConn co (OverTLS c) ;;; Ret None) ;;
  trigger (CloseConn c) ;;; Ret r.

Lemma upgraded_server_at_once w o c n :
  ∃ t, at_once w (upgraded_server o c n) tt t ∧
    services t = [(match n with Direct => OverP2P | _ => OverTLS c end, chosen o)].
Proof.
  unfold upgraded_server. destruct n.
  - destruct (handleConn_at_once w o OverP2P) as (t & Ht & Hs). eexists. split.
    + apply (at_once_bind w _ _ tt tt); [|apply at_once_close].
      apply (at_once_bind w _ _ tt tt); [apply at_once_close_tls|exact Ht].
    + by rewrite !services_app, Hs.
  - destruct (handleConn_at_once w o (OverTLS c)) as (t & Ht & Hs). eexists.
    split; [apply (at_once_bind w _ _ tt tt); [exact Ht|apply at_once_close]|by rewrite services_app, Hs].
  - destruct (handleConn_at_once w o (OverTLS c)) as (t & Ht & Hs). eexists.
    split; [apply (at_once_bind w _ _ tt tt); [exact Ht|apply at_once_close]|by rewrite services_app, Hs].
Qed.

Lemma upgraded_client_at_once w co c direct :
  ∃ t, at_once w (upgraded_client co c direct) None t ∧
    services t = [(if direct : bool then OverP2P else OverTLS c, client_service co)].
Proof.
  unfold upgraded_client. destruct direct.
  - destruct (handleClientConn_at_once w co OverP2P) as (t & Ht & Hs). eexists. split.
    + apply (at_once_bind w _ _ None None).
      * apply (at_once_bind w _ _ tt None); [apply at_once_close_tls|].
        apply (at_once_bind w _ _ tt None); [exact Ht|apply at_once_Ret].
      * apply (at_once_bind w _ _ tt None); [apply at_once_close|apply at_once_Ret].
    + by rewrite !services_app, Hs.
  - destruct (handleClientConn_at_once w co (OverTLS c)) as (t & Ht & Hs). eexists. split.
    + apply (at_once_bind w _ _ None None); [apply (at_once_bind w _ _ tt None); [exact Ht|apply at_once_Ret]|].
      apply (at_once_bind w _ _ tt None); [apply at_once_close|apply at_once_Ret].
    + by rewrite !services_app, Hs.
Qed.

(** The two ends after an exchange that succeeded, with nothing left on the connection. *)
Lemma relayed_to_upgrade o c ws co wc c' :
  through_relay co wc c' → genuine co wc → sendable (choice co c') →
  authorized NewDeviceID (authorizedClients o) (certificates ws) = true → agreed o (choice co c') = true →
  ∃ t t', Duplex.follow (handshake_schedule (totpSecret o) (choice co c')) (session o true c ws co wc) =
    Some (Duplex.Config (on_wire ws (served_rest o true c None) (opened c ws ++ map (TLSIO c) t))
      (on_wire wc (relayed_rest co c' None)
         ((RelayDialled [RelayURI co] (Ok c') :: opened c' wc) ++ map (TLSIO c') t')) [] []).
Proof.
  intros Hd Hg Hc Ha Hok. unfold session. rewrite server_to_auth, (client_to_auth_relay _ _ _ Hd Hg) by done.
  pose proof (handshake_follows validate (totpSecret o) _ _ Hc) as Hf.
  destruct (follow_extends _ _ _ _ _ _ _ _ _ _ _ _ _ (extends_on_tls ws (served_rest o true c) c _ (opened c ws))
    (extends_on_tls wc (relayed_rest co c') c' _ (RelayDialled [RelayURI co] (Ok c') :: opened c' wc)) Hf)
    as (q & q' & Hq & (t' & ->)%extends_done & Hfl).
  destruct (verdicts_agreed o (choice co c')) as [V1 V2]. fold (choice co c') in *.
  assert (handshake_server validate (totpSecret o) (choice co c') = Ret None) as E.
  { unfold handshake_server. destruct (choice co c') eqn:Ec; [by rewrite (proj2 V1 Hok)|].
    unfold agreed in Hok. by destruct (totpSecret o =s ""). }
  rewrite E in Hq. apply extends_done in Hq as (t & ->). rewrite (proj2 V2 Hok) in Hfl. eauto.
Qed.

(** A session through a relay, under every schedule of the two ends, when the peer connections
    work and no candidate has to be signalled: eight steps after the exchange both ends run the
    service each was asked for on the direct connection that replaced the relay's.  (The
    candidates, and what they can do to the signals, are in Negotiation.v.) *)
Theorem relayed_session o c ws co wc c' offer answer :
  through_relay co wc c' → TryDirect co = true → genuine co wc → sendable (choice co c') →
  authorized NewDeviceID (authorizedClients o) (certificates ws) = true → agreed o (choice co c') = true →
  works (pion_of ws) offer answer → works (pion_of wc) offer answer →
  fits (mkSignal "offer" offer None) → fits (mkSignal "answer" answer None) →
  ∃ ts tc,
    Duplex.completes (session o true c ws co wc)
      (length (handshake_schedule (totpSecret o) (choice co c')) + 8) (ts, tt) (tc, None) ∧
    services ts = [(OverP2P, chosen o)] ∧ services tc = [(OverP2P, client_service co)].
Proof.
  intros Hd Ht Hg Hc Ha Hok Hs Hcl Ho Han.
  destruct (relayed_to_upgrade o c ws co wc c' Hd Hg Hc Ha Hok) as (t & t' & Hfl).
  destruct (follow_extends _ _ _ _ _ _ _ _ _ _ _ _ _
    (extends_upgrade ws (upgraded_server o c) c negotiateWebRTCServer (opened c ws ++ map (TLSIO c) t))
    (extends_upgrade wc (upgraded_client co c') c' client_upgrade
       ((RelayDialled [RelayURI co] (Ok c') :: opened c' wc) ++ map (TLSIO c') t'))
    (upgrade_follows _ _ _ _ Hs Hcl Ho Han)) as (r & r' & (u & ->)%extends_done & (u' & ->)%extends_done & Hfu).
  destruct (upgraded_server_at_once ws o c Direct) as (t1 & H1 & Hs1).
  destruct (upgraded_client_at_once wc co c' true) as (t2 & H2 & Hs2).
  rewrite (at_once_end _ _ _ _ _ H1), (at_once_end _ _ _ _ _ H2) in Hfu. eexists _, _. split_and!.
  - rewrite <- (length_app _ upgrade_schedule). eapply Duplex.completes_by_schedule.
    erewrite follow_app by exact Hfl. unfold served_rest, relayed_rest. rewrite Ht. cbn [negb].
    rewrite !pbind_assoc_eq. exact Hfu.
  - by rewrite !services_app, services_talk, services_upgrade, Hs1.
  - by rewrite !services_app, services_talk, services_upgrade, Hs2.
Qed.

(** The server after the exchange, when the client sends data where a signal is due. *)
Lemma server_on_data w o c h :
  (∀ data, (length data < 4)%nat → Duplex.step1 (on_wire w (served_rest o true c None) h) data = None) ∧
  (∀ b1 b2 b3 b4 data, b1 ≠ x00 → ∃ t,
     Duplex.step1 (on_wire w (served_rest o true c None) h) (b1 :: b2 :: b3 :: b4 :: data)
     = Some (Ret (h ++ t, tt), data, []) ∧ services t = [(OverTLS c, chosen o)]).
Proof.
  pose proof (extends_upgrade w (upgraded_server o c) c negotiateWebRTCServer h) as Hx.
  unfold served_rest. rewrite pbind_assoc_eq. split.
  - intros data Hl. eapply extends_blocked; [exact Hx|by apply server_awaits_signal|].
    by intros a ?%server_not_done.
  - intros b1 b2 b3 b4 data Hb.
    destruct (extends_step1 _ _ _ _ _ _ _ Hx (server_reads_data (pion_of w) b1 b2 b3 b4 data Hb))
      as (q & (t & ->)%extends_done & Hq).
    destruct (upgraded_server_at_once w o c (Broken (Errorf "message too large"))) as (t1 & H1 & Hs1).
    rewrite (at_once_end _ _ _ _ _ H1), <- app_assoc in Hq. eexists. split; [exact Hq|].
    by rewrite services_app, services_upgrade, Hs1.
Qed.

(** C39. A client that was told not to try a direct connection, [--direct=false], cannot use a
    relay.  Under every schedule, once the server has admitted it, the client goes straight on
    to the data on the relayed connection, having sent no signal, while the server waits for
    one.  Less than four bytes of data do not move it.  Of data that starts with a byte other
    than zero it takes the first four as the length of a signal; then it starts its service,
    on the rest. *)
Theorem relay_only_mismatch o c ws co wc c' :
  through_relay co wc c' → TryDirect co = false → genuine co wc → sendable (choice co c') →
  authorized NewDeviceID (authorizedClients o) (certificates ws) = true → agreed o (choice co c') = true →
  ∃ n server tc,
    Duplex.ends_in (session o true c ws co wc) n (Duplex.Config server (Ret (tc, None)) [] []) ∧
    services tc = [(OverTLS c', client_service co)] ∧
    (∀ data, (length data < 4)%nat → Duplex.step1 server data = None) ∧
    (∀ b1 b2 b3 b4 data, b1 ≠ x00 → ∃ ts,
       Duplex.step1 server (b1 :: b2 :: b3 :: b4 :: data) = Some (Ret (ts, tt), data, []) ∧
       services ts = [(OverTLS c, chosen o)]).
Proof.
  intros Hd Ht Hg Hc Ha Hok. destruct (relayed_to_upgrade o c ws co wc c' Hd Hg Hc Ha Hok) as (t & t' & Hfl).
  destruct (upgraded_client_at_once wc co c' false) as (t2 & H2 & Hs2).
  unfold relayed_rest in Hfl. rewrite Ht in Hfl. cbn [negb] in Hfl.
  pose proof (at_once_end _ _ _ _ ((RelayDialled [RelayURI co] (Ok c') :: opened c' wc) ++ map (TLSIO c') t') H2) as E.
  unfold upgraded_client in E. cbv iota in E. rewrite E in Hfl.
  destruct (server_on_data ws o c (opened c ws ++ map (TLSIO c) t)) as [Hw Hb].
  eexists (length (handshake_schedule (totpSecret o) (choice co c'))), _,
    (((RelayDialled [RelayURI co] (Ok c') :: opened c' wc) ++ map (TLSIO c') t') ++ t2).
  split_and!; [|by rewrite !services_app, services_talk, Hs2|exact Hw|].
  - apply Duplex.follow_nsteps in Hfl. refine (Duplex.every_schedule _ _ _ Hfl _).
    intros e. apply Duplex.waiting_stuck; [|done]. apply Hw. cbn. lia.
  - intros b1 b2 b3 b4 data H0. destruct (Hb b1 b2 b3 b4 data H0) as (t1 & Hs & Hs1).
    eexists. split; [exact Hs|]. by rewrite !services_app, services_talk, Hs1.
Qed.

End Session.

(** ** The theorems at concrete ends *)

Definition server_world : world := mkWorld (Err EOF) (λ _ _, Err EOF) (Err EOF) [str "CERT"] pion_ok.
Definition client_world : world :=
  mkWorld (Err EOF) (λ _ _, Ok 7%nat) (Ok 3%nat) [str "SRV"] pion_ok.
Definition locked : options := mkOptions false false [] [] [str "id:CERT"] "JBSWY3DP".
Definition caller (relay code : string) : ClientOptions :=
  mkClient "id:SRV" relay [] true [] false [] code.

Lemma genuine_wit relay code : genuine id_wit Ok (caller relay code) client_world.
Proof. by exists (str "SRV"), []. Qed.

(** The right passcode over TCP, a wrong one, and none. *)
Definition over_tcp (code : string) :=
  session demo_validate id_wit (λ i, i) Ok (λ u, Some (drop 6 u)) (λ _, no_stdin)
    locked false 1 server_world (caller "tcp://h:1" code) client_world.

Lemma direct_session_witness :
  (∃ n ts tc, (n ≤ 12)%nat ∧ Duplex.settles (over_tcp "123456") n (ts, tt) (tc, None) ∧
     services ts = [(OverTLS 1, Pipe)] ∧ services tc = [(OverTLS 7, Pipe)]) ∧
  (∃ n ts tc, (n ≤ 12)%nat ∧ Duplex.settles (over_tcp "000000") n (ts, tt) (tc, Some no_address) ∧
     services ts = [] ∧ services tc = []) ∧
  (∃ n ts tc, (n ≤ 12)%nat ∧ Duplex.settles (over_tcp "") n (ts, tt) (tc, Some no_address) ∧
     services ts = [] ∧ services tc = []).
Proof.
  split_and!.
  - destruct (direct_session demo_validate id_wit (λ i, i) Ok (λ u, Some (drop 6 u)) (λ _, no_stdin) locked 1
      server_world (caller "tcp://h:1" "123456") client_world "h:1" 7) as (n & ts & tc & Hn & H & Hs & Hc & _);
      [by split|apply genuine_wit|intros ? [= <-]; by repeat constructor|by exists n, ts, tc].
  - destruct (direct_session demo_validate id_wit (λ i, i) Ok (λ u, Some (drop 6 u)) (λ _, no_stdin) locked 1
      server_world (caller "tcp://h:1" "000000") client_world "h:1" 7) as (n & ts & tc & Hn & H & Hs & Hc & _);
      [by split|apply genuine_wit|intros ? [= <-]; by repeat constructor|by exists n, ts, tc].
  - destruct (direct_session demo_validate id_wit (λ i, i) Ok (λ u, Some (drop 6 u)) (λ _, no_stdin) locked 1
      server_world (caller "tcp://h:1" "") client_world "h:1" 7) as (n & ts & tc & Hn & H & Hs & Hc & _);
      [by split|apply genuine_wit|done|by exists n, ts, tc].
Defined.

Lemma relayed_session_witness :
  ∃ ts tc, Duplex.completes
    (session demo_validate id_wit (λ i, i) Ok (λ u, Some (drop 6 u)) (λ _, no_stdin)
       locked true 1 server_world (caller "relay://r" "123456") client_world) 20 (ts, tt) (tc, None) ∧
    services ts = [(OverP2P, Pipe)] ∧ services tc = [(OverP2P, Pipe)].
Proof.
  apply (relayed_session demo_validate id_wit (λ i, i) Ok (λ u, Some (drop 6 u)) (λ _, no_stdin) locked 1
    server_world (caller "relay://r" "123456") client_world 3 "v=0" "v=0");
    [by split|done|apply genuine_wit|intros ? [= <-]; by repeat constructor|done|by vm_compute|by split|by split
    |exact offer_fits|exact answer_fits].
Defined.

(** The passphrase "secret", sent by such a client, arrives as "et". *)
Lemma relay_only_mismatch_witness :
  ∃ n server tc ts,
    Duplex.ends_in
      (session demo_validate id_wit (λ i, i) Ok (λ u, Some (drop 6 u)) (λ _, no_stdin)
         locked true 1 server_world (mkClient "id:SRV" "relay://r" [] false [] false [] "123456") client_world)
      n (Duplex.Config server (Ret (tc, None)) [] []) ∧
    services tc = [(OverTLS 3, Pipe)] ∧
    Duplex.step1 server "secret" = Some (Ret (ts, tt), str "et", []) ∧
    services ts = [(OverTLS 1, Pipe)].
Proof.
  destruct (relay_only_mismatch demo_validate id_wit (λ i, i) Ok (λ u, Some (drop 6 u)) (λ _, no_stdin) locked 1
    server_world (mkClient "id:SRV" "relay://r" [] false [] false [] "123456") client_world 3)
    as (n & server & tc & H & Hs & _ & Hd); [by split|done|by exists (str "SRV"), []
    |intros ? [= <-]; by repeat constructor|done|by vm_compute|].
  destruct (Hd x73 x65 x63 x72 "et" ltac:(done)) as (ts & Ht & Hst). by exists n, server, tc, ts.
Defined.
