(* ===== verification/Unlock.v ===== *)
(** * Unlocking a machine, end to end

    The parts of the program that an unlock passes through, put together: the agent starts
    this same program with arguments of its own, which parse to the flags of a pipe server
    or client; that process lets nobody but the key holder through; the pipes at the two
    ends of the connection carry the passphrase from the phone's input to the payload's
    descriptor; and what arrives there is what the agent hands over. *)

From S2P Require Import Prelude GoStrings GoNumbers Effects Conn Auth WebRTC NetUtil ProxyProtocol.
From S2P Require Import LuksConfig LuksAgent Net ServerConn Client Identity Cli Flags Startup Server Process.
From S2P Require Import Splice Stdio.

Set Default Proof Using "Type".

(** ** The command the agent runs *)

(** The flags of the subprocess, for the two roles. *)
Definition unlock_server_flags (cfg : luksConfig) : server_flags :=
  let d := default_server_flags in
  mkServerFlags (serverCert d) (serverKey d) (Seed cfg) false false [] false (serverRelay d)
    (serverDiscovery d) [] [] (KeyHolderDeviceID cfg) 0 "error" (serverLogFormat d) false []
    UnlockAnnounceInterval.

Definition unlock_client_flags (cfg : luksConfig) : client_flags :=
  let d := default_client_flags in
  mkClientFlags (clientCert d) (clientKey d) (Seed cfg) [] false [] [] (clientDiscovery d) true "error"
    (clientLogFormat d) [].

Lemma unlock_server_args cfg args :
  transfer_args cfg = Some args → Role cfg = str "server" →
  args = str "server" :: concat (map render
    ([Spaced "seed" (Seed cfg); Spaced "log-level" "error"] ++
     (if KeyHolderDeviceID cfg =s "" then [] else [Spaced "authorized-clients" (KeyHolderDeviceID cfg)]) ++
     [Spaced "announce-interval" announce_interval_text])).
Proof.
  unfold transfer_args. intros H Hr. rewrite Hr in H. change (str "server" =s "server") with true in H.
  injection H as <-. by destruct (KeyHolderDeviceID cfg =s "").
Qed.

Lemma item_ok_spaced fs n k v :
  name_ok n → formal fs n = Some k → k ≠ BoolFlag → accepts k v = true → item_ok fs (Spaced n v).
Proof. intros. split; [done|]. by exists k. Qed.

Ltac spaced k := apply (item_ok_spaced _ _ k); [split; [done|literal]|by vm_compute..].

(** The arguments mean what the agent means: a pipe server with the configured seed, for
    nobody but the key holder, announcing itself every minute. *)
Lemma unlock_server_interpreted cfg args :
  transfer_args cfg = Some args → Role cfg = str "server" →
  interpret args = Flags.Server (unlock_server_flags cfg).
Proof.
  intros Ha Hr. rewrite (unlock_server_args _ _ Ha Hr). unfold interpret.
  change (str "server" =s "server") with true. unfold with_flags.
  match goal with |- context [concat (map render ?l)] => set (items := l) end.
  assert (Hok : Forall (item_ok server_flag_set) items).
  { assert (item_ok server_flag_set (Spaced "seed" (Seed cfg))) by spaced StringFlag.
    assert (item_ok server_flag_set (Spaced "log-level" "error")) by spaced StringFlag.
    assert (item_ok server_flag_set (Spaced "authorized-clients" (KeyHolderDeviceID cfg))) by spaced StringFlag.
    assert (item_ok server_flag_set (Spaced "announce-interval" announce_interval_text)) by spaced DurationFlag.
    unfold items. destruct (KeyHolderDeviceID cfg =s ""); cbn [app]; repeat (apply Forall_cons; split);
      done || by apply Forall_nil. }
  destruct (parse_render server_flag_set items [] Hok) as [-> _]. unfold items.
  destruct (KeyHolderDeviceID cfg =s "") eqn:Eh; [apply seq_eqb_true in Eh|]; cbn [app].
  - unfold unlock_server_flags. rewrite Eh. reflexivity.
  - reflexivity.
Qed.

(** A key holder that is no flag is the client's target. *)
Lemma unlock_client_interpreted cfg args :
  transfer_args cfg = Some args → Role cfg = str "client" →
  match KeyHolderDeviceID cfg with "-"%byte :: _ :: _ => False | _ => True end →
  interpret args = Flags.Client (unlock_client_flags cfg)
    (if KeyHolderDeviceID cfg =s "" then [] else [KeyHolderDeviceID cfg]).
Proof.
  intros Ha Hr Hh. unfold transfer_args in Ha. rewrite Hr in Ha.
  change (str "client" =s "server") with false in Ha. change (str "client" =s "client") with true in Ha.
  set (items := [Spaced "seed" (Seed cfg); Spaced "log-level" "error"] ++
    (if KeyHolderDeviceID cfg =s "" then [] else [Word (KeyHolderDeviceID cfg)])).
  assert (args = str "client" :: concat (map render items)) as ->.
  { injection Ha as <-. unfold items. by destruct (KeyHolderDeviceID cfg =s ""). }
  unfold interpret. change (str "client" =s "server") with false.
  change (str "client" =s "client") with true. unfold with_flags.
  assert (Hok : Forall (item_ok client_flag_set) items).
  { assert (item_ok client_flag_set (Spaced "seed" (Seed cfg))) by spaced StringFlag.
    assert (item_ok client_flag_set (Spaced "log-level" "error")) by spaced StringFlag.
    unfold items. destruct (KeyHolderDeviceID cfg =s ""); cbn [app]; repeat (apply Forall_cons; split);
      done || by apply Forall_nil. }
  destruct (parse_render client_flag_set items [] Hok) as [-> _]. unfold items.
  by destruct (KeyHolderDeviceID cfg =s "").
Qed.

(** ** Only the key holder *)

Section Holder.
Context (validate : bytes → bytes → bool) (NewDeviceID id_string : bytes → bytes).
Context (addr_string : addr → bytes) (DeviceIDFromString : bytes → result bytes).
Context (url_ok : bytes → option error) (quote : bytes → bytes) (polls : nat).
Context (url_host : bytes → option bytes) (stdin : nat → Stdin).

(** The server the agent runs, in any state it can come to: whoever has been served got the
    pipe, and is the key holder, if the configuration names one. *)
Definition holder_only (cfg : luksConfig) : Prop :=
  ∀ s c g pre d sv post,
    Process.reachable validate NewDeviceID id_string addr_string DeviceIDFromString url_ok quote polls
      (unlock_server_flags cfg) s →
    handlers s !! c = Some g → done_ g = pre ++ Served d sv :: post →
    sv = Net.Pipe ∧
    (comma_list (KeyHolderDeviceID cfg) ≠ [] →
     ∃ cert rest i, CertificatesOf c (cert :: rest) ∈ pre ∧
       i ∈ comma_list (KeyHolderDeviceID cfg) ∧ DeviceIDFromString i = Ok (NewDeviceID cert)).

Lemma unlock_server_holder_only cfg : holder_only cfg.
Proof.
  intros s c g pre d sv post Hr Hc Hd. split.
  - destruct (handler_services _ _ _ _ _ _ _ _ _ s c g Hr eq_refl Hc) as [E|[d' E]];
      rewrite Hd, services_app in E; cbn in E; [by destruct (services pre)|].
    destruct (services pre) as [|? [|]]; cbn in E; by simplify_eq.
  - exact (is_named _ _ _ _ _ _ _ (handler_entitled _ _ _ _ _ _ _ _ _ s c g pre _ post Hr Hc Hd eq_refl)).
Qed.

(** The client the agent runs: it is run for the key holder, if the configuration names one,
    and whatever it serves is the pipe, with a server that has just presented the certificate
    of the device it was run for. *)
Definition holder_dialled (cfg : luksConfig) : Prop :=
  ∀ words cpre cert o r cpost,
    words = (if KeyHolderDeviceID cfg =s "" then [] else [KeyHolderDeviceID cfg]) →
    prefix_exec (clientCmd NewDeviceID id_string (unlock_client_flags cfg) words)
      (cpre ++ Did (RunTheClient cert o) r :: cpost) →
    (let holder := fst (parse_target (KeyHolderDeviceID cfg) []) in holder ≠ [] → ServerID o = holder) ∧
    ∀ pre d sv post,
      prefix_exec (RunClient NewDeviceID DeviceIDFromString id_string url_host stdin o)
        (pre ++ Served d sv :: post) →
      sv = Net.Pipe ∧ ∃ c cert rest, CertificatesOf c (cert :: rest) ∈ pre ∧
        DeviceIDFromString (ServerID o) = Ok (NewDeviceID cert).

Lemma unlock_client_holder_dialled cfg : holder_dialled cfg.
Proof.
  clear validate url_ok quote addr_string. intros words cpre cert o r cpost -> Hc.
  pose proof (safe_always (E := cliE) _ _ _ _ _ _ (clientCmd_safe NewDeviceID id_string _ _) Hc) as H.
  destruct H as (_ & Hs & _ & _ & _ & H1 & H2 & H3 & _). split.
  - intros holder. subst holder. by destruct (KeyHolderDeviceID cfg =s "") eqn:E; [apply seq_eqb_true in E as ->|].
  - intros pre d sv post Hr.
    pose proof (safe_always (E := netE) _ _ _ _ _ _
      (RunClient_safe NewDeviceID DeviceIDFromString id_string url_host stdin o) Hr) as [-> Ha].
    unfold client_service. rewrite H1, H2, H3. split; [done|].
    destruct Ha as (serverID & c & Hid & (h0 & t0 & more & -> & (h1 & di & ct & rest & -> & _ & <-) & _) & _).
    exists c, ct, rest. split; [set_solver|done].
Qed.

(** A key holder that would be taken for a flag. *)
Definition dashed (holder : bytes) : bool :=
  match holder with "-"%byte :: _ :: _ => true | _ => false end.

(** C4. Every passphrase the agent hands to the system came over the transfer it was configured
    for, unchanged.  When the machine waits to be connected to, that transfer is a pipe
    server with the configured seed which, in every state it can come to, has served nobody
    but the key holder the configuration names; when it dials out, it is a pipe client with
    the configured seed that takes data only from the key holder. *)
Theorem unlock_from_holder n pre fd payload addr r post :
  prefix_exec (runLUKSAgent n) (pre ++ SentTo fd payload addr r :: post) →
  ∃ cfg self args out,
    configured pre cfg ∧ transfer_args cfg = Some args ∧
    Transferred self args (inr out) ∈ pre ∧ payload = str "+" ++ out ∧
    (Role cfg = str "server" → interpret args = Flags.Server (unlock_server_flags cfg) ∧ holder_only cfg) ∧
    (Role cfg = str "client" → dashed (KeyHolderDeviceID cfg) = false →
       interpret args = Flags.Client (unlock_client_flags cfg)
         (if KeyHolderDeviceID cfg =s "" then [] else [KeyHolderDeviceID cfg]) ∧ holder_dialled cfg).
Proof.
  intros H. pose proof (safe_always (E := osE) guarded _ (λ _ _, True) pre _ post (agent_loop_safe n [] _) H) as Hg.
  destruct Hg as (h0 & req & cfg & self & args & out & _ & Hc & Ha & _ & -> & -> & _).
  exists cfg, self, args, out. split_and!; [|done| |done| |].
  - eapply configured_later; [|exact Hc]. by apply prefix_app_r.
  - set_solver.
  - intros Hr. split; [by apply unlock_server_interpreted|apply unlock_server_holder_only].
  - intros Hr Hd. split; [|apply unlock_client_holder_dialled]. apply unlock_client_interpreted; [done..|].
    by destruct (KeyHolderDeviceID cfg) as [|[] [|]].
Qed.
End Holder.

(** ** The passphrase on its way *)

Module Tandem.

Section Tandem.
(** Whether the connections of the two ends can close one half, and whether ending one half ends
    both: a data channel's peer mirrors the reset of a stream. *)
Context (phone_half machine_half mirrors : bool).

(** The pipe of the sender, whose input is the passphrase, and that of the machine; neither
    input is a terminal. *)
Record state := mkState { phone : Pipe.state; machine : Pipe.state }.

Definition init : state := mkState Pipe.init Pipe.init.

(** The connection from [a] to [b] delivers what [a] has written, in order, and its end only
    after all of it and after [a] has ended its half or closed; or, on a data channel, after [b]
    has ended its own. *)
Definition carries (a b : Pipe.state) : Prop :=
  sent (Pipe.inc b) `prefix_of` taken (Pipe.out a) ∧
  (ended (Pipe.inc b) = true →
     sent (Pipe.inc b) = taken (Pipe.out a) ∧ (Pipe.half a || Pipe.closed a) = true ∨
     mirrors = true ∧ Pipe.half b = true).

Definition connected (s : state) : Prop := carries (phone s) (machine s) ∧ carries (machine s) (phone s).

Inductive step : state → state → Prop :=
| phone_moves p p' m :
    Pipe.step phone_half false p p' → connected (mkState p' m) → step (mkState p m) (mkState p' m)
| machine_moves p m m' :
    Pipe.step machine_half false m m' → connected (mkState p m') → step (mkState p m) (mkState p m').

Definition failed (s : state) : Prop :=
  prog_ (Pipe.inc (phone s)) = Failed ∨ prog_ (Pipe.inc (machine s)) = Failed.

(** The machine has nothing to send: the agent runs it without a standard input. *)
Definition quiet (m : Pipe.state) : Prop := sent (Pipe.out m) = [].

(** Before the machine is done, or learns that the sender is, the sender has ended its half,
    which it does only after a passphrase sent to its end. *)
Record inv (s : state) : Prop := mkInv {
  inv_phone : Pipe.inv phone_half false (phone s);
  inv_machine : Pipe.inv machine_half false (machine s);
  inv_connected : connected s;
  inv_ended : ended (Pipe.inc (machine s)) = true ∨ Pipe.over (Pipe.top (machine s)) →
              Pipe.half (phone s) = true ∨ failed s;
}.

Lemma tandem_inv_init : inv init.
Proof.
  assert (Pipe.inv phone_half false Pipe.init) by (by split).
  assert (Pipe.inv machine_half false Pipe.init) by (by split).
  split; [done..| |]; [by split; split|]. by intros [|].
Qed.

(** Halves stay closed and failures stay failures; who is quiet was. *)
Lemma pipe_keeps h p p' :
  Pipe.step h false p p' →
  (Pipe.half p = true → Pipe.half p' = true) ∧
  (prog_ (Pipe.inc p) = Failed → prog_ (Pipe.inc p') = Failed) ∧ (quiet p' → quiet p).
Proof.
  unfold quiet. intros [x x' y h' d m c Hd|x y y' h' d m c Hd| | | | | |]; cbn; try done.
  - split_and!; try done. destruct Hd; cbn; try done. by intros [? _]%app_eq_nil.
  - split_and!; try done. intros E. destruct (dstep_mono _ _ _ Hd) as [_ Hp]. by destruct Hp as [-> _]; rewrite E.
Qed.

(** Who is quiet does not end its half. *)
Lemma quiet_open h m : Pipe.inv h false m → quiet m → Pipe.half m = true → False.
Proof.
  intros [[Ht _] _ Hhalf _ _ _ _] Hq Hh. destruct (Hhalf Hh) as [_ Hne]. unfold quiet in Hq. rewrite Hq in Ht.
  by apply prefix_nil_inv in Ht.
Qed.

(** A pipe that is over, and whose receiving copy did not fail, has seen the other side end. *)
Lemma over_ended h s : Pipe.inv h false s → Pipe.over (Pipe.top s) → prog_ (Pipe.inc s) ≠ Failed →
  ended (Pipe.inc s) = true.
Proof.
  intros [_ [_ Hf] _ _ Hp _ _] Ho Hn. apply Hf. assert (Pipe.top s ≠ Pipe.Receiving) as Hr
    by (intros E; by rewrite E in Ho). specialize (Hp Hr). by destruct (prog_ (Pipe.inc s)).
Qed.

(** The sender's connection closes only after the machine is done, since the machine, with
    nothing to send, ends nothing before; or, on a data channel, after the sender ended its half. *)
Lemma phone_closed s :
  Pipe.inv phone_half false (phone s) → Pipe.inv machine_half false (machine s) → connected s →
  quiet (machine s) → Pipe.closed (phone s) = true → ¬ failed s →
  Pipe.over (Pipe.top (machine s)) ∨ Pipe.half (phone s) = true.
Proof.
  intros Hp Hm [_ [_ Hb]] Hq Hc Hf.
  assert (He : ended (Pipe.inc (phone s)) = true).
  { eapply over_ended; [exact Hp|by apply Hp|]. intros E. apply Hf. by left. }
  destruct (Hb He) as [[_ [Hh|Hcl]%orb_true_iff]|[_ Hh]]; [|left; by apply Hm|by right].
  by destruct (quiet_open _ _ Hm Hq).
Qed.

Lemma failed_dec s : failed s ∨ ¬ failed s.
Proof.
  unfold failed. destruct (prog_ (Pipe.inc (phone s))), (prog_ (Pipe.inc (machine s))); naive_solver.
Qed.

Lemma tandem_inv_step s s' : inv s → step s s' → quiet (machine s) → quiet (machine s') → inv s'.
Proof.
  intros Hi Hs. destruct Hs as [p p' m Hst Hc'|p m m' Hst Hc']; destruct Hi as [Hp Hm Hc He];
    cbn [phone machine] in *; intros Hq Hq'.
  - destruct (pipe_keeps _ _ _ Hst) as (K1 & K2 & _).
    split; cbn [phone machine]; [exact (Pipe.pipe_inv_step _ _ _ _ Hst Hp)|done|done|].
    unfold failed in *. cbn [phone machine] in *. naive_solver.
  - assert (Hm' : Pipe.inv machine_half false m') by exact (Pipe.pipe_inv_step _ _ _ _ Hst Hm).
    destruct (pipe_keeps _ _ _ Hst) as (_ & K2 & _). split; cbn [phone machine]; [done..|].
    intros Hor. destruct (failed_dec (mkState p m')) as [?|Hf]; [by right|].
    assert (Hen : ended (Pipe.inc m') = true).
    { destruct Hor as [?|Ho]; [done|]. eapply over_ended; [exact Hm'|done|]. intros E. apply Hf. by right. }
    left. destruct Hc' as [[_ Hd] _]. destruct (Hd Hen) as [[_ [Hh|Hcl]%orb_true_iff]|[_ Hh]]; [done| |].
    + assert (Hf0 : ¬ failed (mkState p m)) by (unfold failed in *; cbn in *; naive_solver).
      destruct (phone_closed (mkState p m)) as [Ho|?]; try done. destruct He as [?|?]; [by right|done|done].
    + by destruct (quiet_open _ _ Hm' Hq').
Qed.

Lemma tandem_inv_reachable s : rtc step init s → quiet (machine s) → inv s.
Proof.
  revert s. apply (rtc_ind_r (λ s, quiet (machine s) → inv s) init); [intros _; apply tandem_inv_init|].
  intros s s' Hr Hst IH Hq'. assert (Hq : quiet (machine s)).
  { destruct Hst as [p p' m Hst Hc'|p m m' Hst Hc']; [done|]. cbn in *. by apply (pipe_keeps _ _ _ Hst). }
  by eapply tandem_inv_step; [apply IH| | |].
Qed.

(** However the four copies interleave, when the machine's pipe returns, and no copy that
    receives has failed, it has taken the sender's complete input, which is not empty. *)
Lemma arrives s :
  rtc step init s → quiet (machine s) → Pipe.over (Pipe.top (machine s)) → ¬ failed s →
  ended (Pipe.out (phone s)) = true ∧ taken (Pipe.inc (machine s)) = sent (Pipe.out (phone s)) ∧
  sent (Pipe.out (phone s)) ≠ [].
Proof.
  intros Hr Hq Ho Hf. destruct (tandem_inv_reachable s Hr Hq) as [Hp Hm [[_ Hd] _] He].
  assert (Hen : ended (Pipe.inc (machine s)) = true).
  { eapply over_ended; [exact Hm|done|]. intros E. apply Hf. by right. }
  destruct He as [Hh|?]; [by right| |done]. destruct Hp as [[_ Fp] _ Hhalf _ _ _ _].
  destruct (Hhalf Hh) as [E Hne]. destruct (Fp E) as [E1 E2].
  destruct (Hd Hen) as [[E3 _]|[_ Hh']]; [|by destruct (quiet_open _ _ Hm Hq)].
  destruct Hm as [_ [_ Fm] _ _ Hpeer _ _].
  assert (taken (Pipe.inc (machine s)) = sent (Pipe.inc (machine s))) as ->; [|by rewrite E3, E2 in *].
  apply Fm. assert (Pipe.top (machine s) ≠ Pipe.Receiving) as Hrc by (intros E'; by rewrite E' in Ho).
  specialize (Hpeer Hrc). destruct (prog_ (Pipe.inc (machine s))) eqn:E'; try done. exfalso. apply Hf. by right.
Qed.

(** C7. The passphrase arrives whole and alone at a machine that sends nothing itself, which is how
    the agent runs it, without a standard input; and whose standard output, which no other
    descriptor shares, is not its standard error.  However the four copies of the two ends
    interleave, whether ending one half of the connection ends both or not, and whatever else
    the machine's process prints, on any descriptor but the reserved one: when its pipe has
    returned and no copy that receives failed, the output the agent reads has got the sender's
    complete input, to its end, not empty, and nothing else. *)
Theorem whole_passphrase lowest dup_error dup2_error s fds0 stdout stderr files ws :
  (∀ t, t !! lowest t = None) →
  table fds0 !! 1 = Some stdout → table fds0 !! 2 = Some stderr → stdout ≠ stderr →
  (∀ fd, table fds0 !! fd = Some stdout → fd = 1) →
  rtc step init s → quiet (machine s) → Pipe.over (Pipe.top (machine s)) → ¬ failed s →
  let '(d, fds1) := run (kernel lowest dup_error dup2_error) reserveDataStdout fds0 in
  d ≠ 1 → written_to d ws = taken (Pipe.inc (machine s)) →
  ended (Pipe.out (phone s)) = true ∧ sent (Pipe.out (phone s)) ≠ [] ∧
  default [] (writes fds1 files ws !! stdout) = default [] (files !! stdout) ++ sent (Pipe.out (phone s)).
Proof.
  intros Hl Ho He Hne Hu Hr Hq Hov Hf. destruct (arrives s Hr Hq Hov Hf) as (E1 & E2 & E3).
  pose proof (payload_unmixed lowest dup_error dup2_error Hl fds0 stdout stderr files ws Ho He Hne Hu) as H.
  destruct (run _ _ _) as [d fds1]. intros Hd Hw. by rewrite (H Hd), Hw, E2.
Qed.
End Tandem.

(** A run: the sender sends four bytes and ends, the machine receives them and returns. *)
Definition four_sent : Pipe.state :=
  Pipe.mkState (mkDir "pass" true "pass" Finished) fresh_dir true true Pipe.Receiving false.
Definition four_received : Pipe.state :=
  Pipe.mkState fresh_dir (mkDir "pass" true "pass" Finished) false false (Pipe.Returned true) false.

Ltac wired := split; split; first [apply prefix_nil|done|by intros _; left; split].
Ltac phone_does t := eapply rtc_l; [apply phone_moves; [t|wired]|].
Ltac machine_does t := eapply rtc_l; [apply machine_moves; [t|wired]|].

Lemma four_reachable : rtc (step true true false) init (mkState four_sent four_received).
Proof.
  unfold init, Pipe.init.
  phone_does ltac:(apply Pipe.sends, (d_send _ [] [] Running "pass")).
  phone_does ltac:(apply Pipe.sends, (d_copy _ _ _ [] "pass" []); done).
  phone_does ltac:(apply Pipe.sends, d_end).
  phone_does ltac:(by apply Pipe.sends, d_finish).
  phone_does ltac:(by apply Pipe.stdin_half_closes).
  machine_does ltac:(apply Pipe.receives, (d_send _ [] [] Running "pass")).
  machine_does ltac:(apply Pipe.receives, (d_copy _ _ _ [] "pass" []); done).
  machine_does ltac:(apply Pipe.receives, d_end).
  machine_does ltac:(by apply Pipe.receives, d_finish).
  machine_does ltac:(by apply (Pipe.peer_done _ false)).
  machine_does ltac:(apply Pipe.grace_over). done.
Qed.

Lemma whole_passphrase_witness :
  default [] (writes (snd reserved_wit) ∅
    [(1, str "Joined relay"); (fst reserved_wit, str "pass"); (2, str "bye")] !! str "pipe") = str "pass".
Proof.
  pose proof (whole_passphrase true true false above None None (mkState four_sent four_received) fds_wit "pipe" "console" ∅
    [(1, str "Joined relay"); (fst reserved_wit, str "pass"); (2, str "bye")]
    above_free eq_refl eq_refl ltac:(by vm_compute) fds_wit_pipe four_reachable eq_refl I) as H.
  change (run (kernel above None None) reserveDataStdout fds_wit) with reserved_wit in H.
  assert (Hf : ¬ failed (mkState four_sent four_received)) by (by intros [|]). specialize (H Hf).
  destruct reserved_wit as [d s'] eqn:E. vm_compute in E. injection E as <- <-. by apply H.
Defined.
End Tandem.

(** ** A transfer that breaks off *)

(** The machine's pipe returns just as well when its receiving copy failed: for every
    prefix of the passphrase there is a run in which that is all that arrived.  The pipe
    reports no error, and the process that ran it ends with status zero. *)
Lemma broken_transfer_returns got rest :
  ∃ s, rtc (Tandem.step true true false) Tandem.init s ∧ Pipe.over (Pipe.top (Tandem.machine s)) ∧
    sent (Pipe.out (Tandem.phone s)) = got ++ rest ∧ taken (Pipe.inc (Tandem.machine s)) = got.
Proof.
  exists (Tandem.mkState
    (Pipe.mkState (mkDir (got ++ rest) false (got ++ rest) Running) fresh_dir false false Pipe.Receiving false)
    (Pipe.mkState fresh_dir (mkDir (got ++ rest) false got Failed) false false (Pipe.Returned true) false)).
  split_and!; [|done..]. unfold Tandem.init, Pipe.init.
  Tandem.phone_does ltac:(apply Pipe.sends, (d_send _ [] [] Running (got ++ rest))).
  Tandem.phone_does ltac:(apply Pipe.sends, (d_copy _ _ _ [] (got ++ rest) []); [done|by rewrite app_nil_r]).
  Tandem.machine_does ltac:(apply Pipe.receives, (d_send _ [] [] Running (got ++ rest))).
  Tandem.machine_does ltac:(apply Pipe.receives, (d_copy _ _ _ [] got rest); done).
  Tandem.machine_does ltac:(apply Pipe.receives, d_fail).
  Tandem.machine_does ltac:(by apply (Pipe.peer_done _ false)).
  Tandem.machine_does ltac:(apply Pipe.grace_over). done.
Qed.

(** A machine that does send something loses the guarantee.  For every prefix of the sender's
    input and every answer there is a run in which the machine answers and ends its half, the
    sender's input is slower than the grace period it is then given, and the sender closes: the
    machine has returned with the prefix alone, and no copy has failed. *)
Theorem answer_cuts_transfer (got rest answer : bytes) :
  answer ≠ [] →
  ∃ s, rtc (Tandem.step true true false) Tandem.init s ∧ ¬ Tandem.failed s ∧
    Pipe.over (Pipe.top (Tandem.machine s)) ∧ ended (Pipe.inc (Tandem.machine s)) = true ∧
    sent (Pipe.out (Tandem.phone s)) = got ++ rest ∧ taken (Pipe.inc (Tandem.machine s)) = got.
Proof.
  intros Ha.
  exists (Tandem.mkState
    (Pipe.mkState (mkDir (got ++ rest) false got Running) (mkDir answer true answer Finished) false false
       (Pipe.Returned true) true)
    (Pipe.mkState (mkDir answer true answer Finished) (mkDir got true got Finished) true true
       (Pipe.Returned true) false)).
  split_and!; [|by intros [|]|done..]. unfold Tandem.init, Pipe.init.
  Tandem.machine_does ltac:(apply Pipe.sends, (d_send _ [] [] Running answer)).
  Tandem.machine_does ltac:(apply Pipe.sends, (d_copy _ _ _ [] answer []); [done|by rewrite app_nil_r]).
  Tandem.machine_does ltac:(apply Pipe.sends, d_end).
  Tandem.machine_does ltac:(by apply Pipe.sends, d_finish).
  Tandem.machine_does ltac:(by apply Pipe.stdin_half_closes).
  Tandem.phone_does ltac:(apply Pipe.sends, (d_send _ [] [] Running (got ++ rest))).
  Tandem.phone_does ltac:(apply Pipe.sends, (d_copy _ _ _ [] got rest); done).
  Tandem.phone_does ltac:(apply Pipe.receives, (d_send _ [] [] Running answer)).
  Tandem.phone_does ltac:(apply Pipe.receives, (d_copy _ _ _ [] answer []); [done|by rewrite app_nil_r]).
  Tandem.phone_does ltac:(apply Pipe.receives, d_end).
  Tandem.phone_does ltac:(by apply Pipe.receives, d_finish).
  Tandem.phone_does ltac:(by apply (Pipe.peer_done _ false)).
  Tandem.phone_does ltac:(apply Pipe.grace_over).
  Tandem.phone_does ltac:(apply Pipe.closes).
  Tandem.machine_does ltac:(apply Pipe.receives, (d_send _ [] [] Running got)).
  Tandem.machine_does ltac:(apply Pipe.receives, (d_copy _ _ _ [] got []); [done|by rewrite app_nil_r]).
  Tandem.machine_does ltac:(apply Pipe.receives, d_end).
  Tandem.machine_does ltac:(by apply Pipe.receives, d_finish).
  Tandem.machine_does ltac:(by apply (Pipe.peer_done _ false)).
  Tandem.machine_does ltac:(apply Pipe.grace_over). done.
Qed.

Lemma answer_cuts_transfer_witness :
  ∃ s, rtc (Tandem.step true true false) Tandem.init s ∧ ¬ Tandem.failed s ∧
    Pipe.over (Pipe.top (Tandem.machine s)) ∧ ended (Pipe.inc (Tandem.machine s)) = true ∧
    sent (Pipe.out (Tandem.phone s)) = str "pass" ∧ taken (Pipe.inc (Tandem.machine s)) = str "pa".
Proof. by apply (answer_cuts_transfer (str "pa") (str "ss") (str "ok")). Defined.

Lemma unlock_from_holder_witness :
  ∃ cfg self args out,
    configured (take 11 trace_wit) cfg ∧ transfer_args cfg = Some args ∧
    Transferred self args (inr out) ∈ take 11 trace_wit ∧ str "+pass" = str "+" ++ out ∧
    (Role cfg = str "server" → interpret args = Flags.Server (unlock_server_flags cfg) ∧
       holder_only (λ _ _, false) (λ b, b) (λ b, b) (λ _, []) (λ _, Err EOF) (λ _, None) (λ b, b) 1 cfg) ∧
    (Role cfg = str "client" → dashed (KeyHolderDeviceID cfg) = false →
       interpret args = Flags.Client (unlock_client_flags cfg)
         (if KeyHolderDeviceID cfg =s "" then [] else [KeyHolderDeviceID cfg]) ∧
       holder_dialled (λ b, b) (λ b, b) (λ _, Err EOF) (λ _, None) (λ _, no_stdin) cfg).
Proof.
  apply (unlock_from_holder (λ _ _, false) (λ b, b) (λ b, b) (λ _, []) (λ _, Err EOF) (λ _, None) (λ b, b) 1
    (λ _, None) (λ _, no_stdin)
    1 (take 11 trace_wit) 3 "+pass" "/run/systemd/ask-password/sck.1" None (drop 12 trace_wit)).
  assert (E : take 11 trace_wit ++ SentTo 3 "+pass" "/run/systemd/ask-password/sck.1" None
    :: drop 12 trace_wit = trace_wit) by (vm_compute; reflexivity).
  rewrite E. exact (exec_prefix _ _ _ trace_wit_exec).
Defined.
